(* ===== verification/_CoqProject ===== *)
-Q . S2P
Prelude.v
JsValue.v
Text.v
Json.v
JsonText.v
Build.v
BuildCorrect.v
Authoring.v
ProcessV1.v
ProcessV1Correct.v
ProcessV1Start.v
V2.v
V2Invariant.v
V2Correct.v
V2Limits.v
V2Lifecycle.v
V2Answers.v
V2Wire.v
V2Framing.v
V2Calls.v
V2Streams.v
V2Outbound.v
V2Start.v
V2Runs.v
V2Inputs.v
Legacy.v
LegacyCorrect.v
LegacyReading.v
LegacyRuns.v
Extract.v
ExtractMeaning.v
ExtractCorrect.v
ExtractOrder.v
ExtractEnds.v
Capability.v
Capabilities.v
CapabilityCorrect.v
Contracts.v
ContractsCorrect.v
EndToEnd.v
CapabilityLock.v
CapabilityLockCorrect.v
