(* ===== verification/Prelude.v ===== *)
(** * Verification library for the Lenso Bun SDK and runtime

    The repository lets an author write a Lenso Plugin in TypeScript.  A declaration
    ([definePlugin]) names the capabilities a Plugin provides and depends on; a build reads
    it statically and checks what product lowerings generate; generated bindings translate
    between typed methods and wire values; and one of three servers runs the Plugin for a
    Host over authenticated JSON-RPC.  A script keeps the generated bindings in step with the
    contracts that a lock names.  This library models the TypeScript of
    packages/lenso-bun-plugin/src and packages/lenso-bun/src, and that script, as executable
    definitions and proves what makes each part correct.

    ** The parts and their files

    - The language.  JsValue.v: strings as UTF-16 code units, numbers as IEEE-754 doubles,
      plain values and objects in property order, comparison, sorting.  Text.v: UTF-8 and
      UTF-16, thrown values, the two bounded failure details.  Json.v: JSON.stringify,
      JSON.parse, Number(text).  JsonText.v: a value that JSON can carry survives
      JSON.stringify, UTF-8 and JSON.parse.  This file: results that may throw, with their
      laws, and the shared lemmas and tactics.
    - The build boundary (build.ts).  Build.v: package metadata, lowering output, file
      paths, handler references, allowed contracts, fingerprints.  BuildCorrect.v: accepted
      data is well formed, well-formed data is accepted, running a lowering is exact,
      fingerprints do not depend on the order of inputs.
    - Static extraction (extract.ts).  Extract.v: the syntax, the evaluator as computations
      that interleave at every await over the shared sets of active constants and source
      files, and [extractPluginDefinition].  ExtractMeaning.v: the meaning of a declaration,
      without interleaving.  ExtractCorrect.v: a part of the evaluator returns its meaning or
      fails, under every schedule.  ExtractOrder.v: in order it always returns it, and an order in
      which it refuses a sound module.  ExtractEnds.v: it ends in every order.
    - Declarations and the portable ABI (authoring.ts and half of index.ts).  Authoring.v:
      [definePlugin] and its checks, configuration, the portable description and entry,
      and the clients bound to the imports of a Host.
    - Generated bindings (packages/lenso-bun/src/capabilities).  Capability.v: the template
      of Provider bindings, stream sessions and clients.  Capabilities.v: the table of every
      generated file.  CapabilityCorrect.v: a client over a binding is transparent, a Host
      that reads a stream gets the items of the Plugin's iterable (the bindings and the
      Authoring V2 server composed), every shipped capability is admissible.  Contracts.v: the
      message types and error codes every generated file declares.  ContractsCorrect.v: they
      agree with the bindings.  EndToEnd.v: a call of the Host, from its bytes through the
      Authoring V2 server and a binding to the typed method and back.
    - The capability lock (packages/lenso-bun/scripts/capabilities.mjs and
      capabilities.lock.json).  CapabilityLock.v: the script on the files of the package, and
      the lock.  CapabilityLockCorrect.v: it stays inside the package, and checking is
      exact.
    - The Process V1 server (process-v1.ts).  ProcessV1.v: both listeners as one step
      function.  ProcessV1Correct.v: the pool of data slots, queue and identifiers, one
      answer per request, the handshake, what a closed server admits.  ProcessV1Start.v:
      when it starts, and the line it announces itself with.
    - The Authoring V2 server (v2.ts).  V2.v: every method of BunAuthoringServer as segments
      between awaits, with the suspended calls as fibers; a segment emits the responses and
      callbacks it sends and the calls it makes of the Plugin's code with their arguments.
      V2Invariant.v: how segments change the state.  V2Correct.v: the histories of a server,
      with every initialization it accepted (racing handshakes may replace one), identifiers,
      the handshake.  V2Limits.v: the limits.  V2Lifecycle.v: initialization, the one
      construction and the one stop.  V2Answers.v: one answer per call, callback
      identifiers.  V2Wire.v: scopes, failures, the proposal.
      V2Framing.v: every response belongs to a request and fits its frame, and what crosses
      the wire arrives.  V2Calls.v: an admitted invocation and an outbound call complete.
      V2Streams.v: reading a stream refines an abstract stream.  V2Outbound.v: so does using a
      stream of the Host.  V2Inputs.v: the types of the inputs of a Plugin, and that it is
      created with inputs of its type.  V2Start.v: the bootstrap line, [servePluginV2] and its
      announcement.  V2Runs.v: a small Host and Plugin, and five executions.
    - The first Plugin server (startPlugin and serve in index.ts).  Legacy.v: the server.
      LegacyCorrect.v: pools, answers, session, outcomes.  LegacyReading.v: bodies,
      endpoints, extensions.  LegacyRuns.v: a small Host and Plugin, and two races.

    ** How code becomes definitions

    A pure function is a function; one that throws returns [result] with the thrown message
    or value.  A server is a record of its fields and a step function on events: the arrival
    of a request, and the resumption of a suspended handler with what it awaited.  Between
    two awaits a handler runs alone, so a segment is one step; an invariant proved of every
    step holds however requests interleave.  The evaluator of extract.ts runs several
    computations at once on one store, so it is a tree of effects and waits, and a schedule
    says which of two waiting computations resumes.

    Code outside the repository is a parameter: @lenso/process-protocol, node:crypto and
    the generated value checks (classes [ProcessProtocol], [ProviderChecks],
    [AuthoringProtocol]), the Plugin's own code ([PluginCode], [LegacyCode], and events that
    carry what a call ended with; a synchronous call that may throw, such as cancelling a
    stream, is a function of the class), the typescript package and the classifier of symbols
    ([TypeScript]), @lenso/contract-runtime ([ContractRuntime], with the round trips relied
    on in [ContractLaws]), the product lowering, and for the capability lock the network, the
    failures of the file system and lenso-contract-codegen ([Toolchain]).  Every property with a hypothesis about
    them has a witness at a concrete instance.  The three value types of
    @lenso/contract-runtime are the class [ContractScalars]; of its decodeDomainError the
    laws rely on plain codes of an operation and on objects with a string code, which is how
    declared errors with a payload and unknown errors travel.

    ** What the theorems show

    - Bounds and invariants of the servers: the tables, counters and identifiers of each
      reachable state stay within the admitted limits and agree with each other.
    - Answers: no step loses or duplicates a request; every response belongs to one request;
      an invocation, an outbound call and a queued request complete whatever the other side
      does, once it answers, and an invocation however other calls interleave with it.
    - Authority: sessions and handshakes open only for a proof of the bootstrap secret, and
      nothing has an effect outside them.
    - Round trips and equivalences: JSON on the wire, chunked bodies, lowering output, the
      untyped handshake check against the documented conditions, proposals, fingerprints.
    - Refinement: streams in both directions, the lifecycle of a server, extraction against
      the meaning of a declaration, bindings against a direct call, a call of the Host against
      the typed method, [runLowering] against its contract; and termination of extraction in
      every order.
    - Types: lowering output, the inputs of a Plugin, shipped capabilities and their lock.
    - Confinement: the script of the capability lock writes only below the package.
    - Error behaviour: the forms a failure takes on the wire, and races and losses that the
      code does not announce, each shown by an execution.

    ** Fuel

    [serveProcessV1] writes its line in a loop whose fuel bounds the number of writes: the
    length of the line suffices when every write takes a byte.  JSON.parse runs with twice the
    length of the text, which bounds the nesting; [json_roundtrip] shows that it is enough for
    every text that JSON.stringify makes.  Extraction
    is given fuel for its recursion; [extraction_terminates] says how much suffices, in every
    order: the number of symbols, that number times the deepest constant, and the depth of the export.
    Everything else recurses on its data or is a single step.

    ** What is not modelled

    The clock: deadlines fire as events, and the milliseconds left of a budget are given to
    the steps that read them.  Sockets, timers, standard streams and the file system
    (the listeners of [Bun.serve], the pipes) are input and output without logic of their
    own: a port, what a pipe delivers and whether a write fails are given to the definitions.
    TypeScript's overloads, generic signatures and casts have no behaviour; the casts at the
    wire are functions of the protocol classes.  The generated files repeat one text for the
    interfaces and helpers of their bindings, which is modelled once.  In extraction, once one of several concurrent arguments
    fails the extraction has failed, and the evaluations that go on in the background are
    not followed: which of several errors is reported is that of the first to fail.  The
    methods of one generated stream session are called one after another.  Responses are
    the values the handlers return: whether Bun still sends one on a connection that a stop has
    closed is not modelled.  Links of the file
    system are not followed.  The fixtures and tests (peers for the conformance of the
    Rust side) and the Rust crates on the other side of the wire are not part of the SDK. *)

From Stdlib Require Import Sorting.Permutation.
From stdpp Require Export base pretty sorting numbers strings gmap list.


#[global] Arguments N.eqb : simpl never.
#[global] Arguments N.leb : simpl never.
#[global] Arguments N.ltb : simpl never.
#[global] Arguments Z.eqb : simpl never.
#[global] Arguments Z.leb : simpl never.
#[global] Arguments Z.ltb : simpl never.

(** ** Results: a computation that returns a value or throws *)

Inductive result (E A : Type) : Type :=
| Ok (a : A)
| Throw (e : E).

Arguments Ok {E A} a.
Arguments Throw {E A} e.

#[export] Instance result_ret {E} : MRet (result E) := fun A a => Ok a.

#[export] Instance result_bind {E} : MBind (result E) :=
  fun A B f m => match m with Ok a => f a | Throw e => Throw e end.

#[export] Instance result_fmap {E} : FMap (result E) :=
  fun A B f m => match m with Ok a => Ok (f a) | Throw e => Throw e end.

(** [if (!cond) throw e] *)
Definition ensure {E} (cond : bool) (e : E) : result E unit :=
  if cond then Ok tt else Throw e.

(** [if (cond) throw e] *)
Definition refuse {E} (cond : bool) (e : E) : result E unit :=
  if cond then Throw e else Ok tt.

Definition is_Ok {E A} (r : result E A) : Prop := ∃ a, r = Ok a.

Section results.
Context {E : Type}.

Lemma bind_Ok {A B} (m : result E A) (f : A → result E B) b :
  m ≫= f = Ok b ↔ ∃ a, m = Ok a ∧ f a = Ok b.
Proof. destruct m; cbn; split; [by eauto|by intros (? & [= ->] & ?)|done|by intros (? & [=] & ?)]. Qed.

Lemma bind_Throw {A B} (m : result E A) (f : A → result E B) e :
  m ≫= f = Throw e ↔ m = Throw e ∨ ∃ a, m = Ok a ∧ f a = Throw e.
Proof.
  destruct m; cbn; split; [by eauto|by intros [[=]|(? & [= ->] & ?)]| |].
  - by intros [= ->]; left.
  - by intros [[= ->]|(? & [=] & ?)].
Qed.

Lemma ensure_Ok c (e : E) u : ensure c e = Ok u ↔ c = true.
Proof. by destruct c, u. Qed.

Lemma refuse_Ok c (e : E) u : refuse c e = Ok u ↔ c = false.
Proof. by destruct c, u. Qed.

Lemma ret_Ok {A} (a b : A) : (mret a : result E A) = Ok b ↔ a = b.
Proof. unfold mret, result_ret; split; congruence. Qed.
End results.

(** [array.map((value, index) => f(value, index))] where [f] may throw *)
Fixpoint mapi_res {E A B} (f : A → nat → result E B) (i : nat) (l : list A) : result E (list B) :=
  match l with
  | [] => mret []
  | x :: l =>
      y ← f x i;
      ys ← mapi_res f (S i) l;
      mret (y :: ys)
  end.

(** [for (const x of l) acc = f(acc, x)] where the body may throw *)
Fixpoint foldM_res {E A S} (f : S → A → result E S) (s : S) (l : list A) : result E S :=
  match l with
  | [] => mret s
  | x :: l => s' ← f s x; foldM_res f s' l
  end.

Section loops.
Context {E : Type}.

Lemma mapi_res_Ok {A B} (f : A → nat → result E B) l i ys :
  mapi_res f i l = Ok ys ↔
    length ys = length l ∧
    ∀ k x, l !! k = Some x → ∃ y, ys !! k = Some y ∧ f x (i + k) = Ok y.
Proof.
  revert i ys; induction l as [|x l IH]; intros i ys; cbn [mapi_res].
  - rewrite ret_Ok. destruct ys; cbn; naive_solver.
  - rewrite bind_Ok. setoid_rewrite bind_Ok. setoid_rewrite ret_Ok. split.
    + intros (y & Hy & ys' & Hys & <-). apply IH in Hys as [Hlen Hys].
      split; [cbn; lia|]. intros [|k] z; cbn.
      * intros [= ->]. exists y. by rewrite Nat.add_0_r.
      * intros Hz. rewrite Nat.add_succ_r. by apply Hys.
    + intros [Hlen Hall]. destruct ys as [|y ys]; [done|].
      destruct (Hall 0 x eq_refl) as (y' & [= <-] & Hf). rewrite Nat.add_0_r in Hf.
      exists y. split; [done|]. exists ys. split; [|done]. apply IH. split; [cbn in *; lia|].
      intros k z Hz. destruct (Hall (S k) z Hz) as (w & Hw & Hfw).
      rewrite Nat.add_succ_r in Hfw. eauto.
Qed.

Lemma mapi_res_Forall2 {A B} (f : A → nat → result E B) (P : A → B → Prop) l i ys :
  (∀ x k y, f x k = Ok y → P x y) → mapi_res f i l = Ok ys → Forall2 P l ys.
Proof.
  intros HP. revert i ys; induction l as [|x l IH]; intros i ys; cbn [mapi_res].
  - by intros [= <-].
  - intros (y & Hy & (ys' & Hys & [= <-])%bind_Ok)%bind_Ok. constructor; eauto.
Qed.

Lemma mapi_res_Forall {A B} (f : A → nat → result E B) (P : B → Prop) l i ys :
  (∀ x k y, f x k = Ok y → P y) → mapi_res f i l = Ok ys → Forall P ys.
Proof.
  intros HP H. apply (mapi_res_Forall2 _ (fun _ y => P y)) in H; [|done].
  induction H; constructor; auto.
Qed.

Lemma mapi_res_length {A B} (f : A → nat → result E B) l i ys :
  mapi_res f i l = Ok ys → length ys = length l.
Proof. by intros [? _]%mapi_res_Ok. Qed.

(** A loop invariant of [foldM_res], in the style of a Hoare rule. *)
Lemma foldM_res_inv {A S} (f : S → A → result E S) (Inv : list A → S → Prop) l s s' :
  Inv [] s →
  (∀ pre x t t', Inv pre t → x ∈ l → f t x = Ok t' → Inv (pre ++ [x]) t') →
  foldM_res f s l = Ok s' → Inv l s'.
Proof.
  intros H0 Hstep. enough (∀ done todo t, done ++ todo = l → Inv done t →
    foldM_res f t todo = Ok s' → Inv l s') as Hgen by (intros; eapply (Hgen [] l); eauto).
  intros pre todo; revert pre; induction todo as [|x todo IH]; intros pre t Hl Hinv; cbn.
  - intros [= <-]. by rewrite app_nil_r in Hl; subst.
  - intros (t' & Hf & Hrest)%bind_Ok. apply (IH (pre ++ [x]) t'); [|by eapply Hstep; [|set_solver|]|done].
    by rewrite <- app_assoc.
Qed.

Lemma foldM_res_app {A S} (f : S → A → result E S) l1 l2 s :
  foldM_res f s (l1 ++ l2) = foldM_res f s l1 ≫= fun t => foldM_res f t l2.
Proof. revert s; induction l1 as [|x l1 IH]; intros s; cbn; [done|]. destruct (f s x); cbn; auto. Qed.
End loops.

Lemma elem_of_rev {A} (x : A) l : x ∈ rev l ↔ x ∈ l.
Proof. by rewrite !list_elem_of_In, <- in_rev. Qed.

(** Decomposes every hypothesis that says a computation returned. *)
Ltac result_inv :=
  repeat match goal with
  | H : (_ ≫= _) = Ok _ |- _ => apply bind_Ok in H as (? & ? & ?)
  | H : ensure _ _ = Ok _ |- _ => apply ensure_Ok in H
  | H : refuse _ _ = Ok _ |- _ => apply refuse_Ok in H
  | H : @mret (result _) _ _ _ = Ok _ |- _ => apply (proj1 (ret_Ok _ _)) in H; subst
  | H : Ok _ = Ok _ |- _ => injection H as H
  | H : Throw _ = Ok _ |- _ => discriminate H
  end.

(** Keys without duplicates identify the entries of a list. *)
Lemma NoDup_map_inj {A B} (f : A → B) l x y : NoDup (map f l) → x ∈ l → y ∈ l → f x = f y → x = y.
Proof.
  induction l as [|z l IH]; cbn; [set_solver|]. intros [Hnin Hnd]%NoDup_cons.
  intros [->|Hx]%elem_of_cons [->|Hy]%elem_of_cons E; [done| | |by auto].
  - destruct Hnin. rewrite E. by apply list_elem_of_fmap; exists y.
  - destruct Hnin. rewrite <- E. by apply list_elem_of_fmap; exists x.
Qed.
