(* ===== verification/JsValue.v ===== *)
(** * JavaScript strings, numbers and plain values

    The part of the language the sources compute with: a string is its list of
    UTF-16 code units, a number is an IEEE-754 double ([spec_float] of the
    Standard Library, precision 53, exponent bound 1024), and a plain value is
    what [JSON.parse] or an object literal produces.  An object is the list of
    its own properties in enumeration order. *)

From Stdlib Require Import ZArith SpecFloat Ascii Strings.Byte.
From S2P Require Import Prelude.

(** ** Strings *)

Abbreviation jsstr := (list N).

Fixpoint js (s : string) : jsstr :=
  match s with
  | EmptyString => []
  | String c s => Byte.to_N (byte_of_ascii c) :: js s
  end.
Arguments js _%_string.

(** [String(n)] and [n.toString()] of an integer: its decimal digits. *)
Definition dec (z : Z) : jsstr := js (pretty z).

(** [s.startsWith(p)] *)
Fixpoint starts_with (p s : jsstr) : bool :=
  match p, s with
  | [], _ => true
  | a :: p, b :: s => N.eqb a b && starts_with p s
  | _ :: _, [] => false
  end.

(** [s.split(re)] for a regular expression that matches one code unit. *)
Fixpoint split_on (sep : N → bool) (s : jsstr) : list jsstr :=
  match s with
  | [] => [[]]
  | c :: s =>
      if sep c then [] :: split_on sep s
      else match split_on sep s with
           | p :: ps => (c :: p) :: ps
           | [] => [[c]]
           end
  end.

(** [s.replaceAll(c, d)] for one-unit strings. *)
Definition replace_unit (c d : N) (s : jsstr) : jsstr :=
  map (fun x => if N.eqb x c then d else x) s.

Definition mem (x : jsstr) (l : list jsstr) : bool := bool_decide (x ∈ l).

(** The order of [Array.prototype.sort] without a comparator: UTF-16 code units,
    lexicographically. *)
Fixpoint str_leb (a b : jsstr) : bool :=
  match a, b with
  | [], _ => true
  | _ :: _, [] => false
  | x :: a, y :: b => N.ltb x y || (N.eqb x y && str_leb a b)
  end.

Definition str_le (a b : jsstr) : Prop := str_leb a b = true.

#[export] Instance str_le_dec : RelDecision str_le.
Proof. intros a b. unfold str_le. apply _. Defined.

#[export] Instance str_le_trans : Transitive str_le.
Proof.
  unfold str_le. intros a. induction a as [|x a IH]; intros [|y b] [|z c]; cbn; try done.
  rewrite !orb_true_iff, !andb_true_iff, !N.ltb_lt, !N.eqb_eq.
  intros [?|[? ?]] [?|[? ?]]; [left; lia|left; lia|left; lia|right; split; [lia|eauto]].
Qed.

#[export] Instance str_le_antisym : AntiSymm eq str_le.
Proof.
  unfold str_le. intros a. induction a as [|x a IH]; intros [|y b]; cbn; try done.
  rewrite !orb_true_iff, !andb_true_iff, !N.ltb_lt, !N.eqb_eq.
  intros [?|[-> ?]] [?|[? ?]]; try lia. f_equal; auto.
Qed.

#[export] Instance str_le_total : Total str_le.
Proof.
  unfold str_le. intros a. induction a as [|x a IH]; intros [|y b]; cbn; auto.
  rewrite !orb_true_iff, !andb_true_iff, !N.ltb_lt, !N.eqb_eq.
  destruct (N.lt_total x y) as [?|[->|?]]; [by eauto| |by eauto].
  destruct (IH b); eauto.
Qed.

(** [strings.sort()] *)
Definition sort_strings (l : list jsstr) : list jsstr := merge_sort str_le l.

Lemma sort_strings_perm l : sort_strings l ≡ₚ l.
Proof. apply merge_sort_Permutation. Qed.

Lemma sort_strings_unique l1 l2 : l1 ≡ₚ l2 → sort_strings l1 = sort_strings l2.
Proof.
  intros Hp. apply (StronglySorted_unique str_le).
  - apply (StronglySorted_merge_sort str_le).
  - apply (StronglySorted_merge_sort str_le).
  - by rewrite !sort_strings_perm.
Qed.

Lemma js_inj s1 s2 : js s1 = js s2 → s1 = s2.
Proof.
  revert s2; induction s1 as [|c s1 IH]; intros [|d s2]; cbn; try done.
  intros [= Hc Hs]. f_equal; [|auto].
  rewrite <- (ascii_of_byte_of_ascii c), <- (ascii_of_byte_of_ascii d).
  apply (f_equal Byte.of_N) in Hc. rewrite !Byte.of_to_N in Hc. congruence.
Qed.

(** The decimal names handed out by the counters are pairwise distinct. *)
Lemma dec_inj z1 z2 : dec z1 = dec z2 → z1 = z2.
Proof. intros H%js_inj. by apply (inj (pretty (A := Z))) in H. Qed.

Lemma mem_true x l : mem x l = true ↔ x ∈ l.
Proof. apply bool_decide_eq_true. Qed.

Lemma mem_false x l : mem x l = false ↔ x ∉ l.
Proof. apply bool_decide_eq_false. Qed.

Lemma split_on_nonempty sep s : split_on sep s ≠ [].
Proof. destruct s as [|c s]; cbn; [done|]. destruct (sep c); [done|]. by destruct (split_on sep s). Qed.

(** Splitting commutes with renaming code units when the separators agree. *)
Lemma split_on_map f sep sep' s :
  (∀ c, sep' (f c) = sep c) → split_on sep' (map f s) = map (map f) (split_on sep s).
Proof.
  intros Hf. induction s as [|c s IH]; cbn; [done|]. rewrite Hf, IH.
  destruct (sep c); [done|]. by destruct (split_on sep s).
Qed.

(** ** Numbers *)

Abbreviation number := spec_float.

Definition prec : Z := 53.
Definition emax : Z := 1024.

#[export] Instance number_eq_dec : EqDecision number.
Proof. solve_decision. Defined.

(** The double nearest to an integer, for literals. *)
Definition num (z : Z) : number := binary_normalize prec emax z 0%Z false.

(** The integer a finite double denotes, if it denotes one. *)
Definition num_int (x : number) : option Z :=
  match x with
  | S754_zero _ => Some 0%Z
  | S754_finite s m e =>
      let sgn (z : Z) := if s then Z.opp z else z in
      if (0 <=? e)%Z then Some (sgn (Z.pos m * 2 ^ e)%Z)
      else if (Z.pos m mod 2 ^ (- e) =? 0)%Z then Some (sgn (Z.pos m / 2 ^ (- e))%Z)
      else None
  | _ => None
  end.

Definition MAX_SAFE_INTEGER : Z := 2 ^ 53 - 1.

(** [Number.isSafeInteger(x)], with the integer. *)
Definition safe_int (x : number) : option Z :=
  match num_int x with
  | Some z => if (Z.abs z <=? MAX_SAFE_INTEGER)%Z then Some z else None
  | None => None
  end.

Lemma safe_int_bounds x z : safe_int x = Some z → (- MAX_SAFE_INTEGER ≤ z ≤ MAX_SAFE_INTEGER)%Z.
Proof.
  unfold safe_int. destruct (num_int x) as [w|]; [|done].
  destruct (Z.leb_spec (Z.abs w) MAX_SAFE_INTEGER); [|done]. intros [= <-]. lia.
Qed.

(** *** Integers below [2^53] are doubles *)

Lemma digits2_size p : digits2_pos p = Pos.size p.
Proof. induction p; cbn; congruence. Qed.

Lemma size_lt p n : (Z.pos p < 2 ^ n)%Z → (0 ≤ n)%Z → (Z.pos (Pos.size p) ≤ n)%Z.
Proof.
  intros Hp Hn. destruct (Z.le_gt_cases (Z.pos (Pos.size p)) n) as [|Hgt]; [done|].
  pose proof (Pos.size_le p) as Hle. assert (2 ^ n ≤ 2 ^ (Z.pos (Pos.size p) - 1))%Z by (apply Z.pow_le_mono_r; lia).
  apply Pos2Z.pos_le_pos in Hle. rewrite Pos2Z.inj_pow in Hle.
  assert (2 ^ Z.pos (Pos.size p) = 2 * 2 ^ (Z.pos (Pos.size p) - 1))%Z as E
    by (rewrite <- Z.pow_succ_r by lia; f_equal; lia).
  lia.
Qed.

Lemma iter_xO p d : Z.pos (Pos.iter xO p d) = (Z.pos p * 2 ^ Z.pos d)%Z.
Proof.
  induction d as [|d IH] using Pos.peano_ind; [cbn; lia|].
  rewrite Pos.iter_succ, Pos2Z.inj_xO, IH, Pos2Z.inj_succ, Z.pow_succ_r by lia. lia.
Qed.

Lemma size_iter_xO p d : Z.pos (Pos.size (Pos.iter xO p d)) = (Z.pos (Pos.size p) + Z.pos d)%Z.
Proof.
  induction d as [|d IH] using Pos.peano_ind; [cbn; lia|].
  rewrite Pos.iter_succ. cbn [Pos.size]. lia.
Qed.

(** A mantissa of exactly 53 digits needs no rounding. *)
Lemma round_exact s m e :
  digits2_pos m = 53%positive → (-1074 ≤ e ≤ 971)%Z →
  binary_round_aux prec emax s (Z.pos m) e loc_Exact = S754_finite s m e.
Proof.
  intros Hd He. assert (shr_fexp prec emax (Z.pos m) e loc_Exact = (Build_shr_record (Z.pos m) false false, e)) as Hs.
  { unfold shr_fexp, shr, shr_record_of_loc, fexp, SpecFloat.emin, Zdigits2, prec, emax. rewrite Hd.
    replace (Z.max (Z.add 53 e - 53) (3 - 1024 - 53) - e)%Z with 0%Z by lia. done. }
  unfold binary_round_aux. rewrite Hs. cbn [shr_m loc_of_shr_record round_nearest_even]. rewrite Hs. cbn [shr_m].
  unfold prec, emax. by rewrite (proj2 (Z.leb_le e (1024 - 53))) by lia.
Qed.

Lemma round_small p :
  (Z.pos p < 2 ^ 53)%Z →
  ∃ m e, (∀ s, binary_round prec emax s p 0 = S754_finite s m e) ∧ (e ≤ 0)%Z ∧ Z.pos m = (Z.pos p * 2 ^ (- e))%Z.
Proof.
  intros Hp. pose proof (size_lt p 53 Hp ltac:(lia)) as Hsz.
  unfold binary_round, shl_align. rewrite digits2_size, Z.add_0_r, Z.sub_0_r.
  assert (fexp prec emax (Z.pos (Pos.size p)) = Z.pos (Pos.size p) - 53)%Z as ->.
  { unfold fexp, SpecFloat.emin, prec, emax. lia. }
  destruct (Z.pos (Pos.size p) - 53)%Z as [|d|d] eqn:Ed; [| lia|].
  - exists p, 0%Z. split; [intros s; apply round_exact; [rewrite digits2_size; lia|lia]|]. lia.
  - exists (Pos.iter xO p d), (Z.neg d). split; [intros s; apply round_exact|].
    + rewrite digits2_size. pose proof (size_iter_xO p d). lia.
    + lia.
    + split; [lia|]. by rewrite iter_xO.
Qed.

Lemma num_int_finite s m e p :
  (e ≤ 0)%Z → Z.pos m = (Z.pos p * 2 ^ (- e))%Z →
  num_int (S754_finite s m e) = Some (if s then Z.neg p else Z.pos p).
Proof.
  intros He Hm. cbn. destruct (Z.leb_spec 0 e).
  - assert (e = 0)%Z as -> by lia. rewrite Hm. cbn. rewrite !Z.mul_1_r. by destruct s.
  - assert (2 ^ (- e) ≠ 0)%Z by (apply Z.pow_nonzero; lia).
    rewrite Hm, Z.mod_mul, Z.eqb_refl, Z.div_mul by done. by destruct s.
Qed.

Lemma safe_int_num z : (Z.abs z ≤ MAX_SAFE_INTEGER)%Z → safe_int (num z) = Some z.
Proof.
  intros Hz. unfold safe_int. assert (num_int (num z) = Some z) as ->.
  { unfold num, MAX_SAFE_INTEGER in *. destruct z as [|p|p]; [done| |]; cbn [binary_normalize].
    - destruct (round_small p ltac:(lia)) as (m & e & -> & He & Hm). by apply (num_int_finite false).
    - destruct (round_small p ltac:(lia)) as (m & e & -> & He & Hm). by apply (num_int_finite true). }
  by rewrite (proj2 (Z.leb_le _ _) Hz).
Qed.

Lemma num_opp p : (Z.pos p ≤ MAX_SAFE_INTEGER)%Z → SFopp (num (Z.pos p)) = num (Z.neg p).
Proof.
  unfold MAX_SAFE_INTEGER. intros Hp. destruct (round_small p ltac:(lia)) as (m & e & E & _).
  unfold num. cbn [binary_normalize]. by rewrite !E.
Qed.

(** [m * 10 ^ e] correctly rounded to a double (ties to even): the value of a
    decimal literal.  A negative exponent divides exactly before rounding. *)
Definition num_of_dec (m : N) (e : Z) : number :=
  match m with
  | N0 => S754_zero false
  | Npos p =>
      if (0 <=? e)%Z then binary_normalize prec emax (Z.pos p * 10 ^ e)%Z 0%Z false
      else
        let '(q, e', l) := SFdiv_core_binary prec emax (Z.pos p) 0%Z (10 ^ (- e))%Z 0%Z in
        binary_round_aux prec emax false q e' l
  end.

(** Decimal digits of the shortest decimal that reads back as [x > 0], with the
    exponent [n] of [0.d1d2...dk * 10^n], as [Number::toString] chooses them:
    the least number of digits, and of those the closest to [x]. *)
Section shortest.
Variables (a b : Z).  (* x = a / b *)
Variable x : number.

Definition dec_exponent : Z :=
  let guess := ((Z.log2 a - Z.log2 b) * 30103 / 100000)%Z in
  let fits n := if (0 <=? n)%Z then (a <? b * 10 ^ n)%Z else (a * 10 ^ (- n) <? b)%Z in
  if fits (guess - 1)%Z then (guess - 1)%Z else if fits guess then guess
  else if fits (guess + 1)%Z then (guess + 1)%Z else (guess + 2)%Z.

Definition digits_with (k : Z) (n : Z) : option Z :=
  let sc := (k - n)%Z in
  let p := if (0 <=? sc)%Z then (a * 10 ^ sc)%Z else a in
  let q := if (0 <=? sc)%Z then b else (b * 10 ^ (- sc))%Z in
  let lo := (p / q)%Z in
  let back z := bool_decide (num_of_dec (Z.to_N z) (n - k)%Z = x) in
  let lo_first := (2 * (p - lo * q) <=? q)%Z in
  if lo_first then
    if back lo then Some lo else if back (lo + 1)%Z then Some (lo + 1)%Z else None
  else
    if back (lo + 1)%Z then Some (lo + 1)%Z else if back lo then Some lo else None.

Fixpoint shortest_from (fuel : nat) (k n : Z) : Z * Z :=
  match fuel with
  | O => (0%Z, k)
  | S fuel =>
      match digits_with k n with
      | Some s => (s, k)
      | None => shortest_from fuel (k + 1)%Z n
      end
  end.
End shortest.

Definition zeros (n : Z) : jsstr := replicate (Z.to_nat n) 48%N.

(** [Number::toString(x)] in radix 10.  Safe integers print their digits; other
    finite doubles need at most 17 digits. *)
Definition number_to_string (x : number) : jsstr :=
  match safe_int x with
  | Some z => dec z
  | None =>
      match x with
      | S754_nan => js "NaN"
      | S754_infinity s => if s then js "-Infinity" else js "Infinity"
      | S754_zero _ => js "0"
      | S754_finite s m e =>
          let a := if (0 <=? e)%Z then (Z.pos m * 2 ^ e)%Z else Z.pos m in
          let b := if (0 <=? e)%Z then 1%Z else (2 ^ (- e))%Z in
          let n := dec_exponent a b in
          let '(d, k) := shortest_from a b (S754_finite false m e) 17 1%Z n in
          let ds := dec d in
          let body :=
            if (k <=? n)%Z && (n <=? 21)%Z then ds ++ zeros (n - k)%Z
            else if (0 <? n)%Z && (n <=? 21)%Z then
              take (Z.to_nat n) ds ++ js "." ++ drop (Z.to_nat n) ds
            else if (-6 <? n)%Z && (n <=? 0)%Z then js "0." ++ zeros (- n)%Z ++ ds
            else
              let ex := (if (0 <? n)%Z then js "e+" else js "e-") ++ dec (Z.abs (n - 1)%Z) in
              if (k =? 1)%Z then ds ++ ex else take 1 ds ++ js "." ++ drop 1 ds ++ ex in
          (if s then js "-" else []) ++ body
      end
  end.

(** ** Plain values *)

Inductive jsval : Type :=
| JUndef
| JNull
| JBool (b : bool)
| JNum (x : number)
| JStr (s : jsstr)
| JArr (l : list jsval)
| JObj (fields : list (jsstr * jsval))
| JFun (source : jsstr).

Section jsval_ind.
Variable P : jsval → Prop.
Hypothesis HU : P JUndef.
Hypothesis HN : P JNull.
Hypothesis HB : ∀ b, P (JBool b).
Hypothesis HX : ∀ x, P (JNum x).
Hypothesis HS : ∀ s, P (JStr s).
Hypothesis HA : ∀ l, Forall P l → P (JArr l).
Hypothesis HO : ∀ fs, Forall (fun kv => P kv.2) fs → P (JObj fs).
Hypothesis HF : ∀ i, P (JFun i).

Fixpoint jsval_nested_ind (v : jsval) : P v :=
  match v with
  | JUndef => HU
  | JNull => HN
  | JBool b => HB b
  | JNum x => HX x
  | JStr s => HS s
  | JArr l =>
      HA l ((fix go (l : list jsval) : Forall P l :=
               match l with
               | [] => Forall_nil_2 P
               | v :: l => Forall_cons_2 P v l (jsval_nested_ind v) (go l)
               end) l)
  | JObj fs =>
      HO fs ((fix go (fs : list (jsstr * jsval)) : Forall (fun kv => P kv.2) fs :=
                match fs with
                | [] => Forall_nil_2 (fun kv => P kv.2)
                | kv :: fs => Forall_cons_2 (fun kv => P kv.2) kv fs (jsval_nested_ind kv.2) (go fs)
                end) fs)
  | JFun i => HF i
  end.
End jsval_ind.

#[export] Instance jsval_eq_dec : EqDecision jsval.
Proof.
  refine (fix go (v w : jsval) : Decision (v = w) :=
    match v, w return Decision (v = w) with
    | JUndef, JUndef => left eq_refl
    | JNull, JNull => left eq_refl
    | JBool a, JBool b => cast_if (decide (a = b))
    | JNum a, JNum b => cast_if (decide (a = b))
    | JStr a, JStr b => cast_if (decide (a = b))
    | JArr a, JArr b => cast_if (@list_eq_dec jsval go a b)
    | JObj a, JObj b => cast_if (@list_eq_dec (jsstr * jsval) (@prod_eq_dec jsstr _ jsval go) a b)
    | JFun a, JFun b => cast_if (decide (a = b))
    | _, _ => right _
    end); clear go; abstract congruence.
Defined.

(** Association lists: [Map], [Object.entries] and own-property lookup. *)
Fixpoint assoc {V} (k : jsstr) (l : list (jsstr * V)) : option V :=
  match l with
  | [] => None
  | (k', v) :: l => if decide (k = k') then Some v else assoc k l
  end.

(** [map.set(k, v)]: replaces in place, appends a new key. *)
Fixpoint assoc_set {V} (k : jsstr) (v : V) (l : list (jsstr * V)) : list (jsstr * V) :=
  match l with
  | [] => [(k, v)]
  | (k', w) :: l => if decide (k = k') then (k', v) :: l else (k', w) :: assoc_set k v l
  end.

Definition keys {V} (l : list (jsstr * V)) : list jsstr := map fst l.

(** [record.key] on an object: the own property or [undefined]. *)
Definition field (fs : list (jsstr * jsval)) (k : string) : jsval :=
  default JUndef (assoc (js k) fs).

(** [String(value)].  An object prints its tag; none of the values passed here
    carries a [toString] method of its own. *)
Fixpoint to_string (v : jsval) : jsstr :=
  match v with
  | JUndef => js "undefined"
  | JNull => js "null"
  | JBool b => if b then js "true" else js "false"
  | JNum x => number_to_string x
  | JStr s => s
  | JArr l =>
      (fix join (l : list jsval) : jsstr :=
         match l with
         | [] => []
         | v :: l =>
             let s := match v with JUndef | JNull => [] | v => to_string v end in
             match l with [] => s | _ :: _ => s ++ js "," ++ join l end
         end) l
  | JObj _ => js "[object Object]"
  | JFun source => source
  end.

(** [value === z] for an integer literal. *)
Definition is_num (v : jsval) (z : Z) : bool :=
  match v with JNum x => bool_decide (num_int x = Some z) | _ => false end.

(** [value === s] for a string literal. *)
Definition is_str (v : jsval) (s : string) : bool :=
  match v with JStr t => bool_decide (t = js s) | _ => false end.

(** [value === other]; two objects or arrays of different origin are never the same. *)
Definition strict_equal (v w : jsval) : bool :=
  match v, w with
  | JArr _, JArr _ | JObj _, JObj _ => false
  | JNum x, JNum y => bool_decide (SFcompare x y = Some Eq)
  | _, _ => bool_decide (v = w)
  end.

Section assoc.
Context {V : Type}.
Implicit Types (l : list (jsstr * V)).

Lemma assoc_Some_in k v l : assoc k l = Some v → (k, v) ∈ l.
Proof.
  induction l as [|[k' w] l IH]; cbn; [done|]. case_decide; [|set_solver].
  intros [= ->]. subst. set_solver.
Qed.

Lemma assoc_None k l : assoc k l = None ↔ k ∉ keys l.
Proof.
  induction l as [|[k' w] l IH]; cbn; [set_solver|]. case_decide; subst; [set_solver|].
  rewrite IH. set_solver.
Qed.

Lemma assoc_NoDup k v l : NoDup (keys l) → (k, v) ∈ l → assoc k l = Some v.
Proof.
  induction l as [|[k' w] l IH]; cbn; [set_solver|]. intros [Hnin Hnd]%NoDup_cons Hin.
  apply elem_of_cons in Hin as [[= -> ->]|Hin]; [by rewrite decide_True|].
  rewrite decide_False; [by apply IH|]. intros ->. apply Hnin. unfold keys.
  apply list_elem_of_fmap. by exists (k', v).
Qed.

Lemma keys_assoc_set k v l :
  keys (assoc_set k v l) = if decide (k ∈ keys l) then keys l else keys l ++ [k].
Proof.
  induction l as [|[k' w] l IH]; cbn [assoc_set].
  - rewrite decide_False; [done|by intros ?%elem_of_nil].
  - destruct (decide (k = k')) as [->|Hk].
    + rewrite decide_True; [done|by left].
    + unfold keys in *; cbn [map fst]. rewrite IH. repeat case_decide; set_solver.
Qed.

Lemma assoc_set_NoDup k v l : NoDup (keys l) → NoDup (keys (assoc_set k v l)).
Proof.
  intros Hnd. rewrite keys_assoc_set. case_decide; [done|].
  apply NoDup_app; repeat split; [done|set_solver|apply NoDup_singleton].
Qed.

Lemma assoc_set_lookup k k' v l :
  assoc k' (assoc_set k v l) = if decide (k' = k) then Some v else assoc k' l.
Proof.
  induction l as [|[k0 w] l IH]; cbn; [by case_decide|].
  repeat (case_decide; subst; cbn; try congruence); rewrite ?IH; repeat case_decide; congruence.
Qed.
End assoc.
