(* ===== verification/Text.v ===== *)
(** * UTF-16, UTF-8 and the bounded failure details

    [TextEncoder], [TextDecoder] and string iteration as the platform defines
    them, and the two routines that cut a failure detail before it reaches the
    Host: [boundedError] of process-v1.ts and [boundedError] of v2.ts. *)

From Stdlib Require Import ZArith.
From S2P Require Import Prelude JsValue.

Local Open Scope N_scope.

(** ** Code points *)

Definition is_lead (u : N) : bool := (0xD800 <=? u) && (u <? 0xDC00).
Definition is_trail (u : N) : bool := (0xDC00 <=? u) && (u <? 0xE000).
Definition REPLACEMENT : N := 0xFFFD.
Definition BOM : N := 0xFEFF.

Definition scalar (c : N) : Prop := c < 0xD800 ∨ 0xE000 ≤ c < 0x110000.

(** [for (const character of s)]: a surrogate pair is one character. *)
Fixpoint chars (s : jsstr) : list jsstr :=
  match s with
  | [] => []
  | u :: s' =>
      match s' with
      | t :: s'' => if is_lead u && is_trail t then [u; t] :: chars s'' else [u] :: chars s'
      | [] => [[u]]
      end
  end.

(** The scalar value a character encodes to; a lone surrogate becomes U+FFFD. *)
Definition char_scalar (c : jsstr) : N :=
  match c with
  | [u; t] => 0x10000 + (u - 0xD800) * 0x400 + (t - 0xDC00)
  | [u] => if is_lead u || is_trail u || (0x10000 <=? u) then REPLACEMENT else u
  | _ => REPLACEMENT
  end.

Definition scalars (s : jsstr) : list N := map char_scalar (chars s).

(** The UTF-16 form of a scalar value. *)
Definition utf16 (c : N) : jsstr :=
  if c <? 0x10000 then [c]
  else [0xD800 + (c - 0x10000) / 0x400; 0xDC00 + (c - 0x10000) mod 0x400].

(** ** UTF-8 *)

Definition utf8 (c : N) : list N :=
  if c <? 0x80 then [c]
  else if c <? 0x800 then [0xC0 + c / 64; 0x80 + c mod 64]
  else if c <? 0x10000 then [0xE0 + c / 4096; 0x80 + c / 64 mod 64; 0x80 + c mod 64]
  else [0xF0 + c / 262144; 0x80 + c / 4096 mod 64; 0x80 + c / 64 mod 64; 0x80 + c mod 64].

(** [new TextEncoder().encode(s)] *)
Definition encode (s : jsstr) : list N := concat (map utf8 (scalars s)).

Definition byteLength (s : jsstr) : Z := Z.of_nat (length (encode s)).

(** State of the UTF-8 decoder: the code point so far, how many continuation
    bytes are missing, and the range the next one must lie in. *)
Record dstate := DState { d_cp : N; d_needed : nat; d_lower : N; d_upper : N }.

Definition dstate0 : dstate := DState 0 0 0x80 0xBF.

(** A byte in the initial state: the code points it emits and the next state. *)
Definition decode_first (b : N) : list N * dstate :=
  if b <? 0x80 then ([b], dstate0)
  else if (0xC2 <=? b) && (b <? 0xE0) then ([], DState (b - 0xC0) 1 0x80 0xBF)
  else if (0xE0 <=? b) && (b <? 0xF0) then
    ([], DState (b - 0xE0) 2 (if b =? 0xE0 then 0xA0 else 0x80) (if b =? 0xED then 0x9F else 0xBF))
  else if (0xF0 <=? b) && (b <? 0xF5) then
    ([], DState (b - 0xF0) 3 (if b =? 0xF0 then 0x90 else 0x80) (if b =? 0xF4 then 0x8F else 0xBF))
  else ([REPLACEMENT], dstate0).

Definition decode_byte (st : dstate) (b : N) : list N * dstate :=
  match d_needed st with
  | O => decode_first b
  | S n =>
      if (d_lower st <=? b) && (b <=? d_upper st) then
        let cp := d_cp st * 64 + (b - 0x80) in
        match n with
        | O => ([cp], dstate0)
        | S _ => ([], DState cp n 0x80 0xBF)
        end
      else let '(out, st') := decode_first b in (REPLACEMENT :: out, st')
  end.

Fixpoint decode_from (st : dstate) (bs : list N) : list N :=
  match bs with
  | [] => match d_needed st with O => [] | S _ => [REPLACEMENT] end
  | b :: bs => let '(out, st') := decode_byte st b in out ++ decode_from st' bs
  end.

Definition strip_bom (cps : list N) : list N :=
  match cps with c :: rest => if c =? BOM then rest else cps | [] => [] end.

(** [new TextDecoder().decode(bytes)]: errors become U+FFFD, a leading byte order
    mark is removed. *)
Definition decode (bs : list N) : jsstr := concat (map utf16 (strip_bom (decode_from dstate0 bs))).

(** [new TextDecoder("utf-8", { fatal: true }).decode(bytes)]: throws unless the
    bytes are the encoding of their own code points. *)
Definition decode_fatal (bs : list N) : option jsstr :=
  let cps := decode_from dstate0 bs in
  if bool_decide (concat (map utf8 cps) = bs) then Some (concat (map utf16 (strip_bom cps))) else None.

(** ** Thrown values *)

Inductive thrown : Type :=
| ErrorObject (message : jsstr)
| ThrownValue (v : jsval).

(** [error instanceof Error ? error.message : String(error)] *)
Definition errorMessage (e : thrown) : jsstr :=
  match e with ErrorObject m => m | ThrownValue v => to_string v end.

(** ** The two bounded details *)

Definition MAX_DETAIL : Z := 1024.

Module ProcessDetail.
(** The loop of [boundedError]: stop before the character that would not fit. *)
Fixpoint bounded_loop (cs : list jsstr) (bounded : jsstr) (bytes : Z) : jsstr :=
  match cs with
  | [] => bounded
  | character :: cs =>
      let width := Z.of_nat (length (encode character)) in
      if (MAX_DETAIL <? bytes + width)%Z then bounded
      else bounded_loop cs (bounded ++ character) (bytes + width)%Z
  end.

Definition or_failed (s : jsstr) : jsstr :=
  match s with [] => js "Plugin failed" | _ :: _ => s end.

Definition process_boundedError (e : thrown) : jsstr :=
  or_failed (bounded_loop (chars (or_failed (errorMessage e))) [] 0).
End ProcessDetail.

Module AuthoringDetail.
Definition authoring_boundedError (e : thrown) : jsstr :=
  let value := errorMessage e in
  let nonempty := match value with
                  | [] => js "Plugin returned an empty failure detail"
                  | _ :: _ => value
                  end in
  decode (take (Z.to_nat MAX_DETAIL) (encode nonempty)).
End AuthoringDetail.

(** ** Characters and scalar values *)

Ltac divlia := zify; Z.to_euclidean_division_equations; lia.

(** Turns the boolean comparisons of hypotheses and goal into propositions. *)
Ltac nbool :=
  repeat match goal with
  | H : context [(?a <? ?b)%N] |- _ => destruct (N.ltb_spec a b)
  | H : context [(?a <=? ?b)%N] |- _ => destruct (N.leb_spec a b)
  | H : context [(?a =? ?b)%N] |- _ => destruct (N.eqb_spec a b)
  | |- context [(?a <? ?b)%N] => destruct (N.ltb_spec a b)
  | |- context [(?a <=? ?b)%N] => destruct (N.leb_spec a b)
  | |- context [(?a =? ?b)%N] => destruct (N.eqb_spec a b)
  end; cbn [andb orb negb] in *; try done; try lia.

(** Evaluates the comparisons of the goal that the hypotheses decide. *)
Ltac ncmp :=
  repeat match goal with
  | |- context [(?a <? ?b)%N] =>
      first [rewrite (proj2 (N.ltb_lt a b)) by lia | rewrite (proj2 (N.ltb_ge a b)) by lia]
  | |- context [(?a <=? ?b)%N] =>
      first [rewrite (proj2 (N.leb_le a b)) by lia | rewrite (proj2 (N.leb_gt a b)) by lia]
  end; cbn [andb orb negb].

(** Induction that follows the recursion of [chars]. *)
Lemma chars_ind (P : jsstr → Prop) :
  P [] →
  (∀ u, P [u]) →
  (∀ u t s, is_lead u && is_trail t = true → P s → P (u :: t :: s)) →
  (∀ u t s, is_lead u && is_trail t = false → P (t :: s) → P (u :: t :: s)) →
  ∀ s, P s.
Proof.
  intros H0 H1 H2 H3 s. enough (P s ∧ ∀ u, P (u :: s)) by tauto.
  induction s as [|t s [IH IHc]]; [auto|]. split; [auto|]. intros u.
  destruct (is_lead u && is_trail t) eqn:E; auto.
Qed.

Lemma chars_pair u t s : is_lead u && is_trail t = true → chars (u :: t :: s) = [u; t] :: chars s.
Proof. intros E. cbn [chars]. by rewrite E. Qed.

Lemma chars_lone u t s :
  is_lead u && is_trail t = false → chars (u :: t :: s) = [u] :: chars (t :: s).
Proof. intros E. cbn [chars]. by rewrite E. Qed.

Lemma concat_chars s : concat (chars s) = s.
Proof.
  induction s as [|u|u t s E IH|u t s E IH] using chars_ind; [done|done| |].
  - rewrite chars_pair by done. cbn [concat app]. congruence.
  - rewrite chars_lone by done. cbn [concat app]. congruence.
Qed.

(** A prefix of the characters of a string is the character list of its own
    concatenation: cutting between characters never splits a surrogate pair. *)
Lemma chars_take s k : chars (concat (take k (chars s))) = take k (chars s).
Proof.
  revert k. induction s as [|u|u t s E IH|u t s E IH] using chars_ind; intros k.
  - by destruct k.
  - by destruct k as [|[|k]].
  - rewrite chars_pair by done. destruct k as [|k]; [done|]. cbn [take concat app].
    by rewrite chars_pair, IH.
  - rewrite chars_lone by done. destruct k as [|k]; [done|]. cbn [take].
    specialize (IH k). destruct k as [|k]; [done|].
    assert (∃ r, concat (take (S k) (chars (t :: s))) = t :: r) as [r Hr].
    { cbn [chars]. destruct s as [|t' s]; [by eexists|]. destruct (is_lead t && is_trail t'); by eexists. }
    cbn [concat app]. rewrite Hr in *. by rewrite chars_lone, IH.
Qed.

Lemma chars_scalar s c : c ∈ chars s → scalar (char_scalar c).
Proof.
  induction s as [|u|u t s E IH|u t s E IH] using chars_ind.
  - by intros ?%elem_of_nil.
  - intros ->%list_elem_of_singleton. unfold char_scalar, is_lead, is_trail, scalar, REPLACEMENT. nbool.
  - rewrite chars_pair by done. intros [->|?]%elem_of_cons; [|auto].
    unfold char_scalar, is_lead, is_trail, scalar in *. nbool.
  - rewrite chars_lone by done. intros [->|?]%elem_of_cons; [|auto].
    unfold char_scalar, is_lead, is_trail, scalar, REPLACEMENT in *. nbool.
Qed.

Lemma scalars_scalar s : Forall scalar (scalars s).
Proof.
  apply Forall_forall. unfold scalars. intros x (c & -> & Hc)%list_elem_of_fmap.
  by eapply chars_scalar.
Qed.

Lemma utf16_chars c s : scalar c → ∃ x, chars (utf16 c ++ s) = x :: chars s ∧ char_scalar x = c.
Proof.
  unfold utf16. intros Hc. destruct (N.ltb_spec c 0x10000) as [Hlt|Hge].
  - exists [c]. assert (is_lead c = false ∧ is_trail c = false) as [Hl Ht].
    { unfold is_lead, is_trail, scalar in *. split; nbool. }
    split; [cbn; rewrite Hl; by destruct s|]. cbn. rewrite Hl, Ht. cbn. nbool.
  - set (u := 0xD800 + _). set (t := 0xDC00 + _). exists [u; t].
    assert (is_lead u && is_trail t = true) as E.
    { unfold is_lead, is_trail, u, t, scalar in *. nbool; divlia. }
    split; [cbn [chars app]; by rewrite E|]. unfold char_scalar, u, t. divlia.
Qed.

(** UTF-16 and back: every list of scalar values survives. *)
Lemma scalars_utf16 cs : Forall scalar cs → scalars (concat (map utf16 cs)) = cs.
Proof.
  induction 1 as [|c cs Hc _ IH]; [done|]. cbn.
  destruct (utf16_chars c (concat (map utf16 cs)) Hc) as (x & Hx & Hs).
  unfold scalars in *. rewrite Hx. cbn. congruence.
Qed.

(** A string without lone surrogates. *)
Definition well_formed (s : jsstr) : Prop :=
  Forall (fun c => c = utf16 (char_scalar c)) (chars s).

Lemma utf16_scalars s : well_formed s → concat (map utf16 (scalars s)) = s.
Proof.
  unfold well_formed, scalars. intros Hwf. rewrite <- (concat_chars s) at 2. f_equal.
  rewrite map_map. induction Hwf as [|c cs Hc _ IH]; cbn; congruence.
Qed.

(** ** The decoder inverts the encoder *)

Lemma decode_first_1 b : b < 0x80 → decode_first b = ([b], dstate0).
Proof. intros Hb. unfold decode_first. by rewrite (proj2 (N.ltb_lt _ _) Hb). Qed.

Lemma decode_first_2 b : 0xC2 ≤ b < 0xE0 → decode_first b = ([], DState (b - 0xC0) 1 0x80 0xBF).
Proof. intros Hb. unfold decode_first. by ncmp. Qed.

Lemma decode_first_3 b : 0xE0 ≤ b < 0xF0 → ∃ lo hi,
  decode_first b = ([], DState (b - 0xE0) 2 lo hi) ∧
  (lo = 0x80 ∨ b = 0xE0 ∧ lo = 0xA0) ∧ (hi = 0xBF ∨ b = 0xED ∧ hi = 0x9F).
Proof.
  intros Hb. unfold decode_first. ncmp.
  do 2 eexists. split; [done|]. split; case_match eqn:E; rewrite ?N.eqb_eq in E; auto.
Qed.

Lemma decode_first_4 b : 0xF0 ≤ b < 0xF5 → ∃ lo hi,
  decode_first b = ([], DState (b - 0xF0) 3 lo hi) ∧
  (lo = 0x80 ∨ b = 0xF0 ∧ lo = 0x90) ∧ (hi = 0xBF ∨ b = 0xF4 ∧ hi = 0x8F).
Proof.
  intros Hb. unfold decode_first. ncmp.
  do 2 eexists. split; [done|]. split; case_match eqn:E; rewrite ?N.eqb_eq in E; auto.
Qed.

Lemma decode_continue cp n lo hi b bs :
  lo ≤ b ≤ hi →
  decode_from (DState cp (S n) lo hi) (b :: bs) =
    match n with
    | O => (cp * 64 + (b - 0x80)) :: decode_from dstate0 bs
    | S _ => decode_from (DState (cp * 64 + (b - 0x80)) n 0x80 0xBF) bs
    end.
Proof.
  intros Hb. cbn [decode_from decode_byte d_needed d_lower d_upper d_cp].
  rewrite (proj2 (N.leb_le lo b)), (proj2 (N.leb_le b hi)) by lia. by destruct n.
Qed.

Lemma decode_start b bs :
  decode_from dstate0 (b :: bs) =
    let '(out, st) := decode_first b in out ++ decode_from st bs.
Proof. done. Qed.

(** Every scalar value has one of four encodings; the decoder reads back a whole
    one and reports a cut one with a single replacement character. *)
Lemma decode_utf8 c bs :
  scalar c → decode_from dstate0 (utf8 c ++ bs) = c :: decode_from dstate0 bs.
Proof.
  unfold scalar, utf8. intros Hc.
  destruct (N.ltb_spec c 0x80); [cbn [app]; by rewrite decode_start, decode_first_1|].
  destruct (N.ltb_spec c 0x800); [|destruct (N.ltb_spec c 0x10000)]; cbn [app]; rewrite decode_start.
  - rewrite decode_first_2 by divlia. cbn [app]. rewrite decode_continue by divlia. f_equal; divlia.
  - destruct (decode_first_3 (0xE0 + c / 4096)) as (lo & hi & -> & Hlo & Hhi); [divlia|]. cbn [app].
    rewrite decode_continue by divlia. rewrite decode_continue by divlia. f_equal; divlia.
  - destruct (decode_first_4 (0xF0 + c / 262144)) as (lo & hi & -> & Hlo & Hhi); [divlia|]. cbn [app].
    do 3 (rewrite decode_continue by divlia). f_equal; divlia.
Qed.

Lemma decode_all cs : Forall scalar cs → decode_from dstate0 (concat (map utf8 cs)) = cs.
Proof.
  induction 1 as [|c cs Hc _ IH]; [done|]. cbn [map concat]. by rewrite decode_utf8, IH by done.
Qed.

Lemma decode_cut c k :
  scalar c → (0 < k < length (utf8 c))%nat →
  decode_from dstate0 (take k (utf8 c)) = [REPLACEMENT].
Proof.
  unfold scalar, utf8. intros Hc.
  destruct (N.ltb_spec c 0x80); [cbn; lia|].
  destruct (N.ltb_spec c 0x800); [|destruct (N.ltb_spec c 0x10000)]; cbn [length]; intros Hk;
    (destruct k as [|k]; [lia|]); cbn [take]; rewrite decode_start.
  - rewrite decode_first_2 by divlia. by destruct k; [|lia].
  - destruct (decode_first_3 (0xE0 + c / 4096)) as (lo & hi & -> & Hlo & Hhi); [divlia|]. cbn [app].
    destruct k as [|[|k]]; [done| |lia]. cbn [take]. by rewrite decode_continue by divlia.
  - destruct (decode_first_4 (0xF0 + c / 262144)) as (lo & hi & -> & Hlo & Hhi); [divlia|]. cbn [app].
    destruct k as [|[|[|k]]]; [done| | |lia]; cbn [take].
    + by rewrite decode_continue by divlia.
    + rewrite decode_continue by divlia. by rewrite decode_continue by divlia.
Qed.

Lemma utf8_length c : (1 ≤ length (utf8 c) ≤ 4)%nat.
Proof. unfold utf8. repeat case_match; cbn; lia. Qed.

Lemma encode_char s c : c ∈ chars s → encode c = utf8 (char_scalar c).
Proof.
  assert (c ∈ chars s → chars c = [c]) as Hone.
  { induction s as [|u|u t s E IH|u t s E IH] using chars_ind.
    - by intros ?%elem_of_nil.
    - by intros ->%list_elem_of_singleton.
    - rewrite chars_pair by done. intros [->|?]%elem_of_cons; [|auto]. by rewrite chars_pair.
    - rewrite chars_lone by done. intros [->|?]%elem_of_cons; [done|auto]. }
  intros Hc. unfold encode, scalars. rewrite (Hone Hc). cbn. apply app_nil_r.
Qed.

(** The bytes of a run of characters are the bytes of each of them. *)
Lemma byteLength_take s k :
  byteLength (concat (take k (chars s))) =
    foldr (fun c n => Z.of_nat (length (encode c)) + n)%Z 0%Z (take k (chars s)).
Proof.
  unfold byteLength, encode, scalars at 1. rewrite chars_take.
  assert (∀ c, c ∈ take k (chars s) → c ∈ chars s) as Hin.
  { intros c Hc. rewrite <- (take_drop k (chars s)). by apply elem_of_app; left. }
  induction (take k (chars s)) as [|c cs IH]; [done|]. cbn. rewrite length_app, Nat2Z.inj_add.
  rewrite IH by set_solver. fold (encode c). by rewrite (encode_char s c) by (apply Hin; set_solver).
Qed.

(** [decode] of a cut encoding: the characters that fit, and one replacement
    character when the cut falls inside one. *)
Lemma decode_take cs n :
  Forall scalar cs →
  ∃ j, let pre := take j cs in
    (decode_from dstate0 (take n (concat (map utf8 cs))) = pre ∧
     (length (concat (map utf8 pre)) ≤ n)%nat) ∨
    (decode_from dstate0 (take n (concat (map utf8 cs))) = pre ++ [REPLACEMENT] ∧
     (length (concat (map utf8 pre)) < n)%nat).
Proof.
  intros Hcs. revert n. induction Hcs as [|c cs Hc _ IH]; intros n.
  - exists 0%nat. left. cbn. rewrite take_nil. split; [done|cbn; lia].
  - cbn [map concat]. rewrite take_app.
    destruct (decide (length (utf8 c) ≤ n)%nat) as [Hle|Hgt].
    + rewrite take_ge by done. rewrite decode_utf8 by done.
      destruct (IH (n - length (utf8 c))%nat) as (j & Hj).
      exists (S j). cbn [take map concat app]. rewrite !length_app.
      destruct Hj as [[-> ?]|[-> ?]]; [left|right]; (split; [done|lia]).
    + rewrite (proj2 (Nat.sub_0_le n (length (utf8 c)))) by lia. rewrite take_0, app_nil_r.
      exists 0%nat. cbn [take map concat length]. destruct n as [|n]; [left; done|right].
      rewrite decode_cut by (done || lia). split; [done|lia].
Qed.

Lemma scalar_replacement : scalar REPLACEMENT.
Proof. unfold scalar, REPLACEMENT. lia. Qed.

Lemma strip_bom_suffix cs : ∃ pre, cs = pre ++ strip_bom cs.
Proof.
  destruct cs as [|c cs]; [by exists []|]. cbn. case_match; [by exists [c]|by exists []].
Qed.

Lemma byteLength_strip_bom cs :
  Forall scalar cs →
  (byteLength (concat (map utf16 (strip_bom cs))) ≤ Z.of_nat (length (concat (map utf8 cs))))%Z.
Proof.
  intros Hcs. destruct (strip_bom_suffix cs) as [pre Hpre].
  unfold byteLength, encode. rewrite scalars_utf16.
  - rewrite Hpre at 2. rewrite map_app, concat_app, length_app. lia.
  - rewrite Hpre in Hcs. by apply Forall_app in Hcs as [_ ?].
Qed.

Lemma decode_take_length cs n :
  Forall scalar cs → (byteLength (decode (take n (concat (map utf8 cs)))) ≤ Z.of_nat n + 2)%Z.
Proof.
  intros Hcs. unfold decode. destruct (decode_take cs n Hcs) as (j & Hj).
  assert (Forall scalar (take j cs)) as Ht by by apply Forall_take.
  destruct Hj as [[-> Hl]|[-> Hl]].
  - pose proof (byteLength_strip_bom _ Ht). lia.
  - assert (Forall scalar (take j cs ++ [REPLACEMENT])) as Ht'.
    { apply Forall_app. split; [done|]. by constructor; [apply scalar_replacement|]. }
    pose proof (byteLength_strip_bom _ Ht') as Hb.
    rewrite map_app, concat_app, length_app in Hb. change (length (concat (map utf8 [REPLACEMENT]))) with 3%nat in Hb.
    lia.
Qed.

Lemma bounded_loop_spec cs acc bytes :
  (bytes ≤ MAX_DETAIL)%Z →
  let w l := foldr (fun c n => Z.of_nat (length (encode c)) + n)%Z 0%Z l in
  ∃ k, (k ≤ length cs)%nat ∧
    ProcessDetail.bounded_loop cs acc bytes = acc ++ concat (take k cs) ∧
    (bytes + w (take k cs) ≤ MAX_DETAIL)%Z ∧
    ((k < length cs)%nat → (MAX_DETAIL < bytes + w (take (S k) cs))%Z).
Proof.
  cbn zeta. revert acc bytes. induction cs as [|c cs IH]; intros acc bytes Hb.
  - exists 0%nat. cbn. rewrite app_nil_r. repeat split; lia.
  - cbn [ProcessDetail.bounded_loop]. case_match eqn:E.
    + apply Z.ltb_lt in E. exists 0%nat. cbn. rewrite take_0, app_nil_r. cbn. repeat split; lia.
    + apply Z.ltb_ge in E. destruct (IH (acc ++ c) _ E) as (k & Hk & -> & Hsum & Hmax).
      exists (S k). cbn [take concat foldr length] in *. rewrite <- app_assoc.
      repeat split; [lia|lia|]. intros Hlt. specialize (Hmax ltac:(lia)). lia.
Qed.

Lemma or_failed_nonempty s : ProcessDetail.or_failed s ≠ [].
Proof. by destruct s. Qed.

Lemma chars_nonempty s : s ≠ [] → (0 < length (chars s))%nat.
Proof. destruct s as [|u [|t s]]; [done|cbn; lia|]. intros _. cbn [chars]. case_match; cbn; lia. Qed.

Lemma chars_elem_nonempty s c : c ∈ chars s → c ≠ [].
Proof.
  induction s as [|u|u t s E IH|u t s E IH] using chars_ind.
  - by intros ?%elem_of_nil.
  - by intros ->%list_elem_of_singleton.
  - rewrite chars_pair by done. by intros [->|?]%elem_of_cons; [|auto].
  - rewrite chars_lone by done. by intros [->|?]%elem_of_cons; [|auto].
Qed.

(** The failure detail of Process V1 is never empty, takes at most 1,024
    UTF-8 bytes, and is the longest run of whole characters of the message that
    does: no surrogate pair is split, and a message that fits is kept whole. *)
Theorem process_detail_longest_prefix (e : thrown) :
  let message := ProcessDetail.or_failed (errorMessage e) in
  let detail := ProcessDetail.process_boundedError e in
  detail ≠ [] ∧
  (byteLength detail ≤ 1024)%Z ∧
  ∃ k, detail = concat (take k (chars message)) ∧
    (detail = message ∨ (1024 < byteLength (concat (take (S k) (chars message))))%Z).
Proof.
  cbn zeta. unfold ProcessDetail.process_boundedError.
  set (m := ProcessDetail.or_failed (errorMessage e)).
  assert (m ≠ []) as Hm by apply or_failed_nonempty.
  destruct (bounded_loop_spec (chars m) [] 0%Z) as (k & Hk & -> & Hsum & Hmax); [done|].
  cbn [app]. rewrite Z.add_0_l, <- byteLength_take in Hsum. rewrite Z.add_0_l, <- byteLength_take in Hmax.
  pose proof (chars_nonempty m Hm) as Hpos.
  assert (concat (take k (chars m)) ≠ []) as Hne.
  { destruct (chars m) as [|c cs] eqn:Ec; [cbn in Hpos; lia|].
    assert (c ∈ chars m) as Hin by (rewrite Ec; set_solver).
    destruct k as [|k]; [|cbn; intros [Hnil _]%app_eq_nil; by apply (chars_elem_nonempty m c)].
    specialize (Hmax Hpos). rewrite <- Ec, byteLength_take, Ec in Hmax. cbn in Hmax.
    rewrite take_0, (encode_char m c Hin) in Hmax. pose proof (utf8_length (char_scalar c)).
    unfold MAX_DETAIL in Hmax. cbn in Hmax. lia. }
  replace (ProcessDetail.or_failed (concat (take k (chars m)))) with (concat (take k (chars m)))
    by (by destruct (concat (take k (chars m)))).
  split_and!; [done|done|]. exists k. split; [done|].
  destruct (decide (k < length (chars m))%nat) as [Hlt|Hge]; [right; by apply Hmax|left].
  rewrite take_ge by lia. apply concat_chars.
Qed.

(** A well-formed message of at most 1,024 UTF-8 bytes that does not begin
    with a byte order mark reaches the Host unchanged through the Authoring V2
    detail, which encodes, cuts and decodes it. *)
Theorem authoring_detail_roundtrip (e : thrown) :
  let message := errorMessage e in
  message ≠ [] → head message ≠ Some BOM → well_formed message → (byteLength message ≤ 1024)%Z →
  AuthoringDetail.authoring_boundedError e = message.
Proof.
  cbn zeta. intros Hne Hbom Hwf Hlen. unfold AuthoringDetail.authoring_boundedError.
  destruct (errorMessage e) as [|u m] eqn:Em; [done|]. rewrite <- Em in *. clear Hne.
  rewrite take_ge by (unfold byteLength, MAX_DETAIL in *; lia).
  unfold decode, encode. rewrite decode_all by apply scalars_scalar.
  replace (strip_bom (scalars (errorMessage e))) with (scalars (errorMessage e)); [by apply utf16_scalars|].
  pose proof (concat_chars (errorMessage e)) as Hcc. unfold scalars, well_formed in *.
  destruct (chars (errorMessage e)) as [|c cs]; [done|]. cbn. destruct (N.eqb_spec (char_scalar c) BOM) as [E|]; [|done].
  apply Forall_cons_1 in Hwf as [Hc _]. rewrite E in Hc. subst c. cbn in Hcc. rewrite <- Hcc in Hbom. done.
Qed.

Lemma authoring_detail_roundtrip_witness :
  AuthoringDetail.authoring_boundedError (ErrorObject (js "no such key")) = js "no such key".
Proof.
  apply (authoring_detail_roundtrip (ErrorObject (js "no such key"))); [done|done| |vm_compute; discriminate].
  repeat constructor; vm_compute; done.
Defined.

(** Cutting the UTF-8 bytes and decoding them again keeps an Authoring V2
    detail within 1,026 bytes: a cut character costs one three-byte replacement. *)
Theorem authoring_detail_bound (e : thrown) :
  (byteLength (AuthoringDetail.authoring_boundedError e) ≤ 1026)%Z.
Proof.
  unfold AuthoringDetail.authoring_boundedError, encode.
  etransitivity; [apply decode_take_length, scalars_scalar|]. unfold MAX_DETAIL. lia.
Qed.

(** The 1,024-byte cut of Authoring V2 does not bound the detail it sends: a
    1,025-byte message whose last character is cut comes out two bytes over the
    limit, where the Process V1 routine stays below it. *)
Theorem authoring_detail_overflow :
  ∃ e, (byteLength (errorMessage e) = 1025)%Z ∧
       (byteLength (AuthoringDetail.authoring_boundedError e) = 1026)%Z ∧
       (byteLength (ProcessDetail.process_boundedError e) = 1023)%Z.
Proof.
  exists (ErrorObject (replicate 1023 97 ++ [0xE9])). by vm_compute.
Qed.
