(* ===== verification/Json.v ===== *)
(** * JSON text

    [JSON.stringify] and [JSON.parse] on plain values, and the size in UTF-8
    bytes of a serialized value, which the wires bound. *)

From Stdlib Require Import ZArith SpecFloat.
From S2P Require Import Prelude JsValue Text.

(** ** Own-property order *)

Fixpoint digits_val (acc : N) (s : jsstr) : option N :=
  match s with
  | [] => Some acc
  | c :: s =>
      if (48 <=? c)%N && (c <=? 57)%N then digits_val (acc * 10 + (c - 48))%N s else None
  end.

(** An array index: the canonical decimal of an integer below [2^32 - 1]. *)
Definition array_index (k : jsstr) : option N :=
  match k with
  | [] => None
  | _ :: _ =>
      match digits_val 0 k with
      | Some n => if bool_decide (k = dec (Z.of_N n)) && (n <? 4294967295)%N then Some n else None
      | None => None
      end
  end.

(** [object[k] = v] on own properties: an existing key keeps its place, an array
    index goes before the other keys in ascending order, another key goes last. *)
Fixpoint obj_put {V} (k : jsstr) (v : V) (fs : list (jsstr * V)) : list (jsstr * V) :=
  match fs with
  | [] => [(k, v)]
  | (k', w) :: fs' =>
      if decide (k = k') then (k', v) :: fs'
      else match array_index k, array_index k' with
           | Some i, Some j => if (i <? j)%N then (k, v) :: (k', w) :: fs' else (k', w) :: obj_put k v fs'
           | Some _, None => if mem k (keys fs') then (k', w) :: obj_put k v fs' else (k, v) :: (k', w) :: fs'
           | None, _ => (k', w) :: obj_put k v fs'
           end
  end.

(** ** [JSON.stringify] *)

Definition hex_digit (n : N) : N := if (n <? 10)%N then (48 + n)%N else (87 + n)%N.

Definition unicode_escape (u : N) : jsstr :=
  js "\u" ++ [hex_digit (u / 4096); hex_digit (u / 256 mod 16); hex_digit (u / 16 mod 16); hex_digit (u mod 16)]%N.

Definition quote_char (c : jsstr) : jsstr :=
  match c with
  | [u] =>
      if (u =? 34)%N then js "\" ++ [34%N]
      else if (u =? 92)%N then js "\\"
      else if (u =? 8)%N then js "\b"
      else if (u =? 12)%N then js "\f"
      else if (u =? 10)%N then js "\n"
      else if (u =? 13)%N then js "\r"
      else if (u =? 9)%N then js "\t"
      else if (u <? 32)%N || is_lead u || is_trail u then unicode_escape u
      else [u]
  | _ => c
  end.

Definition quote (s : jsstr) : jsstr := [34%N] ++ concat (map quote_char (chars s)) ++ [34%N].

Definition join (sep : jsstr) (l : list jsstr) : jsstr :=
  match l with
  | [] => []
  | x :: l => x ++ concat (map (fun y => sep ++ y) l)
  end.

(** [None] is [undefined]: dropped from an object, [null] in an array. *)
Fixpoint stringify (v : jsval) : option jsstr :=
  match v with
  | JUndef | JFun _ => None
  | JNull => Some (js "null")
  | JBool b => Some (if b then js "true" else js "false")
  | JNum x =>
      Some (match x with
            | S754_nan | S754_infinity _ => js "null"
            | _ => number_to_string x
            end)
  | JStr s => Some (quote s)
  | JArr l =>
      let items := (fix go (l : list jsval) : list jsstr :=
        match l with
        | [] => []
        | v :: l => default (js "null") (stringify v) :: go l
        end) l in
      Some (js "[" ++ join (js ",") items ++ js "]")
  | JObj fs =>
      let items := (fix go (fs : list (jsstr * jsval)) : list jsstr :=
        match fs with
        | [] => []
        | (k, v) :: fs =>
            match stringify v with
            | Some t => (quote k ++ js ":" ++ t) :: go fs
            | None => go fs
            end
        end) fs in
      Some (js "{" ++ join (js ",") items ++ js "}")
  end.

(** [JSON.stringify(value)] of a value that is not [undefined]. *)
Definition json_text (v : jsval) : jsstr := default (js "undefined") (stringify v).

(** [new TextEncoder().encode(JSON.stringify(value)).byteLength] *)
Definition json_bytes (v : jsval) : Z := byteLength (json_text v).

(** ** [JSON.parse] *)

Definition is_ws (c : N) : bool := (c =? 32)%N || (c =? 9)%N || (c =? 10)%N || (c =? 13)%N.
Definition is_digit (c : N) : bool := (48 <=? c)%N && (c <=? 57)%N.

Fixpoint skip_ws (s : jsstr) : jsstr :=
  match s with
  | c :: s' => if is_ws c then skip_ws s' else s
  | [] => []
  end.

Fixpoint take_digits (s : jsstr) : jsstr * jsstr :=
  match s with
  | c :: s' => if is_digit c then let '(ds, rest) := take_digits s' in (c :: ds, rest) else ([], s)
  | [] => ([], [])
  end.

Definition hex_val (c : N) : option N :=
  if is_digit c then Some (c - 48)%N
  else if (97 <=? c)%N && (c <=? 102)%N then Some (c - 87)%N
  else if (65 <=? c)%N && (c <=? 70)%N then Some (c - 55)%N
  else None.

(** The body of a string literal, after the opening quote. *)
Fixpoint parse_string_body (s : jsstr) : option (jsstr * jsstr) :=
  match s with
  | [] => None
  | c :: s1 =>
      if (c =? 34)%N then Some ([], s1)
      else if (c <? 32)%N then None
      else if (c =? 92)%N then
        match s1 with
        | [] => None
        | e :: s2 =>
            let simple u := match parse_string_body s2 with
                            | Some (t, rest) => Some (u :: t, rest)
                            | None => None
                            end in
            if (e =? 34)%N || (e =? 92)%N || (e =? 47)%N then simple e
            else if (e =? 98)%N then simple 8%N
            else if (e =? 102)%N then simple 12%N
            else if (e =? 110)%N then simple 10%N
            else if (e =? 114)%N then simple 13%N
            else if (e =? 116)%N then simple 9%N
            else if (e =? 117)%N then
              match s2 with
              | h1 :: h2 :: h3 :: h4 :: s3 =>
                  match hex_val h1, hex_val h2, hex_val h3, hex_val h4 with
                  | Some a, Some b, Some c, Some d =>
                      match parse_string_body s3 with
                      | Some (t, rest) => Some ((a * 4096 + b * 256 + c * 16 + d)%N :: t, rest)
                      | None => None
                      end
                  | _, _, _, _ => None
                  end
              | _ => None
              end
            else None
        end
      else match parse_string_body s1 with
           | Some (t, rest) => Some (c :: t, rest)
           | None => None
           end
  end.

Definition dec_digits (s : jsstr) : N := fold_left (fun n c => n * 10 + (c - 48))%N s 0%N.

(** A number literal: the sign, the digits of the integer part (no leading zero),
    a fraction and an exponent, correctly rounded. *)
Definition parse_number (s : jsstr) : option (number * jsstr) :=
  let '(neg, s1) := match s with c :: s' => if (c =? 45)%N then (true, s') else (false, s) | [] => (false, []) end in
  let '(ip, s2) := take_digits s1 in
  let valid_int := match ip with [] => false | [_] => true | d :: _ => negb (d =? 48)%N end in
  if negb valid_int then None
  else
    let frac := match s2 with
                | c :: s' => if (c =? 46)%N then
                               let '(fp, s3) := take_digits s' in
                               match fp with [] => None | _ => Some (fp, s3) end
                             else Some ([], s2)
                | [] => Some ([], [])
                end in
    match frac with
    | None => None
    | Some (fp, s3) =>
        let ex := match s3 with
                  | c :: s' =>
                      if (c =? 101)%N || (c =? 69)%N then
                        let '(sgn, s4) := match s' with
                                          | d :: s'' => if (d =? 45)%N then ((-1)%Z, s'')
                                                        else if (d =? 43)%N then (1%Z, s'') else (1%Z, s')
                                          | [] => (1%Z, [])
                                          end in
                        let '(ed, s5) := take_digits s4 in
                        match ed with [] => None | _ => Some ((sgn * Z.of_N (dec_digits ed))%Z, s5) end
                      else Some (0%Z, s3)
                  | [] => Some (0%Z, [])
                  end in
        match ex with
        | None => None
        | Some (e, rest) =>
            let x := num_of_dec (dec_digits (ip ++ fp)) (e - Z.of_nat (length fp))%Z in
            Some (if neg then SFopp x else x, rest)
        end
    end.

Definition strip_prefix (p s : jsstr) : option jsstr :=
  if starts_with p s then Some (drop (length p) s) else None.

(** One value, the remaining text with it.  [fuel] bounds the nesting and the
    number of members; [length s + 1] is enough, since every call but the one on
    a literal consumes a code unit. *)
Fixpoint parse_value (fuel : nat) (s : jsstr) : option (jsval * jsstr) :=
  match fuel with
  | O => None
  | S fuel =>
      let s := skip_ws s in
      match s with
      | [] => None
      | c :: s1 =>
          if (c =? 123)%N then
            match skip_ws s1 with
            | d :: s2 => if (d =? 125)%N then Some (JObj [], s2) else parse_members fuel [] (d :: s2)
            | [] => None
            end
          else if (c =? 91)%N then
            match skip_ws s1 with
            | d :: s2 => if (d =? 93)%N then Some (JArr [], s2) else parse_elements fuel [] (d :: s2)
            | [] => None
            end
          else if (c =? 34)%N then
            match parse_string_body s1 with Some (t, rest) => Some (JStr t, rest) | None => None end
          else match strip_prefix (js "true") s with
          | Some rest => Some (JBool true, rest)
          | None =>
          match strip_prefix (js "false") s with
          | Some rest => Some (JBool false, rest)
          | None =>
          match strip_prefix (js "null") s with
          | Some rest => Some (JNull, rest)
          | None => match parse_number s with Some (x, rest) => Some (JNum x, rest) | None => None end
          end end end
      end
  end
with parse_members (fuel : nat) (fs : list (jsstr * jsval)) (s : jsstr) : option (jsval * jsstr) :=
  match fuel with
  | O => None
  | S fuel =>
      match skip_ws s with
      | c :: s1 =>
          if negb (c =? 34)%N then None
          else match parse_string_body s1 with
          | None => None
          | Some (k, s2) =>
              match skip_ws s2 with
              | d :: s3 =>
                  if negb (d =? 58)%N then None
                  else match parse_value fuel s3 with
                  | None => None
                  | Some (v, s4) =>
                      match skip_ws s4 with
                      | e :: s5 =>
                          if (e =? 44)%N then parse_members fuel (obj_put k v fs) s5
                          else if (e =? 125)%N then Some (JObj (obj_put k v fs), s5) else None
                      | [] => None
                      end
                  end
              | [] => None
              end
          end
      | [] => None
      end
  end
with parse_elements (fuel : nat) (vs : list jsval) (s : jsstr) : option (jsval * jsstr) :=
  match fuel with
  | O => None
  | S fuel =>
      match parse_value fuel s with
      | None => None
      | Some (v, s1) =>
          match skip_ws s1 with
          | e :: s2 =>
              if (e =? 44)%N then parse_elements fuel (vs ++ [v]) s2
              else if (e =? 93)%N then Some (JArr (vs ++ [v]), s2) else None
          | [] => None
          end
      end
  end.

(** [JSON.parse(text)]; [None] is the thrown [SyntaxError]. *)
Definition json_parse (s : jsstr) : option jsval :=
  match parse_value (2 * length s + 2) s with
  | Some (v, rest) => match skip_ws rest with [] => Some v | _ => None end
  | None => None
  end.

(** ** [Number(text)] *)

Definition js_space (c : N) : bool :=
  ((9 <=? c) && (c <=? 13) || (c =? 32) || (c =? 0xA0) || (c =? 0x1680) || (0x2000 <=? c) && (c <=? 0x200A) ||
   (c =? 0x2028) || (c =? 0x2029) || (c =? 0x202F) || (c =? 0x205F) || (c =? 0x3000) || (c =? 0xFEFF))%N.

Fixpoint skip_space (s : jsstr) : jsstr :=
  match s with c :: s' => if js_space c then skip_space s' else s | [] => [] end.

Definition trim (s : jsstr) : jsstr := rev (skip_space (rev (skip_space s))).

(** The digits of a [0x], [0o] or [0b] literal. *)
Fixpoint radix_digits (radix acc : N) (s : jsstr) : option N :=
  match s with
  | [] => Some acc
  | c :: s => match hex_val c with
              | Some d => if (d <? radix)%N then radix_digits radix (acc * radix + d)%N s else None
              | None => None
              end
  end.

Definition radix_literal (radix : N) (s : jsstr) : number :=
  match s with
  | [] => S754_nan
  | _ :: _ => match radix_digits radix 0%N s with Some n => num (Z.of_N n) | None => S754_nan end
  end.

(** An exponent part, which must end the text. *)
Definition exponent_part (s : jsstr) : option Z :=
  match s with
  | [] => Some 0%Z
  | c :: s1 =>
      if (c =? 101)%N || (c =? 69)%N then
        let '(sgn, s2) := match s1 with
                          | d :: s2 => if (d =? 45)%N then ((-1)%Z, s2) else if (d =? 43)%N then (1%Z, s2) else (1%Z, s1)
                          | [] => (1%Z, [])
                          end in
        match take_digits s2 with
        | (_ :: _ as ds, []) => Some (sgn * Z.of_N (dec_digits ds))%Z
        | _ => None
        end
      else None
  end.

Definition decimal_literal (s : jsstr) : number :=
  if bool_decide (s = js "Infinity") then S754_infinity false
  else
    let '(ip, s1) := take_digits s in
    let '(fp, s2) := match s1 with c :: s' => if (c =? 46)%N then take_digits s' else ([], s1) | [] => ([], []) end in
    match ip ++ fp, exponent_part s2 with
    | _ :: _, Some e => num_of_dec (dec_digits (ip ++ fp)) (e - Z.of_nat (length fp))%Z
    | _, _ => S754_nan
    end.

Definition signed_literal (s : jsstr) : number :=
  match s with
  | c :: s' => if (c =? 45)%N then SFopp (decimal_literal s')
               else if (c =? 43)%N then decimal_literal s' else decimal_literal s
  | [] => S754_zero false
  end.

Definition to_number (s : jsstr) : number :=
  let s := trim s in
  match s with
  | z :: x :: rest =>
      if (z =? 48)%N && ((x =? 120) || (x =? 88))%N then radix_literal 16 rest
      else if (z =? 48)%N && ((x =? 111) || (x =? 79))%N then radix_literal 8 rest
      else if (z =? 48)%N && ((x =? 98) || (x =? 66))%N then radix_literal 2 rest
      else signed_literal s
  | _ => signed_literal s
  end.

(** ** Strings survive quoting *)

Definition prepend (c : jsstr) (r : option (jsstr * jsstr)) : option (jsstr * jsstr) :=
  match r with Some (t, rest) => Some (c ++ t, rest) | None => None end.

Lemma hex_val_digit n : (n < 16)%N → hex_val (hex_digit n) = Some n.
Proof. intros Hn. unfold hex_val, hex_digit, is_digit. nbool; f_equal; lia. Qed.

Lemma parse_unicode_escape u tl :
  (u < 65536)%N → parse_string_body (unicode_escape u ++ tl) = prepend [u] (parse_string_body tl).
Proof.
  intros Hu. unfold unicode_escape.
  change (js "\u" ++ ?x) with (92%N :: 117%N :: x). cbn [app parse_string_body].
  change (92 =? 34)%N with false. change (92 <? 32)%N with false. change (92 =? 92)%N with true.
  cbn iota. change ((117 =? 34) || (117 =? 92) || (117 =? 47))%N with false.
  change (117 =? 98)%N with false. change (117 =? 102)%N with false. change (117 =? 110)%N with false.
  change (117 =? 114)%N with false. change (117 =? 116)%N with false. change (117 =? 117)%N with true. cbn iota.
  rewrite !hex_val_digit by divlia. destruct (parse_string_body tl) as [[t rest]|]; [|done]. cbn.
  do 3 f_equal. divlia.
Qed.

Lemma parse_plain u tl :
  (u =? 34)%N = false → (u <? 32)%N = false → (u =? 92)%N = false →
  parse_string_body (u :: tl) = prepend [u] (parse_string_body tl).
Proof. intros H1 H2 H3. cbn [parse_string_body]. by rewrite H1, H2, H3. Qed.

Lemma parse_quote_unit u tl :
  parse_string_body (quote_char [u] ++ tl) = prepend [u] (parse_string_body tl).
Proof.
  unfold quote_char.
  repeat match goal with
  | |- context [if (u =? ?n)%N then _ else _] => destruct (N.eqb_spec u n) as [->|?]; [reflexivity|]
  end.
  destruct ((u <? 32)%N || is_lead u || is_trail u) eqn:E.
  - apply parse_unicode_escape. unfold is_lead, is_trail in E. nbool.
  - apply orb_false_iff in E as [[E _]%orb_false_iff _]. apply parse_plain; [nbool..|]. nbool.
Qed.

Lemma parse_quote_pair u t tl :
  is_lead u && is_trail t = true →
  parse_string_body (quote_char [u; t] ++ tl) = prepend [u; t] (parse_string_body tl).
Proof.
  intros E. unfold is_lead, is_trail in E. cbn [quote_char app]. rewrite parse_plain by nbool.
  rewrite parse_plain by nbool. by destruct (parse_string_body tl) as [[? ?]|].
Qed.

(** Reading back what [JSON.stringify] wrote for a string gives the string. *)
Lemma parse_quote s rest :
  parse_string_body (concat (map quote_char (chars s)) ++ 34%N :: rest) = Some (s, rest).
Proof.
  induction s as [|u|u t s E IH|u t s E IH] using chars_ind.
  - done.
  - cbn [chars map concat]. rewrite app_nil_r, parse_quote_unit. done.
  - rewrite chars_pair by done. cbn [map concat]. by rewrite <- app_assoc, parse_quote_pair, IH.
  - rewrite chars_lone by done. cbn [map concat]. by rewrite <- app_assoc, parse_quote_unit, IH.
Qed.

Lemma quoted_inj s1 s2 r1 r2 :
  concat (map quote_char (chars s1)) ++ 34%N :: r1 = concat (map quote_char (chars s2)) ++ 34%N :: r2 →
  s1 = s2 ∧ r1 = r2.
Proof. intros H. pose proof (parse_quote s1 r1) as P1. rewrite H, parse_quote in P1. by simplify_eq. Qed.

(** [JSON.stringify] of an array of strings determines the array. *)
Lemma join_quotes_inj l1 l2 r1 r2 :
  concat (map (fun y => js "," ++ y) (map quote l1)) ++ 93%N :: r1 =
  concat (map (fun y => js "," ++ y) (map quote l2)) ++ 93%N :: r2 → l1 = l2.
Proof.
  revert l2; induction l1 as [|s1 l1 IH]; intros [|s2 l2]; cbn; try done.
  rewrite <- !app_assoc. intros [= H]. destruct (quoted_inj _ _ _ _ H) as [-> H']. f_equal. by apply IH.
Qed.

Lemma array_items_strings l :
  stringify (JArr (map JStr l)) = Some (js "[" ++ join (js ",") (map quote l) ++ js "]").
Proof.
  cbn [stringify]. do 4 f_equal. induction l as [|s l IH]; [done|]. cbn in IH |- *. by f_equal.
Qed.

Lemma json_strings_inj l1 l2 : json_text (JArr (map JStr l1)) = json_text (JArr (map JStr l2)) → l1 = l2.
Proof.
  unfold json_text. rewrite !array_items_strings. cbn [default]. intros [= H].
  destruct l1 as [|s1 l1], l2 as [|s2 l2]; cbn in H; try done.
  rewrite <- !app_assoc in H. injection H as H. destruct (quoted_inj _ _ _ _ H) as [-> H']. f_equal.
  by eapply (join_quotes_inj _ _ [] []).
Qed.
