(* ===== verification/JsonText.v ===== *)
(** * JSON text as a wire

    A value that JSON can carry survives [JSON.stringify], UTF-8, and [JSON.parse]:
    [JSON.stringify] escapes lone surrogates, so its text is Unicode, and reading it back
    gives the value with its properties in order.  The servers and the generated bindings
    exchange such values. *)

From Stdlib Require Import ZArith SpecFloat.
From S2P Require Import Prelude JsValue Text Json.

Local Open Scope N_scope.

(** ** Values JSON can carry *)

(** [{ ...fields }]: the own properties after they have been set one by one. *)
Definition own_order (fs : list (jsstr * jsval)) : list (jsstr * jsval) :=
  fold_left (fun acc e => obj_put e.1 e.2 acc) fs [].

Definition units (s : jsstr) : bool := forallb (fun u => u <? 65536) s.

(** Plain data with safe integers, and with properties in the order an object has them. *)
Fixpoint portable (v : jsval) : bool :=
  match v with
  | JUndef | JFun _ => false
  | JNull | JBool _ => true
  | JNum x => match safe_int x with Some z => bool_decide (x = num z) | None => false end
  | JStr s => units s
  | JArr l => forallb portable l
  | JObj fs => bool_decide (own_order fs = fs) && forallb (fun e => units e.1 && portable e.2) fs
  end.

(** ** Unicode text *)

Definition unicode (s : jsstr) : Prop := ∃ cs, Forall scalar cs ∧ s = concat (map utf16 cs).

Lemma unicode_nil : unicode [].
Proof. by exists []. Qed.

Lemma unicode_app s t : unicode s → unicode t → unicode (s ++ t).
Proof.
  intros (cs & Hc & ->) (ds & Hd & ->). exists (cs ++ ds). split; [by apply Forall_app|].
  by rewrite map_app, concat_app.
Qed.

Lemma unicode_unit u : u < 0xD800 ∨ 0xE000 ≤ u < 65536 → unicode [u].
Proof.
  intros Hu. exists [u]. split; [constructor; [unfold scalar; lia|constructor]|].
  cbn. unfold utf16. rewrite (proj2 (N.ltb_lt u 65536)) by lia. done.
Qed.

Lemma unicode_cons u s : u < 0xD800 ∨ 0xE000 ≤ u < 65536 → unicode s → unicode (u :: s).
Proof. intros Hu Hs. apply (unicode_app [u]); [by apply unicode_unit|done]. Qed.

Lemma unicode_ascii s : Forall (fun u => u < 128) s → unicode s.
Proof. induction 1; [apply unicode_nil|]. apply unicode_cons; [lia|done]. Qed.

Lemma unicode_concat l : Forall unicode l → unicode (concat l).
Proof. induction 1; [apply unicode_nil|by apply unicode_app]. Qed.


(** Unicode text that does not begin with a byte order mark survives UTF-8. *)
Lemma decode_encode s : unicode s → head s ≠ Some BOM → decode (encode s) = s.
Proof.
  intros (cs & Hc & ->) Hb. unfold decode, encode. rewrite scalars_utf16, decode_all by done.
  destruct cs as [|c cs]; [done|]. unfold strip_bom. destruct (N.eqb_spec c BOM) as [->|]; [|done].
  by cbn in Hb.
Qed.

(** ** What [JSON.stringify] writes *)

Definition member_text (e : jsstr * jsval) : jsstr := quote e.1 ++ js ":" ++ json_text e.2.

Lemma portable_stringify v : portable v = true → stringify v = Some (json_text v).
Proof. unfold json_text. by destruct v. Qed.

Lemma json_text_arr l :
  forallb portable l = true → json_text (JArr l) = js "[" ++ join (js ",") (map json_text l) ++ js "]".
Proof.
  intros Hl. unfold json_text at 1. cbn [stringify]. set (items := (fix go (l : list jsval) := _) l).
  enough (items = map json_text l) as -> by done. unfold items. clear items.
  induction l as [|v l IH]; [done|]. cbn [forallb] in Hl. apply andb_true_iff in Hl as [Hv Hl].
  cbn [map]. rewrite <-IH by done. by rewrite portable_stringify.
Qed.

Lemma json_text_obj fs :
  forallb (fun e => units e.1 && portable e.2) fs = true →
  json_text (JObj fs) = js "{" ++ join (js ",") (map member_text fs) ++ js "}".
Proof.
  intros Hf. unfold json_text at 1. cbn [stringify]. set (items := (fix go (fs : list (jsstr * jsval)) := _) fs).
  enough (items = map member_text fs) as -> by done. unfold items. clear items.
  induction fs as [|[k v] fs IH]; [done|]. cbn [forallb fst snd] in Hf.
  apply andb_true_iff in Hf as [[_ Hv]%andb_true_iff Hf].
  cbn [map]. rewrite <-IH by done. by rewrite portable_stringify.
Qed.

(** *** Digits *)

Lemma dec_digits_app s t : dec_digits (s ++ t) = fold_left (fun n c => n * 10 + (c - 48)) t (dec_digits s).
Proof. unfold dec_digits. by rewrite fold_left_app. Qed.

Lemma js_append s t : js (s +:+ t) = js s ++ js t.
Proof. induction s as [|c s IH]; [done|]. cbn [js app]. by rewrite <-IH. Qed.

Lemma pretty_char_digit x : x < 10 → js (String (pretty_N_char x) "") = [48 + x].
Proof. intros Hx. do 10 (destruct x as [|x] using N.peano_ind; [done|clear IHx]). lia. Qed.

(** The digits of a positive number: no leading zero, and they read back. *)
Lemma pretty_go_digits x s :
  0 < x → ∃ ds, js (pretty_N_go x s) = ds ++ js s ∧ Forall (fun c => 48 ≤ c ≤ 57) ds ∧ dec_digits ds = x ∧
                ∃ d ds', ds = d :: ds' ∧ 49 ≤ d.
Proof.
  revert s. induction x as [x IH] using (well_founded_induction N.lt_wf_0). intros s Hx.
  rewrite pretty_N_go_step by done.
  pose proof (N.mod_lt x 10 ltac:(lia)) as Hm. pose proof (N.div_mod x 10 ltac:(lia)) as Hd.
  pose proof (N.div_lt x 10 Hx ltac:(lia)) as Hq.
  set (q := x `div` 10) in *. set (r := x `mod` 10) in *. clearbody q r.
  assert (Hjs : js (String (pretty_N_char r) s) = [48 + r] ++ js s) by (by rewrite <-pretty_char_digit).
  destruct (N.eq_dec q 0) as [->|E].
  - rewrite pretty_N_go_0. exists [48 + r]. split; [done|].
    split; [apply Forall_singleton; lia|]. split; [unfold dec_digits; cbn [fold_left]; lia|].
    eexists _, _. split; [done|]. lia.
  - destruct (IH q Hq (String (pretty_N_char r) s)) as (ds & E1 & E2 & E3 & d & ds' & E4 & E5); [lia|].
    exists (ds ++ [48 + r]). split; [by rewrite E1, Hjs, app_assoc|].
    split; [apply Forall_app_2; [done|]; apply Forall_singleton; lia|].
    split; [rewrite dec_digits_app, E3; cbn [fold_left]; lia|].
    exists d, (ds' ++ [48 + r]). split; [by rewrite E4|done].
Qed.

Lemma dec_positive p :
  ∃ d ds, dec (Z.pos p) = d :: ds ∧ Forall (fun c => 48 ≤ c ≤ 57) (d :: ds) ∧ 49 ≤ d ∧ dec_digits (d :: ds) = N.pos p.
Proof.
  destruct (pretty_go_digits (N.pos p) "") as (ds & E1 & E2 & E3 & d & ds' & -> & E5); [lia|].
  exists d, ds'. cbn [js] in E1. rewrite app_nil_r in E1. done.
Qed.

Lemma dec_negative p : dec (Z.neg p) = 45 :: dec (Z.pos p).
Proof. done. Qed.

(** ** Reading it back *)

(** What may follow a value: nothing, a comma, the end of an array or an object, or a new line. *)
Definition delimited (rest : jsstr) : Prop :=
  match rest with [] => True | c :: _ => c = 44 ∨ c = 93 ∨ c = 125 ∨ c = 10 end.

Lemma take_digits_app ds rest :
  Forall (fun c => 48 ≤ c ≤ 57) ds → delimited rest → take_digits (ds ++ rest) = (ds, rest).
Proof.
  intros Hd Hr. induction Hd as [|c ds Hc Hd IH]; cbn [app take_digits].
  - destruct rest as [|c rest]; [done|]. cbn. unfold is_digit. by destruct Hr as [->|[->|[->| ->]]].
  - unfold is_digit. rewrite (proj2 (N.leb_le 48 c)), (proj2 (N.leb_le c 57)) by lia. cbn. by rewrite IH.
Qed.

Lemma num_of_dec_0 p : num_of_dec (N.pos p) 0 = num (Z.pos p).
Proof. unfold num_of_dec, num. replace (Z.pos p * 10 ^ 0)%Z with (Z.pos p) by lia. done. Qed.

Lemma parse_digits d ds rest :
  Forall (fun c => 48 ≤ c ≤ 57) (d :: ds) → 49 ≤ d ∨ ds = [] → delimited rest →
  parse_number (d :: ds ++ rest) = Some (num_of_dec (dec_digits (d :: ds)) 0, rest).
Proof.
  intros Hd Hlead Hr. unfold parse_number.
  assert (Hd45 : (d =? 45) = false) by (apply Forall_cons in Hd as [? _]; apply N.eqb_neq; lia). rewrite Hd45.
  change (d :: ds ++ rest) with ((d :: ds) ++ rest). rewrite take_digits_app by done.
  assert (Hv : negb match d :: ds with [] => false | [_] => true | d :: _ => negb (d =? 48) end = false).
  { destruct ds; [done|]. destruct Hlead as [Hl|]; [|done]. rewrite (proj2 (N.eqb_neq d 48)) by lia. done. }
  cbv zeta. rewrite Hv. clear Hv.
  replace (dec_digits (d :: ds)) with (dec_digits ((d :: ds) ++ [])) by (by rewrite app_nil_r).
  destruct rest as [|c rest]; [done|]. by destruct Hr as [->|[->|[->| ->]]].
Qed.

Lemma parse_number_neg d s :
  (d =? 45) = false →
  parse_number (45 :: d :: s) = match parse_number (d :: s) with Some (x, rest) => Some (SFopp x, rest) | None => None end.
Proof.
  intros Hd. unfold parse_number. rewrite Hd. change (45 =? 45) with true. cbv iota beta.
  destruct (take_digits (d :: s)) as [ip s2]. by repeat case_match; simplify_eq.
Qed.

Lemma parse_integer z rest :
  (Z.abs z ≤ MAX_SAFE_INTEGER)%Z → delimited rest → parse_number (dec z ++ rest) = Some (num z, rest).
Proof.
  intros Hz Hr. destruct z as [|p|p].
  - change (dec 0 ++ rest) with (48 :: [] ++ rest). rewrite parse_digits; [done| |by right|done]. apply Forall_singleton. lia.
  - destruct (dec_positive p) as (d & ds & E & Hd & Hl & Hv). rewrite E. cbn [app].
    rewrite parse_digits by auto. by rewrite Hv, num_of_dec_0.
  - rewrite dec_negative. destruct (dec_positive p) as (d & ds & E & Hd & Hl & Hv). rewrite E. cbn [app].
    rewrite parse_number_neg by (apply N.eqb_neq; lia). rewrite parse_digits by auto.
    rewrite Hv, num_of_dec_0. by rewrite num_opp by lia.
Qed.

(** *** Text of every value *)

(** The first character of a value's text begins neither white space nor the end of a list. *)
Definition begins (s : jsstr) : Prop :=
  match s with [] => False | c :: _ => is_ws c = false ∧ (c =? 93) = false ∧ (c =? 125) = false end.

Lemma skip_ws_begins s rest : begins s → skip_ws (s ++ rest) = s ++ rest.
Proof. destruct s as [|c s]; [done|]. intros (Hw & _). cbn. by rewrite Hw. Qed.

Lemma skip_ws_cons c rest : is_ws c = false → skip_ws (c :: rest) = c :: rest.
Proof. intros Hw. cbn. by rewrite Hw. Qed.

Lemma dec_head z : ∃ c s, dec z = c :: s ∧ (c = 45 ∨ 48 ≤ c ≤ 57).
Proof.
  destruct z as [|p|p]; [by exists 48, []; split; [|lia]| |].
  - destruct (dec_positive p) as (d & ds & E & Hd & _). exists d, ds. apply Forall_cons in Hd as [? _]. auto.
  - exists 45, (dec (Z.pos p)). auto.
Qed.

Lemma portable_num x : portable (JNum x) = true → ∃ z, x = num z ∧ (Z.abs z ≤ MAX_SAFE_INTEGER)%Z ∧ json_text (JNum x) = dec z.
Proof.
  cbn [portable]. destruct (safe_int x) as [z|] eqn:E; [|done]. intros ->%bool_decide_eq_true.
  pose proof (safe_int_bounds _ _ E). exists z. split; [done|]. split; [lia|].
  unfold json_text. cbn [stringify default]. unfold number_to_string. rewrite E.
  destruct (num z) as [| | |] eqn:En; done.
Qed.

Lemma text_begins v : portable v = true → begins (json_text v).
Proof.
  destruct v as [| |[]|x|s|l|fs|]; try done.
  intros (z & -> & _ & ->)%portable_num. destruct (dec_head z) as (c & s & -> & Hc). cbn. unfold is_ws. nbool.
Qed.

Definition reads (v : jsval) : Prop :=
  ∀ fuel rest, (length (json_text v) ≤ fuel)%nat → delimited rest →
    parse_value fuel (json_text v ++ rest) = Some (v, rest).

Lemma join_cons sep x y l : join sep (x :: y :: l) = x ++ sep ++ join sep (y :: l).
Proof. unfold join. cbn [map concat]. by rewrite <- !app_assoc. Qed.

Lemma reads_number x : portable (JNum x) = true → reads (JNum x).
Proof.
  intros (z & -> & Hz & E)%portable_num [|fuel] rest Hf Hr.
  { rewrite E in Hf. destruct (dec_head z) as (c & s & Ed & _). rewrite Ed in Hf. cbn in Hf. lia. }
  pose proof (parse_integer z rest Hz Hr) as Hp. rewrite E in Hf |- *. clear E.
  destruct (dec_head z) as (c & s & Ed & Hc). rewrite Ed in Hf, Hp |- *. clear Ed. cbn [app] in Hp |- *.
  cbn [parse_value]. rewrite skip_ws_cons by (unfold is_ws; nbool).
  rewrite (proj2 (N.eqb_neq c 123)), (proj2 (N.eqb_neq c 91)), (proj2 (N.eqb_neq c 34)) by lia.
  unfold strip_prefix. assert (Hlit : ∀ d w, 97 ≤ d → starts_with (d :: w) (c :: s ++ rest) = false).
  { intros d w Hd. cbn. by rewrite (proj2 (N.eqb_neq d c)) by lia. }
  cbn [js]. rewrite !Hlit by (cbn; lia). by rewrite Hp.
Qed.

Lemma reads_string s : reads (JStr s).
Proof.
  intros [|fuel] rest Hf _; [cbn in Hf; lia|].
  change (json_text (JStr s)) with (34 :: concat (map quote_char (chars s)) ++ [34]). rewrite <-app_comm_cons, <-app_assoc.
  cbn [parse_value app]. rewrite skip_ws_cons by done.
  change (34 =? 123) with false. change (34 =? 91) with false. change (34 =? 34) with true. cbv iota.
  by rewrite parse_quote.
Qed.

(** The elements of an array, after those already read. *)
Lemma parse_elements_text l v : ∀ fuel vs rest,
  Forall reads (v :: l) → (length (join (js ",") (map json_text (v :: l))) < fuel)%nat →
  parse_elements fuel vs (join (js ",") (map json_text (v :: l)) ++ 93 :: rest) = Some (JArr (vs ++ v :: l), rest).
Proof.
  revert v. induction l as [|w l IH]; intros v [|fuel] vs rest Hl Hf; try lia;
    apply Forall_cons in Hl as [Hv Hl]; cbn [parse_elements].
  - cbn [map join concat] in Hf |- *. rewrite app_nil_r in Hf |- *.
    rewrite Hv by (try lia; cbn; auto). done.
  - cbn [map] in Hf |- *. rewrite join_cons in Hf |- *. rewrite !length_app in Hf. change (length (js ",")) with 1%nat in Hf.
    rewrite <- !app_assoc. rewrite Hv by (try lia; cbn; auto).
    change (skip_ws (js "," ++ ?t)) with (44 :: t). change (44 =? 44) with true. cbv iota.
    change (json_text w :: map json_text l) with (map json_text (w :: l)).
    rewrite IH by (done || (cbn [map]; lia)). by rewrite <-app_assoc.
Qed.

Lemma member_read fuel acc k v rest :
  parse_members (S fuel) acc (member_text (k, v) ++ rest) =
    match parse_value fuel (json_text v ++ rest) with
    | None => None
    | Some (v, s) =>
        match skip_ws s with
        | e :: s' => if e =? 44 then parse_members fuel (obj_put k v acc) s'
                     else if e =? 125 then Some (JObj (obj_put k v acc), s') else None
        | [] => None
        end
    end.
Proof.
  unfold member_text. cbn [fst snd]. unfold quote. rewrite <- !app_assoc.
  change ([34] ++ ?t) with (34 :: t). cbn [parse_members]. rewrite skip_ws_cons by done.
  change (negb (34 =? 34)) with false. cbv iota. cbn [app]. rewrite parse_quote. done.
Qed.

(** The members of an object, set one by one after those already read. *)
Lemma parse_members_text fs e : ∀ fuel acc rest,
  Forall (fun e => reads e.2) (e :: fs) → (length (join (js ",") (map member_text (e :: fs))) < fuel)%nat →
  parse_members fuel acc (join (js ",") (map member_text (e :: fs)) ++ 125 :: rest) =
    Some (JObj (fold_left (fun acc e => obj_put e.1 e.2 acc) (e :: fs) acc), rest).
Proof.
  revert e. induction fs as [|e' fs IH]; intros [k v] [|fuel] acc rest Hl Hf; try lia;
    apply Forall_cons in Hl as [Hv Hl]; cbn [snd] in Hv.
  - cbn [map join concat] in Hf |- *. rewrite app_nil_r in Hf |- *. rewrite member_read.
    unfold member_text in Hf. rewrite !length_app in Hf. cbn [fst snd] in Hf.
    rewrite Hv by (try lia; cbn; auto). done.
  - cbn [map] in Hf |- *. rewrite join_cons in Hf |- *. unfold member_text at 1 in Hf.
    rewrite !length_app in Hf. change (length (js ",")) with 1%nat in Hf. cbn [fst snd] in Hf.
    rewrite <- app_assoc, member_read. rewrite Hv by (try lia; cbn; auto).
    change (skip_ws ((js "," ++ ?s) ++ ?t)) with (44 :: s ++ t). change (44 =? 44) with true. cbv iota.
    change (member_text e' :: map member_text fs) with (map member_text (e' :: fs)).
    rewrite IH by (done || (cbn [map]; lia)). done.
Qed.

Lemma begins_app s t : begins s → begins (s ++ t).
Proof. by destruct s. Qed.

Lemma list_not_empty {A} (s rest : jsstr) (close : N) (empty full : jsstr → option A) :
  begins s → close = 93 ∨ close = 125 →
  match skip_ws (s ++ rest) with
  | d :: s2 => if d =? close then empty s2 else full (d :: s2)
  | [] => None
  end = full (s ++ rest).
Proof.
  intros Hs Hc. rewrite skip_ws_begins by done. destruct s as [|c s]; [done|]. destruct Hs as (_ & H1 & H2).
  cbn [app]. destruct Hc as [-> | ->]; by rewrite ?H1, ?H2.
Qed.

Lemma portable_all l : Forall (fun v => portable v = true → reads v) l → forallb portable l = true → Forall reads l.
Proof. induction 1; [done|]. cbn [forallb]. intros [? ?]%andb_true_iff. constructor; auto. Qed.

Lemma portable_members fs :
  Forall (fun e => portable e.2 = true → reads e.2) fs → forallb (fun e => units e.1 && portable e.2) fs = true →
  Forall (fun e => reads e.2) fs.
Proof. induction 1; [done|]. cbn [forallb]. intros [[_ ?]%andb_true_iff ?]%andb_true_iff. constructor; auto. Qed.

Lemma reads_array l : forallb portable l = true → Forall reads l → reads (JArr l).
Proof.
  intros Hv Hl [|fuel] rest Hf Hr; rewrite json_text_arr in Hf |- * by done; [cbn in Hf; lia|].
  rewrite !length_app in Hf. rewrite <- !app_assoc. change (js "[" ++ ?t) with (91 :: t).
  cbn [parse_value]. rewrite skip_ws_cons by done. cbn [N.eqb Pos.eqb].
  destruct l as [|v l]; [done|].
  rewrite (list_not_empty (A := jsval * jsstr)) with (full := parse_elements fuel []); [|apply begins_app, text_begins|by left].
  - change (js "]" ++ rest) with (93 :: rest). rewrite parse_elements_text; [done|done|].
    change (length (js "[")) with 1%nat in Hf. change (length (js "]")) with 1%nat in Hf. lia.
  - cbn [forallb] in Hv. by apply andb_true_iff in Hv as [? _].
Qed.

Lemma reads_object fs :
  own_order fs = fs → forallb (fun e => units e.1 && portable e.2) fs = true → Forall (fun e => reads e.2) fs →
  reads (JObj fs).
Proof.
  intros Ho Hv Hl [|fuel] rest Hf Hr; rewrite json_text_obj in Hf |- * by done; [cbn in Hf; lia|].
  rewrite !length_app in Hf. rewrite <- !app_assoc. change (js "{" ++ ?t) with (123 :: t).
  cbn [parse_value]. rewrite skip_ws_cons by done. cbn [N.eqb Pos.eqb].
  destruct fs as [|e fs]; [done|].
  rewrite (list_not_empty (A := jsval * jsstr)) with (full := parse_members fuel []); [|by apply begins_app|by right].
  change (js "}" ++ rest) with (125 :: rest). rewrite parse_members_text; [|done|].
  - unfold own_order in Ho. by rewrite Ho.
  - change (length (js "{")) with 1%nat in Hf. change (length (js "}")) with 1%nat in Hf. lia.
Qed.

(** Every portable value reads back from its text. *)
Lemma portable_reads v : portable v = true → reads v.
Proof.
  induction v as [| |b|x|s|l IH|fs IH|] using jsval_nested_ind; intros Hv; try done.
  - intros [|fuel] rest Hf Hr; [cbn in Hf; lia|]. done.
  - intros [|fuel] rest Hf Hr; [destruct b; cbn in Hf; lia|]. by destruct b.
  - by apply reads_number.
  - apply reads_string.
  - apply reads_array; [done|]. by apply portable_all.
  - cbn [portable] in Hv. apply andb_true_iff in Hv as [Ho%bool_decide_eq_true Hv].
    apply reads_object; [done|done|]. by apply portable_members.
Qed.

Theorem json_roundtrip v : portable v = true → json_parse (json_text v) = Some v.
Proof.
  intros Hv. unfold json_parse. rewrite <-(app_nil_r (json_text v)) at 2.
  rewrite portable_reads; [done|done|lia|done].
Qed.

(** A line that holds a value. *)
Lemma line_roundtrip v : portable v = true → json_parse (json_text v ++ [10]) = Some v.
Proof.
  intros Hv. unfold json_parse. rewrite portable_reads; [done|done|rewrite length_app; lia|cbn; auto].
Qed.

(** ** The text is Unicode *)

Lemma unicode_pair u t : is_lead u && is_trail t = true → unicode [u; t].
Proof.
  intros E. pose proof (chars_scalar [u; t] [u; t]) as Hs. rewrite chars_pair in Hs by done.
  specialize (Hs ltac:(by left)). exists [char_scalar [u; t]]. split; [by apply Forall_singleton|].
  cbn [map concat]. rewrite app_nil_r. cbn [char_scalar] in *. unfold is_lead, is_trail in E. unfold utf16. nbool.
  f_equal; [divlia|]. f_equal. divlia.
Qed.

Lemma hex_digit_ascii n : n < 16 → hex_digit n < 128.
Proof. unfold hex_digit. nbool. Qed.

Lemma unicode_quote_unit u : u < 65536 → unicode (quote_char [u]).
Proof.
  intros Hu. unfold quote_char.
  repeat match goal with
  | |- unicode (if u =? ?n then _ else _) => destruct (u =? n); [apply unicode_ascii; by repeat constructor|]
  end.
  destruct ((u <? 32) || is_lead u || is_trail u) eqn:E.
  - apply unicode_ascii. unfold unicode_escape. change (js "\u") with [92; 117]. cbn [app].
    repeat (apply Forall_cons; split; [done || (apply hex_digit_ascii; divlia)|]). constructor.
  - apply unicode_unit. unfold is_lead, is_trail in E. nbool.
Qed.

Lemma unicode_quoted s : units s = true → unicode (concat (map quote_char (chars s))).
Proof.
  unfold units. induction s as [|u|u t s E IH|u t s E IH] using chars_ind; cbn [forallb]; intros Hs.
  - apply unicode_nil.
  - cbn [chars map concat]. rewrite app_nil_r. apply unicode_quote_unit. nbool.
  - rewrite chars_pair by done. cbn [map concat]. apply unicode_app; [by apply unicode_pair|].
    apply IH. by apply andb_true_iff in Hs as [_ [_ Hs]%andb_true_iff].
  - rewrite chars_lone by done. cbn [map concat]. apply andb_true_iff in Hs as [Hu%N.ltb_lt Hs].
    apply unicode_app; [by apply unicode_quote_unit|by apply IH].
Qed.

Lemma unicode_quote s : units s = true → unicode (quote s).
Proof.
  intros Hs. apply unicode_cons; [lia|]. apply unicode_app; [by apply unicode_quoted|]. apply unicode_unit. lia.
Qed.

Lemma unicode_join l : Forall unicode l → unicode (join (js ",") l).
Proof.
  destruct 1 as [|x l Hx Hl]; [apply unicode_nil|]. apply unicode_app; [done|]. apply unicode_concat.
  induction Hl; constructor; [|done]. apply unicode_app; [apply unicode_unit; cbn; lia|done].
Qed.

Lemma unicode_dec z : unicode (dec z).
Proof.
  apply unicode_ascii.
  assert (Hpos : ∀ p, Forall (fun u => u < 128) (dec (Z.pos p))).
  { intros p. destruct (dec_positive p) as (d & ds & -> & Hd & _). eapply Forall_impl; [exact Hd|]. cbn beta. intros x [H1 H2]. lia. }
  destruct z as [|p|p]; [by repeat constructor|done|]. rewrite dec_negative. by constructor.
Qed.

Lemma unicode_text v : portable v = true → unicode (json_text v).
Proof.
  induction v as [| |b|x|s|l IH|fs IH|] using jsval_nested_ind; intros Hv; try done.
  - apply unicode_ascii. by repeat constructor.
  - apply unicode_ascii. destruct b; by repeat constructor.
  - destruct (portable_num x Hv) as (z & _ & _ & ->). apply unicode_dec.
  - by apply unicode_quote.
  - rewrite json_text_arr by done. apply unicode_cons; [cbn; lia|]. apply unicode_app; [|apply unicode_unit; cbn; lia].
    apply unicode_join. cbn [portable] in Hv. clear -IH Hv. induction IH as [|v l H _ IH]; [done|].
    cbn [forallb] in Hv. apply andb_true_iff in Hv as [? ?]. constructor; auto.
  - cbn [portable] in Hv. apply andb_true_iff in Hv as [_ Hv].
    rewrite json_text_obj by done. apply unicode_cons; [cbn; lia|]. apply unicode_app; [|apply unicode_unit; cbn; lia].
    apply unicode_join. clear -IH Hv. induction IH as [|[k v] l H _ IH]; [done|].
    cbn [forallb fst snd] in *. apply andb_true_iff in Hv as [[? ?]%andb_true_iff ?]. constructor; [|auto].
    apply unicode_app; [by apply unicode_quote|]. apply unicode_cons; [cbn; lia|auto].
Qed.

Lemma text_head v : portable v = true → head (json_text v) ≠ Some BOM.
Proof.
  destruct v as [| |[]|x|s|l|fs|]; try done. intros Hv.
  destruct (portable_num x Hv) as (z & _ & _ & ->). destruct (dec_head z) as (c & s & -> & Hc).
  cbn. unfold BOM. intros [= ->]. lia.
Qed.

(** The UTF-8 body of a portable value decodes to its text and parses to the value. *)
Theorem wire_roundtrip v :
  portable v = true → decode (encode (json_text v)) = json_text v ∧ json_parse (decode (encode (json_text v))) = Some v.
Proof.
  intros Hv. assert (E : decode (encode (json_text v)) = json_text v).
  { apply decode_encode; [by apply unicode_text|by apply text_head]. }
  rewrite E. split; [done|by apply json_roundtrip].
Qed.

(** A line of JSON that is written as UTF-8 reads as the value it was made of. *)
Lemma announced v : portable v = true → json_parse (decode (encode (json_text v ++ [10]))) = Some v.
Proof.
  intros Hv. rewrite decode_encode; [by apply line_roundtrip| |].
  - apply unicode_app; [by apply unicode_text|]. apply unicode_unit. lia.
  - pose proof (text_head v Hv) as Hh. destruct (json_text v) as [|u t]; [done|]. exact Hh.
Qed.

(** A port is carried by JSON. *)
Lemma portable_port p : (0 ≤ p < 65536)%Z → portable (JNum (num p)) = true.
Proof.
  intros Hp. cbn [portable]. rewrite safe_int_num by (unfold MAX_SAFE_INTEGER; lia). by apply bool_decide_eq_true.
Qed.

(** ** JSON-RPC requests *)

Definition rpc_request (id : jsval) (method : jsstr) (params : jsval) : jsval :=
  JObj [(js "jsonrpc", JStr (js "2.0")); (js "id", id); (js "method", JStr method); (js "params", params)].

Lemma portable_request id method params :
  portable id = true → units method = true → portable params = true → portable (rpc_request id method params) = true.
Proof.
  intros Hi Hm Hp. cbn [portable rpc_request]. rewrite bool_decide_true by reflexivity.
  cbn [forallb fst snd portable]. rewrite Hi, Hm, Hp. reflexivity.
Qed.

(** The properties a server reads. *)
Lemma request_fields id method params :
  let fs := [(js "jsonrpc", JStr (js "2.0")); (js "id", id); (js "method", JStr method); (js "params", params)] in
  is_str (field fs "jsonrpc") "2.0" = true ∧ field fs "id" = id ∧ field fs "method" = JStr method ∧
  field fs "params" = params.
Proof. done. Qed.
