(* ===== verification/Build.v ===== *)
(** * The build boundary (build.ts)

    The product-neutral half of the Plugin build: the [lenso.build] metadata of a
    package, the complete output of a product lowering, the exact contracts it
    may generate, and the fingerprint of the build inputs.  All of it is data
    received from code the Host does not trust, checked field by field. *)

From Stdlib Require Import ZArith.
From S2P Require Import Prelude JsValue Text Json.

Definition BUILD_API_VERSION : Z := 1.
Definition MAX_GENERATED_FILES : Z := 256.
Definition MAX_GENERATED_BYTES : Z := 16 * 1024 * 1024.

(** ** Data *)

Record SourceSpan := { span_file : jsstr; span_start : Z; span_end : Z }.

Record BuildPackageIdentity := { pkg_name : jsstr; pkg_version : jsstr; pkg_integrity : jsstr }.

Record AllowedProvider := {
  ap_capability_id : jsstr; ap_descriptor_version : jsstr; ap_descriptor_digest : jsstr }.

Record BuildProviderContract := {
  bpc_provider : AllowedProvider; bpc_request_operations : list jsstr }.

Record BuildPackageMetadata := {
  bpm_export : jsstr;
  bpm_declarations : list (jsstr * list jsstr);
  bpm_handler_parameters : option (list (jsstr * list (jsstr * list Z)));
  bpm_provider_contracts : list BuildProviderContract }.

(** [arguments] are [BuildArgument] objects; the code inspects them by their
    [kind] and [span] keys, so they stay plain values here. *)
Record LoweringInput := {
  in_api_version : jsval;
  in_package : BuildPackageIdentity;
  in_export_name : jsstr;
  in_arguments : list jsval;
  in_span : SourceSpan }.

Record GeneratedSymbol := { gs_module : jsstr; gs_export_name : jsstr }.

Record LoweredProvider := {
  lp_capability_id : jsstr;
  lp_descriptor_version : jsstr;
  lp_descriptor_digest : jsstr;
  lp_binder : GeneratedSymbol;
  lp_handler_references : list jsstr }.

Record GeneratedFile := { gf_path : jsstr; gf_contents : jsstr }.

Inductive Severity := SevError | SevWarning.

Record BuildDiagnostic := { bd_severity : Severity; bd_message : jsstr; bd_span : SourceSpan }.

Record LoweringOutput := {
  lo_providers : list LoweredProvider;
  lo_files : list GeneratedFile;
  lo_diagnostics : list BuildDiagnostic }.

(** What a [BuildOutputError] says, with the values its message interpolates. *)
Inductive build_failure :=
| UnknownField (subject key : jsstr)
| MissingField (subject key : jsstr)
| MustBeObject (subject : jsstr)
| MustBeArray (subject : jsstr)
| MustBeString (subject : jsstr)
| MustNotBeEmpty (subject : jsstr)
| MustBeDigest (subject : jsstr)
| MustBeNonnegative (subject : jsstr)
| MustBeRelativePath (subject : jsstr)
| MustBeExportSubpath (subject : jsstr)
| EndPrecedesStart (subject : jsstr)
| InvalidSeverity (subject : jsstr)
| UnsupportedMetadataApi (v : jsval)
| UnsupportedInputApi (v : jsval)
| UnsupportedOutputApi (v : jsval)
| DuplicateExport (subpath : jsstr)
| NoDeclaredSubpath (subpath : jsstr)
| NotADeclaredExport (subpath export_name : jsstr)
| DuplicateIndex (subpath export_name : jsstr)
| OperationsNotUnique (subject : jsstr)
| DuplicateProvider (capability version : jsstr)
| UnknownHandler (reference : jsstr)
| RepeatedHandler (reference : jsstr)
| UnusedHandler (reference : jsval)
| NotAllowedContract (capability : jsstr)
| DuplicateSourcePath (subject path : jsstr)
| SourceDigest (subject : jsstr)
| TooManyFiles (count : Z)
| DuplicateGeneratedPath (path : jsstr)
| TooManyBytes
| FingerprintDrift (expected actual : jsstr).

Inductive build_error :=
| BuildOutputError (what : build_failure) (span : SourceSpan)
| TypeError.

Abbreviation build := (result build_error).

Definition EMPTY_SPAN : SourceSpan := {| span_file := js "<build>"; span_start := 0; span_end := 0 |}.

(** ** Field checks *)

Abbreviation fields := (list (jsstr * jsval)).

Definition record (value : jsval) (subject : jsstr) (span : SourceSpan) : build fields :=
  match value with
  | JObj fs => Ok fs
  | _ => Throw (BuildOutputError (MustBeObject subject) span)
  end.

Definition array (value : jsval) (subject : jsstr) (span : SourceSpan) : build (list jsval) :=
  match value with
  | JArr l => Ok l
  | _ => Throw (BuildOutputError (MustBeArray subject) span)
  end.

Definition string_ (value : jsval) (subject : jsstr) (span : SourceSpan) : build jsstr :=
  match value with
  | JStr s => Ok s
  | _ => Throw (BuildOutputError (MustBeString subject) span)
  end.

Definition nonemptyString (value : jsval) (subject : jsstr) (span : SourceSpan) : build jsstr :=
  s ← string_ value subject span;
  ensure (negb (bool_decide (s = []))) (BuildOutputError (MustNotBeEmpty subject) span);;
  mret s.

Definition is_hex (c : N) : bool := (48 <=? c)%N && (c <=? 57)%N || (97 <=? c)%N && (c <=? 102)%N.

(** [/^sha256:[0-9a-f]{64}$/u] *)
Definition is_sha256 (s : jsstr) : bool :=
  starts_with (js "sha256:") s && (length s =? 71)%nat && forallb is_hex (drop 7 s).

Definition canonicalDigest (value : jsval) (subject : jsstr) (span : SourceSpan) : build jsstr :=
  s ← nonemptyString value subject span;
  ensure (is_sha256 s) (BuildOutputError (MustBeDigest subject) span);;
  mret s.

Definition nonnegativeInteger (value : jsval) (subject : jsstr) (span : SourceSpan) : build Z :=
  match value with
  | JNum x =>
      match safe_int x with
      | Some z => if (z <? 0)%Z then Throw (BuildOutputError (MustBeNonnegative subject) span) else Ok z
      | None => Throw (BuildOutputError (MustBeNonnegative subject) span)
      end
  | _ => Throw (BuildOutputError (MustBeNonnegative subject) span)
  end.

Definition exactKeys (value : fields) (expected : list jsstr) (subject : jsstr) (span : SourceSpan)
  : build unit :=
  match List.find (fun key => negb (mem key expected)) (keys value) with
  | Some key => Throw (BuildOutputError (UnknownField subject key) span)
  | None =>
      match List.find (fun key => negb (mem key (keys value))) expected with
      | Some key => Throw (BuildOutputError (MissingField subject key) span)
      | None => Ok tt
      end
  end.

Definition is_alpha (c : N) : bool := (65 <=? c)%N && (c <=? 90)%N || (97 <=? c)%N && (c <=? 122)%N.
Definition is_alnum (c : N) : bool := is_alpha c || (48 <=? c)%N && (c <=? 57)%N.

(** The separators of [split(/[\\/]/u)]. *)
Definition is_sep (c : N) : bool := (c =? 92)%N || (c =? 47)%N.

(** [/^[A-Za-z]:[\\/]/u] *)
Definition has_drive (s : jsstr) : bool :=
  match s with a :: c :: d :: _ => is_alpha a && (c =? 58)%N && is_sep d | _ => false end.

Definition bad_part (part : jsstr) : bool :=
  bool_decide (part = js "..") || bool_decide (part = []).

Definition safeRelativePath (raw : jsval) (subject : jsstr) (span : SourceSpan) : build jsstr :=
  path ← nonemptyString raw subject span;
  refuse (starts_with (js "/") path || starts_with (js "\") path || has_drive path
          || existsb bad_part (split_on is_sep path))
    (BuildOutputError (MustBeRelativePath subject) span);;
  mret (replace_unit 92 47 path).

(** [/^\.\/[A-Za-z0-9][A-Za-z0-9._/-]*$/u] *)
Definition is_export_path (s : jsstr) : bool :=
  match s with
  | a :: b :: c :: rest =>
      (a =? 46)%N && (b =? 47)%N && is_alnum c &&
      forallb (fun d => is_alnum d || (d =? 46)%N || (d =? 95)%N || (d =? 47)%N || (d =? 45)%N) rest
  | _ => false
  end.

Definition packageExport (raw : jsval) (subject : jsstr) (span : SourceSpan) (allowRoot : bool)
  : build jsstr :=
  value ← nonemptyString raw subject span;
  ensure ((allowRoot && bool_decide (value = js ".") || is_export_path value)
          && negb (existsb bad_part (split_on (fun c => (c =? 47)%N) value)))
    (BuildOutputError (MustBeExportSubpath subject) span);;
  mret value.

Definition validateSpan (raw : jsval) (subject : jsstr) (fallbackSpan : SourceSpan) : build SourceSpan :=
  span ← record raw subject fallbackSpan;
  exactKeys span [js "file"; js "start"; js "end"] subject fallbackSpan;;
  file ← nonemptyString (field span "file") (subject ++ js ".file") fallbackSpan;
  start ← nonnegativeInteger (field span "start") (subject ++ js ".start") fallbackSpan;
  end_ ← nonnegativeInteger (field span "end") (subject ++ js ".end") fallbackSpan;
  refuse (end_ <? start)%Z (BuildOutputError (EndPrecedesStart subject) fallbackSpan);;
  mret {| span_file := file; span_start := start; span_end := end_ |}.

(** [`${subject}[${index}]`] *)
Definition at_index (subject : jsstr) (index : nat) : jsstr :=
  subject ++ js "[" ++ dec (Z.of_nat index) ++ js "]".

Definition validateDiagnostic (raw : jsval) (index : nat) (fallbackSpan : SourceSpan)
  : build BuildDiagnostic :=
  let subject := at_index (js "diagnostics") index in
  diagnostic ← record raw subject fallbackSpan;
  exactKeys diagnostic [js "severity"; js "message"; js "span"] subject fallbackSpan;;
  severity ← (if is_str (field diagnostic "severity") "error" then Ok SevError
              else if is_str (field diagnostic "severity") "warning" then Ok SevWarning
              else Throw (BuildOutputError (InvalidSeverity subject) fallbackSpan));
  message ← nonemptyString (field diagnostic "message") (subject ++ js ".message") fallbackSpan;
  span ← validateSpan (field diagnostic "span") (subject ++ js ".span") fallbackSpan;
  mret {| bd_severity := severity; bd_message := message; bd_span := span |}.

(** ** The lowering output *)

Definition validateProvider (raw : jsval) (index : nat) (span : SourceSpan) : build LoweredProvider :=
  let subject := at_index (js "providers") index in
  provider ← record raw subject span;
  exactKeys provider
    [js "capability_id"; js "descriptor_version"; js "descriptor_digest"; js "binder";
     js "handler_references"] subject span;;
  binder ← record (field provider "binder") (subject ++ js ".binder") span;
  exactKeys binder [js "module"; js "export_name"] (subject ++ js ".binder") span;;
  capability_id ← nonemptyString (field provider "capability_id") (subject ++ js ".capability_id") span;
  descriptor_version ←
    nonemptyString (field provider "descriptor_version") (subject ++ js ".descriptor_version") span;
  descriptor_digest ←
    canonicalDigest (field provider "descriptor_digest") (subject ++ js ".descriptor_digest") span;
  module ← safeRelativePath (field binder "module") (subject ++ js ".binder.module") span;
  export_name ← nonemptyString (field binder "export_name") (subject ++ js ".binder.export_name") span;
  references ← array (field provider "handler_references") (subject ++ js ".handler_references") span;
  handler_references ←
    mapi_res (fun value handlerIndex =>
      nonemptyString value (at_index (subject ++ js ".handler_references") handlerIndex) span)
      0 references;
  mret {| lp_capability_id := capability_id; lp_descriptor_version := descriptor_version;
          lp_descriptor_digest := descriptor_digest;
          lp_binder := {| gs_module := module; gs_export_name := export_name |};
          lp_handler_references := handler_references |}.

(** The loop of [validateFiles] over the remaining values, with the paths seen
    and the bytes counted so far. *)
Fixpoint validateFiles_from (values : list jsval) (index : nat) (paths : list jsstr) (totalBytes : Z)
    (span : SourceSpan) : build (list GeneratedFile) :=
  match values with
  | [] => mret []
  | value :: values =>
      let subject := at_index (js "files") index in
      file ← record value subject span;
      exactKeys file [js "path"; js "contents"] subject span;;
      path ← safeRelativePath (field file "path") (subject ++ js ".path") span;
      refuse (mem path paths) (BuildOutputError (DuplicateGeneratedPath path) span);;
      contents ← string_ (field file "contents") (subject ++ js ".contents") span;
      let totalBytes := (totalBytes + byteLength contents)%Z in
      refuse (MAX_GENERATED_BYTES <? totalBytes)%Z (BuildOutputError TooManyBytes span);;
      rest ← validateFiles_from values (S index) (path :: paths) totalBytes span;
      mret ({| gf_path := path; gf_contents := contents |} :: rest)
  end.

Definition validateFiles (raw : jsval) (span : SourceSpan) : build (list GeneratedFile) :=
  values ← array raw (js "files") span;
  refuse (MAX_GENERATED_FILES <? Z.of_nat (length values))%Z
    (BuildOutputError (TooManyFiles (Z.of_nat (length values))) span);;
  validateFiles_from values 0 [] 0 span.

(** A JavaScript [Set] in insertion order. *)
Definition set_add {A} `{EqDecision A} (x : A) (s : list A) : list A :=
  if decide (x ∈ s) then s else s ++ [x].

(** How a value is visited: as a [BuildArgument] ([collectHandlerReferences]), as
    a [BuildValue] ([collectHandlerValue]), or as whichever its keys say
    ([collectHandlerArgument]). *)
Inductive visit := AsArgument | AsValue | AsEither.

(** [typeof value === "object" && value !== null && "kind" in value && "span" in value] *)
Definition looks_like_argument (v : jsval) : bool :=
  match v with
  | JObj fs => mem (js "kind") (keys fs) && mem (js "span") (keys fs)
  | _ => false
  end.

Definition as_argument (m : visit) (v : jsval) : bool :=
  match m with AsArgument => true | AsValue => false | AsEither => looks_like_argument v end.

(** The three mutually recursive collectors.  The inner loops are the [for]
    loops over arguments, array items and object values. *)
Fixpoint collectHandlers (m : visit) (v : jsval) (references : list jsval) : build (list jsval) :=
  let each (m : visit) := fix each (l : list jsval) (refs : list jsval) : build (list jsval) :=
    match l with
    | [] => Ok refs
    | x :: l => refs' ← collectHandlers m x refs; each l refs'
    end in
  if as_argument m v then
    match v with
    | JObj fs =>
        let kind := field fs "kind" in
        let refs := if is_str kind "handler" then set_add (field fs "reference") references
                    else references in
        refs ← (if is_str kind "declaration" then
                  (fix arguments (fs : fields) : build (list jsval) :=
                     match fs with
                     | [] => Throw TypeError
                     | (k, x) :: fs =>
                         if decide (js "arguments" = k) then
                           match x with
                           | JArr l => each AsArgument l refs
                           | JStr _ => Ok refs
                           | _ => Throw TypeError
                           end
                         else arguments fs
                     end) fs
                else Ok refs);
        if is_str kind "value" then
          (fix value (fs : fields) : build (list jsval) :=
             match fs with
             | [] => Ok refs
             | (k, x) :: fs => if decide (js "value" = k) then collectHandlers AsValue x refs else value fs
             end) fs
        else Ok refs
    | JUndef | JNull => Throw TypeError
    | _ => Ok references
    end
  else
    match v with
    | JArr l => each AsEither l references
    | JObj fs =>
        (fix values (fs : fields) (refs : list jsval) : build (list jsval) :=
           match fs with
           | [] => Ok refs
           | (_, x) :: fs => refs' ← collectHandlers AsEither x refs; values fs refs'
           end) fs references
    | _ => Ok references
    end.

Definition collectHandlerReferences (arguments_ : list jsval) : build (list jsval) :=
  foldM_res (fun refs argument => collectHandlers AsArgument argument refs) [] arguments_.

Definition NUL : jsstr := [0%N].

Definition provider_identity (p : LoweredProvider) : jsstr :=
  lp_capability_id p ++ NUL ++ lp_descriptor_version p.

(** One pass of the duplicate-provider loop. *)
Definition check_provider_id (span : SourceSpan) (providerIds : list jsstr) (p : LoweredProvider)
  : build (list jsstr) :=
  refuse (mem (provider_identity p) providerIds)
    (BuildOutputError (DuplicateProvider (lp_capability_id p) (lp_descriptor_version p)) span);;
  mret (provider_identity p :: providerIds).

(** One reference of one provider, against the expected and the used handlers. *)
Definition check_reference (span : SourceSpan) (expectedHandlers : list jsval)
    (usedHandlers : list jsstr) (reference : jsstr) : build (list jsstr) :=
  ensure (bool_decide (JStr reference ∈ expectedHandlers))
    (BuildOutputError (UnknownHandler reference) span);;
  refuse (mem reference usedHandlers) (BuildOutputError (RepeatedHandler reference) span);;
  mret (reference :: usedHandlers).

(** [!usedHandlers.has(reference)]: the used references are strings. *)
Definition is_unused (usedHandlers : list jsstr) (reference : jsval) : bool :=
  match reference with JStr r => negb (mem r usedHandlers) | _ => true end.

Definition validateLoweringOutput (raw : jsval) (input : LoweringInput) : build LoweringOutput :=
  let span := in_span input in
  output ← record raw (js "lowering output") span;
  exactKeys output [js "api_version"; js "providers"; js "files"; js "diagnostics"]
    (js "lowering output") span;;
  ensure (is_num (field output "api_version") BUILD_API_VERSION)
    (BuildOutputError (UnsupportedOutputApi (field output "api_version")) span);;
  rawProviders ← array (field output "providers") (js "providers") span;
  providers ← mapi_res (fun value index => validateProvider value index span) 0 rawProviders;
  files ← validateFiles (field output "files") span;
  rawDiagnostics ← array (field output "diagnostics") (js "diagnostics") span;
  diagnostics ← mapi_res (fun value index => validateDiagnostic value index span) 0 rawDiagnostics;
  foldM_res (check_provider_id span) [] providers;;
  expectedHandlers ← collectHandlerReferences (in_arguments input);
  usedHandlers ← foldM_res (fun used p =>
    foldM_res (check_reference span expectedHandlers) used (lp_handler_references p)) [] providers;
  match List.find (is_unused usedHandlers) expectedHandlers with
  | Some reference => Throw (BuildOutputError (UnusedHandler reference) span)
  | None => mret {| lo_providers := providers; lo_files := files; lo_diagnostics := diagnostics |}
  end.

(** ** Exact contracts *)

Definition contract_identity (capability version digest : jsstr) : jsstr :=
  capability ++ NUL ++ version ++ NUL ++ digest.

Definition allowed_identity (span : SourceSpan) (p : AllowedProvider) (_ : nat) : build jsstr :=
  capability ← nonemptyString (JStr (ap_capability_id p)) (js "allowed provider capability_id") span;
  version ← nonemptyString (JStr (ap_descriptor_version p)) (js "allowed provider descriptor_version") span;
  digest ← canonicalDigest (JStr (ap_descriptor_digest p)) (js "allowed provider descriptor_digest") span;
  mret (contract_identity capability version digest).

Definition validateAllowedProviders (providers : list LoweredProvider) (allowed : list AllowedProvider)
    (span : SourceSpan) : build unit :=
  identities ← mapi_res (allowed_identity span) 0 allowed;
  match List.find (fun p => negb (mem (contract_identity (lp_capability_id p) (lp_descriptor_version p)
                                         (lp_descriptor_digest p)) identities)) providers with
  | Some p => Throw (BuildOutputError (NotAllowedContract (lp_capability_id p)) span)
  | None => Ok tt
  end.

(** [lower] is the product's own lowering: any function of the input. *)
Definition runLowering (lower : LoweringInput → build jsval) (input : LoweringInput)
    (allowedProviders : list AllowedProvider) : build LoweringOutput :=
  ensure (is_num (in_api_version input) BUILD_API_VERSION)
    (BuildOutputError (UnsupportedInputApi (in_api_version input)) (in_span input));;
  raw ← lower input;
  output ← validateLoweringOutput raw input;
  validateAllowedProviders (lo_providers output) allowedProviders (in_span input);;
  mret output.

(** ** Package metadata *)

(** Own property names of [Object.prototype], which a lookup on an object literal
    falls back to. *)
Definition prototype_names : list jsstr :=
  map js ["constructor"; "__defineGetter__"; "__defineSetter__"; "hasOwnProperty";
          "__lookupGetter__"; "__lookupSetter__"; "isPrototypeOf"; "propertyIsEnumerable";
          "toString"; "valueOf"; "__proto__"; "toLocaleString"].

(** [object[k] = v] on an object literal; the [__proto__] setter leaves the own
    properties alone. *)
Definition obj_assign {V} (k : jsstr) (v : V) (fs : list (jsstr * V)) : list (jsstr * V) :=
  if decide (k = js "__proto__") then fs else obj_put k v fs.

Definition has_duplicate {A} `{EqDecision A} (l : list A) : bool := negb (bool_decide (NoDup l)).

Definition declarations_subject (subpath : jsstr) : jsstr := js "declarations." ++ subpath.

Definition declaration_entry (span : SourceSpan) (declarations : list (jsstr * list jsstr))
    (entry : jsstr * jsval) : build (list (jsstr * list jsstr)) :=
  let '(subpath, rawNames) := entry in
  packageExport (JStr subpath) (js "declaration subpath") span true;;
  values ← array rawNames (declarations_subject subpath) span;
  names ← mapi_res (fun name index =>
    nonemptyString name (at_index (declarations_subject subpath) index) span) 0 values;
  refuse (has_duplicate names) (BuildOutputError (DuplicateExport subpath) span);;
  mret (obj_assign subpath names declarations).

Definition parameters_subject (subpath : jsstr) : jsstr := js "handler_parameters." ++ subpath.

(** One export of one subpath.  [declared] is [None] when the lookup of the
    subpath found a member of [Object.prototype], which has no [includes]. *)
Definition handler_export (span : SourceSpan) (subpath : jsstr) (declared : option (list jsstr))
    (normalized : list (jsstr * list Z)) (entry : jsstr * jsval) : build (list (jsstr * list Z)) :=
  let '(exportName, rawIndexes) := entry in
  match declared with
  | None => Throw TypeError
  | Some names =>
      ensure (mem exportName names) (BuildOutputError (NotADeclaredExport subpath exportName) span);;
      let subject := parameters_subject subpath ++ js "." ++ exportName in
      values ← array rawIndexes subject span;
      indexes ← mapi_res (fun value index =>
        nonnegativeInteger value (at_index subject index) span) 0 values;
      refuse (has_duplicate indexes) (BuildOutputError (DuplicateIndex subpath exportName) span);;
      mret (obj_assign exportName indexes normalized)
  end.

Definition handler_entry (span : SourceSpan) (declarations : list (jsstr * list jsstr))
    (handlerParameters : list (jsstr * list (jsstr * list Z))) (entry : jsstr * jsval)
  : build (list (jsstr * list (jsstr * list Z))) :=
  let '(subpath, rawExports) := entry in
  declared ← (match assoc subpath declarations with
              | Some names => Ok (Some names)
              | None =>
                  if mem subpath prototype_names then Ok None
                  else Throw (BuildOutputError (NoDeclaredSubpath subpath) span)
              end);
  exports ← record rawExports (parameters_subject subpath) span;
  normalized ← foldM_res (handler_export span subpath declared) [] exports;
  mret (obj_assign subpath normalized handlerParameters).

Definition provider_contract (span : SourceSpan) (rawContract : jsval) (index : nat)
  : build BuildProviderContract :=
  let subject := at_index (js "provider_contracts") index in
  contract ← record rawContract subject span;
  exactKeys contract
    [js "capability_id"; js "descriptor_version"; js "descriptor_digest"; js "request_operations"]
    subject span;;
  values ← array (field contract "request_operations") (subject ++ js ".request_operations") span;
  operations ← mapi_res (fun operation operationIndex =>
    nonemptyString operation (at_index (subject ++ js ".request_operations") operationIndex) span)
    0 values;
  refuse (bool_decide (operations = []) || has_duplicate operations)
    (BuildOutputError (OperationsNotUnique subject) span);;
  capability_id ← nonemptyString (field contract "capability_id") (subject ++ js ".capability_id") span;
  descriptor_version ←
    nonemptyString (field contract "descriptor_version") (subject ++ js ".descriptor_version") span;
  descriptor_digest ←
    canonicalDigest (field contract "descriptor_digest") (subject ++ js ".descriptor_digest") span;
  mret {| bpc_provider := {| ap_capability_id := capability_id;
                             ap_descriptor_version := descriptor_version;
                             ap_descriptor_digest := descriptor_digest |};
          bpc_request_operations := operations |}.

Definition metadata_keys : list jsstr :=
  [js "api_version"; js "export"; js "declarations"; js "handler_parameters"; js "provider_contracts"].

Definition validateBuildPackageMetadata (raw : jsval) : build BuildPackageMetadata :=
  let span := EMPTY_SPAN in
  metadata ← record raw (js "lenso.build") span;
  match List.find (fun key => negb (mem key metadata_keys)) (keys metadata) with
  | Some unknown => Throw (BuildOutputError (UnknownField (js "lenso.build") unknown) span)
  | None =>
  match List.find (fun required => negb (mem required (keys metadata)))
          [js "api_version"; js "export"; js "declarations"; js "provider_contracts"] with
  | Some required => Throw (BuildOutputError (MissingField (js "lenso.build") required) span)
  | None =>
      ensure (is_num (field metadata "api_version") BUILD_API_VERSION)
        (BuildOutputError (UnsupportedMetadataApi (field metadata "api_version")) span);;
      buildExport ← packageExport (field metadata "export") (js "lenso.build.export") span false;
      declarationsRecord ← record (field metadata "declarations") (js "lenso.build.declarations") span;
      declarations ← foldM_res (declaration_entry span) [] declarationsRecord;
      handlerParameters ←
        (match field metadata "handler_parameters" with
         | JUndef => Ok None
         | rawParameters =>
             subpaths ← record rawParameters (js "lenso.build.handler_parameters") span;
             Some <$> foldM_res (handler_entry span declarations) [] subpaths
         end);
      rawContracts ← array (field metadata "provider_contracts") (js "lenso.build.provider_contracts") span;
      providerContracts ← mapi_res (provider_contract span) 0 rawContracts;
      mret {| bpm_export := buildExport; bpm_declarations := declarations;
              bpm_handler_parameters := handlerParameters;
              bpm_provider_contracts := providerContracts |}
  end end.

(** ** Build fingerprint *)

Record FileDigest := { fd_path : jsstr; fd_sha256 : jsstr }.

Record BuildFingerprintInput := {
  fi_sourceClosure : list FileDigest;
  fi_contractArtifacts : list FileDigest;
  fi_lockedPackages : list BuildPackageIdentity;
  fi_target : jsstr }.

(** [array.sort(cmp)]: stable, by insertion. *)
Fixpoint sort_insert {A} (cmp : A → A → Z) (x : A) (l : list A) : list A :=
  match l with
  | [] => [x]
  | y :: l' => if (cmp x y <=? 0)%Z then x :: l else y :: sort_insert cmp x l'
  end.

Definition sort_by {A} (cmp : A → A → Z) (l : list A) : list A := foldr (sort_insert cmp) [] l.

Section fingerprint.
(** [String.prototype.localeCompare] of the running locale, and the hexadecimal
    SHA-256 of a string. *)
Variable localeCompare : jsstr → jsstr → Z.
Variable sha256_hex : jsstr → jsstr.

Fixpoint canonical_entries (files : list FileDigest) (seen : list jsstr) (subject : jsstr)
  : build (list FileDigest) :=
  match files with
  | [] => mret []
  | file :: files =>
      path ← safeRelativePath (JStr (fd_path file)) (subject ++ js " path") EMPTY_SPAN;
      refuse (mem path seen) (BuildOutputError (DuplicateSourcePath subject path) EMPTY_SPAN);;
      ensure (is_sha256 (fd_sha256 file)) (BuildOutputError (SourceDigest subject) EMPTY_SPAN);;
      rest ← canonical_entries files (path :: seen) subject;
      mret ({| fd_path := path; fd_sha256 := fd_sha256 file |} :: rest)
  end.

Definition canonicalFiles (files : list FileDigest) (subject : jsstr) : build (list FileDigest) :=
  entries ← canonical_entries files [] subject;
  mret (sort_by (fun left right => localeCompare (fd_path left) (fd_path right)) entries).

Definition package_key (p : BuildPackageIdentity) : jsstr :=
  pkg_name p ++ NUL ++ pkg_version p ++ NUL ++ pkg_integrity p.

Definition locked_package (p : BuildPackageIdentity) (_ : nat) : build BuildPackageIdentity :=
  name ← nonemptyString (JStr (pkg_name p)) (js "locked package name") EMPTY_SPAN;
  version ← nonemptyString (JStr (pkg_version p)) (js "locked package version") EMPTY_SPAN;
  integrity ← nonemptyString (JStr (pkg_integrity p)) (js "locked package integrity") EMPTY_SPAN;
  mret {| pkg_name := name; pkg_version := version; pkg_integrity := integrity |}.

Definition file_json (f : FileDigest) : jsval :=
  JObj [(js "path", JStr (fd_path f)); (js "sha256", JStr (fd_sha256 f))].

Definition package_json (p : BuildPackageIdentity) : jsval :=
  JObj [(js "name", JStr (pkg_name p)); (js "version", JStr (pkg_version p));
        (js "integrity", JStr (pkg_integrity p))].

Definition fingerprintBuildInputs (input : BuildFingerprintInput) : build jsstr :=
  source_closure ← canonicalFiles (fi_sourceClosure input) (js "sourceClosure");
  contract_artifacts ← canonicalFiles (fi_contractArtifacts input) (js "contractArtifacts");
  packages ← mapi_res locked_package 0 (fi_lockedPackages input);
  target ← nonemptyString (JStr (fi_target input)) (js "build target") EMPTY_SPAN;
  let locked_packages := sort_by (fun l r => localeCompare (package_key l) (package_key r)) packages in
  let canonical := JObj [
    (js "source_closure", JArr (map file_json source_closure));
    (js "contract_artifacts", JArr (map file_json contract_artifacts));
    (js "locked_packages", JArr (map package_json locked_packages));
    (js "target", JStr target)] in
  mret (js "sha256:" ++ sha256_hex (json_text canonical)).

Definition verifyBuildFingerprint (expected : jsstr) (input : BuildFingerprintInput) : build unit :=
  actual ← fingerprintBuildInputs input;
  ensure (bool_decide (actual = expected))
    (BuildOutputError (FingerprintDrift expected actual) EMPTY_SPAN).
End fingerprint.
