(* ===== verification/BuildCorrect.v ===== *)
(** * Correctness of the build boundary

    What the validators of [Build] accept, what they reject, and the properties
    of accepted metadata, lowering outputs and fingerprints. *)

From Stdlib Require Import ZArith.
From S2P Require Import Prelude JsValue Text Json Build.

(** ** The field checks *)

Create Rewrite HintDb build.

Lemma record_Ok v subject span fs : record v subject span = Ok fs ↔ v = JObj fs.
Proof. destruct v; cbn; split; congruence. Qed.

Lemma array_Ok v subject span l : array v subject span = Ok l ↔ v = JArr l.
Proof. destruct v; cbn; split; congruence. Qed.

Lemma string_Ok v subject span s : string_ v subject span = Ok s ↔ v = JStr s.
Proof. destruct v; cbn; split; congruence. Qed.

Lemma nonemptyString_Ok v subject span s :
  nonemptyString v subject span = Ok s ↔ v = JStr s ∧ s ≠ [].
Proof.
  destruct v as [| | | |t| | |]; cbn; try (split; [done|by intros [[=] _]]).
  destruct t as [|c t]; cbn; split.
  - done.
  - intros [[= <-] H]. congruence.
  - by intros [= <-].
  - by intros [[= <-] _].
Qed.

Lemma nonemptyString_JStr s subject span : s ≠ [] → nonemptyString (JStr s) subject span = Ok s.
Proof. intros H. by apply nonemptyString_Ok. Qed.

Lemma canonicalDigest_Ok v subject span s :
  canonicalDigest v subject span = Ok s ↔ v = JStr s ∧ is_sha256 s = true.
Proof.
  unfold canonicalDigest. split.
  - intros H. result_inv. subst. apply nonemptyString_Ok in H as [-> ?]. split; [done|assumption].
  - intros [-> H]. rewrite nonemptyString_JStr by (by destruct s).
    cbn. by rewrite H.
Qed.

Lemma nonnegativeInteger_Ok v subject span z :
  nonnegativeInteger v subject span = Ok z ↔ ∃ x, v = JNum x ∧ safe_int x = Some z ∧ (0 ≤ z)%Z.
Proof.
  destruct v as [| | |x| | | |]; cbn; try by (split; [done|by intros (? & [=] & _)]).
  destruct (safe_int x) as [w|] eqn:E; [|split; [done|intros (? & [= <-] & ? & _); congruence]].
  destruct (Z.ltb_spec w 0); (split; [|intros (? & [= <-] & Hz & ?); simplify_eq; try lia; done]); [done|].
  intros [= <-]. eauto.
Qed.

Lemma find_None_forall {A} (f : A → bool) l :
  List.find f l = None ↔ ∀ x, x ∈ l → f x = false.
Proof.
  induction l as [|y l IH]; cbn; [set_solver|]. destruct (f y) eqn:E.
  - split; [done|]. intros H. specialize (H y ltac:(set_solver)). congruence.
  - rewrite IH. split; [|set_solver]. intros H x [->|?]%elem_of_cons; auto.
Qed.

Lemma exactKeys_Ok fs expected subject span u :
  exactKeys fs expected subject span = Ok u ↔ ∀ k, k ∈ keys fs ↔ k ∈ expected.
Proof.
  unfold exactKeys. destruct u.
  destruct (List.find _ (keys fs)) as [k|] eqn:E1; [|destruct (List.find _ expected) as [k|] eqn:E2].
  - split; [done|]. intros H. apply List.find_some in E1 as [Hin%list_elem_of_In Hk].
    apply negb_true_iff, mem_false in Hk. by apply H in Hin.
  - split; [done|]. intros H. apply List.find_some in E2 as [Hin%list_elem_of_In Hk].
    apply negb_true_iff, mem_false in Hk. by apply H in Hin.
  - rewrite find_None_forall in E1, E2. setoid_rewrite negb_false_iff in E1.
    setoid_rewrite negb_false_iff in E2. setoid_rewrite mem_true in E1. setoid_rewrite mem_true in E2.
    split; [|done]. split; auto.
Qed.

#[export] Hint Rewrite record_Ok array_Ok string_Ok nonemptyString_Ok canonicalDigest_Ok
  nonnegativeInteger_Ok exactKeys_Ok mem_true mem_false @bool_decide_eq_true @bool_decide_eq_false
  orb_false_iff andb_true_iff negb_true_iff negb_false_iff : build.

Ltac build_inv :=
  repeat (progress (result_inv; autorewrite with build in *; destruct_and?; subst)).

(** ** Relative paths *)

Section split.
Variable sep : N → bool.

Lemma split_on_parts s part : part ∈ split_on sep s → Forall (fun c => sep c = false) part.
Proof.
  revert part. induction s as [|c s IH]; intros part; cbn.
  - intros ->%list_elem_of_singleton. constructor.
  - destruct (sep c) eqn:E; [intros [->|?]%elem_of_cons; [constructor|auto]|].
    destruct (split_on sep s) as [|p ps] eqn:Es; [by destruct (split_on_nonempty sep s)|].
    intros [->|?]%elem_of_cons; [|set_solver]. constructor; [done|]. apply IH. set_solver.
Qed.
End split.

(** A path whose segments name files below the directory it is joined to: no
    root, no drive, no backslash, no empty and no [..] segment. *)
Definition safe_path (p : jsstr) : Prop :=
  p ≠ [] ∧ starts_with (js "/") p = false ∧ has_drive p = false ∧ (92%N ∉ p) ∧
  Forall (fun part => part ≠ js ".." ∧ part ≠ []) (split_on (fun c => (c =? 47)%N) p).

Definition slash (x : N) : N := if (x =? 92)%N then 47%N else x.

Lemma replace_unit_slash s : replace_unit 92 47 s = map slash s.
Proof. done. Qed.

Lemma slash_split s :
  split_on (fun c => (c =? 47)%N) (map slash s) = split_on is_sep s.
Proof.
  rewrite (split_on_map slash is_sep)
    by (intros c; unfold slash, is_sep; destruct (c =? 92)%N eqn:E; by rewrite ?E).
  rewrite <- (map_id (split_on is_sep s)) at 2. apply map_ext_in. intros part Hin%list_elem_of_In.
  apply split_on_parts in Hin. induction Hin as [|c part Hc _ IH]; cbn; [done|]. rewrite IH. f_equal.
  unfold is_sep in Hc. apply orb_false_iff in Hc as [Hc _]. unfold slash. by rewrite Hc.
Qed.

Lemma slash_id s : 92%N ∉ s → map slash s = s.
Proof.
  induction s as [|c s IH]; cbn; [done|]. intros H. rewrite IH by set_solver. f_equal.
  unfold slash. destruct (N.eqb_spec c 92); set_solver.
Qed.

Lemma is_sep_no_backslash s : 92%N ∉ s → split_on is_sep s = split_on (fun c => (c =? 47)%N) s.
Proof. intros H. by rewrite <- slash_split, slash_id. Qed.

Lemma bad_parts_Forall l :
  existsb bad_part l = false ↔ Forall (fun part => part ≠ js ".." ∧ part ≠ []) l.
Proof.
  unfold bad_part. induction l as [|p l IH]; cbn [existsb]; [by split|].
  by rewrite !orb_false_iff, !bool_decide_eq_false, IH, Forall_cons.
Qed.

Lemma slash_safe s :
  s ≠ [] → starts_with (js "/") s = false → starts_with (js "\") s = false → has_drive s = false →
  existsb bad_part (split_on is_sep s) = false → safe_path (map slash s).
Proof.
  intros Hne H1 H2 H3 H4. unfold safe_path. rewrite slash_split. apply bad_parts_Forall in H4.
  destruct s as [|c s]; [done|]. split; [done|].
  change ((47 =? c)%N && true = false) in H1. change ((92 =? c)%N && true = false) in H2.
  rewrite andb_true_r, N.eqb_neq in H1, H2.
  assert (slash c = c) as Hc by (unfold slash; destruct (N.eqb_spec c 92); congruence).
  split_and!; [| | |done].
  - change ((47 =? slash c)%N && true = false). rewrite Hc, andb_true_r. by apply N.eqb_neq.
  - destruct s as [|d [|e s]]; [done|done|]. unfold has_drive in *. cbn [map]. rewrite Hc. unfold slash at 1.
    destruct (N.eqb_spec d 92) as [->|]; [by rewrite andb_false_r|].
    replace (is_sep (slash e)) with (is_sep e); [done|].
    unfold slash, is_sep. destruct (e =? 92)%N eqn:E; by rewrite ?E.
  - intros Hin. apply list_elem_of_fmap in Hin as (x & Hx & _). unfold slash in Hx.
    destruct (N.eqb_spec x 92); [done|congruence].
Qed.

Lemma safeRelativePath_safe raw subject span p :
  safeRelativePath raw subject span = Ok p → safe_path p.
Proof.
  unfold safeRelativePath. intros H. build_inv. rewrite replace_unit_slash. by apply slash_safe.
Qed.

Lemma safeRelativePath_id p subject span :
  safe_path p → safeRelativePath (JStr p) subject span = Ok p.
Proof.
  intros (Hne & H1 & H2 & H3 & H4). unfold safeRelativePath.
  rewrite nonemptyString_JStr by done. cbn [mbind result_bind].
  rewrite (is_sep_no_backslash p H3), (proj2 (bad_parts_Forall _) H4), H1, H2.
  replace (starts_with (js "\") p) with false; cbn.
  - f_equal. rewrite replace_unit_slash. by apply slash_id.
  - destruct p as [|c p]; [done|]. cbn. destruct (N.eqb_spec 92 c); [set_solver|done].
Qed.

(** ** Handler references *)

(** [handler_at m v r]: visiting [v] as [m] meets a handler argument whose
    reference is [r].  Handlers are looked for in the arguments of nested
    declarations, in literal values, and in whatever a literal contains. *)
Inductive handler_at : visit → jsval → jsval → Prop :=
| at_handler m fs :
    as_argument m (JObj fs) = true → is_str (field fs "kind") "handler" = true →
    handler_at m (JObj fs) (field fs "reference")
| at_declaration m fs args x r :
    as_argument m (JObj fs) = true → is_str (field fs "kind") "declaration" = true →
    assoc (js "arguments") fs = Some (JArr args) → x ∈ args → handler_at AsArgument x r →
    handler_at m (JObj fs) r
| at_value m fs x r :
    as_argument m (JObj fs) = true → is_str (field fs "kind") "value" = true →
    assoc (js "value") fs = Some x → handler_at AsValue x r → handler_at m (JObj fs) r
| at_item m l x r :
    as_argument m (JArr l) = false → x ∈ l → handler_at AsEither x r → handler_at m (JArr l) r
| at_property m fs k x r :
    as_argument m (JObj fs) = false → (k, x) ∈ fs → handler_at AsEither x r → handler_at m (JObj fs) r.

Lemma set_add_elem {A} `{EqDecision A} (x y : A) s : y ∈ set_add x s ↔ y ∈ s ∨ y = x.
Proof. unfold set_add. case_decide; set_solver. Qed.

(** What one visited value adds to the references. *)
Definition adds (f : list jsval → build (list jsval)) (P : jsval → Prop) : Prop :=
  ∀ refs refs', f refs = Ok refs' → ∀ r, r ∈ refs' ↔ r ∈ refs ∨ P r.

Lemma adds_foldM (f : jsval → list jsval → build (list jsval)) (P : jsval → jsval → Prop) l :
  (∀ x, x ∈ l → adds (f x) (P x)) →
  adds (fun refs => foldM_res (fun refs x => f x refs) refs l) (fun r => ∃ x, x ∈ l ∧ P x r).
Proof.
  intros Hl. induction l as [|x l IH]; intros refs refs'; cbn.
  - intros [= <-] r. set_solver.
  - intros (refs1 & H1 & H2)%bind_Ok r.
    rewrite (IH ltac:(set_solver) _ _ H2 r), (Hl x ltac:(set_solver) _ _ H1 r). set_solver.
Qed.

Section collect_equations.
Implicit Types (refs : list jsval).

(** The [for] loop over a list of visited values, as [foldM_res]. *)
Let each (m : visit) (l : list jsval) refs :=
  foldM_res (fun refs x => collectHandlers m x refs) refs l.

Let loop (m : visit) :=
  fix each (l : list jsval) (refs : list jsval) : build (list jsval) :=
    match l with
    | [] => Ok refs
    | x :: l => refs' ← collectHandlers m x refs; each l refs'
    end.

Lemma collect_each m l refs : loop m l refs = each m l refs.
Proof.
  unfold each. revert refs. induction l as [|x l IH]; intros refs; [done|].
  change (collectHandlers m x refs ≫= loop m l =
          collectHandlers m x refs ≫= fun s' => foldM_res (fun refs x => collectHandlers m x refs) s' l).
  destruct (collectHandlers m x refs); [apply IH|done].
Qed.

Lemma collect_array m l refs :
  as_argument m (JArr l) = false → collectHandlers m (JArr l) refs = each AsEither l refs.
Proof. intros H. cbn [collectHandlers]. rewrite H. apply collect_each. Qed.

Lemma collect_values m fs refs :
  as_argument m (JObj fs) = false →
  collectHandlers m (JObj fs) refs = each AsEither (map snd fs) refs.
Proof.
  intros H. cbn [collectHandlers]. rewrite H. unfold each. clear H. revert refs.
  induction fs as [|[k x] fs IH]; intros refs; [done|].
  cbn [map snd foldM_res]. destruct (collectHandlers AsEither x refs); cbn [mbind result_bind]; [apply IH|done].
Qed.

Lemma collect_argument m fs refs :
  as_argument m (JObj fs) = true →
  collectHandlers m (JObj fs) refs =
    let kind := field fs "kind" in
    let refs := if is_str kind "handler" then set_add (field fs "reference") refs else refs in
    refs ← (if is_str kind "declaration" then
              match assoc (js "arguments") fs with
              | Some (JArr l) => each AsArgument l refs
              | Some (JStr _) => Ok refs
              | _ => Throw TypeError
              end
            else Ok refs);
    if is_str kind "value" then
      match assoc (js "value") fs with
      | Some x => collectHandlers AsValue x refs
      | None => Ok refs
      end
    else Ok refs.
Proof.
  intros H. cbn [collectHandlers]. rewrite H. cbn zeta. clear H.
  set (refs1 := if is_str _ "handler" then _ else _).
  assert (∀ (k0 : jsstr) (dflt : build (list jsval)) (g : jsval → build (list jsval)) fs,
    (fix go (fs : fields) : build (list jsval) :=
       match fs with
       | [] => dflt
       | (k, x) :: fs => if decide (k0 = k) then g x else go fs
       end) fs = match assoc k0 fs with Some x => g x | None => dflt end) as Hassoc.
  { intros k0 dflt g fs0. induction fs0 as [|[k x] fs0 IH]; cbn; [done|]. by case_decide. }
  pose proof (fun refs2 => Hassoc (js "value") (Ok refs2)
    (fun x => collectHandlers AsValue x refs2) fs) as Hv. cbn beta in Hv.
  destruct (is_str (field fs "kind") "declaration").
  2: { cbn [mbind result_bind]. destruct (is_str (field fs "kind") "value"); [exact (Hv refs1)|done]. }
  etransitivity; [refine (f_equal (fun c => c ≫= _) (Hassoc (js "arguments") (Throw TypeError)
    (fun x => match x with JArr l => loop AsArgument l refs1 | JStr _ => Ok refs1 | _ => Throw TypeError end) fs))|].
  destruct (assoc (js "arguments") fs) as [[| | | |t|l| |]|]; try done.
  - cbn [mbind result_bind]. destruct (is_str (field fs "kind") "value"); [exact (Hv refs1)|done].
  - cbn beta iota. rewrite collect_each. destruct (each AsArgument l refs1) as [refs2|]; [|done].
    cbn [mbind result_bind]. destruct (is_str (field fs "kind") "value"); [exact (Hv refs2)|done].
Qed.
End collect_equations.

Lemma collect_argument_adds fs m :
  as_argument m (JObj fs) = true →
  (∀ l, (js "arguments", JArr l) ∈ fs → ∀ x, x ∈ l → adds (collectHandlers AsArgument x) (handler_at AsArgument x)) →
  (∀ x, (js "value", x) ∈ fs → adds (collectHandlers AsValue x) (handler_at AsValue x)) →
  adds (collectHandlers m (JObj fs)) (handler_at m (JObj fs)).
Proof.
  intros E Hargs Hval refs refs' H r.
  rewrite collect_argument in H by done. cbn zeta in H. apply bind_Ok in H as (refs2 & H2 & H3).
  set (refs1 := if is_str _ "handler" then _ else _) in H2.
  assert (r ∈ refs1 ↔ r ∈ refs ∨
    (is_str (field fs "kind") "handler" = true ∧ r = field fs "reference")) as E1.
  { unfold refs1. destruct (is_str _ "handler"); [rewrite set_add_elem|]; naive_solver. }
  assert (r ∈ refs2 ↔ r ∈ refs1 ∨ (is_str (field fs "kind") "declaration" = true ∧
    ∃ args x, assoc (js "arguments") fs = Some (JArr args) ∧ x ∈ args ∧ handler_at AsArgument x r)) as E2.
  { destruct (is_str _ "declaration"); [|simplify_eq; naive_solver].
    destruct (assoc (js "arguments") fs) as [[| | | | |args| |]|] eqn:Ea; simplify_eq; [naive_solver|].
    pose proof (adds_foldM _ (handler_at AsArgument) args
      (Hargs args (assoc_Some_in _ _ _ Ea)) _ _ H2 r) as Hadd. cbn beta in Hadd.
    rewrite Hadd. naive_solver. }
  assert (r ∈ refs' ↔ r ∈ refs2 ∨ (is_str (field fs "kind") "value" = true ∧
    ∃ x, assoc (js "value") fs = Some x ∧ handler_at AsValue x r)) as E3.
  { destruct (is_str _ "value"); [|simplify_eq; naive_solver].
    destruct (assoc (js "value") fs) as [x|] eqn:Ev; [|simplify_eq; naive_solver].
    rewrite (Hval x (assoc_Some_in _ _ _ Ev) _ _ H3 r). naive_solver. }
  rewrite E3, E2, E1. clear E1 E2 E3 H2 H3 Hargs Hval. split.
  - intros [[[?|[? ->]]|(? & ? & ? & ? & ? & ?)]|(? & ? & ? & ?)].
    + by left.
    + right. by apply at_handler.
    + right. by eapply at_declaration.
    + right. by eapply at_value.
  - intros [?|Hr]; [by left; left; left|].
    inversion Hr as [? ? _ Hk|? ? args x ? _ Hk Ha Hx Hh|? ? x ? _ Hk Ha Hh| |? ? ? ? ? Hf]; subst.
    + left. left. by right.
    + left. right. split; [done|]. by exists args, x.
    + right. split; [done|]. by exists x.
    + congruence.
Qed.

(** Each collector adds exactly the handlers reachable the way it visits. *)
Lemma collectHandlers_adds v m : adds (collectHandlers m v) (handler_at m v).
Proof.
  enough ((∀ m, adds (collectHandlers m v) (handler_at m v)) ∧
          ∀ l, v = JArr l → ∀ x m, x ∈ l → adds (collectHandlers m x) (handler_at m x)) by naive_solver.
  induction v as [| | | | |l IH|fs IH|] using jsval_nested_ind; split; try by intros ? [=].
  all: try (intros m' refs refs' H r; destruct m'; cbn in H; simplify_eq;
            (split; [by left|intros [?|Hr]; [done|by inversion Hr]])).
  - intros m' refs refs' H r. rewrite Forall_forall in IH. destruct (as_argument m' (JArr l)) eqn:E.
    + cbn in H. rewrite E in H. simplify_eq. split; [by left|].
      intros [?|Hr]; [done|inversion Hr; congruence].
    + rewrite collect_array in H by done.
      rewrite (adds_foldM _ (handler_at AsEither) l (fun x Hx => proj1 (IH x Hx) AsEither) _ _ H r).
      f_equiv. split; [intros (x & Hx & Hr); by eapply at_item|].
      intros Hr. inversion Hr as [| | |? ? x ? _ Hin Hh|]; subst. by exists x.
  - intros l' [= <-] x m' Hx. rewrite Forall_forall in IH. by apply IH.
  - intros m'. rewrite Forall_forall in IH. destruct (as_argument m' (JObj fs)) eqn:E.
    + apply collect_argument_adds; [done| |].
      * intros l Hl x Hx. by apply (proj2 (IH _ Hl) l eq_refl x).
      * intros x Hx. by apply (proj1 (IH _ Hx)).
    + intros refs refs' H r. rewrite collect_values in H by done.
      assert (∀ x, x ∈ map snd fs → adds (collectHandlers AsEither x) (handler_at AsEither x)) as Hall.
      { intros x ([k y] & -> & Hx)%list_elem_of_fmap. by apply (proj1 (IH _ Hx)). }
      rewrite (adds_foldM _ (handler_at AsEither) _ Hall _ _ H r). f_equiv. split.
      * intros (x & ([k y] & -> & Hx)%list_elem_of_fmap & Hr). by eapply at_property.
      * intros Hr. inversion Hr as [? ? Hc|? ? ? ? ? Hc|? ? ? ? Hc| |? ? k x ? _ Hin Hh]; subst; try congruence.
        exists x. split; [|done]. apply list_elem_of_fmap. by exists (k, x).
Qed.

(** The handlers a lowering has to use: those reachable from its arguments. *)
Definition input_handler (input : LoweringInput) (r : jsval) : Prop :=
  ∃ a, a ∈ in_arguments input ∧ handler_at AsArgument a r.

Lemma collectHandlerReferences_Ok input refs :
  collectHandlerReferences (in_arguments input) = Ok refs → ∀ r, r ∈ refs ↔ input_handler input r.
Proof.
  unfold collectHandlerReferences. intros H r.
  rewrite (adds_foldM _ (handler_at AsArgument) _ (fun x _ => collectHandlers_adds x AsArgument) _ _ H r).
  unfold input_handler. set_solver.
Qed.

(** ** Accepted lowering outputs *)

Definition valid_provider (p : LoweredProvider) : Prop :=
  lp_capability_id p ≠ [] ∧ lp_descriptor_version p ≠ [] ∧ is_sha256 (lp_descriptor_digest p) = true ∧
  safe_path (gs_module (lp_binder p)) ∧ gs_export_name (lp_binder p) ≠ [] ∧
  Forall (fun r => r ≠ []) (lp_handler_references p).

Definition valid_span (sp : SourceSpan) : Prop :=
  span_file sp ≠ [] ∧ (0 ≤ span_start sp ≤ span_end sp ≤ MAX_SAFE_INTEGER)%Z.

Definition valid_diagnostic (d : BuildDiagnostic) : Prop := bd_message d ≠ [] ∧ valid_span (bd_span d).

Definition file_bytes (fs : list GeneratedFile) : Z :=
  foldr (fun f n => byteLength (gf_contents f) + n)%Z 0%Z fs.

Definition used_references (out : LoweringOutput) : list jsstr :=
  concat (map lp_handler_references (lo_providers out)).

(** What the build relies on once a lowering output is accepted. *)
Record valid_output (input : LoweringInput) (out : LoweringOutput) : Prop := {
  vo_providers : Forall valid_provider (lo_providers out);
  vo_identities : NoDup (map provider_identity (lo_providers out));
  vo_count : (Z.of_nat (length (lo_files out)) ≤ MAX_GENERATED_FILES)%Z;
  vo_paths : Forall (fun f => safe_path (gf_path f)) (lo_files out);
  vo_distinct : NoDup (map gf_path (lo_files out));
  vo_bytes : (file_bytes (lo_files out) ≤ MAX_GENERATED_BYTES)%Z;
  vo_diagnostics : Forall valid_diagnostic (lo_diagnostics out);
  vo_once : NoDup (used_references out);
  vo_exact : ∀ r, input_handler input r ↔ ∃ s, r = JStr s ∧ s ∈ used_references out }.

Lemma mapi_res_nonempty (values : list jsval) subj span i (l : list jsstr) :
  mapi_res (fun v k => nonemptyString v (at_index subj k) span) i values = Ok l →
  values = map JStr l ∧ Forall (fun r => r ≠ []) l.
Proof.
  intros H. apply (mapi_res_Forall2 _ (fun v r => v = JStr r ∧ r ≠ [])) in H.
  - induction H as [|v r vs l [-> Hr] _ [-> IH]]; [done|]. split; [done|by constructor].
  - intros v k r Hr. by apply nonemptyString_Ok in Hr.
Qed.

Lemma validateProvider_valid raw i span p : validateProvider raw i span = Ok p → valid_provider p.
Proof.
  unfold validateProvider. intros H. result_inv.
  repeat match goal with
  | H : nonemptyString _ _ _ = Ok _ |- _ => apply nonemptyString_Ok in H as [_ H]
  | H : canonicalDigest _ _ _ = Ok _ |- _ => apply canonicalDigest_Ok in H as [_ H]
  | H : safeRelativePath _ _ _ = Ok _ |- _ => apply safeRelativePath_safe in H
  | H : mapi_res _ _ _ = Ok _ |- _ => apply mapi_res_nonempty in H as [_ H]
  end. done.
Qed.

Lemma validateSpan_valid raw subject fb sp : validateSpan raw subject fb = Ok sp → valid_span sp.
Proof.
  unfold validateSpan. intros H. result_inv.
  repeat match goal with
  | H : nonemptyString _ _ _ = Ok _ |- _ => apply nonemptyString_Ok in H as [_ H]
  | H : nonnegativeInteger _ _ _ = Ok _ |- _ => apply nonnegativeInteger_Ok in H as (? & _ & ?%safe_int_bounds & ?)
  | H : (_ <? _)%Z = false |- _ => apply Z.ltb_ge in H
  end. split; cbn; [done|lia].
Qed.

Lemma validateDiagnostic_valid raw i fb d : validateDiagnostic raw i fb = Ok d → valid_diagnostic d.
Proof.
  unfold validateDiagnostic. intros H. result_inv.
  repeat match goal with
  | H : nonemptyString _ _ _ = Ok _ |- _ => apply nonemptyString_Ok in H as [_ H]
  | H : validateSpan _ _ _ = Ok _ |- _ => apply validateSpan_valid in H
  end. done.
Qed.

Lemma validateFiles_from_valid values index paths total span files :
  validateFiles_from values index paths total span = Ok files →
  length files = length values ∧ Forall (fun f => safe_path (gf_path f)) files ∧
  NoDup (map gf_path files) ∧ (∀ p, p ∈ paths → p ∉ map gf_path files) ∧
  (total ≤ MAX_GENERATED_BYTES → total + file_bytes files ≤ MAX_GENERATED_BYTES)%Z.
Proof.
  revert index paths total files. induction values as [|v values IH]; intros index paths total files.
  - intros [= <-]. cbn. split_and!; [done|constructor|constructor|set_solver|lia].
  - cbn [validateFiles_from]. intros H. result_inv.
    match goal with H : validateFiles_from _ _ _ _ _ = Ok _ |- _ => apply IH in H as (? & ? & ? & Hnot & Hb) end.
    match goal with H : safeRelativePath _ _ _ = Ok _ |- _ => apply safeRelativePath_safe in H end.
    match goal with H : mem _ _ = false |- _ => apply mem_false in H end.
    match goal with H : (_ <? _)%Z = false |- _ => apply Z.ltb_ge in H end.
    cbn [map gf_path length file_bytes foldr gf_contents]. split_and!.
    + congruence.
    + by constructor.
    + constructor; [|done]. apply Hnot. set_solver.
    + intros p Hp. specialize (Hnot p). set_solver.
    + fold (file_bytes x5). lia.
Qed.

Lemma check_provider_ids_NoDup span ps ids ids' :
  foldM_res (check_provider_id span) ids ps = Ok ids' →
  NoDup (map provider_identity ps) ∧ ∀ i, i ∈ ids → i ∉ map provider_identity ps.
Proof.
  revert ids. induction ps as [|p ps IH]; intros ids; cbn [foldM_res map]; [by split; [constructor|set_solver]|].
  intros (ids1 & H1 & [Hnd Hnot]%IH)%bind_Ok. unfold check_provider_id in H1. result_inv.
  match goal with H : mem _ _ = false |- _ => apply mem_false in H end.
  split; [constructor; [apply Hnot; set_solver|done]|]. intros i Hi. specialize (Hnot i). set_solver.
Qed.

Lemma check_references_Ok span expected used refs used' :
  foldM_res (check_reference span expected) used refs = Ok used' ↔
    used' = rev refs ++ used ∧ NoDup refs ∧
    ∀ r, r ∈ refs → JStr r ∈ expected ∧ r ∉ used.
Proof.
  revert used. induction refs as [|r refs IH]; intros used; cbn [foldM_res].
  - rewrite ret_Ok. split; [intros <-|by intros [-> _]]. split; [done|]. split; [constructor|set_solver].
  - rewrite bind_Ok. cbn [rev]. rewrite <- app_assoc. cbn [app]. split.
    + intros (used1 & H1 & (-> & Hnd & Hall)%IH). unfold check_reference in H1. result_inv.
      match goal with H : bool_decide _ = true |- _ => apply bool_decide_eq_true in H end.
      match goal with H : mem _ _ = false |- _ => apply mem_false in H end. split; [done|]. split.
      * constructor; [|done]. intros Hin. apply Hall in Hin. set_solver.
      * intros r' [->|Hr']%elem_of_cons; [done|]. apply Hall in Hr'. set_solver.
    + intros (-> & [Hnin Hnd]%NoDup_cons & Hall). exists (r :: used).
      destruct (Hall r ltac:(set_solver)) as [He Hu].
      unfold check_reference at 1. rewrite bool_decide_eq_true_2, (proj2 (mem_false _ _)) by done.
      split; [done|].
      apply IH. split; [done|]. split; [done|]. intros r' Hr'. split; [apply Hall; set_solver|].
      intros [->|Hu']%elem_of_cons; [done|]. by apply (proj2 (Hall r' ltac:(set_solver))).
Qed.

Lemma all_references_Ok span expected ps used used' :
  foldM_res (fun used p => foldM_res (check_reference span expected) used (lp_handler_references p)) used ps
    = Ok used' ↔
  let refs := concat (map lp_handler_references ps) in
  used' = rev refs ++ used ∧ NoDup refs ∧ ∀ r, r ∈ refs → JStr r ∈ expected ∧ r ∉ used.
Proof.
  cbn zeta. rewrite <- (check_references_Ok span expected).
  enough (∀ used, foldM_res (fun used p =>
      foldM_res (check_reference span expected) used (lp_handler_references p)) used ps =
    foldM_res (check_reference span expected) used (concat (map lp_handler_references ps))) as -> by done.
  clear used. induction ps as [|p ps IH]; intros used; cbn [foldM_res map concat]; [done|].
  rewrite foldM_res_app. destruct (foldM_res _ used _); cbn; auto.
Qed.

Lemma find_unused_None (expected : list jsval) (used : list jsstr) :
  List.find (is_unused used) expected = None ↔
  ∀ r, r ∈ expected → ∃ s, r = JStr s ∧ s ∈ used.
Proof.
  rewrite find_None_forall. split.
  - intros H r Hr. specialize (H r Hr). destruct r as [| | | |s| | |]; try done.
    exists s. split; [done|]. by apply negb_false_iff, mem_true in H.
  - intros H r Hr. destruct (H r Hr) as (s & -> & Hs). by apply negb_false_iff, mem_true.
Qed.

Lemma validateLoweringOutput_valid raw input out :
  validateLoweringOutput raw input = Ok out → valid_output input out.
Proof.
  unfold validateLoweringOutput. intros H.
  apply bind_Ok in H as (output & _ & H). apply bind_Ok in H as (_ & _ & H).
  apply bind_Ok in H as (_ & _ & H). apply bind_Ok in H as (rawProviders & _ & H).
  apply bind_Ok in H as (providers & Hp & H). apply bind_Ok in H as (files & Hf & H).
  apply bind_Ok in H as (rawDiagnostics & _ & H). apply bind_Ok in H as (diagnostics & Hd & H).
  apply bind_Ok in H as (ids & Hids & H). apply bind_Ok in H as (expected & He & H).
  apply bind_Ok in H as (used & Hu & H).
  destruct (List.find _ expected) eqn:Eu; [done|]. apply ret_Ok in H as <-.
  pose proof (proj1 (find_unused_None _ _) Eu) as Hunused. apply all_references_Ok in Hu as (-> & Hnd & Hall).
  pose proof (collectHandlerReferences_Ok _ _ He) as Hexp.
  apply check_provider_ids_NoDup in Hids as [Hids _].
  unfold validateFiles in Hf. apply bind_Ok in Hf as (values & _ & Hf). apply bind_Ok in Hf as (? & Hlim%refuse_Ok & Hf).
  apply validateFiles_from_valid in Hf as (Hlen & Hpaths & Hdist & _ & Hbytes).
  apply Z.ltb_ge in Hlim.
  constructor; cbn [lo_providers lo_files lo_diagnostics]; try done.
  - eapply mapi_res_Forall; [|exact Hp]. intros ? ? ?. apply validateProvider_valid.
  - by rewrite Hlen.
  - unfold MAX_GENERATED_BYTES in *. lia.
  - eapply mapi_res_Forall; [|exact Hd]. intros ? ? ?. apply validateDiagnostic_valid.
  - intros r. rewrite <- Hexp. unfold used_references. cbn [lo_providers]. split.
    + intros Hr. destruct (Hunused r Hr) as (s & -> & Hs). exists s. split; [done|].
      rewrite app_nil_r in Hs. by rewrite elem_of_rev in Hs.
    + intros (s & -> & Hs). by apply Hall.
Qed.

Lemma accepted_references raw input out :
  validateLoweringOutput raw input = Ok out → is_Ok (collectHandlerReferences (in_arguments input)).
Proof.
  unfold validateLoweringOutput, is_Ok. intros H. repeat apply bind_Ok in H as (? & ? & H); eauto.
Qed.

(** ** Every well-formed output is accepted *)

Lemma field_head k v fs : field ((js k, v) :: fs) k = v.
Proof. unfold field. cbn. by rewrite decide_True. Qed.

Lemma field_tail k k' v fs : bool_decide (js k = js k') = false → field ((js k', v) :: fs) k = field fs k.
Proof. intros H%bool_decide_eq_false. unfold field. cbn. by rewrite decide_False. Qed.

Ltac field_eval := repeat first [rewrite field_head | rewrite field_tail by reflexivity].

Lemma exactKeys_same fs expected subject span : keys fs = expected → exactKeys fs expected subject span = Ok tt.
Proof. intros <-. by apply exactKeys_Ok. Qed.

Definition provider_json (p : LoweredProvider) : jsval :=
  JObj [(js "capability_id", JStr (lp_capability_id p));
        (js "descriptor_version", JStr (lp_descriptor_version p));
        (js "descriptor_digest", JStr (lp_descriptor_digest p));
        (js "binder", JObj [(js "module", JStr (gs_module (lp_binder p)));
                            (js "export_name", JStr (gs_export_name (lp_binder p)))]);
        (js "handler_references", JArr (map JStr (lp_handler_references p)))].

Definition generated_file_json (f : GeneratedFile) : jsval :=
  JObj [(js "path", JStr (gf_path f)); (js "contents", JStr (gf_contents f))].

Definition span_json (s : SourceSpan) : jsval :=
  JObj [(js "file", JStr (span_file s)); (js "start", JNum (num (span_start s)));
        (js "end", JNum (num (span_end s)))].

Definition diagnostic_json (d : BuildDiagnostic) : jsval :=
  JObj [(js "severity", JStr (match bd_severity d with SevError => js "error" | SevWarning => js "warning" end));
        (js "message", JStr (bd_message d)); (js "span", span_json (bd_span d))].

(** The plain object a lowering returns for [out]. *)
Definition output_json (out : LoweringOutput) : jsval :=
  JObj [(js "api_version", JNum (num 1)); (js "providers", JArr (map provider_json (lo_providers out)));
        (js "files", JArr (map generated_file_json (lo_files out)));
        (js "diagnostics", JArr (map diagnostic_json (lo_diagnostics out)))].

Lemma mapi_res_map {E A B} (f : A → nat → result E B) (g : B → A) (P : B → Prop) l i :
  (∀ y k, P y → f (g y) k = Ok y) → Forall P l → mapi_res f i (map g l) = Ok l.
Proof.
  intros Hf Hl. revert i. induction Hl as [|y l Hy _ IH]; intros i; cbn; [done|].
  by rewrite Hf, IH.
Qed.

Lemma nonnegativeInteger_num z subject span :
  (0 ≤ z ≤ MAX_SAFE_INTEGER)%Z → nonnegativeInteger (JNum (num z)) subject span = Ok z.
Proof. intros H. apply nonnegativeInteger_Ok. exists (num z). rewrite safe_int_num by lia. split_and!; [done|done|lia]. Qed.

Lemma validateProvider_json p i span : valid_provider p → validateProvider (provider_json p) i span = Ok p.
Proof.
  intros (H1 & H2 & H3 & H4 & H5 & H6). unfold validateProvider, provider_json.
  cbn [record mbind result_bind]. rewrite exactKeys_same by done. cbn [mbind result_bind]. field_eval.
  cbn [record mbind result_bind]. rewrite exactKeys_same by done. cbn [mbind result_bind]. field_eval.
  rewrite !nonemptyString_JStr, (proj2 (canonicalDigest_Ok _ _ _ _) (conj eq_refl H3)), safeRelativePath_id by done.
  cbn [array mbind result_bind].
  rewrite (mapi_res_map _ JStr (fun r => r ≠ [])); [|by intros; apply nonemptyString_JStr|done].
  by destruct p as [? ? ? [] ?].
Qed.

Lemma validateDiagnostic_json d i fb : valid_diagnostic d → validateDiagnostic (diagnostic_json d) i fb = Ok d.
Proof.
  intros (Hm & Hf & Hs). unfold validateDiagnostic, diagnostic_json.
  cbn [record mbind result_bind]. rewrite exactKeys_same by done. cbn [mbind result_bind]. field_eval.
  unfold validateSpan, span_json. cbn [record mbind result_bind].
  rewrite exactKeys_same by done. cbn [mbind result_bind]. field_eval.
  rewrite !nonemptyString_JStr by done. cbn [mbind result_bind].
  rewrite !nonnegativeInteger_num by lia. cbn [mbind result_bind].
  rewrite (proj2 (Z.ltb_ge _ _)) by lia.
  destruct d as [[] ? []]; done.
Qed.

Lemma file_bytes_nonneg files : (0 ≤ file_bytes files)%Z.
Proof.
  unfold file_bytes. induction files as [|f files IH]; cbn [foldr]; [lia|].
  unfold byteLength at 1. lia.
Qed.

Lemma validateFiles_json files i paths total span :
  Forall (fun f => safe_path (gf_path f)) files → NoDup (map gf_path files) →
  (∀ p, p ∈ paths → p ∉ map gf_path files) → (total + file_bytes files ≤ MAX_GENERATED_BYTES)%Z →
  validateFiles_from (map generated_file_json files) i paths total span = Ok files.
Proof.
  intros Hs. revert i paths total. induction Hs as [|f files Hf _ IH]; intros i paths total Hnd Hnot Hb; [done|].
  cbn [map validateFiles_from] in *. apply NoDup_cons in Hnd as [Hnin Hnd].
  rewrite (proj2 (record_Ok (generated_file_json f) _ _ _) eq_refl). cbn [mbind result_bind].
  rewrite exactKeys_same by done. cbn [mbind result_bind].
  field_eval. rewrite safeRelativePath_id by done. cbn [mbind result_bind].
  rewrite (proj2 (mem_false _ _)) by (intros Hp; apply (Hnot _ Hp); set_solver). cbn [refuse mbind result_bind string_].
  cbn [file_bytes foldr] in Hb. fold (file_bytes files) in Hb.
  pose proof (file_bytes_nonneg files).
  rewrite (proj2 (Z.ltb_ge _ _)) by lia. cbn [refuse mbind result_bind].
  rewrite IH; [by destruct f|done| |lia].
  intros p [->|Hp]%elem_of_cons; [done|]. specialize (Hnot p Hp). set_solver.
Qed.

Lemma check_provider_ids_Ok span ps ids :
  NoDup (map provider_identity ps) → (∀ i, i ∈ ids → i ∉ map provider_identity ps) →
  is_Ok (foldM_res (check_provider_id span) ids ps).
Proof.
  revert ids. induction ps as [|p ps IH]; intros ids Hnd Hnot; cbn [foldM_res]; [by eexists|].
  cbn [map] in *. apply NoDup_cons in Hnd as [Hnin Hnd]. unfold check_provider_id at 2.
  rewrite (proj2 (mem_false _ _)) by (intros Hp; apply (Hnot _ Hp); set_solver).
  cbn [refuse mbind result_bind mret result_ret]. apply IH; [done|].
  intros i [->|Hi]%elem_of_cons; [done|]. specialize (Hnot i Hi). set_solver.
Qed.

Lemma valid_output_accepted input out :
  valid_output input out → is_Ok (collectHandlerReferences (in_arguments input)) →
  validateLoweringOutput (output_json out) input = Ok out.
Proof.
  intros [Hps Hids Hc Hpaths Hdist Hb Hds Honce Hexact] [expected He].
  pose proof (collectHandlerReferences_Ok _ _ He) as Hexp.
  unfold validateLoweringOutput, output_json. cbn [record mbind result_bind].
  rewrite exactKeys_same by done. cbn [mbind result_bind]. field_eval.
  replace (is_num (JNum (num 1)) BUILD_API_VERSION) with true by reflexivity.
  cbn [ensure array mbind result_bind].
  rewrite (mapi_res_map _ provider_json valid_provider); [|by intros; apply validateProvider_json|done].
  unfold validateFiles. cbn [array mbind result_bind]. rewrite length_map.
  rewrite (proj2 (Z.ltb_ge _ _)) by done. cbn [refuse mbind result_bind].
  rewrite validateFiles_json by (done || set_solver || lia).
  cbn [mbind result_bind array].
  rewrite (mapi_res_map _ diagnostic_json valid_diagnostic); [|by intros; apply validateDiagnostic_json|done].
  cbn [mbind result_bind].
  destruct (check_provider_ids_Ok (in_span input) (lo_providers out) []) as [ids ->]; [done|set_solver|].
  cbn [mbind result_bind]. rewrite He. cbn [mbind result_bind].
  rewrite (proj2 (all_references_Ok _ expected (lo_providers out) [] (rev (used_references out) ++ []))); [|split; [reflexivity|]].
  - cbn [mbind result_bind]. rewrite (proj2 (find_unused_None _ _)); [by destruct out|].
    intros r Hr. apply Hexp, Hexact in Hr as (s & -> & Hs). exists s. split; [done|].
    rewrite app_nil_r. by apply elem_of_rev.
  - split; [done|]. intros r Hr. split; [|set_solver]. apply Hexp, Hexact. by exists r.
Qed.

(** C29: the validator of lowering outputs is exact.  An output that it makes of any value is
    accepted again, as it is, when printed as the plain object it stands for; and this holds of
    exactly the well-formed outputs for arguments that can be traversed: exact provider
    identities without duplicates, canonical digests, at most 256 generated files and 16 MiB at
    distinct paths that stay below the output directory, ordered diagnostic spans, and every
    handler reachable in the declaration's arguments used by exactly one provider, exactly once,
    with no other handler used. *)
Theorem lowering_output_exact input out :
  (∀ raw, validateLoweringOutput raw input = Ok out → validateLoweringOutput (output_json out) input = Ok out) ∧
  (validateLoweringOutput (output_json out) input = Ok out ↔
   valid_output input out ∧ is_Ok (collectHandlerReferences (in_arguments input))).
Proof.
  assert (Hv : ∀ raw, validateLoweringOutput raw input = Ok out →
    valid_output input out ∧ is_Ok (collectHandlerReferences (in_arguments input)))
    by (intros raw H; split; [by eapply validateLoweringOutput_valid|by eapply accepted_references]).
  split; [intros raw [H1 H2]%Hv; by apply valid_output_accepted|].
  split; [apply Hv|intros [H1 H2]; by apply valid_output_accepted].
Qed.

(** ** Where generated files land *)

(** Joining a relative path to a directory, segment by segment: [.] stays, [..]
    goes up, any other segment goes down. *)
Definition resolve_step (dir : list jsstr) (part : jsstr) : list jsstr :=
  if decide (part = js ".") then dir
  else if decide (part = js "..") then removelast dir
  else dir ++ [part].

Definition resolve (dir : list jsstr) (path : jsstr) : list jsstr :=
  fold_left resolve_step (split_on (fun c => (c =? 47)%N) path) dir.

Lemma resolve_below dir path : safe_path path → ∃ rest, resolve dir path = dir ++ rest.
Proof.
  intros (_ & _ & _ & _ & Hparts). unfold resolve. revert dir.
  induction Hparts as [|part parts [Hup _] _ IH]; intros dir; cbn; [exists []; by rewrite app_nil_r|].
  unfold resolve_step at 2. repeat case_decide; [apply IH|done|].
  destruct (IH (dir ++ [part])) as [rest ->]. exists (part :: rest). by rewrite <- app_assoc.
Qed.

(** A path [safeRelativePath] accepts is nonempty, has no backslash, root,
    drive or [..] segment, is returned unchanged when checked again, and resolves
    to a file below whatever directory it is joined to. *)
Theorem safe_path_contained raw subject span p :
  safeRelativePath raw subject span = Ok p →
  safe_path p ∧ safeRelativePath (JStr p) subject span = Ok p ∧
  ∀ dir, ∃ rest, resolve dir p = dir ++ rest.
Proof.
  intros H%safeRelativePath_safe. split_and!; [done|by apply safeRelativePath_id|].
  intros dir. by apply resolve_below.
Qed.

Lemma safe_path_contained_witness :
  safeRelativePath (JStr (js "generated\operation.ts")) (js "p") EMPTY_SPAN = Ok (js "generated/operation.ts") ∧
  safe_path (js "generated/operation.ts").
Proof.
  split; [by vm_compute|].
  apply (safe_path_contained (JStr (js "generated\operation.ts")) (js "p") EMPTY_SPAN). by vm_compute.
Defined.

(** The duplicate check compares path texts, so two generated files whose
    paths differ by a [.] segment are both accepted although they land on the
    same file: an accepted path need not be normalized. *)
Theorem dot_segments_collide :
  ∃ files, validateFiles (JArr (map generated_file_json files)) EMPTY_SPAN = Ok files ∧
    NoDup (map gf_path files) ∧
    ∃ f g, files = [f; g] ∧ gf_contents f ≠ gf_contents g ∧ resolve [] (gf_path f) = resolve [] (gf_path g).
Proof.
  exists [{| gf_path := js "a/b.ts"; gf_contents := js "1" |}; {| gf_path := js "a/./b.ts"; gf_contents := js "2" |}].
  split; [by vm_compute|]. split; [apply (bool_decide_unpack _); by vm_compute|].
  do 2 eexists. split; [done|]. split; [done|by vm_compute].
Qed.

(** ** Exact contracts *)

Lemma NUL_split a b a' b' : 0%N ∉ a → 0%N ∉ a' → a ++ NUL ++ b = a' ++ NUL ++ b' → a = a' ∧ b = b'.
Proof.
  revert a'. induction a as [|x a IH]; intros [|x' a'] Ha Ha'; cbn.
  - by intros [= ->].
  - intros [= <- _]. set_solver.
  - intros [= -> _]. set_solver.
  - intros [= -> H]. destruct (IH a') as [-> ->]; [set_solver|set_solver|done|done].
Qed.

Definition provider_of_allowed (a : AllowedProvider) (p : LoweredProvider) : Prop :=
  ap_capability_id a = lp_capability_id p ∧ ap_descriptor_version a = lp_descriptor_version p ∧
  ap_descriptor_digest a = lp_descriptor_digest p.

(** No capability identifier or version contains a NUL unit. *)
Definition nul_free (allowed : list AllowedProvider) (providers : list LoweredProvider) : Prop :=
  Forall (fun a => (0%N ∉ ap_capability_id a) ∧ (0%N ∉ ap_descriptor_version a)) allowed ∧
  Forall (fun p => (0%N ∉ lp_capability_id p) ∧ (0%N ∉ lp_descriptor_version p)) providers.

(** An entry of the allow list the build accepts. *)
Definition admissible_contract (a : AllowedProvider) : Prop :=
  ap_capability_id a ≠ [] ∧ ap_descriptor_version a ≠ [] ∧ is_sha256 (ap_descriptor_digest a) = true.

Lemma allowed_identity_Ok span a k i :
  allowed_identity span a k = Ok i ↔
  admissible_contract a ∧ i = contract_identity (ap_capability_id a) (ap_descriptor_version a) (ap_descriptor_digest a).
Proof.
  unfold allowed_identity. split.
  - intros H. result_inv. repeat match goal with
    | H : nonemptyString _ _ _ = Ok _ |- _ => apply nonemptyString_Ok in H as [[= <-] ?]
    | H : canonicalDigest _ _ _ = Ok _ |- _ => apply canonicalDigest_Ok in H as [[= <-] ?]
    end. done.
  - intros [(H1 & H2 & H3) ->]. rewrite !nonemptyString_JStr by done. cbn -[canonicalDigest].
    by rewrite (proj2 (canonicalDigest_Ok _ _ _ _) (conj eq_refl H3)).
Qed.

Lemma allowed_identities span k allowed ids :
  mapi_res (allowed_identity span) k allowed = Ok ids ↔
  Forall admissible_contract allowed ∧
  ids = map (fun a => contract_identity (ap_capability_id a) (ap_descriptor_version a) (ap_descriptor_digest a)) allowed.
Proof.
  revert k ids. induction allowed as [|a l IH]; intros k ids; cbn [mapi_res map].
  { split; [intros [= <-]; by split; [constructor|]|by intros [_ ->]]. }
  split.
  - intros H. result_inv.
    match goal with H : allowed_identity _ _ _ = Ok _ |- _ => apply allowed_identity_Ok in H as [? ->] end.
    match goal with H : mapi_res _ _ _ = Ok _ |- _ => apply IH in H as [? ->] end. split; [by constructor|done].
  - intros [[Ha Hl]%Forall_cons ->]. rewrite (proj2 (allowed_identity_Ok _ _ _ _) (conj Ha eq_refl)). cbn.
    by rewrite (proj2 (IH _ _) (conj Hl eq_refl)).
Qed.

(** The two texts the build compares: capability, version and digest joined by NUL. *)
Definition same_text (a : AllowedProvider) (p : LoweredProvider) : Prop :=
  ap_capability_id a ++ [0%N] ++ ap_descriptor_version a ++ [0%N] ++ ap_descriptor_digest a =
  lp_capability_id p ++ [0%N] ++ lp_descriptor_version p ++ [0%N] ++ lp_descriptor_digest p.

(** When [runLowering] returns [out], given what makes a generated provider one of the allowed. *)
Definition lowering_returns (allowed_as : AllowedProvider → LoweredProvider → Prop)
    (lower : LoweringInput → build jsval) (input : LoweringInput) (allowed : list AllowedProvider)
    (out : LoweringOutput) : Prop :=
  is_num (in_api_version input) 1 = true ∧
  (∃ raw, lower input = Ok raw ∧ validateLoweringOutput raw input = Ok out) ∧
  Forall admissible_contract allowed ∧
  Forall (fun p => ∃ a, a ∈ allowed ∧ allowed_as a p) (lo_providers out).

Lemma run_lowering_text lower input allowed out :
  runLowering lower input allowed = Ok out ↔ lowering_returns same_text lower input allowed out.
Proof.
  unfold runLowering, lowering_returns, validateAllowedProviders. split.
  - intros H. result_inv.
    match goal with H : mapi_res _ _ _ = Ok _ |- _ => apply allowed_identities in H as [? ->] end.
    destruct (List.find _ _) eqn:Ef in *; [done|]. rewrite find_None_forall in Ef.
    split_and!; [done|by eauto|done|]. apply Forall_forall. intros p Hin. specialize (Ef p Hin).
    apply negb_false_iff, mem_true, list_elem_of_fmap in Ef as (a & Heq & Hina). by exists a.
  - intros (Hv & (raw & Hr & Ho) & Ha & Hp). unfold BUILD_API_VERSION. rewrite Hv, Hr. cbn. rewrite Ho. cbn.
    rewrite (proj2 (allowed_identities _ _ _ _) (conj Ha eq_refl)). cbn.
    match goal with |- context [List.find ?f ?l] => destruct (List.find f l) as [q|] eqn:Ef end; [|done].
    exfalso. apply List.find_some in Ef as [Hq%list_elem_of_In Hn%negb_true_iff%mem_false].
    rewrite Forall_forall in Hp. destruct (Hp q Hq) as (a & Hina & Heq). apply Hn, list_elem_of_fmap. by exists a.
Qed.

Lemma nul_free_text allowed providers a p :
  nul_free allowed providers → a ∈ allowed → p ∈ providers → same_text a p ↔ provider_of_allowed a p.
Proof.
  intros [Ha Hp] Hina Hin. rewrite Forall_forall in Ha. rewrite Forall_forall in Hp.
  destruct (Ha a Hina) as [Ha1 Ha2], (Hp p Hin) as [Hp1 Hp2]. split.
  - intros Heq. apply NUL_split in Heq as [E1 Heq]; [|done..]. by apply NUL_split in Heq as [E2 E3]; [|done..].
  - intros (E1 & E2 & E3). unfold same_text. by rewrite E1, E2, E3.
Qed.

(** C30: running a lowering returns an output exactly when the input has API version 1,
    the lowering produced a value the validator turns into that output, every entry of
    the allow list is a nonempty identifier and version with a SHA-256 digest, and each
    generated provider has the same capability, version and digest joined by NUL as an
    entry of the list.  When no identifier or version contains a NUL unit, the last
    says that each generated provider is, field by field, an entry of the list. *)
Theorem run_lowering_exact lower input allowed out :
  (runLowering lower input allowed = Ok out ↔ lowering_returns same_text lower input allowed out) ∧
  (nul_free allowed (lo_providers out) →
   runLowering lower input allowed = Ok out ↔ lowering_returns provider_of_allowed lower input allowed out).
Proof.
  split; [apply run_lowering_text|]. intros Hn. rewrite run_lowering_text. unfold lowering_returns.
  rewrite !Forall_forall. split; intros (? & ? & ? & Hp); (split_and!; [done..|]); intros p Hin;
    destruct (Hp p Hin) as (a & Hina & Has); exists a; (split; [done|]); by eapply nul_free_text.
Qed.

(** ** Test values *)

Definition zero_digest : jsstr := js "sha256:" ++ replicate 64 48%N.

Definition test_span : SourceSpan := {| span_file := js "src/plugin.ts"; span_start := 10; span_end := 20 |}.

Definition test_handler : jsval :=
  JObj [(js "kind", JStr (js "handler")); (js "reference", JStr (js "handler:sync")); (js "span", span_json test_span)].

(** A handler nested in a declaration inside an array literal. *)
Definition test_input : LoweringInput := {|
  in_api_version := JNum (num 1);
  in_package := {| pkg_name := js "sdk"; pkg_version := js "1.2.3"; pkg_integrity := js "sha512-x" |};
  in_export_name := js "operation";
  in_arguments := [JObj [(js "kind", JStr (js "value"));
    (js "value", JArr [JObj [(js "kind", JStr (js "declaration")); (js "arguments", JArr [test_handler]);
                             (js "span", span_json test_span)]]);
    (js "span", span_json test_span)]];
  in_span := test_span |}.

Definition test_provider (capability version : jsstr) : LoweredProvider := {|
  lp_capability_id := capability; lp_descriptor_version := version; lp_descriptor_digest := zero_digest;
  lp_binder := {| gs_module := js "generated/operation.ts"; gs_export_name := js "bindOperation" |};
  lp_handler_references := [js "handler:sync"] |}.

Definition test_output (capability version : jsstr) : LoweringOutput := {|
  lo_providers := [test_provider capability version];
  lo_files := [{| gf_path := js "generated/operation.ts"; gf_contents := js "export {};" |}];
  lo_diagnostics := [{| bd_severity := SevWarning; bd_message := js "note"; bd_span := test_span |}] |}.

Definition test_allowed (capability version : jsstr) : AllowedProvider := {|
  ap_capability_id := capability; ap_descriptor_version := version; ap_descriptor_digest := zero_digest |}.

Definition ok_output := test_output (js "example.operation@1") (js "1.0.0").

Lemma lowering_output_exact_witness :
  validateLoweringOutput (output_json ok_output) test_input = Ok ok_output ∧ valid_output test_input ok_output.
Proof. split; [by vm_compute|]. apply lowering_output_exact. by vm_compute. Defined.

Lemma run_lowering_exact_witness :
  ∃ a, a ∈ [test_allowed (js "example.operation@1") (js "1.0.0")] ∧
       provider_of_allowed a (test_provider (js "example.operation@1") (js "1.0.0")).
Proof.
  assert (nul_free [test_allowed (js "example.operation@1") (js "1.0.0")] (lo_providers ok_output)) as Hn.
  { split; repeat constructor; apply (bool_decide_unpack _); by vm_compute. }
  pose proof (run_lowering_exact (fun _ => Ok (output_json ok_output)) test_input
    [test_allowed (js "example.operation@1") (js "1.0.0")] ok_output) as [_ Hr].
  assert (runLowering (fun _ => Ok (output_json ok_output)) test_input
    [test_allowed (js "example.operation@1") (js "1.0.0")] = Ok ok_output) as Ho by (by vm_compute).
  apply (Hr Hn) in Ho as (_ & _ & _ & H). by apply Forall_cons_1 in H as [? _].
Defined.

(** The exact-contract check joins its fields with NUL, so a NUL inside an
    identifier lets a generated provider through that is not one of the allowed
    contracts. *)
Theorem run_lowering_nul_collision :
  ∃ allowed out,
    runLowering (fun _ => Ok (output_json out)) test_input allowed = Ok out ∧
    ∃ p, p ∈ lo_providers out ∧ ∀ a, a ∈ allowed → ¬ provider_of_allowed a p.
Proof.
  exists [test_allowed (js "a") (js "b" ++ NUL ++ js "c")], (test_output (js "a" ++ NUL ++ js "b") (js "c")).
  split; [by vm_compute|]. eexists. split; [by left|].
  intros a ->%list_elem_of_singleton [H _]. discriminate H.
Qed.

(** ** Package metadata *)

Lemma obj_assign_elem {V} (k : jsstr) (v : V) fs x : x ∈ obj_assign k v fs → x = (k, v) ∨ x ∈ fs.
Proof.
  unfold obj_assign. case_decide; [by right|]. induction fs as [|[k' w] fs IH]; cbn.
  - intros ->%list_elem_of_singleton. by left.
  - case_decide; subst.
    + intros [->|?]%elem_of_cons; [by left|right; set_solver].
    + repeat case_match; rewrite !elem_of_cons; naive_solver.
Qed.

Definition declaration_ok (d : jsstr * list jsstr) : Prop :=
  NoDup d.2 ∧ Forall (fun name => name ≠ []) d.2.

(** What an entry of the validated handler parameters says: indexes of exports
    that the package declares, or nothing at all under a member name of
    [Object.prototype]. *)
Definition parameters_ok (declarations : list (jsstr * list jsstr))
    (h : jsstr * list (jsstr * list Z)) : Prop :=
  (∃ names, assoc h.1 declarations = Some names ∧
     Forall (fun e => e.1 ∈ names ∧ NoDup e.2 ∧ Forall (fun z => 0 ≤ z)%Z e.2) h.2) ∨
  (h.1 ∈ prototype_names ∧ h.2 = []).

Definition contract_ok (c : BuildProviderContract) : Prop :=
  ap_capability_id (bpc_provider c) ≠ [] ∧ ap_descriptor_version (bpc_provider c) ≠ [] ∧
  is_sha256 (ap_descriptor_digest (bpc_provider c)) = true ∧
  bpc_request_operations c ≠ [] ∧ NoDup (bpc_request_operations c).

Lemma has_duplicate_false {A} `{EqDecision A} (l : list A) : has_duplicate l = false ↔ NoDup l.
Proof. unfold has_duplicate. by rewrite negb_false_iff, bool_decide_eq_true. Qed.

Lemma declarations_ok span entries decls :
  foldM_res (declaration_entry span) [] entries = Ok decls → Forall declaration_ok decls.
Proof.
  apply (foldM_res_inv _ (fun _ ds => Forall declaration_ok ds)); [constructor|].
  intros _ [subpath raw] ds ds' Hds _ H. unfold declaration_entry in H. result_inv.
  apply Forall_forall. intros y [->|Hx]%obj_assign_elem; [|by rewrite Forall_forall in Hds; auto].
  match goal with H : mapi_res _ _ _ = Ok _ |- _ => apply mapi_res_nonempty in H as [_ H] end.
  match goal with H : has_duplicate _ = false |- _ => apply has_duplicate_false in H end. done.
Qed.

Lemma handler_exports_ok span subpath declared exports normalized :
  foldM_res (handler_export span subpath declared) [] exports = Ok normalized →
  match declared with
  | Some names => Forall (fun e => e.1 ∈ names ∧ NoDup e.2 ∧ Forall (fun z => 0 ≤ z)%Z e.2) normalized
  | None => normalized = []
  end.
Proof.
  destruct declared as [names|].
  - apply (foldM_res_inv _ (fun _ l => Forall _ l)); [constructor|].
    intros _ [name raw] l l' Hl _ H. unfold handler_export in H. result_inv.
    apply Forall_forall. intros y [->|Hx]%obj_assign_elem; [|by rewrite Forall_forall in Hl; auto].
    match goal with H : mem _ _ = true |- _ => apply mem_true in H end.
    match goal with H : has_duplicate _ = false |- _ => apply has_duplicate_false in H end.
    split_and!; [done|done|]. eapply mapi_res_Forall; [|eassumption].
    intros v k z (? & _ & _ & ?)%nonnegativeInteger_Ok. done.
  - destruct exports as [|[name raw] exports]; [by intros [= <-]|done].
Qed.

Lemma handler_entries_ok span decls entries hps :
  foldM_res (handler_entry span decls) [] entries = Ok hps → Forall (parameters_ok decls) hps.
Proof.
  apply (foldM_res_inv _ (fun _ l => Forall _ l)); [constructor|].
  intros _ [subpath raw] l l' Hl _ H. unfold handler_entry in H. result_inv.
  apply Forall_forall. intros y [->|Hy]%obj_assign_elem; [|by rewrite Forall_forall in Hl; auto].
  match goal with H : foldM_res _ _ _ = Ok _ |- _ => apply handler_exports_ok in H end.
  unfold parameters_ok; cbn. destruct (assoc subpath decls) as [names|]; simplify_eq; [by left; eauto|].
  destruct (mem subpath prototype_names) eqn:E; simplify_eq. right. by apply mem_true in E.
Qed.

Lemma provider_contract_ok span raw i c : provider_contract span raw i = Ok c → contract_ok c.
Proof.
  unfold provider_contract. intros H. result_inv.
  repeat match goal with
  | H : nonemptyString _ _ _ = Ok _ |- _ => apply nonemptyString_Ok in H as [_ H]
  | H : canonicalDigest _ _ _ = Ok _ |- _ => apply canonicalDigest_Ok in H as [_ H]
  | H : _ || _ = false |- _ => apply orb_false_iff in H as [?%bool_decide_eq_false ?%has_duplicate_false]
  end. done.
Qed.

(** Accepted package metadata declares distinct nonempty export names,
    contracts with canonical digests and nonempty lists of distinct operations,
    and handler parameters only for exports it declares, with distinct
    non-negative indexes.  The one exception is an empty record under a member
    name of [Object.prototype]. *)
Theorem metadata_sound raw m :
  validateBuildPackageMetadata raw = Ok m →
  Forall declaration_ok (bpm_declarations m) ∧
  Forall contract_ok (bpm_provider_contracts m) ∧
  ∀ hps, bpm_handler_parameters m = Some hps → Forall (parameters_ok (bpm_declarations m)) hps.
Proof.
  unfold validateBuildPackageMetadata. intros H.
  apply bind_Ok in H as (metadata & _ & H). do 2 (destruct (List.find _ _) in H; [done|]).
  apply bind_Ok in H as (_ & _ & H). apply bind_Ok in H as (export & _ & H).
  apply bind_Ok in H as (entries & _ & H). apply bind_Ok in H as (decls & Hd%declarations_ok & H).
  apply bind_Ok in H as (hp & Hhp & H). apply bind_Ok in H as (rawContracts & _ & H).
  apply bind_Ok in H as (contracts & Hc & H). apply ret_Ok in H as <-.
  cbn [bpm_declarations bpm_provider_contracts bpm_handler_parameters]. split_and!; [done| |].
  - eapply mapi_res_Forall; [|exact Hc]. intros ? ? ?. apply provider_contract_ok.
  - intros hps ->. destruct (field metadata "handler_parameters") in Hhp; simplify_eq; try done.
    apply bind_Ok in Hhp as (subpaths & _ & Hhp).
    destruct (foldM_res _ [] subpaths) eqn:E in Hhp; cbn in Hhp; simplify_eq.
    by eapply handler_entries_ok.
Qed.

Definition test_metadata (subpath : string) (exports : jsval) : jsval :=
  JObj [(js "api_version", JNum (num 1)); (js "export", JStr (js "./lenso-build"));
        (js "declarations", JObj [(js ".", JArr [JStr (js "operation")])]);
        (js "handler_parameters", JObj [(js subpath, exports)]); (js "provider_contracts", JArr [])].

Lemma metadata_sound_witness :
  ∃ m, validateBuildPackageMetadata (test_metadata "." (JObj [(js "operation", JArr [JNum (num 1)])])) = Ok m ∧
       bpm_handler_parameters m = Some [(js ".", [(js "operation", [1%Z])])] ∧
       Forall declaration_ok (bpm_declarations m).
Proof.
  eexists. split; [by vm_compute|]. split; [done|].
  apply (metadata_sound (test_metadata "." (JObj [(js "operation", JArr [JNum (num 1)])]))). by vm_compute.
Defined.

(** [declarations[subpath]] also finds the members of [Object.prototype], so
    metadata with handler parameters for the undeclared subpath [toString] is
    accepted where any other undeclared subpath is refused, and a nonempty record
    there escapes as a [TypeError] instead of a build error. *)
Theorem metadata_prototype_subpath :
  is_Ok (validateBuildPackageMetadata (test_metadata "toString" (JObj []))) ∧
  validateBuildPackageMetadata (test_metadata "./other" (JObj [])) =
    Throw (BuildOutputError (NoDeclaredSubpath (js "./other")) EMPTY_SPAN) ∧
  validateBuildPackageMetadata (test_metadata "toString" (JObj [(js "operation", JArr [])])) = Throw TypeError.
Proof. split; [eexists|split]; by vm_compute. Qed.

(** ** Build fingerprints *)

Section sort.
Context {A : Type} (cmp : A → A → Z).
Hypothesis cmp_total : ∀ x y, (cmp x y ≤ 0 ∨ cmp y x ≤ 0)%Z.
Hypothesis cmp_trans : ∀ x y z, (cmp x y ≤ 0 → cmp y z ≤ 0 → cmp x z ≤ 0)%Z.

Lemma sort_insert_perm x l : sort_insert cmp x l ≡ₚ x :: l.
Proof.
  induction l as [|y l IH]; cbn; [done|]. case_match; [done|]. rewrite IH. apply Permutation_swap.
Qed.

Lemma sort_by_perm l : sort_by cmp l ≡ₚ l.
Proof. induction l as [|x l IH]; cbn; [done|]. by rewrite sort_insert_perm, IH. Qed.

Lemma sort_insert_sorted x l :
  StronglySorted (fun x y => cmp x y ≤ 0)%Z l → StronglySorted (fun x y => cmp x y ≤ 0)%Z (sort_insert cmp x l).
Proof.
  induction 1 as [|y l Hs IH Hy]; cbn; [repeat constructor|].
  destruct (Z.leb_spec (cmp x y) 0).
  - constructor; [by constructor|]. constructor; [done|]. eapply Forall_impl; [exact Hy|]. cbn. eauto.
  - constructor; [done|]. rewrite sort_insert_perm. constructor; [|done].
    destruct (cmp_total x y); [lia|done].
Qed.

Lemma sort_by_sorted l : StronglySorted (fun x y => cmp x y ≤ 0)%Z (sort_by cmp l).
Proof. induction l as [|x l IH]; cbn; [constructor|]. by apply sort_insert_sorted. Qed.

(** Sorting forgets the input order when the comparison separates the elements. *)
Lemma sort_by_unique l1 l2 :
  (∀ x y, x ∈ l1 → y ∈ l1 → cmp x y ≤ 0 → cmp y x ≤ 0 → x = y)%Z →
  l1 ≡ₚ l2 → sort_by cmp l1 = sort_by cmp l2.
Proof.
  intros Hsep Hp. apply (StronglySorted_unique_strong (fun x y => cmp x y ≤ 0)%Z).
  - intros x y Hx Hy. apply Hsep; [by rewrite <- sort_by_perm|].
    by rewrite Hp, <- sort_by_perm.
  - apply sort_by_sorted.
  - apply sort_by_sorted.
  - by rewrite !sort_by_perm.
Qed.
End sort.

(** An entry as [canonicalFiles] normalizes it. *)
Definition normal_entry (f : FileDigest) : FileDigest :=
  {| fd_path := replace_unit 92 47 (fd_path f); fd_sha256 := fd_sha256 f |}.

Lemma safeRelativePath_replace s subject span p :
  safeRelativePath (JStr s) subject span = Ok p → p = replace_unit 92 47 s.
Proof.
  unfold safeRelativePath. intros H. result_inv.
  by match goal with H : nonemptyString _ _ _ = Ok _ |- _ => apply nonemptyString_Ok in H as [[= ->] _] end.
Qed.

(** Whether one file is acceptable on its own does not depend on the others. *)
Definition entry_ok (f : FileDigest) (subject : jsstr) : Prop :=
  is_Ok (safeRelativePath (JStr (fd_path f)) (subject ++ js " path") EMPTY_SPAN) ∧
  is_sha256 (fd_sha256 f) = true.

Lemma canonical_entries_Ok files seen subject entries :
  canonical_entries files seen subject = Ok entries ↔
    entries = map normal_entry files ∧ Forall (fun f => entry_ok f subject) files ∧
    NoDup (map fd_path (map normal_entry files)) ∧
    ∀ p, p ∈ seen → p ∉ map fd_path (map normal_entry files).
Proof.
  revert seen entries. induction files as [|f files IH]; intros seen entries; cbn [canonical_entries map].
  - rewrite ret_Ok. split; [intros <-|by intros [-> _]].
    split; [done|]. split; [constructor|]. split; [constructor|set_solver].
  - split.
    + intros (path & Hpath & H)%bind_Ok. apply bind_Ok in H as (? & Hs%refuse_Ok & H).
      apply bind_Ok in H as (? & Hd%ensure_Ok & H). apply bind_Ok in H as (rest & Hrest & H).
      apply ret_Ok in H as <-. apply IH in Hrest as (-> & Hok & Hnd & Hnot).
      pose proof (safeRelativePath_replace _ _ _ _ Hpath) as ->. apply mem_false in Hs.
      split_and!; [done|constructor; [by split; [eexists|]|done]| |].
      * constructor; [|done]. apply Hnot. by left.
      * intros p Hp. apply not_elem_of_cons. split; [by intros ->|]. apply Hnot. by right.
    + intros (-> & [[[path Hpath] Hd] Hok]%Forall_cons & [Hnin Hnd]%NoDup_cons & Hnot).
      rewrite Hpath. cbn [mbind result_bind]. pose proof (safeRelativePath_replace _ _ _ _ Hpath) as ->.
      rewrite (proj2 (mem_false _ _)) by (intros Hp; apply (Hnot _ Hp); by left).
      cbn [refuse mbind result_bind]. rewrite Hd. cbn [ensure mbind result_bind].
      rewrite (proj2 (IH _ (map normal_entry files))); [done|].
      split_and!; [done|done|done|]. intros p [->|Hp]%elem_of_cons; [done|].
      intros Hin. apply (Hnot p Hp). by right.
Qed.

(** What the fingerprint needs of [localeCompare]: a consistent comparison. *)
Class ConsistentCompare (lc : jsstr → jsstr → Z) : Prop := {
  lc_total : ∀ a b, (lc a b ≤ 0 ∨ lc b a ≤ 0)%Z;
  lc_trans : ∀ a b c, (lc a b ≤ 0 → lc b c ≤ 0 → lc a c ≤ 0)%Z }.

(** The comparison tells different strings of [l] apart. *)
Definition separates (lc : jsstr → jsstr → Z) (l : list jsstr) : Prop :=
  ∀ a b, a ∈ l → b ∈ l → (lc a b ≤ 0)%Z → (lc b a ≤ 0)%Z → a = b.

Section order_independence.
Context (lc : jsstr → jsstr → Z) `{!ConsistentCompare lc} (sha : jsstr → jsstr).

Lemma canonicalFiles_perm files files' subject c :
  separates lc (map fd_path (map normal_entry files)) → files ≡ₚ files' →
  canonicalFiles lc files subject = Ok c → canonicalFiles lc files' subject = Ok c.
Proof.
  unfold canonicalFiles. intros Hsep Hp (entries & He & Hc)%bind_Ok. apply (proj1 (ret_Ok _ _)) in Hc.
  apply canonical_entries_Ok in He as (-> & Hok & Hnd & _).
  rewrite (proj2 (canonical_entries_Ok files' [] subject (map normal_entry files'))).
  - cbn [mbind result_bind]. rewrite <- Hc. unfold mret, result_ret. f_equal. symmetry.
    apply sort_by_unique; [intros; apply lc_total|intros x y z; apply lc_trans| |by rewrite Hp].
    intros x y Hx Hy Hxy Hyx.
    assert (fd_path x = fd_path y) as Hpath.
    { apply Hsep; [|  |done|done]; apply list_elem_of_fmap; eauto. }
    by apply (NoDup_map_inj fd_path (map normal_entry files)).
  - split_and!; [done|by rewrite <- Hp|by rewrite <- Hp|set_solver].
Qed.

Lemma locked_packages_id ps i ps' : mapi_res locked_package i ps = Ok ps' → ps' = ps.
Proof.
  intros H. apply (mapi_res_Forall2 _ eq) in H; [by apply list_eq_Forall2 in H|].
  intros p k p' Hp. unfold locked_package in Hp. result_inv.
  repeat match goal with
  | H : nonemptyString _ _ _ = Ok _ |- _ => apply nonemptyString_Ok in H as [[= <-] _]
  end. by destruct p.
Qed.

Lemma locked_packages_perm ps ps' :
  ps ≡ₚ ps' → mapi_res locked_package 0 ps = Ok ps → mapi_res locked_package 0 ps' = Ok ps'.
Proof.
  intros Hp H.
  assert (Forall (fun p => pkg_name p ≠ [] ∧ pkg_version p ≠ [] ∧ pkg_integrity p ≠ []) ps) as Hps.
  { eapply mapi_res_Forall; [|exact H]. intros p k q Hq. unfold locked_package in Hq. result_inv.
    repeat match goal with
    | H : nonemptyString _ _ _ = Ok _ |- _ => apply nonemptyString_Ok in H as [_ H]
    end. done. }
  rewrite Hp in Hps. rewrite <- (map_id ps') at 1. eapply mapi_res_map; [|exact Hps].
  intros p k (H1 & H2 & H3). unfold locked_package. rewrite !nonemptyString_JStr by done. by destruct p.
Qed.
End order_independence.

(** Two build inputs with the same contents listed in different orders. *)
Record same_contents (i j : BuildFingerprintInput) : Prop := {
  sc_sources : fi_sourceClosure i ≡ₚ fi_sourceClosure j;
  sc_contracts : fi_contractArtifacts i ≡ₚ fi_contractArtifacts j;
  sc_packages : fi_lockedPackages i ≡ₚ fi_lockedPackages j;
  sc_target : fi_target i = fi_target j }.

(** Every string the fingerprint sorts by. *)
Record sort_keys_separated (lc : jsstr → jsstr → Z) (i : BuildFingerprintInput) : Prop := {
  sk_sources : separates lc (map fd_path (map normal_entry (fi_sourceClosure i)));
  sk_contracts : separates lc (map fd_path (map normal_entry (fi_contractArtifacts i)));
  sk_packages : ∀ p q, p ∈ fi_lockedPackages i → q ∈ fi_lockedPackages i →
    (lc (package_key p) (package_key q) ≤ 0)%Z → (lc (package_key q) (package_key p) ≤ 0)%Z → p = q }.

(** C39: the build fingerprint depends on the contents of the build inputs and not
    on the order in which they are listed, for every consistent [localeCompare]
    that tells their paths and packages apart; so a fingerprint verifies against
    any reordering of the inputs it was taken from. *)
Theorem fingerprint_order_independent lc sha i j f :
  ConsistentCompare lc → sort_keys_separated lc i → same_contents i j →
  fingerprintBuildInputs lc sha i = Ok f →
  fingerprintBuildInputs lc sha j = Ok f ∧ verifyBuildFingerprint lc sha f j = Ok tt.
Proof.
  intros Hlc [Hs1 Hs2 Hs3] [H1 H2 H3 H4] H.
  assert (fingerprintBuildInputs lc sha j = Ok f) as E.
  { unfold fingerprintBuildInputs in *.
    apply bind_Ok in H as (sources & Hsrc & H). apply bind_Ok in H as (contracts & Hcon & H).
    apply bind_Ok in H as (packages & Hpk & H). apply bind_Ok in H as (target & Ht & H).
    pose proof (locked_packages_id _ _ _ Hpk) as ->.
    rewrite (canonicalFiles_perm lc _ _ _ _ Hs1 H1 Hsrc), (canonicalFiles_perm lc _ _ _ _ Hs2 H2 Hcon).
    cbn [mbind result_bind]. rewrite (locked_packages_perm _ _ H3 Hpk). cbn [mbind result_bind].
    rewrite <- H4, Ht. cbn [mbind result_bind]. rewrite <- H.
    rewrite (sort_by_unique (fun l r => lc (package_key l) (package_key r))
      (fun x y => lc_total _ _) (fun x y z => lc_trans _ _ _) _ _ Hs3 H3). done. }
  split; [done|]. unfold verifyBuildFingerprint. rewrite E. cbn. by rewrite bool_decide_eq_true_2.
Qed.

(** Comparison by code units, the order of the C locale. *)
Definition unit_compare (a b : jsstr) : Z :=
  if str_leb a b then if str_leb b a then 0 else -1 else 1.

Lemma unit_compare_le a b : (unit_compare a b ≤ 0)%Z ↔ str_le a b.
Proof. unfold unit_compare, str_le. destruct (str_leb a b), (str_leb b a); split; done || lia. Qed.

#[export] Instance unit_compare_consistent : ConsistentCompare unit_compare.
Proof.
  split; intros *; rewrite !unit_compare_le; [apply (total str_le)|apply str_le_trans].
Qed.

Definition test_file (path : string) : FileDigest := {| fd_path := js path; fd_sha256 := zero_digest |}.

Definition test_build (paths : list string) : BuildFingerprintInput :=
  {| fi_sourceClosure := map test_file paths; fi_contractArtifacts := []; fi_lockedPackages := []; fi_target := js "bun" |}.

Lemma fingerprint_order_independent_witness :
  fingerprintBuildInputs unit_compare (fun s => s) (test_build ["b.ts"; "a.ts"]) =
  fingerprintBuildInputs unit_compare (fun s => s) (test_build ["a.ts"; "b.ts"]).
Proof.
  symmetry.
  refine (proj1 (fingerprint_order_independent unit_compare (fun s => s) (test_build ["b.ts"; "a.ts"])
    (test_build ["a.ts"; "b.ts"]) _ _ _ _ _)).
  - split; [|intros a b Ha; by apply elem_of_nil in Ha..].
    intros a b _ _ H1%unit_compare_le H2%unit_compare_le. by apply (anti_symm str_le).
  - split; try done. apply Permutation_swap.
  - by vm_compute.
Defined.
