(* ===== verification/Authoring.v ===== *)
(** * Plugin declarations (authoring.ts and the declaration half of index.ts)

    What an author writes: capability descriptors, providers, dependencies,
    configuration.  [definePlugin] checks a whole declaration, the portable
    descriptor and the portable entry point read it, and [createDependencyClients]
    binds its dependencies to the imports a Host admitted. *)

From Stdlib Require Import ZArith.
From S2P Require Import Prelude JsValue Text Json.

Abbreviation throws := (result thrown).

(** [throw new Error(message)] *)
Definition fail {A} (message : jsstr) : throws A := Throw (ErrorObject message).
Definition throw_if (c : bool) (message : jsstr) : throws unit := refuse c (ErrorObject message).

(** [value.key]: [undefined] and [null] have no properties, and the engine raises a [TypeError]
    with the message given. *)
Definition get (type_error : jsstr) (v : jsval) (key : string) : throws jsval :=
  match v with
  | JUndef | JNull => fail type_error
  | JObj fs => mret (field fs key)
  | JArr l => mret (if String.eqb key "length" then JNum (num (Z.of_nat (length l))) else JUndef)
  | JStr s => mret (if String.eqb key "length" then JNum (num (Z.of_nat (length s))) else JUndef)
  | _ => mret JUndef
  end.

(** ** Descriptors and outcomes *)

Record Descriptor := {
  capability_id : jsstr;
  descriptor_version : jsstr;
  descriptor_digest : option jsstr;
  operations : list jsstr;
  stream_operations : list jsstr;
  event_operations : list jsstr }.

#[export] Instance Descriptor_eq_dec : EqDecision Descriptor.
Proof. solve_decision. Defined.

(** A runtime failure is an object of the wire: its fields. *)
Abbreviation RuntimeFailure := (list (jsstr * jsval)).

Inductive ProviderDispatchOutcome :=
| PSuccess (value : jsval)
| PDomain (value : jsval)
| PRuntime (failure : RuntimeFailure).

(** How an awaited call of Plugin code ends. *)
Inductive completion (A : Type) :=
| Returned (a : A)
| Threw (e : thrown).
Arguments Returned {A} a.
Arguments Threw {A} e.

Definition failure_of (kind : string) (rest : RuntimeFailure) : RuntimeFailure :=
  (js "kind", JStr (js kind)) :: rest.

Definition outcome_json (o : ProviderDispatchOutcome) : jsval :=
  match o with
  | PSuccess v => JObj [(js "kind", JStr (js "success")); (js "value", v)]
  | PDomain v => JObj [(js "kind", JStr (js "domain")); (js "value", v)]
  | PRuntime f => JObj [(js "kind", JStr (js "runtime")); (js "failure", JObj f)]
  end.

(** ** [validateDescriptor] *)

Definition hex_unit (c : N) : bool := (48 <=? c)%N && (c <=? 57)%N || (97 <=? c)%N && (c <=? 102)%N.

(** [/^sha256:[0-9a-f]{64}$/u] *)
Definition digest_shape (s : jsstr) : bool :=
  starts_with (js "sha256:") s && (length s =? 71)%nat && forallb hex_unit (drop 7 s).

Definition repeats (l : list jsstr) : bool := negb (bool_decide (NoDup l)).

Definition empty (s : jsstr) : bool := bool_decide (s = []).

Definition validateDescriptor (d : Descriptor) : throws unit :=
  throw_if (empty (capability_id d) || empty (descriptor_version d) || bool_decide (operations d = []))
    (js "Capability Provider descriptor is incomplete");;
  throw_if (repeats (operations d))
    (js "Capability Provider " ++ capability_id d ++ js " declares duplicate Operations");;
  throw_if (match descriptor_digest d with Some s => negb (digest_shape s) | None => false end)
    (js "Capability Provider " ++ capability_id d ++ js " has an invalid descriptor digest");;
  match List.find (fun operation => negb (mem operation (operations d)))
          (stream_operations d ++ event_operations d) with
  | Some operation =>
      fail (js "Capability Provider " ++ capability_id d ++ js " classifies unknown Operation " ++ operation)
  | None => mret tt
  end.

(** ** Declarations *)

(** An entry of [provides]: a generated Capability value. *)
Record CapabilityContract := {
  cc_kind : jsstr;
  cc_descriptor : Descriptor;
  cc_bindProvider_is_function : bool }.

(** An entry of [providers]: a declaration ([kind] present) or a bare binding. *)
Record PluginProvider := { pp_kind : option jsstr; pp_descriptor : Descriptor }.

(** A value of the [dependencies] record. *)
Inductive raw_dependency :=
| NotAnObject
| LegacyBinding (descriptor : Descriptor)
| DependencyDeclaration (kind : jsstr) (id : option jsstr) (contract : Descriptor) (cardinality : jsval).

Record raw_config := { cfg_kind : jsstr; cfg_parse_is_function : bool; cfg_schema : jsval }.

Record PluginOptions := {
  opt_provides : option (list CapabilityContract);
  opt_providers : option (list PluginProvider);
  opt_dependencies : option (list (jsstr * raw_dependency));
  opt_config : option raw_config;
  opt_configurationSchema : option jsval;
  opt_has_decodeConfig : bool;
  opt_has_create : bool;
  opt_has_stop : bool;
  opt_maxConcurrentRequests : jsval }.

Record PluginDefinition := {
  def_providers : list PluginProvider;
  def_dependencies : option (list (jsstr * raw_dependency));
  def_config : option raw_config;
  def_configurationSchema : option jsval;
  def_has_decodeConfig : bool;
  def_has_create : bool;
  def_has_stop : bool;
  def_maxConcurrentRequests : Z }.

Definition DEFAULT_MAX_CONCURRENT_REQUESTS : Z := 32.

(** [dependency({ id, contract, cardinality })] *)
Definition dependency (id : jsstr) (contract : Descriptor) (cardinality : option jsstr)
  : throws raw_dependency :=
  throw_if (empty id) (js "dependency id must not be empty");;
  mret (DependencyDeclaration (js "lenso.dependency") (Some id) contract
          (JStr (default (js "one") cardinality))).

(** A JSON Schema: a boolean or a plain object. *)
Definition schema_shape (v : jsval) : bool :=
  match v with JBool _ | JObj _ => true | _ => false end.

(** [configuration(schema, parse)] *)
Definition configuration (schema : jsval) : throws raw_config :=
  throw_if (negb (schema_shape schema)) (js "configuration schema must be a JSON Schema object or boolean");;
  mret {| cfg_kind := js "lenso.config"; cfg_parse_is_function := true; cfg_schema := schema |}.

(** [provider(descriptor, bind)] *)
Definition provider (d : Descriptor) : PluginProvider :=
  {| pp_kind := Some (js "lenso.provider"); pp_descriptor := d |}.

(** A generated Capability value as a provider declaration. *)
Definition provided (contract : CapabilityContract) (_ : nat) : throws PluginProvider :=
  throw_if (negb (bool_decide (cc_kind contract = js "lenso.capability")) ||
            negb (cc_bindProvider_is_function contract))
    (js "provides entries must be generated Capability contracts");;
  mret (provider (cc_descriptor contract)).

Definition check_provider (seen : list jsstr) (p : PluginProvider) : throws (list jsstr) :=
  validateDescriptor (pp_descriptor p);;
  throw_if (mem (capability_id (pp_descriptor p)) seen)
    (js "duplicate Capability Provider " ++ capability_id (pp_descriptor p));;
  mret (capability_id (pp_descriptor p) :: seen).

Definition cardinality_shape (c : jsval) : bool :=
  is_str c "one" || is_str c "optional" || is_str c "many".

Definition check_dependency (dependencyIds : list jsstr) (entry : jsstr * raw_dependency)
  : throws (list jsstr) :=
  let '(name, raw) := entry in
  throw_if (empty name) (js "dependency name must not be empty");;
  match raw with
  | NotAnObject => fail (js "dependency " ++ name ++ js " is invalid")
  | LegacyBinding descriptor => validateDescriptor descriptor;; mret dependencyIds
  | DependencyDeclaration kind id contract cardinality =>
      throw_if (negb (bool_decide (kind = js "lenso.dependency")))
        (js "dependency " ++ name ++ js " is not a dependency(...) declaration");;
      let dependencyId := default name id in
      throw_if (empty dependencyId) (js "dependency id must not be empty");;
      throw_if (mem dependencyId dependencyIds) (js "duplicate dependency id " ++ dependencyId);;
      validateDescriptor contract;;
      throw_if (negb (cardinality_shape cardinality))
        (js "dependency " ++ dependencyId ++ js " has invalid cardinality " ++ to_string cardinality);;
      mret (dependencyId :: dependencyIds)
  end.

Definition definePlugin (options : PluginOptions) : throws PluginDefinition :=
  providers ← (match opt_provides options, opt_providers options with
               | Some provides, None => mapi_res provided 0 provides
               | None, Some providers => mret providers
               | _, _ => fail (js "definePlugin requires exactly one of provides or providers")
               end);
  foldM_res check_provider [] providers;;
  match opt_dependencies options with
  | Some entries => foldM_res check_dependency [] entries
  | None => mret []
  end;;
  throw_if (match opt_config options with
            | Some c => negb (bool_decide (cfg_kind c = js "lenso.config"))
                        || negb (cfg_parse_is_function c) || negb (schema_shape (cfg_schema c))
            | None => false
            end) (js "config must be a configuration(...) declaration");;
  maxConcurrentRequests ←
    (match opt_maxConcurrentRequests options with
     | JUndef | JNull => mret DEFAULT_MAX_CONCURRENT_REQUESTS
     | JNum x => match safe_int x with
                 | Some z => if (z <=? 0)%Z
                             then fail (js "maxConcurrentRequests must be a positive safe integer")
                             else mret z
                 | None => fail (js "maxConcurrentRequests must be a positive safe integer")
                 end
     | _ => fail (js "maxConcurrentRequests must be a positive safe integer")
     end);
  throw_if (match opt_configurationSchema options with Some s => negb (schema_shape s) | None => false end)
    (js "configurationSchema must be a JSON Schema object or boolean");;
  mret {| def_providers := providers; def_dependencies := opt_dependencies options;
          def_config := opt_config options;
          def_configurationSchema := opt_configurationSchema options;
          def_has_decodeConfig := opt_has_decodeConfig options;
          def_has_create := opt_has_create options; def_has_stop := opt_has_stop options;
          def_maxConcurrentRequests := maxConcurrentRequests |}.

(** ** Reading a definition *)

Definition instance_bound (p : PluginProvider) : bool := bool_decide (pp_kind p = Some (js "lenso.provider")).

Definition concreteProviders (providers : list PluginProvider) : throws (list PluginProvider) :=
  let declarations := List.filter instance_bound providers in
  throw_if (0 <? length declarations)%nat
    (js "instance-bound providers require the Bun runtime profile v2");;
  mret providers.

Record DependencyDefinition := {
  dd_requirementId : jsstr; dd_binding : Descriptor; dd_cardinality : jsval }.

(** [dependencyDefinition(name, raw)] on the entries [definePlugin] accepted. *)
Definition dependencyDefinition (name : jsstr) (raw : raw_dependency) : option DependencyDefinition :=
  match raw with
  | DependencyDeclaration _ id contract cardinality =>
      Some {| dd_requirementId := default name id; dd_binding := contract; dd_cardinality := cardinality |}
  | LegacyBinding d =>
      Some {| dd_requirementId := name; dd_binding := d; dd_cardinality := JStr (js "one") |}
  | NotAnObject => None
  end.

(** The dependencies of a definition, in declaration order. *)
Definition definition_dependencies (d : PluginDefinition) : list (jsstr * DependencyDefinition) :=
  omap (fun '(name, raw) => pair name <$> dependencyDefinition name raw) (default [] (def_dependencies d)).

Record RequiredCapability := {
  rc_requirement_id : jsstr; rc_capability_id : jsstr; rc_descriptor_version : jsstr; rc_cardinality : jsval }.

Record PortableCapability := {
  pc_capability_id : jsstr; pc_descriptor_version : jsstr; pc_request_operations : list jsstr }.

Record PortablePluginDescriptor := {
  ppd_configuration_schema : option jsval;
  ppd_capabilities : list PortableCapability;
  ppd_required_capabilities : list RequiredCapability }.

Definition describePortablePlugin (d : PluginDefinition) : throws PortablePluginDescriptor :=
  providers ← concreteProviders (def_providers d);
  mret {| ppd_configuration_schema := def_configurationSchema d;
          ppd_capabilities := map (fun p =>
            {| pc_capability_id := capability_id (pp_descriptor p);
               pc_descriptor_version := descriptor_version (pp_descriptor p);
               pc_request_operations := operations (pp_descriptor p) |}) providers;
          ppd_required_capabilities := map (fun '(name, dep) =>
            {| rc_requirement_id := dd_requirementId dep;
               rc_capability_id := capability_id (dd_binding dep);
               rc_descriptor_version := descriptor_version (dd_binding dep);
               rc_cardinality := dd_cardinality dep |}) (definition_dependencies d) |}.

Section portable.
(** The authored provider code, and the engine's message for malformed JSON. *)
Variable invokeRequest : PluginProvider → jsstr → jsval → completion ProviderDispatchOutcome.
Variable syntax_message : jsstr → jsstr.

Definition invokePortablePlugin (d : PluginDefinition) (capability operation requestJson : jsstr)
  : throws jsstr :=
  providers ← concreteProviders (def_providers d);
  match List.find (fun p => bool_decide (capability_id (pp_descriptor p) = capability)) providers with
  | None => fail (js "unknown capability " ++ capability)
  | Some p =>
      match json_parse requestJson with
      | None => fail (syntax_message requestJson)
      | Some payload =>
          match invokeRequest p operation payload with
          | Threw e => Throw e
          | Returned (PSuccess value) => mret (json_text (JObj [(js "ok", value)]))
          | Returned (PDomain value) => mret (json_text (JObj [(js "error", value)]))
          | Returned (PRuntime failure) =>
              fail (js "Plugin runtime failure: " ++ to_string (field failure "kind"))
          end
      end
  end.
End portable.

(** ** Endpoints *)

Fixpoint sameStrings (ls rs : list jsstr) : bool :=
  match ls, rs with
  | [], [] => true
  | l :: ls, r :: rs => bool_decide (l = r) && sameStrings ls rs
  | _, _ => false
  end.

Definition sameEndpoint (l r : Descriptor) : bool :=
  bool_decide (capability_id l = capability_id r) &&
  bool_decide (descriptor_version l = descriptor_version r) &&
  sameStrings (operations l) (operations r) &&
  sameStrings (stream_operations l) (stream_operations r) &&
  sameStrings (event_operations l) (event_operations r).

Fixpoint sameEndpoints (ls rs : list Descriptor) : bool :=
  match ls, rs with
  | [], [] => true
  | l :: ls, r :: rs => sameEndpoint l r && sameEndpoints ls rs
  | _, _ => false
  end.

(** ** Host imports *)

Record ImportDescriptor := { imp_requirement_id : jsstr; imp_descriptor : Descriptor }.

Record ActivationRequest := {
  act_session : jsval;
  act_configuration : jsval;
  act_imports_url : jsval;
  act_imports_token : jsval;
  act_imports : option (list ImportDescriptor) }.

(** What a bound client is created for: the dependency name and the import every
    call of the client names. *)
Record BoundImport := { bi_name : jsstr; bi_import : ImportDescriptor }.

Definition valid_activation_data (a : ActivationRequest) : option (list ImportDescriptor) :=
  match act_imports_url a, act_imports_token a, act_imports a with
  | JStr url, JStr token, Some imports =>
      if starts_with (js "http://127.0.0.1:") url && (16 <=? length token)%nat then Some imports else None
  | _, _, _ => None
  end.

(** [new Map(imports.map((d) => [d.requirement_id, d])).get(id)]: the last one. *)
Definition admitted_import (imports : list ImportDescriptor) (id : jsstr) : option ImportDescriptor :=
  List.find (fun d => bool_decide (imp_requirement_id d = id)) (rev imports).

(** [admittedByCapability.get(capability)] when it holds exactly one import. *)
Definition sole_import (imports : list ImportDescriptor) (capability : jsstr) : option ImportDescriptor :=
  match List.filter (fun d => bool_decide (capability_id (imp_descriptor d) = capability)) imports with
  | [d] => Some d
  | _ => None
  end.

Definition bind_import (imports : list ImportDescriptor) (claimed_bound : list jsstr * list BoundImport)
    (entry : jsstr * DependencyDefinition) : throws (list jsstr * list BoundImport) :=
  let '(claimed, bound) := claimed_bound in
  let '(name, dep) := entry in
  throw_if (negb (is_str (dd_cardinality dep) "one"))
    (js "legacy Bun activation does not support " ++ to_string (dd_cardinality dep) ++
     js " dependency " ++ dd_requirementId dep);;
  let candidate := match admitted_import imports (dd_requirementId dep) with
                   | Some d => Some d
                   | None => sole_import imports (capability_id (dd_binding dep))
                   end in
  match candidate with
  | Some d =>
      throw_if (negb (sameEndpoints [imp_descriptor d] [dd_binding dep]))
        (js "Host did not admit dependency " ++ name);;
      throw_if (mem (imp_requirement_id d) claimed)
        (js "Host import " ++ imp_requirement_id d ++ js " was claimed more than once");;
      mret (imp_requirement_id d :: claimed, bound ++ [{| bi_name := name; bi_import := d |}])
  | None => fail (js "Host did not admit dependency " ++ name)
  end.

Definition createDependencyClients (d : PluginDefinition) (a : ActivationRequest) : throws (list BoundImport) :=
  match valid_activation_data a with
  | None => fail (js "Host imports activation data is invalid")
  | Some imports => snd <$> foldM_res (bind_import imports) ([], []) (definition_dependencies d)
  end.

(** The identifier of the next import request: [1] follows the largest one. *)
Definition next_import_id (requestId : Z) : Z :=
  if (MAX_SAFE_INTEGER <=? requestId)%Z then 1 else requestId + 1.

(** How the Host answers the HTTP request of an import call. *)
Inductive import_response :=
| ImportStatus (status : Z)
| ImportBody (result : option ProviderDispatchOutcome).

(** What a client passes on of the calling invocation's context; [JUndef] where a
    property is absent, which [JSON.stringify] leaves out. *)
Record CallContext := {
  call_deadlineNanos : jsval; call_callerInstance : jsval; call_wireExtensions : jsval }.

(** One call of a bound client: the request it posts, if any, and its outcome
    given the response.  [next] is the shared identifier counter. *)
Definition import_call (i : ImportDescriptor) (operation : jsstr) (context : CallContext) (payload : jsval)
    (next : Z) (response : import_response) : Z * option jsval * ProviderDispatchOutcome :=
  let next' := next_import_id next in
  if negb (mem operation (operations (imp_descriptor i))) then
    (next', None, PRuntime (failure_of "unknown_operation" [(js "operation", JStr operation)]))
  else
    let posted := JObj [
      (js "jsonrpc", JStr (js "2.0")); (js "id", JNum (num next)); (js "method", JStr (js "lenso.import"));
      (js "params", JArr [JObj [
        (js "request_id", JNum (num next)); (js "requirement_id", JStr (imp_requirement_id i));
        (js "capability_id", JStr (capability_id (imp_descriptor i))); (js "operation", JStr operation);
        (js "deadline_nanos", call_deadlineNanos context);
        (js "caller_instance", call_callerInstance context);
        (js "extensions", call_wireExtensions context);
        (js "payload", payload)]])] in
    let outcome :=
      match response with
      | ImportStatus status =>
          PRuntime (failure_of "plugin_failure"
            [(js "detail", JStr (js "Host import returned HTTP " ++ dec status))])
      | ImportBody (Some o) => o
      | ImportBody None => PRuntime (failure_of "protocol_violation" [])
      end in
    (next', Some posted, outcome).

(** ** Which descriptors are admitted *)

Record valid_descriptor (d : Descriptor) : Prop := {
  vd_id : capability_id d ≠ [];
  vd_version : descriptor_version d ≠ [];
  vd_operations : operations d ≠ [];
  vd_distinct : NoDup (operations d);
  vd_digest : ∀ s, descriptor_digest d = Some s → digest_shape s = true;
  vd_streams : ∀ o, o ∈ stream_operations d → o ∈ operations d;
  vd_events : ∀ o, o ∈ event_operations d → o ∈ operations d }.

Lemma throw_if_Ok c m u : throw_if c m = Ok u ↔ c = false.
Proof. apply refuse_Ok. Qed.

Lemma fail_Ok {A} m (a : A) : fail m = Ok a ↔ False.
Proof. unfold fail. by split. Qed.

Lemma empty_false s : empty s = false ↔ s ≠ [].
Proof. apply bool_decide_eq_false. Qed.

Lemma repeats_false l : repeats l = false ↔ NoDup l.
Proof. unfold repeats. rewrite negb_false_iff. apply bool_decide_eq_true. Qed.

Lemma find_None_iff {A} (p : A → bool) l : List.find p l = None ↔ ∀ x, x ∈ l → p x = false.
Proof.
  split; [intros H x; rewrite list_elem_of_In; by apply List.find_none|].
  induction l as [|x l IH]; cbn; [done|]. intros H.
  rewrite (H x) by (by left). apply IH. intros y Hy. apply H. by right.
Qed.

Lemma find_Some_iff {A} (p : A → bool) l x : List.find p l = Some x → x ∈ l ∧ p x = true.
Proof. intros H%List.find_some. by rewrite list_elem_of_In. Qed.

Lemma unclassified_iff d :
  List.find (fun o => negb (mem o (operations d))) (stream_operations d ++ event_operations d) = None ↔
  (∀ o, o ∈ stream_operations d → o ∈ operations d) ∧ (∀ o, o ∈ event_operations d → o ∈ operations d).
Proof.
  rewrite find_None_iff. setoid_rewrite negb_false_iff. setoid_rewrite mem_true.
  setoid_rewrite elem_of_app. naive_solver.
Qed.

Lemma digest_check_iff d :
  match descriptor_digest d with Some s => negb (digest_shape s) | None => false end = false ↔
  ∀ s, descriptor_digest d = Some s → digest_shape s = true.
Proof. destruct (descriptor_digest d); [rewrite negb_false_iff|]; naive_solver. Qed.

(** The validator accepts exactly the valid descriptors. *)
Lemma validateDescriptor_Ok d u : validateDescriptor d = Ok u ↔ valid_descriptor d.
Proof.
  unfold validateDescriptor. destruct u. rewrite !bind_Ok. split.
  - intros (_ & H1%throw_if_Ok & (_ & H2%throw_if_Ok & (_ & H3%throw_if_Ok & H4)%bind_Ok)%bind_Ok).
    apply orb_false_iff in H1 as [[H1a H1b]%orb_false_iff H1c].
    destruct (List.find _ _) eqn:Hf; [done|].
    apply unclassified_iff in Hf as [? ?]. constructor; try done.
    + by apply empty_false.
    + by apply empty_false.
    + by apply bool_decide_eq_false in H1c.
    + by apply repeats_false.
    + by apply digest_check_iff.
  - intros []. exists tt. split.
    { apply throw_if_Ok. rewrite !orb_false_iff, !empty_false. by rewrite bool_decide_eq_false. }
    rewrite bind_Ok. exists tt. split; [by apply throw_if_Ok, repeats_false|].
    rewrite bind_Ok. exists tt. split; [by apply throw_if_Ok, digest_check_iff|].
    by rewrite (proj2 (unclassified_iff d)).
Qed.

(** ** Which definitions are admitted *)

(** The providers an options object stands for. *)
Definition declared_providers (options : PluginOptions) : option (list PluginProvider) :=
  match opt_provides options, opt_providers options with
  | Some provides, None => Some (map (fun c => provider (cc_descriptor c)) provides)
  | None, Some providers => Some providers
  | _, _ => None
  end.

Definition generated_contract (c : CapabilityContract) : Prop :=
  cc_kind c = js "lenso.capability" ∧ cc_bindProvider_is_function c = true.

(** The requirement identifier a [dependency(...)] declaration claims; a legacy
    binding claims none. *)
Definition claimed_id (entry : jsstr * raw_dependency) : option jsstr :=
  match entry.2 with
  | DependencyDeclaration _ id _ _ => Some (default entry.1 id)
  | _ => None
  end.

Definition admissible_dependency (entry : jsstr * raw_dependency) : Prop :=
  entry.1 ≠ [] ∧
  match entry.2 with
  | NotAnObject => False
  | LegacyBinding d => valid_descriptor d
  | DependencyDeclaration kind id contract cardinality =>
      kind = js "lenso.dependency" ∧ default entry.1 id ≠ [] ∧ valid_descriptor contract ∧
      cardinality_shape cardinality = true
  end.

Record admissible (options : PluginOptions) (d : PluginDefinition) : Prop := {
  adm_providers : declared_providers options = Some (def_providers d);
  adm_contracts : ∀ l c, opt_provides options = Some l → c ∈ l → generated_contract c;
  adm_descriptors : ∀ p, p ∈ def_providers d → valid_descriptor (pp_descriptor p);
  adm_distinct : NoDup (map (fun p => capability_id (pp_descriptor p)) (def_providers d));
  adm_dependencies : ∀ e, e ∈ default [] (opt_dependencies options) → admissible_dependency e;
  adm_requirements : NoDup (omap claimed_id (default [] (opt_dependencies options)));
  adm_config : ∀ c, opt_config options = Some c →
    cfg_kind c = js "lenso.config" ∧ cfg_parse_is_function c = true ∧ schema_shape (cfg_schema c) = true;
  adm_schema : ∀ s, opt_configurationSchema options = Some s → schema_shape s = true;
  adm_limit :
    match opt_maxConcurrentRequests options with
    | JUndef | JNull => def_maxConcurrentRequests d = DEFAULT_MAX_CONCURRENT_REQUESTS
    | JNum x => safe_int x = Some (def_maxConcurrentRequests d) ∧ (0 < def_maxConcurrentRequests d)%Z
    | _ => False
    end;
  adm_kept : def_dependencies d = opt_dependencies options ∧ def_config d = opt_config options ∧
    def_configurationSchema d = opt_configurationSchema options ∧
    def_has_decodeConfig d = opt_has_decodeConfig options ∧
    def_has_create d = opt_has_create options ∧ def_has_stop d = opt_has_stop options }.

(** Checking a list against a growing set of seen keys. *)
Lemma foldM_distinct {A} (f : list jsstr → A → throws (list jsstr)) (key : A → option jsstr) (P : A → Prop) l :
  (∀ seen x seen', f seen x = Ok seen' ↔
     P x ∧ match key x with
           | Some k => (k ∉ seen) ∧ seen' = k :: seen
           | None => seen' = seen
           end) →
  ∀ seen, (∃ r, foldM_res f seen l = Ok r) ↔
    (∀ x, x ∈ l → P x) ∧ NoDup (omap key l) ∧ (∀ k, k ∈ omap key l → k ∉ seen).
Proof.
  intros Hf. induction l as [|x l IH]; intros seen; cbn [foldM_res].
  { split; [|by eexists]. intros _. split_and!; [by intros ? ?%elem_of_nil|constructor|by intros ? ?%elem_of_nil]. }
  setoid_rewrite bind_Ok. change (omap key (x :: l)) with
    (match key x with Some y => y :: omap key l | None => omap key l end).
  split.
  - intros (r & seen' & [HP Hk]%Hf & Hrest).
    destruct (proj1 (IH seen') (ex_intro _ r Hrest)) as (Hall & Hnd & Hns).
    split; [intros y [->|?]%elem_of_cons; auto|].
    destruct (key x) as [k|]; [destruct Hk as [Hk ->]|subst; done].
    split; [constructor; [intros Hin; by apply (Hns k Hin); left|done]|].
    intros k' [->|Hin]%elem_of_cons; [done|]. intros Hs. apply (Hns k' Hin). by right.
  - intros (Hall & Hnd & Hns).
    assert (∃ seen', f seen x = Ok seen' ∧ NoDup (omap key l) ∧ (∀ k, k ∈ omap key l → k ∉ seen'))
      as (seen' & Hfx & Hnd' & Hns').
    { destruct (key x) as [k|] eqn:Hk.
      - apply NoDup_cons in Hnd as [Hkn Hnd]. exists (k :: seen). split; [apply Hf|].
        { rewrite Hk. split; [apply Hall; by left|]. split; [apply Hns; by left|done]. }
        split; [done|]. intros k' Hin [->|Hin']%elem_of_cons; [done|]. apply (Hns k'); [by right|done].
      - exists seen. split; [apply Hf; rewrite Hk; split; [apply Hall; by left|done]|done]. }
    destruct (proj2 (IH seen')) as [r Hr]; [|by exists r, seen'].
    split; [|done]. intros y Hy. apply Hall. by right.
Qed.

Lemma guard_Ok {A} c m (k : throws A) r : (throw_if c m;; k) = Ok r ↔ c = false ∧ k = Ok r.
Proof. rewrite bind_Ok. setoid_rewrite throw_if_Ok. split; [by intros (_ & ? & ?)|]. intros []. by exists tt. Qed.

Lemma validate_Ok {A} d (k : throws A) r :
  (validateDescriptor d;; k) = Ok r ↔ valid_descriptor d ∧ k = Ok r.
Proof.
  rewrite bind_Ok. setoid_rewrite validateDescriptor_Ok.
  split; [by intros (_ & ? & ?)|]. intros []. by exists tt.
Qed.

Lemma check_provider_Ok seen p seen' :
  check_provider seen p = Ok seen' ↔
  valid_descriptor (pp_descriptor p) ∧ (capability_id (pp_descriptor p) ∉ seen) ∧
  seen' = capability_id (pp_descriptor p) :: seen.
Proof.
  unfold check_provider. rewrite validate_Ok, guard_Ok, ret_Ok, mem_false. naive_solver.
Qed.

Lemma check_dependency_Ok ids e ids' :
  check_dependency ids e = Ok ids' ↔
  admissible_dependency e ∧
  match claimed_id e with Some k => (k ∉ ids) ∧ ids' = k :: ids | None => ids' = ids end.
Proof.
  destruct e as [name [|d|kind id contract cardinality]]; unfold check_dependency, admissible_dependency, claimed_id;
    cbn [fst snd]; rewrite guard_Ok, empty_false.
  - rewrite fail_Ok. naive_solver.
  - rewrite validate_Ok, ret_Ok. naive_solver.
  - rewrite !guard_Ok, validate_Ok, guard_Ok, ret_Ok, mem_false, empty_false, !negb_false_iff, bool_decide_eq_true.
    naive_solver.
Qed.

Lemma provided_Ok c i p :
  provided c i = Ok p ↔ generated_contract c ∧ p = provider (cc_descriptor c).
Proof.
  unfold provided, generated_contract.
  rewrite guard_Ok, orb_false_iff, !negb_false_iff, bool_decide_eq_true, ret_Ok. naive_solver.
Qed.

Lemma provided_all_Ok l i ps :
  mapi_res provided i l = Ok ps ↔
  (∀ c, c ∈ l → generated_contract c) ∧ ps = map (fun c => provider (cc_descriptor c)) l.
Proof.
  revert i ps; induction l as [|c l IH]; intros i ps; cbn [mapi_res].
  { rewrite ret_Ok. split; [|by intros [_ ->]]. intros <-. split; [by intros ? ?%elem_of_nil|done]. }
  cbn [map]. setoid_rewrite elem_of_cons. split.
  - intros (y & [? ->]%provided_Ok & (ys & [? ->]%IH & <-%ret_Ok)%bind_Ok)%bind_Ok.
    split; [|done]. intros c' [->|?]; auto.
  - intros [Hall ->]. rewrite bind_Ok. eexists. split; [apply provided_Ok; split; [|done]; by apply Hall; left|].
    rewrite bind_Ok. eexists. split; [apply IH; split; [|done]; by eauto|done].
Qed.

(** The provider list [definePlugin] settles on. *)
Lemma providers_Ok options ps :
  (match opt_provides options, opt_providers options with
   | Some provides, None => mapi_res provided 0 provides
   | None, Some providers => mret providers
   | _, _ => fail (js "definePlugin requires exactly one of provides or providers")
   end) = Ok ps ↔
  declared_providers options = Some ps ∧
  ∀ l c, opt_provides options = Some l → c ∈ l → generated_contract c.
Proof.
  unfold declared_providers. destruct (opt_provides options) as [l|], (opt_providers options) as [l'|].
  - rewrite fail_Ok. naive_solver.
  - rewrite provided_all_Ok. naive_solver.
  - rewrite ret_Ok. naive_solver.
  - rewrite fail_Ok. naive_solver.
Qed.

Lemma check_providers_Ok ps :
  (∃ r, foldM_res check_provider [] ps = Ok r) ↔
  (∀ p, p ∈ ps → valid_descriptor (pp_descriptor p)) ∧
  NoDup (map (fun p => capability_id (pp_descriptor p)) ps).
Proof.
  rewrite (foldM_distinct _ (fun p => Some (capability_id (pp_descriptor p)))
             (fun p => valid_descriptor (pp_descriptor p))).
  - assert (∀ l, omap (fun p => Some (capability_id (pp_descriptor p))) l =
              map (fun p => capability_id (pp_descriptor p)) l) as ->.
    { intros l. induction l as [|x l IH]; cbn; [done|]. by f_equal. }
    split; [intros (? & ? & _); done|]. intros [? ?]. split; [done|]. split; [done|]. by intros ? _ ?%elem_of_nil.
  - apply check_provider_Ok.
Qed.

Lemma check_dependencies_Ok (o : option (list (jsstr * raw_dependency))) :
  (∃ r, match o with Some entries => foldM_res check_dependency [] entries | None => mret [] end = Ok r) ↔
  (∀ e, e ∈ default [] o → admissible_dependency e) ∧ NoDup (omap claimed_id (default [] o)).
Proof.
  destruct o as [entries|]; cbn [default].
  - rewrite (foldM_distinct _ claimed_id admissible_dependency); [|apply check_dependency_Ok].
    split; [intros (? & ? & _); done|]. intros [? ?]. split; [done|]. split; [done|]. by intros ? _ ?%elem_of_nil.
  - split; [|by eexists]. intros _. split; [by intros ? ?%elem_of_nil|constructor].
Qed.

Lemma config_check_iff (c : option raw_config) :
  match c with
  | Some c => negb (bool_decide (cfg_kind c = js "lenso.config"))
              || negb (cfg_parse_is_function c) || negb (schema_shape (cfg_schema c))
  | None => false
  end = false ↔
  ∀ c', c = Some c' → cfg_kind c' = js "lenso.config" ∧ cfg_parse_is_function c' = true ∧
                      schema_shape (cfg_schema c') = true.
Proof.
  destruct c as [c|]; [|naive_solver].
  rewrite !orb_false_iff, !negb_false_iff, bool_decide_eq_true. naive_solver.
Qed.

(** The limit [definePlugin] settles on. *)
Lemma limit_Ok v z :
  (match v with
   | JUndef | JNull => mret DEFAULT_MAX_CONCURRENT_REQUESTS
   | JNum x => match safe_int x with
               | Some z => if (z <=? 0)%Z
                           then fail (js "maxConcurrentRequests must be a positive safe integer")
                           else mret z
               | None => fail (js "maxConcurrentRequests must be a positive safe integer")
               end
   | _ => fail (js "maxConcurrentRequests must be a positive safe integer")
   end) = Ok z ↔
  match v with
  | JUndef | JNull => z = DEFAULT_MAX_CONCURRENT_REQUESTS
  | JNum x => safe_int x = Some z ∧ (0 < z)%Z
  | _ => False
  end.
Proof.
  destruct v; rewrite ?fail_Ok, ?ret_Ok; [naive_solver..| |naive_solver|naive_solver|naive_solver|naive_solver].
  destruct (safe_int _) as [z'|] eqn:Hz; [|rewrite fail_Ok; naive_solver].
  destruct (Z.leb_spec z' 0); rewrite ?fail_Ok, ?ret_Ok; naive_solver lia.
Qed.

(** C33: [definePlugin] returns exactly the admissible definitions: one of
    [provides] and [providers], every descriptor valid and no capability provided
    twice, every dependency valid and no requirement identifier declared twice,
    a well-formed configuration, and a positive safe limit (32 when absent). *)
Theorem define_plugin_exact options d : definePlugin options = Ok d ↔ admissible options d.
Proof.
  unfold definePlugin. rewrite bind_Ok. setoid_rewrite providers_Ok. split.
  - intros (ps & [Hps Hc] & (r & Hp & (r' & Hd & Hrest)%bind_Ok)%bind_Ok).
    apply guard_Ok in Hrest as [Hcfg Hrest]. apply bind_Ok in Hrest as (z & Hz%limit_Ok & Hrest).
    apply guard_Ok in Hrest as [Hs <-%ret_Ok].
    destruct (proj1 (check_providers_Ok _) (ex_intro _ _ Hp)).
    destruct (proj1 (check_dependencies_Ok _) (ex_intro _ _ Hd)).
    constructor; cbn; try done.
    + by apply config_check_iff.
    + intros s Hs'. by rewrite Hs', negb_false_iff in Hs.
  - intros [Hps Hc Hv Hnd Hdep Hreq Hcfg Hs Hz (? & ? & ? & ? & ? & ?)]. eexists; split; [done|].
    destruct (proj2 (check_providers_Ok _) (conj Hv Hnd)) as [r Hr].
    destruct (proj2 (check_dependencies_Ok _) (conj Hdep Hreq)) as [r' Hr'].
    rewrite bind_Ok. exists r; split; [done|]. rewrite bind_Ok. exists r'; split; [done|].
    apply guard_Ok. split; [by apply config_check_iff|].
    rewrite bind_Ok. exists (def_maxConcurrentRequests d). split; [by apply limit_Ok|].
    apply guard_Ok. split.
    + destruct (opt_configurationSchema options); [|done]. rewrite (Hs _ eq_refl). done.
    + destruct d; cbn in *; subst. done.
Qed.

(** ** The portable descriptor *)

Lemma instance_bound_true p : instance_bound p = true ↔ pp_kind p = Some (js "lenso.provider").
Proof. apply bool_decide_eq_true. Qed.

Lemma concreteProviders_Ok ps r :
  concreteProviders ps = Ok r ↔ r = ps ∧ ∀ p, p ∈ ps → pp_kind p ≠ Some (js "lenso.provider").
Proof.
  unfold concreteProviders. rewrite guard_Ok, ret_Ok, Nat.ltb_ge.
  assert (length (List.filter instance_bound ps) ≤ 0 ↔
          ∀ p, p ∈ ps → pp_kind p ≠ Some (js "lenso.provider")) as ->.
  2: { split; [by intros [? <-]|by intros [-> ?]]. }
  setoid_rewrite <- instance_bound_true. induction ps as [|p ps IH]; cbn.
  { split; [by intros _ ? ?%elem_of_nil|lia]. }
  setoid_rewrite elem_of_cons. destruct (instance_bound p) eqn:Hp; cbn; 
    [|rewrite IH; split; [intros H q [->|Hq]; [congruence|auto]|by auto]].
  split; [lia|]. intros H. destruct (H p); auto.
Qed.

Lemma dependencyDefinition_total name raw :
  admissible_dependency (name, raw) → ∃ dep, dependencyDefinition name raw = Some dep.
Proof. destruct raw; cbn; [by intros [_ []]|eauto..]. Qed.

Lemma definition_dependencies_length d :
  (∀ e, e ∈ default [] (def_dependencies d) → admissible_dependency e) →
  length (definition_dependencies d) = length (default [] (def_dependencies d)).
Proof.
  unfold definition_dependencies. generalize (default [] (def_dependencies d)) as l.
  induction l as [|[name raw] l IH]; intros H; [done|]. cbn.
  destruct (dependencyDefinition_total name raw) as [dep ->]; [apply H; by left|]. cbn. f_equal.
  apply IH. intros e He. apply H. by right.
Qed.

Lemma describe_Ok d :
  is_Ok (describePortablePlugin d) ↔ ∀ p, p ∈ def_providers d → pp_kind p ≠ Some (js "lenso.provider").
Proof.
  unfold is_Ok, describePortablePlugin. split.
  - by intros (? & (? & [_ ?]%concreteProviders_Ok & _)%bind_Ok).
  - intros H. eexists. rewrite bind_Ok. exists (def_providers d).
    split; [by apply concreteProviders_Ok|reflexivity].
Qed.

(** A definition can be described for the portable ABI exactly when no provider
    is instance-bound; a definition made with [provides] therefore only when it
    provides nothing, and the described capabilities are the provided ones, in order,
    with pairwise distinct identifiers. *)
Theorem portable_descriptor_exact options d :
  admissible options d →
  (is_Ok (describePortablePlugin d) ↔ ∀ p, p ∈ def_providers d → pp_kind p ≠ Some (js "lenso.provider")) ∧
  (opt_provides options ≠ None → is_Ok (describePortablePlugin d) → def_providers d = []) ∧
  (∀ r, describePortablePlugin d = Ok r →
     map pc_capability_id (ppd_capabilities r) = map (fun p => capability_id (pp_descriptor p)) (def_providers d) ∧
     NoDup (map pc_capability_id (ppd_capabilities r)) ∧
     length (ppd_required_capabilities r) = length (default [] (def_dependencies d))).
Proof.
  intros Hadm. split; [apply describe_Ok|]. split.
  - intros Hprov Hd. pose proof (proj1 (describe_Ok d) Hd) as Hk.
    pose proof (adm_providers _ _ Hadm) as Hps. unfold declared_providers in Hps.
    destruct (opt_provides options) as [[|c l]|], (opt_providers options); try done.
    { by injection Hps. }
    injection Hps as Hps. destruct (Hk (provider (cc_descriptor c))); [|done]. rewrite <- Hps. by left.
  - intros r (ps & [-> _]%concreteProviders_Ok & <-%ret_Ok)%bind_Ok. cbn.
    rewrite map_map. cbn. split; [done|]. split; [apply (adm_distinct _ _ Hadm)|].
    rewrite length_map. apply definition_dependencies_length.
    rewrite (proj1 (adm_kept _ _ Hadm)). apply (adm_dependencies _ _ Hadm).
Qed.

(** ** Endpoints and imports *)

(** What two endpoints must share: everything but the digest. *)
Definition undigested (d : Descriptor) : Descriptor :=
  {| capability_id := capability_id d; descriptor_version := descriptor_version d; descriptor_digest := None;
     operations := operations d; stream_operations := stream_operations d;
     event_operations := event_operations d |}.

Lemma sameStrings_true ls rs : sameStrings ls rs = true ↔ ls = rs.
Proof.
  revert rs; induction ls as [|l ls IH]; intros [|r rs]; cbn; try done.
  rewrite andb_true_iff, bool_decide_eq_true, IH. naive_solver.
Qed.

Lemma sameEndpoint_true l r : sameEndpoint l r = true ↔ undigested l = undigested r.
Proof.
  unfold sameEndpoint, undigested. rewrite !andb_true_iff, !bool_decide_eq_true, !sameStrings_true. split.
  - intros ((((? & ?) & ?) & ?) & ?). by f_equal.
  - by intros [= ? ? ? ? ?].
Qed.

Lemma sameEndpoints_true ls rs : sameEndpoints ls rs = true ↔ map undigested ls = map undigested rs.
Proof.
  revert rs; induction ls as [|l ls IH]; intros [|r rs]; cbn; try done.
  rewrite andb_true_iff, sameEndpoint_true, IH. split; [by intros [-> ->]|by intros [? ?]%cons_eq_inj].
Qed.

(** What a bound client relies on. *)
Record bound_to (imports : list ImportDescriptor) (entry : jsstr * DependencyDefinition) (b : BoundImport) : Prop := {
  bt_name : bi_name b = entry.1;
  bt_cardinality : dd_cardinality entry.2 = JStr (js "one");
  bt_admitted : bi_import b ∈ imports;
  bt_endpoint : undigested (imp_descriptor (bi_import b)) = undigested (dd_binding entry.2);
  bt_choice : admitted_import imports (dd_requirementId entry.2) = Some (bi_import b) ∨
              admitted_import imports (dd_requirementId entry.2) = None ∧
              List.filter (fun i => bool_decide (capability_id (imp_descriptor i) =
                                                 capability_id (dd_binding entry.2))) imports = [bi_import b] }.

Lemma admitted_import_spec imports id i :
  admitted_import imports id = Some i → i ∈ imports ∧ imp_requirement_id i = id.
Proof. intros [H1 H2]%find_Some_iff. by rewrite elem_of_rev in H1; apply bool_decide_eq_true in H2. Qed.

Lemma sole_import_spec imports c i :
  sole_import imports c = Some i ↔
  List.filter (fun d => bool_decide (capability_id (imp_descriptor d) = c)) imports = [i].
Proof. unfold sole_import. destruct (List.filter _ _) as [|? [|? ?]]; naive_solver. Qed.

Lemma is_str_true v s : is_str v s = true ↔ v = JStr (js s).
Proof.
  destruct v; cbn; try done. rewrite bool_decide_eq_true. split; [by intros ->|by intros [= ->]].
Qed.

Lemma bind_import_Ok imports claimed bound entry claimed' bound' :
  bind_import imports (claimed, bound) entry = Ok (claimed', bound') →
  ∃ b, bound' = bound ++ [b] ∧ claimed' = imp_requirement_id (bi_import b) :: claimed ∧
       (imp_requirement_id (bi_import b) ∉ claimed) ∧ bound_to imports entry b.
Proof.
  destruct entry as [name dep]. unfold bind_import.
  intros [Hcard%negb_false_iff%is_str_true H]%guard_Ok.
  destruct (match admitted_import imports (dd_requirementId dep) with Some d => Some d | None => _ end)
    as [i|] eqn:Hi; [|by apply fail_Ok in H].
  apply guard_Ok in H as [Hsame%negb_false_iff%sameEndpoints_true H].
  apply guard_Ok in H as [Hnew%mem_false [= <- <-]].
  eexists. split_and!; [done..|]. apply cons_eq_inj in Hsame as [Hsame _].
  assert (i ∈ imports ∧ (admitted_import imports (dd_requirementId dep) = Some i ∨
    admitted_import imports (dd_requirementId dep) = None ∧
    List.filter (fun i => bool_decide (capability_id (imp_descriptor i) = capability_id (dd_binding dep))) imports = [i]))
    as [Hin Hchoice].
  { destruct (admitted_import imports _) as [j|] eqn:Hj.
    - injection Hi as ->. split; [by apply admitted_import_spec in Hj as []|by left].
    - apply sole_import_spec in Hi. split; [|by right].
      assert (i ∈ [i]) as Hin by (by left). rewrite <- Hi in Hin.
      rewrite list_elem_of_In in Hin. apply List.filter_In in Hin as [? _]. by rewrite list_elem_of_In. }
  constructor; cbn; done.
Qed.

(** C38: activation binds every declared dependency, in order, to an import the Host
    listed: the one carrying the declared requirement identifier, or else the only
    one of the declared capability, with the declared endpoint; and no import serves
    two dependencies. *)
Theorem dependency_clients_sound d a bound :
  createDependencyClients d a = Ok bound →
  ∃ imports, valid_activation_data a = Some imports ∧
    Forall2 (bound_to imports) (definition_dependencies d) bound ∧
    NoDup (map (fun b => imp_requirement_id (bi_import b)) bound).
Proof.
  unfold createDependencyClients. destruct (valid_activation_data a) as [imports|]; [|by intros ?%fail_Ok].
  destruct (foldM_res _ _ _) as [[claimed bound']|e] eqn:Hf; cbn; [|done]. intros [= ->].
  exists imports. split; [done|].
  eapply (foldM_res_inv (bind_import imports) (fun pre '(claimed, bound) =>
    claimed = rev (map (fun b => imp_requirement_id (bi_import b)) bound) ∧
    Forall2 (bound_to imports) pre bound ∧
    NoDup (map (fun b => imp_requirement_id (bi_import b)) bound))) in Hf as (_ & ? & ?); [done|..].
  - split; [done|]. split; constructor.
  - intros pre x [c1 b1] [c2 b2] (-> & H2 & Hnd) _ (b & -> & -> & Hnew & Hb)%bind_import_Ok.
    rewrite map_app, rev_app_distr. cbn. split; [done|]. split; [by apply Forall2_app; auto|].
    apply NoDup_app. split_and!; [done| |apply NoDup_singleton].
    intros y Hy Hy'. apply list_elem_of_singleton in Hy' as ->. apply Hnew. by apply elem_of_rev.
Qed.

(** The identifiers of the import calls of an activation run through 1 .. 2^53-1
    and start over: the n-th one is 1 + n mod (2^53-1), a safe integer, so two calls
    share an identifier only when 2^53-1 calls lie between them. *)
Theorem import_ids_cycle (n : nat) :
  Nat.iter n next_import_id 1%Z = (1 + Z.of_nat n mod MAX_SAFE_INTEGER)%Z ∧
  safe_int (num (Nat.iter n next_import_id 1%Z)) = Some (Nat.iter n next_import_id 1%Z).
Proof.
  assert (Nat.iter n next_import_id 1%Z = (1 + Z.of_nat n mod MAX_SAFE_INTEGER)%Z) as ->.
  { induction n as [|n IH]; [done|]. rewrite Nat.iter_succ, IH. unfold next_import_id.
    rewrite Nat2Z.inj_succ, <- Z.add_1_r.
    pose proof (Z.mod_pos_bound (Z.of_nat n) MAX_SAFE_INTEGER eq_refl).
    rewrite (Z.div_mod (Z.of_nat n) MAX_SAFE_INTEGER) at 3 by done.
    destruct (Z.leb_spec MAX_SAFE_INTEGER (1 + Z.of_nat n mod MAX_SAFE_INTEGER)).
    - replace (MAX_SAFE_INTEGER * (Z.of_nat n / MAX_SAFE_INTEGER) + Z.of_nat n mod MAX_SAFE_INTEGER + 1)%Z
        with ((Z.of_nat n / MAX_SAFE_INTEGER + 1) * MAX_SAFE_INTEGER)%Z by lia.
      by rewrite Z.mod_mul.
    - replace (MAX_SAFE_INTEGER * (Z.of_nat n / MAX_SAFE_INTEGER) + Z.of_nat n mod MAX_SAFE_INTEGER + 1)%Z
        with (Z.of_nat n mod MAX_SAFE_INTEGER + 1 + Z.of_nat n / MAX_SAFE_INTEGER * MAX_SAFE_INTEGER)%Z by lia.
      rewrite Z.mod_add by done.
      generalize dependent (Z.of_nat n mod MAX_SAFE_INTEGER)%Z. intros r ? ? ?. rewrite Z.mod_small; lia. }
  split; [done|]. apply safe_int_num.
  pose proof (Z.mod_pos_bound (Z.of_nat n) MAX_SAFE_INTEGER eq_refl). lia.
Qed.

(** ** A plugin with one provider and one dependency *)

Definition sample_descriptor (id : string) : Descriptor :=
  {| capability_id := js id; descriptor_version := js "1.0.0"; descriptor_digest := None;
     operations := [js "greet"]; stream_operations := []; event_operations := [] |}.

Definition sample_options : PluginOptions :=
  {| opt_provides := None;
     opt_providers := Some [{| pp_kind := None; pp_descriptor := sample_descriptor "a.b" |}];
     opt_dependencies := Some [(js "clock",
       DependencyDeclaration (js "lenso.dependency") None (sample_descriptor "c.d") (JStr (js "one")))];
     opt_config := None; opt_configurationSchema := None; opt_has_decodeConfig := false;
     opt_has_create := false; opt_has_stop := false; opt_maxConcurrentRequests := JUndef |}.

Definition sample_definition : PluginDefinition :=
  {| def_providers := [{| pp_kind := None; pp_descriptor := sample_descriptor "a.b" |}];
     def_dependencies := opt_dependencies sample_options; def_config := None; def_configurationSchema := None;
     def_has_decodeConfig := false; def_has_create := false; def_has_stop := false;
     def_maxConcurrentRequests := 32 |}.

Definition sample_import : ImportDescriptor :=
  {| imp_requirement_id := js "clock"; imp_descriptor := sample_descriptor "c.d" |}.

Definition sample_activation : ActivationRequest :=
  {| act_session := JUndef; act_configuration := JNull; act_imports_url := JStr (js "http://127.0.0.1:80/");
     act_imports_token := JStr (js "0123456789abcdef"); act_imports := Some [sample_import] |}.

Lemma sample_valid s : s ≠ EmptyString → valid_descriptor (sample_descriptor s).
Proof.
  intros Hs. constructor; cbn; try done.
  - by destruct s.
  - apply NoDup_singleton.
  - by intros ? ?%elem_of_nil.
  - by intros ? ?%elem_of_nil.
Qed.

Lemma sample_admissible : admissible sample_options sample_definition.
Proof.
  constructor; try done; cbn.
  - intros p ->%list_elem_of_singleton. by apply sample_valid.
  - apply NoDup_singleton.
  - intros e ->%list_elem_of_singleton. split; [done|]. cbn. split_and!; [done..| |done]. by apply sample_valid.
  - apply NoDup_singleton.
Qed.

Lemma portable_descriptor_exact_witness :
  is_Ok (describePortablePlugin sample_definition) ∧
  (∀ r, describePortablePlugin sample_definition = Ok r →
     map pc_capability_id (ppd_capabilities r) = [js "a.b"]).
Proof.
  destruct (portable_descriptor_exact sample_options sample_definition sample_admissible) as (H1 & _ & H3).
  split; [apply H1; by intros p ->%list_elem_of_singleton|].
  intros r Hr. destruct (H3 r Hr) as [-> _]. reflexivity.
Defined.

Lemma dependency_clients_sound_witness :
  createDependencyClients sample_definition sample_activation =
    Ok [{| bi_name := js "clock"; bi_import := sample_import |}] ∧
  NoDup (map (fun b => imp_requirement_id (bi_import b)) [{| bi_name := js "clock"; bi_import := sample_import |}]).
Proof.
  assert (createDependencyClients sample_definition sample_activation =
    Ok [{| bi_name := js "clock"; bi_import := sample_import |}]) as H by (vm_compute; reflexivity).
  split; [exact H|]. destruct (dependency_clients_sound _ _ _ H) as (? & _ & _ & Hnd). exact Hnd.
Defined.
