(* ===== verification/ProcessV1.v ===== *)
(** * The Process V1 server (process-v1.ts)

    Two loopback listeners share one state: the control listener takes the
    handshake, cancellations and the shutdown, the data listener takes requests.
    A handler runs without interruption between two [await]s, so the model is a
    step function on the shared state with one event per such segment.  The
    package @lenso/process-protocol and node:crypto are the class
    [ProcessProtocol]; the generated value checks are the class [ProviderChecks]. *)

From Stdlib Require Import ZArith.
From S2P Require Import Prelude JsValue Text Json Authoring.

Local Open Scope Z_scope.

(** ** Data *)

Record Response := { status : Z; body : jsstr }.

(** What the platform tells of an HTTP request before its body. *)
Record http_head := { h_pathname : jsstr; h_search : jsstr; h_method : jsstr; h_content_type : option jsstr }.

Record JsonRpcEnvelope := { env_id : jsstr; env_method : jsstr; env_params : jsval }.

Record PeerLimits := {
  control_queue_capacity : Z;
  max_control_http_body_bytes : Z;
  max_http_body_bytes : Z;
  max_retired_correlation_ids : Z;
  max_concurrent_requests : Z;
  child_request_queue_capacity : Z }.

Record AdmittedCapability := {
  ac_capability_id : jsstr; ac_descriptor_version : jsstr; ac_descriptor_digest : jsstr;
  ac_operations : list jsstr }.

(** The identity the Host proposes: its wire value and the fields the child reads. *)
Record HandshakeIdentity := {
  hi_wire : jsval; peer_limits : PeerLimits; provided_capabilities : list AdmittedCapability }.

Record HandshakeParams := { hp_identity : HandshakeIdentity; host_nonce : jsstr; host_proof : jsstr }.
Record CancelParams := { cp_session : jsstr; cp_correlation_id : jsstr }.
Record ShutdownParams := { sp_session : jsstr }.

Record RequestParams := {
  rp_session : jsstr; rp_correlation_id : jsstr; rp_capability_id : jsstr; rp_descriptor_version : jsstr;
  rp_descriptor_digest : jsstr; rp_operation : jsstr; rp_remaining_timeout_nanos : option N;
  rp_caller_instance : option jsstr; rp_extensions : list (jsstr * jsval); rp_payload : jsval }.

(** ** The packages the sources call *)

(** @lenso/process-protocol and node:crypto.  A validator returns the typed
    parameters of an envelope it accepts. *)
Class ProcessProtocol := {
  PROCESS_PROFILE : jsstr; HANDSHAKE_METHOD : jsstr; CANCEL_METHOD : jsstr; SHUTDOWN_METHOD : jsstr; REQUEST_METHOD : jsstr;
  parseStrictJson : jsstr → option jsval;
  validateHandshakeParams : JsonRpcEnvelope → option HandshakeParams;
  validateCancelParams : JsonRpcEnvelope → option CancelParams;
  validateShutdownParams : JsonRpcEnvelope → option ShutdownParams;
  validateRequestParams : JsonRpcEnvelope → option RequestParams;
  handshakeProofPayload : HandshakeParams → list N;
  hostProofMessage : list N → list N;
  childProofMessage : list N → jsstr → list N;
  decodeBase64Url32 : jsstr → option (list N);
  encodeBase64Url : list N → jsstr;
  sha256 : list N → list N;
  createHmac : list N → list N → list N }.

(** The schema checks of the generated provider bindings, by capability. *)
Class ProviderChecks := {
  validateRequest : Descriptor → jsstr → jsval → completion unit;
  validateSuccess : Descriptor → jsstr → jsval → completion unit;
  validateDomainError : Descriptor → jsstr → jsval → completion unit }.

(** ** Start-up *)

(** [collectProviders(bindings)]: the provider table, in declaration order. *)
Definition collect_provider (providers : list (jsstr * Descriptor)) (d : Descriptor)
  : throws (list (jsstr * Descriptor)) :=
  throw_if ((0 <? length (stream_operations d))%nat || (0 <? length (event_operations d))%nat ||
            mem (capability_id d) (map fst providers))
    (js "Process V1 provider table is invalid");;
  mret (providers ++ [(capability_id d, d)]).

Definition collectProviders (bindings : list Descriptor) : throws (list (jsstr * Descriptor)) :=
  providers ← foldM_res collect_provider [] bindings;
  throw_if (length providers =? 0)%nat (js "Process V1 needs at least one provider");;
  mret providers.

(** [readBootstrapSecret()].  [reads] is what successive [readSync] calls deliver;
    each delivers at most what was asked for, and nothing at the end of the pipe. *)
Fixpoint read_secret (candidate : list N) (reads : list (list N)) : list N * list (list N) :=
  if (length candidate <? 32)%nat then
    match reads with
    | [] => (candidate, [])
    | [] :: reads => (candidate, reads)
    | chunk :: reads => read_secret (candidate ++ chunk) reads
    end
  else (candidate, reads).

Definition readBootstrapSecret (reads : list (list N)) : throws (list N) :=
  let '(candidate, rest) := read_secret [] reads in
  let probe := match rest with (_ :: _) :: _ => 1%nat | _ => 0%nat end in
  let length := (if (length candidate =? 32)%nat then length candidate + probe else length candidate)%nat in
  throw_if (negb (length =? 32)%nat) (js "Process V1 bootstrap pipe must contain exactly 32 bytes");;
  mret candidate.

(** The loop of [serveProcessV1] that writes the readiness line: [accepts offset]
    is how many bytes [writeSync] takes at that offset, or its error.  [None] means that the
    loop has not ended. *)
Fixpoint write_all (fuel : nat) (accepts : nat → throws nat) (encoded : list N) (offset : nat) (written : list N)
  : option (throws (list N)) :=
  if (offset <? length encoded)%nat then
    match fuel with
    | O => None
    | S fuel =>
        match accepts offset with
        | Throw e => Some (Throw e)
        | Ok taken =>
            let n := Nat.min taken (length encoded - offset) in
            write_all fuel accepts encoded (offset + n) (written ++ take n (drop offset encoded))
        end
    end
  else Some (Ok written).

(** ** HTTP and JSON-RPC framing *)

Definition JSON_CONTENT_TYPE : jsstr := js "application/json".

Definition ascii_lower (c : N) : N := if (65 <=? c)%N && (c <=? 90)%N then (c + 32)%N else c.

Definition rejectHttpShape (r : http_head) (path : jsstr) : option Response :=
  if negb (bool_decide (h_pathname r = path)) || negb (empty (h_search r)) then
    Some {| status := 404; body := js "not found" |}
  else if negb (bool_decide (h_method r = js "POST")) then
    Some {| status := 405; body := js "method not allowed" |}
  else match h_content_type r with
       | Some t => if bool_decide (map ascii_lower t = JSON_CONTENT_TYPE) then None
                   else Some {| status := 415; body := js "unsupported media type" |}
       | None => Some {| status := 415; body := js "unsupported media type" |}
       end.

Definition jsonResponse (v : jsval) : Response := {| status := 200; body := json_text v |}.

Definition rpcResult (id : jsstr) (result : jsval) : Response :=
  jsonResponse (JObj [(js "jsonrpc", JStr (js "2.0")); (js "id", JStr id); (js "result", result)]).

Definition rpcError (id : option jsstr) (code : Z) (message : string) : Response :=
  jsonResponse (JObj [(js "jsonrpc", JStr (js "2.0"));
    (js "id", match id with Some i => JStr i | None => JNull end);
    (js "error", JObj [(js "code", JNum (num code)); (js "message", JStr (js message))])]).

(** The read loop of [readBounded]: the chunks, unless they exceed the limit. *)
Fixpoint read_chunks (length_ : Z) (joined : list N) (chunks : list (list N)) (maximumBytes : Z)
  : option (list N) :=
  match chunks with
  | [] => Some joined
  | value :: chunks =>
      let length_ := length_ + Z.of_nat (length value) in
      if maximumBytes <? length_ then None else read_chunks length_ (joined ++ value) chunks maximumBytes
  end.

Definition readBounded (chunks : option (list (list N))) (maximumBytes : Z) : option jsstr :=
  match chunks with
  | None => Some []
  | Some chunks => joined ← read_chunks 0 [] chunks maximumBytes; decode_fatal joined
  end.

Definition envelope_keys : list jsstr := map js ["jsonrpc"; "id"; "method"; "params"]%string.

Section server.
Context `{ProcessProtocol, ProviderChecks}.

Definition parseEnvelope (chunks : option (list (list N))) (maximumBytes : Z) : Response + JsonRpcEnvelope :=
  match readBounded chunks maximumBytes with
  | None => inl {| status := 413; body := js "request too large" |}
  | Some wire =>
      match parseStrictJson wire with
      | None => inl (rpcError None (-32700) "Parse error")
      | Some (JObj fs) =>
          match existsb (fun k => negb (mem k envelope_keys)) (keys fs),
                is_str (field fs "jsonrpc") "2.0", field fs "id", field fs "method",
                mem (js "params") (keys fs) with
          | false, true, JStr id, JStr method, true =>
              inr {| env_id := id; env_method := method; env_params := field fs "params" |}
          | _, _, _, _, _ => inl (rpcError None (-32600) "Invalid Request")
          end
      | Some _ => inl (rpcError None (-32600) "Invalid Request")
      end
  end.

Definition requestResult (params : RequestParams) (outcome : jsval) (maximumBytes : Z) : Response :=
  let text := json_text (JObj [
    (js "jsonrpc", JStr (js "2.0")); (js "id", JStr (rp_correlation_id params));
    (js "result", JObj [(js "session", JStr (rp_session params));
                        (js "correlation_id", JStr (rp_correlation_id params));
                        (js "outcome", outcome)])]) in
  if maximumBytes <? byteLength text then {| status := 413; body := js "response too large" |}
  else {| status := 200; body := text |}.

(** ** The handshake checks *)

Definition zero_proof : jsstr := encodeBase64Url (repeat 0%N 32).

Definition sameIdentity (l r : HandshakeIdentity) : bool :=
  let payload i := decode (handshakeProofPayload
    {| hp_identity := i; host_nonce := zero_proof; host_proof := zero_proof |}) in
  bool_decide (payload l = payload r).

(** [expected.get(id)]: the last capability of that name. *)
Definition expected_capability (identity : HandshakeIdentity) (id : jsstr) : option AdmittedCapability :=
  List.find (fun c => bool_decide (ac_capability_id c = id)) (rev (provided_capabilities identity)).

Definition strings_json (l : list jsstr) : jsstr := json_text (JArr (map JStr l)).

Definition provider_matches (identity : HandshakeIdentity) (d : Descriptor) : bool :=
  match expected_capability identity (capability_id d) with
  | None => false
  | Some c =>
      bool_decide (ac_descriptor_version c = descriptor_version d) &&
      bool_decide (Some (ac_descriptor_digest c) = descriptor_digest d) &&
      bool_decide (strings_json (ac_operations c) = strings_json (operations d)) &&
      (length (stream_operations d) =? 0)%nat && (length (event_operations d) =? 0)%nat
  end.

(** The number of keys of [new Map(entries)]. *)
Definition distinct_count (l : list jsstr) : nat := length (remove_dups l).

Definition validateProviderIdentity (identity : HandshakeIdentity) (providers : list (jsstr * Descriptor))
  : throws unit :=
  throw_if (negb (forallb (fun p => provider_matches identity p.2) providers))
    (js "Process V1 provider table does not match the admitted identity");;
  throw_if (negb (length providers =? distinct_count (map ac_capability_id (provided_capabilities identity)))%nat)
    (js "Process V1 provider table is incomplete").

(** ** The shared state *)

(** Where an admitted request is suspended: queued for a slot, holding one and
    about to run, awaiting the provider, or awaiting [cancelObserved]. *)
Inductive phase :=
| Waiting
| Granted
| Running
| Observing (outcome : ProviderDispatchOutcome).

(** An entry of [active] with the suspended handler that owns it. *)
Record ActiveRequest := {
  ar_connection : nat;
  ar_params : RequestParams;
  ar_provider : Descriptor;
  ar_phase : phase;
  ar_cancelled : bool;
  ar_timer : option Z }.

Record state := {
  secret : list N;
  providers : list (jsstr * Descriptor);
  active : list (jsstr * ActiveRequest);
  retired : list jsstr;
  accepting : bool;
  handshakeAttempted : bool;
  session : option jsstr;
  admittedIdentity : option HandshakeIdentity;
  controlInFlight : Z;
  runningDataRequests : Z;
  dataWaiters : list jsstr;
  controlReading : list (nat * Z);
  dataReading : list (nat * Z);
  listening : bool;
  stopScheduled : bool }.
(** [controlReading] and [dataReading] hold the connections whose body is being
    read, with the limit each one captured; [listening] is whether new connections
    arrive, [stopScheduled] whether the shutdown timer is pending. *)

Definition set_active (v : list (jsstr * ActiveRequest)) (s : state) : state :=
  {| secret := secret s; providers := providers s; active := v; retired := retired s; accepting :=
     accepting s; handshakeAttempted := handshakeAttempted s; session := session s;
     admittedIdentity := admittedIdentity s; controlInFlight := controlInFlight s;
     runningDataRequests := runningDataRequests s; dataWaiters := dataWaiters s; controlReading :=
     controlReading s; dataReading := dataReading s; listening := listening s; stopScheduled :=
     stopScheduled s |}.
(** [accepting = false] *)
Definition close_admission  (s : state) : state :=
  {| secret := secret s; providers := providers s; active := active s; retired := retired s;
     accepting := false; handshakeAttempted := handshakeAttempted s; session := session s;
     admittedIdentity := admittedIdentity s; controlInFlight := controlInFlight s;
     runningDataRequests := runningDataRequests s; dataWaiters := dataWaiters s; controlReading :=
     controlReading s; dataReading := dataReading s; listening := listening s; stopScheduled :=
     stopScheduled s |}.
(** [handshakeAttempted = true] and the [finally] that clears the secret *)
Definition attempt_handshake  (s : state) : state :=
  {| secret := repeat 0%N (length (secret s)); providers := providers s; active := active s;
     retired := retired s; accepting := accepting s; handshakeAttempted := true; session :=
     session s; admittedIdentity := admittedIdentity s; controlInFlight := controlInFlight s;
     runningDataRequests := runningDataRequests s; dataWaiters := dataWaiters s; controlReading :=
     controlReading s; dataReading := dataReading s; listening := listening s; stopScheduled :=
     stopScheduled s |}.
Definition open_session (v : jsstr) (identity : HandshakeIdentity) (s : state) : state :=
  {| secret := secret s; providers := providers s; active := active s; retired := retired s;
     accepting := accepting s; handshakeAttempted := handshakeAttempted s; session := Some v;
     admittedIdentity := Some identity; controlInFlight := controlInFlight s; runningDataRequests
     := runningDataRequests s; dataWaiters := dataWaiters s; controlReading := controlReading s;
     dataReading := dataReading s; listening := listening s; stopScheduled := stopScheduled s |}.
Definition set_control (n : Z) (reading : list (nat * Z)) (s : state) : state :=
  {| secret := secret s; providers := providers s; active := active s; retired := retired s;
     accepting := accepting s; handshakeAttempted := handshakeAttempted s; session := session s;
     admittedIdentity := admittedIdentity s; controlInFlight := n; runningDataRequests :=
     runningDataRequests s; dataWaiters := dataWaiters s; controlReading := reading; dataReading
     := dataReading s; listening := listening s; stopScheduled := stopScheduled s |}.
Definition set_dataReading (reading : list (nat * Z)) (s : state) : state :=
  {| secret := secret s; providers := providers s; active := active s; retired := retired s;
     accepting := accepting s; handshakeAttempted := handshakeAttempted s; session := session s;
     admittedIdentity := admittedIdentity s; controlInFlight := controlInFlight s;
     runningDataRequests := runningDataRequests s; dataWaiters := dataWaiters s; controlReading :=
     controlReading s; dataReading := reading; listening := listening s; stopScheduled :=
     stopScheduled s |}.
Definition set_slots (running : Z) (waiters : list jsstr) (s : state) : state :=
  {| secret := secret s; providers := providers s; active := active s; retired := retired s;
     accepting := accepting s; handshakeAttempted := handshakeAttempted s; session := session s;
     admittedIdentity := admittedIdentity s; controlInFlight := controlInFlight s;
     runningDataRequests := running; dataWaiters := waiters; controlReading := controlReading s;
     dataReading := dataReading s; listening := listening s; stopScheduled := stopScheduled s |}.
(** [active.delete(id); retired.add(id)] *)
Definition retire (id : jsstr) (s : state) : state :=
  {| secret := secret s; providers := providers s; active := filter (fun e => e.1 ≠ id) (active
     s); retired := (if mem id (retired s) then retired s else retired s ++ [id]); accepting :=
     accepting s; handshakeAttempted := handshakeAttempted s; session := session s;
     admittedIdentity := admittedIdentity s; controlInFlight := controlInFlight s;
     runningDataRequests := runningDataRequests s; dataWaiters := dataWaiters s; controlReading :=
     controlReading s; dataReading := dataReading s; listening := listening s; stopScheduled :=
     stopScheduled s |}.
Definition schedule_stop  (s : state) : state :=
  {| secret := secret s; providers := providers s; active := active s; retired := retired s;
     accepting := accepting s; handshakeAttempted := handshakeAttempted s; session := session s;
     admittedIdentity := admittedIdentity s; controlInFlight := controlInFlight s;
     runningDataRequests := runningDataRequests s; dataWaiters := dataWaiters s; controlReading :=
     controlReading s; dataReading := dataReading s; listening := listening s; stopScheduled :=
     true |}.
Definition stop_listening  (s : state) : state :=
  {| secret := secret s; providers := providers s; active := active s; retired := retired s;
     accepting := accepting s; handshakeAttempted := handshakeAttempted s; session := session s;
     admittedIdentity := admittedIdentity s; controlInFlight := controlInFlight s;
     runningDataRequests := runningDataRequests s; dataWaiters := dataWaiters s; controlReading :=
     controlReading s; dataReading := dataReading s; listening := false; stopScheduled := stopScheduled s |}.
Definition clear_stop  (s : state) : state :=
  {| secret := secret s; providers := providers s; active := active s; retired := retired s;
     accepting := accepting s; handshakeAttempted := handshakeAttempted s; session := session s;
     admittedIdentity := admittedIdentity s; controlInFlight := controlInFlight s;
     runningDataRequests := runningDataRequests s; dataWaiters := dataWaiters s; controlReading :=
     controlReading s; dataReading := dataReading s; listening := listening s; stopScheduled := false |}.

Definition start_state (bootstrapSecret : list N) (table : list (jsstr * Descriptor)) : state :=
  {| secret := bootstrapSecret; providers := table; active := []; retired := []; accepting := true;
     handshakeAttempted := false; session := None; admittedIdentity := None; controlInFlight := 0;
     runningDataRequests := 0; dataWaiters := []; controlReading := []; dataReading := [];
     listening := true; stopScheduled := false |}.

Record ProcessV1Server := { ps_state : state; ps_readiness : jsval; ps_readinessLine : jsstr }.

(** [startProcessV1(options)] with the ports its two listeners are bound to. *)
Definition startProcessV1 (bootstrapSecret : list N) (bindings : list Descriptor) (data_port control_port : option Z)
  : throws ProcessV1Server :=
  throw_if (negb (length bootstrapSecret =? 32)%nat)
    (js "Process V1 bootstrap secret must contain exactly 32 bytes");;
  table ← collectProviders bindings;
  match data_port, control_port with
  | Some data, Some control =>
      throw_if (data =? control) (js "Process V1 could not bind distinct loopback listeners");;
      let readiness := JObj [(js "protocol", JStr PROCESS_PROFILE); (js "data_port", JNum (num data));
                             (js "control_port", JNum (num control))] in
      mret {| ps_state := start_state bootstrapSecret table; ps_readiness := readiness;
              ps_readinessLine := json_text readiness ++ [10%N] |}
  | _, _ => fail (js "Process V1 could not bind distinct loopback listeners")
  end.

(** [serveProcessV1(providers, instance)]: the server, and what was written to the readiness
    descriptor. *)
Definition serveProcessV1 (fuel : nat) (reads : list (list N)) (accepts : nat → throws nat) (bindings : list Descriptor)
    (data_port control_port : option Z) : option (throws (ProcessV1Server * list N)) :=
  match secret ← readBootstrapSecret reads; startProcessV1 secret bindings data_port control_port with
  | Throw e => Some (Throw e)
  | Ok server =>
      match write_all fuel accepts (encode (ps_readinessLine server)) 0 [] with
      | None => None
      | Some (Throw e) => Some (Throw e)
      | Some (Ok written) => Some (Ok (server, written))
      end
  end.

(** ** Cancellation and timers *)

Definition with_phase (p : phase) (a : ActiveRequest) : ActiveRequest :=
  {| ar_connection := ar_connection a; ar_params := ar_params a; ar_provider := ar_provider a; ar_phase := p;
     ar_cancelled := ar_cancelled a; ar_timer := ar_timer a |}.

(** [current.cancelled = true; current.observeCancel()] *)
Definition cancel (a : ActiveRequest) : ActiveRequest :=
  {| ar_connection := ar_connection a; ar_params := ar_params a; ar_provider := ar_provider a;
     ar_phase := ar_phase a; ar_cancelled := true; ar_timer := ar_timer a |}.

Definition fired (a : ActiveRequest) : ActiveRequest :=
  {| ar_connection := ar_connection a; ar_params := ar_params a; ar_provider := ar_provider a;
     ar_phase := ar_phase a; ar_cancelled := true; ar_timer := None |}.

Definition on_active (id : jsstr) (f : ActiveRequest → ActiveRequest) (s : state) : state :=
  set_active (map (fun e => (e.1, if decide (e.1 = id) then f e.2 else e.2)) (active s)) s.

Definition cancel_all (s : state) : state := set_active (map (fun e => (e.1, cancel e.2)) (active s)) s.

(** [startChildTimer(remaining, state)]: the delay of the timer, in milliseconds. *)
Definition startChildTimer (remaining : option N) : option Z :=
  match remaining with
  | None => None
  | Some nanos => Some (Z.min ((Z.of_N nanos + 999999) / 1000000) 2147483647)
  end.

(** ** Data slots *)

Inductive slot := Acquired | Queued | Refused.

(** [acquireDataSlot(maximum, capacity, ...)] by the request [id]. *)
Definition acquireDataSlot (maximum capacity : Z) (id : jsstr) (s : state) : slot * state :=
  if runningDataRequests s <? maximum then (Acquired, set_slots (runningDataRequests s + 1) (dataWaiters s) s)
  else if capacity <=? Z.of_nat (length (dataWaiters s)) then (Refused, s)
  else (Queued, set_slots (runningDataRequests s) (dataWaiters s ++ [id]) s).

(** [releaseDataSlot(...)]: the slot goes to the first waiter, if there is one. *)
Definition releaseDataSlot (s : state) : state :=
  match dataWaiters s with
  | waiter :: waiters => on_active waiter (with_phase Granted) (set_slots (runningDataRequests s) waiters s)
  | [] => set_slots (Z.max 0 (runningDataRequests s - 1)) [] s
  end.

(** ** The control listener *)

Definition accepted_reply (id session_ : jsstr) : Response :=
  rpcResult id (JObj [(js "session", JStr session_); (js "accepted", JBool true)]).

Definition invalid_params (id : jsstr) : Response := rpcError (Some id) (-32602) "Invalid params".

(** The handshake branch; [random] is what [crypto.getRandomValues] fills in. *)
Definition handshake (pinned : option HandshakeIdentity) (env : JsonRpcEnvelope) (random : list N) (s : state)
  : state * Response :=
  if handshakeAttempted s then (s, rpcError (Some (env_id env)) (-32602) "handshake already attempted")
  else
    let s' := attempt_handshake s in
    match validateHandshakeParams env with
    | None => (s', invalid_params (env_id env))
    | Some params =>
        if match pinned with Some i => negb (sameIdentity (hp_identity params) i) | None => false end then
          (s', rpcError (Some (env_id env)) (-32602) "handshake identity mismatch")
        else
          match validateProviderIdentity (hp_identity params) (providers s) with
          | Throw _ => (s', invalid_params (env_id env))
          | Ok _ =>
              let digest := sha256 (handshakeProofPayload params) in
              let expected := createHmac (secret s) (hostProofMessage digest) in
              match decodeBase64Url32 (host_proof params) with
              | None => (s', invalid_params (env_id env))
              | Some actual =>
                  if negb (length expected =? length actual)%nat then (s', invalid_params (env_id env))
                  else if negb (bool_decide (expected = actual)) then
                    (s', rpcError (Some (env_id env)) (-32602) "host proof mismatch")
                  else
                    let session_ := encodeBase64Url random in
                    (open_session session_ (hp_identity params) s',
                     rpcResult (env_id env) (JObj [
                       (js "identity", hi_wire (hp_identity params)); (js "session", JStr session_);
                       (js "child_proof",
                        JStr (encodeBase64Url (createHmac (secret s) (childProofMessage digest session_))))]))
              end
          end
    end.

(** [requireSession(candidate, expected)] does not throw. *)
Definition requireSession (candidate : jsstr) (expected : option jsstr) : bool :=
  bool_decide (expected = Some candidate).

Definition control_method (pinned : option HandshakeIdentity) (env : JsonRpcEnvelope) (random : list N)
    (s : state) : state * Response :=
  if bool_decide (env_method env = HANDSHAKE_METHOD) then handshake pinned env random s
  else if bool_decide (env_method env = CANCEL_METHOD) then
    match validateCancelParams env with
    | None => (s, invalid_params (env_id env))
    | Some params =>
        if requireSession (cp_session params) (session s) then
          (on_active (cp_correlation_id params) cancel s, accepted_reply (env_id env) (cp_session params))
        else (s, invalid_params (env_id env))
    end
  else if bool_decide (env_method env = SHUTDOWN_METHOD) then
    match validateShutdownParams env with
    | None => (s, invalid_params (env_id env))
    | Some params =>
        if requireSession (sp_session params) (session s) then
          (schedule_stop (cancel_all (close_admission s)), accepted_reply (env_id env) (sp_session params))
        else (s, invalid_params (env_id env))
    end
  else (s, rpcError (Some (env_id env)) (-32601) "Method not found").

Definition release_control (c : nat) (s : state) : state :=
  set_control (if 0 <? controlInFlight s then controlInFlight s - 1 else controlInFlight s)
    (filter (fun e => e.1 ≠ c) (controlReading s)) s.

(** The control handler up to its first [await]: a response, or the body is read. *)
Definition control_open (c : nat) (r : http_head) (s : state) : state * option Response :=
  let controlCapacity := match admittedIdentity s with
                         | Some i => control_queue_capacity (peer_limits i) | None => 32 end in
  if controlCapacity <=? controlInFlight s then (s, Some {| status := 503; body := js "control queue full" |})
  else
    let limit := match admittedIdentity s with
                 | Some i => max_control_http_body_bytes (peer_limits i) | None => 16384 end in
    match rejectHttpShape r (js "/control") with
    | Some rejected => (s, Some rejected)
    | None => (set_control (controlInFlight s + 1) (controlReading s ++ [(c, limit)]) s, None)
    end.

(** The rest of the control handler, once the body has arrived. *)
Definition control_body (pinned : option HandshakeIdentity) (c : nat) (limit : Z)
    (chunks : option (list (list N))) (random : list N) (s : state) : state * Response :=
  let r := match parseEnvelope chunks limit with
           | inl response => (s, response)
           | inr env => control_method pinned env random s
           end in
  (release_control c r.1, r.2).

(** ** The data listener *)

Definition resource_exhausted (operation : jsstr) : jsval :=
  outcome_json (PRuntime (failure_of "resource_exhausted" [(js "operation", JStr operation)])).

Definition plugin_failure (e : thrown) : jsval :=
  outcome_json (PRuntime (failure_of "plugin_failure" [(js "detail", JStr (ProcessDetail.process_boundedError e))])).

(** [toProcessOutcome(outcome, operation)] *)
Definition toProcessOutcome (outcome : ProviderDispatchOutcome) (operation : jsstr) : jsval :=
  match outcome with
  | PSuccess value => JObj [(js "kind", JStr (js "success")); (js "value", value)]
  | PDomain value => JObj [(js "kind", JStr (js "domain")); (js "error", value)]
  | PRuntime failure =>
      if is_str (field failure "kind") "resource_exhausted" then resource_exhausted operation
      else plugin_failure (ThrownValue (JObj failure))
  end.

Definition validateProviderOutcome (d : Descriptor) (operation : jsstr) (outcome : ProviderDispatchOutcome)
  : completion unit :=
  match outcome with
  | PSuccess value => validateSuccess d operation value
  | PDomain value => validateDomainError d operation value
  | PRuntime _ => Returned tt
  end.

(** [invocationContext(params, state)]: what the provider sees of the request. *)
Record InvocationContext := {
  ic_requestId : jsstr; ic_callerInstance : option jsstr; ic_extensions : option (list (jsstr * jsval));
  ic_cancelled : bool }.

Definition invocationContext (a : ActiveRequest) : InvocationContext :=
  let params := ar_params a in
  {| ic_requestId := rp_correlation_id params; ic_callerInstance := rp_caller_instance params;
     ic_extensions := match rp_extensions params with
                      | [] => None
                      | es => Some (foldl (fun r e => assoc_set e.1 e.2 r) [] es)
                      end;
     ic_cancelled := ar_cancelled a |}.

(** The operation a request names is one the handshake admitted. *)
Definition admitted_operation (identity : HandshakeIdentity) (table : list (jsstr * Descriptor))
    (params : RequestParams) : option Descriptor :=
  match assoc (rp_capability_id params) table,
        List.find (fun c => bool_decide (ac_capability_id c = rp_capability_id params))
          (provided_capabilities identity) with
  | Some provider, Some admitted =>
      if bool_decide (rp_descriptor_version params = ac_descriptor_version admitted) &&
         bool_decide (rp_descriptor_digest params = ac_descriptor_digest admitted) &&
         mem (rp_operation params) (operations provider)
      then Some provider else None
  | _, _ => None
  end.

Definition body_limit (identity : HandshakeIdentity) : Z := max_http_body_bytes (peer_limits identity).

(** From the admission checks to the first suspension of an admitted request.  The
    refused case is one segment here; it cannot be reached (ProcessV1Correct,
    [slot_never_refused]). *)
Definition enter_request (c : nat) (identity : HandshakeIdentity) (params : RequestParams) (provider : Descriptor)
    (s : state) : state * option Response :=
  let id := rp_correlation_id params in
  let limits := peer_limits identity in
  let enter p s' := set_active (active s' ++ [(id,
    {| ar_connection := c; ar_params := params; ar_provider := provider; ar_phase := p; ar_cancelled := false;
       ar_timer := startChildTimer (rp_remaining_timeout_nanos params) |})]) s' in
  match acquireDataSlot (max_concurrent_requests limits) (child_request_queue_capacity limits) id s with
  | (Acquired, s') => (enter Granted s', None)
  | (Queued, s') => (enter Waiting s', None)
  | (Refused, s') =>
      (retire id (enter Waiting s'),
       Some (requestResult params (resource_exhausted (rp_operation params)) (body_limit identity)))
  end.

Definition data_request (c : nat) (env : JsonRpcEnvelope) (params : RequestParams) (s : state)
  : state * option Response :=
  let id := rp_correlation_id params in
  let refuse_ message := rpcError (Some (env_id env)) (-32602) message in
  match accepting s, session s, admittedIdentity s with
  | true, Some session_, Some identity =>
      let limits := peer_limits identity in
      if negb (bool_decide (rp_session params = session_)) || negb (bool_decide (env_id env = id)) then
        (s, Some (refuse_ "request identity mismatch"%string))
      else if mem id (map fst (active s)) || mem id (retired s) then
        (close_admission s, Some (refuse_ "duplicate or retired correlation ID"%string))
      else if max_retired_correlation_ids limits <=? Z.of_nat (length (retired s)) then
        (close_admission s, Some (refuse_ "retired correlation ID capacity reached"%string))
      else if (max_concurrent_requests limits <=? Z.of_nat (length (active s))) &&
              (child_request_queue_capacity limits <=? Z.of_nat (length (dataWaiters s))) then
        (s, Some (requestResult params (resource_exhausted (rp_operation params)) (body_limit identity)))
      else
        match admitted_operation identity (providers s) params with
        | None => (close_admission s, Some (refuse_ "operation is absent from admitted identity"%string))
        | Some provider => enter_request c identity params provider s
        end
  | _, _, _ => (s, Some (refuse_ "request before handshake or after shutdown"%string))
  end.

Definition data_open (c : nat) (r : http_head) (s : state) : state * option Response :=
  match rejectHttpShape r (js "/rpc") with
  | Some rejected => (s, Some rejected)
  | None =>
      let limit := match admittedIdentity s with Some i => body_limit i | None => 65536 end in
      (set_dataReading (dataReading s ++ [(c, limit)]) s, None)
  end.

Definition data_body (c : nat) (limit : Z) (chunks : option (list (list N))) (s : state)
  : state * option Response :=
  let s := set_dataReading (filter (fun e => e.1 ≠ c) (dataReading s)) s in
  match parseEnvelope chunks limit with
  | inl response => (s, Some response)
  | inr env =>
      if negb (bool_decide (env_method env = REQUEST_METHOD)) then
        (s, Some (rpcError (Some (env_id env)) (-32601) "Method not found"))
      else match validateRequestParams env with
           | None => (s, Some (invalid_params (env_id env)))
           | Some params => data_request c env params s
           end
  end.

(** The [finally] of an admitted request, with its response. *)
Definition finish (id : jsstr) (a : ActiveRequest) (outcome : jsval) (s : state) : state * Response :=
  let limit := match admittedIdentity s with Some i => body_limit i | None => 0 end in
  (releaseDataSlot (retire id s), requestResult (ar_params a) outcome limit).

(** The [catch]. *)
Definition fail_request (id : jsstr) (a : ActiveRequest) (e : thrown) (s : state) : state * Response :=
  finish id a (plugin_failure e) (close_admission s).

Definition answered (r : state * Response) : state * option Response := (r.1, Some r.2).

(** A request that holds its slot starts: it is dropped if it was cancelled while
    it waited, and its payload is checked before the provider is called. *)
Definition resume (id : jsstr) (a : ActiveRequest) (s : state) : state * option Response :=
  if ar_cancelled a then
    answered (finish id a (resource_exhausted (rp_operation (ar_params a))) s)
  else match validateRequest (ar_provider a) (rp_operation (ar_params a)) (rp_payload (ar_params a)) with
       | Threw e => answered (fail_request id a e s)
       | Returned _ => (on_active id (with_phase Running) s, None)
       end.

(** Validation and translation of the provider's outcome. *)
Definition conclude (id : jsstr) (a : ActiveRequest) (outcome : ProviderDispatchOutcome) (s : state)
  : state * Response :=
  match validateProviderOutcome (ar_provider a) (rp_operation (ar_params a)) outcome with
  | Threw e => fail_request id a e s
  | Returned _ => finish id a (toProcessOutcome outcome (rp_operation (ar_params a))) s
  end.

Definition settle (id : jsstr) (a : ActiveRequest) (o : completion ProviderDispatchOutcome) (s : state)
  : state * option Response :=
  match o with
  | Threw e => answered (fail_request id a e s)
  | Returned outcome =>
      if ar_cancelled a then (on_active id (with_phase (Observing outcome)) s, None)
      else answered (conclude id a outcome s)
  end.

(** ** Steps *)

Inductive event :=
| ControlOpen (c : nat) (r : http_head)
| ControlBody (c : nat) (chunks : option (list (list N))) (random : list N)
| DataOpen (c : nat) (r : http_head)
| DataBody (c : nat) (chunks : option (list (list N)))
| Resume (id : jsstr)
| Settle (id : jsstr) (o : completion ProviderDispatchOutcome)
| Observed (id : jsstr)
| TimerFires (id : jsstr)
| StopTimer
| Stop.

Definition respond (c : nat) (r : state * option Response) : state * list (nat * Response) :=
  (r.1, match r.2 with Some response => [(c, response)] | None => [] end).

(** One segment of the program, if it can run: the new state and the response its handler
    returns.  What [stop(closeActiveConnections)] makes of the open connections is up to Bun: it
    decides only whether a response that is returned later still reaches its client. *)
Definition step (pinned : option HandshakeIdentity) (s : state) (e : event)
  : option (state * list (nat * Response)) :=
  match e with
  | ControlOpen c r =>
      if listening s && negb (bool_decide (c ∈ map fst (controlReading s))) then
        Some (respond c (control_open c r s)) else None
  | ControlBody c chunks random =>
      match List.find (fun e => (e.1 =? c)%nat) (controlReading s) with
      | Some (_, limit) =>
          Some (respond c (answered (control_body pinned c limit chunks random s)))
      | None => None
      end
  | DataOpen c r => if listening s then Some (respond c (data_open c r s)) else None
  | DataBody c chunks =>
      match List.find (fun e => (e.1 =? c)%nat) (dataReading s) with
      | Some (_, limit) => Some (respond c (data_body c limit chunks s))
      | None => None
      end
  | Resume id =>
      match assoc id (active s) with
      | Some a => match ar_phase a with
                  | Granted => Some (respond (ar_connection a) (resume id a s))
                  | _ => None
                  end
      | None => None
      end
  | Settle id o =>
      match assoc id (active s) with
      | Some a => match ar_phase a with
                  | Running => Some (respond (ar_connection a) (settle id a o s))
                  | _ => None
                  end
      | None => None
      end
  | Observed id =>
      match assoc id (active s) with
      | Some a => match ar_phase a with
                  | Observing outcome =>
                      Some (respond (ar_connection a) (answered (conclude id a outcome s)))
                  | _ => None
                  end
      | None => None
      end
  | TimerFires id =>
      match assoc id (active s) with
      | Some a => match ar_timer a with Some _ => Some (on_active id fired s, []) | None => None end
      | None => None
      end
  | StopTimer => if stopScheduled s then Some (stop_listening (clear_stop s), []) else None
  | Stop => Some (stop_listening (cancel_all (close_admission s)), [])
  end.
End server.
