(* ===== verification/ProcessV1Correct.v ===== *)
(** * What the Process V1 server guarantees

    The data slots, the queue and the correlation identifiers are one pool with an
    invariant of every reachable state; the handshake, the cancellation and the
    shutdown follow from it and from the shape of the steps. *)

From Stdlib Require Import ZArith.
From S2P Require Import Prelude JsValue Text Json Authoring ProcessV1.

Local Open Scope Z_scope.

(** ** The pool of admitted requests *)

Definition is_waiting (a : ActiveRequest) : bool := match ar_phase a with Waiting => true | _ => false end.

Abbreviation pool := (list (jsstr * ActiveRequest)).
Implicit Types (l : pool) (id : jsstr) (a : ActiveRequest).

Definition queued (l : pool) : list jsstr := map fst (List.filter (fun e => is_waiting e.2) l).
Definition slots (l : pool) : nat := length (List.filter (fun e => negb (is_waiting e.2)) l).

Lemma pool_length (l : pool) : length l = (slots l + length (queued l))%nat.
Proof.
  unfold slots, queued. rewrite length_map. induction l as [|e l IH]; cbn; [done|].
  destruct (is_waiting e.2); cbn; lia.
Qed.

Lemma queued_app l1 l2 : queued (l1 ++ l2) = queued l1 ++ queued l2.
Proof. unfold queued. by rewrite List.filter_app, map_app. Qed.

Lemma slots_app l1 l2 : slots (l1 ++ l2) = (slots l1 + slots l2)%nat.
Proof. unfold slots. by rewrite List.filter_app, length_app. Qed.

(** [on_active] on the entries alone. *)
Definition upd (id : jsstr) (f : ActiveRequest → ActiveRequest) (l : pool) : pool :=
  map (fun e => (e.1, if decide (e.1 = id) then f e.2 else e.2)) l.

Definition drop_id (id : jsstr) (l : pool) : pool := filter (fun e => e.1 ≠ id) l.

Lemma upd_keys id f l : map fst (upd id f l) = map fst l.
Proof. unfold upd. rewrite map_map. by apply map_ext. Qed.

(** A pool with distinct keys splits around the entry of a key. *)
Lemma pool_split id a l :
  NoDup (map fst l) → assoc id l = Some a →
  ∃ l1 l2 : pool, l = l1 ++ (id, a) :: l2 ∧ (id ∉ map fst l1) ∧ (id ∉ map fst l2).
Proof.
  induction l as [|[k b] l IH]; cbn; [done|]. intros [Hk Hnd]%NoDup_cons. case_decide as Hid.
  - intros [= ->]. subst. exists [], l. split; [done|]. split; [by intros ?%elem_of_nil|done].
  - intros Ha. destruct (IH Hnd Ha) as (l1 & l2 & -> & H1 & H2).
    exists ((k, b) :: l1), l2. split; [done|]. split; [|done]. cbn. intros [?|?]%elem_of_cons; done.
Qed.

Lemma upd_absent id f l : id ∉ map fst l → upd id f l = l.
Proof.
  induction l as [|[k b] l IH]; cbn; [done|]. intros H. apply not_elem_of_cons in H as [H1 H2].
  rewrite decide_False by done. f_equal. by apply IH.
Qed.

Lemma drop_absent id l : id ∉ map fst l → drop_id id l = l.
Proof.
  unfold drop_id. induction l as [|[k b] l IH]; [done|]. intros H. apply not_elem_of_cons in H as [H1 H2].
  rewrite filter_cons_True by (cbn in *; congruence). f_equal. by apply IH.
Qed.

Lemma upd_split id f l1 a l2 :
  (id ∉ map fst l1) → (id ∉ map fst l2) →
  upd id f (l1 ++ (id, a) :: l2) = l1 ++ (id, f a) :: l2.
Proof.
  intros H1 H2. unfold upd. rewrite map_app. cbn. rewrite decide_True by done.
  fold (upd id f l1) (upd id f l2). by rewrite !upd_absent.
Qed.

Lemma drop_split id l1 a l2 :
  (id ∉ map fst l1) → (id ∉ map fst l2) → drop_id id (l1 ++ (id, a) :: l2) = l1 ++ l2.
Proof.
  intros H1 H2. unfold drop_id. rewrite filter_app, filter_cons_False by (cbn; naive_solver).
  fold (drop_id id l1) (drop_id id l2). by rewrite !drop_absent.
Qed.

(** Updates that keep an entry on its side of the queue change no count. *)
Lemma upd_same_side id f l :
  (∀ a, assoc id l = Some a → is_waiting (f a) = is_waiting a) → NoDup (map fst l) →
  queued (upd id f l) = queued l ∧ slots (upd id f l) = slots l.
Proof.
  intros Hf Hnd. destruct (assoc id l) as [a|] eqn:Ha.
  - destruct (pool_split id a l Hnd Ha) as (l1 & l2 & -> & H1 & H2). rewrite upd_split by done.
    rewrite !queued_app, !slots_app. unfold queued, slots. cbn. rewrite (Hf a eq_refl).
    by destruct (is_waiting a).
  - rewrite upd_absent; [done|]. by apply assoc_None.
Qed.

Lemma map_same_side (f : ActiveRequest → ActiveRequest) l :
  (∀ a, is_waiting (f a) = is_waiting a) →
  queued (map (fun e => (e.1, f e.2)) l) = queued l ∧ slots (map (fun e => (e.1, f e.2)) l) = slots l.
Proof.
  intros Hf. unfold queued, slots. induction l as [|e l [IH1 IH2]]; cbn; [done|].
  rewrite Hf. destruct (is_waiting e.2); cbn; split; congruence.
Qed.

(** Removing a request that holds a slot frees exactly that slot. *)
Lemma drop_slotted id a l :
  NoDup (map fst l) → assoc id l = Some a → is_waiting a = false →
  queued (drop_id id l) = queued l ∧ slots l = S (slots (drop_id id l)) ∧
  map fst l ≡ₚ id :: map fst (drop_id id l).
Proof.
  intros Hnd Ha Hw. destruct (pool_split id a l Hnd Ha) as (l1 & l2 & -> & H1 & H2).
  rewrite drop_split by done. rewrite !queued_app, !slots_app.
  assert (queued ((id, a) :: l2) = queued l2) as -> by (unfold queued; cbn; by rewrite Hw).
  assert (slots ((id, a) :: l2) = S (slots l2)) as -> by (unfold slots; cbn; by rewrite Hw).
  split; [done|]. split; [lia|]. rewrite !map_app. cbn. by rewrite Permutation_middle.
Qed.

(** The first waiter, granted a slot, leaves the queue to the others. *)
Lemma grant_first id rest l :
  NoDup (map fst l) → queued l = id :: rest →
  queued (upd id (with_phase Granted) l) = rest ∧ slots (upd id (with_phase Granted) l) = S (slots l).
Proof.
  induction l as [|[k a] l IH]; cbn; [done|]. intros [Hk Hnd]%NoDup_cons.
  unfold queued, slots in *. cbn. destruct (is_waiting a) eqn:Hw; cbn.
  - intros [= -> <-]. rewrite decide_True by done. cbn. fold (upd id (with_phase Granted) l).
    rewrite (upd_absent id _ l Hk). done.
  - intros Hq. rewrite decide_False.
    2: { intros ->. apply Hk. apply list_elem_of_fmap.
         assert (id ∈ map fst (List.filter (fun e => is_waiting e.2) l)) as Hin by (rewrite Hq; by left).
         apply list_elem_of_fmap in Hin as (e & -> & He). exists e. split; [done|].
         rewrite list_elem_of_In in He. apply List.filter_In in He as [He _]. by rewrite list_elem_of_In. }
    destruct (IH Hnd Hq) as [IH1 IH2]. fold (upd id (with_phase Granted) l). cbn. rewrite Hw. cbn.
    split; [done|]. by rewrite IH2.
Qed.

(** ** The invariant of the pool *)

Definition limits_hold (lim : PeerLimits) (act : pool) (ret : list jsstr) : Prop :=
  Z.of_nat (slots act) <= Z.max 0 (max_concurrent_requests lim) ∧
  Z.of_nat (length (queued act)) <= Z.max 0 (child_request_queue_capacity lim) ∧
  (queued act ≠ [] → max_concurrent_requests lim <= Z.of_nat (slots act)) ∧
  Z.of_nat (length ret) + Z.of_nat (length act) <=
    Z.max 0 (max_retired_correlation_ids lim - 1 + Z.max 0 (max_concurrent_requests lim) +
             Z.max 0 (child_request_queue_capacity lim)).

Record pool_inv (lim : option PeerLimits) (act : pool) (ret : list jsstr) (running : Z) (waiters : list jsstr)
  : Prop := {
  p_keys : NoDup (map fst act ++ ret);
  p_running : running = Z.of_nat (slots act);
  p_waiters : waiters = queued act;
  p_limits : match lim with
             | None => act = [] ∧ ret = []
             | Some lim => limits_hold lim act ret
             end }.

Lemma p_act_keys lim act ret r w : pool_inv lim act ret r w → NoDup (map fst act).
Proof. intros []. by apply NoDup_app in p_keys0 as (? & _ & _). Qed.

Lemma pool_inv_same lim act act' ret r w :
  map fst act' = map fst act → queued act' = queued act → slots act' = slots act →
  pool_inv lim act ret r w → pool_inv lim act' ret r w.
Proof.
  intros Hk Hq Hs []. constructor; rewrite ?Hk, ?Hq, ?Hs; try done.
  destruct lim as [lim|].
  - unfold limits_hold in *. rewrite (pool_length act'), Hq, Hs, <- pool_length. done.
  - destruct p_limits0 as [-> ->]. split; [|done]. by destruct act'.
Qed.

Lemma pool_inv_upd lim act ret r w id f :
  (∀ a, assoc id act = Some a → is_waiting (f a) = is_waiting a) →
  pool_inv lim act ret r w → pool_inv lim (upd id f act) ret r w.
Proof.
  intros Hf Hp. destruct (upd_same_side id f act Hf (p_act_keys _ _ _ _ _ Hp)).
  apply (pool_inv_same _ act); [apply upd_keys|done|done|done].
Qed.

Lemma pool_inv_map lim act ret r w (f : ActiveRequest → ActiveRequest) :
  (∀ a, is_waiting (f a) = is_waiting a) →
  pool_inv lim act ret r w → pool_inv lim (map (fun e => (e.1, f e.2)) act) ret r w.
Proof.
  intros Hf Hp. destruct (map_same_side f act Hf).
  apply (pool_inv_same _ act); [by rewrite map_map|done|done|done].
Qed.

Lemma pool_fresh act (ret : list jsstr) id a :
  (id ∉ map fst act) → (id ∉ ret) → NoDup (map fst act ++ ret) → NoDup (map fst (act ++ [(id, a)]) ++ ret).
Proof.
  intros H1 H2 Hnd. rewrite map_app. cbn. rewrite <- app_assoc. cbn.
  rewrite <- Permutation_middle. apply NoDup_cons. split; [|done]. rewrite elem_of_app. tauto.
Qed.

(** Admission with a free slot. *)
Lemma pool_enter_granted lim act ret r w id a :
  pool_inv (Some lim) act ret r w → is_waiting a = false →
  (id ∉ map fst act) → (id ∉ ret) → Z.of_nat (length ret) < max_retired_correlation_ids lim →
  r < max_concurrent_requests lim →
  pool_inv (Some lim) (act ++ [(id, a)]) ret (r + 1) w.
Proof.
  intros [Hk -> -> (H1 & H2 & H3 & H4)] Ha Hact Hret Hr Hmax.
  assert (queued (act ++ [(id, a)]) = queued act) as Hq.
  { rewrite queued_app. unfold queued at 2. cbn. rewrite Ha. cbn. by rewrite app_nil_r. }
  assert (slots (act ++ [(id, a)]) = S (slots act)) as Hs.
  { rewrite slots_app. unfold slots at 2. cbn. rewrite Ha. cbn. lia. }
  constructor; [by apply pool_fresh|lia|done|]. unfold limits_hold. rewrite Hq, Hs, length_app. cbn [length].
  split; [lia|]. split; [done|]. split; [intros Hw; specialize (H3 Hw); lia|].
  pose proof (pool_length act). lia.
Qed.

(** Admission to the queue. *)
Lemma pool_enter_waiting lim act ret r w id a :
  pool_inv (Some lim) act ret r w → is_waiting a = true →
  (id ∉ map fst act) → (id ∉ ret) → Z.of_nat (length ret) < max_retired_correlation_ids lim →
  max_concurrent_requests lim <= r → Z.of_nat (length w) < child_request_queue_capacity lim →
  pool_inv (Some lim) (act ++ [(id, a)]) ret r (w ++ [id]).
Proof.
  intros [Hk -> -> (H1 & H2 & H3 & H4)] Ha Hact Hret Hr Hmax Hcap.
  assert (queued (act ++ [(id, a)]) = queued act ++ [id]) as Hq.
  { rewrite queued_app. unfold queued at 2. cbn. by rewrite Ha. }
  assert (slots (act ++ [(id, a)]) = slots act) as Hs.
  { rewrite slots_app. unfold slots at 2. cbn. rewrite Ha. cbn. lia. }
  constructor; [by apply pool_fresh|lia|done|]. unfold limits_hold. rewrite Hq, Hs, !length_app. cbn [length].
  split; [done|]. split; [lia|]. split; [by intros _|]. pose proof (pool_length act). lia.
Qed.

(** Completion: the entry is retired and its slot goes to the first waiter, or is
    freed when nobody waits. *)
Definition pass_slot (act : pool) (r : Z) (w : list jsstr) : pool * Z * list jsstr :=
  match w with
  | first :: rest => (upd first (with_phase Granted) act, r, rest)
  | [] => (act, Z.max 0 (r - 1), [])
  end.

Definition add_retired (ret : list jsstr) (id : jsstr) : list jsstr := if mem id ret then ret else ret ++ [id].

Lemma retire_keys act ret id a :
  NoDup (map fst act ++ ret) → assoc id act = Some a → is_waiting a = false →
  NoDup (map fst (drop_id id act) ++ add_retired ret id) ∧ add_retired ret id = ret ++ [id] ∧
  queued (drop_id id act) = queued act ∧ slots act = S (slots (drop_id id act)).
Proof.
  intros Hk Ha Hw. pose proof Hk as (Hnd & Hdis & Hret)%NoDup_app.
  destruct (drop_slotted id a act Hnd Ha Hw) as (Hq & Hs & Hp).
  assert (id ∉ ret) as Hnot.
  { apply Hdis. rewrite Hp. by left. }
  unfold add_retired. rewrite (proj2 (mem_false _ _) Hnot). split_and!; try done.
  rewrite app_assoc, (Permutation_app_comm _ [id]). cbn. rewrite Hp in Hk. done.
Qed.

Lemma pool_finish lim act ret r w id a act' r' w' :
  pool_inv (Some lim) act ret r w → assoc id act = Some a → is_waiting a = false →
  pass_slot (drop_id id act) r w = (act', r', w') →
  pool_inv (Some lim) act' (add_retired ret id) r' w'.
Proof.
  intros [Hk -> -> (H1 & H2 & H3 & H4)] Ha Hw.
  destruct (retire_keys act ret id a Hk Ha Hw) as (Hk' & Hret & Hq & Hs).
  pose proof (pool_length act) as Hl. pose proof (pool_length (drop_id id act)) as Hl'. rewrite Hq in Hl'.
  unfold pass_slot. destruct (queued act) as [|first rest] eqn:Hqueue; intros [= <- <- <-].
  - constructor; [done|lia|done|]. unfold limits_hold. rewrite Hq, Hret, length_app. cbn [length] in *.
    split; [lia|]. split; [lia|]. split; [done|]. lia.
  - destruct (grant_first first rest (drop_id id act)) as [Hg1 Hg2].
    { by apply NoDup_app in Hk' as (? & _ & _). }
    { done. }
    constructor.
    + by rewrite upd_keys.
    + rewrite Hg2. lia.
    + done.
    + unfold limits_hold. rewrite Hg1, Hg2, Hret, length_app.
      assert (length (upd first (with_phase Granted) (drop_id id act)) = length (drop_id id act)) as ->
        by (unfold upd; apply length_map).
      cbn [length] in *. split; [lia|]. split; [lia|]. split; [intros _; specialize (H3 ltac:(done)); lia|]. lia.
Qed.

(** ** The invariant of the server *)

Definition pool_of (s : state) : Prop :=
  pool_inv (peer_limits <$> admittedIdentity s) (active s) (retired s) (runningDataRequests s) (dataWaiters s).

Record inv (s : state) : Prop := {
  inv_pool : pool_of s;
  inv_session : session s = None ↔ admittedIdentity s = None;
  inv_before : handshakeAttempted s = false → session s = None;
  inv_secret : handshakeAttempted s = true → Forall (fun b => b = 0%N) (secret s);
  inv_control : controlInFlight s = Z.of_nat (length (controlReading s)) ∧ NoDup (map fst (controlReading s)) }.

Section correct.
Context `{ProcessProtocol, ProviderChecks}.

Lemma start_inv b table : inv (start_state b table).
Proof.
  constructor; cbn; try done.
  - constructor; cbn; try done. apply NoDup_nil_2.
  - split; [done|]. apply NoDup_nil_2.
Qed.

(** Steps that touch only the pool keep the rest. *)
Lemma inv_with_pool s s' :
  inv s → session s' = session s → admittedIdentity s' = admittedIdentity s →
  handshakeAttempted s' = handshakeAttempted s → secret s' = secret s →
  controlInFlight s' = controlInFlight s → controlReading s' = controlReading s →
  pool_of s' → inv s'.
Proof. intros [_ ? ? ? ?] E1 E2 E3 E4 E5 E6 Hp. constructor; [done|rewrite ?E1, ?E2, ?E3, ?E4, ?E5, ?E6; done..]. Qed.

Lemma cancel_all_inv s : inv s → inv (cancel_all s).
Proof. intros Hi. apply (inv_with_pool s); try done.
  exact (pool_inv_map _ _ _ _ _ cancel (fun _ => eq_refl) (inv_pool _ Hi)). Qed.

Lemma on_active_inv s id f :
  (∀ a, assoc id (active s) = Some a → is_waiting (f a) = is_waiting a) → inv s → inv (on_active id f s).
Proof. intros Hf Hi. apply (inv_with_pool s); try done.
  exact (pool_inv_upd _ _ _ _ _ _ _ Hf (inv_pool _ Hi)). Qed.

Lemma close_admission_inv s : inv s → inv (close_admission s).
Proof. intros Hi. apply (inv_with_pool s); try done. apply Hi. Qed.

Lemma admitted_limits s id a :
  pool_of s → assoc id (active s) = Some a → ∃ i, admittedIdentity s = Some i.
Proof.
  unfold pool_of. destruct (admittedIdentity s) as [i|]; [by eexists|]. intros [_ _ _ [Hn _]]. cbn in Hn.
  by rewrite Hn.
Qed.

Lemma finish_inv s id a outcome :
  inv s → assoc id (active s) = Some a → is_waiting a = false → inv (finish id a outcome s).1.
Proof.
  intros Hi Ha Hw. destruct (admitted_limits s id a (inv_pool _ Hi) Ha) as [i Hid].
  unfold finish, releaseDataSlot. cbn [fst]. pose proof (inv_pool _ Hi) as Hp. unfold pool_of in Hp.
  rewrite Hid in Hp. cbn in Hp.
  destruct (pass_slot (drop_id id (active s)) (runningDataRequests s) (dataWaiters s)) as [[act' r'] w'] eqn:Hps.
  pose proof (pool_finish _ _ _ _ _ _ _ _ _ _ Hp Ha Hw Hps) as Hp'.
  change (dataWaiters (retire id s)) with (dataWaiters s).
  unfold pass_slot in Hps. destruct (dataWaiters s) as [|first rest]; injection Hps as <- <- <-;
    (apply (inv_with_pool s); try done; unfold pool_of; cbn; rewrite Hid; exact Hp').
Qed.

Lemma fail_request_inv s id a e :
  inv s → assoc id (active s) = Some a → is_waiting a = false → inv (fail_request id a e s).1.
Proof. intros. apply finish_inv; [by apply close_admission_inv|done|done]. Qed.

Lemma conclude_inv s id a o :
  inv s → assoc id (active s) = Some a → is_waiting a = false → inv (conclude id a o s).1.
Proof.
  intros. unfold conclude. destruct (validateProviderOutcome _ _ _); [by apply finish_inv|by apply fail_request_inv].
Qed.

Lemma resume_inv s id a :
  inv s → assoc id (active s) = Some a → ar_phase a = Granted → inv (resume id a s).1.
Proof.
  intros Hi Ha Hp. assert (is_waiting a = false) as Hw by (unfold is_waiting; by rewrite Hp).
  unfold resume. destruct (ar_cancelled a); [by apply finish_inv|].
  destruct (validateRequest _ _ _); [|by apply fail_request_inv].
  cbn. apply on_active_inv; [|done]. intros a' Ha'. assert (a' = a) as -> by congruence.
  unfold is_waiting. cbn. by rewrite Hp.
Qed.

Lemma settle_inv s id a o :
  inv s → assoc id (active s) = Some a → ar_phase a = Running → inv (settle id a o s).1.
Proof.
  intros Hi Ha Hp. assert (is_waiting a = false) as Hw by (unfold is_waiting; by rewrite Hp).
  unfold settle. destruct o as [o|e]; [|by apply fail_request_inv].
  destruct (ar_cancelled a); [|]; cbn.
  - apply on_active_inv; [|done]. intros a' Ha'. assert (a' = a) as -> by congruence.
    unfold is_waiting. cbn. by rewrite Hp.
  - by apply conclude_inv.
Qed.

(** A fresh request finds a slot or a place in the queue: the third answer of
    [acquireDataSlot] does not occur after the checks of the handler. *)
Lemma admit_cases c identity params d s :
  let id := rp_correlation_id params in
  let lim := peer_limits identity in
  inv s → admittedIdentity s = Some identity → (id ∉ map fst (active s)) → (id ∉ retired s) →
  Z.of_nat (length (retired s)) < max_retired_correlation_ids lim →
  (Z.of_nat (length (active s)) < max_concurrent_requests lim ∨
   Z.of_nat (length (dataWaiters s)) < child_request_queue_capacity lim) →
  (enter_request c identity params d s).2 = None ∧ inv (enter_request c identity params d s).1.
Proof.
  intros id lim Hi Hid Hact Hret Hcap Hroom. pose proof (inv_pool _ Hi) as Hp. unfold pool_of in Hp.
  rewrite Hid in Hp. cbn in Hp. fold lim in Hp.
  unfold enter_request, acquireDataSlot. fold id lim.
  destruct (Z.ltb_spec (runningDataRequests s) (max_concurrent_requests lim)) as [Hlt|Hge].
  - split; [done|]. cbn. apply (inv_with_pool s); try done. unfold pool_of. cbn. rewrite Hid. cbn. fold lim.
    by apply pool_enter_granted.
  - destruct (Z.leb_spec (child_request_queue_capacity lim) (Z.of_nat (length (dataWaiters s)))) as [Hfull|Hfree].
    + exfalso. destruct Hroom as [Hroom|]; [|lia]. destruct Hp as [_ Hr _ _].
      pose proof (pool_length (active s)). lia.
    + split; [done|]. cbn. apply (inv_with_pool s); try done. unfold pool_of. cbn. rewrite Hid. cbn. fold lim.
      by apply pool_enter_waiting.
Qed.

Lemma data_request_inv c env params s : inv s → inv (data_request c env params s).1.
Proof.
  intros Hi. unfold data_request. destruct (accepting s), (session s), (admittedIdentity s) as [identity|] eqn:Hid;
    try done. destruct (_ || _); [done|].
  destruct (mem _ (map fst _) || mem _ _) eqn:Hdup; [by apply close_admission_inv|].
  apply orb_false_iff in Hdup as [H1%mem_false H2%mem_false].
  destruct (Z.leb_spec (max_retired_correlation_ids (peer_limits identity)) (Z.of_nat (length (retired s))));
    [by apply close_admission_inv|].
  destruct ((_ <=? _) && _) eqn:Hroom; [done|].
  destruct (admitted_operation _ _ _) as [d|]; [|by apply close_admission_inv].
  apply admit_cases; try done. apply andb_false_iff in Hroom as [Hr|Hr]; apply Z.leb_gt in Hr; auto.
Qed.

Lemma data_body_inv c limit chunks s : inv s → inv (data_body c limit chunks s).1.
Proof.
  intros Hi. assert (inv (set_dataReading (filter (fun e => e.1 ≠ c) (dataReading s)) s)) as Hi'.
  { apply (inv_with_pool s); try done. apply Hi. }
  unfold data_body. destruct (parseEnvelope _ _) as [|env]; [done|]. destruct (negb _); [done|].
  destruct (validateRequestParams env); [|done]. by apply data_request_inv.
Qed.

Lemma limits_hold_empty lim : limits_hold lim [] [].
Proof. unfold limits_hold, queued, slots. cbn. split_and!; [lia..|done|lia]. Qed.

Lemma attempt_inv s : inv s → inv (attempt_handshake s).
Proof.
  intros []. constructor; cbn; try done.
  intros _. apply Forall_forall. intros x Hx.
  apply list_elem_of_In in Hx. by apply repeat_spec in Hx.
Qed.

Lemma open_session_inv s v i : inv s → handshakeAttempted s = false → inv (open_session v i (attempt_handshake s)).
Proof.
  intros Hi Hn. pose proof (inv_before _ Hi Hn) as Hs. pose proof (proj1 (inv_session _ Hi) Hs) as Hid.
  pose proof (inv_pool _ Hi) as Hp. unfold pool_of in Hp. rewrite Hid in Hp. destruct Hp as [Hk Hr Hw [Ha Hret]].
  pose proof (inv_secret _ (attempt_inv s Hi) eq_refl) as Hz.
  constructor; cbn; try done; [|apply (inv_control _ Hi)].
  constructor; cbn; try done. rewrite Ha, Hret. apply limits_hold_empty.
Qed.

Lemma handshake_inv pinned env random s : inv s → inv (handshake pinned env random s).1.
Proof.
  intros Hi. unfold handshake. destruct (handshakeAttempted s) eqn:Hn; [done|].
  pose proof (attempt_inv s Hi) as Hi'. destruct (validateHandshakeParams env) as [params|]; [|done].
  destruct (match pinned with Some i => _ | None => _ end); [done|].
  destruct (validateProviderIdentity _ _); [|done]. destruct (decodeBase64Url32 _); [|done].
  destruct (negb _); [done|]. destruct (negb _); [done|]. by apply open_session_inv.
Qed.

Lemma schedule_stop_inv s : inv s → inv (schedule_stop s).
Proof. intros Hi. apply (inv_with_pool s); try done. apply Hi. Qed.

Lemma control_method_inv pinned env random s : inv s → inv (control_method pinned env random s).1.
Proof.
  intros Hi. unfold control_method. destruct (bool_decide _); [by apply handshake_inv|].
  destruct (bool_decide _).
  { destruct (validateCancelParams env); [|done]. destruct (requireSession _ _); [|done]. cbn.
    by apply on_active_inv. }
  destruct (bool_decide _); [|done]. destruct (validateShutdownParams env); [|done].
  destruct (requireSession _ _); [|done]. cbn. by apply schedule_stop_inv, cancel_all_inv, close_admission_inv.
Qed.

(** Only opening and answering a control connection moves the control queue. *)
Lemma control_method_reading pinned env random s :
  controlReading (control_method pinned env random s).1 = controlReading s.
Proof.
  unfold control_method, handshake. repeat (case_match; try done).
Qed.

Lemma control_open_inv c r s : inv s → (c ∉ map fst (controlReading s)) → inv (control_open c r s).1.
Proof.
  intros Hi Hc. unfold control_open. destruct (_ <=? _); [done|]. destruct (rejectHttpShape _ _); [done|]. cbn.
  destruct Hi as [? ? ? ? [Hf Hnd]]. constructor; cbn; try done. rewrite Hf, length_app, map_app. cbn.
  split; [lia|]. apply NoDup_app. split_and!; [done| |apply NoDup_singleton].
  intros x Hx ->%list_elem_of_singleton. done.
Qed.

Lemma release_control_inv c limit s : inv s → (c, limit) ∈ controlReading s → inv (release_control c s).
Proof.
  intros [? ? ? ? [Hf Hnd]] Hin. constructor; cbn; try done. rewrite Hf. clear Hf.
  induction (controlReading s) as [|[k z] l IH]; [by apply elem_of_nil in Hin|].
  cbn in Hnd. apply NoDup_cons in Hnd as [Hk Hnd].
  destruct (decide (k = c)) as [->|Hne].
  - rewrite filter_cons_False by (cbn; tauto).
    assert (filter (fun e => e.1 ≠ c) l = l) as ->.
    { clear -Hk. induction l as [|[k z'] l IH]; [done|]. apply not_elem_of_cons in Hk as [? ?].
      rewrite filter_cons_True by (cbn in *; congruence). f_equal. by apply IH. }
    cbn [length]. split; [|done]. destruct (Z.ltb_spec 0 (Z.of_nat (S (length l)))); lia.
  - rewrite filter_cons_True by done. apply elem_of_cons in Hin as [[= ? ?]|Hin]; [congruence|].
    destruct (IH Hnd Hin) as [IH1 IH2]. cbn [length map fst].
    assert (l ≠ []) by (intros ->; by apply elem_of_nil in Hin).
    assert (0 < length l)%nat by (destruct l; [done|cbn; lia]). split.
    + destruct (Z.ltb_spec 0 (Z.of_nat (S (length l)))); [|lia].
      destruct (Z.ltb_spec 0 (Z.of_nat (length l))) in IH1; lia.
    + apply NoDup_cons. split; [|done]. intros ([k' z'] & -> & [_ Hin']%list_elem_of_filter)%list_elem_of_fmap.
      apply Hk. apply list_elem_of_fmap. by exists (k', z').
Qed.

Lemma find_conn c (l : list (nat * Z)) e :
  List.find (fun e => (e.1 =? c)%nat) l = Some e → e ∈ l ∧ e.1 = c.
Proof. intros [? ?%Nat.eqb_eq]%List.find_some. by rewrite list_elem_of_In. Qed.

Lemma step_inv pinned s e s' out : inv s → step pinned s e = Some (s', out) → inv s'.
Proof.
  intros Hi. destruct e; cbn.
  - destruct (listening s && _) eqn:Hc; [|done]. intros [= <- _].
    apply andb_true_iff in Hc as [_ Hc%negb_true_iff%bool_decide_eq_false]. by apply control_open_inv.
  - destruct (List.find _ _) as [[c' limit]|] eqn:Hf; [|done]. intros [= <- _]. apply find_conn in Hf as [Hf <-].
    cbn. eapply release_control_inv; [destruct (parseEnvelope _ _); [done|by apply control_method_inv]|].
    destruct (parseEnvelope _ _); [done|]. rewrite control_method_reading. done.
  - destruct (listening s); [|done]. intros [= <- _]. unfold data_open.
    destruct (rejectHttpShape _ _); [done|]. apply (inv_with_pool s); try done. apply Hi.
  - destruct (List.find _ _) as [[c' limit]|]; [|done]. intros [= <- _]. by apply data_body_inv.
  - destruct (assoc id (active s)) as [a|] eqn:Ha; [|done]. destruct (ar_phase a) eqn:Hp; try done.
    intros [= <- _]. by apply resume_inv.
  - destruct (assoc id (active s)) as [a|] eqn:Ha; [|done]. destruct (ar_phase a) eqn:Hp; try done.
    intros [= <- _]. by apply settle_inv.
  - destruct (assoc id (active s)) as [a|] eqn:Ha; [|done]. destruct (ar_phase a) eqn:Hp; try done.
    intros [= <- _]. apply conclude_inv; [done|done|]. unfold is_waiting. by rewrite Hp.
  - destruct (assoc id (active s)) as [a|] eqn:Ha; [|done]. destruct (ar_timer a); [|done]. intros [= <- _].
    by apply on_active_inv.
  - destruct (stopScheduled s); [|done]. intros [= <- _]. apply (inv_with_pool s); try done. apply Hi.
  - intros [= <- _]. apply (inv_with_pool (cancel_all (close_admission s))); try done.
    { by apply cancel_all_inv, close_admission_inv. }
    by apply cancel_all_inv, close_admission_inv.
Qed.

(** The states a server can be in. *)
Inductive reachable (pinned : option HandshakeIdentity) : state → Prop :=
| reach_start bootstrapSecret bindings data_port control_port server :
    startProcessV1 bootstrapSecret bindings data_port control_port = Ok server → reachable pinned (ps_state server)
| reach_step s e s' out :
    reachable pinned s → step pinned s e = Some (s', out) → reachable pinned s'.

(** A server starts with its secret, its providers and two distinct ports. *)
Lemma start_Ok bootstrapSecret bindings data_port control_port server :
  startProcessV1 bootstrapSecret bindings data_port control_port = Ok server ↔
  length bootstrapSecret = 32%nat ∧ ∃ table data control,
    collectProviders bindings = Ok table ∧ data_port = Some data ∧ control_port = Some control ∧ data ≠ control ∧
    let readiness := JObj [(js "protocol", JStr PROCESS_PROFILE); (js "data_port", JNum (num data));
                           (js "control_port", JNum (num control))] in
    server = {| ps_state := start_state bootstrapSecret table; ps_readiness := readiness;
                ps_readinessLine := json_text readiness ++ [10%N] |}.
Proof.
  unfold startProcessV1. rewrite guard_Ok, negb_false_iff, Nat.eqb_eq, bind_Ok. split.
  - intros (Hl & table & Ht & Hs). split; [done|].
    destruct data_port as [data|], control_port as [control|]; try (by apply fail_Ok in Hs).
    apply guard_Ok in Hs as [Hne%Z.eqb_neq <-%ret_Ok]. eauto 10.
  - intros (Hl & table & data & control & Ht & -> & -> & Hne & ->). split; [done|]. exists table. split; [done|].
    apply guard_Ok. split; [by apply Z.eqb_neq|done].
Qed.

Lemma reachable_inv pinned s : reachable pinned s → inv s.
Proof.
  induction 1 as [b bindings dp cp server Hs|s e s' out _ IH Hstep]; [|by eapply step_inv].
  apply start_Ok in Hs as (_ & t & d & c & _ & _ & _ & _ & ->). apply start_inv.
Qed.

(** ** The identifiers *)

(** Every identifier the server has seen: in use or retired. *)
Definition known (s : state) : list jsstr := map fst (active s) ++ retired s.

Lemma upd_known id f s : known (on_active id f s) = known s.
Proof. unfold known. cbn. f_equal. apply (upd_keys id f (active s)). Qed.

Lemma finish_known id a outcome s x : x ∈ known s → x ∈ known (finish id a outcome s).1.
Proof.
  unfold known, finish, releaseDataSlot. cbn [fst]. rewrite elem_of_app. intros Hx.
  assert (x ∈ map fst (active (retire id s)) ∨ x ∈ retired (retire id s)) as Hx'.
  { cbn. destruct (decide (x = id)) as [->|Hne].
    - right. destruct (mem id (retired s)) eqn:Hm; [by apply mem_true in Hm|]. apply elem_of_app. right. by left.
    - destruct Hx as [Hx|Hx].
      + left. apply list_elem_of_fmap in Hx as (e & -> & He). apply list_elem_of_fmap. exists e.
        split; [done|]. by apply list_elem_of_filter.
      + right. destruct (mem id (retired s)); [done|]. apply elem_of_app. by left. }
  change (dataWaiters (retire id s)) with (dataWaiters s). apply elem_of_app.
  destruct (dataWaiters s) as [|w ws]; [done|]. cbn. fold (upd w (with_phase Granted) (active (retire id s))).
  pose proof (upd_keys w (with_phase Granted) (active (retire id s))) as Hk. unfold upd in Hk. cbn in Hk, Hx'.
  by rewrite Hk.
Qed.

Lemma conclude_known id a o s x : x ∈ known s → x ∈ known (conclude id a o s).1.
Proof. intros. unfold conclude. destruct (validateProviderOutcome _ _ _); by apply finish_known. Qed.

Lemma data_request_known c env params s x : x ∈ known s → x ∈ known (data_request c env params s).1.
Proof.
  intros Hx. unfold data_request. repeat (case_match; try done). unfold enter_request, acquireDataSlot.
  assert (∀ y, x ∈ known s → x ∈ known (set_active (active s ++ y) s)) as Happ.
  { intros y. unfold known. cbn. rewrite map_app, !elem_of_app. tauto. }
  repeat case_match; simplify_eq; cbn; try by apply Happ.
  unfold known in *. cbn. rewrite elem_of_app in *. destruct (decide (x = rp_correlation_id params)) as [->|Hne].
  - right. case_match eqn:Hm; [by apply mem_true in Hm|]. apply elem_of_app. right. by left.
  - destruct Hx as [Hx|Hx]; [left|right].
    + apply list_elem_of_fmap in Hx as (e & -> & He). apply list_elem_of_fmap. exists e. split; [done|].
      apply list_elem_of_filter. split; [done|]. apply elem_of_app. by left.
    + case_match; [done|]. apply elem_of_app. by left.
Qed.

Lemma map_known f s : known (set_active (map (fun e => (e.1, f e.2)) (active s)) s) = known s.
Proof. unfold known. cbn. f_equal. by rewrite map_map. Qed.

Lemma control_method_known pinned env random s : known (control_method pinned env random s).1 = known s.
Proof.
  unfold control_method, handshake. repeat (case_match; try done); cbn.
  - apply upd_known.
  - apply (map_known cancel).
Qed.

(** ** The handshake *)

(** What makes a handshake succeed. *)
Definition authenticated (pinned : option HandshakeIdentity) (s : state) (params : HandshakeParams) : Prop :=
  (∀ i, pinned = Some i → sameIdentity (hp_identity params) i = true) ∧
  validateProviderIdentity (hp_identity params) (providers s) = Ok tt ∧
  decodeBase64Url32 (host_proof params) =
    Some (createHmac (secret s) (hostProofMessage (sha256 (handshakeProofPayload params)))).

Lemma handshake_cases pinned env random s :
  let s' := (handshake pinned env random s).1 in
  s' = s ∧ handshakeAttempted s = true ∨
  handshakeAttempted s = false ∧
  (s' = attempt_handshake s ∨
   ∃ params, validateHandshakeParams env = Some params ∧ authenticated pinned s params ∧
     s' = open_session (encodeBase64Url random) (hp_identity params) (attempt_handshake s)).
Proof.
  unfold handshake. destruct (handshakeAttempted s) eqn:Hn; [by left|]. right. split; [done|].
  destruct (validateHandshakeParams env) as [params|] eqn:Hv; [|by left].
  destruct (match pinned with Some i => _ | None => _ end) eqn:Hpin; [by left|].
  destruct (validateProviderIdentity _ _) as [[]|] eqn:Hid; [|by left].
  destruct (decodeBase64Url32 _) as [actual|] eqn:Hdec; [|by left].
  destruct (negb (_ =? _)%nat); [by left|]. destruct (negb (bool_decide _)) eqn:Heq; [by left|].
  right. exists params. split; [done|]. split; [|done]. split.
  - intros i ->. by apply negb_false_iff in Hpin.
  - split; [done|]. apply negb_false_iff, bool_decide_eq_true in Heq. by rewrite Hdec, Heq.
Qed.

#[local] Arguments on_active : simpl never.
#[local] Arguments finish : simpl never.
#[local] Arguments conclude : simpl never.

(** The fields only a handshake writes. *)
Definition credentials (s : state) := (handshakeAttempted s, session s, admittedIdentity s, secret s).

Lemma step_credentials pinned s e s' out :
  step pinned s e = Some (s', out) →
  credentials s' = credentials s ∨
  ∃ env random, credentials s' = credentials (handshake pinned env random s).1.
Proof.
  assert (∀ id a o s, credentials (finish id a o s).1 = credentials s) as Hfin.
  { intros. unfold finish, releaseDataSlot. cbn. by destruct (dataWaiters _). }
  intros Hs. destruct e; cbn in Hs.
  2: { case_match; [|done]. destruct p. injection Hs as <- _. cbn.
       destruct (parseEnvelope _ _) as [|env]; [by left|]. unfold control_method.
       destruct (bool_decide _); [right; by exists env, random|]. left. by repeat (case_match; try done). }
  - left. case_match; [|done]. injection Hs as <- _. unfold control_open. by repeat (case_match; try done).
  - left. case_match; [|done]. injection Hs as <- _. unfold data_open. by repeat (case_match; try done).
  - left. case_match; [|done]. destruct p. injection Hs as <- _. unfold data_body, data_request, enter_request, acquireDataSlot.
    cbn. repeat (case_match; simplify_eq; cbn; try done).
  - left. repeat (case_match; try done). injection Hs as <- _. cbn. unfold resume.
    repeat case_match; cbn; unfold fail_request; rewrite ?Hfin; done.
  - left. repeat (case_match; try done). injection Hs as <- _. cbn. unfold settle, conclude.
    repeat case_match; cbn; unfold fail_request; rewrite ?Hfin; done.
  - left. repeat (case_match; try done). injection Hs as <- _. unfold conclude.
    repeat case_match; cbn; unfold fail_request; rewrite ?Hfin; done.
  - left. repeat (case_match; try done). by injection Hs as <- _.
  - left. case_match; [|done]. by injection Hs as <- _.
  - left. by injection Hs as <- _.
Qed.

(** ** The control queue *)

(** The control requests being read or answered, at most. *)
Definition control_capacity (s : state) : Z :=
  match admittedIdentity s with Some i => control_queue_capacity (peer_limits i) | None => 32 end.

Lemma finish_control id a o s : controlInFlight (finish id a o s).1 = controlInFlight s.
Proof. unfold finish, releaseDataSlot. cbn. by destruct (dataWaiters _). Qed.

Lemma control_method_in_flight pinned env random s :
  controlInFlight (control_method pinned env random s).1 = controlInFlight s.
Proof. unfold control_method, handshake. repeat (case_match; try done). Qed.

(** A step takes a place of the control queue only while one is free; it may give one back. *)
Lemma step_control pinned s e s' out :
  step pinned s e = Some (s', out) →
  controlInFlight s' <= controlInFlight s ∨
  admittedIdentity s' = admittedIdentity s ∧ controlInFlight s' = controlInFlight s + 1 ∧
  controlInFlight s < control_capacity s.
Proof.
  intros Hs. destruct e; cbn in Hs.
  - case_match; [|done]. injection Hs as <- _. unfold control_open. fold (control_capacity s).
    destruct (Z.leb_spec (control_capacity s) (controlInFlight s)); [left; cbn; lia|].
    destruct (rejectHttpShape _ _); [left; cbn; lia|]. right. by split_and!.
  - left. case_match; [|done]. destruct p. injection Hs as <- _. unfold control_body. cbn.
    destruct (parseEnvelope _ _); cbn; rewrite ?control_method_in_flight; case_match; lia.
  - left. case_match; [|done]. injection Hs as <- _. unfold data_open. repeat case_match; cbn; lia.
  - left. case_match; [|done]. destruct p. injection Hs as <- _.
    unfold data_body, data_request, enter_request, acquireDataSlot.
    cbn. repeat (case_match; simplify_eq; cbn; try lia).
  - left. repeat (case_match; try done). injection Hs as <- _. cbn. unfold resume.
    repeat case_match; cbn; unfold fail_request; rewrite ?finish_control; apply Z.le_refl.
  - left. repeat (case_match; try done). injection Hs as <- _. cbn. unfold settle, conclude.
    repeat case_match; cbn; unfold fail_request; rewrite ?finish_control; apply Z.le_refl.
  - left. repeat (case_match; try done). injection Hs as <- _. unfold conclude.
    repeat case_match; cbn; unfold fail_request; rewrite ?finish_control; apply Z.le_refl.
  - left. repeat (case_match; try done). injection Hs as <- _. apply Z.le_refl.
  - left. case_match; [|done]. injection Hs as <- _. apply Z.le_refl.
  - left. injection Hs as <- _. apply Z.le_refl.
Qed.

(** The admitted identity is set once, by the handshake. *)
Lemma step_identity pinned s e s' out :
  inv s → step pinned s e = Some (s', out) → admittedIdentity s' = admittedIdentity s ∨ admittedIdentity s = None.
Proof.
  intros Hi Hs. destruct (step_credentials _ _ _ _ _ Hs) as [Hc|(env & random & Hc)].
  { left. unfold credentials in Hc. congruence. }
  destruct (handshake_cases pinned env random s) as [[Heq _]|[Hf _]].
  - left. rewrite Heq in Hc. unfold credentials in Hc. congruence.
  - right. apply (inv_session _ Hi), (inv_before _ Hi Hf).
Qed.

(** The queue may still hold what it admitted before the handshake, under the default capacity. *)
Lemma reachable_control pinned s :
  reachable pinned s → 0 <= controlInFlight s <= Z.max 32 (control_capacity s).
Proof.
  intros Hr. split; [rewrite (proj1 (inv_control _ (reachable_inv _ _ Hr))); lia|].
  induction Hr as [b bindings dp cp server Hs|s e s' out Hr IH Hs].
  - apply start_Ok in Hs as (_ & t & d & c & _ & _ & _ & _ & ->). cbn. lia.
  - pose proof (step_identity _ _ _ _ _ (reachable_inv _ _ Hr) Hs) as Hid.
    destruct (step_control _ _ _ _ _ Hs) as [Hle|(Heq & Hn & Hlt)].
    + destruct Hid as [Hid|Hid]; unfold control_capacity in *; rewrite ?Hid in *; [lia|]. case_match; lia.
    + unfold control_capacity in *. rewrite Heq. lia.
Qed.

(** ** Admission *)

(** C13: in every state a Process V1 server can reach after the handshake, the running
    counter is the number of admitted requests that hold a slot and never exceeds
    [max_concurrent_requests]; the waiter queue is exactly the suspended requests in
    order of arrival, never longer than [child_request_queue_capacity], and is used
    only while every slot is taken; active and retired identifiers together stay
    below the sum of the three limits.  The control counter is the number of control
    requests being read, it never exceeds [control_queue_capacity] or the 32 allowed
    before the handshake, and a step that raises it leaves it within
    [control_queue_capacity]. *)
Theorem process_pool_bounds pinned s identity :
  reachable pinned s → admittedIdentity s = Some identity →
  let lim := peer_limits identity in
  runningDataRequests s = Z.of_nat (slots (active s)) ∧
  runningDataRequests s <= Z.max 0 (max_concurrent_requests lim) ∧
  dataWaiters s = queued (active s) ∧
  Z.of_nat (length (dataWaiters s)) <= Z.max 0 (child_request_queue_capacity lim) ∧
  (dataWaiters s ≠ [] → max_concurrent_requests lim <= runningDataRequests s) ∧
  Z.of_nat (length (active s)) = runningDataRequests s + Z.of_nat (length (dataWaiters s)) ∧
  Z.of_nat (length (retired s)) + Z.of_nat (length (active s)) <=
    Z.max 0 (max_retired_correlation_ids lim - 1 + Z.max 0 (max_concurrent_requests lim) +
             Z.max 0 (child_request_queue_capacity lim)) ∧
  controlInFlight s = Z.of_nat (length (controlReading s)) ∧
  controlInFlight s <= Z.max 32 (control_queue_capacity lim) ∧
  (∀ e s' out, step pinned s e = Some (s', out) → controlInFlight s < controlInFlight s' →
     controlInFlight s' <= control_queue_capacity lim).
Proof.
  intros Hr Hid. pose proof (reachable_inv _ _ Hr) as Hi. pose proof (inv_pool _ Hi) as Hp. unfold pool_of in Hp.
  rewrite Hid in Hp. destruct Hp as [_ -> -> (? & ? & ? & ?)]. cbn zeta.
  pose proof (pool_length (active s)). pose proof (reachable_control _ _ Hr) as Hc.
  unfold control_capacity in Hc. rewrite Hid in Hc.
  split_and!; [done..|lia|done|apply (inv_control _ Hi)|lia|].
  intros e s' out Hs Hgt. destruct (step_control _ _ _ _ _ Hs) as [?|(_ & ? & Hlt)]; [lia|].
  unfold control_capacity in Hlt. rewrite Hid in Hlt. lia.
Qed.

(** Past the check of [data_request] a slot is taken or the request queues: the answer
    [false] of [acquireDataSlot], and the microtask between the request's entry and
    its removal there, never happen. *)
Lemma slot_never_refused pinned s identity id :
  reachable pinned s → admittedIdentity s = Some identity →
  let lim := peer_limits identity in
  (max_concurrent_requests lim <=? Z.of_nat (length (active s))) &&
  (child_request_queue_capacity lim <=? Z.of_nat (length (dataWaiters s))) = false →
  (acquireDataSlot (max_concurrent_requests lim) (child_request_queue_capacity lim) id s).1 ≠ Refused.
Proof.
  intros Hr Hid lim Hroom. pose proof (inv_pool _ (reachable_inv _ _ Hr)) as Hp. unfold pool_of in Hp.
  rewrite Hid in Hp. destruct Hp as [_ Hrun Hw _]. pose proof (pool_length (active s)) as Hl.
  unfold acquireDataSlot. destruct (Z.ltb_spec (runningDataRequests s) (max_concurrent_requests lim)); [done|].
  destruct (Z.leb_spec (child_request_queue_capacity lim) (Z.of_nat (length (dataWaiters s)))); [|done].
  rewrite andb_true_r in Hroom. apply Z.leb_gt in Hroom. lia.
Qed.

Lemma step_known pinned s e s' out x : step pinned s e = Some (s', out) → x ∈ known s → x ∈ known s'.
Proof.
  intros Hs Hx. destruct e; cbn in Hs.
  - case_match; [|done]. injection Hs as <- _. unfold control_open. by repeat (case_match; try done).
  - case_match; [|done]. destruct p. injection Hs as <- _. cbn. unfold known. cbn.
    destruct (parseEnvelope _ _) as [|env]; [done|].
    fold (known (control_method pinned env random s).1). by rewrite control_method_known.
  - case_match; [|done]. injection Hs as <- _. unfold data_open. by repeat (case_match; try done).
  - case_match; [|done]. destruct p. injection Hs as <- _. unfold data_body. cbn.
    repeat (case_match; try done). by apply data_request_known.
  - repeat (case_match; try done). injection Hs as <- _. cbn. unfold resume.
    repeat case_match; cbn; try by apply finish_known. by rewrite upd_known.
  - repeat (case_match; try done). injection Hs as <- _. cbn. unfold settle.
    repeat case_match; cbn; [by rewrite upd_known|by apply conclude_known|by apply finish_known].
  - repeat (case_match; try done). injection Hs as <- _. by apply conclude_known.
  - repeat (case_match; try done). injection Hs as <- _. by rewrite upd_known.
  - case_match; [|done]. by injection Hs as <- _.
  - injection Hs as <- _. unfold known. cbn. by rewrite map_map.
Qed.

(** C15: a correlation identifier is served at most once.  The identifiers in use and
    the retired ones are pairwise distinct, none is ever forgotten, and a request
    that reuses one is refused and closes admission. *)
Theorem process_identifier_once pinned s :
  reachable pinned s →
  NoDup (known s) ∧
  (∀ e s' out id, step pinned s e = Some (s', out) → id ∈ known s → id ∈ known s') ∧
  (∀ c env params, rp_correlation_id params ∈ known s → accepting s = true →
     session s = Some (rp_session params) → env_id env = rp_correlation_id params →
     data_request c env params s =
       (close_admission s,
        Some (rpcError (Some (env_id env)) (-32602) "duplicate or retired correlation ID"))).
Proof.
  intros Hr. pose proof (reachable_inv _ _ Hr) as Hi. split; [apply (inv_pool _ Hi)|].
  split; [intros; by eapply step_known|].
  intros c env params Hk Hacc Hs Hid. unfold data_request. rewrite Hacc, Hs.
  destruct (admittedIdentity s) eqn:Ha.
  2: { exfalso. pose proof (proj2 (inv_session _ Hi) Ha). congruence. }
  rewrite (bool_decide_eq_true_2 (rp_session params = rp_session params)) by done.
  rewrite (bool_decide_eq_true_2 (env_id env = _)) by done. cbn [negb orb].
  assert (mem (rp_correlation_id params) (map fst (active s)) || mem (rp_correlation_id params) (retired s) = true) as ->;
    [|reflexivity].
  apply orb_true_iff. rewrite !mem_true. by apply elem_of_app.
Qed.

(** ** One handshake *)

(** C16: the handshake is one-shot and authenticated.  No session exists before an
    attempt; whatever a first attempt answers, the bootstrap secret is zeroed; a
    session opens only in a step that checked the pinned identity, the provider
    table and the host's proof under the secret; and an open session, its identity
    and the fact of the attempt never change. *)
Theorem process_handshake_authenticated pinned s :
  reachable pinned s →
  (handshakeAttempted s = false → session s = None) ∧
  (handshakeAttempted s = true → Forall (fun b => b = 0%N) (secret s)) ∧
  ∀ e s' out, step pinned s e = Some (s', out) →
    (handshakeAttempted s = true → credentials s' = credentials s) ∧
    (session s' ≠ session s → ∃ params, authenticated pinned s params ∧
       admittedIdentity s' = Some (hp_identity params) ∧ Forall (fun b => b = 0%N) (secret s')).
Proof.
  intros Hr. pose proof (reachable_inv _ _ Hr) as Hi. split_and!; [apply Hi|apply Hi|].
  intros e s' out Hs. pose proof (step_inv _ _ _ _ _ Hi Hs) as Hi'.
  destruct (step_credentials _ _ _ _ _ Hs) as [Hc|(env & random & Hc)].
  { split; [done|]. intros Hne. unfold credentials in Hc. congruence. }
  destruct (handshake_cases pinned env random s) as [[Heq Ht]|[Hf Hcases]].
  { rewrite Heq in Hc. split; [done|]. intros Hne. unfold credentials in Hc. congruence. }
  split; [congruence|]. intros Hne. destruct Hcases as [Heq|(params & _ & Hauth & Heq)]; rewrite Heq in Hc.
  { unfold credentials in Hc. cbn in Hc. congruence. }
  exists params. split; [done|]. unfold credentials in Hc. cbn in Hc. injection Hc as E1 E2 E3 E4.
  split; [done|]. by apply (inv_secret _ Hi').
Qed.

(** ** Shutdown *)

Lemma on_active_keys id f s : map fst (active (on_active id f s)) = map fst (active s).
Proof. exact (upd_keys id f (active s)). Qed.

Lemma finish_keys id a o s x : x ∈ map fst (active (finish id a o s).1) → x ∈ map fst (active s).
Proof.
  unfold finish, releaseDataSlot. change (dataWaiters (retire id s)) with (dataWaiters s).
  assert (x ∈ map fst (active (retire id s)) → x ∈ map fst (active s)) as Hret.
  { cbn. intros (e & -> & [_ He]%list_elem_of_filter)%list_elem_of_fmap. apply list_elem_of_fmap. by exists e. }
  destruct (dataWaiters s) as [|w ws]; [exact Hret|]. cbn [fst]. rewrite on_active_keys. exact Hret.
Qed.

Lemma finish_accepting id a o s : accepting (finish id a o s).1 = accepting s.
Proof. unfold finish, releaseDataSlot. cbn. by destruct (dataWaiters _). Qed.

Lemma upd_active_keys id f s x : x ∈ map fst (active (on_active id f s)) → x ∈ map fst (active s).
Proof. by rewrite on_active_keys. Qed.

Lemma conclude_closed id a o s :
  accepting s = false →
  accepting (conclude id a o s).1 = false ∧
  ∀ x, x ∈ map fst (active (conclude id a o s).1) → x ∈ map fst (active s).
Proof.
  intros Hacc. unfold conclude, fail_request.
  destruct (validateProviderOutcome _ _ _); rewrite finish_accepting; (split; [done|]);
    intros x Hx%finish_keys; done.
Qed.

Lemma data_request_closed c env params s :
  accepting s = false → (data_request c env params s).1 = s.
Proof. intros Hacc. unfold data_request. by rewrite Hacc. Qed.

(** Once admission is closed (by a shutdown, a stop, a reused identifier, an
    exhausted identifier table, an unknown operation or a failed provider) it stays
    closed: no later step admits a request, the active ones only leave; and a
    shutdown or a stop cancels every active request. *)
Theorem process_closed_forever pinned s e s' out :
  step pinned s e = Some (s', out) → accepting s = false →
  accepting s' = false ∧ (∀ id, id ∈ map fst (active s') → id ∈ map fst (active s)) ∧
  (e = Stop → ∀ id a, assoc id (active s') = Some a → ar_cancelled a = true).
Proof.
  intros Hs Hacc. destruct e; cbn in Hs.
  - split_and!; [..|done]; (case_match; [|done]); injection Hs as <- _; unfold control_open;
      by repeat (case_match; try done).
  - case_match; [|done]. destruct p. injection Hs as <- _. cbn. destruct (parseEnvelope _ _) as [|env]; [done|].
    unfold control_method, handshake. repeat (case_match; try done); cbn; (split_and!; [done| |done]).
    + apply upd_active_keys.
    + intros x. by rewrite map_map.
  - split_and!; [..|done]; (case_match; [|done]); injection Hs as <- _; unfold data_open;
      by repeat (case_match; try done).
  - case_match; [|done]. destruct p. injection Hs as <- _. unfold data_body, respond. cbn [fst].
    repeat (case_match; try done). by rewrite data_request_closed.
  - repeat (case_match; try done). injection Hs as <- _. unfold resume, respond. cbn [fst].
    split_and!; [..|done]; repeat case_match; cbn [fst answered]; unfold fail_request;
      rewrite ?finish_accepting; try done; intros x Hx;
      first [exact (finish_keys _ _ _ _ _ Hx)|exact (upd_active_keys _ _ _ _ Hx)].
  - repeat (case_match; try done). injection Hs as <- _. unfold settle, respond. cbn [fst].
    repeat case_match; cbn [fst answered].
    + split_and!; [done|apply upd_active_keys|done].
    + by destruct (conclude_closed id a a0 s Hacc).
    + unfold fail_request. rewrite finish_accepting. split_and!; [done|by intros x Hx%finish_keys|done].
  - repeat (case_match; try done). injection Hs as <- _. cbn [fst answered respond].
    by destruct (conclude_closed id a outcome s Hacc).
  - repeat (case_match; try done). injection Hs as <- _. split_and!; [done|apply upd_active_keys|done].
  - case_match; [|done]. by injection Hs as <- _.
  - injection Hs as <- _. cbn. split_and!; [done|intros x; by rewrite map_map|].
    intros _ id a Ha%assoc_Some_in. apply list_elem_of_fmap in Ha as (x & [= -> ->] & _). done.
Qed.

(** ** Every admitted request is answered *)

(** How many segments a request still has to run, at most. *)
Definition weight (a : ActiveRequest) : nat :=
  match ar_phase a with Waiting => 4 | Granted => 3 | Running => 2 | Observing _ => 1 end.

Definition total_weight (l : pool) : nat := sum_list (map (fun e => weight e.2) l).
Definition connections (l : pool) : list nat := map (fun e => ar_connection e.2) l.

Lemma total_weight_app l1 l2 : total_weight (l1 ++ l2) = (total_weight l1 + total_weight l2)%nat.
Proof. unfold total_weight. rewrite map_app. apply sum_list_with_app. Qed.

(** One entry changes, or leaves. *)
Lemma upd_effect id a f l :
  NoDup (map fst l) → assoc id l = Some a → ar_connection (f a) = ar_connection a →
  (total_weight (upd id f l) + weight a = total_weight l + weight (f a))%nat ∧
  connections (upd id f l) = connections l.
Proof.
  intros Hnd Ha Hc. destruct (pool_split id a l Hnd Ha) as (l1 & l2 & -> & H1 & H2).
  rewrite upd_split by done. rewrite !total_weight_app. unfold connections. rewrite !map_app. cbn. rewrite Hc.
  split; [|done]. unfold total_weight. cbn. lia.
Qed.

Lemma drop_effect id a l :
  NoDup (map fst l) → assoc id l = Some a →
  (total_weight l = weight a + total_weight (drop_id id l))%nat ∧
  connections l ≡ₚ ar_connection a :: connections (drop_id id l).
Proof.
  intros Hnd Ha. destruct (pool_split id a l Hnd Ha) as (l1 & l2 & -> & H1 & H2).
  rewrite drop_split by done. rewrite !total_weight_app. unfold connections. rewrite !map_app. cbn.
  split; [unfold total_weight; cbn; lia|]. by rewrite <- Permutation_middle.
Qed.

Lemma queued_entry id l : NoDup (map fst l) → id ∈ queued l → ∃ a, assoc id l = Some a ∧ ar_phase a = Waiting.
Proof.
  intros Hnd ([k a] & -> & He)%list_elem_of_fmap. rewrite list_elem_of_In in He.
  apply List.filter_In in He as [He Hw]. exists a. split.
  - apply assoc_NoDup; [done|]. by rewrite list_elem_of_In.
  - cbn in Hw. unfold is_waiting in Hw. by destruct (ar_phase a).
Qed.

Lemma finish_effect id a o s :
  inv s → assoc id (active s) = Some a → is_waiting a = false →
  (total_weight (active (finish id a o s).1) < total_weight (active s))%nat ∧
  ar_connection a :: connections (active (finish id a o s).1) ≡ₚ connections (active s).
Proof.
  intros Hi Ha Hw. pose proof (inv_pool _ Hi) as Hp. pose proof (p_act_keys _ _ _ _ _ Hp) as Hnd.
  destruct (drop_effect id a (active s) Hnd Ha) as [Hd1 Hd2].
  assert (0 < weight a)%nat by (unfold weight; destruct (ar_phase a); lia).
  destruct Hp as [Hk _ Hq _]. destruct (retire_keys _ _ _ _ Hk Ha Hw) as (Hk' & _ & Hqd & _).
  apply NoDup_app in Hk' as (Hnd' & _ & _).
  unfold finish, releaseDataSlot. cbn [fst]. change (dataWaiters (retire id s)) with (dataWaiters s).
  destruct (dataWaiters s) as [|w ws].
  - change (active (set_slots _ [] (retire id s))) with (drop_id id (active s)). split; [lia|done].
  - change (active (on_active w (with_phase Granted) _)) with (upd w (with_phase Granted) (drop_id id (active s))).
    destruct (queued_entry w (drop_id id (active s)) Hnd') as (b & Hb & Hpb).
    { rewrite Hqd, <- Hq. by left. }
    destruct (upd_effect w b (with_phase Granted) _ Hnd' Hb eq_refl) as [Hu1 ->].
    split; [|done].
    assert (weight b = 4%nat) as Hwb by (unfold weight; by rewrite Hpb).
    change (weight (with_phase Granted b)) with 3%nat in Hu1. lia.
Qed.

(** The steps the server takes by itself, the providers' answers being given. *)
Definition internal (answer : jsstr → completion ProviderDispatchOutcome) (e : event) : Prop :=
  match e with
  | Resume _ | Observed _ => True
  | Settle id o => o = answer id
  | _ => False
  end.

Fixpoint run (pinned : option HandshakeIdentity) (s : state) (es : list event)
  : option (state * list (nat * Response)) :=
  match es with
  | [] => Some (s, [])
  | e :: es =>
      match step pinned s e with
      | Some (s', out) => match run pinned s' es with
                          | Some (s'', out') => Some (s'', out ++ out')
                          | None => None
                          end
      | None => None
      end
  end.

Lemma conclude_effect id a o s :
  inv s → assoc id (active s) = Some a → is_waiting a = false →
  (total_weight (active (conclude id a o s).1) < total_weight (active s))%nat ∧
  ar_connection a :: connections (active (conclude id a o s).1) ≡ₚ connections (active s).
Proof.
  intros Hi Ha Hw. unfold conclude, fail_request. destruct (validateProviderOutcome _ _ _).
  - by apply finish_effect.
  - apply (finish_effect id a _ (close_admission s)); [by apply close_admission_inv|done|done].
Qed.

Lemma phase_effect id a p s :
  inv s → assoc id (active s) = Some a → (weight (with_phase p a) < weight a)%nat →
  (total_weight (active (on_active id (with_phase p) s)) < total_weight (active s))%nat ∧
  connections (active (on_active id (with_phase p) s)) = connections (active s).
Proof.
  intros Hi Ha Hw. pose proof (p_act_keys _ _ _ _ _ (inv_pool _ Hi)) as Hnd.
  change (active (on_active id (with_phase p) s)) with (upd id (with_phase p) (active s)).
  destruct (upd_effect id a (with_phase p) _ Hnd Ha eq_refl) as [? ->]. split; [lia|done].
Qed.

(** A step of the server makes progress and loses no connection. *)
Lemma internal_effect pinned answer s e s' out :
  inv s → internal answer e → step pinned s e = Some (s', out) →
  (total_weight (active s') < total_weight (active s))%nat ∧
  map fst out ++ connections (active s') ≡ₚ connections (active s).
Proof.
  intros Hi He Hs. destruct e; try done; cbn in Hs;
    (destruct (assoc id (active s)) as [a|] eqn:Ha; [|done]); destruct (ar_phase a) eqn:Hp; try done;
    (assert (is_waiting a = false) as Hw by (unfold is_waiting; by rewrite Hp)); injection Hs as <- <-.
  - unfold resume. destruct (ar_cancelled a); [by apply finish_effect|].
    destruct (validateRequest _ _ _).
    + destruct (phase_effect id a Running s Hi Ha) as [? Hc]; [unfold weight; rewrite Hp; cbn; lia|].
      cbn. by rewrite Hc.
    + refine (finish_effect id a _ (close_admission s) _ _ _); [by apply close_admission_inv|done|done].
  - unfold settle. destruct o as [o|e].
    + destruct (ar_cancelled a); [|by apply conclude_effect].
      destruct (phase_effect id a (Observing o) s Hi Ha) as [? Hc]; [unfold weight; rewrite Hp; cbn; lia|].
      cbn. by rewrite Hc.
    + refine (finish_effect id a _ (close_admission s) _ _ _); [by apply close_admission_inv|done|done].
  - by apply conclude_effect.
Qed.

Lemma internal_identity pinned answer s e s' out :
  internal answer e → step pinned s e = Some (s', out) → admittedIdentity s' = admittedIdentity s.
Proof.
  assert (∀ id a o s, admittedIdentity (finish id a o s).1 = admittedIdentity s) as Hfin.
  { intros. unfold finish, releaseDataSlot. cbn. by destruct (dataWaiters _). }
  intros He Hs. destruct e; try done; cbn in Hs;
    (destruct (assoc id (active s)) as [a|] eqn:Ha; [|done]); destruct (ar_phase a) eqn:Hp; try done;
    injection Hs as <- <-; cbn [respond fst]; unfold resume, settle, conclude, fail_request;
    repeat case_match; cbn [answered fst]; rewrite ?Hfin; done.
Qed.

(** With a slot to give, some admitted request can always move. *)
Lemma internal_enabled pinned answer s identity :
  inv s → admittedIdentity s = Some identity → 0 < max_concurrent_requests (peer_limits identity) →
  active s ≠ [] → ∃ e s' out, internal answer e ∧ step pinned s e = Some (s', out).
Proof.
  intros Hi Hid Hmax Hne. pose proof (inv_pool _ Hi) as Hp. pose proof (p_act_keys _ _ _ _ _ Hp) as Hnd.
  unfold pool_of in Hp. rewrite Hid in Hp. destruct Hp as [_ _ _ (_ & _ & H3 & _)].
  assert (0 < slots (active s))%nat as Hs.
  { destruct (queued (active s)) eqn:Hq; [|specialize (H3 ltac:(done)); lia].
    pose proof (pool_length (active s)) as Hl. rewrite Hq in Hl.
    destruct (active s) as [|x l]; [done|]. cbn [length] in Hl. lia. }
  unfold slots in Hs. destruct (List.filter _ _) as [|[id a] rest] eqn:Hf; [cbn in Hs; lia|].
  assert (In (id, a) (List.filter (fun e => negb (is_waiting e.2)) (active s))) as Hin by (rewrite Hf; by left).
  apply List.filter_In in Hin as [Hin Hw]. rewrite <- list_elem_of_In in Hin.
  pose proof (assoc_NoDup id a _ Hnd Hin) as Ha. unfold is_waiting in Hw. cbn in Hw.
  destruct (ar_phase a) eqn:Hp; [done|..].
  - exists (Resume id). do 2 eexists. split; [done|]. cbn. rewrite Ha, Hp. reflexivity.
  - exists (Settle id (answer id)). do 2 eexists. split; [done|]. cbn. rewrite Ha, Hp. reflexivity.
  - exists (Observed id). do 2 eexists. split; [done|]. cbn. rewrite Ha, Hp. reflexivity.
Qed.

(** C14: every admitted request is answered, exactly once.  From any reachable state,
    whatever the providers answer, a run of the server's own steps is no longer than
    the remaining work; at each of its points the connections answered so far and the
    ones still open are together those that were open; and it can be continued until
    no request is active. *)
Theorem process_requests_answered pinned s identity answer es s' out :
  reachable pinned s → admittedIdentity s = Some identity →
  0 < max_concurrent_requests (peer_limits identity) →
  Forall (internal answer) es → run pinned s es = Some (s', out) →
  (length es <= total_weight (active s))%nat ∧
  map fst out ++ connections (active s') ≡ₚ connections (active s) ∧
  (active s' ≠ [] → ∃ e s'' o, internal answer e ∧ step pinned s' e = Some (s'', o)).
Proof.
  intros Hr%reachable_inv Hid Hmax. revert s out Hr Hid.
  induction es as [|e es IH]; intros s out Hi Hid He Hrun; cbn in Hrun.
  { injection Hrun as <- <-. cbn. split; [lia|]. split; [done|]. by eapply internal_enabled. }
  apply Forall_cons in He as [He Hes].
  destruct (step pinned s e) as [[s1 o1]|] eqn:Hs; [|done].
  destruct (run pinned s1 es) as [[s2 o2]|] eqn:Hr; [|done]. injection Hrun as <- <-.
  destruct (internal_effect _ _ _ _ _ _ Hi He Hs) as [Hw Hc].
  destruct (IH s1 o2 (step_inv _ _ _ _ _ Hi Hs)) as (IH1 & IH2 & IH3); try done.
  { by rewrite (internal_identity _ _ _ _ _ _ He Hs). }
  cbn [length]. split; [lia|]. split; [|done].
  rewrite map_app, <- app_assoc, IH2. done.
Qed.
End correct.

(** ** Timers, framing and start-up *)

(** The timer of a request never fires before its remaining time has passed, and
    at most a millisecond after it, unless the delay is cut at the platform's largest
    timer (2^31-1 ms); a request without a deadline has no timer. *)
Theorem child_timer_exact (remaining : option N) :
  match startChildTimer remaining, remaining with
  | None, None => True
  | Some ms, Some nanos =>
      0 <= ms <= 2147483647 ∧ ms * 1000000 < Z.of_N nanos + 1000000 ∧
      (ms < 2147483647 → Z.of_N nanos <= ms * 1000000)
  | _, _ => False
  end.
Proof.
  destruct remaining as [n|]; [|done]. cbn.
  pose proof (Z.div_mod (Z.of_N n + 999999) 1000000 ltac:(done)).
  pose proof (Z.mod_pos_bound (Z.of_N n + 999999) 1000000 ltac:(done)).
  assert (0 <= (Z.of_N n + 999999) / 1000000) by (apply Z.div_pos; lia). lia.
Qed.

Lemma read_chunks_Some n joined chunks limit r :
  read_chunks n joined chunks limit = Some r → r = joined ++ concat chunks.
Proof.
  revert n joined; induction chunks as [|v chunks IH]; intros n joined; cbn.
  - intros [= <-]. by rewrite app_nil_r.
  - destruct (_ <? _); [done|]. intros ->%IH. by rewrite app_assoc.
Qed.

Lemma read_chunks_iff n joined chunks limit :
  n <= limit →
  (∃ r, read_chunks n joined chunks limit = Some r) ↔ n + Z.of_nat (length (concat chunks)) <= limit.
Proof.
  revert n joined; induction chunks as [|v chunks IH]; intros n joined Hn; cbn.
  - split; [lia|by eexists].
  - rewrite length_app. destruct (Z.ltb_spec limit (n + Z.of_nat (length v))).
    + split; [by intros [? ?]|]. lia.
    + rewrite IH by done. lia.
Qed.

(** A body is accepted exactly when all its chunks together fit the limit and are
    UTF-8, however the connection splits them; the text is that of the joined bytes. *)
Theorem read_bounded_exact chunks limit text :
  0 <= limit →
  readBounded (Some chunks) limit = Some text ↔
  Z.of_nat (length (concat chunks)) <= limit ∧ decode_fatal (concat chunks) = Some text.
Proof.
  intros Hl. cbn. rewrite bind_Some. split.
  - intros (r & Hr & Hd). rewrite (read_chunks_Some _ _ _ _ _ Hr) in Hd. split; [|done].
    apply (read_chunks_iff 0 [] chunks limit Hl). by eexists.
  - intros [Hle Hd]. destruct (proj2 (read_chunks_iff 0 [] chunks limit Hl)) as [r Hr]; [lia|].
    exists r. split; [done|]. by rewrite (read_chunks_Some _ _ _ _ _ Hr).
Qed.

Lemma read_bounded_exact_witness :
  readBounded (Some [[123%N]; [125%N]]) 2 = Some (js "{}") ∧ Z.of_nat (length [123%N; 125%N]) <= 2.
Proof.
  assert (readBounded (Some [[123%N]; [125%N]]) 2 = Some (js "{}")) as H by (vm_compute; reflexivity).
  split; [exact H|]. apply (read_bounded_exact [[123%N]; [125%N]] 2 (js "{}") ltac:(lia)) in H as [H _]. exact H.
Defined.

(** The reads of a pipe that delivers [data] and then ends: each read delivers between
    one byte and what was asked for. *)
Fixpoint pipe_reads (have : nat) (data : list N) (reads : list (list N)) : Prop :=
  match reads with
  | [] => data = []
  | chunk :: reads =>
      let asked := (if (have <? 32)%nat then 32 - have else 1)%nat in
      chunk = take (length chunk) data ∧ (length chunk <= asked)%nat ∧
      (chunk = [] → data = []) ∧ pipe_reads (have + length chunk) (drop (length chunk) data) reads
  end.

Lemma read_secret_spec candidate data reads r rest :
  (length candidate <= 32)%nat → pipe_reads (length candidate) data reads →
  read_secret candidate reads = (r, rest) →
  ∃ data', candidate ++ data = r ++ data' ∧ (length r <= 32)%nat ∧
    ((length r < 32)%nat → data' = []) ∧
    (length r = 32%nat → pipe_reads 32 data' rest).
Proof.
  revert candidate data; induction reads as [|chunk reads IH]; intros candidate data Hlen Hpipe; cbn [read_secret].
  - cbn in Hpipe. subst data. intros Hr.
    assert (r = candidate ∧ rest = []) as [-> ->] by (case_match; by simplify_eq).
    exists []. split_and!; [done|done|done|done].
  - destruct (Nat.ltb_spec (length candidate) 32) as [Hlt|Hge].
    + cbn [pipe_reads] in Hpipe. destruct Hpipe as (Hchunk & Hask & Hend & Hpipe). rewrite (proj2 (Nat.ltb_lt _ _) Hlt) in Hask.
      destruct chunk as [|b chunk].
      * intros [= <- <-]. rewrite (Hend eq_refl). exists []. split_and!; [done|done|done|lia].
      * intros Hr. destruct (IH (candidate ++ b :: chunk) (drop (length (b :: chunk)) data)) as (data' & He & ? & ? & ?);
          [rewrite length_app; lia|by rewrite length_app|done|].
        exists data'. split_and!; [|done..]. rewrite <- He, <- app_assoc. f_equal.
        rewrite Hchunk at 1. by rewrite take_drop.
    + intros [= <- <-]. exists data. split_and!; [done|lia|lia|].
      intros E. rewrite <- E. done.
Qed.

(** The bootstrap secret is accepted exactly when the pipe holds 32 bytes, however
    it delivers them; the secret is those bytes. *)
Theorem bootstrap_secret_exact data reads :
  pipe_reads 0 data reads →
  (∀ r, readBootstrapSecret reads = Ok r ↔ r = data ∧ length data = 32%nat).
Proof.
  intros Hp r. unfold readBootstrapSecret. destruct (read_secret [] reads) as [c rest] eqn:Hc.
  destruct (read_secret_spec [] data reads c rest ltac:(cbn; lia) Hp Hc) as (data' & He & Hle & Hshort & Hfull).
  cbn in He. subst data. rewrite guard_Ok, negb_false_iff, Nat.eqb_eq, ret_Ok, length_app.
  destruct (Nat.eqb_spec (length c) 32) as [H32|H32].
  - specialize (Hfull H32). destruct rest as [|[|b l] rest].
    + cbn in Hfull. subst data'. rewrite app_nil_r. cbn. split; intros [? ?]; subst; (split; first [done|lia]).
    + destruct Hfull as (_ & _ & Hend & _). rewrite (Hend eq_refl), app_nil_r. cbn.
      split; intros [? ?]; subst; (split; first [done|lia]).
    + split; [lia|]. intros [_ Hlen]. destruct Hfull as (Hl & _). destruct data'; [done|cbn in Hlen; lia].
  - rewrite (Hshort ltac:(lia)), app_nil_r. cbn. split; intros [? ?]; subst; (split; first [done|lia]).
Qed.

Lemma bootstrap_secret_exact_witness :
  readBootstrapSecret [repeat 1%N 20; repeat 2%N 12; []] = Ok (repeat 1%N 20 ++ repeat 2%N 12).
Proof.
  apply (bootstrap_secret_exact (repeat 1%N 20 ++ repeat 2%N 12) [repeat 1%N 20; repeat 2%N 12; []]); [|done].
  cbn. repeat split; try done; lia.
Defined.

(** ** The provider table *)

Lemma collect_provider_Ok ps d ps' :
  collect_provider ps d = Ok ps' ↔
  stream_operations d = [] ∧ event_operations d = [] ∧ (capability_id d ∉ map fst ps) ∧
  ps' = ps ++ [(capability_id d, d)].
Proof.
  unfold collect_provider. rewrite guard_Ok, !orb_false_iff, mem_false, ret_Ok, !Nat.ltb_ge.
  split.
  - intros ([[H1 H2] H3] & <-). split_and!; [apply length_zero_iff_nil; lia..|done|done].
  - intros (-> & -> & ? & ->). cbn. split_and!; [lia..|done|done].
Qed.

(** A table built from distinct request-only bindings, in their order. *)
Definition provider_table (bindings : list Descriptor) : list (jsstr * Descriptor) :=
  map (fun d => (capability_id d, d)) bindings.

Lemma collectProviders_Ok bindings table :
  collectProviders bindings = Ok table → table = provider_table bindings ∧ NoDup (map capability_id bindings) ∧
  ∀ d, d ∈ bindings → stream_operations d = [] ∧ event_operations d = [].
Proof.
  unfold collectProviders. intros (ps & Hf & H)%bind_Ok. apply guard_Ok in H as [_ <-%ret_Ok].
  eapply (foldM_res_inv collect_provider (fun pre t =>
    t = provider_table pre ∧ NoDup (map capability_id pre) ∧
    ∀ d, d ∈ pre → stream_operations d = [] ∧ event_operations d = [])) in Hf; [done|..].
  - split_and!; [done|apply NoDup_nil_2|by intros ? ?%elem_of_nil].
  - intros pre d t t' (-> & Hnd & Hall) _ (Hs & He & Hnew & ->)%collect_provider_Ok.
    unfold provider_table in *. rewrite !map_app. cbn. split_and!; [done| |].
    + apply NoDup_app. split_and!; [done| |apply NoDup_singleton].
      intros x Hx ->%list_elem_of_singleton. apply Hnew. by rewrite map_map.
    + intros d' [?| ->%list_elem_of_singleton]%elem_of_app; auto.
Qed.

Section table.
Context `{ProcessProtocol}.

(** An admitted capability describes a provider. *)
Definition describes (c : AdmittedCapability) (d : Descriptor) : Prop :=
  ac_capability_id c = capability_id d ∧ ac_descriptor_version c = descriptor_version d ∧
  Some (ac_descriptor_digest c) = descriptor_digest d ∧ ac_operations c = operations d.

Lemma provider_matches_true identity d :
  stream_operations d = [] → event_operations d = [] →
  provider_matches identity d = true ↔
  ∃ c, expected_capability identity (capability_id d) = Some c ∧ describes c d.
Proof.
  intros Hs He. unfold provider_matches, describes. rewrite Hs, He. cbn.
  destruct (expected_capability identity (capability_id d)) as [c|] eqn:Hc.
  - rewrite !andb_true_iff, !bool_decide_eq_true. split.
    + intros ((((? & ?) & Ho) & _) & _). exists c. split; [done|]. apply json_strings_inj in Ho.
      unfold expected_capability in Hc. apply find_Some_iff in Hc as [_ Hid%bool_decide_eq_true]. done.
    + intros (c' & [= <-] & ? & ? & ? & ->). done.
  - split; [done|]. by intros (? & ? & _).
Qed.

Lemma distinct_count_NoDup (l : list jsstr) : NoDup l → distinct_count l = length l.
Proof. intros Hnd. unfold distinct_count. induction Hnd as [|x l Hx Hnd IH]; cbn; [done|].
  by destruct (decide_rel _ x l); [|cbn; rewrite IH]. Qed.

Lemma expected_unique identity c :
  NoDup (map ac_capability_id (provided_capabilities identity)) → c ∈ provided_capabilities identity →
  expected_capability identity (ac_capability_id c) = Some c.
Proof.
  intros Hnd Hc. unfold expected_capability. destruct (List.find _ _) as [c'|] eqn:Hf.
  - apply find_Some_iff in Hf as [Hin Hid%bool_decide_eq_true]. rewrite elem_of_rev in Hin. f_equal.
    apply list_elem_of_lookup in Hc as [i Hi], Hin as [j Hj].
    assert (i = j) as <-; [|congruence].
    eapply NoDup_lookup; [done| |]; rewrite list_lookup_fmap; [by rewrite Hi|rewrite Hj; cbn; by rewrite Hid].
  - exfalso. apply (proj1 (find_None_iff _ _)) with (x := c) in Hf; [|by apply elem_of_rev].
    by apply bool_decide_eq_false in Hf.
Qed.

Lemma expected_in identity id c :
  expected_capability identity id = Some c → c ∈ provided_capabilities identity ∧ ac_capability_id c = id.
Proof. intros [H1 H2%bool_decide_eq_true]%find_Some_iff. by rewrite elem_of_rev in H1. Qed.

Lemma validateProviderIdentity_Ok identity table :
  validateProviderIdentity identity table = Ok tt ↔
  (∀ p, p ∈ table → provider_matches identity p.2 = true) ∧
  length table = distinct_count (map ac_capability_id (provided_capabilities identity)).
Proof.
  unfold validateProviderIdentity. rewrite guard_Ok, throw_if_Ok, !negb_false_iff, Nat.eqb_eq, forallb_forall.
  by setoid_rewrite <- list_elem_of_In.
Qed.

(** Two duplicate-free lists of the same length, one inside the other. *)
Lemma NoDup_incl_eq (l1 l2 : list jsstr) :
  NoDup l1 → NoDup l2 → (∀ x, x ∈ l1 → x ∈ l2) → length l1 = length l2 → ∀ x, x ∈ l2 → x ∈ l1.
Proof.
  intros H1 H2 Hin Hlen x Hx.
  assert (l1 ≡ₚ l2) as ->; [|done].
  apply submseteq_length_Permutation; [by apply NoDup_submseteq|lia].
Qed.

Lemma NoDup_same_length (l1 l2 : list jsstr) :
  NoDup l1 → NoDup l2 → (∀ x, x ∈ l1 ↔ x ∈ l2) → length l1 = length l2.
Proof. intros H1 H2 Hiff. apply Permutation_length. by apply NoDup_Permutation. Qed.

(** With distinct capability identifiers on both sides, the handshake's check of the
    provider table succeeds exactly when the table and the identity hold the same
    capabilities: each provider is described by an admitted capability and each
    admitted capability describes a provider, with equal version, digest and
    operations in order. *)
Theorem provider_identity_exact identity bindings table :
  collectProviders bindings = Ok table → NoDup (map ac_capability_id (provided_capabilities identity)) →
  validateProviderIdentity identity table = Ok tt ↔
  (∀ d, d ∈ bindings → ∃ c, c ∈ provided_capabilities identity ∧ describes c d) ∧
  (∀ c, c ∈ provided_capabilities identity → ∃ d, d ∈ bindings ∧ describes c d).
Proof.
  intros (-> & Hb & Hreq)%collectProviders_Ok Hc.
  rewrite validateProviderIdentity_Ok, distinct_count_NoDup by done.
  unfold provider_table. rewrite !length_map. split.
  - intros [Hall Hlen].
    assert (∀ d, d ∈ bindings → ∃ c, c ∈ provided_capabilities identity ∧ describes c d) as Hfwd.
    { intros d Hd. destruct (Hreq d Hd). specialize (Hall (capability_id d, d)). cbn in Hall.
      rewrite provider_matches_true in Hall by done. destruct Hall as (c & [? _]%expected_in & ?); [|by exists c].
      apply list_elem_of_fmap. by exists d. }
    split; [done|]. intros c Hin.
    assert (ac_capability_id c ∈ map capability_id bindings) as (d & Heq & Hd)%list_elem_of_fmap.
    { apply (NoDup_incl_eq _ (map ac_capability_id (provided_capabilities identity))); [done|done| | |].
      - intros x (d & -> & Hd)%list_elem_of_fmap. destruct (Hfwd d Hd) as (c' & ? & <- & _).
        apply list_elem_of_fmap. by exists c'.
      - by rewrite !length_map.
      - apply list_elem_of_fmap. by exists c. }
    exists d. split; [done|]. destruct (Hfwd d Hd) as (c' & Hc' & Hdesc).
    pose proof (expected_unique identity c Hc Hin) as E1. pose proof (expected_unique identity c' Hc Hc') as E2.
    destruct Hdesc as [E3 ?]. rewrite E3, <- Heq in E2. assert (c = c') as -> by congruence. done.
  - intros [Hfwd Hbwd]. split.
    + intros p (d & -> & Hd)%list_elem_of_fmap. cbn. destruct (Hreq d Hd). rewrite provider_matches_true by done.
      destruct (Hfwd d Hd) as (c & Hc' & Hdesc). exists c. split; [|done].
      rewrite <- (proj1 Hdesc). by apply expected_unique.
    + rewrite <- (length_map capability_id bindings), <- (length_map ac_capability_id).
      apply NoDup_same_length; [done|done|]. intros x. split.
      * intros (d & -> & Hd)%list_elem_of_fmap. destruct (Hfwd d Hd) as (c & ? & <- & _).
        apply list_elem_of_fmap. by exists c.
      * intros (c & -> & Hin)%list_elem_of_fmap. destruct (Hbwd c Hin) as (d & ? & -> & _).
        apply list_elem_of_fmap. by exists d.
Qed.
End table.

(** ** What the Host learns of a runtime failure *)

(** Of the runtime failures a provider reports, only resource exhaustion keeps its
    kind; every other failure, whatever its kind and detail, reaches the Host as a
    plugin failure whose detail is the text of a plain object. *)
Theorem process_failure_detail failure operation :
  toProcessOutcome (PRuntime failure) operation =
  if is_str (field failure "kind") "resource_exhausted" then
    outcome_json (PRuntime (failure_of "resource_exhausted" [(js "operation", JStr operation)]))
  else
    outcome_json (PRuntime (failure_of "plugin_failure" [(js "detail", JStr (js "[object Object]"))])).
Proof. unfold toProcessOutcome. destruct (is_str _ _); [done|]. vm_compute. reflexivity. Qed.

(** ** A run of the server *)

Module Demo.
Definition limits : PeerLimits :=
  {| control_queue_capacity := 4; max_control_http_body_bytes := 100; max_http_body_bytes := 1000;
     max_retired_correlation_ids := 8; max_concurrent_requests := 1; child_request_queue_capacity := 1 |}.

Definition descriptor : Descriptor :=
  {| capability_id := js "a.b"; descriptor_version := js "1"; descriptor_digest := Some (js "d");
     operations := [js "greet"]; stream_operations := []; event_operations := [] |}.

Definition capability : AdmittedCapability :=
  {| ac_capability_id := js "a.b"; ac_descriptor_version := js "1"; ac_descriptor_digest := js "d";
     ac_operations := [js "greet"] |}.

Definition identity : HandshakeIdentity :=
  {| hi_wire := JNull; peer_limits := limits; provided_capabilities := [capability] |}.

Definition request (id : jsstr) : RequestParams :=
  {| rp_session := js "S"; rp_correlation_id := id; rp_capability_id := js "a.b"; rp_descriptor_version := js "1";
     rp_descriptor_digest := js "d"; rp_operation := js "greet"; rp_remaining_timeout_nanos := Some 5000000%N;
     rp_caller_instance := None; rp_extensions := []; rp_payload := JNull |}.

#[local] Instance protocol : ProcessProtocol := {|
  PROCESS_PROFILE := js "p1"; HANDSHAKE_METHOD := js "h"; CANCEL_METHOD := js "c"; SHUTDOWN_METHOD := js "s"; REQUEST_METHOD := js "r";
  parseStrictJson := json_parse;
  validateHandshakeParams env := Some {| hp_identity := identity; host_nonce := []; host_proof := js "p" |};
  validateCancelParams env := Some {| cp_session := js "S"; cp_correlation_id := env_id env |};
  validateShutdownParams env := Some {| sp_session := js "S" |};
  validateRequestParams env := Some (request (env_id env));
  handshakeProofPayload params := [1%N];
  hostProofMessage digest := digest;
  childProofMessage digest _ := digest;
  decodeBase64Url32 _ := Some (repeat 7%N 32);
  encodeBase64Url _ := js "S";
  sha256 bytes := bytes;
  createHmac key _ := key |}.

#[local] Instance checks : ProviderChecks := {|
  validateRequest _ _ _ := Returned tt; validateSuccess _ _ _ := Returned tt;
  validateDomainError _ _ _ := Returned tt |}.

Definition head (path : string) : http_head :=
  {| h_pathname := js path; h_search := []; h_method := js "POST"; h_content_type := Some (js "Application/JSON") |}.

Definition message (method id : string) : option (list (list N)) :=
  Some [encode (json_text (JObj [(js "jsonrpc", JStr (js "2.0")); (js "id", JStr (js id));
                                 (js "method", JStr (js method)); (js "params", JNull)]))].

(** The handshake, then two requests: one runs, the other waits. *)
Definition events : list event :=
  [ControlOpen 0 (head "/control"); ControlBody 0 (message "h" "x") [];
   DataOpen 1 (head "/rpc"); DataBody 1 (message "r" "a");
   DataOpen 2 (head "/rpc"); DataBody 2 (message "r" "b"); Resume (js "a")].

Definition initial : state := start_state (repeat 7%N 32) [(js "a.b", descriptor)].

Definition busy : state := match run None initial events with Some (s, _) => s | None => initial end.

Lemma run_reachable pinned s es s' out : reachable pinned s → run pinned s es = Some (s', out) → reachable pinned s'.
Proof.
  revert s out; induction es as [|e es IH]; intros s out Hr Hrun; cbn in Hrun; [by injection Hrun as <- _|].
  destruct (step pinned s e) as [[s1 o1]|] eqn:Hs; [|done].
  destruct (run pinned s1 es) as [[s2 o2]|] eqn:Hr2; [|done]. injection Hrun as <- _.
  eapply IH; [|done]. by eapply reach_step.
Qed.

Lemma initial_reachable : reachable None initial.
Proof.
  pose (readiness := JObj [(js "protocol", JStr (js "p1")); (js "data_port", JNum (num 4000)); (js "control_port", JNum (num 4001))]).
  apply (reach_start None (repeat 7%N 32) [descriptor] (Some 4000) (Some 4001)
    {| ps_state := initial; ps_readiness := readiness; ps_readinessLine := json_text readiness ++ [10%N] |}).
  vm_compute. reflexivity.
Qed.

Lemma busy_run : run None initial events = Some (busy, default [] (snd <$> run None initial events)).
Proof. vm_compute. reflexivity. Qed.

Lemma busy_reachable : reachable None busy.
Proof. exact (run_reachable _ _ _ _ _ initial_reachable busy_run). Qed.

Lemma process_pool_bounds_witness :
  admittedIdentity busy = Some identity ∧ dataWaiters busy = [js "b"] ∧ runningDataRequests busy = 1 ∧
  runningDataRequests busy = Z.of_nat (slots (active busy)).
Proof.
  assert (admittedIdentity busy = Some identity) as H by (vm_compute; reflexivity).
  destruct (process_pool_bounds None busy identity busy_reachable H) as [H1 _].
  split; [exact H|]. split; [vm_compute; reflexivity|]. split; [vm_compute; reflexivity|exact H1].
Defined.

Lemma process_identifier_once_witness :
  known busy = [js "a"; js "b"] ∧ NoDup (known busy).
Proof.
  split; [vm_compute; reflexivity|]. exact (proj1 (process_identifier_once None busy busy_reachable)).
Defined.

Lemma process_handshake_authenticated_witness :
  handshakeAttempted busy = true ∧ Forall (fun b => b = 0%N) (secret busy).
Proof.
  assert (handshakeAttempted busy = true) as H by (vm_compute; reflexivity). split; [exact H|].
  exact (proj1 (proj2 (process_handshake_authenticated None busy busy_reachable)) H).
Defined.

Lemma process_closed_forever_witness :
  ∃ s' out, step None (close_admission busy) Stop = Some (s', out) ∧ accepting s' = false.
Proof.
  do 2 eexists. split; [reflexivity|].
  refine (proj1 (process_closed_forever None (close_admission busy) Stop _ _ eq_refl _)). reflexivity.
Defined.

Definition answer (_ : jsstr) : completion ProviderDispatchOutcome := Returned (PSuccess JNull).

Definition drain : list event :=
  [Settle (js "a") (answer (js "a")); Resume (js "b"); Settle (js "b") (answer (js "b"))].

Lemma process_requests_answered_witness :
  ∃ s' out, run None busy drain = Some (s', out) ∧ active s' = [] ∧ map fst out ≡ₚ [1; 2]%nat.
Proof.
  destruct (run None busy drain) as [[s' out]|] eqn:Hrun; [|vm_compute in Hrun; discriminate].
  exists s', out. split; [reflexivity|].
  assert (active s' = []) as Ha by (vm_compute in Hrun; injection Hrun as <- _; reflexivity).
  split; [exact Ha|].
  destruct (process_requests_answered None busy identity answer drain s' out busy_reachable
    ltac:(vm_compute; reflexivity) ltac:(vm_compute; reflexivity)) as (_ & H & _);
    [repeat constructor|exact Hrun|].
  rewrite Ha in H. cbn [connections map] in H. rewrite app_nil_r in H.
  change (connections (active busy)) with [1; 2]%nat in H. exact H.
Defined.

Lemma provider_identity_exact_witness :
  validateProviderIdentity identity [(js "a.b", descriptor)] = Ok tt.
Proof.
  apply (provider_identity_exact identity [descriptor] [(js "a.b", descriptor)]).
  - vm_compute. reflexivity.
  - apply NoDup_singleton.
  - split; intros x ->%list_elem_of_singleton.
    + exists capability. split; [by left|done].
    + exists descriptor. split; [by left|done].
Defined.
End Demo.
