(* ===== verification/ProcessV1Start.v ===== *)
(** * How a Process V1 server starts

    [serveProcessV1] takes the secret from one pipe and announces the ports on another: it
    starts exactly when the pipe holds 32 bytes, the providers are admissible and the ports are
    distinct; and then one line is written that says which ports they are. *)

From Stdlib Require Import ZArith SpecFloat.
From S2P Require Import Prelude JsValue Text Json JsonText Authoring ProcessV1 ProcessV1Correct.

Local Open Scope Z_scope.

(** ** Writing the line *)

(** A descriptor that takes at least one byte of every write. *)
Definition progresses (accepts : nat → throws nat) : Prop := ∀ offset, ∃ n, accepts offset = Ok n ∧ (0 < n)%nat.

Lemma write_all_complete fuel accepts encoded offset :
  progresses accepts → (length encoded - offset <= fuel)%nat → (offset <= length encoded)%nat →
  write_all fuel accepts encoded offset (take offset encoded) = Some (Ok encoded).
Proof.
  intros Ha. revert offset. induction fuel as [|fuel IH]; intros offset Hf Ho; cbn [write_all];
    (destruct (Nat.ltb_spec offset (length encoded)) as [Hlt|Hge]; [|by rewrite take_ge by lia]); [lia|].
  destruct (Ha offset) as (n & -> & Hn). cbn zeta. rewrite take_take_drop. apply IH; lia.
Qed.

(** ** Starting *)

Section start.
Context `{ProcessProtocol}.

(** The line of [startProcessV1]. *)
Definition readiness (d c : Z) : jsval :=
  JObj [(js "protocol", JStr PROCESS_PROFILE); (js "data_port", JNum (num d)); (js "control_port", JNum (num c))].

Lemma readiness_portable d c :
  units PROCESS_PROFILE = true → 0 <= d < 65536 → 0 <= c < 65536 → portable (readiness d c) = true.
Proof.
  intros Hu Hd Hc. unfold readiness. cbn [portable]. rewrite bool_decide_true by reflexivity.
  cbn [forallb fst snd]. rewrite !portable_port by done. cbn [portable]. rewrite Hu. done.
Qed.

Lemma serve_start data reads accepts bindings data_port control_port fuel server :
  pipe_reads 0 data reads → length data = 32%nat → progresses accepts →
  startProcessV1 data bindings data_port control_port = Ok server →
  (length (encode (ps_readinessLine server)) <= fuel)%nat →
  serveProcessV1 fuel reads accepts bindings data_port control_port =
    Some (Ok (server, encode (ps_readinessLine server))).
Proof.
  intros Hp Hl Ha Hs Hf. unfold serveProcessV1. rewrite (proj2 (bootstrap_secret_exact data reads Hp data)) by done.
  cbn [mbind result_bind]. rewrite Hs. pose proof (write_all_complete fuel accepts (encode (ps_readinessLine server)) 0 Ha) as Hw.
  rewrite take_0 in Hw. by rewrite Hw by lia.
Qed.

(** C17: a Process V1 server starts exactly when it may, and announces itself once.  When the
    readiness descriptor makes progress, starting ends, and it ends without an error exactly
    if the bootstrap pipe held 32 bytes, the provider table is admissible and the listeners
    have two distinct ports; the server then holds that secret and that table and has served
    nothing, and what was written to the readiness descriptor is one line of JSON that reads
    as the profile and the two ports. *)
Theorem process_start_exact data reads accepts bindings data_port control_port fuel :
  pipe_reads 0 data reads → progresses accepts → units PROCESS_PROFILE = true →
  (∀ server, startProcessV1 data bindings data_port control_port = Ok server →
     (length (encode (ps_readinessLine server)) <= fuel)%nat) →
  (∃ r, serveProcessV1 fuel reads accepts bindings data_port control_port = Some r) ∧
  (∀ server written, serveProcessV1 fuel reads accepts bindings data_port control_port = Some (Ok (server, written)) ↔
    length data = 32%nat ∧ ∃ table d c,
      collectProviders bindings = Ok table ∧ data_port = Some d ∧ control_port = Some c ∧ d ≠ c ∧
      server = {| ps_state := start_state data table; ps_readiness := readiness d c;
                  ps_readinessLine := json_text (readiness d c) ++ [10%N] |} ∧
      written = encode (json_text (readiness d c) ++ [10%N])) ∧
  (∀ d c, 0 <= d < 65536 → 0 <= c < 65536 →
    json_parse (decode (encode (json_text (readiness d c) ++ [10%N]))) = Some (readiness d c)).
Proof.
  intros Hp Ha Hu Hfuel. split; [|split; [|intros; by apply announced, readiness_portable]].
  - destruct (startProcessV1 data bindings data_port control_port) as [server|e] eqn:Hs.
    + apply start_Ok in Hs as Hs'. eexists. apply (serve_start data reads); [done|apply Hs'|done|exact Hs|by apply Hfuel].
    + unfold serveProcessV1. destruct (readBootstrapSecret reads) as [r|e'] eqn:Hr; [|by eexists].
      apply (bootstrap_secret_exact data reads Hp) in Hr as [-> _]. cbn [mbind result_bind]. rewrite Hs. by eexists.
  - intros server written. split.
    + unfold serveProcessV1. destruct (readBootstrapSecret reads) as [r|e'] eqn:Hr; [|done].
      apply (bootstrap_secret_exact data reads Hp) in Hr as [-> Hl]. cbn [mbind result_bind].
      destruct (startProcessV1 data bindings data_port control_port) as [server'|e] eqn:Hs; [|done].
      pose proof (write_all_complete fuel accepts (encode (ps_readinessLine server')) 0 Ha) as Hw. rewrite take_0 in Hw.
      rewrite Hw by (try lia; specialize (Hfuel _ eq_refl); lia). intros [= <- <-]. split; [done|].
      apply start_Ok in Hs as (_ & table & d & c & Ht & -> & -> & Hne & ->). exists table, d, c. by split_and!.
    + intros (Hl & table & d & c & Ht & -> & -> & Hne & -> & ->).
      assert (Hs : startProcessV1 data bindings (Some d) (Some c) = Ok
        {| ps_state := start_state data table; ps_readiness := readiness d c;
           ps_readinessLine := json_text (readiness d c) ++ [10%N] |}) by (apply start_Ok; split; [done|]; by exists table, d, c).
      rewrite (serve_start data reads accepts bindings (Some d) (Some c) fuel _ Hp Hl Ha Hs); [done|by apply Hfuel].
Qed.
End start.

(** ** A start *)

Module Demo.
(** A pipe that delivers the secret in two reads, and a descriptor that takes five bytes at a
    time. *)
Definition pipe : list (list N) := [repeat 7%N 20; repeat 7%N 12; []].
Definition five : nat → throws nat := fun _ => Ok 5%nat.

Lemma process_start_exact_witness :
  ∃ server written, @serveProcessV1 ProcessV1Correct.Demo.protocol 100 pipe five [ProcessV1Correct.Demo.descriptor]
      (Some 4000) (Some 4001) = Some (Ok (server, written)) ∧
    json_parse (decode written) = Some (@readiness ProcessV1Correct.Demo.protocol 4000 4001).
Proof.
  destruct (@process_start_exact ProcessV1Correct.Demo.protocol (repeat 7%N 32) pipe five
    [ProcessV1Correct.Demo.descriptor] (Some 4000) (Some 4001) 100) as (_ & Hs & Hr).
  - cbn. repeat split; try done; lia.
  - intros offset. exists 5%nat. split; [reflexivity|lia].
  - reflexivity.
  - intros server Hs. vm_compute in Hs. injection Hs as <-. vm_compute. lia.
  - eexists _, _. split; [apply Hs|apply Hr; lia].
    split; [reflexivity|]. eexists _, 4000, 4001. split; [vm_compute; reflexivity|].
    split; [reflexivity|]. split; [reflexivity|]. split; [lia|]. split; reflexivity.
Defined.
End Demo.
