(* ===== verification/V2.v ===== *)
(** * The Authoring V2 server (v2.ts)

    One plugin process serves one Host over authenticated JSON-RPC.  The class
    [BunAuthoringServer] keeps the active invocations and stream openings, the open
    streams in both directions, the contexts that may call the Host, the retired
    identifiers and the counters of its limits.  Every method is an async function;
    between two [await]s it runs alone, so the model keeps the suspended calls as
    fibers and has one event per resumption.  The package @lenso/process-protocol and
    the crypto primitives are the class [AuthoringProtocol]; the plugin's own code
    answers through events. *)

From Stdlib Require Import ZArith.
From S2P Require Import Prelude JsValue Text Json Authoring.

Local Open Scope Z_scope.

(** ** Messages *)

Record InvocationScope := {
  scope_id : jsstr; parent_scope_id : option jsstr; remaining_budget_nanos : N;
  permissions : jsval; scope_extensions : list (jsstr * jsval) }.

Record RequiredDeclaration := {
  rd_requirement_id : jsstr; rd_cardinality : jsval; rd_capability_id : jsstr;
  rd_descriptor_version : jsstr; rd_descriptor_digest : jsstr }.

Record ProvidedEndpoint := {
  pe_endpoint_id : jsstr; pe_capability_id : jsstr; pe_descriptor_version : jsstr;
  pe_descriptor_digest : jsstr }.

Record RouteDescriptor := {
  route_id : jsstr; route_requirement_id : jsstr; route_capability_id : jsstr;
  provider_instance : jsstr }.

Record Limits := {
  max_frame_bytes : Z; max_retired_ids : Z; max_active_invocations : Z; max_queued_calls : Z;
  max_unfinished_executions : Z; max_active_outbound_calls : Z }.

Record InitializeParams := {
  init_wire : jsval; api_version : jsval; identity_session : jsstr; init_config : jsval;
  required_declarations : list RequiredDeclaration; provided_endpoints : list ProvidedEndpoint;
  routes : list RouteDescriptor; limits : Limits }.

Record InitializeRequest := {
  ir_initialize : InitializeParams; ir_callback_origin : jsstr; ir_host_nonce : jsstr; ir_host_proof : jsstr }.

Record ConstructParams := { con_session : jsstr; lifecycle_scope_id : jsstr; con_budget : N }.
Record StopParams := { stop_session : jsstr; cleanup_scope_id : jsstr; stop_budget : N }.
Record AuthoringCancelParams := { can_session : jsstr; can_scope_id : jsstr; can_correlation_id : jsstr }.

(** [InvokeParams], [EventPublishParams] and [StreamOpenParams] differ in the name of
    their payload only. *)
Record InvokeParams := {
  inv_session : jsstr; correlation_id : jsstr; endpoint_id : jsstr; inv_capability_id : jsstr;
  inv_operation : jsstr; inv_scope : InvocationScope; inv_payload : jsval }.

(** Stream actions; [sa_sequence] and [sa_message] are read by a send only. *)
Record StreamActionParams := {
  sa_session : jsstr; sa_correlation_id : jsstr; sa_stream_id : jsstr; sa_sequence : jsstr; sa_message : jsval }.

Record Bootstrap := { callback_origin : jsstr; bootstrap_secret : jsstr }.

(** What a provider binding offers besides [invokeRequest]. *)
Record ProviderBinding := { pb_descriptor : Descriptor; pb_openStream : bool; pb_publishEvent : bool }.

(** ** Outcomes *)

Inductive InvocationOutcome :=
| WSuccess (value : jsval)
| WDomain (error : jsval)
| WRuntime (failure : RuntimeFailure).

Definition wire_json (o : InvocationOutcome) : jsval :=
  match o with
  | WSuccess v => JObj [(js "kind", JStr (js "success")); (js "value", v)]
  | WDomain v => JObj [(js "kind", JStr (js "domain")); (js "error", v)]
  | WRuntime f => JObj [(js "kind", JStr (js "runtime")); (js "failure", JObj f)]
  end.

Definition plugin_failure_of (e : thrown) : RuntimeFailure :=
  failure_of "plugin_failure" [(js "detail", JStr (AuthoringDetail.authoring_boundedError e))].

(** [normalizeRuntimeFailure(failure, invocation)] with the three fields it reads. *)
Definition normalizeRuntimeFailure (failure : RuntimeFailure) (correlation capability operation : jsstr)
  : RuntimeFailure :=
  let kind := field failure "kind" in
  if is_str kind "cancelled" || is_str kind "deadline_exceeded" then
    [(js "kind", kind); (js "request_id", JStr correlation)]
  else if is_str kind "resource_exhausted" then
    failure_of "resource_exhausted" [(js "capability", JStr capability); (js "operation", JStr operation)]
  else if is_str kind "unknown_operation" then
    failure_of "unknown_operation" [(js "capability", JStr capability); (js "operation", JStr operation)]
  else if is_str kind "protocol_violation" then
    failure_of "protocol_violation" [(js "capability", JStr capability)]
  else if is_str kind "admission_closed" then failure_of "admission_closed" []
  else plugin_failure_of (ThrownValue (match field failure "detail" with
                                       | JUndef | JNull => kind
                                       | detail => detail
                                       end)).

Definition toWireOutcome (outcome : ProviderDispatchOutcome) (p : InvokeParams) : InvocationOutcome :=
  match outcome with
  | PSuccess v => WSuccess v
  | PDomain v => WDomain v
  | PRuntime f => WRuntime (normalizeRuntimeFailure f (correlation_id p) (inv_capability_id p) (inv_operation p))
  end.

(** [wireFailure(failure)] with its default invocation, and with one. *)
Definition wireFailure (failure : RuntimeFailure) (p : option InvokeParams) : RuntimeFailure :=
  match p with
  | Some p => normalizeRuntimeFailure failure (correlation_id p) (inv_capability_id p) (inv_operation p)
  | None => normalizeRuntimeFailure failure (js "0") (js "lenso.bun-authoring") (js "stream")
  end.

Definition fromWireOutcome (outcome : InvocationOutcome) : ProviderDispatchOutcome :=
  match outcome with
  | WSuccess v => PSuccess v
  | WDomain v => PDomain v
  | WRuntime f => PRuntime [(js "kind", field f "kind"); (js "detail", JObj f)]
  end.

(** What a provider's stream methods answer. *)
Inductive ProviderStreamOpenOutcome :=
| StreamOpened
| StreamDomain (value : jsval)
| StreamRuntime (failure : RuntimeFailure).

Inductive ProviderActionOutcome :=
| ActionAccepted
| ActionRuntime (failure : RuntimeFailure).

Inductive ProviderStreamReceiveOutcome :=
| ReceiveMessage (value : jsval)
| ReceiveHalfClosed
| ReceiveSuccess
| ReceiveDomain (value : jsval)
| ReceiveRuntime (failure : RuntimeFailure).

(** The Host's answer to an outbound stream opening. *)
Inductive OutboundOpenOutcome :=
| OutOpened (stream_id : jsstr)
| OutDomain (error : jsval)
| OutRuntime (failure : RuntimeFailure).

(** ** Budgets and scopes *)

(** [remainingBudget(initial).nanoseconds()] once [elapsed] nanoseconds have passed. *)
Definition remaining_nanoseconds (initial : N) (elapsed : Z) : N :=
  let elapsed := Z.max 0 elapsed in
  if Z.of_N initial <=? elapsed then 0%N else Z.to_N (Z.of_N initial - elapsed).

Definition outboundScope (parent : InvocationScope) (correlationId : jsstr) (elapsed : Z) : InvocationScope :=
  {| scope_id := scope_id parent ++ js ":outbound:" ++ correlationId;
     parent_scope_id := Some (scope_id parent);
     remaining_budget_nanos := remaining_nanoseconds (remaining_budget_nanos parent) elapsed;
     permissions := permissions parent; scope_extensions := scope_extensions parent |}.

Definition lifecycle_scope (id : jsstr) (remaining : N) : InvocationScope :=
  {| scope_id := id; parent_scope_id := None; remaining_budget_nanos := remaining;
     permissions := JArr []; scope_extensions := [] |}.

Definition scope_json (s : InvocationScope) : jsval :=
  JObj [(js "scope_id", JStr (scope_id s));
        (js "parent_scope_id", match parent_scope_id s with Some p => JStr p | None => JNull end);
        (js "remaining_budget_nanos", JStr (dec (Z.of_N (remaining_budget_nanos s))));
        (js "permissions", permissions s); (js "extensions", JArr (map snd (scope_extensions s)))].

(** [{ session, correlation_id, requirement_id, route_id, operation, scope, [key]: payload }] *)
Definition outbound_params (session correlationId : jsstr) (route : RouteDescriptor) (operation : jsstr)
    (scope : InvocationScope) (key : string) (payload : jsval) : jsval :=
  JObj [(js "session", JStr session); (js "correlation_id", JStr correlationId);
        (js "requirement_id", JStr (route_requirement_id route)); (js "route_id", JStr (route_id route));
        (js "operation", JStr operation); (js "scope", scope_json scope); (js key, payload)].

(** [{ session, correlation_id, stream_id }], with a sequence and a message for a send. *)
Definition stream_params (session correlationId streamId : jsstr) (send : option (Z * jsval)) : jsval :=
  JObj ([(js "session", JStr session); (js "correlation_id", JStr correlationId);
         (js "stream_id", JStr streamId)] ++
        match send with
        | Some (sequence, message) => [(js "sequence", JStr (dec sequence)); (js "message", message)]
        | None => []
        end).

(** ** The packages the sources call *)

Class AuthoringProtocol := {
  AUTHORING_API_VERSION : jsval;
  (** The casts [params as X]: a wire value read at its declared type. *)
  as_initialize : jsval → InitializeRequest;
  as_construct : jsval → ConstructParams;
  as_invoke : jsval → InvokeParams;
  as_stream_action : jsval → StreamActionParams;
  as_cancel : jsval → AuthoringCancelParams;
  as_stop : jsval → StopParams;
  (** The validators. *)
  validateInitializeForRuntimeProfile : InitializeParams → jsstr → throws unit;
  validateConstruct : ConstructParams → jsstr → throws unit;
  validateInvoke : InvokeParams → InitializeParams → throws unit;
  validateEventPublish : InvokeParams → InitializeParams → throws unit;
  validateStreamOpen : InvokeParams → InitializeParams → throws unit;
  validateStreamAction : StreamActionParams → jsstr → string → throws unit;
  validateCancel : AuthoringCancelParams → jsstr → throws unit;
  validateStop : StopParams → jsstr → throws unit;
  (** Host answers to callbacks, validated and read at their type. *)
  validateResultFor : jsval → jsstr → jsstr → throws InvocationOutcome;
  validateEventPublishResultFor : jsval → jsstr → jsstr → throws ProviderActionOutcome;
  validateStreamOpenResultFor : jsval → jsstr → jsstr → throws OutboundOpenOutcome;
  validateStreamActionResultFor : jsval → jsstr → jsstr → jsstr → throws ProviderActionOutcome;
  validateStreamReceiveResultFor : jsval → jsstr → jsstr → jsstr → throws ProviderStreamReceiveOutcome;
  (** Proofs. *)
  authoringHandshakeProofPayload : InitializeRequest → throws (list N);
  authoringHostProofMessage : list N → list N;
  authoringChildProofMessage : list N → jsstr → list N;
  authoringCallbackProofMessage : jsstr → string → jsval → list N;
  decodeBase64Url32 : jsstr → option (list N);
  encodeBase64Url : list N → jsstr;
  sha256 : list N → list N;
  hmac_sha256 : list N → list N → list N;
  (** Messages of errors the platform raises itself. *)
  platform_error : jsstr }.

(** The plugin's code that runs without suspending; [cancel_binding n id] is what
    [binding.cancel()] throws, if it throws, when call [n] cancels the stream [id]. *)
Class PluginCode := {
  parse_config : jsval → throws jsval;
  bind : PluginProvider → jsval → throws ProviderBinding;
  cancel_binding : nat → jsstr → option thrown }.

(** ** Framing *)

Record Response := { status : Z; body : option jsstr }.

Definition boundedJsonResponse (v : jsval) (maxBytes : Z) : Response :=
  if maxBytes <? json_bytes v then {| status := 507; body := None |}
  else {| status := 200; body := Some (json_text v) |}.

(** How a call ends, and where its answer goes: a JSON-RPC response, or the plugin
    code that made an outbound call. *)
Inductive reply := RpcReply (id : jsval) (limit : Z) | PluginReply.

(** A call of the Plugin's own code with its arguments; a context is named by its identity,
    a provider by the endpoint it is bound to, a stream by the identity of its entry. *)
Inductive plugin_call :=
| CallCreate (inputs : jsval) (cx : nat)
| CallInvoke (endpoint operation : jsstr) (cx : nat) (payload instance : jsval)
| CallPublish (endpoint operation : jsstr) (cx : nat) (event instance : jsval)
| CallOpenStream (endpoint operation : jsstr) (cx : nat) (request instance : jsval)
| CallSend (stream : nat) (message : jsval)
| CallReceive (stream : nat)
| CallCloseSend (stream : nat)
| CallStop (instance : jsval) (cx : nat).

Inductive output :=
| Answered (n : nat) (r : Response)
| FetchRejected (n : nat)
| Called (n : nat) (c : plugin_call)
| ToPlugin (n : nat) (v : jsval)
| StreamToPlugin (n : nat) (stream : nat)
| PluginRejected (n : nat) (e : thrown)
| Posted (n : nat) (proof : jsstr) (message : jsval)
| CancelBinding (stream_id : jsstr).

Definition succeed (n : nat) (r : reply) (result : jsval) : output :=
  match r with
  | RpcReply id limit =>
      Answered n (boundedJsonResponse
        (JObj [(js "jsonrpc", JStr (js "2.0")); (js "id", id); (js "result", result)]) limit)
  | PluginReply => ToPlugin n result
  end.

Definition reject (n : nat) (r : reply) (e : thrown) : output :=
  match r with
  | RpcReply id limit =>
      Answered n (boundedJsonResponse
        (JObj [(js "jsonrpc", JStr (js "2.0")); (js "id", id);
               (js "error", JObj [(js "code", JNum (num (-32602)));
                                  (js "message", JStr (AuthoringDetail.authoring_boundedError e))])]) limit)
  | PluginReply => PluginRejected n e
  end.

(** [readBootstrap()] on the first line of the private channel. *)
Definition readBootstrap (line : option jsstr) (platform_message : jsstr) : throws Bootstrap :=
  match line with
  | None => fail (js "Bun Authoring bootstrap channel closed before initialization")
  | Some line =>
      throw_if (4096 <? byteLength line) (js "Bun Authoring bootstrap exceeds its private-channel limit");;
      match json_parse line with
      | None => fail platform_message
      | Some (JObj fs) =>
          match bool_decide (json_text (JArr (map JStr (sort_strings (keys fs)))) =
                             json_text (JArr [JStr (js "bootstrap_secret"); JStr (js "callback_origin")])),
                field fs "callback_origin", field fs "bootstrap_secret" with
          | true, JStr origin, JStr secret => mret {| callback_origin := origin; bootstrap_secret := secret |}
          | _, _, _ => fail (js "invalid Bun Authoring bootstrap")
          end
      | Some JNull => fail platform_message
      | Some _ => fail (js "invalid Bun Authoring bootstrap")
      end
  end.

(** ** Checking the proposal against the declaration *)

Definition dependency_id (name : jsstr) (raw : raw_dependency) : jsstr :=
  match raw with DependencyDeclaration _ id _ _ => default name id | _ => name end.

Definition names_json (l : list jsstr) : jsstr := json_text (JArr (map JStr l)).

(** A declared digest, when there is one, is the admitted one. *)
Definition digest_agrees (declared : option jsstr) (admitted : jsstr) : bool :=
  match declared with Some d => bool_decide (d = admitted) | None => true end.

Definition requirement_matches (i : InitializeParams) (name : jsstr) (raw : raw_dependency) : bool :=
  match List.find (fun c => bool_decide (rd_requirement_id c = dependency_id name raw)) (required_declarations i) with
  | None => false
  | Some admitted =>
      match raw with
      | DependencyDeclaration _ _ contract cardinality =>
          bool_decide (cardinality = rd_cardinality admitted) &&
          bool_decide (capability_id contract = rd_capability_id admitted) &&
          bool_decide (descriptor_version contract = rd_descriptor_version admitted) &&
          digest_agrees (descriptor_digest contract) (rd_descriptor_digest admitted)
      | _ => false
      end
  end.

Definition endpoint_matches (providers : list PluginProvider) (e : ProvidedEndpoint) : bool :=
  match List.find (fun d => bool_decide (capability_id d = pe_capability_id e)) (map pp_descriptor providers) with
  | None => false
  | Some d => bool_decide (descriptor_version d = pe_descriptor_version e) &&
              digest_agrees (descriptor_digest d) (pe_descriptor_digest e)
  end.

Section server.
Context `{AuthoringProtocol, PluginCode}.
Variable definition : PluginDefinition.
Variable runtimeProfile : jsstr.
Variable bootstrap : Bootstrap.

Definition declared_dependencies : list (jsstr * raw_dependency) := default [] (def_dependencies definition).

Definition validateDefinition (i : InitializeParams) : throws unit :=
  validateInitializeForRuntimeProfile i runtimeProfile;;
  throw_if (negb (bool_decide (api_version i = AUTHORING_API_VERSION))) (js "unsupported Authoring API");;
  throw_if (negb (bool_decide
      (names_json (sort_strings (map (fun e => dependency_id e.1 e.2) declared_dependencies)) =
       names_json (map rd_requirement_id (required_declarations i)))))
    (js "admitted named requirements do not match the Plugin declaration");;
  match List.find (fun e => negb (requirement_matches i e.1 e.2)) declared_dependencies with
  | Some (name, _) => fail (js "admitted requirement " ++ name ++ js " does not match its declaration")
  | None => mret tt
  end;;
  throw_if (negb (length (def_providers definition) =? length (provided_endpoints i))%nat)
    (js "admitted endpoints do not match the Plugin declaration");;
  match List.find (fun e => negb (endpoint_matches (def_providers definition) e)) (provided_endpoints i) with
  | Some e => fail (js "admitted endpoint " ++ pe_endpoint_id e ++ js " does not match its declaration")
  | None => mret tt
  end.

(** [bindProviders(definition, instance, initialize)]; a later endpoint of the same
    identifier replaces an earlier one. *)
Definition bind_endpoint (instance : jsval) (bindings : list (jsstr * ProviderBinding)) (e : ProvidedEndpoint)
  : throws (list (jsstr * ProviderBinding)) :=
  match List.find (fun p => bool_decide (capability_id (pp_descriptor p) = pe_capability_id e))
          (def_providers definition) with
  | Some declaration =>
      throw_if (negb (instance_bound declaration))
        (js "endpoint " ++ pe_endpoint_id e ++ js " requires an instance binder");;
      binding ← bind declaration instance;
      throw_if (negb (bool_decide (capability_id (pb_descriptor binding) = pe_capability_id e)) ||
                negb (bool_decide (descriptor_version (pb_descriptor binding) = pe_descriptor_version e)))
        (js "binder for " ++ pe_endpoint_id e ++ js " returned another contract");;
      mret (assoc_set (pe_endpoint_id e) binding bindings)
  | None => fail (js "endpoint " ++ pe_endpoint_id e ++ js " requires an instance binder")
  end.

Definition bindProviders (instance : jsval) (i : InitializeParams) : throws (list (jsstr * ProviderBinding)) :=
  foldM_res (bind_endpoint instance) [] (provided_endpoints i).

(** The value a dependency gets from the routes of its requirement.  A client is
    opaque: it stands for its route. *)
Definition dependency_value (i : InitializeParams) (e : jsstr * raw_dependency) (_ : nat)
  : throws (jsstr * jsval) :=
  let '(name, raw) := e in
  let admitted := List.filter (fun r => bool_decide (route_requirement_id r = dependency_id name raw)) (routes i) in
  let client r := JFun (route_id r) in
  let cardinality := match raw with DependencyDeclaration _ _ _ c => c | _ => JUndef end in
  if is_str cardinality "many" then
    mret (name, JArr (map (fun r => JObj [(js "providerInstance", JStr (provider_instance r));
                                          (js "client", client r)]) admitted))
  else if is_str cardinality "optional" then
    mret (name, match admitted with r :: _ => client r | [] => JUndef end)
  else match admitted with
       | r :: _ => mret (name, client r)
       | [] => fail platform_error
       end.

(** [#inputs(initialize)] *)
Definition inputs (i : InitializeParams) : throws jsval :=
  dependencies ← mapi_res (dependency_value i) 0 declared_dependencies;
  config ← (match def_config definition with
            | Some _ => parse_config (init_config i)
            | None => mret JUndef
            end);
  mret (JObj ((match def_config definition with Some _ => [(js "config", config)] | None => [] end) ++
              (match def_dependencies definition with
               | Some _ => [(js "dependencies", JObj dependencies)]
               | None => []
               end))).

(** ** The state *)

(** A context object with its abort controller. *)
Record ContextObject := { cx_request_id : jsstr; cx_scope : InvocationScope; cx_aborted : bool }.

(** An entry of [#streams]. *)
Record ActiveStream := { as_context : nat; nextSendSequence : Z; nextReceiveSequence : Z }.

(** An outbound stream: the variables its binding closes over. *)
Record OutboundStream := {
  os_init : InitializeParams; os_stream_id : jsstr; os_capability : jsstr; os_nextSend : Z; os_closed : bool }.

(** What a Host callback is made for. *)
Inductive callback :=
| CbSettled (result : jsval)
| CbCall (correlationId : jsstr)
| CbEvent (correlationId : jsstr)
| CbStreamOpen (correlationId capability : jsstr)
| CbStreamAction (stream : nat) (correlationId : jsstr) (send : bool)
| CbStreamReceive (stream : nat) (correlationId : jsstr)
| CbStreamCancel.

(** Where a call is suspended. *)
Inductive suspended :=
| AwaitBody (limit : Z)
| AwaitVerify (r : InitializeRequest) (digest : list N)
| AwaitChildProof (r : InitializeRequest) (digest : list N) (childNonce : jsstr)
| AwaitCreate (i : InitializeParams) (p : ConstructParams) (cx : nat)
| AwaitInvoke (p : InvokeParams) (cx : nat)
| AwaitPublish (p : InvokeParams) (cx : nat)
| AwaitOpen (p : InvokeParams) (cx : nat)
| AwaitSend (p : StreamActionParams) (stream : nat)
| AwaitReceive (p : StreamActionParams) (stream : nat)
| AwaitCloseSend (p : StreamActionParams)
| AwaitStopHook (p : StopParams) (cx : nat)
| AwaitProof (i : InitializeParams) (k : callback) (method : string) (params : jsval)
| AwaitFetch (i : InitializeParams) (k : callback).

Record fiber := { fb_reply : reply; fb_at : suspended }.

Record state := {
  initialize : option InitializeParams;
  constructionAttempted : bool;
  instance : option jsval;
  providers : list (jsstr * ProviderBinding);
  stopAttempted : bool;
  active : list (jsstr * nat);
  streams : list (jsstr * nat);
  outboundStreams : list (jsstr * nat);
  contexts : list nat;
  retired : list jsstr;
  nextOutboundId : Z;
  nextCallbackId : Z;
  nextStreamId : Z;
  activeOutboundCalls : Z;
  activeEventPublications : Z;
  context_heap : list ContextObject;
  stream_heap : list ActiveStream;
  outbound_heap : list OutboundStream;
  fibers : list (nat * fiber);
  nextFiber : nat;
  finishing : bool;
  stopped : bool }.
(** [contexts] is the key set of the WeakMap; the heaps hold the context objects, the
    entries of [#streams] and the outbound bindings by identity; [fibers] are the
    suspended calls; [finishing] is set once the timer of [#stop] is armed, and [stopped] once
    it has fired and the server no longer listens. *)

Definition set_initialize (v : option InitializeParams) (s : state) : state :=
  {| initialize := v; constructionAttempted := constructionAttempted s; instance := instance s;
     providers := providers s; stopAttempted := stopAttempted s; active := active s; streams := streams
     s; outboundStreams := outboundStreams s; contexts := contexts s; retired := retired s;
     nextOutboundId := nextOutboundId s; nextCallbackId := nextCallbackId s; nextStreamId :=
     nextStreamId s; activeOutboundCalls := activeOutboundCalls s; activeEventPublications :=
     activeEventPublications s; context_heap := context_heap s; stream_heap := stream_heap s;
     outbound_heap := outbound_heap s; fibers := fibers s; nextFiber := nextFiber s; finishing := finishing s;
     stopped := stopped s |}.
Definition set_constructionAttempted (v : bool) (s : state) : state :=
  {| initialize := initialize s; constructionAttempted := v; instance := instance s; providers :=
     providers s; stopAttempted := stopAttempted s; active := active s; streams := streams s;
     outboundStreams := outboundStreams s; contexts := contexts s; retired := retired s; nextOutboundId
     := nextOutboundId s; nextCallbackId := nextCallbackId s; nextStreamId := nextStreamId s;
     activeOutboundCalls := activeOutboundCalls s; activeEventPublications := activeEventPublications
     s; context_heap := context_heap s; stream_heap := stream_heap s; outbound_heap := outbound_heap s;
     fibers := fibers s; nextFiber := nextFiber s; finishing := finishing s;
     stopped := stopped s |}.
Definition set_instance (v : option jsval) (s : state) : state :=
  {| initialize := initialize s; constructionAttempted := constructionAttempted s; instance := v;
     providers := providers s; stopAttempted := stopAttempted s; active := active s; streams := streams
     s; outboundStreams := outboundStreams s; contexts := contexts s; retired := retired s;
     nextOutboundId := nextOutboundId s; nextCallbackId := nextCallbackId s; nextStreamId :=
     nextStreamId s; activeOutboundCalls := activeOutboundCalls s; activeEventPublications :=
     activeEventPublications s; context_heap := context_heap s; stream_heap := stream_heap s;
     outbound_heap := outbound_heap s; fibers := fibers s; nextFiber := nextFiber s; finishing := finishing s;
     stopped := stopped s |}.
Definition set_providers (v : list (jsstr * ProviderBinding)) (s : state) : state :=
  {| initialize := initialize s; constructionAttempted := constructionAttempted s; instance := instance
     s; providers := v; stopAttempted := stopAttempted s; active := active s; streams := streams s;
     outboundStreams := outboundStreams s; contexts := contexts s; retired := retired s; nextOutboundId
     := nextOutboundId s; nextCallbackId := nextCallbackId s; nextStreamId := nextStreamId s;
     activeOutboundCalls := activeOutboundCalls s; activeEventPublications := activeEventPublications
     s; context_heap := context_heap s; stream_heap := stream_heap s; outbound_heap := outbound_heap s;
     fibers := fibers s; nextFiber := nextFiber s; finishing := finishing s;
     stopped := stopped s |}.
Definition set_stopAttempted (v : bool) (s : state) : state :=
  {| initialize := initialize s; constructionAttempted := constructionAttempted s; instance := instance
     s; providers := providers s; stopAttempted := v; active := active s; streams := streams s;
     outboundStreams := outboundStreams s; contexts := contexts s; retired := retired s; nextOutboundId
     := nextOutboundId s; nextCallbackId := nextCallbackId s; nextStreamId := nextStreamId s;
     activeOutboundCalls := activeOutboundCalls s; activeEventPublications := activeEventPublications
     s; context_heap := context_heap s; stream_heap := stream_heap s; outbound_heap := outbound_heap s;
     fibers := fibers s; nextFiber := nextFiber s; finishing := finishing s;
     stopped := stopped s |}.
Definition set_active (v : list (jsstr * nat)) (s : state) : state :=
  {| initialize := initialize s; constructionAttempted := constructionAttempted s; instance := instance
     s; providers := providers s; stopAttempted := stopAttempted s; active := v; streams := streams s;
     outboundStreams := outboundStreams s; contexts := contexts s; retired := retired s; nextOutboundId
     := nextOutboundId s; nextCallbackId := nextCallbackId s; nextStreamId := nextStreamId s;
     activeOutboundCalls := activeOutboundCalls s; activeEventPublications := activeEventPublications
     s; context_heap := context_heap s; stream_heap := stream_heap s; outbound_heap := outbound_heap s;
     fibers := fibers s; nextFiber := nextFiber s; finishing := finishing s;
     stopped := stopped s |}.
Definition set_streams (v : list (jsstr * nat)) (s : state) : state :=
  {| initialize := initialize s; constructionAttempted := constructionAttempted s; instance := instance
     s; providers := providers s; stopAttempted := stopAttempted s; active := active s; streams := v;
     outboundStreams := outboundStreams s; contexts := contexts s; retired := retired s; nextOutboundId
     := nextOutboundId s; nextCallbackId := nextCallbackId s; nextStreamId := nextStreamId s;
     activeOutboundCalls := activeOutboundCalls s; activeEventPublications := activeEventPublications
     s; context_heap := context_heap s; stream_heap := stream_heap s; outbound_heap := outbound_heap s;
     fibers := fibers s; nextFiber := nextFiber s; finishing := finishing s;
     stopped := stopped s |}.
Definition set_outboundStreams (v : list (jsstr * nat)) (s : state) : state :=
  {| initialize := initialize s; constructionAttempted := constructionAttempted s; instance := instance
     s; providers := providers s; stopAttempted := stopAttempted s; active := active s; streams :=
     streams s; outboundStreams := v; contexts := contexts s; retired := retired s; nextOutboundId :=
     nextOutboundId s; nextCallbackId := nextCallbackId s; nextStreamId := nextStreamId s;
     activeOutboundCalls := activeOutboundCalls s; activeEventPublications := activeEventPublications
     s; context_heap := context_heap s; stream_heap := stream_heap s; outbound_heap := outbound_heap s;
     fibers := fibers s; nextFiber := nextFiber s; finishing := finishing s;
     stopped := stopped s |}.
Definition set_contexts (v : list nat) (s : state) : state :=
  {| initialize := initialize s; constructionAttempted := constructionAttempted s; instance := instance
     s; providers := providers s; stopAttempted := stopAttempted s; active := active s; streams :=
     streams s; outboundStreams := outboundStreams s; contexts := v; retired := retired s;
     nextOutboundId := nextOutboundId s; nextCallbackId := nextCallbackId s; nextStreamId :=
     nextStreamId s; activeOutboundCalls := activeOutboundCalls s; activeEventPublications :=
     activeEventPublications s; context_heap := context_heap s; stream_heap := stream_heap s;
     outbound_heap := outbound_heap s; fibers := fibers s; nextFiber := nextFiber s; finishing := finishing s;
     stopped := stopped s |}.
Definition set_retired (v : list jsstr) (s : state) : state :=
  {| initialize := initialize s; constructionAttempted := constructionAttempted s; instance := instance
     s; providers := providers s; stopAttempted := stopAttempted s; active := active s; streams :=
     streams s; outboundStreams := outboundStreams s; contexts := contexts s; retired := v;
     nextOutboundId := nextOutboundId s; nextCallbackId := nextCallbackId s; nextStreamId :=
     nextStreamId s; activeOutboundCalls := activeOutboundCalls s; activeEventPublications :=
     activeEventPublications s; context_heap := context_heap s; stream_heap := stream_heap s;
     outbound_heap := outbound_heap s; fibers := fibers s; nextFiber := nextFiber s; finishing := finishing s;
     stopped := stopped s |}.
Definition set_nextOutboundId (v : Z) (s : state) : state :=
  {| initialize := initialize s; constructionAttempted := constructionAttempted s; instance := instance
     s; providers := providers s; stopAttempted := stopAttempted s; active := active s; streams :=
     streams s; outboundStreams := outboundStreams s; contexts := contexts s; retired := retired s;
     nextOutboundId := v; nextCallbackId := nextCallbackId s; nextStreamId := nextStreamId s;
     activeOutboundCalls := activeOutboundCalls s; activeEventPublications := activeEventPublications
     s; context_heap := context_heap s; stream_heap := stream_heap s; outbound_heap := outbound_heap s;
     fibers := fibers s; nextFiber := nextFiber s; finishing := finishing s;
     stopped := stopped s |}.
Definition set_nextCallbackId (v : Z) (s : state) : state :=
  {| initialize := initialize s; constructionAttempted := constructionAttempted s; instance := instance
     s; providers := providers s; stopAttempted := stopAttempted s; active := active s; streams :=
     streams s; outboundStreams := outboundStreams s; contexts := contexts s; retired := retired s;
     nextOutboundId := nextOutboundId s; nextCallbackId := v; nextStreamId := nextStreamId s;
     activeOutboundCalls := activeOutboundCalls s; activeEventPublications := activeEventPublications
     s; context_heap := context_heap s; stream_heap := stream_heap s; outbound_heap := outbound_heap s;
     fibers := fibers s; nextFiber := nextFiber s; finishing := finishing s;
     stopped := stopped s |}.
Definition set_nextStreamId (v : Z) (s : state) : state :=
  {| initialize := initialize s; constructionAttempted := constructionAttempted s; instance := instance
     s; providers := providers s; stopAttempted := stopAttempted s; active := active s; streams :=
     streams s; outboundStreams := outboundStreams s; contexts := contexts s; retired := retired s;
     nextOutboundId := nextOutboundId s; nextCallbackId := nextCallbackId s; nextStreamId := v;
     activeOutboundCalls := activeOutboundCalls s; activeEventPublications := activeEventPublications
     s; context_heap := context_heap s; stream_heap := stream_heap s; outbound_heap := outbound_heap s;
     fibers := fibers s; nextFiber := nextFiber s; finishing := finishing s;
     stopped := stopped s |}.
Definition set_activeOutboundCalls (v : Z) (s : state) : state :=
  {| initialize := initialize s; constructionAttempted := constructionAttempted s; instance := instance
     s; providers := providers s; stopAttempted := stopAttempted s; active := active s; streams :=
     streams s; outboundStreams := outboundStreams s; contexts := contexts s; retired := retired s;
     nextOutboundId := nextOutboundId s; nextCallbackId := nextCallbackId s; nextStreamId :=
     nextStreamId s; activeOutboundCalls := v; activeEventPublications := activeEventPublications s;
     context_heap := context_heap s; stream_heap := stream_heap s; outbound_heap := outbound_heap s;
     fibers := fibers s; nextFiber := nextFiber s; finishing := finishing s;
     stopped := stopped s |}.
Definition set_activeEventPublications (v : Z) (s : state) : state :=
  {| initialize := initialize s; constructionAttempted := constructionAttempted s; instance := instance
     s; providers := providers s; stopAttempted := stopAttempted s; active := active s; streams :=
     streams s; outboundStreams := outboundStreams s; contexts := contexts s; retired := retired s;
     nextOutboundId := nextOutboundId s; nextCallbackId := nextCallbackId s; nextStreamId :=
     nextStreamId s; activeOutboundCalls := activeOutboundCalls s; activeEventPublications := v;
     context_heap := context_heap s; stream_heap := stream_heap s; outbound_heap := outbound_heap s;
     fibers := fibers s; nextFiber := nextFiber s; finishing := finishing s;
     stopped := stopped s |}.
Definition set_context_heap (v : list ContextObject) (s : state) : state :=
  {| initialize := initialize s; constructionAttempted := constructionAttempted s; instance := instance
     s; providers := providers s; stopAttempted := stopAttempted s; active := active s; streams :=
     streams s; outboundStreams := outboundStreams s; contexts := contexts s; retired := retired s;
     nextOutboundId := nextOutboundId s; nextCallbackId := nextCallbackId s; nextStreamId :=
     nextStreamId s; activeOutboundCalls := activeOutboundCalls s; activeEventPublications :=
     activeEventPublications s; context_heap := v; stream_heap := stream_heap s; outbound_heap :=
     outbound_heap s; fibers := fibers s; nextFiber := nextFiber s; finishing := finishing s;
     stopped := stopped s |}.
Definition set_stream_heap (v : list ActiveStream) (s : state) : state :=
  {| initialize := initialize s; constructionAttempted := constructionAttempted s; instance := instance
     s; providers := providers s; stopAttempted := stopAttempted s; active := active s; streams :=
     streams s; outboundStreams := outboundStreams s; contexts := contexts s; retired := retired s;
     nextOutboundId := nextOutboundId s; nextCallbackId := nextCallbackId s; nextStreamId :=
     nextStreamId s; activeOutboundCalls := activeOutboundCalls s; activeEventPublications :=
     activeEventPublications s; context_heap := context_heap s; stream_heap := v; outbound_heap :=
     outbound_heap s; fibers := fibers s; nextFiber := nextFiber s; finishing := finishing s;
     stopped := stopped s |}.
Definition set_outbound_heap (v : list OutboundStream) (s : state) : state :=
  {| initialize := initialize s; constructionAttempted := constructionAttempted s; instance := instance
     s; providers := providers s; stopAttempted := stopAttempted s; active := active s; streams :=
     streams s; outboundStreams := outboundStreams s; contexts := contexts s; retired := retired s;
     nextOutboundId := nextOutboundId s; nextCallbackId := nextCallbackId s; nextStreamId :=
     nextStreamId s; activeOutboundCalls := activeOutboundCalls s; activeEventPublications :=
     activeEventPublications s; context_heap := context_heap s; stream_heap := stream_heap s;
     outbound_heap := v; fibers := fibers s; nextFiber := nextFiber s; finishing := finishing s;
     stopped := stopped s |}.
Definition set_fibers (v : list (nat * fiber)) (s : state) : state :=
  {| initialize := initialize s; constructionAttempted := constructionAttempted s; instance := instance
     s; providers := providers s; stopAttempted := stopAttempted s; active := active s; streams :=
     streams s; outboundStreams := outboundStreams s; contexts := contexts s; retired := retired s;
     nextOutboundId := nextOutboundId s; nextCallbackId := nextCallbackId s; nextStreamId :=
     nextStreamId s; activeOutboundCalls := activeOutboundCalls s; activeEventPublications :=
     activeEventPublications s; context_heap := context_heap s; stream_heap := stream_heap s;
     outbound_heap := outbound_heap s; fibers := v; nextFiber := nextFiber s; finishing := finishing s;
     stopped := stopped s |}.
Definition set_nextFiber (v : nat) (s : state) : state :=
  {| initialize := initialize s; constructionAttempted := constructionAttempted s; instance := instance
     s; providers := providers s; stopAttempted := stopAttempted s; active := active s; streams :=
     streams s; outboundStreams := outboundStreams s; contexts := contexts s; retired := retired s;
     nextOutboundId := nextOutboundId s; nextCallbackId := nextCallbackId s; nextStreamId :=
     nextStreamId s; activeOutboundCalls := activeOutboundCalls s; activeEventPublications :=
     activeEventPublications s; context_heap := context_heap s; stream_heap := stream_heap s;
     outbound_heap := outbound_heap s; fibers := fibers s; nextFiber := v; finishing := finishing s;
     stopped := stopped s |}.
Definition set_finishing (v : bool) (s : state) : state :=
  {| initialize := initialize s; constructionAttempted := constructionAttempted s; instance := instance
     s; providers := providers s; stopAttempted := stopAttempted s; active := active s; streams :=
     streams s; outboundStreams := outboundStreams s; contexts := contexts s; retired := retired s;
     nextOutboundId := nextOutboundId s; nextCallbackId := nextCallbackId s; nextStreamId :=
     nextStreamId s; activeOutboundCalls := activeOutboundCalls s; activeEventPublications :=
     activeEventPublications s; context_heap := context_heap s; stream_heap := stream_heap s;
     outbound_heap := outbound_heap s; fibers := fibers s; nextFiber := nextFiber s; finishing := v;
     stopped := stopped s |}.

Definition set_stopped (v : bool) (s : state) : state :=
  {| initialize := initialize s; constructionAttempted := constructionAttempted s; instance := instance
     s; providers := providers s; stopAttempted := stopAttempted s; active := active s; streams :=
     streams s; outboundStreams := outboundStreams s; contexts := contexts s; retired := retired s;
     nextOutboundId := nextOutboundId s; nextCallbackId := nextCallbackId s; nextStreamId :=
     nextStreamId s; activeOutboundCalls := activeOutboundCalls s; activeEventPublications :=
     activeEventPublications s; context_heap := context_heap s; stream_heap := stream_heap s;
     outbound_heap := outbound_heap s; fibers := fibers s; nextFiber := nextFiber s; finishing :=
     finishing s; stopped := v |}.

Definition empty_state : state :=
  {| initialize := None; constructionAttempted := false; instance := None; providers := [];
     stopAttempted := false; active := []; streams := []; outboundStreams := []; contexts := []; retired := [];
     nextOutboundId := 1; nextCallbackId := 1; nextStreamId := 1; activeOutboundCalls := 0;
     activeEventPublications := 0; context_heap := []; stream_heap := []; outbound_heap := []; fibers := [];
     nextFiber := 0; finishing := false; stopped := false |}.

(** [new BunAuthoringServer(definition, runtimeProfile, bootstrap)] *)
Definition start : throws (list N * state) :=
  match decodeBase64Url32 (bootstrap_secret bootstrap) with
  | Some secret => mret (secret, empty_state)
  | None => fail platform_error
  end.

Variable secret : list N.

Abbreviation segment := (state → state * list output).

(** ** Bookkeeping *)

Definition suspend (n : nat) (r : reply) (at_ : suspended) : segment :=
  fun s => (set_fibers (fibers s ++ [(n, {| fb_reply := r; fb_at := at_ |})]) s, []).

(** [await] of a call of the Plugin's code. *)
Definition await_call (n : nat) (r : reply) (at_ : suspended) (c : plugin_call) : segment :=
  fun s => ((suspend n r at_ s).1, [Called n c]).

Definition answer (n : nat) (r : reply) (v : jsval) : segment := fun s => (s, [succeed n r v]).
Definition refused (n : nat) (r : reply) (e : thrown) : segment := fun s => (s, [reject n r e]).
Definition refused_with (n : nat) (r : reply) (message : string) : segment := refused n r (ErrorObject (js message)).

(** [const context = ...; this.#contexts.set(context, active)] *)
Definition new_context (request_id : jsstr) (scope : InvocationScope) (s : state) : state :=
  let cx := length (context_heap s) in
  set_contexts (contexts s ++ [cx])
    (set_context_heap (context_heap s ++ [{| cx_request_id := request_id; cx_scope := scope; cx_aborted := false |}]) s).

Definition delete_context (cx : nat) (s : state) : state := set_contexts (filter (fun c => c ≠ cx) (contexts s)) s.

Definition aborted (cx : nat) (s : state) : bool :=
  match context_heap s !! cx with Some c => cx_aborted c | None => false end.

Definition abort (cx : nat) (s : state) : state :=
  set_context_heap (alter (fun c => {| cx_request_id := cx_request_id c; cx_scope := cx_scope c;
                                       cx_aborted := true |}) cx (context_heap s)) s.

Definition add_retired (id : jsstr) (s : state) : state :=
  set_retired (if mem id (retired s) then retired s else retired s ++ [id]) s.

Definition delete_key {V} (k : jsstr) (l : list (jsstr * V)) : list (jsstr * V) := filter (fun e => e.1 ≠ k) l.

(** [#callback(method, params)] up to its first [await]. *)
Definition callback_from (n : nat) (r : reply) (k : callback) (method : string) (params : jsval) : segment :=
  fun s => match initialize s with
           | None => refused_with n r "Bun Plugin is not initialized" s
           | Some i => suspend n r (AwaitProof i k method params) s
           end.

(** [await this.#settled(params, state)], then the result. *)
Definition settled (n : nat) (r : reply) (p : InvokeParams) (state_ : string) (result : jsval) : segment :=
  callback_from n r (CbSettled result) "lenso.settled" (JObj [
    (js "session", JStr (inv_session p)); (js "scope_id", JStr (scope_id (inv_scope p)));
    (js "correlation_id", JStr (correlation_id p)); (js "state", JStr (js state_))]).

Definition invocation_result (p : InvokeParams) (outcome : jsval) : jsval :=
  JObj [(js "session", JStr (inv_session p)); (js "correlation_id", JStr (correlation_id p));
        (js "outcome", outcome)].

Definition stream_result (p : StreamActionParams) (outcome : jsval) : jsval :=
  JObj [(js "session", JStr (sa_session p)); (js "correlation_id", JStr (sa_correlation_id p));
        (js "stream_id", JStr (sa_stream_id p)); (js "outcome", outcome)].

Definition runtime_json (failure : RuntimeFailure) : jsval := wire_json (WRuntime failure).
Definition accepted_json : jsval := JObj [(js "kind", JStr (js "accepted"))].

Definition exhausted (p : InvokeParams) : jsval :=
  runtime_json (failure_of "resource_exhausted"
    [(js "capability", JStr (inv_capability_id p)); (js "operation", JStr (inv_operation p))]).

Definition violation (capability : jsstr) : jsval :=
  runtime_json (failure_of "protocol_violation" [(js "capability", JStr capability)]).

Definition action_json (o : ProviderActionOutcome) (translate : RuntimeFailure → RuntimeFailure) : jsval :=
  match o with ActionAccepted => accepted_json | ActionRuntime f => runtime_json (translate f) end.

(** ** Initialization and construction *)

(** [#initializeSession(request)] up to the verification of the proof. *)
Definition initialize_session (n : nat) (r : reply) (request : InitializeRequest) : segment := fun s =>
  match initialize s with
  | Some _ => refused_with n r "Bun Authoring V2 initialized more than once" s
  | None =>
      if negb (bool_decide (ir_callback_origin request = callback_origin bootstrap)) then
        refused_with n r "callback origin does not match the private bootstrap" s
      else match authoringHandshakeProofPayload request with
           | Throw e => refused n r e s
           | Ok payload => suspend n r (AwaitVerify request (sha256 payload)) s
           end
  end.

Definition createProof (message : list N) : jsstr := encodeBase64Url (hmac_sha256 secret message).

(** [verifyProof(secret, message, proof, name)] *)
Definition verifyProof (message : list N) (proof : jsstr) (name : string) : throws unit :=
  match decodeBase64Url32 (createProof message), decodeBase64Url32 proof with
  | Some expected, Some received =>
      throw_if (negb (bool_decide (expected = received))) (js name ++ js " does not authenticate")
  | _, _ => fail platform_error
  end.

(** The rest, once the proof is computed; [random] fills the child's nonce. *)
Definition initialize_verified (n : nat) (r : reply) (request : InitializeRequest) (digest random : list N)
  : segment := fun s =>
  match verifyProof (authoringHostProofMessage digest) (ir_host_proof request) "host_proof";;
        validateDefinition (ir_initialize request) with
  | Throw e => refused n r e s
  | Ok _ => suspend n r (AwaitChildProof request digest (encodeBase64Url random))
              (set_initialize (Some (ir_initialize request)) s)
  end.

Definition initialize_answer (request : InitializeRequest) (digest : list N) (childNonce : jsstr) : jsval :=
  JObj [(js "initialized", init_wire (ir_initialize request)); (js "child_nonce", JStr childNonce);
        (js "child_proof", JStr (createProof (authoringChildProofMessage digest childNonce)))].

Definition construct_result (p : ConstructParams) (outcome : jsval) : jsval :=
  JObj [(js "session", JStr (con_session p)); (js "lifecycle_scope_id", JStr (lifecycle_scope_id p));
        (js "outcome", outcome)].

Definition is_object (v : jsval) : bool := match v with JObj _ | JArr _ => true | _ => false end.

(** After [create]: the binding of the endpoints, the [catch] and the [finally]. *)
Definition finish_construct (n : nat) (r : reply) (i : InitializeParams) (p : ConstructParams) (cx : nat)
    (created : completion jsval) : segment := fun s =>
  let failed e s := answer n r (construct_result p (JObj [
    (js "kind", JStr (js "failed")); (js "detail", JStr (AuthoringDetail.authoring_boundedError e))]))
    (delete_context cx s) in
  match created with
  | Threw e => failed e s
  | Returned v =>
      if negb (is_object v) then failed (ErrorObject (js "Plugin factory must return one complete object")) s
      else match bindProviders v i with
           | Throw e => failed e s
           | Ok bindings =>
               answer n r (construct_result p (JObj [(js "kind", JStr (js "constructed"))]))
                 (delete_context cx (set_instance (Some v) (set_providers bindings s)))
           end
  end.

Definition construct (n : nat) (r : reply) (p : ConstructParams) : segment := fun s =>
  match initialize s with
  | None => refused_with n r "Bun Plugin is not initialized" s
  | Some i =>
      match validateConstruct p (identity_session i) with
      | Throw e => refused n r e s
      | Ok _ =>
          if constructionAttempted s then refused_with n r "Bun Plugin constructed more than once" s
          else
            let s := set_constructionAttempted true s in
            let cx := length (context_heap s) in
            let s := new_context (lifecycle_scope_id p) (lifecycle_scope (lifecycle_scope_id p) (con_budget p)) s in
            match inputs i with
            | Throw e => finish_construct n r i p cx (Threw e) s
            | Ok v => if def_has_create definition then await_call n r (AwaitCreate i p cx) (CallCreate v cx) s
                      else finish_construct n r i p cx (Returned v) s
            end
      end
  end.

(** ** Invocations *)

(** The end of [#runInvocation]. *)
Definition complete_invocation (n : nat) (r : reply) (p : InvokeParams) (state_ : string) (outcome : InvocationOutcome)
  : segment := fun s =>
  settled n r p state_ (invocation_result p (wire_json outcome))
    (add_retired (correlation_id p) (set_active (delete_key (correlation_id p) (active s)) s)).

Definition known (id : jsstr) (s : state) : bool := mem id (map fst (active s)) || mem id (retired s).

Definition enter_active (p : InvokeParams) (s : state) : state :=
  let cx := length (context_heap s) in
  new_context (correlation_id p) (inv_scope p) (set_active (active s ++ [(correlation_id p, cx)]) s).

Definition invoke (n : nat) (r : reply) (p : InvokeParams) : segment := fun s =>
  match initialize s with
  | None => refused_with n r "Bun Plugin is not initialized" s
  | Some i =>
      match validateInvoke p i with
      | Throw e => refused n r e s
      | Ok _ =>
          match instance s with
          | None => refused_with n r "Bun Plugin invoked before construction" s
          | Some object =>
              if known (correlation_id p) s then refused_with n r "Bun Plugin reused a correlation id" s
              else if max_retired_ids (limits i) <=? Z.of_nat (length (retired s)) then
                refused_with n r "Bun Plugin retired identity limit exhausted" s
              else if max_active_invocations (limits i) <=? Z.of_nat (length (active s)) then
                settled n r p "completed" (invocation_result p (exhausted p)) s
              else
                let cx := length (context_heap s) in
                let s := enter_active p s in
                match assoc (endpoint_id p) (providers s) with
                | None => complete_invocation n r p "abandoned"
                            (WRuntime (plugin_failure_of (ErrorObject (js "unknown admitted endpoint")))) s
                | Some _ => await_call n r (AwaitInvoke p cx)
                              (CallInvoke (endpoint_id p) (inv_operation p) cx (inv_payload p) object) s
                end
          end
      end
  end.

(** After [provider.invokeRequest]. *)
Definition invoked (n : nat) (r : reply) (p : InvokeParams) (cx : nat) (c : completion ProviderDispatchOutcome)
  : segment := fun s =>
  match c with
  | Returned result =>
      complete_invocation n r p (if aborted cx s then "cancelled" else "completed") (toWireOutcome result p) s
  | Threw e => complete_invocation n r p "abandoned" (WRuntime (plugin_failure_of e)) s
  end.

(** ** Events *)

Definition publish_event (n : nat) (r : reply) (p : InvokeParams) : segment := fun s =>
  match initialize s with
  | None => refused_with n r "Bun Plugin is not initialized" s
  | Some i =>
      match validateEventPublish p i with
      | Throw e => refused n r e s
      | Ok _ =>
          match instance s with
          | None => refused_with n r "Bun Plugin published to before construction" s
          | Some object =>
              let cx := length (context_heap s) in
              let s := new_context (correlation_id p) (inv_scope p) s in
              match assoc (endpoint_id p) (providers s) with
              | None => refused_with n r "unknown admitted endpoint" s
              | Some binding =>
                  if negb (pb_publishEvent binding) then
                    refused_with n r "Event operation has no provider binding" s
                  else if max_queued_calls (limits i) <=? activeEventPublications s then
                    answer n r (invocation_result p (exhausted p)) s
                  else await_call n r (AwaitPublish p cx)
                         (CallPublish (endpoint_id p) (inv_operation p) cx (inv_payload p) object)
                         (set_activeEventPublications (activeEventPublications s + 1) s)
              end
          end
      end
  end.

Definition published (n : nat) (r : reply) (p : InvokeParams) (cx : nat) (c : completion ProviderActionOutcome)
  : segment := fun s =>
  let outcome := match c with
                 | Returned o => action_json o (fun f => wireFailure f (Some p))
                 | Threw e => runtime_json (plugin_failure_of e)
                 end in
  answer n r (invocation_result p outcome)
    (delete_context cx (set_activeEventPublications (activeEventPublications s - 1) s)).

(** ** Streams the Host opens *)

(** The end of [#openStream]. *)
Definition complete_open (n : nat) (r : reply) (p : InvokeParams) (cx : nat) (state_ : string)
    (opened : bool) (outcome : jsval) : segment := fun s =>
  let s := set_active (delete_key (correlation_id p) (active s)) s in
  let s := if opened then s else delete_context cx s in
  settled n r p state_ (invocation_result p outcome) (add_retired (correlation_id p) s).

Definition open_stream (n : nat) (r : reply) (p : InvokeParams) : segment := fun s =>
  match initialize s with
  | None => refused_with n r "Bun Plugin is not initialized" s
  | Some i =>
      match validateStreamOpen p i with
      | Throw e => refused n r e s
      | Ok _ =>
          match instance s with
          | None => refused_with n r "Bun Plugin streamed to before construction" s
          | Some object =>
              if known (correlation_id p) s then refused_with n r "Bun Plugin reused a correlation id" s
              else if (max_retired_ids (limits i) <=? Z.of_nat (length (retired s))) ||
                      (max_active_invocations (limits i) <=? Z.of_nat (length (active s))) ||
                      (max_unfinished_executions (limits i) <=? Z.of_nat (length (streams s))) then
                settled n r p "completed" (invocation_result p (exhausted p)) s
              else
                let cx := length (context_heap s) in
                let s := enter_active p s in
                let abandon message := complete_open n r p cx "abandoned" false
                  (runtime_json (plugin_failure_of (ErrorObject (js message)))) in
                match assoc (endpoint_id p) (providers s) with
                | None => abandon "unknown admitted endpoint"%string s
                | Some binding =>
                    if negb (pb_openStream binding) then abandon "Stream operation has no provider binding"%string s
                    else await_call n r (AwaitOpen p cx)
                           (CallOpenStream (endpoint_id p) (inv_operation p) cx (inv_payload p) object) s
                end
          end
      end
  end.

(** After [provider.openStream]. *)
Definition opened (n : nat) (r : reply) (p : InvokeParams) (cx : nat) (c : completion ProviderStreamOpenOutcome)
  : segment := fun s =>
  let state_ := if aborted cx s then "cancelled"%string else "completed"%string in
  match c with
  | Returned StreamOpened =>
      if aborted cx s then
        let done := match cancel_binding n (correlation_id p) with
                    | None => complete_open n r p cx state_ false (runtime_json (failure_of "cancelled"
                                [(js "request_id", JStr (correlation_id p))])) s
                    | Some e => complete_open n r p cx "abandoned" false (runtime_json (plugin_failure_of e)) s
                    end in
        (done.1, CancelBinding (correlation_id p) :: done.2)
      else
        let streamId := dec (nextStreamId s) in
        let stream := length (stream_heap s) in
        let s := set_nextStreamId (nextStreamId s + 1) s in
        let s := set_stream_heap (stream_heap s ++ [{| as_context := cx; nextSendSequence := 0;
                                                       nextReceiveSequence := 0 |}]) s in
        let s := set_streams (assoc_set streamId stream (streams s)) s in
        complete_open n r p cx state_ true
          (JObj [(js "kind", JStr (js "opened")); (js "stream_id", JStr streamId)]) s
  | Returned (StreamDomain v) => complete_open n r p cx state_ false (wire_json (WDomain v)) s
  | Returned (StreamRuntime f) => complete_open n r p cx state_ false (runtime_json (wireFailure f (Some p))) s
  | Threw e => complete_open n r p cx "abandoned" false (runtime_json (plugin_failure_of e)) s
  end.

(** The checks every stream action starts with. *)
Definition stream_action (n : nat) (r : reply) (p : StreamActionParams) (kind : string)
    (k : option (nat * ActiveStream) → segment) : segment := fun s =>
  match initialize s with
  | None => refused_with n r "Bun Plugin is not initialized" s
  | Some i =>
      match validateStreamAction p (identity_session i) kind with
      | Throw e => refused n r e s
      | Ok _ => k (stream ← assoc (sa_stream_id p) (streams s);
                   pair stream <$> (stream_heap s !! stream)) s
      end
  end.

Definition no_stream (n : nat) (r : reply) (p : StreamActionParams) : segment :=
  answer n r (stream_result p (violation (js "lenso.bun-authoring"))).

Definition send_stream (n : nat) (r : reply) (p : StreamActionParams) : segment :=
  stream_action n r p "stream_send" (fun stream s =>
    match stream with
    | None => no_stream n r p s
    | Some (o, stream) =>
        if bool_decide (sa_sequence p = dec (nextSendSequence stream)) then
          await_call n r (AwaitSend p o) (CallSend o (sa_message p)) s
        else refused_with n r "Bun Stream send sequence is not contiguous" s
    end).

Definition alter_stream (o : nat) (f : ActiveStream → ActiveStream) (s : state) : state :=
  set_stream_heap (alter f o (stream_heap s)) s.

Definition count_send (stream : ActiveStream) : ActiveStream :=
  {| as_context := as_context stream; nextSendSequence := nextSendSequence stream + 1;
     nextReceiveSequence := nextReceiveSequence stream |}.

Definition count_receive (stream : ActiveStream) : ActiveStream :=
  {| as_context := as_context stream; nextSendSequence := nextSendSequence stream;
     nextReceiveSequence := nextReceiveSequence stream + 1 |}.

Definition sent (n : nat) (r : reply) (p : StreamActionParams) (o : nat) (c : completion ProviderActionOutcome)
  : segment := fun s =>
  match c with
  | Threw e => refused n r e s
  | Returned outcome =>
      let s := match outcome with ActionAccepted => alter_stream o count_send s | ActionRuntime _ => s end in
      answer n r (stream_result p (action_json outcome (fun f => wireFailure f None))) s
  end.

Definition receive_stream (n : nat) (r : reply) (p : StreamActionParams) : segment :=
  stream_action n r p "stream_receive" (fun stream s =>
    match stream with
    | None => no_stream n r p s
    | Some (o, _) => await_call n r (AwaitReceive p o) (CallReceive o) s
    end).

(** [this.#streams.delete(id); this.#contexts.delete(stream.context)] *)
Definition drop_stream (id : jsstr) (o : nat) (s : state) : state :=
  let s := set_streams (delete_key id (streams s)) s in
  match stream_heap s !! o with Some stream => delete_context (as_context stream) s | None => s end.

Definition terminal_json (outcome : jsval) : jsval :=
  JObj [(js "kind", JStr (js "terminal")); (js "outcome", outcome)].

Definition received (n : nat) (r : reply) (p : StreamActionParams) (o : nat)
    (c : completion ProviderStreamReceiveOutcome) : segment := fun s =>
  match c with
  | Threw e => refused n r e s
  | Returned (ReceiveMessage v) =>
      let sequence := match stream_heap s !! o with Some stream => nextReceiveSequence stream | None => 0 end in
      answer n r (stream_result p (JObj [(js "kind", JStr (js "message"));
                                         (js "sequence", JStr (dec sequence)); (js "message", v)]))
        (alter_stream o count_receive s)
  | Returned ReceiveHalfClosed => answer n r (stream_result p (JObj [(js "kind", JStr (js "peer_half_closed"))])) s
  | Returned ReceiveSuccess =>
      answer n r (stream_result p (terminal_json (JObj [(js "kind", JStr (js "success"))])))
        (drop_stream (sa_stream_id p) o s)
  | Returned (ReceiveDomain v) =>
      answer n r (stream_result p (terminal_json (JObj [(js "kind", JStr (js "domain")); (js "error", v)])))
        (drop_stream (sa_stream_id p) o s)
  | Returned (ReceiveRuntime f) => answer n r (stream_result p (runtime_json (wireFailure f None))) s
  end.

Definition close_send_stream (n : nat) (r : reply) (p : StreamActionParams) : segment :=
  stream_action n r p "stream_close_send" (fun stream s =>
    match stream with
    | None => no_stream n r p s
    | Some (o, _) => await_call n r (AwaitCloseSend p) (CallCloseSend o) s
    end).

Definition close_sent (n : nat) (r : reply) (p : StreamActionParams) (c : completion ProviderActionOutcome)
  : segment := fun s =>
  match c with
  | Threw e => refused n r e s
  | Returned outcome => answer n r (stream_result p (action_json outcome (fun f => wireFailure f None))) s
  end.

Definition cancel_stream (n : nat) (r : reply) (p : StreamActionParams) : segment :=
  stream_action n r p "stream_cancel" (fun stream s =>
    match stream with
    | None => answer n r (stream_result p accepted_json) (set_streams (delete_key (sa_stream_id p) (streams s)) s)
    | Some (o, _) =>
        let done := match cancel_binding n (sa_stream_id p) with
                    | None => answer n r (stream_result p accepted_json) (drop_stream (sa_stream_id p) o s)
                    | Some e => refused n r e s
                    end in
        (done.1, CancelBinding (sa_stream_id p) :: done.2)
    end).

(** ** Calls to the Host *)

Inductive outbound_kind := OutCall | OutEvent | OutStreamOpen.

Definition outbound_method (k : outbound_kind) : string :=
  match k with OutCall => "lenso.call" | OutEvent => "lenso.event.publish" | OutStreamOpen => "lenso.stream.open" end.

Definition outbound_payload_key (k : outbound_kind) : string :=
  match k with OutCall => "payload" | OutEvent => "event" | OutStreamOpen => "request" end.

Definition outbound_callback (k : outbound_kind) (route : RouteDescriptor) (correlationId : jsstr) : callback :=
  match k with
  | OutCall => CbCall correlationId
  | OutEvent => CbEvent correlationId
  | OutStreamOpen => CbStreamOpen correlationId (route_capability_id route)
  end.

(** The answer to a call from a cancelled context. *)
Definition outbound_cancelled (k : outbound_kind) (request_id : jsstr) : jsval :=
  match k with
  | OutCall => runtime_json (failure_of "cancelled" [(js "detail", JStr request_id)])
  | _ => runtime_json (failure_of "cancelled" [(js "request_id", JStr request_id)])
  end.

Definition outbound_exhausted (k : outbound_kind) (route : RouteDescriptor) (operation : jsstr) : jsval :=
  match k with
  | OutCall => runtime_json (failure_of "resource_exhausted" [(js "detail", JStr operation)])
  | _ => runtime_json (failure_of "resource_exhausted"
           [(js "capability", JStr (route_capability_id route)); (js "operation", JStr operation)])
  end.

Definition outbound_full (k : outbound_kind) (i : InitializeParams) (s : state) : bool :=
  (max_active_outbound_calls (limits i) <=? activeOutboundCalls s) ||
  match k with
  | OutStreamOpen => max_unfinished_executions (limits i) <=? Z.of_nat (length (outboundStreams s))
  | _ => false
  end.

(** [(this.#nextOutboundId++).toString()] *)
Definition take_outbound_id (s : state) : state := set_nextOutboundId (nextOutboundId s + 1) s.

Definition enter_outbound (s : state) : state := set_activeOutboundCalls (activeOutboundCalls s + 1) s.
Definition leave_outbound (s : state) : state := set_activeOutboundCalls (activeOutboundCalls s - 1) s.

(** [#outboundCall], [#outboundStream] or [#outboundEvent] from the context [cx]. *)
Definition outbound (n : nat) (k : outbound_kind) (cx : nat) (route : RouteDescriptor) (operation : jsstr)
    (payload : jsval) (elapsed : Z) : segment := fun s =>
  match initialize s, context_heap s !! cx with
  | Some i, Some parent =>
      if cx_aborted parent then answer n PluginReply (outbound_cancelled k (cx_request_id parent)) s
      else if outbound_full k i s then answer n PluginReply (outbound_exhausted k route operation) s
      else
        let correlationId := dec (nextOutboundId s) in
        callback_from n PluginReply (outbound_callback k route correlationId) (outbound_method k)
          (outbound_params (identity_session i) correlationId route operation
             (outboundScope (cx_scope parent) correlationId elapsed) (outbound_payload_key k) payload)
          (take_outbound_id (enter_outbound s))
  | _, _ => refused_with n PluginReply "Bun Plugin is not initialized" s
  end.

(** [call], [openStream] and [publishEvent] of the client that [#boundClient] makes for a
    route: they need a registered context. *)
Definition boundClient (n : nat) (k : outbound_kind) (cx : nat) (route : RouteDescriptor) (operation : jsstr)
    (payload : jsval) (elapsed : Z) : segment := fun s =>
  if negb (bool_decide (cx ∈ contexts s)) then
    refused_with n PluginReply "Host calls require the active invocation context" s
  else outbound n k cx route operation payload elapsed s.

(** [finish()] of an outbound stream. *)
Definition finish_outbound (o : nat) (s : state) : state :=
  match outbound_heap s !! o with
  | None => s
  | Some stream =>
      set_outboundStreams (delete_key (os_stream_id stream) (outboundStreams s))
        (set_outbound_heap (<[o := {| os_init := os_init stream; os_stream_id := os_stream_id stream;
                                      os_capability := os_capability stream; os_nextSend := os_nextSend stream;
                                      os_closed := true |}]> (outbound_heap s)) s)
  end.

Definition stream_exhausted (stream : OutboundStream) : jsval :=
  runtime_json (failure_of "resource_exhausted" [(js "capability", JStr (os_capability stream))]).

(** [send(message)] ([Some message]) and [closeSend()] ([None]) of an outbound stream. *)
Definition outbound_action (n o : nat) (message : option jsval) : segment := fun s =>
  match outbound_heap s !! o with
  | None => (s, [])
  | Some stream =>
      let actionId := dec (nextOutboundId s) in
      let s := take_outbound_id s in
      if os_closed stream then answer n PluginReply (violation (os_capability stream)) s
      else if max_active_outbound_calls (limits (os_init stream)) <=? activeOutboundCalls s then
        answer n PluginReply (stream_exhausted stream) s
      else
        callback_from n PluginReply (CbStreamAction o actionId (match message with Some _ => true | None => false end))
          (match message with Some _ => "lenso.stream.send" | None => "lenso.stream.close_send" end)
          (stream_params (identity_session (os_init stream)) actionId (os_stream_id stream)
             (pair (os_nextSend stream) <$> message)) (enter_outbound s)
  end.

Definition outbound_receive (n o : nat) : segment := fun s =>
  match outbound_heap s !! o with
  | None => (s, [])
  | Some stream =>
      if os_closed stream then answer n PluginReply (violation (os_capability stream)) s
      else if max_active_outbound_calls (limits (os_init stream)) <=? activeOutboundCalls s then
        answer n PluginReply (stream_exhausted stream) s
      else
        let actionId := dec (nextOutboundId s) in
        callback_from n PluginReply (CbStreamReceive o actionId) "lenso.stream.receive"
          (stream_params (identity_session (os_init stream)) actionId (os_stream_id stream) None)
          (take_outbound_id (enter_outbound s))
  end.

(** [cancel()] of an outbound stream: the notification is sent on its own. *)
Definition outbound_cancel (o : nat) : segment := fun s =>
  match outbound_heap s !! o with
  | None => (s, [])
  | Some stream =>
      if os_closed stream then (s, [])
      else
        let s := finish_outbound o s in
        let actionId := dec (nextOutboundId s) in
        let s := take_outbound_id s in
        let n := nextFiber s in
        callback_from n PluginReply CbStreamCancel "lenso.stream.cancel"
          (stream_params (identity_session (os_init stream)) actionId (os_stream_id stream) None)
          (set_nextFiber (S n) s)
  end.

(** [await fetch(...)] and the reading of the response. *)
Inductive callback_response :=
| CallbackStatus (status : Z)
| CallbackError (message : option jsstr)
| CallbackResult (v : jsval)
| CallbackRejected (e : thrown).

Definition callback_completion (c : callback_response) : completion jsval :=
  match c with
  | CallbackStatus code => Threw (ErrorObject (js "Host callback returned HTTP " ++ dec code))
  | CallbackError m => Threw (ErrorObject (default (js "Host callback failed") m))
  | CallbackResult v => Returned v
  | CallbackRejected e => Threw e
  end.

(** The request of [#callback], once its proof is computed. *)
Definition post_callback (n : nat) (r : reply) (i : InitializeParams) (k : callback) (method : string) (params : jsval)
  : segment := fun s =>
  let message := JObj [(js "jsonrpc", JStr (js "2.0")); (js "id", JStr (dec (nextCallbackId s)));
                       (js "method", JStr (js method)); (js "params", params)] in
  ((suspend n r (AwaitFetch i k) (set_nextCallbackId (nextCallbackId s + 1) s)).1,
   [Posted n (createProof (authoringCallbackProofMessage (identity_session i) method params)) message]).

Definition receive_json (o : ProviderStreamReceiveOutcome) : jsval :=
  match o with
  | ReceiveMessage v => JObj [(js "kind", JStr (js "message")); (js "value", v)]
  | ReceiveHalfClosed => JObj [(js "kind", JStr (js "peer_half_closed"))]
  | ReceiveSuccess => JObj [(js "kind", JStr (js "terminal_success"))]
  | ReceiveDomain v => JObj [(js "kind", JStr (js "terminal_domain")); (js "value", v)]
  | ReceiveRuntime f => runtime_json f
  end.

Definition bump_send (o : nat) (s : state) : state :=
  set_outbound_heap (alter (fun x => {| os_init := os_init x; os_stream_id := os_stream_id x;
    os_capability := os_capability x; os_nextSend := os_nextSend x + 1; os_closed := os_closed x |}) o
    (outbound_heap s)) s.

(** What a call does with the validated answer of the Host. *)
Definition deliver {A} (n : nat) (r : reply) (c : completion jsval) (validate : jsval → throws A) (k : A → segment)
  : segment := fun s =>
  match c with
  | Threw e => refused n r e s
  | Returned v => match validate v with Throw e => refused n r e s | Ok a => k a s end
  end.

Definition open_outbound (n : nat) (i : InitializeParams) (streamId capability : jsstr) : segment := fun s =>
  let o := length (outbound_heap s) in
  (set_outboundStreams (assoc_set streamId o (outboundStreams s))
     (set_outbound_heap (outbound_heap s ++ [{| os_init := i; os_stream_id := streamId; os_capability := capability;
                                                os_nextSend := 0; os_closed := false |}]) s),
   [StreamToPlugin n o]).

Definition callback_done (n : nat) (r : reply) (i : InitializeParams) (k : callback) (c : completion jsval)
  : segment := fun s =>
  let session := identity_session i in
  match k with
  | CbSettled result => deliver n r c (fun _ => mret tt) (fun _ => answer n r result) s
  | CbCall id =>
      deliver n r c (fun v => validateResultFor v session id)
        (fun o => answer n r (outcome_json (fromWireOutcome o))) (leave_outbound s)
  | CbEvent id =>
      deliver n r c (fun v => validateEventPublishResultFor v session id)
        (fun o => answer n r (action_json o (fun f => f))) (leave_outbound s)
  | CbStreamOpen id capability =>
      deliver n r c (fun v => validateStreamOpenResultFor v session id)
        (fun o => match o with
                  | OutOpened streamId => open_outbound n i streamId capability
                  | OutDomain e => answer n r (outcome_json (PDomain e))
                  | OutRuntime f => answer n r (runtime_json f)
                  end) (leave_outbound s)
  | CbStreamAction o id send =>
      let stream := outbound_heap s !! o in
      let session := match stream with Some x => identity_session (os_init x) | None => session end in
      let streamId := match stream with Some x => os_stream_id x | None => [] end in
      deliver n r c (fun v => validateStreamActionResultFor v session id streamId)
        (fun outcome => match outcome with
                        | ActionAccepted => fun s => answer n r accepted_json (if send then bump_send o s else s)
                        | ActionRuntime f => fun s => answer n r (runtime_json f) (finish_outbound o s)
                        end) (leave_outbound s)
  | CbStreamReceive o id =>
      let stream := outbound_heap s !! o in
      let session := match stream with Some x => identity_session (os_init x) | None => session end in
      let streamId := match stream with Some x => os_stream_id x | None => [] end in
      deliver n r c (fun v => validateStreamReceiveResultFor v session id streamId)
        (fun outcome s => answer n r (receive_json outcome)
           (match outcome with
            | ReceiveSuccess | ReceiveDomain _ | ReceiveRuntime _ => finish_outbound o s
            | _ => s
            end)) (leave_outbound s)
  | CbStreamCancel => (s, [])
  end.

(** ** Cancellation and stop *)

Definition cancel (n : nat) (r : reply) (p : AuthoringCancelParams) : segment := fun s =>
  match initialize s with
  | None => refused_with n r "Bun Plugin is not initialized" s
  | Some i =>
      match validateCancel p (identity_session i) with
      | Throw e => refused n r e s
      | Ok _ =>
          let target := cx ← assoc (can_correlation_id p) (active s);
                        c ← context_heap s !! cx;
                        if bool_decide (scope_id (cx_scope c) = can_scope_id p) then Some cx else None in
          let ack (accepted : bool) := JObj [(js "session", JStr (can_session p));
            (js "scope_id", JStr (can_scope_id p)); (js "correlation_id", JStr (can_correlation_id p));
            (js "accepted", JBool accepted)] in
          match target with
          | Some cx => answer n r (ack true) (abort cx s)
          | None => answer n r (ack false) s
          end
      end
  end.

Fixpoint cancel_outbounds (os : list nat) (s : state) : state :=
  match os with [] => s | o :: os => cancel_outbounds os (outbound_cancel o s).1 end.

(** The loop over the streams: [stream.binding.cancel(); this.#contexts.delete(stream.context)].
    What it leaves behind, the cancellations it made and what one of them threw. *)
Fixpoint cancel_streams (n : nat) (l : list (jsstr * nat)) (s : state) : state * list output * option thrown :=
  match l with
  | [] => (s, [], None)
  | (id, o) :: l =>
      match cancel_binding n id with
      | Some e => (s, [CancelBinding id], Some e)
      | None =>
          let '(s', out, e) := cancel_streams n l (match stream_heap s !! o with
                                                   | Some stream => delete_context (as_context stream) s
                                                   | None => s
                                                   end) in
          (s', CancelBinding id :: out, e)
      end
  end.

Definition stop_result (p : StopParams) (hook : string) (diagnostics : list jsval) : jsval :=
  JObj [(js "session", JStr (stop_session p)); (js "cleanup_scope_id", JStr (cleanup_scope_id p));
        (js "hook", JStr (js hook)); (js "diagnostics", JArr diagnostics)].

(** The streams of both directions are cancelled. *)
Definition stop_streams (n : nat) (s : state) : state * list output * option thrown :=
  cancel_streams n (streams s) (set_outboundStreams [] (cancel_outbounds (map snd (outboundStreams s)) s)).

Definition stop_hook (n : nat) (r : reply) (p : StopParams) : segment := fun s =>
  match instance s with
  | None => refused_with n r "Bun Plugin stopped before construction" s
  | Some object =>
      if def_has_stop definition then
        let cx := length (context_heap s) in
        await_call n r (AwaitStopHook p cx) (CallStop object cx)
          (new_context (cleanup_scope_id p) (lifecycle_scope (cleanup_scope_id p) (stop_budget p)) s)
      else answer n r (stop_result p "not_declared" []) (set_finishing true s)
  end.

Definition stop (n : nat) (r : reply) (p : StopParams) : segment := fun s =>
  match initialize s with
  | None => refused_with n r "Bun Plugin is not initialized" s
  | Some i =>
      match validateStop p (identity_session i) with
      | Throw e => refused n r e s
      | Ok _ =>
          if stopAttempted s then refused_with n r "Bun Plugin stopped more than once" s
          else
            let s := set_stopAttempted true s in
            if (0 <? Z.of_nat (length (active s))) || (0 <? activeOutboundCalls s) then
              refused_with n r "Bun Plugin stopped with unfinished work" s
            else
              let '(s, out, e) := stop_streams n s in
              let ended := match e with
                           | Some e => refused n r e s
                           | None => stop_hook n r p (set_streams [] s)
                           end in
              (ended.1, out ++ ended.2)
      end
  end.

Definition stop_hook_done (n : nat) (r : reply) (p : StopParams) (cx : nat) (c : completion unit) : segment := fun s =>
  let s := set_finishing true (delete_context cx s) in
  match c with
  | Returned _ => answer n r (stop_result p "completed" []) s
  | Threw e => answer n r (stop_result p "failed" [JObj [
                 (js "code", JStr (js "plugin_stop_failed"));
                 (js "detail", JStr (AuthoringDetail.authoring_boundedError e))]]) s
  end.

(** ** Requests *)

(** [#dispatch(method, params)] *)
Definition dispatch (n : nat) (r : reply) (method : jsstr) (params : jsval) : segment :=
  let named m := bool_decide (method = js m) in
  if named "lenso.initialize"%string then initialize_session n r (as_initialize params)
  else if named "lenso.construct"%string then construct n r (as_construct params)
  else if named "lenso.invoke"%string then invoke n r (as_invoke params)
  else if named "lenso.event.publish"%string then publish_event n r (as_invoke params)
  else if named "lenso.stream.open"%string then open_stream n r (as_invoke params)
  else if named "lenso.stream.send"%string then send_stream n r (as_stream_action params)
  else if named "lenso.stream.receive"%string then receive_stream n r (as_stream_action params)
  else if named "lenso.stream.close_send"%string then close_send_stream n r (as_stream_action params)
  else if named "lenso.stream.cancel"%string then cancel_stream n r (as_stream_action params)
  else if named "lenso.cancel"%string then cancel n r (as_cancel params)
  else if named "lenso.stop"%string then stop n r (as_stop params)
  else refused n r (ErrorObject (js "unknown Bun Authoring method " ++ method)).

(** [#fetch(request)] up to the body. *)
Definition fetch_open (n : nat) (method : jsstr) : segment := fun s =>
  if negb (bool_decide (method = js "POST")) then (s, [Answered n {| status := 405; body := None |}])
  else
    let limit := match initialize s with Some i => max_frame_bytes (limits i) | None => 1048576 end in
    suspend n (RpcReply JNull limit) (AwaitBody limit) s.

(** The rest of [#fetch], once the body has arrived. *)
Definition fetch_body (n : nat) (limit : Z) (bytes : list N) : segment := fun s =>
  let invalid id := refused_with n (RpcReply id limit) "invalid JSON-RPC request" s in
  if limit <? Z.of_nat (length bytes) then (s, [Answered n {| status := 413; body := None |}])
  else match json_parse (decode bytes) with
  | None | Some JNull => refused n (RpcReply JNull limit) (ErrorObject platform_error) s
  | Some (JObj fs) =>
      let id := field fs "id" in
      match is_str (field fs "jsonrpc") "2.0", bool_decide (id = JUndef), field fs "method" with
      | true, false, JStr method =>
          let params := match field fs "params" with JArr [p] => p | p => p end in
          dispatch n (RpcReply id limit) method params s
      | _, _, _ => invalid id
      end
  | Some _ => invalid JUndef
  end.

(** ** Steps *)

(** What resumes a suspended call. *)
Inductive resumption :=
| BodyRead (bytes : list N)
| BodyRejected
| ProofComputed (random : list N)
| Created (c : completion jsval)
| Invoked (c : completion ProviderDispatchOutcome)
| Published (c : completion ProviderActionOutcome)
| Opened (c : completion ProviderStreamOpenOutcome)
| Sent (c : completion ProviderActionOutcome)
| Received (c : completion ProviderStreamReceiveOutcome)
| CloseSent (c : completion ProviderActionOutcome)
| StopHookDone (c : completion unit)
| CallbackDone (c : callback_response).

Inductive event :=
| Request (method : jsstr)
| Resume (n : nat) (x : resumption)
| HostCall (k : outbound_kind) (cx : nat) (route : RouteDescriptor) (operation : jsstr) (payload : jsval)
    (elapsed : Z)
| OutboundAction (o : nat) (message : option jsval)
| OutboundReceive (o : nat)
| OutboundCancel (o : nat)
| StopTimer.

(** The next segment of a suspended call, if the resumption fits it. *)
Definition resume_at (n : nat) (r : reply) (at_ : suspended) (x : resumption) : option segment :=
  match at_, x with
  | AwaitBody limit, BodyRead bytes => Some (fetch_body n limit bytes)
  | AwaitBody _, BodyRejected => Some (fun s => (s, [FetchRejected n]))
  | AwaitVerify request digest, ProofComputed random => Some (initialize_verified n r request digest random)
  | AwaitChildProof request digest nonce, ProofComputed _ =>
      Some (answer n r (initialize_answer request digest nonce))
  | AwaitCreate i p cx, Created c => Some (finish_construct n r i p cx c)
  | AwaitInvoke p cx, Invoked c => Some (invoked n r p cx c)
  | AwaitPublish p cx, Published c => Some (published n r p cx c)
  | AwaitOpen p cx, Opened c => Some (opened n r p cx c)
  | AwaitSend p o, Sent c => Some (sent n r p o c)
  | AwaitReceive p o, Received c => Some (received n r p o c)
  | AwaitCloseSend p, CloseSent c => Some (close_sent n r p c)
  | AwaitStopHook p cx, StopHookDone c => Some (stop_hook_done n r p cx c)
  | AwaitProof i k method params, ProofComputed _ => Some (post_callback n r i k method params)
  | AwaitFetch i k, CallbackDone c => Some (callback_done n r i k (callback_completion c))
  | _, _ => None
  end.

Fixpoint find_fiber (n : nat) (l : list (nat * fiber)) : option fiber :=
  match l with
  | [] => None
  | (m, f) :: l => if (m =? n)%nat then Some f else find_fiber n l
  end.

Definition remove_fiber (n : nat) (s : state) : state := set_fibers (filter (fun e => e.1 ≠ n) (fibers s)) s.

(** A new call gets the next number. *)
Definition spawn (k : nat → segment) : segment := fun s => k (nextFiber s) (set_nextFiber (S (nextFiber s)) s).

Definition step (s : state) (e : event) : option (state * list output) :=
  match e with
  | Request method => if stopped s then None else Some (spawn (fun n => fetch_open n method) s)
  | Resume n x =>
      match find_fiber n (fibers s) with
      | Some f => (fun seg => seg (remove_fiber n s)) <$> resume_at n (fb_reply f) (fb_at f) x
      | None => None
      end
  | HostCall k cx route operation payload elapsed =>
      Some (spawn (fun n => boundClient n k cx route operation payload elapsed) s)
  | OutboundAction o message =>
      if (o <? length (outbound_heap s))%nat then Some (spawn (fun n => outbound_action n o message) s) else None
  | OutboundReceive o =>
      if (o <? length (outbound_heap s))%nat then Some (spawn (fun n => outbound_receive n o) s) else None
  | OutboundCancel o =>
      if (o <? length (outbound_heap s))%nat then Some (spawn (fun _ => outbound_cancel o) s) else None
  | StopTimer => if finishing s && negb (stopped s) then Some (set_stopped true s, []) else None
  end.

Fixpoint run (s : state) (es : list event) : option (state * list output) :=
  match es with
  | [] => Some (s, [])
  | e :: es =>
      match step s e with
      | Some (s', out) => match run s' es with
                          | Some (s'', out') => Some (s'', out ++ out')
                          | None => None
                          end
      | None => None
      end
  end.
End server.
