(* ===== verification/V2Invariant.v ===== *)
(** * How the segments of the Authoring V2 server change its state

    The counters against the suspended calls they count, the calls a segment leaves
    suspended, the initialization each call has captured and the identifiers in use:
    one lemma per group of handlers, proved by splitting on their conditions. *)

From Stdlib Require Import ZArith.
From S2P Require Import Prelude JsValue Text Json Authoring V2.

Local Open Scope Z_scope.

(** ** Weights of suspended calls *)

(** A callback that occupies one of the outbound call slots. *)
Definition occupies (k : callback) : bool :=
  match k with CbSettled _ | CbStreamCancel => false | _ => true end.

Definition outbound_weight (f : fiber) : Z :=
  match fb_at f with
  | AwaitProof _ k _ _ | AwaitFetch _ k => if occupies k then 1 else 0
  | _ => 0
  end.

Definition publish_weight (f : fiber) : Z := match fb_at f with AwaitPublish _ _ => 1 | _ => 0 end.

(** A stream being opened, by the Host or by the Plugin. *)
Definition opening_weight (f : fiber) : Z := match fb_at f with AwaitOpen _ _ => 1 | _ => 0 end.

Definition outbound_opening_weight (f : fiber) : Z :=
  match fb_at f with
  | AwaitProof _ (CbStreamOpen _ _) _ _ | AwaitFetch _ (CbStreamOpen _ _) => 1
  | _ => 0
  end.

Fixpoint total (w : fiber → Z) (l : list (nat * fiber)) : Z :=
  match l with [] => 0 | (_, f) :: l => w f + total w l end.

Lemma total_app w l1 l2 : total w (l1 ++ l2) = total w l1 + total w l2.
Proof. induction l1 as [|[n f] l1 IH]; cbn; [done|]. rewrite IH. lia. Qed.

Lemma total_nonneg w l : (∀ f, 0 <= w f) → 0 <= total w l.
Proof. intros Hw. induction l as [|[n f] l IH]; cbn; [lia|]. specialize (Hw f). lia. Qed.

Lemma find_fiber_in n l f : find_fiber n l = Some f → (n, f) ∈ l.
Proof.
  induction l as [|[m g] l IH]; cbn; [done|]. destruct (Nat.eqb_spec m n) as [->|].
  - intros [= ->]. by left.
  - intros ?. right. auto.
Qed.

(** Removing the fiber that is resumed. *)
Lemma fiber_split n f (l : list (nat * fiber)) :
  NoDup (map fst l) → find_fiber n l = Some f →
  ∃ l1 l2, l = l1 ++ (n, f) :: l2 ∧ filter (fun e => e.1 ≠ n) l = l1 ++ l2 ∧ n ∉ map fst (l1 ++ l2).
Proof.
  assert (∀ l : list (nat * fiber), n ∉ map fst l → filter (fun e => e.1 ≠ n) l = l) as Habs.
  { intros k. induction k as [|[m g] k IH]; [done|]. intros Hn. apply not_elem_of_cons in Hn as [? ?].
    rewrite filter_cons_True by (cbn in *; congruence). f_equal. by apply IH. }
  induction l as [|[m g] l IH]; cbn [map find_fiber]; [done|]. intros [Hm Hnd]%NoDup_cons.
  destruct (Nat.eqb_spec m n) as [->|Hne].
  - intros [= ->]. exists [], l. rewrite filter_cons_False by (cbn; tauto). by rewrite Habs.
  - intros Hf. destruct (IH Hnd Hf) as (l1 & l2 & -> & E & Hn). exists ((m, g) :: l1), l2.
    rewrite filter_cons_True by done. rewrite E. split_and!; [done|done|]. cbn.
    intros [?|?]%elem_of_cons; congruence.
Qed.

Lemma total_remove w n f l :
  NoDup (map fst l) → find_fiber n l = Some f → total w (filter (fun e => e.1 ≠ n) l) = total w l - w f.
Proof.
  intros Hnd Hf. destruct (fiber_split n f l Hnd Hf) as (l1 & l2 & -> & -> & _).
  rewrite !total_app. cbn. lia.
Qed.

(** ** Segments *)

(** Unfolds the definitions of the segments and splits on every condition. *)
Ltac seg_unfold :=
  unfold fetch_open, initialize_session, initialize_verified, construct, finish_construct,
    invoke, invoked, complete_invocation, publish_event, published, open_stream, opened, complete_open,
    send_stream, sent, receive_stream, received, close_send_stream, close_sent, cancel_stream, stream_action,
    no_stream, cancel, stop_hook_done, boundClient, outbound, outbound_action, outbound_receive,
    post_callback, callback_done, deliver, open_outbound, settled, callback_from, refused_with, refused, answer,
    suspend, await_call, enter_active, drop_stream, finish_outbound, outbound_full, spawn in *.

Ltac seg_cases := repeat (case_match; cbn in *; simplify_eq; try done).

Section correct.
Context `{AuthoringProtocol, PluginCode}.
Variable definition : PluginDefinition.
Variable runtimeProfile : jsstr.
Variable bootstrap : Bootstrap.
Variable secret : list N.

Abbreviation step := (step definition runtimeProfile bootstrap secret).
Abbreviation run := (run definition runtimeProfile bootstrap secret).

(** The identifier a response to these bytes carries: that of the request, or [null] when
    the bytes are not a JSON value with properties. *)
Definition request_id (bytes : list N) : jsval :=
  match json_parse (decode bytes) with
  | None | Some JNull => JNull
  | Some (JObj fs) => field fs "id"
  | Some _ => JUndef
  end.

(** What a request does: it is too large, it is refused, or one handler runs. *)
Lemma request_cases (P : state * list output → Prop) n limit bytes s :
  let r := RpcReply (request_id bytes) limit in
  (limit < Z.of_nat (length bytes) → P (s, [Answered n {| status := 413; body := None |}])) →
  (Z.of_nat (length bytes) <= limit →
     (∀ e, P (refused n r e s)) ∧
     ∀ v, P (initialize_session bootstrap n r (as_initialize v) s) ∧ P (construct definition n r (as_construct v) s) ∧
       P (invoke n r (as_invoke v) s) ∧ P (publish_event n r (as_invoke v) s) ∧ P (open_stream n r (as_invoke v) s) ∧
       P (send_stream n r (as_stream_action v) s) ∧ P (receive_stream n r (as_stream_action v) s) ∧
       P (close_send_stream n r (as_stream_action v) s) ∧ P (cancel_stream n r (as_stream_action v) s) ∧
       P (cancel n r (as_cancel v) s) ∧ P (stop definition n r (as_stop v) s)) →
  P (fetch_body definition bootstrap n limit bytes s).
Proof.
  intros r Hbig Hfit. unfold fetch_body. destruct (Z.ltb_spec limit (Z.of_nat (length bytes))) as [Hl|Hl]; [by apply Hbig|].
  destruct (Hfit Hl) as [Hr Hh]. clear Hbig Hfit. unfold refused_with, request_id in *.
  destruct (json_parse _) as [[]|]; try apply Hr.
  destruct (is_str _ _); [|apply Hr]. destruct (bool_decide (field _ "id" = JUndef)); [apply Hr|].
  destruct (field _ "method"); try apply Hr. unfold dispatch.
  do 11 (destruct (bool_decide _); [apply Hh|]). apply Hr.
Qed.

(** ** Limits

    Two handshakes may be verified at the same time, and the second then replaces the
    initialization of the first.  So the bounds are stated for limits that are at least those
    of every initialization accepted so far. *)

Variable most : Limits.

Record within (l m : Limits) : Prop := {
  w_retired : max_retired_ids l <= max_retired_ids m;
  w_active : max_active_invocations l <= max_active_invocations m;
  w_queued : max_queued_calls l <= max_queued_calls m;
  w_unfinished : max_unfinished_executions l <= max_unfinished_executions m;
  w_outbound : max_active_outbound_calls l <= max_active_outbound_calls m }.

(** The initialization, and those the outbound streams were opened under, stay within [most]. *)
Definition accepted_within (s : state) : Prop :=
  (∀ i, initialize s = Some i → within (limits i) most) ∧
  (∀ o stream, outbound_heap s !! o = Some stream →
     is_Some (initialize s) ∧ within (limits (os_init stream)) most).

Lemma aw_current s : accepted_within s → ∀ i, initialize s = Some i → within (limits i) most.
Proof. by intros [? _]. Qed.

Lemma aw_streams s :
  accepted_within s → ∀ o stream, outbound_heap s !! o = Some stream →
  is_Some (initialize s) ∧ within (limits (os_init stream)) most.
Proof. by intros [_ ?]. Qed.

(** How far the counter of outbound calls is ahead of the suspended ones. *)
Definition ahead (s : state) : Z := activeOutboundCalls s - total outbound_weight (fibers s).

(** The loops of [stop] only add notifications of cancelled streams. *)
Record notified (s s' : state) : Prop := {
  nt_calls : activeOutboundCalls s' = activeOutboundCalls s;
  nt_pubs : activeEventPublications s' = activeEventPublications s;
  nt_ids : active s' = active s ∧ retired s' = retired s;
  nt_init : initialize s' = initialize s;
  nt_callbacks : nextCallbackId s' = nextCallbackId s;
  nt_fibers : ∃ new, fibers s' = fibers s ++ new ∧
    (∀ n f, (n, f) ∈ new → ∃ i m p, f = {| fb_reply := PluginReply; fb_at := AwaitProof i CbStreamCancel m p |} ∧
                             initialize s = Some i) ∧
    map fst new = seq (nextFiber s) (nextFiber s' - nextFiber s) ∧ (nextFiber s <= nextFiber s')%nat;
  nt_heap : ∀ o x, outbound_heap s' !! o = Some x → ∃ y, outbound_heap s !! o = Some y ∧ os_init x = os_init y }.

Lemma notified_refl s : notified s s.
Proof.
  constructor; try done; [|by eauto]. exists []. rewrite app_nil_r, Nat.sub_diag. split_and!; try done.
  by intros ? ? ?%elem_of_nil.
Qed.

Lemma notified_trans s1 s2 s3 : notified s1 s2 → notified s2 s3 → notified s1 s3.
Proof.
  intros [A1 A2 [A3 A3'] A4 A5 (n1 & A6 & A7 & A8 & A9) A10] [B1 B2 [B3 B3'] B4 B5 (n2 & B6 & B7 & B8 & B9) B10].
  constructor; try congruence; [split; congruence| |].
  - exists (n1 ++ n2). rewrite B6, A6, app_assoc. split; [done|]. split.
    + intros n f [Hin|Hin]%elem_of_app; [by apply (A7 n)|]. destruct (B7 n f Hin) as (i & m & p & ? & ?).
      exists i, m, p. split; [done|congruence].
    + rewrite map_app, A8, B8. split; [|lia].
      replace (nextFiber s3 - nextFiber s1)%nat
        with ((nextFiber s2 - nextFiber s1) + (nextFiber s3 - nextFiber s2))%nat by lia.
      rewrite seq_app. do 2 f_equal. lia.
  - intros o x Hx. destruct (B10 o x Hx) as (y & Hy & ?). destruct (A10 o y Hy) as (z & ? & ?).
    exists z. split; [done|congruence].
Qed.

Lemma finish_outbound_heap o s o' x :
  outbound_heap (finish_outbound o s) !! o' = Some x →
  ∃ y, outbound_heap s !! o' = Some y ∧ os_init x = os_init y.
Proof.
  unfold finish_outbound. destruct (outbound_heap s !! o) as [stream|] eqn:Ho; [|by eauto]. cbn.
  destruct (decide (o = o')) as [<-|Hne].
  - rewrite list_lookup_insert_eq by (by eapply lookup_lt_Some). intros [= <-]. by exists stream.
  - rewrite list_lookup_insert_ne by done. eauto.
Qed.

Lemma finish_outbound_same o s :
  initialize (finish_outbound o s) = initialize s ∧ fibers (finish_outbound o s) = fibers s ∧
  nextFiber (finish_outbound o s) = nextFiber s.
Proof. unfold finish_outbound. by case_match. Qed.

Lemma outbound_cancel_notified o s : accepted_within s → notified s (outbound_cancel o s).1.
Proof.
  intros Hh. unfold outbound_cancel. destruct (outbound_heap s !! o) as [stream|] eqn:Ho; [|apply notified_refl].
  destruct (os_closed stream); [apply notified_refl|]. unfold callback_from.
  destruct (aw_streams _ Hh o stream Ho) as [[i Hi] _]. destruct (finish_outbound_same o s) as (E1 & E2 & E3).
  cbn. rewrite E1, Hi. cbn. constructor; cbn; try (unfold finish_outbound; rewrite Ho; done).
  - eexists. rewrite E2, E3. split; [reflexivity|]. split_and!.
    + intros n f [= -> ->]%list_elem_of_singleton. do 3 eexists. by split.
    + by replace (S (nextFiber s) - nextFiber s)%nat with 1%nat by lia.
    + lia.
  - apply finish_outbound_heap.
Qed.

Lemma notified_within s s' : notified s s' → accepted_within s → accepted_within s'.
Proof.
  intros Hn [H1 H2]. unfold accepted_within. split; rewrite (nt_init _ _ Hn); [done|].
  intros o x Hx. destruct (nt_heap _ _ Hn o x Hx) as (y & Hy & ->). by apply (H2 o).
Qed.

Lemma cancel_outbounds_notified os s : accepted_within s → notified s (cancel_outbounds os s).
Proof.
  revert s; induction os as [|o os IH]; intros s Hh; cbn; [apply notified_refl|].
  pose proof (outbound_cancel_notified o s Hh) as Hn. eapply notified_trans; [done|].
  apply IH. by eapply notified_within.
Qed.

Lemma cancel_streams_notified n l s : notified s (cancel_streams n l s).1.1.
Proof.
  revert s; induction l as [|[id o] l IH]; intros s; cbn; [apply notified_refl|].
  destruct (cancel_binding n id); [apply notified_refl|].
  set (t := match stream_heap s !! o with Some stream => _ | None => s end). specialize (IH t).
  destruct (cancel_streams n l t) as [[s' out] e]. eapply notified_trans; [|exact IH]. unfold t.
  destruct (stream_heap s !! o); [|apply notified_refl]. destruct (notified_refl s). by constructor.
Qed.

(** What [stop] says on its way are the cancellations. *)
Lemma cancel_streams_says n l s : ∃ ids, (cancel_streams n l s).1.2 = map CancelBinding ids.
Proof.
  revert s; induction l as [|[id o] l IH]; intros s; cbn; [by exists []|].
  destruct (cancel_binding n id); [by exists [id]|].
  set (t := match stream_heap s !! o with Some stream => _ | None => s end). specialize (IH t).
  destruct (cancel_streams n l t) as [[s' out] e]. cbn in IH |- *. destruct IH as [ids ->]. by exists (id :: ids).
Qed.

(** ** The counters *)

Definition publications_ahead (s : state) : Z := activeEventPublications s - total publish_weight (fibers s).

(** What a segment does to the two counters: it keeps their distance to the suspended
    calls, up to the weight of the call it resumed, and exceeds no limit by itself. *)
Definition counted (calls pubs : Z) (s s' : state) : Prop :=
  ahead s' = ahead s - calls ∧ publications_ahead s' = publications_ahead s - pubs ∧
  activeOutboundCalls s' <= Z.max (activeOutboundCalls s) (max_active_outbound_calls most) ∧
  activeEventPublications s' <= Z.max (activeEventPublications s) (max_queued_calls most).

(** The limits of the initialization of [s] are at most [most]. *)
Ltac use_limits Hh :=
  match goal with
  | E : initialize ?s = Some ?i |- _ =>
      lazymatch goal with
      | _ : max_retired_ids (limits i) <= max_retired_ids most |- _ => fail
      | _ => destruct (aw_current _ Hh i E)
      end
  end.

Ltac by_cases Hh :=
  seg_unfold; unfold counted, ahead, publications_ahead;
  repeat (case_match; cbn in *; simplify_eq; try done);
  try use_limits Hh;
  cbn in *; rewrite ?total_app; unfold outbound_weight, publish_weight; cbn;
  repeat case_match; cbn in *; split_and?; lia.

Lemma handlers_counted n r p q c sa k s :
  accepted_within s →
  counted 0 0 s (initialize_session bootstrap n r q s).1 ∧ counted 0 0 s (construct definition n r c s).1 ∧
  counted 0 0 s (invoke n r p s).1 ∧ counted 0 0 s (publish_event n r p s).1 ∧
  counted 0 0 s (open_stream n r p s).1 ∧
  counted 0 0 s (send_stream n r sa s).1 ∧ counted 0 0 s (receive_stream n r sa s).1 ∧
  counted 0 0 s (close_send_stream n r sa s).1 ∧ counted 0 0 s (cancel_stream n r sa s).1 ∧
  counted 0 0 s (cancel n r k s).1.
Proof. intros Hh. split_and!; by_cases Hh. Qed.

Lemma refused_counted n r e s : counted 0 0 s (refused n r e s).1.
Proof. unfold counted. cbn. lia. Qed.

Lemma notified_counted s s' : notified s s' → counted 0 0 s s'.
Proof.
  intros [H1 H2 _ _ _ (new & H3 & H4 & _) _]. unfold counted, ahead, publications_ahead.
  rewrite H1, H2, H3, !total_app.
  assert (total outbound_weight new = 0 ∧ total publish_weight new = 0) as [-> ->]; [|lia].
  clear H3. induction new as [|[n f] new IH]; [done|]. cbn.
  destruct (H4 n f) as (i & m & p & -> & _); [by left|].
  destruct IH as [-> ->]; [intros; eapply H4; by right|done].
Qed.

Lemma counted_trans s1 s2 s3 : counted 0 0 s1 s2 → counted 0 0 s2 s3 → counted 0 0 s1 s3.
Proof. unfold counted. lia. Qed.

Lemma stop_hook_counted n r p s : counted 0 0 s (stop_hook definition n r p s).1.
Proof. unfold stop_hook. by_cases idtac. Qed.

Lemma notified_set_streams v s s' : notified s s' → notified s (set_streams v s').
Proof. by intros []; constructor. Qed.
Lemma notified_set_outboundStreams v s s' : notified s s' → notified s (set_outboundStreams v s').
Proof. by intros []; constructor. Qed.
Lemma notified_set_stopAttempted v s s' : notified s s' → notified s (set_stopAttempted v s').
Proof. by intros []; constructor. Qed.

Lemma stop_streams_notified n s :
  accepted_within s → notified s (stop_streams n (set_stopAttempted true s)).1.1.
Proof.
  intros Hh. unfold stop_streams. eapply notified_trans; [|apply cancel_streams_notified].
  apply notified_set_outboundStreams.
  apply (notified_trans _ (set_stopAttempted true s)); [apply notified_set_stopAttempted, notified_refl|].
  apply cancel_outbounds_notified. by destruct Hh.
Qed.

(** What a stop does: it is refused, or the streams are cancelled first, and then it is
    refused or goes on to the hook. *)
Lemma stop_cases (P : state * list output → Prop) n r p s :
  (∀ e, P (refused n r e s)) →
  (∀ e, initialize s ≠ None → stopAttempted s = false → P (refused n r e (set_stopAttempted true s))) →
  (∀ t ids e, initialize s ≠ None → stopAttempted s = false →
     (stop_streams n (set_stopAttempted true s)).1.1 = t →
     P ((refused n r e t).1, map CancelBinding ids ++ (refused n r e t).2)) →
  (∀ t ids, initialize s ≠ None → stopAttempted s = false →
     (stop_streams n (set_stopAttempted true s)).1.1 = t →
     P ((stop_hook definition n r p (set_streams [] t)).1,
        map CancelBinding ids ++ (stop_hook definition n r p (set_streams [] t)).2)) →
  P (stop definition n r p s).
Proof.
  intros H1 H2 H3 H4. unfold stop. destruct (initialize s) as [i|] eqn:Hi; [|apply H1].
  destruct (validateStop p _); [|apply H1]. destruct (stopAttempted s) eqn:Hs; [apply H1|]. cbn zeta.
  destruct (_ || _); [by apply H2|].
  destruct (cancel_streams_says n (streams (set_stopAttempted true s))
    (set_outboundStreams [] (cancel_outbounds (map snd (outboundStreams (set_stopAttempted true s)))
       (set_stopAttempted true s)))) as [ids E].
  fold (stop_streams n (set_stopAttempted true s)) in E.
  destruct (stop_streams n (set_stopAttempted true s)) as [[t out] [e|]] eqn:Es; cbn in E; subst out.
  - by apply H3.
  - by apply H4.
Qed.

Lemma stop_counted n r p s : accepted_within s → counted 0 0 s (stop definition n r p s).1.
Proof.
  intros Hh. pose proof (notified_counted _ _ (stop_streams_notified n s Hh)) as Hn.
  apply (stop_cases (fun x => counted 0 0 s x.1)); cbn [fst].
  - intros e. apply refused_counted.
  - intros e _ _. unfold counted. cbn. unfold ahead, publications_ahead. cbn. lia.
  - intros t ids e _ _ <-. done.
  - intros t ids _ _ <-. eapply counted_trans; [exact Hn|apply (stop_hook_counted n r p (set_streams [] _))].
Qed.

Lemma fetch_body_counted n limit bytes s :
  accepted_within s → counted 0 0 s (fetch_body definition bootstrap n limit bytes s).1.
Proof.
  intros Hh. apply (request_cases (fun x => counted 0 0 s x.1)); [unfold counted; cbn; lia|]. intros _.
  split; [intros; apply refused_counted|]. intros v.
  destruct (handlers_counted n (RpcReply (request_id bytes) limit) (as_invoke v) (as_initialize v) (as_construct v)
    (as_stream_action v) (as_cancel v) s Hh) as (? & ? & ? & ? & ? & ? & ? & ? & ? & ?).
  split_and!; auto using stop_counted.
Qed.

Lemma resume_counted n r at_ x seg s :
  accepted_within s → resume_at definition runtimeProfile bootstrap secret n r at_ x = Some seg →
  counted (outbound_weight {| fb_reply := r; fb_at := at_ |}) (publish_weight {| fb_reply := r; fb_at := at_ |})
    s (seg s).1.
Proof.
  intros Hh. destruct at_, x; try done; cbn [resume_at]; intros [= <-]; unfold outbound_weight, publish_weight; cbn [fb_at].
  { by apply fetch_body_counted. }
  all: by_cases Hh.
Qed.

(** ** Suspended calls *)

(** The initialization a suspended call has captured. *)
Definition captured (f : fiber) : option InitializeParams :=
  match fb_at f with
  | AwaitCreate i _ _ | AwaitProof i _ _ _ | AwaitFetch i _ => Some i
  | _ => None
  end.

(** A handshake waiting for its proof was checked against the private bootstrap and
    carries the digest of its own payload. *)
Definition verifies (f : fiber) : Prop :=
  match fb_at f with
  | AwaitVerify q digest =>
      ir_callback_origin q = callback_origin bootstrap ∧
      ∃ payload, authoringHandshakeProofPayload q = Ok payload ∧ digest = sha256 payload
  | _ => True
  end.

Definition captures (s : state) (f : fiber) : Prop :=
  ∀ i, captured f = Some i → is_Some (initialize s) ∧ within (limits i) most.

Lemma captures_current s f i : accepted_within s → captured f = Some i → initialize s = Some i → captures s f.
Proof. intros Hh Hc Hi j Hj. simplify_eq. split; [by eexists|by apply (aw_current _ Hh)]. Qed.

(** A segment of call [n] leaves at most that call and freshly numbered ones. *)
Definition extends (n : nat) (s s' : state) : Prop :=
  ∃ new, fibers s' = fibers s ++ new ∧ (nextFiber s <= nextFiber s')%nat ∧ NoDup (map fst new) ∧
    ∀ m f, (m, f) ∈ new → (m = n ∨ (nextFiber s <= m < nextFiber s')%nat) ∧
                          captures s f ∧ verifies f.

Lemma extends_none n s s' : fibers s' = fibers s → nextFiber s' = nextFiber s → extends n s s'.
Proof.
  intros E1 E2. exists []. rewrite app_nil_r, E2. split_and!; [done|done|apply NoDup_nil_2|]. by intros ? ? ?%elem_of_nil.
Qed.

Lemma extends_one n s s' f :
  fibers s' = fibers s ++ [(n, f)] → nextFiber s' = nextFiber s →
  captures s f → verifies f → extends n s s'.
Proof.
  intros E1 E2 Hc Hv. exists [(n, f)]. rewrite E2. split_and!; [done|done|apply NoDup_singleton|].
  intros m g [= -> ->]%list_elem_of_singleton. auto.
Qed.

Ltac by_captures Hh :=
  first [intros ? ?; discriminate
        |eapply captures_current; [exact Hh|reflexivity|cbn; congruence]
        |intros ? ?; cbn in *; simplify_eq; auto].

Ltac by_extends Hh :=
  seg_unfold; repeat (case_match; cbn in *; simplify_eq; try done);
  first [apply extends_none; done
        |eapply extends_one; [reflexivity|reflexivity|by_captures Hh|];
           first [exact I|cbn; split; [|by eexists];
              match goal with E : negb (bool_decide _) = false |- _ =>
                apply negb_false_iff, bool_decide_eq_true in E; exact E end]].

Lemma handlers_extend n r p q c sa k s :
  accepted_within s →
  extends n s (initialize_session bootstrap n r q s).1 ∧ extends n s (construct definition n r c s).1 ∧
  extends n s (invoke n r p s).1 ∧ extends n s (publish_event n r p s).1 ∧ extends n s (open_stream n r p s).1 ∧
  extends n s (send_stream n r sa s).1 ∧ extends n s (receive_stream n r sa s).1 ∧
  extends n s (close_send_stream n r sa s).1 ∧ extends n s (cancel_stream n r sa s).1 ∧
  extends n s (cancel n r k s).1.
Proof. intros Hh. split_and!; by_extends Hh. Qed.

Lemma notified_extends n s s' : accepted_within s → notified s s' → extends n s s'.
Proof.
  intros Hh [_ _ _ _ _ (new & E & Hnew & Hseq & Hle) _]. exists new. split_and!; [done|done| |].
  - rewrite Hseq. apply NoDup_seq.
  - intros m f Hin. split.
    + right. assert (m ∈ map fst new) as Hm by (apply list_elem_of_fmap; by exists (m, f)).
      rewrite Hseq in Hm. apply elem_of_seq in Hm. lia.
    + destruct (Hnew m f Hin) as (i & m' & p & -> & Hi). split; [|done]. by eapply captures_current.
Qed.

Lemma extends_trans n s1 s2 s3 :
  (n < nextFiber s1)%nat → accepted_within s1 → notified s1 s2 → extends n s2 s3 → extends n s1 s3.
Proof.
  intros Hn Hh H12 (n2 & E2 & L2 & ND2 & P2). pose proof (nt_init _ _ H12) as Hi.
  destruct (notified_extends n s1 s2 Hh H12) as (n1 & E1 & L1 & ND1 & P1).
  destruct (nt_fibers _ _ H12) as (n1' & E1' & _ & Hseq & _).
  assert (n1' = n1) as -> by (apply (app_inv_head (fibers s1)); congruence).
  exists (n1 ++ n2). rewrite E2, E1, app_assoc. split_and!; [done|lia| |].
  - rewrite map_app. apply NoDup_app. split_and!; [done| |done].
    intros m Hm1 ([m' f] & -> & Hm2)%list_elem_of_fmap. cbn in *. rewrite Hseq in Hm1. apply elem_of_seq in Hm1.
    destruct (P2 m' f Hm2) as [[?|?] _]; lia.
  - intros m f [Hin|Hin]%elem_of_app.
    + destruct (P1 m f Hin) as [Hm Hcap]. split; [|done]. destruct Hm; [by left|right; lia].
    + destruct (P2 m f Hin) as [Hm [Hcap Hv]]. split; [destruct Hm; [by left|right; lia]|].
      split; [|done]. intros i Hc. rewrite <- Hi. by apply Hcap.
Qed.

Lemma stop_extends n r p s :
  accepted_within s → (n < nextFiber s)%nat → extends n s (stop definition n r p s).1.
Proof.
  intros Hh Hn. pose proof (stop_streams_notified n s Hh) as Hnt.
  apply (stop_cases (fun x => extends n s x.1)); cbn [fst].
  - intros e. by apply extends_none.
  - intros e _ _. by apply extends_none.
  - intros t ids e _ _ <-. by apply notified_extends.
  - intros t ids _ _ <-. apply (notified_set_streams []) in Hnt. eapply extends_trans; [done|done|exact Hnt|].
    unfold stop_hook. by_extends Hh.
Qed.

Lemma fetch_body_extends n limit bytes s :
  accepted_within s → (n < nextFiber s)%nat → extends n s (fetch_body definition bootstrap n limit bytes s).1.
Proof.
  intros Hh Hn. assert (extends n s s) as Hrefl by (by apply extends_none).
  apply (request_cases (fun x => extends n s x.1)); [done|]. intros _. split; [done|]. intros v.
  destruct (handlers_extend n (RpcReply (request_id bytes) limit) (as_invoke v) (as_initialize v) (as_construct v)
    (as_stream_action v) (as_cancel v) s Hh) as (? & ? & ? & ? & ? & ? & ? & ? & ? & ?).
  split_and!; auto using stop_extends.
Qed.

Lemma resume_extends n r at_ x seg s :
  accepted_within s → (n < nextFiber s)%nat → captures s {| fb_reply := r; fb_at := at_ |} →
  resume_at definition runtimeProfile bootstrap secret n r at_ x = Some seg → extends n s (seg s).1.
Proof.
  intros Hh Hn Hc. destruct at_, x; try done; cbn [resume_at]; intros [= <-]; unfold captures in Hc; cbn in Hc.
  { by apply fetch_body_extends. }
  all: by_extends Hh.
Qed.

(** ** Captured initializations *)

Lemma stop_frame_init n r p s : accepted_within s → initialize (stop definition n r p s).1 = initialize s.
Proof.
  intros Hh. pose proof (nt_init _ _ (stop_streams_notified n s Hh)) as Hn.
  apply (stop_cases (fun x => initialize x.1 = initialize s)); cbn [fst]; try done.
  - intros t ids e _ _ <-. done.
  - intros t ids _ _ <-. unfold stop_hook. seg_unfold. by repeat case_match.
Qed.

(** Every outbound stream comes from the old heap, or was opened under an accepted
    initialization. *)
Definition heap_from (s s' : state) : Prop :=
  ∀ o x, outbound_heap s' !! o = Some x →
    (∃ y, outbound_heap s !! o = Some y ∧ os_init x = os_init y) ∨
    is_Some (initialize s) ∧ within (limits (os_init x)) most.

Lemma heap_from_same s s' : outbound_heap s' = outbound_heap s → heap_from s s'.
Proof. intros E o x. rewrite E. eauto. Qed.

Lemma heap_from_finish o s t : outbound_heap t = outbound_heap s → heap_from s (finish_outbound o t).
Proof. intros E o' x Hx%finish_outbound_heap. rewrite E in Hx. by left. Qed.

Lemma stop_heap n r p s : accepted_within s → heap_from s (stop definition n r p s).1.
Proof.
  intros Hh. pose proof (nt_heap _ _ (stop_streams_notified n s Hh)) as Hn.
  apply (stop_cases (fun x => heap_from s x.1)); cbn [fst].
  - intros e. by apply heap_from_same.
  - intros e _ _. by apply heap_from_same.
  - intros t ids e _ _ <- o x Hx. left. by apply Hn.
  - intros t ids _ _ <- o x Hx. left. apply Hn. revert Hx. unfold stop_hook. seg_unfold. by repeat case_match.
Qed.

Definition frame (s s' : state) : Prop := initialize s' = initialize s ∧ outbound_heap s' = outbound_heap s.

Ltac by_frame := seg_unfold; repeat (case_match; cbn in *; simplify_eq; try done); split; cbn; congruence.

Lemma handlers_frame n r p q c sa k s :
  frame s (initialize_session bootstrap n r q s).1 ∧ frame s (construct definition n r c s).1 ∧
  frame s (invoke n r p s).1 ∧ frame s (publish_event n r p s).1 ∧ frame s (open_stream n r p s).1 ∧
  frame s (send_stream n r sa s).1 ∧ frame s (receive_stream n r sa s).1 ∧
  frame s (close_send_stream n r sa s).1 ∧ frame s (cancel_stream n r sa s).1 ∧ frame s (cancel n r k s).1.
Proof. split_and!; by_frame. Qed.

Lemma fetch_body_frame n limit bytes s :
  accepted_within s →
  initialize (fetch_body definition bootstrap n limit bytes s).1 = initialize s ∧
  heap_from s (fetch_body definition bootstrap n limit bytes s).1.
Proof.
  intros Hh. assert (∀ s', frame s s' → initialize s' = initialize s ∧ heap_from s s') as Hf.
  { intros s' [E1 E2]. split; [done|by apply heap_from_same]. }
  assert (initialize s = initialize s ∧ heap_from s s) as Hrefl by (by apply Hf).
  apply (request_cases (fun x => initialize x.1 = initialize s ∧ heap_from s x.1)); [done|]. intros _.
  split; [done|]. intros v.
  destruct (handlers_frame n (RpcReply (request_id bytes) limit) (as_invoke v) (as_initialize v) (as_construct v)
    (as_stream_action v) (as_cancel v) s) as (? & ? & ? & ? & ? & ? & ? & ? & ? & ?).
  do 10 (split; [by auto|]). split; [by apply stop_frame_init|by apply stop_heap].
Qed.

Lemma heap_from_app i streamId capability s s' :
  outbound_heap s' = outbound_heap s ++ [{| os_init := i; os_stream_id := streamId; os_capability := capability;
                                            os_nextSend := 0; os_closed := false |}] →
  is_Some (initialize s) → within (limits i) most → heap_from s s'.
Proof.
  intros E Hi Hw o x. rewrite E. intros [?|[_ Hx]]%lookup_app_Some; [by eauto|]. right.
  destruct (o - length (outbound_heap s))%nat; [|done]. by injection Hx as <-.
Qed.

Lemma heap_from_bump o s s' : outbound_heap s' = outbound_heap (bump_send o s) → heap_from s s'.
Proof.
  intros E o' x. rewrite E. cbn. destruct (decide (o = o')) as [<-|Hne].
  - rewrite list_lookup_alter_eq. intros (y & Hy & ->)%fmap_Some. left. by exists y.
  - rewrite list_lookup_alter_ne by done. eauto.
Qed.

Lemma callback_done_frame n r i k c s :
  is_Some (initialize s) → within (limits i) most →
  initialize (callback_done n r i k c s).1 = initialize s ∧ heap_from s (callback_done n r i k c s).1.
Proof.
  intros Hi Hw. assert (∀ o, initialize (finish_outbound o (leave_outbound s)) = initialize s) as Hfin.
  { intros o. unfold finish_outbound. by case_match. }
  unfold callback_done, deliver, answer, refused.
  repeat (case_match; cbn [fst]; simplify_eq; try (split; [done|by apply heap_from_same])).
  all: split; [by rewrite ?Hfin|].
  all: first [eapply heap_from_app; [reflexivity|done|done]|eapply heap_from_bump; reflexivity
             |apply heap_from_finish; reflexivity].
Qed.

(** The same for every resumption; only the verified handshake sets the initialization. *)
Lemma resume_frame n r at_ x seg s :
  accepted_within s → captures s {| fb_reply := r; fb_at := at_ |} →
  resume_at definition runtimeProfile bootstrap secret n r at_ x = Some seg →
  (initialize (seg s).1 = initialize s ∨ ∃ q d, at_ = AwaitVerify q d ∧
     initialize (seg s).1 = Some (ir_initialize q) ∧
     verifyProof secret (authoringHostProofMessage d) (ir_host_proof q) "host_proof" = Ok tt ∧
     validateDefinition definition runtimeProfile (ir_initialize q) = Ok tt) ∧
  heap_from s (seg s).1.
Proof.
  intros Hh Hc. destruct at_, x; try done; cbn [resume_at]; intros [= <-]; unfold captures in Hc; cbn in Hc.
  { destruct (fetch_body_frame n limit bytes s Hh). auto. }
  { split; [by left|by apply heap_from_same]. }
  { unfold initialize_verified.
    destruct (verifyProof _ _ _ _) as [[]|] eqn:Hv; [|split; [by left|by apply heap_from_same]]. cbn.
    destruct (validateDefinition _ _ _) as [[]|] eqn:Hd; [|split; [by left|by apply heap_from_same]]. cbn.
    split; [right; by do 2 eexists|by apply heap_from_same]. }
  all: try (destruct (Hc _ eq_refl); destruct (callback_done_frame n r i k (callback_completion c) s); by auto).
  all: enough (frame s _) as [E1 E2] by (split; [left; exact E1|by apply heap_from_same]); by_frame.
Qed.

(** ** Correlation identifiers *)

(** The identifier a suspended invocation or stream opening holds. *)
Definition held (f : fiber) : option jsstr :=
  match fb_at f with AwaitInvoke p _ | AwaitOpen p _ => Some (correlation_id p) | _ => None end.

Definition in_flight (l : list (nat * fiber)) : list jsstr := omap (fun e => held e.2) l.

Definition identifiers (s : state) : list jsstr := map fst (active s) ++ retired s.

Definition count {A} (l : list A) : Z := Z.of_nat (length l).

(** What a segment does to the identifiers, [h] being the one of the resumed call. *)
Definition tracked (h : option jsstr) (s s' : state) : Prop :=
  map fst (active s) ≡ₚ option_list h ++ in_flight (fibers s) → NoDup (identifiers s) →
  map fst (active s') ≡ₚ in_flight (fibers s') ∧ NoDup (identifiers s') ∧
  (∀ x, x ∈ identifiers s → x ∈ identifiers s') ∧
  (∀ x, x ∈ retired s → x ∈ retired s') ∧
  count (active s') <= Z.max (count (active s)) (max_active_invocations most) ∧
  count (identifiers s') <=
    Z.max (count (identifiers s)) (max_retired_ids most - 1 + Z.max 0 (max_active_invocations most)).

Lemma tracked_same s s' :
  active s' = active s → retired s' = retired s → in_flight (fibers s') = in_flight (fibers s) →
  tracked None s s'.
Proof.
  intros E1 E2 E3 Hp Hnd. unfold identifiers in *. rewrite E1, E2, E3. cbn in Hp. split_and!; [done..|lia|lia].
Qed.

Lemma identifiers_length s : count (identifiers s) = count (active s) + count (retired s).
Proof. unfold count, identifiers. rewrite length_app, length_map. lia. Qed.

Lemma in_flight_app l1 l2 : in_flight (l1 ++ l2) = in_flight l1 ++ in_flight l2.
Proof. apply omap_app. Qed.

(** A fresh identifier is put in use. *)
Lemma tracked_enter s s' i id cx n f :
  within (limits i) most → active s' = active s ++ [(id, cx)] → retired s' = retired s →
  fibers s' = fibers s ++ [(n, f)] → held f = Some id → (id ∉ identifiers s) →
  count (retired s) < max_retired_ids (limits i) → count (active s) < max_active_invocations (limits i) →
  tracked None s s'.
Proof.
  intros [] Ea Er Ef Hf Hnew Hr Hm Hp Hnd. rewrite !identifiers_length.
  assert (identifiers s' ≡ₚ id :: identifiers s) as Hid.
  { unfold identifiers. rewrite Ea, Er, map_app. cbn. rewrite <- app_assoc. cbn. by rewrite <- Permutation_middle. }
  split_and!.
  - rewrite Ea, Ef, map_app, in_flight_app. cbn in *. rewrite Hf, Hp. done.
  - rewrite Hid. by apply NoDup_cons.
  - intros x Hx. rewrite Hid. by right.
  - by rewrite Er.
  - rewrite Ea. unfold count in *. rewrite length_app. cbn. lia.
  - rewrite Ea, Er. unfold count in *. rewrite length_app. cbn. lia.
Qed.

(** [active.delete(id); retired.add(id)] for an identifier in use. *)
Lemma delete_key_perm {V} id (l : list (jsstr * V)) :
  NoDup (map fst l) → id ∈ map fst l → map fst l ≡ₚ id :: map fst (delete_key id l).
Proof.
  unfold delete_key. induction l as [|[k v] l IH]; [by intros _ ?%elem_of_nil|]. cbn [map fst].
  intros [Hk Hnd]%NoDup_cons. destruct (decide (k = id)) as [->|Hne].
  - intros _. rewrite filter_cons_False by (cbn; tauto).
    assert (filter (fun e => e.1 ≠ id) l = l) as ->; [|done].
    clear -Hk. induction l as [|[k v] l IH]; [done|]. apply not_elem_of_cons in Hk as [? ?].
    rewrite filter_cons_True by (cbn in *; congruence). f_equal. by apply IH.
  - intros [?|Hin]%elem_of_cons; [congruence|]. rewrite filter_cons_True by done. cbn.
    rewrite (IH Hnd Hin) at 1. apply Permutation_swap.
Qed.

Lemma retire_identifiers s id :
  NoDup (identifiers s) → id ∈ map fst (active s) →
  identifiers (add_retired id (set_active (delete_key id (active s)) s)) ≡ₚ identifiers s.
Proof.
  intros Hnd Hin. unfold identifiers in *. cbn.
  destruct (proj1 (NoDup_app _ _) Hnd) as (Hnd1 & Hdis & _).
  rewrite (proj2 (mem_false _ _) (Hdis id Hin)).
  rewrite (delete_key_perm id (active s) Hnd1 Hin). cbn.
  rewrite app_assoc, (Permutation_app_comm _ [id]). done.
Qed.

Lemma tracked_complete s s' id :
  active s' = delete_key id (active s) →
  retired s' = (if mem id (retired s) then retired s else retired s ++ [id]) →
  in_flight (fibers s') = in_flight (fibers s) → tracked (Some id) s s'.
Proof.
  intros Ea Er Ef Hp Hnd. cbn in Hp.
  assert (id ∈ map fst (active s)) as Hin by (rewrite Hp; by left).
  assert (identifiers s' ≡ₚ identifiers s) as Hid.
  { rewrite <- (retire_identifiers s id Hnd Hin). unfold identifiers. rewrite Ea, Er. done. }
  destruct (proj1 (NoDup_app _ _) Hnd) as (Hnd1 & _ & _).
  pose proof (delete_key_perm id (active s) Hnd1 Hin) as Hdel.
  assert (length (active s) = S (length (active s'))) as Hlen.
  { rewrite Ea. apply Permutation_length in Hdel. cbn in Hdel. rewrite !length_map in Hdel. done. }
  split_and!.
  - rewrite Ea, Ef. rewrite Hp in Hdel. by apply (Permutation_cons_inv (a := id)).
  - by rewrite Hid.
  - intros x. by rewrite Hid.
  - intros x Hx. rewrite Er. destruct (mem id (retired s)); [done|]. apply elem_of_app. by left.
  - unfold count. lia.
  - unfold count. rewrite Hid. lia.
Qed.

(** ** Calls that start *)

Definition starts (n : nat) (t t' : state) : Prop :=
  counted 0 0 t t' ∧ extends n t t' ∧ heap_from t t' ∧ initialize t' = initialize t ∧
  active t' = active t ∧ retired t' = retired t ∧
  (∀ m f, (m, f) ∈ fibers t' → (m, f) ∈ fibers t ∨ held f = None).

Ltac fibers_held :=
  cbn; intros m f Hin; first [by left|apply elem_of_app in Hin as [?|[= -> ->]%list_elem_of_singleton]; [by left|by right]].

Lemma fetch_open_starts n method t : accepted_within t → starts n t (fetch_open n method t).1.
Proof.
  intros Hh. split; [by_cases Hh|]. split; [by_extends Hh|]. unfold fetch_open. seg_unfold.
  case_match; cbn; (split; [by apply heap_from_same|]); (split_and!; [done..|fibers_held]).
Qed.

Lemma outbound_starts n k cx route op payload elapsed t :
  accepted_within t → starts n t (boundClient n k cx route op payload elapsed t).1.
Proof.
  intros Hh. split; [by_cases Hh|]. split; [by_extends Hh|]. unfold boundClient, outbound, callback_from.
  destruct (negb _); [split; [by apply heap_from_same|]; split_and!; [done..|fibers_held]|].
  destruct (initialize t) as [i|] eqn:Hi, (context_heap t !! cx); cbn;
    try (split; [by apply heap_from_same|]; split_and!; [done..|fibers_held]).
  destruct (cx_aborted _); [split; [by apply heap_from_same|]; split_and!; [done..|fibers_held]|].
  destruct (outbound_full _ _ _); [split; [by apply heap_from_same|]; split_and!; [done..|fibers_held]|].
  cbn. rewrite Hi. cbn. split; [by apply heap_from_same|]. split_and!; [done..|fibers_held].
Qed.

Lemma outbound_stream_starts n o message t :
  accepted_within t → starts n t (outbound_action n o message t).1 ∧ starts n t (outbound_receive n o t).1.
Proof.
  intros Hh. destruct (outbound_heap t !! o) as [stream|] eqn:Ho.
  - destruct (aw_streams _ Hh o stream Ho) as [[i Hi] []]. destruct (aw_current _ Hh i Hi).
    unfold outbound_action, outbound_receive. rewrite Ho.
    split; (destruct (os_closed stream);
      [|cbn; destruct (Z.leb_spec (max_active_outbound_calls (limits (os_init stream))) (activeOutboundCalls t))]);
      cbn; unfold callback_from; cbn; rewrite ?Hi; cbn; (split; [|split; [|split; [by apply heap_from_same|]]]).
    all: try (split_and!; [done..|fibers_held]).
    all: try (first [apply extends_none; done|eapply extends_one; [reflexivity|reflexivity|by_captures Hh|exact I]]).
    all: unfold counted, ahead, publications_ahead; cbn; rewrite ?total_app; cbn; lia.
  - unfold outbound_action, outbound_receive. rewrite Ho.
    split; cbn; (split; [apply notified_counted, notified_refl|]; split; [by apply extends_none|];
      split; [by apply heap_from_same|]; split_and!; [done..|fibers_held]).
Qed.

Lemma outbound_cancel_starts n o t : accepted_within t → starts n t (outbound_cancel o t).1.
Proof.
  intros Hh. pose proof (outbound_cancel_notified o t Hh) as Hn. split; [by apply notified_counted|].
  split; [by apply notified_extends|]. split; [intros o' x Hx; left; by apply (nt_heap _ _ Hn)|].
  split; [apply Hn|]. destruct (nt_ids _ _ Hn) as [-> ->]. split_and!; [done..|].
  destruct (nt_fibers _ _ Hn) as (new & -> & Hnew & _). intros m f [?|Hin]%elem_of_app; [by left|].
  right. by destruct (Hnew m f Hin) as (? & ? & ? & -> & _).
Qed.
End correct.
