(* ===== verification/V2Correct.v ===== *)
(** * What the Authoring V2 server guarantees

    The histories of a server with the initializations it accepted, the invariant of the
    states it reaches, and from it the identifiers and the authentication of the handshake. *)

From Stdlib Require Import ZArith.
From S2P Require Import Prelude JsValue Text Json Authoring V2 V2Invariant.

Local Open Scope Z_scope.

Section correct.
Context `{AuthoringProtocol, PluginCode}.
Variable definition : PluginDefinition.
Variable runtimeProfile : jsstr.
Variable bootstrap : Bootstrap.
Variable secret : list N.

Abbreviation step := (step definition runtimeProfile bootstrap secret).
Abbreviation run := (run definition runtimeProfile bootstrap secret).

Section bounded.
Variable most : Limits.

Abbreviation accepted_within := (accepted_within most).
Abbreviation tracked := (tracked most).
Abbreviation extends := (extends bootstrap most).
Abbreviation starts := (starts bootstrap most).
Abbreviation captures := (captures most).

(** ** Identifiers through every segment *)

Ltac by_same :=
  seg_unfold; repeat (case_match; cbn in *; simplify_eq; try done);
  (apply tracked_same; [reflexivity|reflexivity|]); cbn; rewrite ?in_flight_app; cbn; rewrite ?app_nil_r; reflexivity.

Lemma other_handlers_tracked n r p q c sa k s :
  tracked None s (initialize_session bootstrap n r q s).1 ∧ tracked None s (construct definition n r c s).1 ∧
  tracked None s (publish_event n r p s).1 ∧
  tracked None s (send_stream n r sa s).1 ∧ tracked None s (receive_stream n r sa s).1 ∧
  tracked None s (close_send_stream n r sa s).1 ∧ tracked None s (cancel_stream n r sa s).1 ∧
  tracked None s (cancel n r k s).1.
Proof. split_and!; by_same. Qed.

Lemma known_false id s : known id s = false ↔ id ∉ identifiers s.
Proof.
  unfold known, identifiers. rewrite orb_false_iff, !mem_false, elem_of_app. tauto.
Qed.

(** Entering and leaving in one segment: an admitted call whose endpoint is unknown. *)
Lemma tracked_abandon s s' i id cx :
  within (limits i) most → active s' = delete_key id (active s ++ [(id, cx)]) →
  retired s' = (if mem id (retired s) then retired s else retired s ++ [id]) →
  in_flight (fibers s') = in_flight (fibers s) → (id ∉ identifiers s) →
  count (retired s) < max_retired_ids (limits i) → count (active s) < max_active_invocations (limits i) →
  tracked None s s'.
Proof.
  intros [] Ea Er Ef Hnew Hr Hm Hp Hnd. rewrite !identifiers_length.
  unfold identifiers in Hnew. rewrite not_elem_of_app in Hnew. destruct Hnew as [Hn1 Hn2].
  rewrite (proj2 (mem_false _ _) Hn2) in Er.
  assert (delete_key id (active s ++ [(id, cx)]) = active s) as Hdel.
  { unfold delete_key. rewrite filter_app, filter_cons_False by (cbn; tauto). cbn. rewrite app_nil_r.
    clear -Hn1. induction (active s) as [|[k v] l IH]; [done|]. apply not_elem_of_cons in Hn1 as [? ?].
    rewrite filter_cons_True by (cbn in *; congruence). f_equal. by apply IH. }
  rewrite Hdel in Ea. unfold identifiers in *. rewrite Ea, Er, Ef. cbn in Hp.
  split_and!; [done| | | |lia|].
  - rewrite app_assoc. apply NoDup_app. split_and!; [done| |apply NoDup_singleton].
    intros x Hx ->%list_elem_of_singleton. apply elem_of_app in Hx as [?|?]; done.
  - intros x. rewrite !elem_of_app. tauto.
  - intros x Hx. apply elem_of_app. by left.
  - unfold count in *. rewrite length_app. cbn. lia.
Qed.

Lemma invoke_tracked n r p s : accepted_within s → tracked None s (invoke n r p s).1.
Proof.
  intros Hh. unfold invoke. destruct (initialize s) as [i|] eqn:Hi; [|by_same]. pose proof (aw_current _ _ Hh i Hi) as Hw.
  destruct (validateInvoke p i); [|by_same]. destruct (instance s); [|by_same].
  destruct (known _ s) eqn:Hk; [by_same|]. apply known_false in Hk.
  destruct (Z.leb_spec (max_retired_ids (limits i)) (Z.of_nat (length (retired s)))); [by_same|].
  destruct (Z.leb_spec (max_active_invocations (limits i)) (Z.of_nat (length (active s)))); [by_same|].
  destruct (assoc _ _).
  - by eapply tracked_enter.
  - seg_unfold. cbn. rewrite Hi. eapply tracked_abandon; try done. cbn. rewrite in_flight_app. cbn. by rewrite app_nil_r.
Qed.

Lemma open_stream_tracked n r p s : accepted_within s → tracked None s (open_stream n r p s).1.
Proof.
  intros Hh. unfold open_stream. destruct (initialize s) as [i|] eqn:Hi; [|by_same]. pose proof (aw_current _ _ Hh i Hi) as Hw.
  destruct (validateStreamOpen p i); [|by_same]. destruct (instance s); [|by_same].
  destruct (known _ s) eqn:Hk; [by_same|]. apply known_false in Hk.
  destruct (_ || _) eqn:Hfull; [by_same|].
  apply orb_false_iff in Hfull as [[H1%Z.leb_gt H2%Z.leb_gt]%orb_false_iff _].
  assert (∀ message, tracked None s (complete_open n r p (length (context_heap s)) "abandoned" false
    (runtime_json (plugin_failure_of (ErrorObject (js message)))) (enter_active p s)).1) as Hab.
  { intros message. seg_unfold. cbn. rewrite Hi. eapply tracked_abandon; try done. cbn.
    rewrite in_flight_app. cbn. by rewrite app_nil_r. }
  destruct (assoc _ _); [|apply Hab]. destruct (negb _); [apply Hab|]. by eapply tracked_enter.
Qed.

Lemma notified_tracked s s' : notified s s' → tracked None s s'.
Proof.
  intros Hn. destruct (nt_fibers _ _ Hn) as (new & E & Hnew & _), (nt_ids _ _ Hn) as [Ea Er].
  apply tracked_same; [done|done|]. rewrite E, in_flight_app.
  assert (in_flight new = []) as ->; [|apply app_nil_r].
  clear E. induction new as [|[m f] new IH]; [done|]. cbn. destruct (Hnew m f) as (? & ? & ? & -> & _); [by left|].
  cbn. apply IH. intros m' f' ?. apply (Hnew m'). by right.
Qed.

Lemma tracked_after s t t' :
  active t = active s → retired t = retired s → in_flight (fibers t) = in_flight (fibers s) →
  tracked None t t' → tracked None s t'.
Proof. unfold V2Invariant.tracked, identifiers. by intros -> -> ->. Qed.

Lemma stop_tracked n r p s : accepted_within s → tracked None s (stop definition n r p s).1.
Proof.
  intros Hh. pose proof (stop_streams_notified most n s Hh) as Hn.
  apply (stop_cases _ (fun x => tracked None s x.1)); cbn [fst].
  - intros e. by apply tracked_same.
  - intros e _ _. by apply tracked_same.
  - intros t ids e _ _ <-. by apply notified_tracked.
  - intros t ids _ _ <-. destruct (nt_fibers _ _ Hn) as (new & E & Hnew & _), (nt_ids _ _ Hn) as [Ea Er].
    eapply tracked_after; [exact Ea|exact Er| |].
    + rewrite E, in_flight_app. assert (in_flight new = []) as ->; [|apply app_nil_r].
      clear E. induction new as [|[m f] new IH]; [done|]. cbn. destruct (Hnew m f) as (? & ? & ? & -> & _); [by left|].
      cbn. apply IH. intros m' f' ?. apply (Hnew m'). by right.
    + unfold stop_hook. by_same.
Qed.

Lemma fetch_body_tracked n limit bytes s :
  accepted_within s → tracked None s (fetch_body definition bootstrap n limit bytes s).1.
Proof.
  intros Hh. assert (tracked None s s) as Hrefl by by_same.
  apply (request_cases _ _ (fun x => tracked None s x.1)); [done|]. intros _. split; [done|]. intros v.
  destruct (other_handlers_tracked n (RpcReply (request_id bytes) limit) (as_invoke v) (as_initialize v)
    (as_construct v) (as_stream_action v) (as_cancel v) s) as (T1 & T2 & T3 & T4 & T5 & T6 & T7 & T8).
  split_and!; [exact T1|exact T2|by apply invoke_tracked|exact T3|by apply open_stream_tracked|exact T4|exact T5|exact T6
              |exact T7|exact T8|by apply stop_tracked].
Qed.

Lemma resume_tracked n r at_ x seg s :
  accepted_within s → resume_at definition runtimeProfile bootstrap secret n r at_ x = Some seg →
  tracked (held {| fb_reply := r; fb_at := at_ |}) s (seg s).1.
Proof.
  intros Hh. destruct at_, x; try done; cbn [resume_at]; intros [= <-]; unfold held; cbn [fb_at].
  { by apply fetch_body_tracked. }
  all: try (by_same; fail).
  all: seg_unfold; repeat (case_match; cbn in *; simplify_eq; try done);
    (apply tracked_complete; [reflexivity|reflexivity|]); cbn; rewrite ?in_flight_app; cbn;
    rewrite ?app_nil_r; reflexivity.
Qed.

(** ** The invariant *)

Record inv (s : state) : Prop := {
  i_calls : ahead s = 0;
  i_publications : publications_ahead s = 0;
  i_heap : accepted_within s;
  i_verifies : ∀ n f, (n, f) ∈ fibers s → verifies bootstrap f;
  i_captured : ∀ n f, (n, f) ∈ fibers s → captures s f;
  i_numbers : NoDup (map fst (fibers s)) ∧ ∀ n, n ∈ map fst (fibers s) → (n < nextFiber s)%nat;
  i_in_flight : map fst (active s) ≡ₚ in_flight (fibers s);
  i_distinct : NoDup (identifiers s);
  i_calls_limit : activeOutboundCalls s <= Z.max 0 (max_active_outbound_calls most);
  i_publications_limit : activeEventPublications s <= Z.max 0 (max_queued_calls most);
  i_active_limit : count (active s) <= Z.max 0 (max_active_invocations most);
  i_identifiers_limit :
    count (identifiers s) <= Z.max 0 (max_retired_ids most - 1 + Z.max 0 (max_active_invocations most)) }.

Lemma empty_inv : inv empty_state.
Proof.
  constructor; cbn; try done; try apply NoDup_nil_2; try lia.
  - by intros ? ? ?%elem_of_nil.
  - by intros ? ? ?%elem_of_nil.
  - split; [apply NoDup_nil_2|by intros ? ?%elem_of_nil].
  - change (count []) with 0. lia.
  - change (count []) with 0. lia.
Qed.

(** The effects of one segment give the invariant back.  [t] is the state the segment
    runs in: [s] without the resumed call, whose weights and identifier are left over. *)
Lemma segment_inv n calls pubs h t t' :
  ahead t = calls → publications_ahead t = pubs → accepted_within t →
  (∀ m f, (m, f) ∈ fibers t → verifies bootstrap f) → (∀ m f, (m, f) ∈ fibers t → captures t f) →
  NoDup (map fst (fibers t)) → (∀ m, m ∈ map fst (fibers t) → (m < nextFiber t)%nat) →
  (n < nextFiber t)%nat → (n ∉ map fst (fibers t)) →
  map fst (active t) ≡ₚ option_list h ++ in_flight (fibers t) → NoDup (identifiers t) →
  (activeOutboundCalls t <= Z.max 0 (max_active_outbound_calls most) ∧
   activeEventPublications t <= Z.max 0 (max_queued_calls most) ∧
   count (active t) <= Z.max 0 (max_active_invocations most) ∧
   count (identifiers t) <= Z.max 0 (max_retired_ids most - 1 + Z.max 0 (max_active_invocations most))) →
  counted most calls pubs t t' → extends n t t' → heap_from most t t' → tracked h t t' →
  (is_Some (initialize t) → is_Some (initialize t')) → (∀ i, initialize t' = Some i → within (limits i) most) → inv t'.
Proof.
  intros Hc Hp Hh Hver Hcap Hnd Hlt Hn Hfresh Hact Hids Hlim (C1 & C2 & C3) (new & E & Hle & Hndn & Hnew) Hheap Htr Hkeep Hin'.
  destruct (Htr Hact Hids) as (T1 & T2 & T3 & T4 & T5).
  constructor; try lia; try done.
  - split; [done|]. intros o x Hx. destruct (Hheap o x Hx) as [(y & Hy & ->)|[? ?]]; [|by auto].
    destruct (aw_streams _ _ Hh o y Hy). auto.
  - intros m f Hin. rewrite E in Hin. apply elem_of_app in Hin as [Hin|Hin]; [by eapply Hver|].
    by destruct (Hnew m f Hin) as (_ & _ & ?).
  - intros m f Hin i Hf. rewrite E in Hin. apply elem_of_app in Hin as [Hin|Hin].
    + destruct (Hcap m f Hin i Hf). auto.
    + destruct (Hnew m f Hin) as (_ & Hi & _). destruct (Hi i Hf). auto.
  - rewrite E, map_app. split.
    + apply NoDup_app. split_and!; [done| |done]. intros m Hm ([m' f] & -> & Hin)%list_elem_of_fmap. cbn in *.
      destruct (Hnew m' f Hin) as [[->|?] _]; [done|]. specialize (Hlt m' Hm). lia.
    + intros m [Hm|([m' f] & -> & Hin)%list_elem_of_fmap]%elem_of_app; [specialize (Hlt m Hm); lia|].
      destruct (Hnew m' f Hin) as [[?|?] _]; cbn; lia.
Qed.

Lemma starts_tracked n t t' :
  (∀ m, m ∈ map fst (fibers t) → (m < nextFiber t)%nat) → (n ∉ map fst (fibers t)) →
  starts n t t' → tracked None t t'.
Proof.
  intros Hlt Hn (_ & (new & E & _ & _ & Hnew) & _ & _ & Ea & Er & Hheld). apply tracked_same; [done|done|].
  rewrite E, in_flight_app. assert (in_flight new = []) as ->; [|apply app_nil_r].
  assert (∀ m f, (m, f) ∈ new → held f = None) as Hnone.
  { intros m f Hin. destruct (Hheld m f) as [Hold|?]; [rewrite E; apply elem_of_app; by right| |done].
    assert (m ∈ map fst (fibers t)) as Hm by (apply list_elem_of_fmap; by exists (m, f)).
    destruct (Hnew m f Hin) as [[->|?] _]; [done|]. specialize (Hlt m Hm). lia. }
  clear -Hnone. induction new as [|[m f] new IH]; [done|]. cbn. rewrite (Hnone m f) by (by left).
  apply IH. intros ? ? ?. eapply Hnone. by right.
Qed.

(** A call that starts keeps the invariant. *)
Lemma spawn_inv (k : nat → state → state * list output) s :
  (∀ n t, accepted_within t → starts n t (k n t).1) → inv s → inv (spawn k s).1.
Proof.
  intros Hk Hi. unfold spawn. set (n := nextFiber s). set (t := set_nextFiber (S n) s).
  destruct (Hk n t (i_heap _ Hi)) as (Hc & He & Hh & Hinit & Ha & Hr & Hheld).
  destruct (i_numbers _ Hi) as [Hnd Hlt].
  assert (n ∉ map fst (fibers t)) as Hfresh by (intros Hin; specialize (Hlt n Hin); unfold n in Hlt; lia).
  assert (∀ m, m ∈ map fst (fibers t) → (m < nextFiber t)%nat) as Hlt'.
  { intros m Hm. specialize (Hlt m Hm). cbn. unfold n. lia. }
  apply (segment_inv n 0 0 None t); [apply Hi|apply Hi|apply Hi|apply Hi|apply Hi|done|done|cbn; lia|done
    |apply Hi|apply Hi|destruct Hi; by split_and!|done|done|done| |by rewrite Hinit|rewrite Hinit; apply Hi].
  apply (starts_tracked n); [done|done|]. by split_and!.
Qed.

Lemma in_flight_remove n f l :
  NoDup (map fst l) → find_fiber n l = Some f →
  in_flight l ≡ₚ option_list (held f) ++ in_flight (filter (fun e => e.1 ≠ n) l).
Proof.
  intros Hnd Hf. destruct (fiber_split n f l Hnd Hf) as (l1 & l2 & -> & -> & _).
  rewrite !in_flight_app. unfold in_flight at 2. cbn. fold (in_flight l2).
  destruct (held f); cbn; [|done]. by rewrite <- Permutation_middle.
Qed.

Lemma authoring_resume_inv s n f x seg :
  inv s → find_fiber n (fibers s) = Some f →
  resume_at definition runtimeProfile bootstrap secret n (fb_reply f) (fb_at f) x = Some seg →
  (∀ i, initialize (seg (remove_fiber n s)).1 = Some i → within (limits i) most) →
  inv (seg (remove_fiber n s)).1.
Proof.
  intros Hi Hf Hseg Hinit. destruct (i_numbers _ Hi) as [Hnd Hlt]. pose proof (find_fiber_in _ _ _ Hf) as Hin.
  destruct (fiber_split n f _ Hnd Hf) as (l1 & l2 & El & Er & Hn).
  assert (n ∈ map fst (fibers s)) as Hns by (apply list_elem_of_fmap; by exists (n, f)).
  assert (∀ m g, (m, g) ∈ fibers (remove_fiber n s) → (m, g) ∈ fibers s) as Hsub.
  { cbn. by intros m g [_ ?]%list_elem_of_filter. }
  assert (NoDup (map fst (fibers (remove_fiber n s)))) as Hnd'.
  { cbn. rewrite Er. rewrite El in Hnd. rewrite map_app in Hnd |- *. cbn in Hnd.
    rewrite <- Permutation_middle in Hnd. by apply NoDup_cons in Hnd as [_ ?]. }
  assert (f = {| fb_reply := fb_reply f; fb_at := fb_at f |}) as Hfe by (by destruct f).
  assert (captures (remove_fiber n s) {| fb_reply := fb_reply f; fb_at := fb_at f |}) as Hcap.
  { rewrite <- Hfe. apply (i_captured _ Hi n f Hin). }
  destruct (resume_frame definition runtimeProfile bootstrap secret most n _ _ x seg (remove_fiber n s) (i_heap _ Hi) Hcap Hseg) as [Hchg Hheap].
  apply (segment_inv n (outbound_weight f) (publish_weight f) (held f) (remove_fiber n s)).
  - pose proof (i_calls _ Hi). unfold ahead in *. cbn. rewrite (total_remove _ _ _ _ Hnd Hf). lia.
  - pose proof (i_publications _ Hi). unfold publications_ahead in *. cbn. rewrite (total_remove _ _ _ _ Hnd Hf). lia.
  - apply Hi.
  - intros m g Hmg. apply (i_verifies _ Hi m g). by apply Hsub.
  - intros m g Hmg. apply (i_captured _ Hi m g). by apply Hsub.
  - done.
  - intros m ([m' g] & -> & Hmg)%list_elem_of_fmap. apply Hlt. apply list_elem_of_fmap. exists (m', g). auto.
  - by apply Hlt.
  - cbn. by rewrite Er.
  - cbn. rewrite <- (in_flight_remove n f _ Hnd Hf). apply Hi.
  - apply Hi.
  - destruct Hi. by split_and!.
  - rewrite Hfe. eapply resume_counted; [apply Hi|done].
  - eapply resume_extends; [apply Hi|by apply Hlt|done|done].
  - done.
  - rewrite Hfe. eapply resume_tracked; [apply Hi|done].
  - destruct Hchg as [-> |(? & ? & _ & -> & _)]; [done|by eexists].
  - done.
Qed.

(** A step starts a call, resumes one or is the timer of a stop. *)
Lemma step_cases s e s' out :
  step s e = Some (s', out) →
  (∃ k, (s', out) = spawn k s ∧ ∀ n t, accepted_within t → starts n t (k n t).1) ∨
  (∃ n f x seg, e = Resume n x ∧ find_fiber n (fibers s) = Some f ∧
     resume_at definition runtimeProfile bootstrap secret n (fb_reply f) (fb_at f) x = Some seg ∧
     (s', out) = seg (remove_fiber n s)) ∨
  (e = StopTimer ∧ finishing s = true ∧ (s', out) = (set_stopped true s, [])).
Proof.
  intros Hs. destruct e as [method|n x|k cx route op payload elapsed|o message|o|o|]; cbn [V2.step] in Hs;
    try (destruct (_ <? _)%nat; [|done]).
  - destruct (stopped s); [done|]. injection Hs as Hs. left. eexists. split; [by rewrite Hs|].
    intros; by apply fetch_open_starts.
  - right. left. destruct (find_fiber n (fibers s)) as [f|] eqn:Hf; [|done].
    apply fmap_Some in Hs as (seg & Hseg & Hs). by exists n, f, x, seg.
  - injection Hs as Hs. left. eexists. split; [by rewrite Hs|]. intros; by apply outbound_starts.
  - injection Hs as Hs. left. eexists. split; [by rewrite Hs|]. intros; by apply outbound_stream_starts.
  - injection Hs as Hs. left. eexists. split; [by rewrite Hs|]. intros n t Ht.
    by apply (outbound_stream_starts bootstrap most n o None).
  - injection Hs as Hs. left. eexists. split; [by rewrite Hs|]. intros; by apply outbound_cancel_starts.
  - right. right. destruct (finishing s); [|done]. destruct (stopped s); [done|]. by injection Hs as <- <-.
Qed.

Lemma authoring_step_inv s e s' out :
  inv s → step s e = Some (s', out) → (∀ i, initialize s' = Some i → within (limits i) most) → inv s'.
Proof.
  intros Hi Hs Hinit.
  destruct (step_cases _ _ _ _ Hs) as [(k & E & Hk)|[(n & f & x & seg & _ & Hf & Hseg & E)|(_ & _ & E)]];
    apply (f_equal fst) in E; cbn in E; subst s'; [by apply spawn_inv|by eapply authoring_resume_inv|].
  by destruct Hi; constructor.
Qed.

(** Identifiers are never forgotten, and a retired one stays retired. *)
Lemma step_identifiers s e s' out :
  inv s → step s e = Some (s', out) →
  (∀ x, x ∈ identifiers s → x ∈ identifiers s') ∧ (∀ x, x ∈ retired s → x ∈ retired s').
Proof.
  intros Hi Hs. destruct (step_cases _ _ _ _ Hs) as [(k & E & Hk)|[(n & f & x & seg & _ & Hf & Hseg & E)|(_ & _ & E)]];
    apply (f_equal fst) in E; cbn in E; subst s'; [| |done].
  - unfold spawn, identifiers.
    destruct (Hk (nextFiber s) (set_nextFiber (S (nextFiber s)) s)) as (_ & _ & _ & _ & -> & -> & _); [|done].
    by destruct (i_heap _ Hi).
  - apply resume_tracked with (s := remove_fiber n s) in Hseg; [|by destruct (i_heap _ Hi)].
    destruct Hseg as (_ & _ & Hmono & Hret & _); [|apply Hi|done].
    cbn. replace {| fb_reply := fb_reply f; fb_at := fb_at f |} with f by (by destruct f).
    rewrite <- (in_flight_remove n f _ (proj1 (i_numbers _ Hi)) Hf). apply Hi.
Qed.

(** Only a verified handshake changes the initialization. *)
Lemma step_initialize s e s' out :
  inv s → step s e = Some (s', out) →
  initialize s' = initialize s ∨
  ∃ q payload, initialize s' = Some (ir_initialize q) ∧
    ir_callback_origin q = callback_origin bootstrap ∧
    authoringHandshakeProofPayload q = Ok payload ∧
    verifyProof secret (authoringHostProofMessage (sha256 payload)) (ir_host_proof q) "host_proof" = Ok tt ∧
    validateDefinition definition runtimeProfile (ir_initialize q) = Ok tt.
Proof.
  intros Hr Hs.
  destruct (step_cases _ _ _ _ Hs) as [(k & E & Hk)|[(n & f & x & seg & _ & Hf & Hseg & E)|(_ & _ & E)]];
    apply (f_equal fst) in E; cbn in E; subst s'; [| |by left].
  - left. unfold spawn.
    destruct (Hk (nextFiber s) (set_nextFiber (S (nextFiber s)) s)) as (_ & _ & _ & -> & _); [|done].
    by destruct (i_heap _ Hr).
  - pose proof (find_fiber_in _ _ _ Hf) as Hin. pose proof (i_verifies _ Hr n f Hin) as Hv.
    apply (resume_frame definition runtimeProfile bootstrap secret most n _ _ x seg (remove_fiber n s)) in Hseg;
      [|by destruct (i_heap _ Hr)|destruct f; apply (i_captured _ Hr n _ Hin)].
    destruct Hseg as [[?|(q & d & Hat & Hi & Hp & Hd)] _]; [by left|right].
    unfold verifies in Hv. rewrite Hat in Hv. destruct Hv as (Ho & payload & Hpay & ->).
    exists q, payload. by split_and!.
Qed.

Lemma step_initialized s e s' out :
  inv s → step s e = Some (s', out) → is_Some (initialize s) → is_Some (initialize s').
Proof. intros Hi Hs. destruct (step_initialize _ _ _ _ Hi Hs) as [->|(? & ? & -> & _)]; [done|by eexists]. Qed.
End bounded.

(** ** Histories

    A server's history with every initialization it has held: normally one; the code does not
    prevent two handshakes that are verified at the same time from both being accepted. *)
Inductive history : list InitializeParams → state → Prop :=
| history_start : history [] empty_state
| history_step accepted s e s' out :
    history accepted s → step s e = Some (s', out) → history (option_list (initialize s') ++ accepted) s'.

(** The largest of each limit among the accepted ones. *)
Definition largest (accepted : list InitializeParams) : Limits :=
  foldr (fun i m => {| max_frame_bytes := Z.max (max_frame_bytes (limits i)) (max_frame_bytes m);
                       max_retired_ids := Z.max (max_retired_ids (limits i)) (max_retired_ids m);
                       max_active_invocations := Z.max (max_active_invocations (limits i)) (max_active_invocations m);
                       max_queued_calls := Z.max (max_queued_calls (limits i)) (max_queued_calls m);
                       max_unfinished_executions :=
                         Z.max (max_unfinished_executions (limits i)) (max_unfinished_executions m);
                       max_active_outbound_calls :=
                         Z.max (max_active_outbound_calls (limits i)) (max_active_outbound_calls m) |})
    {| max_frame_bytes := 0; max_retired_ids := 0; max_active_invocations := 0; max_queued_calls := 0;
       max_unfinished_executions := 0; max_active_outbound_calls := 0 |} accepted.

Lemma largest_within accepted i : i ∈ accepted → within (limits i) (largest accepted).
Proof.
  unfold largest. induction accepted as [|j l IH]; [by intros ?%elem_of_nil|].
  intros [->|Hi]%elem_of_cons; [constructor; cbn; lia|]. destruct (IH Hi). constructor; cbn in *; lia.
Qed.

Lemma largest_nonneg accepted :
  0 <= max_active_outbound_calls (largest accepted) ∧ 0 <= max_queued_calls (largest accepted) ∧
  0 <= max_active_invocations (largest accepted).
Proof. unfold largest. induction accepted as [|i l IH]; cbn in *; lia. Qed.

Lemma within_trans l1 l2 l3 : within l1 l2 → within l2 l3 → within l1 l3.
Proof. intros [] []; constructor; lia. Qed.

Lemma largest_grows new accepted : within (largest accepted) (largest (new ++ accepted)).
Proof. unfold largest. induction new as [|j new []]; constructor; cbn in *; lia. Qed.

(** The invariant for larger limits. *)
Lemma inv_mono m m' s : within m m' → inv m s → inv m' s.
Proof.
  intros Hw []. pose proof Hw as []. constructor; try done; try lia.
  - destruct i_heap0 as [Hc Hs]. split; [intros i Hi; by eapply within_trans, Hw; apply Hc|].
    intros o x Hx. destruct (Hs o x Hx). split; [done|by eapply within_trans].
  - intros n f Hin i Hc. destruct (i_captured0 n f Hin i Hc). split; [done|by eapply within_trans].
Qed.

Lemma history_inv accepted s : history accepted s → inv (largest accepted) s.
Proof.
  induction 1 as [|accepted s e s' out Hh IH Hs]; [apply empty_inv|].
  eapply authoring_step_inv; [eapply inv_mono; [apply largest_grows|exact IH]|exact Hs|].
  intros i Hi. apply largest_within, elem_of_app. left. rewrite Hi. by left.
Qed.

(** The states a server reaches. *)
Inductive reachable : state → Prop :=
| reach_start : reachable empty_state
| reach_step s e s' out : reachable s → step s e = Some (s', out) → reachable s'.

Lemma reachable_history s : reachable s → ∃ accepted, history accepted s.
Proof. induction 1 as [|s e s' out _ [l IH] Hs]; eexists; [apply history_start|by eapply history_step]. Qed.

Lemma authoring_reachable_inv s : reachable s → ∃ m, inv m s.
Proof. intros [l Hl]%reachable_history. exists (largest l). by apply history_inv. Qed.

(** C7: a correlation identifier is used at most once.  In every state a server reaches, the
    identifiers in use and the retired ones are pairwise distinct, no step forgets one, and an
    invocation or a stream opening that reuses one is refused without any effect. *)
Theorem authoring_identifier_once s :
  reachable s →
  NoDup (identifiers s) ∧
  (∀ e s' out, step s e = Some (s', out) → ∀ x, x ∈ identifiers s → x ∈ identifiers s') ∧
  (∀ n r p i v, initialize s = Some i → instance s = Some v → correlation_id p ∈ identifiers s →
     (validateInvoke p i = Ok tt →
      invoke n r p s = refused_with n r "Bun Plugin reused a correlation id" s) ∧
     (validateStreamOpen p i = Ok tt →
      open_stream n r p s = refused_with n r "Bun Plugin reused a correlation id" s)).
Proof.
  intros [m Hr]%authoring_reachable_inv. split; [apply Hr|]. split; [intros; by eapply step_identifiers|].
  intros n r p i v Hi Hv Hin. assert (known (correlation_id p) s = true) as Hk.
  { destruct (known _ s) eqn:Hk; [done|]. by apply known_false in Hk. }
  split; intros Hok; unfold invoke, open_stream; by rewrite Hi, Hok, Hv, Hk.
Qed.

(** C8: the handshake is authenticated.  In every state a server reaches, a step that changes
    the initialization resumes a handshake whose callback origin is the private one, whose
    proof is the host's proof of the digest of that very handshake under the bootstrap secret,
    and whose proposal matches the declaration of the plugin. *)
Theorem authoring_handshake_authenticated s e s' out :
  reachable s → step s e = Some (s', out) → initialize s' ≠ initialize s →
  ∃ q payload, initialize s' = Some (ir_initialize q) ∧
    ir_callback_origin q = callback_origin bootstrap ∧
    authoringHandshakeProofPayload q = Ok payload ∧
    verifyProof secret (authoringHostProofMessage (sha256 payload)) (ir_host_proof q) "host_proof" = Ok tt ∧
    validateDefinition definition runtimeProfile (ir_initialize q) = Ok tt.
Proof.
  intros [m Hr]%authoring_reachable_inv Hs Hne. by destruct (step_initialize _ _ _ _ _ Hr Hs).
Qed.
End correct.
