(* ===== verification/V2Limits.v ===== *)
(** * The limits of the Authoring V2 server

    How many streams are open in each direction, against the openings in flight, and from
    it and the invariant all the limits of a server, whatever handshakes it accepted. *)

From Stdlib Require Import ZArith.
From S2P Require Import Prelude JsValue Text Json Authoring V2 V2Invariant V2Correct.

Local Open Scope Z_scope.

Lemma delete_key_length {V} k (l : list (jsstr * V)) : (length (delete_key k l) <= length l)%nat.
Proof. apply length_filter. Qed.

Lemma assoc_set_length {V} k (v : V) l : (length (assoc_set k v l) <= S (length l))%nat.
Proof. induction l as [|[k' v'] l IH]; cbn; [lia|]. case_match; cbn; lia. Qed.

Section limits.
Context `{AuthoringProtocol, PluginCode}.
Variable definition : PluginDefinition.
Variable runtimeProfile : jsstr.
Variable bootstrap : Bootstrap.
Variable secret : list N.

Abbreviation step := (step definition runtimeProfile bootstrap secret).

Section bounded.
Variable most : Limits.

Abbreviation accepted_within := (accepted_within most).

Definition hosted (s : state) : Z := count (streams s) + total opening_weight (fibers s).
Definition outgoing (s : state) : Z := count (outboundStreams s) + total outbound_opening_weight (fibers s).

(** What a segment does to the open streams and the openings in flight, [a] and [b] being the
    weights of the resumed call: it adds none, or stays within the limits. *)
Definition spaced (a b : Z) (s s' : state) : Prop :=
  total opening_weight (fibers s) + a <= count (active s) →
  total outbound_opening_weight (fibers s) <= activeOutboundCalls s →
  hosted s' <= Z.max (hosted s + a) (max_unfinished_executions most - 1 + max_active_invocations most) ∧
  outgoing s' <= Z.max (outgoing s + b) (max_unfinished_executions most - 1 + max_active_outbound_calls most).

Ltac use_lengths :=
  repeat match goal with
  | |- context [delete_key ?k ?l] => pose proof (delete_key_length k l); generalize dependent (delete_key k l); intros
  | |- context [length (filter (fun e => e.1 ≠ ?k) ?l)] =>
      change (filter (fun e => e.1 ≠ k) l) with (delete_key k l)
  | |- context [assoc_set ?k ?v ?l] => pose proof (assoc_set_length k v l); generalize dependent (assoc_set k v l); intros
  end.

Ltac by_spaced Hh :=
  seg_unfold; unfold spaced, hosted, outgoing, count;
  repeat (case_match; cbn in *; simplify_eq; try done);
  try match goal with E : initialize _ = Some ?i |- _ => destruct (aw_current _ _ Hh i E) end;
  cbn in *; rewrite ?total_app; unfold opening_weight, outbound_opening_weight; cbn; intros; use_lengths;
  repeat case_match; cbn in *; split_and?; lia.

Lemma handlers_spaced n r p q c sa k s :
  accepted_within s →
  spaced 0 0 s (initialize_session bootstrap n r q s).1 ∧ spaced 0 0 s (construct definition n r c s).1 ∧
  spaced 0 0 s (invoke n r p s).1 ∧ spaced 0 0 s (publish_event n r p s).1 ∧
  spaced 0 0 s (open_stream n r p s).1 ∧
  spaced 0 0 s (send_stream n r sa s).1 ∧ spaced 0 0 s (receive_stream n r sa s).1 ∧
  spaced 0 0 s (close_send_stream n r sa s).1 ∧ spaced 0 0 s (cancel_stream n r sa s).1 ∧
  spaced 0 0 s (cancel n r k s).1.
Proof. intros Hh. split_and!; by_spaced Hh. Qed.

Lemma notified_weight w s s' :
  (∀ r i m p, w {| fb_reply := r; fb_at := AwaitProof i CbStreamCancel m p |} = 0) →
  notified s s' → total w (fibers s') = total w (fibers s).
Proof.
  intros Hw Hn. destruct (nt_fibers _ _ Hn) as (new & -> & Hnew & _). rewrite total_app.
  assert (total w new = 0) as ->; [|lia]. clear Hn.
  induction new as [|[n f] new IH]; [done|]. cbn. destruct (Hnew n f) as (i & m & p & -> & _); [by left|].
  rewrite Hw, IH; [done|]. intros; eapply Hnew; by right.
Qed.

Lemma finish_outbound_streams o s :
  streams (finish_outbound o s) = streams s ∧
  (length (outboundStreams (finish_outbound o s)) <= length (outboundStreams s))%nat.
Proof. unfold finish_outbound. case_match; cbn; [|done]. split; [done|apply delete_key_length]. Qed.

Lemma outbound_cancel_streams o s :
  streams (outbound_cancel o s).1 = streams s ∧
  (length (outboundStreams (outbound_cancel o s).1) <= length (outboundStreams s))%nat.
Proof.
  unfold outbound_cancel. destruct (outbound_heap s !! o) as [stream|]; [|done]. destruct (os_closed stream); [done|].
  destruct (finish_outbound_streams o s) as [E1 E2]. unfold callback_from. by case_match.
Qed.

Lemma cancel_streams_streams n l s :
  streams (cancel_streams n l s).1.1 = streams s ∧ outboundStreams (cancel_streams n l s).1.1 = outboundStreams s.
Proof.
  revert s; induction l as [|[id o] l IH]; intros s; cbn; [done|]. destruct (cancel_binding n id); [done|].
  set (t := match stream_heap s !! o with Some stream => _ | None => s end). specialize (IH t).
  destruct (cancel_streams n l t) as [[s' out] e]. cbn in IH |- *. destruct IH as [-> ->]. unfold t.
  by destruct (stream_heap s !! o).
Qed.

Lemma stop_streams_streams n s :
  streams (stop_streams n s).1.1 = streams s ∧ outboundStreams (stop_streams n s).1.1 = [].
Proof.
  unfold stop_streams. destruct (cancel_streams_streams n (streams s) (set_outboundStreams []
    (cancel_outbounds (map snd (outboundStreams s)) s))) as [-> ->]. split; [|done]. cbn.
  generalize (map snd (outboundStreams s)). intros os. revert s. induction os as [|o os IH]; intros s; cbn; [done|].
  rewrite IH. apply outbound_cancel_streams.
Qed.

Lemma spaced_less s s' :
  total opening_weight (fibers s') = total opening_weight (fibers s) →
  total outbound_opening_weight (fibers s') = total outbound_opening_weight (fibers s) →
  (length (streams s') <= length (streams s))%nat → (length (outboundStreams s') <= length (outboundStreams s))%nat →
  spaced 0 0 s s'.
Proof. unfold spaced, hosted, outgoing, count. lia. Qed.

Lemma stop_spaced n r p s : accepted_within s → spaced 0 0 s (stop definition n r p s).1.
Proof.
  intros Hh. pose proof (stop_streams_notified most n s Hh) as Hn.
  destruct (stop_streams_streams n (set_stopAttempted true s)) as [E1 E2].
  change (streams (set_stopAttempted true s)) with (streams s) in E1.
  pose proof (notified_weight opening_weight _ _ (fun _ _ _ _ => eq_refl) Hn) as W1.
  pose proof (notified_weight outbound_opening_weight _ _ (fun _ _ _ _ => eq_refl) Hn) as W2.
  apply (stop_cases _ (fun x => spaced 0 0 s x.1)); cbn [fst].
  - intros e. by apply spaced_less.
  - intros e _ _. by apply spaced_less.
  - intros t ids e _ _ <-. unfold refused. cbn [fst]. apply spaced_less; [done|done|by rewrite E1|]. rewrite E2. cbn. lia.
  - intros t ids _ _ <-. set (t := (stop_streams n (set_stopAttempted true s)).1.1) in *.
    apply spaced_less; unfold stop_hook, await_call, suspend, answer, refused_with, refused;
      repeat case_match; cbn; rewrite ?total_app; cbn; rewrite ?E2; cbn; lia.
Qed.

Lemma fetch_body_spaced n limit bytes s :
  accepted_within s → spaced 0 0 s (fetch_body definition bootstrap n limit bytes s).1.
Proof.
  intros Hh. assert (spaced 0 0 s s) as Hrefl by (by apply spaced_less).
  apply (request_cases _ _ (fun x => spaced 0 0 s x.1)); [done|]. intros _. split; [done|]. intros v.
  destruct (handlers_spaced n (RpcReply (request_id bytes) limit) (as_invoke v) (as_initialize v) (as_construct v)
    (as_stream_action v) (as_cancel v) s Hh) as (? & ? & ? & ? & ? & ? & ? & ? & ? & ?).
  split_and!; auto using stop_spaced.
Qed.

Lemma resume_spaced n r at_ x seg s :
  accepted_within s → resume_at definition runtimeProfile bootstrap secret n r at_ x = Some seg →
  spaced (opening_weight {| fb_reply := r; fb_at := at_ |}) (outbound_opening_weight {| fb_reply := r; fb_at := at_ |})
    s (seg s).1.
Proof.
  intros Hh. destruct at_, x; try done; cbn [resume_at]; intros [= <-];
    unfold opening_weight at 1, outbound_opening_weight at 1; cbn [fb_at].
  { by apply fetch_body_spaced. }
  all: by_spaced Hh.
Qed.

(** A call that starts. *)
Lemma start_spaced n k cx route op payload elapsed method o message t :
  accepted_within t →
  spaced 0 0 t (fetch_open n method t).1 ∧ spaced 0 0 t (boundClient n k cx route op payload elapsed t).1 ∧
  spaced 0 0 t (outbound_action n o message t).1 ∧ spaced 0 0 t (outbound_receive n o t).1 ∧
  spaced 0 0 t (outbound_cancel o t).1.
Proof.
  intros Hh. split_and!; [by_spaced Hh..|].
  pose proof (outbound_cancel_notified most o t Hh) as Hn. destruct (outbound_cancel_streams o t) as [E1 E2].
  apply spaced_less; [by apply notified_weight|by apply notified_weight|by rewrite E1|done].
Qed.

(** ** The open streams of a reachable state *)

Definition roomy (s : state) : Prop :=
  hosted s <= Z.max 0 (max_unfinished_executions most - 1 + max_active_invocations most) ∧
  outgoing s <= Z.max 0 (max_unfinished_executions most - 1 + max_active_outbound_calls most).

Lemma openings_active l : total opening_weight l <= count (in_flight l).
Proof.
  induction l as [|[n f] l IH]; [done|]. change ((n, f) :: l) with ([(n, f)] ++ l).
  rewrite total_app, in_flight_app. unfold count in *. rewrite length_app, Nat2Z.inj_add.
  destruct f as [r []]; cbn in *; lia.
Qed.

Lemma openings_outbound l : total outbound_opening_weight l <= total outbound_weight l.
Proof.
  induction l as [|[n [r at_]] l IH]; cbn; [done|]. enough (outbound_opening_weight {| fb_reply := r; fb_at := at_ |} <=
    outbound_weight {| fb_reply := r; fb_at := at_ |}) by lia.
  unfold outbound_opening_weight, outbound_weight. cbn. destruct at_; try done; destruct k; done.
Qed.

Lemma openings_counted s :
  inv bootstrap most s →
  total opening_weight (fibers s) <= count (active s) ∧ total outbound_opening_weight (fibers s) <= activeOutboundCalls s.
Proof.
  intros Hi. split.
  - pose proof (openings_active (fibers s)). unfold count in *.
    rewrite <- (length_map fst (active s)), (i_in_flight _ _ _ Hi). done.
  - pose proof (i_calls _ _ _ Hi) as Ha. unfold ahead in Ha. pose proof (openings_outbound (fibers s)). lia.
Qed.

Lemma spaced_roomy a b s s' :
  total opening_weight (fibers s) + a <= count (active s) →
  total outbound_opening_weight (fibers s) <= activeOutboundCalls s →
  hosted s + a <= Z.max 0 (max_unfinished_executions most - 1 + max_active_invocations most) →
  outgoing s + b <= Z.max 0 (max_unfinished_executions most - 1 + max_active_outbound_calls most) →
  spaced a b s s' → roomy s'.
Proof. intros H1 H2 H3 H4 Hs. destruct (Hs H1 H2). unfold roomy. lia. Qed.

Lemma step_roomy s e s' out : inv bootstrap most s → roomy s → step s e = Some (s', out) → roomy s'.
Proof.
  intros Hi [R1 R2] Hs. destruct (openings_counted s Hi) as [O1 O2].
  assert (∀ t t', fibers t = fibers s → active t = active s → streams t = streams s →
    outboundStreams t = outboundStreams s → activeOutboundCalls t = activeOutboundCalls s → spaced 0 0 t t' → roomy t') as Hgo.
  { intros t t' E1 E2 E3 E4 E5. apply spaced_roomy; unfold hosted, outgoing in *; rewrite ?E1, ?E2, ?E3, ?E4, ?E5; lia. }
  destruct e as [method|n x|k cx route op payload elapsed|o message|o|o|]; cbn [V2.step] in Hs;
    try (destruct (_ <? _)%nat; [|done]); try (destruct (stopped s); [done|]).
  2:{ destruct (find_fiber n (fibers s)) as [f|] eqn:Hf; [|done]. apply fmap_Some in Hs as (seg & Hseg & Hs).
      apply (f_equal fst) in Hs. cbn in Hs. subst s'. destruct (i_numbers _ _ _ Hi) as [Hnd _].
      pose proof (openings_outbound (fibers (remove_fiber n s))) as Ho. cbn in Ho.
      pose proof (i_calls _ _ _ Hi) as Ha. unfold ahead in Ha.
      assert (0 <= outbound_weight f) by (unfold outbound_weight; repeat case_match; lia).
      pose proof (total_remove outbound_weight n f _ Hnd Hf).
      pose proof (total_remove opening_weight n f _ Hnd Hf) as T1.
      pose proof (total_remove outbound_opening_weight n f _ Hnd Hf) as T2.
      apply (spaced_roomy (opening_weight f) (outbound_opening_weight f) (remove_fiber n s));
        unfold hosted, outgoing in *; cbn; [lia..|].
      replace f with {| fb_reply := fb_reply f; fb_at := fb_at f |} by (by destruct f).
      eapply resume_spaced; [apply (i_heap _ _ _ Hi)|done]. }
  all: try (injection Hs as Hs; apply (f_equal fst) in Hs; cbn [fst] in Hs; subst s'; unfold spawn in *;
    apply (Hgo (set_nextFiber (S (nextFiber s)) s)); try reflexivity).
  - by apply (start_spaced (nextFiber s) OutCall 0 {| route_id := []; route_requirement_id := [];
      route_capability_id := []; provider_instance := [] |} [] JNull 0 method 0 None), Hi.
  - by apply (start_spaced (nextFiber s) k cx route op payload elapsed [] 0 None), Hi.
  - by apply (start_spaced (nextFiber s) OutCall 0 {| route_id := []; route_requirement_id := [];
      route_capability_id := []; provider_instance := [] |} [] JNull 0 [] o message), Hi.
  - by apply (start_spaced (nextFiber s) OutCall 0 {| route_id := []; route_requirement_id := [];
      route_capability_id := []; provider_instance := [] |} [] JNull 0 [] o None), Hi.
  - by apply (start_spaced (nextFiber s) OutCall 0 {| route_id := []; route_requirement_id := [];
      route_capability_id := []; provider_instance := [] |} [] JNull 0 [] o None), Hi.
  - destruct (finishing s); [|done]. destruct (stopped s); [done|]. injection Hs as <- <-.
    by apply (Hgo s); try apply spaced_less.
Qed.
End bounded.

Lemma history_roomy accepted s :
  history definition runtimeProfile bootstrap secret accepted s → roomy (largest accepted) s.
Proof.
  induction 1 as [|accepted s e s' out Hh IH Hs]; [unfold roomy, hosted, outgoing, count; cbn; lia|].
  pose proof (largest_grows (option_list (initialize s')) accepted) as Hw.
  eapply step_roomy; [eapply inv_mono; [exact Hw|by eapply history_inv]| |exact Hs].
  destruct Hw, IH. unfold roomy. lia.
Qed.

Lemma weights_nonneg l : 0 <= total outbound_weight l ∧ 0 <= total publish_weight l.
Proof.
  split; apply total_nonneg; intros [r []]; cbn; try lia; unfold outbound_weight; cbn; by case_match.
Qed.

Lemma opening_nonneg l : 0 <= total opening_weight l ∧ 0 <= total outbound_opening_weight l.
Proof. split; apply total_nonneg; intros [r []]; unfold outbound_opening_weight; cbn; try lia; by case_match. Qed.

(** With a single initialization the bounds are its own limits. *)
Lemma largest_single i accepted :
  accepted ≠ [] → Forall (eq i) accepted →
  max_active_outbound_calls (largest accepted) = Z.max 0 (max_active_outbound_calls (limits i)) ∧
  max_queued_calls (largest accepted) = Z.max 0 (max_queued_calls (limits i)) ∧
  max_active_invocations (largest accepted) = Z.max 0 (max_active_invocations (limits i)) ∧
  max_retired_ids (largest accepted) = Z.max 0 (max_retired_ids (limits i)) ∧
  max_unfinished_executions (largest accepted) = Z.max 0 (max_unfinished_executions (limits i)).
Proof.
  destruct accepted as [|j l]; [done|]. intros _ [<- Hl]%Forall_cons. unfold largest.
  induction Hl as [|j l <- Hl IH]; cbn in *; lia.
Qed.

(** C1: the limits of the Authoring V2 server, in every state of every history, the largest
    being taken of each limit over the initializations the server has accepted (one, unless
    handshakes were verified at the same time).  The counters of outbound calls and of event
    publications are the numbers of such calls suspended and stay within
    [max_active_outbound_calls] and [max_queued_calls].  The active table is exactly the
    suspended invocations and stream openings and stays within [max_active_invocations].  An
    identifier is retired only after it was admitted with fewer than [max_retired_ids] retired,
    so active and retired ones together stay below [max_retired_ids] plus
    [max_active_invocations].  A stream is opened only after it was admitted with fewer than
    [max_unfinished_executions] open, so the open streams and the openings in flight stay
    below that limit plus [max_active_invocations] for streams of the Host, and plus
    [max_active_outbound_calls] for streams of the Plugin. *)
Theorem authoring_limits accepted s :
  history definition runtimeProfile bootstrap secret accepted s →
  let most := largest accepted in
  activeOutboundCalls s = total outbound_weight (fibers s) ∧
  0 <= activeOutboundCalls s <= max_active_outbound_calls most ∧
  activeEventPublications s = total publish_weight (fibers s) ∧
  0 <= activeEventPublications s <= max_queued_calls most ∧
  map fst (active s) ≡ₚ in_flight (fibers s) ∧
  count (active s) <= max_active_invocations most ∧
  count (active s) + count (retired s) <= Z.max 0 (max_retired_ids most - 1 + max_active_invocations most) ∧
  count (streams s) + total opening_weight (fibers s) <=
    Z.max 0 (max_unfinished_executions most - 1 + max_active_invocations most) ∧
  count (outboundStreams s) + total outbound_opening_weight (fibers s) <=
    Z.max 0 (max_unfinished_executions most - 1 + max_active_outbound_calls most).
Proof.
  intros Hh most. pose proof (history_inv _ _ _ _ _ _ Hh) as Hi. destruct (history_roomy _ _ Hh) as [R1 R2].
  pose proof (largest_nonneg accepted) as Hz. fold most in Hi, R1, R2, Hz. destruct (weights_nonneg (fibers s)).
  pose proof (i_calls _ _ _ Hi) as A1. pose proof (i_publications _ _ _ Hi) as A2.
  unfold ahead, publications_ahead in *.
  pose proof (i_calls_limit _ _ _ Hi). pose proof (i_publications_limit _ _ _ Hi). pose proof (i_active_limit _ _ _ Hi).
  pose proof (i_identifiers_limit _ _ _ Hi) as L4. rewrite identifiers_length in L4.
  split_and!; try done; try lia. apply Hi.
Qed.
End limits.
