(* ===== verification/V2Lifecycle.v ===== *)
(** * The lifecycle of the Authoring V2 server

    The fields that record initialization, construction and stopping, and the calls of [create]
    and of the stop hook in flight, refine a small lifecycle: a Plugin is created at most once
    and its object is never replaced, a stop is tried at most once, and the lifecycle changes at
    most five times. *)

From Stdlib Require Import ZArith.
From S2P Require Import Prelude JsValue Text Json Authoring V2 V2Invariant V2Correct.

Local Open Scope Z_scope.

(** ** The abstract lifecycle *)

Inductive construction :=
| NotBuilt
| Creating
| Failed
| Built (v : jsval) (bindings : list (jsstr * ProviderBinding)).

Inductive stopping := Running | Stopping | Refused | Finished.

Record life := Life { l_init : bool; l_build : construction; l_stop : stopping }.

(** How [create] can end. *)
Definition ended (b : construction) : Prop := match b with Failed | Built _ _ => True | _ => False end.

(** Initialization comes first; construction is attempted once; a stop is tried once, and is
    refused for good or runs the hook of a Plugin that was built. *)
Inductive moves : life → life → Prop :=
| move_init b st : moves (Life false b st) (Life true b st)
| move_construct b st : b = Creating ∨ ended b → moves (Life true NotBuilt st) (Life true b st)
| move_created b st : ended b → moves (Life true Creating st) (Life true b st)
| move_refused b : moves (Life true b Running) (Life true b Refused)
| move_stop v bs st : st = Stopping ∨ st = Finished → moves (Life true (Built v bs) Running) (Life true (Built v bs) st)
| move_stopped v bs : moves (Life true (Built v bs) Stopping) (Life true (Built v bs) Finished).

Definition fresh : life := Life false NotBuilt Running.

Definition rank (l : life) : nat :=
  (if l_init l then 1 else 0) +
  match l_build l with NotBuilt => 0 | Creating => 1 | _ => 2 end +
  match l_stop l with Running => 0 | Stopping => 1 | _ => 2 end.

Lemma moves_rank l l' : moves l l' → (rank l < rank l')%nat.
Proof.
  destruct 1 as [| b st Hb | b st Hb | | v bs st Hs |]; unfold rank; cbn; try lia.
  - destruct b; cbn; try lia. by destruct Hb.
  - destruct b; cbn; try lia; done.
  - destruct Hs as [-> | ->]; lia.
Qed.

Lemma nsteps_rank n l l' : nsteps moves n l l' → (n + rank l <= rank l')%nat.
Proof. induction 1 as [|n l1 l2 l3 Hm%moves_rank _ IH]; lia. Qed.

Lemma rank_bound l : (rank l <= 5)%nat.
Proof. unfold rank. destruct (l_init l), (l_build l), (l_stop l); lia. Qed.

Lemma moves_built l l' v bs : rtc moves l l' → l_build l = Built v bs → l_build l' = Built v bs.
Proof. induction 1 as [|l1 l2 l3 Hm _ IH]; [done|]. intros Hb. apply IH. destruct Hm; cbn in *; congruence. Qed.

Lemma moves_finished l l' : rtc moves l l' → l_stop l = Finished → l_stop l' = Finished.
Proof. induction 1 as [|l1 l2 l3 Hm _ IH]; [done|]. intros Hb. apply IH. destruct Hm; cbn in *; congruence. Qed.

(** ** The lifecycle of a state *)

Definition create_weight (f : fiber) : Z := match fb_at f with AwaitCreate _ _ _ => 1 | _ => 0 end.
Definition hook_weight (f : fiber) : Z := match fb_at f with AwaitStopHook _ _ => 1 | _ => 0 end.

(** The calls of [create] and of the stop hook in flight. *)
Definition creating (s : state) : Z := total create_weight (fibers s).
Definition hooks (s : state) : Z := total hook_weight (fibers s).

Definition build_of (s : state) : construction :=
  match instance s with
  | Some v => Built v (providers s)
  | None => if negb (constructionAttempted s) then NotBuilt else if 0 <? creating s then Creating else Failed
  end.

Definition stop_of (s : state) : stopping :=
  if finishing s then Finished else if 0 <? hooks s then Stopping else if stopAttempted s then Refused else Running.

Definition life_of (s : state) : life := Life (bool_decide (is_Some (initialize s))) (build_of s) (stop_of s).

Definition ones (b : bool) : Z := if b then 1 else 0.

(** At most one call of each kind was ever made. *)
Record linv (s : state) : Prop := {
  l_once : 0 <= creating s ∧ creating s + ones (bool_decide (is_Some (instance s))) <= ones (constructionAttempted s);
  l_hook : 0 <= hooks s ∧ hooks s + ones (finishing s) <= ones (stopAttempted s);
  l_before : constructionAttempted s = true ∨ stopAttempted s = true → is_Some (initialize s);
  l_object : 0 < hooks s ∨ finishing s = true → is_Some (instance s) }.

(** What most segments leave alone. *)
Definition keeps (s s' : state) : Prop :=
  constructionAttempted s' = constructionAttempted s ∧ instance s' = instance s ∧ providers s' = providers s ∧
  stopAttempted s' = stopAttempted s ∧ finishing s' = finishing s ∧ creating s' = creating s ∧ hooks s' = hooks s.

Lemma keeps_trans s1 s2 s3 : keeps s1 s2 → keeps s2 s3 → keeps s1 s3.
Proof. unfold keeps. intros (-> & -> & -> & -> & -> & -> & ->). done. Qed.

Definition advances (s s' : state) : Prop := linv s' ∧ (life_of s' = life_of s ∨ moves (life_of s) (life_of s')).

(** A segment that keeps the lifecycle fields may set the initialization. *)
Lemma keeps_advances s s' :
  linv s → keeps s s' → (is_Some (initialize s) → is_Some (initialize s')) → advances s s'.
Proof.
  intros [H1 H2 H3 H4] (E1 & E2 & E3 & E4 & E5 & E6 & E7) Hi. split.
  - constructor; rewrite ?E1, ?E2, ?E4, ?E5, ?E6, ?E7; try done. auto.
  - assert (build_of s' = build_of s ∧ stop_of s' = stop_of s) as [Eb Es].
    { unfold build_of, stop_of. by rewrite E1, E2, E3, E4, E5, E6, E7. }
    unfold life_of. rewrite Eb, Es. destruct (initialize s) as [i|]; cbn.
    + destruct (initialize s'); [by left|]. by destruct Hi as [? [=]].
    + destruct (initialize s'); [right; constructor|by left].
Qed.

(** ** Segments *)

Section segments.
Context `{AuthoringProtocol, PluginCode}.
Variable definition : PluginDefinition.
Variable runtimeProfile : jsstr.
Variable bootstrap : Bootstrap.
Variable secret : list N.

Ltac by_keeps :=
  seg_unfold; repeat (case_match; cbn in *; simplify_eq; try done);
  unfold keeps, creating, hooks; cbn; rewrite ?total_app; cbn; split_and!; done || lia.

Lemma handlers_keep n r p q sa k s :
  keeps s (initialize_session bootstrap n r q s).1 ∧ keeps s (invoke n r p s).1 ∧
  keeps s (publish_event n r p s).1 ∧ keeps s (open_stream n r p s).1 ∧
  keeps s (send_stream n r sa s).1 ∧ keeps s (receive_stream n r sa s).1 ∧
  keeps s (close_send_stream n r sa s).1 ∧ keeps s (cancel_stream n r sa s).1 ∧ keeps s (cancel n r k s).1.
Proof. split_and!; by_keeps. Qed.

Lemma fetch_open_keeps n method s : keeps s (fetch_open n method s).1.
Proof. by_keeps. Qed.

Lemma bound_client_keeps n k cx route op payload elapsed s : keeps s (boundClient n k cx route op payload elapsed s).1.
Proof. by_keeps. Qed.

Lemma outbound_stream_keeps n o message s :
  keeps s (outbound_action n o message s).1 ∧ keeps s (outbound_receive n o s).1.
Proof. split; by_keeps. Qed.

Lemma outbound_cancel_keeps o s : keeps s (outbound_cancel o s).1.
Proof. unfold outbound_cancel. by_keeps. Qed.

Lemma cancel_outbounds_keeps os s : keeps s (cancel_outbounds os s).
Proof.
  revert s. induction os as [|o os IH]; intros s; [done|]. cbn. eapply keeps_trans; [apply outbound_cancel_keeps|apply IH].
Qed.

Lemma cancel_streams_keeps n l s : keeps s (cancel_streams n l s).1.1.
Proof.
  revert s; induction l as [|[id o] l IH]; intros s; cbn; [done|]. destruct (cancel_binding n id); [done|].
  set (t := match stream_heap s !! o with Some stream => _ | None => s end). specialize (IH t).
  destruct (cancel_streams n l t) as [[s' out] e]. eapply keeps_trans; [|exact IH]. unfold t.
  by destruct (stream_heap s !! o).
Qed.

Lemma stop_streams_keeps n s : keeps s (stop_streams n s).1.1.
Proof.
  unfold stop_streams. set (t := set_outboundStreams [] _).
  apply (keeps_trans _ t); [apply (cancel_outbounds_keeps _ s)|apply (cancel_streams_keeps _ _ t)].
Qed.

(** ** Construction *)

(** The end of [create] where none is in flight: the Plugin is built, or it has failed. *)
Lemma finish_construct_built n r i p cx c s :
  linv s → initialize s ≠ None → constructionAttempted s = true → instance s = None → creating s = 0 →
  let s' := (finish_construct definition n r i p cx c s).1 in
  linv s' ∧ initialize s' = initialize s ∧ stop_of s' = stop_of s ∧ ended (build_of s').
Proof.
  intros [_ H2 _ H4] Hi Ha Hn Hc s'.
  assert (finishing s = false ∧ hooks s = 0) as [Hf Hh].
  { rewrite Hn in H4. destruct (finishing s) eqn:Hf; [by destruct H4 as [? [=]]; auto|]. split; [done|].
    destruct (Z.eq_dec (hooks s) 0); [done|]. destruct H4 as [? [=]]. lia. }
  assert (initialize s' = initialize s ∧ constructionAttempted s' = true ∧ stopAttempted s' = stopAttempted s ∧
    finishing s' = false ∧ creating s' = 0 ∧ hooks s' = hooks s) as (E1 & E2 & E3 & E4 & E5 & E6).
  { unfold s'. seg_unfold. unfold creating, hooks in *. repeat (case_match; cbn in *; simplify_eq; try done). }
  split; [|split; [done|split; [unfold stop_of; by rewrite E3, E4, E6, Hf|]]].
  - constructor; rewrite ?E1, ?E2, ?E3, ?E4, ?E5, ?E6.
    + destruct (bool_decide _); cbn; lia.
    + by rewrite <-Hf.
    + intros _. by destruct (initialize s); [eexists|].
    + intros [?|[=]]. lia.
  - unfold build_of. rewrite E2, E5. by destruct (instance s').
Qed.

Lemma construct_advances n r p s : linv s → advances s (construct definition n r p s).1.
Proof.
  intros Hl. assert (advances s s) as Hrefl by (split; [done|by left]). unfold construct.
  destruct (initialize s) as [i|] eqn:Hi; [|done]. destruct (validateConstruct p _); [|done].
  destruct (constructionAttempted s) eqn:Ha; [done|]. cbn zeta.
  set (t := new_context _ _ (set_constructionAttempted true s)).
  destruct (l_once _ Hl) as [Hge H1]. rewrite Ha in H1. cbn in H1.
  assert (instance s = None ∧ creating s = 0) as [Hn Hc] by (destruct (instance s); cbn in H1; split; try done; lia).
  assert (Hlt : linv t).
  { destruct Hl as [_ H2 H3 H4]. constructor; [|done| |done].
    - change (instance t) with (instance s). change (creating t) with (creating s). rewrite Hn. cbn. lia.
    - intros _. by exists i. }
  assert (Hlife : life_of s = Life true NotBuilt (stop_of s)) by (unfold life_of, build_of; by rewrite Hi, Hn, Ha).
  assert (Hend : ∀ c, advances s (finish_construct definition n r i p (length (context_heap (set_constructionAttempted true s))) c t).1).
  { intros c. destruct (finish_construct_built n r i p (length (context_heap (set_constructionAttempted true s))) c t)
      as (Hl' & E & Es & He); [done|cbn; congruence|done|done|done|].
    split; [done|]. right. rewrite Hlife. unfold life_of. rewrite E, Es. cbn. rewrite Hi. apply move_construct. by right. }
  destruct (inputs _ i); [|apply Hend]. destruct (def_has_create definition); [|apply Hend].
  unfold await_call. cbn [fst].
  assert (Hcr : ∀ x, creating (suspend n r (AwaitCreate i p x) t).1 = 1 ∧ hooks (suspend n r (AwaitCreate i p x) t).1 = hooks s).
  { intros x. unfold creating, hooks in *. cbn. rewrite !total_app. cbn. lia. }
  destruct (Hcr (length (context_heap (set_constructionAttempted true s)))) as [E1 E2]. split.
  - destruct Hl as [_ H2 H3 H4]. constructor; rewrite ?E1, ?E2; try done.
    change (instance (suspend n r (AwaitCreate i p (length (context_heap (set_constructionAttempted true s)))) t).1) with (instance s).
    rewrite Hn. cbn. lia.
  - right. rewrite Hlife. unfold life_of, build_of, stop_of. rewrite E1, E2. cbn. rewrite Hi, Hn. cbn.
    apply move_construct. by left.
Qed.

Lemma created_advances n r i p cx c s t :
  linv s → creating s = creating t + 1 → hooks t = hooks s →
  (initialize t, constructionAttempted t, instance t, providers t, stopAttempted t, finishing t) =
    (initialize s, constructionAttempted s, instance s, providers s, stopAttempted s, finishing s) →
  0 <= creating t → advances s (finish_construct definition n r i p cx c t).1.
Proof.
  intros Hl Hc Hh [= E1 E2 E3 E4 E5 E6] Hge. destruct (l_once _ Hl) as [_ H1].
  assert (constructionAttempted s = true ∧ instance s = None ∧ creating t = 0) as (Ha & Hn & Hz).
  { destruct (constructionAttempted s), (instance s); cbn in H1; split_and!; try done; lia. }
  destruct (l_before _ Hl (or_introl Ha)) as [j Hj].
  assert (linv t) as Hlt.
  { destruct Hl as [_ H2 H3 H4]. constructor; rewrite ?E1, ?E2, ?E3, ?E5, ?E6, ?Hh; try done. rewrite Ha, Hn. cbn. lia. }
  destruct (finish_construct_built n r i p cx c t) as (Hl' & E & Es & He); [done|congruence|congruence|congruence|done|].
  split; [done|]. right. unfold life_of. rewrite E, Es, E1, Hj. unfold build_of at 1. rewrite Hn, Ha. cbn.
  replace (0 <? creating s) with true by (symmetry; apply Z.ltb_lt; lia).
  replace (stop_of t) with (stop_of s) by (unfold stop_of; by rewrite E5, E6, Hh). by constructor.
Qed.

(** ** Stopping *)

Lemma stop_of_running s : linv s → stopAttempted s = false → finishing s = false ∧ hooks s = 0 ∧ stop_of s = Running.
Proof.
  intros [_ H2 _ _] Hs. rewrite Hs in H2. cbn in H2. unfold stop_of. destruct (finishing s); cbn in H2; [lia|].
  assert (hooks s = 0) as -> by lia. by rewrite Hs.
Qed.

(** A stop that is refused once it was tried. *)
Lemma refused_advances s t i :
  linv s → initialize s = Some i → stopAttempted s = false → keeps (set_stopAttempted true s) t →
  is_Some (initialize t) → advances s t.
Proof.
  intros Hl Hi Ha (E1 & E2 & E3 & E4 & E5 & E6 & E7) Ei. destruct (stop_of_running s Hl Ha) as (Hf & Hh & Hr).
  cbn in E1, E2, E3, E4, E5. change (creating (set_stopAttempted true s)) with (creating s) in E6.
  change (hooks (set_stopAttempted true s)) with (hooks s) in E7. split.
  - destruct Hl as [H1 H2 H3 H4]. constructor; rewrite ?E1, ?E2, ?E4, ?E5, ?E6, ?E7, ?Hf, ?Hh; [done|cbn; lia|done|].
    intros [?|[=]]. lia.
  - right. unfold life_of. rewrite Hi, Hr.
    replace (build_of t) with (build_of s) by (unfold build_of; by rewrite E1, E2, E3, E6).
    replace (stop_of t) with Refused by (unfold stop_of; by rewrite E4, E5, E7, Hf, Hh).
    destruct Ei as [i' ->]. constructor.
Qed.

(** A stop that reaches the hook. *)
Lemma hook_advances n r p s t i :
  linv s → initialize s = Some i → stopAttempted s = false → keeps (set_stopAttempted true s) t →
  is_Some (initialize t) → advances s (stop_hook definition n r p t).1.
Proof.
  intros Hl Hi Ha Hk [i' Hi']. destruct (stop_of_running s Hl Ha) as (Hf & Hh & Hr). unfold stop_hook.
  destruct (instance t) as [v|] eqn:Hv; [|eapply refused_advances; try done; by exists i'].
  destruct Hk as (E1 & E2 & E3 & E4 & E5 & E6 & E7). cbn in E1, E2, E3, E4, E5.
  change (creating (set_stopAttempted true s)) with (creating s) in E6.
  change (hooks (set_stopAttempted true s)) with (hooks s) in E7. rewrite E2 in Hv.
  assert (Hgo : ∀ u st, constructionAttempted u = constructionAttempted s → instance u = Some v → providers u = providers s →
      stopAttempted u = true → creating u = creating s → is_Some (initialize u) → stop_of u = st →
      (st = Stopping ∧ finishing u = false ∧ hooks u = 1 ∨ st = Finished ∧ finishing u = true ∧ hooks u = 0) → advances s u).
  { intros u st U1 U2 U3 U4 U5 U6 U7 U8. split.
    - destruct Hl as [H1 _ _ _]. rewrite Hv in H1. constructor; rewrite ?U1, ?U2, ?U4, ?U5; [done| |done|done].
      destruct U8 as [(_ & -> & ->)|(_ & -> & ->)]; cbn; lia.
    - right. unfold life_of. rewrite Hi, Hr, U7. destruct U6 as [u' ->]. unfold build_of. rewrite U2, Hv, U3.
      apply move_stop. naive_solver. }
  assert (Hz : creating t = creating s ∧ hooks t = 0) by (by rewrite E6, E7). destruct Hz as [Hc Hz].
  destruct (def_has_stop definition).
  - apply (Hgo _ Stopping); try done.
    + cbn. congruence.
    + unfold creating in *. cbn. rewrite total_app. cbn. lia.
    + unfold stop_of, hooks in *. cbn. by rewrite total_app, Hz, E5, Hf.
    + left. split_and!; [done|cbn; congruence|]. unfold hooks in *. cbn. rewrite total_app, Hz. done.
  - apply (Hgo _ Finished); try done; [cbn; congruence|]. right. by split_and!.
Qed.

Lemma stop_advances m n r p s : linv s → accepted_within m s → advances s (stop definition n r p s).1.
Proof.
  intros Hl Hh. pose proof (nt_init _ _ (stop_streams_notified m n s Hh)) as Hn.
  pose proof (stop_streams_keeps n (set_stopAttempted true s)) as Hk.
  assert (∀ t, initialize s ≠ None → initialize t = initialize s → is_Some (initialize t)) as Hs.
  { intros t Hi ->. by destruct (initialize s); [eexists|]. }
  apply (stop_cases _ (fun x => advances s x.1)); cbn [fst].
  - intros e. split; [done|by left].
  - intros e Hi Ha. destruct (initialize s) as [i|] eqn:Hi'; [|done].
    eapply refused_advances; [done|done|done|done|]. by exists i.
  - intros t ids e Hi Ha <-. pose proof (Hs _ Hi Hn). destruct (initialize s) as [i|] eqn:Hi'; [|done].
    by eapply refused_advances.
  - intros t ids Hi Ha <-. pose proof (Hs _ Hi Hn). destruct (initialize s) as [i|] eqn:Hi'; [|done].
    by eapply hook_advances.
Qed.

Lemma hook_done_advances n r p cx c s t :
  linv s → hooks s = hooks t + 1 → creating t = creating s → 0 <= hooks t →
  (initialize t, constructionAttempted t, instance t, providers t, stopAttempted t, finishing t) =
    (initialize s, constructionAttempted s, instance s, providers s, stopAttempted s, finishing s) →
  advances s (stop_hook_done n r p cx c t).1.
Proof.
  intros Hl Hh Hc Hge [= E1 E2 E3 E4 E5 E6]. destruct (l_hook _ Hl) as [_ H2].
  assert (stopAttempted s = true ∧ finishing s = false ∧ hooks t = 0) as (Ha & Hf & Hz).
  { destruct (stopAttempted s), (finishing s); cbn in H2; split_and!; try done; lia. }
  destruct (l_before _ Hl (or_intror Ha)) as [i Hi]. destruct (l_object _ Hl) as [v Hv]; [left; lia|].
  assert (advances s (set_finishing true (delete_context cx t))) as Hgo.
  { split.
    - destruct Hl as [H1 _ _ _]. constructor.
      + change (0 <= creating t ∧ creating t + ones (bool_decide (is_Some (instance t))) <= ones (constructionAttempted t)).
        by rewrite Hc, E2, E3.
      + change (0 <= hooks t ∧ hooks t + 1 <= ones (stopAttempted t)). rewrite Hz, E5, Ha. cbn. lia.
      + intros _. exists i. cbn. congruence.
      + intros _. exists v. cbn. congruence.
    - right. unfold life_of, build_of, stop_of. cbn. rewrite E1, E3, E4, Hi, Hv, Hf.
      replace (0 <? hooks s) with true by (symmetry; apply Z.ltb_lt; lia). constructor. }
  unfold stop_hook_done, answer. by destruct c.
Qed.
(** ** Steps *)

Lemma fetch_body_advances m n limit bytes s :
  linv s → accepted_within m s → advances s (fetch_body definition bootstrap n limit bytes s).1.
Proof.
  intros Hl Hh. assert (Hk : ∀ t, keeps s t → frame s t → advances s t).
  { intros t Hk [E _]. apply keeps_advances; [done|done|by rewrite E]. }
  apply (request_cases _ _ (fun x => advances s x.1)); [intros _; by apply Hk|]. intros _. split; [intros e; by apply Hk|].
  intros v. set (r := RpcReply (request_id bytes) limit).
  destruct (handlers_keep n r (as_invoke v) (as_initialize v) (as_stream_action v) (as_cancel v) s)
    as (K1 & K2 & K3 & K4 & K5 & K6 & K7 & K8 & K9).
  destruct (handlers_frame definition bootstrap n r (as_invoke v) (as_initialize v) (as_construct v)
    (as_stream_action v) (as_cancel v) s) as (F1 & _ & F2 & F3 & F4 & F5 & F6 & F7 & F8 & F9).
  split_and!; [apply Hk; [exact K1|exact F1]|by apply construct_advances|apply Hk; [exact K2|exact F2]
    |apply Hk; [exact K3|exact F3]|apply Hk; [exact K4|exact F4]|apply Hk; [exact K5|exact F5]
    |apply Hk; [exact K6|exact F6]|apply Hk; [exact K7|exact F7]|apply Hk; [exact K8|exact F8]
    |apply Hk; [exact K9|exact F9]|by eapply stop_advances].
Qed.

(** The call that is resumed is no longer in flight. *)
Lemma removed_totals m s n f :
  inv bootstrap m s → find_fiber n (fibers s) = Some f →
  creating s = creating (remove_fiber n s) + create_weight f ∧ hooks s = hooks (remove_fiber n s) + hook_weight f.
Proof.
  intros Hi Hf. destruct (i_numbers _ _ _ Hi) as [Hnd _]. unfold creating, hooks. cbn.
  rewrite !(total_remove _ _ _ _ Hnd Hf). lia.
Qed.

Lemma resume_keeps n r at_ x seg s :
  resume_at definition runtimeProfile bootstrap secret n r at_ x = Some seg →
  match at_ with AwaitBody _ | AwaitCreate _ _ _ | AwaitStopHook _ _ => True | _ => keeps s (seg s).1 end.
Proof. destruct at_, x; try done; cbn [resume_at]; intros [= <-]; by_keeps. Qed.

Lemma weights_total l : 0 <= total create_weight l ∧ 0 <= total hook_weight l.
Proof. split; apply total_nonneg; intros [r []]; cbn; lia. Qed.

Lemma resume_advances m s n f x seg :
  inv bootstrap m s → linv s → find_fiber n (fibers s) = Some f →
  resume_at definition runtimeProfile bootstrap secret n (fb_reply f) (fb_at f) x = Some seg →
  (is_Some (initialize s) → is_Some (initialize (seg (remove_fiber n s)).1)) →
  advances s (seg (remove_fiber n s)).1.
Proof.
  intros Hi Hl Hf Hseg Hinit. destruct (removed_totals m s n f Hi Hf) as [Hc Hh].
  destruct (weights_total (fibers (remove_fiber n s))) as [Gc Gh].
  pose proof (resume_keeps _ _ _ _ _ (remove_fiber n s) Hseg) as Hk. destruct f as [r at_]. cbn [fb_at fb_reply] in *.
  assert (Hsame : create_weight {| fb_reply := r; fb_at := at_ |} = 0 → hook_weight {| fb_reply := r; fb_at := at_ |} = 0 →
    keeps s (remove_fiber n s)) by (intros Zc Zh; rewrite Zc in Hc; rewrite Zh in Hh; split_and!; try done; lia).
  destruct at_; unfold create_weight, hook_weight in Hc, Hh; cbn [fb_at] in Hc, Hh;
    try (apply keeps_advances; [done|eapply keeps_trans; [by apply Hsame|exact Hk]|exact Hinit]).
  - assert (advances s (remove_fiber n s)) as [Hl' Heq] by (apply keeps_advances; [done|by apply Hsame|done]).
    destruct x; try done; cbn in Hseg; injection Hseg as <-; [|by split].
    destruct (fetch_body_advances m n limit bytes (remove_fiber n s) Hl' (i_heap _ _ _ Hi)) as [Hr Hm]. split; [done|].
    assert (life_of s = life_of (remove_fiber n s)) as ->; [|done].
    destruct (Hsame eq_refl eq_refl) as (E1 & E2 & E3 & E4 & E5 & E6 & E7).
    unfold life_of, build_of, stop_of. by rewrite E1, E2, E3, E4, E5, E6, E7.
  - destruct x; try done. cbn in Hseg. injection Hseg as <-. apply created_advances; [done|done|lia|done|done].
  - destruct x; try done. cbn in Hseg. injection Hseg as <-. apply hook_done_advances; [done|done|lia|done|done].
Qed.

Lemma step_advances m s e s' out :
  inv bootstrap m s → linv s → V2.step definition runtimeProfile bootstrap secret s e = Some (s', out) → advances s s'.
Proof.
  intros Hi Hl Hs. pose proof (step_initialized _ _ _ _ _ _ _ _ _ Hi Hs) as Hinit.
  destruct e as [method|n x|k cx route op payload elapsed|o message|o|o|]; cbn [V2.step] in Hs;
    try (destruct (_ <? _)%nat; [|done]).
  2:{ destruct (find_fiber n (fibers s)) as [f|] eqn:Hf; [|done]. apply fmap_Some in Hs as (seg & Hseg & Hs).
      apply (f_equal fst) in Hs. cbn in Hs. subst s'. by eapply resume_advances. }
  6:{ destruct (finishing s); [|done]. destruct (stopped s); [done|]. injection Hs as <- <-. by apply keeps_advances. }
  1: destruct (stopped s); [done|].
  all: injection Hs as Hs; apply (f_equal fst) in Hs; cbn [fst] in Hs; subst s'; unfold spawn in *;
    (apply keeps_advances; [done| |exact Hinit]).
  all: set (t := set_nextFiber (S (nextFiber s)) s); apply (keeps_trans _ t); [done|].
  - apply fetch_open_keeps.
  - apply bound_client_keeps.
  - apply outbound_stream_keeps.
  - apply (outbound_stream_keeps _ _ None).
  - apply outbound_cancel_keeps.
Qed.

Lemma empty_linv : linv empty_state.
Proof. constructor; cbn; try (split; done); [by intros [[=]|[=]]|by intros [?|[=]]]. Qed.

Lemma reachable_linv s :
  reachable definition runtimeProfile bootstrap secret s → linv s ∧ rtc moves fresh (life_of s).
Proof.
  induction 1 as [|s e s' out Hr [Hl Hm] Hs]; [split; [apply empty_linv|apply rtc_refl]|].
  destruct (authoring_reachable_inv _ _ _ _ _ Hr) as [m Hinv].
  destruct (step_advances m s e s' out Hinv Hl Hs) as [Hl' [-> | Hv]]; [done|]. split; [done|]. by eapply rtc_r.
Qed.

(** C12: the Authoring V2 server refines its lifecycle, however requests interleave.  Every step
    of the server leaves the lifecycle as it is or makes one of its moves: initialization (a second
    handshake verified at the same time may replace what was agreed, not the move), the
    one attempt at construction and its end, the one attempt at a stop, which is refused for good
    or runs the hook of a Plugin that was built, and the end of the hook.  So the lifecycle of a
    reachable state comes from that of a fresh server in at most five moves; [create] and the
    stop hook are in flight at most once and never again after they ended; a Plugin that is built
    keeps its object and its providers, and a server that has finished stays so. *)
Theorem authoring_lifecycle_refines s :
  reachable definition runtimeProfile bootstrap secret s →
  (∃ k, nsteps moves k fresh (life_of s) ∧ (k <= 5)%nat) ∧
  (creating s + ones (bool_decide (is_Some (instance s))) <= 1 ∧ hooks s + ones (finishing s) <= 1) ∧
  (∀ e s' out, V2.step definition runtimeProfile bootstrap secret s e = Some (s', out) →
     (life_of s' = life_of s ∨ moves (life_of s) (life_of s')) ∧
     (∀ v, instance s = Some v → instance s' = Some v ∧ providers s' = providers s) ∧
     (finishing s = true → finishing s' = true)).
Proof.
  intros Hr. destruct (reachable_linv s Hr) as [Hl Hm]. split; [|split].
  - apply rtc_nsteps in Hm as [k Hk]. exists k. split; [done|]. apply nsteps_rank in Hk.
    pose proof (rank_bound (life_of s)). lia.
  - destruct (l_once _ Hl) as [_ ?], (l_hook _ Hl) as [_ ?]. destruct (constructionAttempted s), (stopAttempted s); cbn in *; lia.
  - intros e s' out Hs. destruct (authoring_reachable_inv _ _ _ _ _ Hr) as [m Hinv].
    destruct (step_advances m s e s' out Hinv Hl Hs) as [_ Hv]. split; [done|].
    assert (rtc moves (life_of s) (life_of s')) as Hmv by (destruct Hv as [->|Hv]; [apply rtc_refl|by apply rtc_once]).
    split.
    + intros v Ev. pose proof (moves_built _ _ v (providers s) Hmv) as Hb. unfold life_of, build_of in Hb. cbn in Hb.
      rewrite Ev in Hb. specialize (Hb eq_refl). destruct (instance s'); [by injection Hb as <- <-|].
      by repeat case_match.
    + intros Ef. pose proof (moves_finished _ _ Hmv) as Hb. unfold life_of, stop_of in Hb. cbn in Hb.
      rewrite Ef in Hb. specialize (Hb eq_refl). by repeat case_match.
Qed.
End segments.
