(* ===== verification/V2Answers.v ===== *)
(** * Answers and callbacks of the Authoring V2 server

    Every call that starts is answered exactly once, and every message the server posts
    to the Host carries an identifier of its own. *)

From Stdlib Require Import ZArith.
From S2P Require Import Prelude JsValue Text Json Authoring V2 V2Invariant V2Correct.

Local Open Scope Z_scope.

(** ** What a segment says *)

(** The identifiers of the callback requests among the outputs. *)
Definition posted_id (o : output) : option jsstr :=
  match o with
  | Posted _ _ (JObj fs) => match field fs "id" with JStr id => Some id | _ => None end
  | _ => None
  end.

Definition posted_ids (out : list output) : list jsstr := omap posted_id out.

(** The calls the outputs answer. *)
Definition answered_call (o : output) : option nat :=
  match o with
  | Answered n _ | FetchRejected n | ToPlugin n _ | StreamToPlugin n _ | PluginRejected n _ => Some n
  | Called _ _ | Posted _ _ _ | CancelBinding _ => None
  end.

Definition answers (out : list output) : list nat := omap answered_call out.

(** A notification nobody waits for. *)
Definition quiet (f : fiber) : bool :=
  match fb_at f with AwaitProof _ CbStreamCancel _ _ | AwaitFetch _ CbStreamCancel => true | _ => false end.

(** The calls that are suspended and will be answered. *)
Definition open_calls (s : state) : list nat := map fst (List.filter (fun e => negb (quiet e.2)) (fibers s)).

Definition posts (t : state) (r : state * list output) : Prop :=
  (nextCallbackId r.1 = nextCallbackId t ∧ posted_ids r.2 = []) ∨
  (nextCallbackId r.1 = nextCallbackId t + 1 ∧ posted_ids r.2 = [dec (nextCallbackId t)]).

(** A segment of call [n] answers it or leaves it suspended; a notification does neither. *)
Definition speaks (n : nat) (silent : bool) (t : state) (r : state * list output) : Prop :=
  posts t r ∧
  if silent then answers r.2 = [] ∧ open_calls r.1 = open_calls t
  else (answers r.2 = [n] ∧ open_calls r.1 = open_calls t) ∨
       (answers r.2 = [] ∧ open_calls r.1 = open_calls t ++ [n]).

Lemma open_calls_app s s' new :
  fibers s' = fibers s ++ new →
  open_calls s' = open_calls s ++ map fst (List.filter (fun e => negb (quiet e.2)) new).
Proof. intros E. unfold open_calls. by rewrite E, List.filter_app, map_app. Qed.

Lemma says_answer n t t' o :
  fibers t' = fibers t → nextCallbackId t' = nextCallbackId t → answered_call o = Some n → posted_id o = None →
  speaks n false t (t', [o]).
Proof.
  intros E1 E2 Ho Hp. split; [left; cbn; by rewrite Hp|]. left. cbn. rewrite Ho. split; [done|].
  unfold open_calls. by rewrite E1.
Qed.

Lemma says_suspend n t t' f :
  fibers t' = fibers t ++ [(n, f)] → nextCallbackId t' = nextCallbackId t → quiet f = false →
  speaks n false t (t', []).
Proof.
  intros E1 E2 Hq. split; [by left|]. right. split; [done|]. cbn [fst].
  rewrite (open_calls_app t t' _ E1). cbn. by rewrite Hq.
Qed.

Lemma says_call n t t' f c :
  fibers t' = fibers t ++ [(n, f)] → nextCallbackId t' = nextCallbackId t → quiet f = false →
  speaks n false t (t', [Called n c]).
Proof.
  intros E1 E2 Hq. split; [by left|]. right. split; [done|]. cbn [fst].
  rewrite (open_calls_app t t' _ E1). cbn. by rewrite Hq.
Qed.

(** Cancelling bindings is not an answer. *)
Lemma says_cancel n silent t t' ids out :
  speaks n silent t (t', out) → speaks n silent t (t', map CancelBinding ids ++ out).
Proof.
  assert (posted_ids (map CancelBinding ids ++ out) = posted_ids out) as E1.
  { induction ids as [|x ids IH]; [done|]. cbn. apply IH. }
  assert (answers (map CancelBinding ids ++ out) = answers out) as E2.
  { clear E1. induction ids as [|x ids IH]; [done|]. cbn. apply IH. }
  unfold speaks, posts. cbn [fst snd]. by rewrite E1, E2.
Qed.

(** The state the segment starts from may be reached by silent steps. *)
Lemma says_after n silent s t r :
  open_calls t = open_calls s → nextCallbackId t = nextCallbackId s → speaks n silent t r → speaks n silent s r.
Proof. unfold speaks, posts. by intros -> ->. Qed.

Ltac by_speaks :=
  seg_unfold; unfold succeed, reject in *;
  repeat (case_match; cbn in *; simplify_eq; try done);
  first [apply says_answer; reflexivity|eapply says_suspend; reflexivity|eapply says_call; reflexivity].

Section answers.
Context `{AuthoringProtocol, PluginCode}.
Variable definition : PluginDefinition.
Variable runtimeProfile : jsstr.
Variable bootstrap : Bootstrap.
Variable secret : list N.

Abbreviation step := (step definition runtimeProfile bootstrap secret).
Abbreviation run := (run definition runtimeProfile bootstrap secret).

Lemma handlers_speak n r p q c sa k s :
  speaks n false s (initialize_session bootstrap n r q s) ∧ speaks n false s (construct definition n r c s) ∧
  speaks n false s (invoke n r p s) ∧ speaks n false s (publish_event n r p s) ∧
  speaks n false s (open_stream n r p s) ∧
  speaks n false s (send_stream n r sa s) ∧ speaks n false s (receive_stream n r sa s) ∧
  speaks n false s (close_send_stream n r sa s) ∧ speaks n false s (cancel n r k s).
Proof. split_and!; by_speaks. Qed.

Lemma cancel_stream_speaks n r p s : speaks n false s (cancel_stream n r p s).
Proof.
  unfold cancel_stream, stream_action. destruct (initialize s) as [i|]; [|by_speaks].
  destruct (validateStreamAction _ _ _); [|by_speaks].
  destruct (_ ≫= _) as [[o stream]|]; [|by_speaks].
  cbn zeta. apply (says_cancel n false s _ [sa_stream_id p]). destruct (cancel_binding _ _); by_speaks.
Qed.

Lemma notified_open s s' : notified s s' → open_calls s' = open_calls s ∧ nextCallbackId s' = nextCallbackId s.
Proof.
  intros Hn. split; [|apply Hn]. destruct (nt_fibers _ _ Hn) as (new & E & Hnew & _).
  rewrite (open_calls_app s s' new E). rewrite <- (app_nil_r (open_calls s)) at 2. f_equal.
  clear E. induction new as [|[m f] new IH]; [done|]. cbn.
  destruct (Hnew m f) as (? & ? & ? & -> & _); [by left|]. cbn. apply IH. intros; eapply Hnew; by right.
Qed.

Lemma refused_speaks n r e s : speaks n false s (refused n r e s).
Proof. by_speaks. Qed.

Lemma stop_speaks m n r p s : accepted_within m s → speaks n false s (stop definition n r p s).
Proof.
  intros Hh. destruct (notified_open _ _ (stop_streams_notified m n s Hh)) as [E1 E2].
  apply (stop_cases _ (speaks n false s)).
  - intros e. apply refused_speaks.
  - intros e _ _. apply (says_after _ _ s (set_stopAttempted true s)); [done|done|apply refused_speaks].
  - intros t ids e _ _ <-. apply says_cancel. eapply says_after; [exact E1|exact E2|apply refused_speaks].
  - intros t ids _ _ <-. apply says_cancel. set (t := (stop_streams n (set_stopAttempted true s)).1.1) in *.
    apply (says_after _ _ s (set_streams [] t)); [exact E1|exact E2|].
    unfold stop_hook. destruct (instance _); [destruct (def_has_stop definition)|]; by_speaks.
Qed.

Lemma fetch_body_speaks m n limit bytes s :
  accepted_within m s → speaks n false s (fetch_body definition bootstrap n limit bytes s).
Proof.
  intros Hh. apply request_cases; [intros _; by apply says_answer|]. intros _. split; [intros; apply refused_speaks|]. intros v.
  destruct (handlers_speak n (RpcReply (request_id bytes) limit) (as_invoke v) (as_initialize v) (as_construct v)
    (as_stream_action v) (as_cancel v) s) as (T1 & T2 & T3 & T4 & T5 & T6 & T7 & T8 & T9).
  split_and!; [exact T1|exact T2|exact T3|exact T4|exact T5|exact T6|exact T7|exact T8|apply cancel_stream_speaks
              |exact T9|by eapply stop_speaks].
Qed.

Lemma post_speaks n r i k method params s :
  speaks n (quiet {| fb_reply := r; fb_at := AwaitProof i k method params |}) s
    (post_callback secret n r i k method params s).
Proof.
  split; [right; by split|]. unfold post_callback, suspend. cbn [fst snd].
  set (t := set_fibers _ _).
  pose proof (open_calls_app s t [(n, {| fb_reply := r; fb_at := AwaitFetch i k |})] eq_refl) as E.
  destruct k; cbn in E |- *; rewrite E; first [right; done|split; [done|]; apply app_nil_r].
Qed.

Lemma opened_speaks n r p cx c s : speaks n false s (opened n r p cx c s).
Proof.
  unfold opened. destruct c as [[|v|f]|e]; [destruct (aborted cx s)|..]; try (by_speaks; fail).
  cbn zeta. apply (says_cancel n false s _ [correlation_id p]). destruct (cancel_binding _ _); by_speaks.
Qed.

Lemma resume_speaks m n r at_ x seg s :
  accepted_within m s → resume_at definition runtimeProfile bootstrap secret n r at_ x = Some seg →
  speaks n (quiet {| fb_reply := r; fb_at := at_ |}) s (seg s).
Proof.
  intros Hh. destruct at_, x; try done; cbn [resume_at]; intros [= <-];
    first [apply post_speaks|unfold quiet; cbn [fb_at]].
  { by eapply fetch_body_speaks. }
  { by apply says_answer. }
  all: try (apply opened_speaks).
  all: try (by_speaks; fail).
  destruct k; try (by_speaks; fail). cbn. split; [by left|done].
Qed.

Lemma fetch_open_speaks n method t : speaks n false t (fetch_open n method t).
Proof. unfold fetch_open. case_match; [by apply says_answer|by_speaks]. Qed.

Lemma outbound_speaks n k cx route op payload elapsed t :
  speaks n false t (boundClient n k cx route op payload elapsed t).
Proof.
  unfold boundClient, outbound. destruct (negb _); [apply refused_speaks|].
  destruct (initialize t) as [i|] eqn:Hi, (context_heap t !! cx); try apply refused_speaks.
  destruct (cx_aborted _); [by apply says_answer|]. destruct (outbound_full _ _ _); [by apply says_answer|].
  unfold callback_from. cbn. rewrite Hi. by destruct k; eapply says_suspend.
Qed.

Lemma outbound_stream_speaks m n o message t :
  accepted_within m t → (o < length (outbound_heap t))%nat →
  speaks n false t (outbound_action n o message t) ∧ speaks n false t (outbound_receive n o t).
Proof.
  intros Hh [stream Ho]%lookup_lt_is_Some. destruct (aw_streams _ _ Hh o stream Ho) as [[i Hi] _].
  unfold outbound_action, outbound_receive. rewrite Ho.
  destruct (os_closed stream); [split; by apply says_answer|]. cbn zeta.
  split; (destruct (_ <=? _); [by apply says_answer|]); unfold callback_from; cbn; rewrite Hi;
    by eapply says_suspend.
Qed.

Lemma outbound_cancel_speaks m n o t : accepted_within m t → speaks n true t (outbound_cancel o t).
Proof.
  intros Hh. pose proof (outbound_cancel_notified m o t Hh) as Hn. destruct (notified_open _ _ Hn) as [E1 E2].
  assert ((outbound_cancel o t).2 = []) as E.
  { unfold outbound_cancel. destruct (outbound_heap t !! o) as [stream|] eqn:Ho; [|done].
    destruct (os_closed stream); [done|]. unfold callback_from. cbn. unfold finish_outbound. rewrite Ho. cbn.
    by destruct (aw_streams _ _ Hh o stream Ho) as [[i ->] _]. }
  split; [left|]; by rewrite E.
Qed.

(** The call a step starts, unless it is a notification. *)
Definition started (s : state) (e : event) : list nat :=
  match e with Resume _ _ | OutboundCancel _ | StopTimer => [] | _ => [nextFiber s] end.

Lemma open_calls_remove n f s :
  NoDup (map fst (fibers s)) → find_fiber n (fibers s) = Some f →
  open_calls s ≡ₚ (if quiet f then [] else [n]) ++ open_calls (remove_fiber n s).
Proof.
  intros Hnd Hf. destruct (fiber_split n f _ Hnd Hf) as (l1 & l2 & E1 & E2 & _).
  unfold open_calls, remove_fiber. cbn [fibers set_fibers]. rewrite E2, E1, !List.filter_app, !map_app. cbn.
  destruct (quiet f); cbn; [done|]. by rewrite <- Permutation_middle.
Qed.

Lemma speaks_conserves n silent t r :
  speaks n silent t r → answers r.2 ++ open_calls r.1 ≡ₚ (if silent then [] else [n]) ++ open_calls t.
Proof.
  intros [_ Hs]. destruct silent; [destruct Hs as [-> ->]; done|].
  destruct Hs as [[-> ->]|[-> ->]]; [done|]. cbn. by rewrite Permutation_app_comm.
Qed.

Lemma step_speaks m s e s' out :
  inv bootstrap m s → step s e = Some (s', out) →
  posts s (s', out) ∧ answers out ++ open_calls s' ≡ₚ started s e ++ open_calls s.
Proof.
  intros Hi Hs.
  assert (∀ n silent seg, speaks n silent (set_nextFiber (S (nextFiber s)) s) seg → speaks n silent s seg) as Hsp by done.
  destruct e as [method|n x|k cx route op payload elapsed|o message|o|o|]; cbn [V2.step] in Hs.
  - destruct (stopped s); [done|]. injection Hs as Hs.
    pose proof (Hsp _ _ _ (fetch_open_speaks (nextFiber s) method (set_nextFiber (S (nextFiber s)) s))) as Hq.
    unfold spawn in Hs. rewrite Hs in Hq. split; [apply Hq|apply (speaks_conserves _ _ _ _ Hq)].
  - destruct (find_fiber n (fibers s)) as [f|] eqn:Hf; [|done].
    apply fmap_Some in Hs as (seg & Hseg & Hs).
    assert (speaks n (quiet f) (remove_fiber n s) (s', out)) as Hsp'.
    { rewrite Hs. replace f with {| fb_reply := fb_reply f; fb_at := fb_at f |} at 1 by (by destruct f).
      eapply resume_speaks; [apply (i_heap _ _ _ Hi)|done]. }
    split; [apply Hsp'|]. rewrite (speaks_conserves _ _ _ _ Hsp'). cbn.
    by rewrite (open_calls_remove n f s (proj1 (i_numbers _ _ _ Hi)) Hf).
  - injection Hs as Hs.
    pose proof (Hsp _ _ _ (outbound_speaks (nextFiber s) k cx route op payload elapsed (set_nextFiber (S (nextFiber s)) s))) as Hq.
    unfold spawn in Hs. rewrite Hs in Hq. split; [apply Hq|apply (speaks_conserves _ _ _ _ Hq)].
  - destruct (Nat.ltb_spec o (length (outbound_heap s))); [|done]. injection Hs as Hs.
    destruct (outbound_stream_speaks m (nextFiber s) o message (set_nextFiber (S (nextFiber s)) s)) as [Hq%Hsp _];
      [apply Hi|done|]. unfold spawn in Hs. rewrite Hs in Hq. split; [apply Hq|apply (speaks_conserves _ _ _ _ Hq)].
  - destruct (Nat.ltb_spec o (length (outbound_heap s))); [|done]. injection Hs as Hs.
    destruct (outbound_stream_speaks m (nextFiber s) o None (set_nextFiber (S (nextFiber s)) s)) as [_ Hq%Hsp];
      [apply Hi|done|]. unfold spawn in Hs. rewrite Hs in Hq. split; [apply Hq|apply (speaks_conserves _ _ _ _ Hq)].
  - destruct (Nat.ltb_spec o (length (outbound_heap s))); [|done]. injection Hs as Hs.
    pose proof (Hsp _ _ _ (outbound_cancel_speaks m (nextFiber s) o (set_nextFiber (S (nextFiber s)) s) (i_heap _ _ _ Hi))) as Hq.
    unfold spawn in Hs. rewrite Hs in Hq. split; [apply Hq|apply (speaks_conserves _ _ _ _ Hq)].  - destruct (finishing s); [|done]. destruct (stopped s); [done|]. injection Hs as <- <-. split; [by left|done].
Qed.

(** The executions of a server, with everything it has said. *)
Inductive trace : state → list output → Prop :=
| trace_start : trace empty_state []
| trace_step s out e s' o :
    trace s out → step s e = Some (s', o) → trace s' (out ++ o).

Lemma trace_reaches s out : trace s out → reachable definition runtimeProfile bootstrap secret s.
Proof. induction 1; [apply reach_start|by eapply reach_step]. Qed.

Lemma authoring_trace_inv s out : trace s out → ∃ m, inv bootstrap m s.
Proof. intros Htr%trace_reaches. by eapply authoring_reachable_inv. Qed.

Lemma open_numbers s n : n ∈ open_calls s → n ∈ map fst (fibers s).
Proof.
  unfold open_calls. intros ([m f] & -> & Hm)%list_elem_of_fmap. rewrite list_elem_of_In in Hm.
  apply List.filter_In in Hm as [Hm _]. apply list_elem_of_fmap. exists (m, f). by rewrite list_elem_of_In.
Qed.

Lemma step_number m s e s' o :
  inv bootstrap m s → step s e = Some (s', o) → (nextFiber s + length (started s e) <= nextFiber s')%nat.
Proof.
  intros Hi Hs.
  destruct (step_cases _ _ _ _ m _ _ _ _ Hs) as [(k & E & Hk)|[(n & f & x & seg & -> & Hf & Hseg & E)|(-> & _ & E)]];
    apply (f_equal fst) in E; cbn in E; subst s'.
  - unfold spawn.
    destruct (Hk (nextFiber s) (set_nextFiber (S (nextFiber s)) s) (i_heap _ _ _ Hi)) as (_ & (? & _ & Hle & _) & _).
    cbn in Hle. destruct e; cbn; lia.
  - pose proof (find_fiber_in _ _ _ Hf) as Hin. destruct (i_numbers _ _ _ Hi) as [Hnd Hlt].
    apply (resume_extends definition runtimeProfile bootstrap secret m n _ _ _ _ (remove_fiber n s)) in Hseg
      as (? & _ & Hle & _); [cbn in *; lia|apply (i_heap _ _ _ Hi)| |].
    + apply Hlt. apply list_elem_of_fmap. by exists (n, f).
    + destruct f. by apply (i_captured _ _ _ Hi n _ Hin).
  - cbn. lia.
Qed.

Lemma trace_calls s out :
  trace s out → NoDup (answers out ++ open_calls s) ∧ ∀ n, n ∈ answers out ++ open_calls s → (n < nextFiber s)%nat.
Proof.
  induction 1 as [|s out e s' o Htr [IHn IHl] Hs]; [split; [apply NoDup_nil_2|by intros ? ?%elem_of_nil]|].
  destruct (authoring_trace_inv _ _ Htr) as [m Hi]. destruct (step_speaks _ _ _ _ _ Hi Hs) as [_ Hc].
  pose proof (step_number _ _ _ _ _ Hi Hs) as Hnum.
  assert (answers (out ++ o) = answers out ++ answers o) as E by apply omap_app.
  assert (answers (out ++ o) ++ open_calls s' ≡ₚ started s e ++ (answers out ++ open_calls s)) as Hperm.
  { rewrite E, <- app_assoc, Hc, !app_assoc, (Permutation_app_comm (answers out)). done. }
  split.
  - rewrite Hperm. apply NoDup_app. split_and!; [destruct e; first [apply NoDup_nil_2|apply NoDup_singleton]| |done].
    intros n Hn Hn'%IHl. destruct e; cbn in Hn; first [by apply elem_of_nil in Hn|apply list_elem_of_singleton in Hn; lia].
  - intros n Hn. rewrite Hperm in Hn. apply elem_of_app in Hn as [Hn|Hn%IHl]; [|lia].
    destruct e; cbn in Hn, Hnum; first [by apply elem_of_nil in Hn|apply list_elem_of_singleton in Hn; lia].
Qed.

(** C2: every call that starts, a request of the Host or an outbound call of the plugin, is
    answered at most once and never lost, in every execution.  Through a whole execution the
    calls answered and the calls still suspended are pairwise distinct; and no step loses one:
    those it answers and those then suspended are together the one it started and those
    suspended before. *)
Theorem authoring_answered_once s out :
  trace s out →
  NoDup (answers out ++ open_calls s) ∧
  ∀ e s' o, step s e = Some (s', o) → answers o ++ open_calls s' ≡ₚ started s e ++ open_calls s.
Proof.
  intros Htr. split; [by apply trace_calls|]. intros e s' o Hs. destruct (authoring_trace_inv _ _ Htr). by eapply step_speaks.
Qed.

(** The callback requests of an execution carry the identifiers 1, 2, 3, ... in the
    order they are posted, so no two of them share one. *)
Theorem authoring_callback_ids s out :
  trace s out →
  posted_ids out = map dec (seqZ 1 (nextCallbackId s - 1)) ∧ NoDup (posted_ids out).
Proof.
  intros Htr. assert (posted_ids out = map dec (seqZ 1 (nextCallbackId s - 1)) ∧ 1 <= nextCallbackId s) as [E _].
  { induction Htr as [|s out e s' o Htr [IH Hle] Hs]; [done|].
    destruct (authoring_trace_inv _ _ Htr) as [m Hi]. destruct (step_speaks _ _ _ _ _ Hi Hs) as [Hp _].
    assert (posted_ids (out ++ o) = posted_ids out ++ posted_ids o) as -> by apply omap_app.
    rewrite IH. destruct Hp as [[E1 E2]|[E1 E2]]; cbn [fst snd] in E1, E2; rewrite E1, E2.
    - by rewrite app_nil_r.
    - replace (nextCallbackId s + 1 - 1) with ((nextCallbackId s - 1) + 1) by lia.
      rewrite seqZ_app, map_app by lia. split; [|lia]. f_equal.
      assert (seqZ (1 + (nextCallbackId s - 1)) 1 = [nextCallbackId s]) as ->; [|done].
      rewrite seqZ_cons by lia. change (Z.pred 1) with 0. rewrite seqZ_nil by lia. f_equal. lia. }
  split; [done|]. rewrite E. apply NoDup_fmap_2; [|apply NoDup_seqZ]. intros a b. apply dec_inj.
Qed.
End answers.
