(* ===== verification/V2Wire.v ===== *)
(** * Scopes, failures and the admitted proposal (v2.ts)

    The values the Authoring V2 server puts on the wire: the scope of an outbound call,
    the form of a runtime failure, the outcome of an invocation; and the exact condition
    under which a proposal of the Host matches the plugin's declaration. *)

From Stdlib Require Import ZArith.
From S2P Require Import Prelude JsValue Text Json Authoring V2.

Local Open Scope Z_scope.

(** ** Scopes *)

(** An outbound call runs in a scope below its parent's: it names the parent, keeps
    its permissions and extensions, has what is left of its budget (never more than the
    parent was given, and nothing once the time is used up), and two outbound calls of
    one parent have different scopes. *)
Theorem outbound_scope_narrows parent id elapsed :
  let child := outboundScope parent id elapsed in
  parent_scope_id child = Some (scope_id parent) ∧ permissions child = permissions parent ∧
  scope_extensions child = scope_extensions parent ∧
  (remaining_budget_nanos child <= remaining_budget_nanos parent)%N ∧
  (0 <= elapsed → Z.of_N (remaining_budget_nanos child) = Z.max 0 (Z.of_N (remaining_budget_nanos parent) - elapsed)) ∧
  (∀ id' elapsed', scope_id child = scope_id (outboundScope parent id' elapsed') → id = id').
Proof.
  cbn. unfold remaining_nanoseconds. split_and!; try done.
  - destruct (Z.leb_spec (Z.of_N (remaining_budget_nanos parent)) (Z.max 0 elapsed)); lia.
  - intros He. destruct (Z.leb_spec (Z.of_N (remaining_budget_nanos parent)) (Z.max 0 elapsed)); lia.
  - intros id' _ E. apply app_inv_head in E. by injection E.
Qed.

(** ** Failures *)

(** What the protocol lets a failure of each of its kinds carry beside the kind. *)
Definition protocol_failures (correlation capability operation : jsstr) : list (string * list (string * jsstr)) :=
  [("cancelled", [("request_id", correlation)]);
   ("deadline_exceeded", [("request_id", correlation)]);
   ("resource_exhausted", [("capability", capability); ("operation", operation)]);
   ("unknown_operation", [("capability", capability); ("operation", operation)]);
   ("protocol_violation", [("capability", capability)]);
   ("admission_closed", [])]%string.

Definition failure_fields (kind : string) (fields : list (string * jsstr)) : RuntimeFailure :=
  (js "kind", JStr (js kind)) :: map (fun e => (js e.1, JStr e.2)) fields.

(** C36: a runtime failure crosses to the Host in one of seven forms.  A failure of one of the
    six kinds of the protocol has exactly the fields of that kind (the request identifier, the
    capability, the capability and the operation, or none), with the values of the invocation
    and not what the plugin put beside them; any other failure is exactly a plugin failure with
    a detail of at most 1026 bytes, made of its own detail or, without one, of its kind. *)
Theorem wire_failure_forms failure correlation capability operation :
  let wire := normalizeRuntimeFailure failure correlation capability operation in
  (∀ kind fields, (kind, fields) ∈ protocol_failures correlation capability operation →
     field failure "kind" = JStr (js kind) → wire = failure_fields kind fields) ∧
  ((∀ kind fields, (kind, fields) ∈ protocol_failures correlation capability operation →
      field failure "kind" ≠ JStr (js kind)) →
   ∃ detail, wire = failure_fields "plugin_failure" [("detail"%string, detail)] ∧ byteLength detail <= 1026 ∧
     detail = AuthoringDetail.authoring_boundedError (ThrownValue
       (match field failure "detail" with JUndef | JNull => field failure "kind" | own => own end))).
Proof.
  cbn zeta. unfold normalizeRuntimeFailure. generalize (field failure "kind") as kind. intros kind. split.
  - unfold protocol_failures. intros k fields Hin ->.
    repeat (apply elem_of_cons in Hin as [[= -> ->]|Hin]; [reflexivity|]). by apply elem_of_nil in Hin.
  - intros Hno. assert (∀ k fields, (k, fields) ∈ protocol_failures correlation capability operation → is_str kind k = false) as Hk.
    { intros k fields Hin. destruct (is_str kind k) eqn:E; [|done]. apply Authoring.is_str_true in E. by destruct (Hno k fields Hin). }
    rewrite (Hk "cancelled"%string _ (list_elem_of_here _ _)).
    do 5 (erewrite Hk by (unfold protocol_failures; repeat first [left|right])). cbn [orb].
    eexists. split; [reflexivity|]. split; [apply authoring_detail_bound|done].
Qed.

(** ** The admitted proposal *)

Section definition.
Context `{AuthoringProtocol}.
Variable definition : PluginDefinition.
Variable runtimeProfile : jsstr.

Lemma validate_bind {A} (m : throws unit) (k : throws A) r : (m;; k) = Ok r ↔ m = Ok tt ∧ k = Ok r.
Proof.
  rewrite bind_Ok. split; [intros ([] & ? & ?); done|]. intros []. by exists tt.
Qed.

Lemma find_match_Ok {A} (p : A → bool) (m : A → jsstr) l :
  match List.find (fun x => negb (p x)) l with Some x => fail (m x) | None => mret tt end = Ok tt ↔
  ∀ x, x ∈ l → p x = true.
Proof.
  destruct (List.find _ l) as [x|] eqn:Hf.
  - rewrite fail_Ok. apply find_Some_iff in Hf as [Hin Hp]. split; [done|]. intros Hall.
    rewrite (Hall x Hin) in Hp. done.
  - split; [|done]. intros _ x Hx. apply (proj1 (find_None_iff _ _)) with (x := x) in Hf; [|done].
    by apply negb_false_iff in Hf.
Qed.

Lemma find_pair_Ok (p : jsstr → raw_dependency → bool) (m : jsstr → jsstr) (l : list (jsstr * raw_dependency)) :
  match List.find (fun e => negb (p e.1 e.2)) l with Some (name, _) => fail (m name) | None => mret tt end = Ok tt ↔
  ∀ e, e ∈ l → p e.1 e.2 = true.
Proof.
  rewrite <- (find_match_Ok (fun e => p e.1 e.2) (fun e => m e.1)).
  destruct (List.find _ l) as [[name raw]|]; done.
Qed.

Lemma validateDefinition_Ok i :
  validateDefinition definition runtimeProfile i = Ok tt ↔
  validateInitializeForRuntimeProfile i runtimeProfile = Ok tt ∧ api_version i = AUTHORING_API_VERSION ∧
  map rd_requirement_id (required_declarations i) =
    sort_strings (map (fun e => dependency_id e.1 e.2) (default [] (def_dependencies definition))) ∧
  (∀ e, e ∈ default [] (def_dependencies definition) → requirement_matches i e.1 e.2 = true) ∧
  length (provided_endpoints i) = length (def_providers definition) ∧
  (∀ e, e ∈ provided_endpoints i → endpoint_matches (def_providers definition) e = true).
Proof.
  unfold validateDefinition. rewrite validate_bind, !guard_Ok, validate_bind, guard_Ok, find_pair_Ok, find_match_Ok.
  rewrite !negb_false_iff, !bool_decide_eq_true, Nat.eqb_eq. unfold declared_dependencies, names_json.
  split.
  - intros (? & ? & Hn & ? & ? & ?). apply json_strings_inj in Hn. by split_and!.
  - intros (? & ? & -> & ? & ? & ?). by split_and!.
Qed.

(** The first element that satisfies a condition. *)
Definition first_of {A} (P : A → Prop) (l : list A) (x : A) : Prop :=
  ∃ before after, l = before ++ x :: after ∧ P x ∧ ∀ y, y ∈ before → ¬ P y.

Lemma find_first {A} (P : A → Prop) `{!∀ x, Decision (P x)} l x :
  List.find (fun x => bool_decide (P x)) l = Some x ↔ first_of P l x.
Proof.
  split.
  - induction l as [|y l IH]; cbn; [done|]. case_bool_decide as Hy.
    + intros [= ->]. exists [], l. split; [done|]. split; [done|]. by intros ? ?%elem_of_nil.
    + intros (before & after & -> & Hx & Hb)%IH. exists (y :: before), after. split; [done|]. split; [done|].
      intros z [->|Hz]%elem_of_cons; auto.
  - intros (before & after & -> & Hx & Hb). induction before as [|y before IH]; cbn.
    + by rewrite bool_decide_true.
    + rewrite bool_decide_false by (apply Hb; by left). apply IH. intros z Hz. apply Hb. by right.
Qed.

(** A digest that is declared is the admitted one. *)
Definition same_digest (declared : option jsstr) (admitted : jsstr) : Prop := ∀ d, declared = Some d → d = admitted.

Lemma digest_agrees_true declared admitted : digest_agrees declared admitted = true ↔ same_digest declared admitted.
Proof.
  unfold digest_agrees, same_digest. destruct declared as [d|]; [|done]. rewrite bool_decide_eq_true.
  split; [by intros -> ? [= ->]|auto].
Qed.

(** The requirement that is admitted for a dependency asks for what was declared. *)
Definition admits_dependency (i : InitializeParams) (name : jsstr) (raw : raw_dependency) : Prop :=
  ∃ kind id contract cardinality admitted,
    raw = DependencyDeclaration kind id contract cardinality ∧
    first_of (fun c => rd_requirement_id c = default name id) (required_declarations i) admitted ∧
    rd_cardinality admitted = cardinality ∧ rd_capability_id admitted = capability_id contract ∧
    rd_descriptor_version admitted = descriptor_version contract ∧
    same_digest (descriptor_digest contract) (rd_descriptor_digest admitted).

Lemma requirement_matches_true i name raw : requirement_matches i name raw = true ↔ admits_dependency i name raw.
Proof.
  unfold requirement_matches, admits_dependency. split.
  - destruct (List.find _ _) as [admitted|] eqn:E; [|done]. destruct raw as [|d|kind id contract cardinality]; try done.
    rewrite !andb_true_iff, !bool_decide_eq_true, digest_agrees_true. intros [[[-> E2] E3] E4].
    exists kind, id, contract, (rd_cardinality admitted), admitted. split_and!; try done. by apply find_first in E.
  - intros (kind & id & contract & cardinality & admitted & -> & E & <- & <- & <- & Hd).
    apply (proj2 (find_first _ _ _)) in E.
    cbn [dependency_id]. rewrite E, !bool_decide_true by done. by apply digest_agrees_true.
Qed.

(** The provider that is found for an endpoint has the contract the endpoint names. *)
Definition admits_endpoint (providers : list PluginProvider) (e : ProvidedEndpoint) : Prop :=
  ∃ d, first_of (fun d => capability_id d = pe_capability_id e) (map pp_descriptor providers) d ∧
    descriptor_version d = pe_descriptor_version e ∧ same_digest (descriptor_digest d) (pe_descriptor_digest e).

Lemma endpoint_matches_true providers e : endpoint_matches providers e = true ↔ admits_endpoint providers e.
Proof.
  unfold endpoint_matches, admits_endpoint. split.
  - destruct (List.find _ _) as [d|] eqn:E; [|done]. rewrite andb_true_iff, bool_decide_eq_true, digest_agrees_true.
    intros [? ?]. exists d. split_and!; try done. by apply find_first in E.
  - intros (d & E & Hv & Hd). apply (proj2 (find_first _ _ _)) in E. rewrite E, bool_decide_true by done. by apply digest_agrees_true.
Qed.

(** C35: a proposal is accepted exactly when its profile is valid for the runtime and its version
    is the supported one; the identifiers of its requirements are those of the declared
    dependencies, sorted; the requirement found for each dependency has the declared
    cardinality, capability and version, and the declared digest where one is declared; and
    there are as many endpoints as providers, and the first provider of the capability an
    endpoint names has the version of the endpoint and, where it declares one, its digest. *)
Theorem proposal_exact i :
  validateDefinition definition runtimeProfile i = Ok tt ↔
  validateInitializeForRuntimeProfile i runtimeProfile = Ok tt ∧ api_version i = AUTHORING_API_VERSION ∧
  map rd_requirement_id (required_declarations i) =
    sort_strings (map (fun e => dependency_id e.1 e.2) (default [] (def_dependencies definition))) ∧
  (∀ name raw, (name, raw) ∈ default [] (def_dependencies definition) → admits_dependency i name raw) ∧
  length (provided_endpoints i) = length (def_providers definition) ∧
  (∀ e, e ∈ provided_endpoints i → admits_endpoint (def_providers definition) e).
Proof.
  rewrite validateDefinition_Ok. setoid_rewrite endpoint_matches_true. setoid_rewrite requirement_matches_true.
  split; intros (H1 & H2 & H3 & H4 & H5 & H6); split_and!; try done.
  - intros name raw Hin. by apply (H4 (name, raw)).
  - intros [name raw] Hin. by apply H4.
Qed.
End definition.
