(* ===== verification/V2Framing.v ===== *)
(** * Requests and responses on the wire of the Authoring V2 server

    The bytes the Host sends and the text it gets back: a request is dispatched with the
    method and the parameters it carries, every response belongs to one request, carries
    its identifier and fits the frame limit that was in force when the request arrived, and
    what a response says can be read from it. *)

From Stdlib Require Import ZArith SpecFloat.
From S2P Require Import Prelude JsValue Text Json JsonText Authoring V2 V2Invariant V2Correct V2Answers.

Local Open Scope Z_scope.

(** ** The messages *)

(** The two forms of a JSON-RPC response. *)
Inductive rpc_response (id : jsval) : jsval → Prop :=
| RpcResult v : rpc_response id (JObj [(js "jsonrpc", JStr (js "2.0")); (js "id", id); (js "result", v)])
| RpcError e : rpc_response id (JObj [(js "jsonrpc", JStr (js "2.0")); (js "id", id);
    (js "error", JObj [(js "code", JNum (num (-32602))); (js "message", JStr (AuthoringDetail.authoring_boundedError e))])]).

(** The limit [#fetch] reads a request and writes its response under. *)
Definition frame_limit (s : state) : Z :=
  match initialize s with Some i => max_frame_bytes (limits i) | None => 1048576 end.

(** ** Reading a response *)

Lemma response_reads v limit :
  portable v = true →
  match body (boundedJsonResponse v limit) with
  | Some text => status (boundedJsonResponse v limit) = 200 ∧ byteLength text <= limit ∧
                 json_parse (decode (encode text)) = Some v
  | None => status (boundedJsonResponse v limit) = 507 ∧ limit < json_bytes v
  end.
Proof.
  intros Hv. unfold boundedJsonResponse, json_bytes. destruct (Z.ltb_spec limit (byteLength (json_text v))); [done|].
  split; [done|]. split; [done|]. by apply wire_roundtrip.
Qed.

Lemma bounded_body v limit text : body (boundedJsonResponse v limit) = Some text → byteLength text <= limit.
Proof. unfold boundedJsonResponse, json_bytes. destruct (Z.ltb_spec limit (byteLength (json_text v))); [done|]. by intros [= <-]. Qed.

Lemma portable_result id v :
  portable id = true → portable v = true →
  portable (JObj [(js "jsonrpc", JStr (js "2.0")); (js "id", id); (js "result", v)]) = true.
Proof.
  intros Hi Hv. cbn [portable]. rewrite bool_decide_true by reflexivity. cbn [forallb fst snd portable].
  rewrite Hi, Hv. reflexivity.
Qed.

(** ** One segment *)

(** The response settles the call that waits for [r]. *)
Definition settles (r : reply) (resp : Response) : Prop :=
  match r with
  | RpcReply id limit => ∃ v, rpc_response id v ∧ resp = boundedJsonResponse v limit
  | PluginReply => False
  end.

Definition reads_body (f : fiber) : bool := match fb_at f with AwaitBody _ => true | _ => false end.

(** What a segment of call [n] says and leaves suspended is for the waiter of that call. *)
Definition passes (n : nat) (r : reply) (t : state) (res : state * list output) : Prop :=
  (∀ m resp, Answered m resp ∈ res.2 → m = n ∧ settles r resp) ∧
  (∀ m f, (m, f) ∈ fibers res.1 →
     (m, f) ∈ fibers t ∨ reads_body f = false ∧ (fb_reply f = PluginReply ∨ m = n ∧ fb_reply f = r)).

#[local] Arguments succeed : simpl never.
#[local] Arguments reject : simpl never.

Lemma passes_succeed n r t t' v : fibers t' = fibers t → passes n r t (t', [succeed n r v]).
Proof.
  intros E. split; cbn [fst snd]; [|rewrite E; auto]. intros m resp Hr%list_elem_of_singleton.
  destruct r as [id limit|]; [|done]. injection Hr as -> ->. split; [done|]. eexists. split; [apply RpcResult|done].
Qed.

Lemma passes_reject n r t t' e : fibers t' = fibers t → passes n r t (t', [reject n r e]).
Proof.
  intros E. split; cbn [fst snd]; [|rewrite E; auto]. intros m resp Hr%list_elem_of_singleton.
  destruct r as [id limit|]; [|done]. injection Hr as -> ->. split; [done|]. eexists. split; [apply RpcError|done].
Qed.

Lemma passes_suspend n r t t' at_ :
  fibers t' = fibers t ++ [(n, {| fb_reply := r; fb_at := at_ |})] → reads_body {| fb_reply := r; fb_at := at_ |} = false →
  passes n r t (t', []).
Proof.
  intros E Hb. split; cbn [fst snd]; [by intros ? ? ?%elem_of_nil|]. rewrite E.
  intros m f [Hm|[= -> ->]%list_elem_of_singleton]%elem_of_app; auto.
Qed.

Lemma passes_call n r t t' at_ c :
  fibers t' = fibers t ++ [(n, {| fb_reply := r; fb_at := at_ |})] → reads_body {| fb_reply := r; fb_at := at_ |} = false →
  passes n r t (t', [Called n c]).
Proof.
  intros E Hb. destruct (passes_suspend n r t t' at_ E Hb) as [_ H2]. split; [|done].
  by intros m resp ?%list_elem_of_singleton.
Qed.

(** Other outputs answer no request. *)
Definition unanswered (o : output) : bool := match o with Answered _ _ => false | _ => true end.

Lemma passes_more n r t t' out more :
  forallb unanswered more = true → passes n r t (t', out) → passes n r t (t', more ++ out).
Proof.
  intros Hm [H1 H2]. split; [|done]. intros m resp [Hin|]%elem_of_app; [|by apply H1].
  rewrite forallb_forall in Hm. apply list_elem_of_In in Hin. by specialize (Hm _ Hin).
Qed.

Lemma passes_silent n r t t' out : fibers t' = fibers t → forallb unanswered out = true → passes n r t (t', out).
Proof.
  intros E Hm. rewrite <-(app_nil_r out). apply passes_more; [done|]. split; cbn [fst snd]; [by intros ? ? ?%elem_of_nil|].
  rewrite E. auto.
Qed.

Definition notification (f : fiber) : Prop := reads_body f = false ∧ fb_reply f = PluginReply.

(** Notifications started on the way are of no call. *)
Lemma passes_after n r s t res :
  (∀ m f, (m, f) ∈ fibers t → (m, f) ∈ fibers s ∨ notification f) → passes n r t res → passes n r s res.
Proof.
  intros Hf [H1 H2]. split; [done|]. intros m f [Hm|Hm]%H2; [|by auto]. destruct (Hf m f Hm) as [|[? ?]]; auto.
Qed.

Ltac by_passes :=
  seg_unfold;
  repeat (case_match; cbn in *; simplify_eq; try done); cbn [fst snd];
  match goal with
  | |- passes _ _ _ (_, [succeed _ _ _]) => apply passes_succeed; reflexivity
  | |- passes _ _ _ (_, [reject _ _ _]) => apply passes_reject; reflexivity
  | |- passes _ _ _ (_, [Called _ _]) => eapply passes_call; reflexivity
  | |- passes _ _ _ (_, []) => first [eapply passes_suspend; reflexivity|apply passes_silent; reflexivity]
  | |- _ => apply passes_silent; reflexivity
  end.

#[local] Opaque succeed reject.

Section framing.
Context `{AuthoringProtocol, PluginCode}.
Variable definition : PluginDefinition.
Variable runtimeProfile : jsstr.
Variable bootstrap : Bootstrap.
Variable secret : list N.

Abbreviation step := (step definition runtimeProfile bootstrap secret).
Abbreviation run := (run definition runtimeProfile bootstrap secret).

Lemma handlers_pass n r p q c sa k s :
  passes n r s (initialize_session bootstrap n r q s) ∧ passes n r s (construct definition n r c s) ∧
  passes n r s (invoke n r p s) ∧ passes n r s (publish_event n r p s) ∧
  passes n r s (open_stream n r p s) ∧
  passes n r s (send_stream n r sa s) ∧ passes n r s (receive_stream n r sa s) ∧
  passes n r s (close_send_stream n r sa s) ∧ passes n r s (cancel n r k s).
Proof. split_and!; by_passes. Qed.

Lemma cancel_stream_passes n r p s : passes n r s (cancel_stream n r p s).
Proof.
  unfold cancel_stream, stream_action. destruct (initialize s) as [i|]; [|by_passes].
  destruct (validateStreamAction _ _ _); [|by_passes].
  destruct (_ ≫= _) as [[o stream]|]; [|by_passes].
  cbn zeta. apply (passes_more n r s _ _ [CancelBinding (sa_stream_id p)]); [done|]. destruct (cancel_binding _ _); by_passes.
Qed.

Lemma outbound_cancel_fibers o t m f :
  (m, f) ∈ fibers (outbound_cancel o t).1 → (m, f) ∈ fibers t ∨ notification f.
Proof.
  unfold outbound_cancel. destruct (outbound_heap t !! o) as [stream|] eqn:Ho; [|auto].
  destruct (os_closed stream); [auto|]. unfold callback_from, finish_outbound. cbn. rewrite Ho. cbn.
  destruct (initialize t); cbn; [|auto]. by intros [Hm|[= -> ->]%list_elem_of_singleton]%elem_of_app; [left|right].
Qed.

Lemma stop_streams_fibers n t m f :
  (m, f) ∈ fibers (stop_streams n t).1.1 → (m, f) ∈ fibers t ∨ notification f.
Proof.
  unfold stop_streams. assert (Hd : ∀ l s, fibers (cancel_streams n l s).1.1 = fibers s).
  { induction l as [|[id o] l IH]; intros s; cbn; [done|]. destruct (cancel_binding n id); [done|].
    set (u := match stream_heap s !! o with Some stream => _ | None => s end). specialize (IH u).
    destruct (cancel_streams n l u) as [[s' out] e]. cbn in IH |- *. rewrite IH. unfold u.
    by destruct (stream_heap s !! o). }
  rewrite Hd. cbn. generalize (map snd (outboundStreams t)). intros os. revert t.
  induction os as [|o os IH]; intros t; cbn; [auto|]. intros [Hm|]%IH; [|auto]. by apply outbound_cancel_fibers in Hm.
Qed.

Lemma stop_passes n r p s : passes n r s (stop definition n r p s).
Proof.
  assert (∀ ids, forallb unanswered (map CancelBinding ids) = true) as Hu by (by induction ids).
  apply (stop_cases _ (passes n r s)).
  - intros e. by apply passes_reject.
  - intros e _ _. by apply passes_reject.
  - intros t ids e _ _ <-. apply passes_more; [apply Hu|].
    apply (passes_after _ _ s (stop_streams n (set_stopAttempted true s)).1.1); [|by apply passes_reject].
    intros m f Hm%stop_streams_fibers. done.
  - intros t ids _ _ <-. apply passes_more; [apply Hu|].
    apply (passes_after _ _ s (set_streams [] (stop_streams n (set_stopAttempted true s)).1.1)).
    { intros m f Hm. apply (stop_streams_fibers n (set_stopAttempted true s)). exact Hm. }
    unfold stop_hook. destruct (instance _); [destruct (def_has_stop definition)|]; by_passes.
Qed.

(** A request that fits the limit is answered under its own identifier. *)
Lemma fetch_body_passes n limit bytes s :
  Z.of_nat (length bytes) <= limit →
  passes n (RpcReply (request_id bytes) limit) s (fetch_body definition bootstrap n limit bytes s).
Proof.
  intros Hl. apply request_cases; [lia|]. intros _. split; [intros; by apply passes_reject|]. intros v.
  destruct (handlers_pass n (RpcReply (request_id bytes) limit) (as_invoke v) (as_initialize v) (as_construct v)
    (as_stream_action v) (as_cancel v) s) as (T1 & T2 & T3 & T4 & T5 & T6 & T7 & T8 & T9).
  split_and!; [exact T1|exact T2|exact T3|exact T4|exact T5|exact T6|exact T7|exact T8|apply cancel_stream_passes
              |exact T9|by apply stop_passes].
Qed.

Lemma opened_passes n r p cx c s : passes n r s (opened n r p cx c s).
Proof.
  unfold opened. destruct c as [[|v|f]|e]; [destruct (aborted cx s)|..]; try (by_passes; fail).
  cbn zeta. apply (passes_more n r s _ _ [CancelBinding (correlation_id p)]); [done|]. destruct (cancel_binding _ _); by_passes.
Qed.

Lemma post_passes n r i k method params s : passes n r s (post_callback secret n r i k method params s).
Proof.
  apply (passes_more n r s _ [] [_]); [done|]. by eapply passes_suspend.
Qed.

(** A call that has read its body is answered, or stays suspended, with the waiter it had. *)
Lemma resume_passes n f x seg s :
  reads_body f = false → resume_at definition runtimeProfile bootstrap secret n (fb_reply f) (fb_at f) x = Some seg →
  passes n (fb_reply f) s (seg s).
Proof.
  destruct f as [r at_]. unfold reads_body. cbn [fb_at fb_reply]. intros Hb.
  destruct at_, x; try done; cbn [resume_at]; intros [= <-];
    first [apply post_passes|apply opened_passes|idtac].
  all: try (by_passes; fail).
Qed.

Lemma fetch_open_cases n method t :
  fetch_open n method t =
    if bool_decide (method = js "POST") then
      (set_fibers (fibers t ++ [(n, {| fb_reply := RpcReply JNull (frame_limit t); fb_at := AwaitBody (frame_limit t) |})]) t, [])
    else (t, [Answered n {| status := 405; body := None |}]).
Proof. unfold fetch_open. by destruct (bool_decide _). Qed.

Lemma outbound_passes n k cx route op payload elapsed t :
  passes n PluginReply t (boundClient n k cx route op payload elapsed t).
Proof. by_passes. Qed.

Lemma outbound_stream_passes n o message t :
  passes n PluginReply t (outbound_action n o message t) ∧ passes n PluginReply t (outbound_receive n o t) ∧
  passes n PluginReply t (outbound_cancel o t).
Proof.
  split_and!; [by_passes..|]. split; [|intros m f Hm%outbound_cancel_fibers; unfold notification in *; tauto].
  intros m resp. unfold outbound_cancel. destruct (outbound_heap t !! o) as [stream|]; [|by intros ?%elem_of_nil].
  destruct (os_closed stream); [by intros ?%elem_of_nil|]. unfold callback_from, refused_with, refused, suspend.
  cbn zeta. destruct (initialize _); cbn [snd]; [by intros ?%elem_of_nil|]. by intros ?%list_elem_of_singleton.
Qed.

(** ** A request that JSON can carry *)

Lemma request_dispatched n limit id method params s :
  portable id = true → units method = true → portable params = true →
  let request := rpc_request id method params in
  fetch_body definition bootstrap n limit (encode (json_text request)) s =
    if limit <? json_bytes request then (s, [Answered n {| status := 413; body := None |}])
    else dispatch definition bootstrap n (RpcReply id limit) method
           (match params with JArr [p] => p | p => p end) s.
Proof.
  intros Hi Hm Hp request.
  unfold fetch_body. destruct (wire_roundtrip request) as [_ ->]; [by apply portable_request|].
  change (Z.of_nat (length (encode (json_text request)))) with (json_bytes request).
  destruct (limit <? json_bytes request); [done|]. unfold request, rpc_request.
  destruct (request_fields id method params) as (-> & -> & -> & ->).
  rewrite (bool_decide_false (id = JUndef)) by (by intros ->). by destruct params as [| | | | |[|? []]| |].
Qed.

(** C6: the wire of the Authoring V2 server loses nothing.  A request with portable
    parameters, sent as UTF-8 JSON text, runs exactly the handler of its method on exactly its
    parameters (the element of a one-element array) and waits under its own identifier, or is
    refused with 413 and changes nothing when it is over the frame limit; a portable result is
    read back from the response as the result under that identifier, or the response is 507,
    without a body, exactly when it would be over the limit. *)
Theorem authoring_wire_roundtrip n limit id method params result s :
  portable id = true → units method = true → portable params = true → portable result = true →
  let request := rpc_request id method params in
  let response := JObj [(js "jsonrpc", JStr (js "2.0")); (js "id", id); (js "result", result)] in
  fetch_body definition bootstrap n limit (encode (json_text request)) s =
    (if limit <? json_bytes request then (s, [Answered n {| status := 413; body := None |}])
     else dispatch definition bootstrap n (RpcReply id limit) method
            (match params with JArr [p] => p | p => p end) s) ∧
  ∃ resp, succeed n (RpcReply id limit) result = Answered n resp ∧
    match body resp with
    | Some text => status resp = 200 ∧ byteLength text <= limit ∧ json_parse (decode (encode text)) = Some response
    | None => status resp = 507 ∧ limit < json_bytes response
    end.
Proof.
  intros Hi Hm Hp Hr request response. split.
  - by apply request_dispatched.
  - eexists. split; [by with_strategy transparent [succeed] unfold succeed|]. by apply response_reads, portable_result.
Qed.

(** ** Whole runs *)

(** In the run, request [n] arrived with this method when [limit] was in force. *)
Definition arrived (es : list event) (n : nat) (method : jsstr) (limit : Z) : Prop :=
  ∃ es1 es2 s1 out1, es = es1 ++ Request method :: es2 ∧ run empty_state es1 = Some (s1, out1) ∧
                     nextFiber s1 = n ∧ frame_limit s1 = limit.

(** What the response to request [n] may be. *)
Definition responds (es : list event) (n : nat) (resp : Response) : Prop :=
  ∃ method limit, arrived es n method limit ∧
    if bool_decide (method = js "POST") then
      ∃ bytes, Resume n (BodyRead bytes) ∈ es ∧
        if limit <? Z.of_nat (length bytes) then resp = {| status := 413; body := None |}
        else settles (RpcReply (request_id bytes) limit) resp
    else resp = {| status := 405; body := None |}.

(** The waiter of a suspended call is the request it came from. *)
Definition waits (es : list event) (n : nat) (f : fiber) : Prop :=
  match fb_reply f with
  | PluginReply => reads_body f = false
  | RpcReply id limit =>
      arrived es n (js "POST") limit ∧
      if reads_body f then fb_at f = AwaitBody limit
      else ∃ bytes, Resume n (BodyRead bytes) ∈ es ∧ Z.of_nat (length bytes) <= limit ∧ id = request_id bytes
  end.

Lemma arrived_more es e n method limit : arrived es n method limit → arrived (es ++ [e]) n method limit.
Proof.
  intros (es1 & es2 & s1 & out1 & -> & H1 & H2 & H3). exists es1, (es2 ++ [e]), s1, out1.
  split_and!; try done. by rewrite <-app_assoc.
Qed.

Lemma waits_more es e n f : waits es n f → waits (es ++ [e]) n f.
Proof.
  unfold waits. destruct (fb_reply f) as [id limit|]; [|done]. intros [Ha Hb]. split; [by apply arrived_more|].
  destruct (reads_body f); [done|]. destruct Hb as (bytes & Hin & ?). exists bytes. split; [|done].
  apply elem_of_app. by left.
Qed.

Lemma responds_more es e n resp : responds es n resp → responds (es ++ [e]) n resp.
Proof.
  intros (method & limit & Ha & Hb). exists method, limit. split; [by apply arrived_more|].
  destruct (bool_decide _); [|done]. destruct Hb as (bytes & Hin & ?). exists bytes. split; [|done].
  apply elem_of_app. by left.
Qed.

Lemma run_snoc s es e s' out :
  run s (es ++ [e]) = Some (s', out) →
  ∃ s1 out1 o, run s es = Some (s1, out1) ∧ step s1 e = Some (s', o) ∧ out = out1 ++ o.
Proof.
  revert s s' out. induction es as [|d es IH]; intros s s' out; cbn [app V2.run].
  - destruct (step s e) as [[s1 o]|] eqn:Es; [|done]. intros [= <- <-]. exists s, [], o. by rewrite app_nil_r.
  - destruct (step s d) as [[s1 o]|]; [|done]. destruct (run s1 (es ++ [e])) as [[s2 o2]|] eqn:Er; [|done].
    intros [= <- <-]. destruct (IH _ _ _ Er) as (s3 & out3 & o3 & -> & Hs & ->).
    exists s3, (o ++ out3), o3. by rewrite app_assoc.
Qed.

Definition exchanges (es : list event) (s : state) (out : list output) : Prop :=
  (∀ n f, (n, f) ∈ fibers s → waits es n f) ∧ (∀ n resp, Answered n resp ∈ out → responds es n resp).

(** What a call that has read its body says and leaves suspended is for its request. *)
Lemma passes_exchanges es n r t s' out :
  passes n r t (s', out) → (∀ m f, (m, f) ∈ fibers t → waits es m f) →
  (∀ f, fb_reply f = r → reads_body f = false → waits es n f) → exchanges es s' out.
Proof.
  intros [Ha Hf] Ht Hr. split.
  - intros m f [Hm|[Hb [Hp|[-> Hp]]]]%Hf; [by apply Ht| |by apply Hr]. unfold waits. by rewrite Hp.
  - intros m resp [-> Hs]%Ha. destruct r as [id limit|]; [|done].
    destruct (Hr {| fb_reply := RpcReply id limit; fb_at := AwaitVerify (as_initialize JNull) [] |}) as [Harr (bytes & Hin & Hl & ->)];
      [done|done|].
    exists (js "POST"), limit. split; [done|]. rewrite bool_decide_true by done. exists bytes. split; [done|].
    by destruct (Z.ltb_spec limit (Z.of_nat (length bytes))); [lia|].
Qed.

Lemma request_exchanges es method s out s' o :
  run empty_state es = Some (s, out) → (∀ n f, (n, f) ∈ fibers s → waits es n f) →
  fetch_open (nextFiber s) method (set_nextFiber (S (nextFiber s)) s) = (s', o) →
  exchanges (es ++ [Request method]) s' o.
Proof.
  intros Hrun Hw. rewrite fetch_open_cases.
  assert (Harr : arrived (es ++ [Request method]) (nextFiber s) method (frame_limit s)) by (by exists es, [], s, out).
  destruct (bool_decide (method = js "POST")) eqn:Hm; intros [= <- <-]; split.
  - apply bool_decide_eq_true in Hm as ->.
    intros n f [Hin|[= -> ->]%list_elem_of_singleton]%elem_of_app; [by apply waits_more, Hw|by split].
  - by intros ? ? ?%elem_of_nil.
  - intros n f Hin. by apply waits_more, Hw.
  - intros n resp [= -> ->]%list_elem_of_singleton. exists method, (frame_limit s). split; [done|]. by rewrite Hm.
Qed.

Lemma resume_exchanges es n f x seg s s' o :
  (∀ n f, (n, f) ∈ fibers s → waits es n f) → find_fiber n (fibers s) = Some f →
  resume_at definition runtimeProfile bootstrap secret n (fb_reply f) (fb_at f) x = Some seg →
  seg (remove_fiber n s) = (s', o) → exchanges (es ++ [Resume n x]) s' o.
Proof.
  intros Hw Hf%find_fiber_in Hseg Hs.
  assert (Hold : ∀ m g, (m, g) ∈ fibers (remove_fiber n s) → waits (es ++ [Resume n x]) m g).
  { intros m g [_ Hg]%list_elem_of_filter. by apply waits_more, Hw. }
  pose proof (waits_more _ (Resume n x) _ _ (Hw _ _ Hf)) as Hn. destruct (reads_body f) eqn:Hb.
  - unfold waits in Hn. rewrite Hb in Hn. destruct (fb_reply f) as [id limit|]; [|done]. destruct Hn as [Harr Hat].
    rewrite Hat in Hseg. destruct x as [bytes| | | | | | | | | | |]; try done; injection Hseg as <-.
    2: { injection Hs as <- <-. split; [done|]. by intros m resp ?%list_elem_of_singleton. }
    assert (Hin : Resume n (BodyRead bytes) ∈ es ++ [Resume n (BodyRead bytes)]) by (apply elem_of_app; right; by left).
    destruct (Z.ltb_spec limit (Z.of_nat (length bytes))) as [Hl|Hl].
    + unfold fetch_body in Hs. rewrite (proj2 (Z.ltb_lt _ _) Hl) in Hs. injection Hs as <- <-. split; [done|].
      intros m resp [= -> ->]%list_elem_of_singleton. exists (js "POST"), limit. split; [done|].
      rewrite bool_decide_true by done. exists bytes. split; [done|]. by rewrite (proj2 (Z.ltb_lt _ _) Hl).
    + pose proof (fetch_body_passes n limit bytes (remove_fiber n s) Hl) as Hp. rewrite Hs in Hp.
      apply (passes_exchanges _ _ _ _ _ _ Hp Hold). intros g Hg Hgb. unfold waits. rewrite Hg, Hgb. eauto.
  - pose proof (resume_passes n f x seg (remove_fiber n s) Hb Hseg) as Hp. rewrite Hs in Hp.
    apply (passes_exchanges _ _ _ _ _ _ Hp Hold). intros g Hg Hgb. unfold waits in Hn |- *.
    rewrite Hb in Hn. by rewrite Hg, Hgb.
Qed.

Lemma exchanges_step es e s out s' o :
  run empty_state es = Some (s, out) → (∀ n f, (n, f) ∈ fibers s → waits es n f) → step s e = Some (s', o) →
  exchanges (es ++ [e]) s' o.
Proof.
  intros Hrun Hw Hs.
  assert (Hplug : ∀ n t, fibers t = fibers s → passes n PluginReply t (s', o) → exchanges (es ++ [e]) s' o).
  { intros n t E Hp. apply (passes_exchanges _ _ _ _ _ _ Hp); [rewrite E; intros; by apply waits_more, Hw|].
    intros f Hf Hb. unfold waits. by rewrite Hf. }
  destruct e as [method|n x|k cx route op payload elapsed|u message|u|u|]; cbn [V2.step] in Hs;
    try (destruct (_ <? _)%nat; [|done]); unfold spawn in Hs;
    try (injection Hs as Hs; apply (Hplug (nextFiber s) (set_nextFiber (S (nextFiber s)) s)); [done|]; rewrite <-Hs).
  - destruct (stopped s); [done|]. injection Hs as Hs. by eapply request_exchanges.
  - destruct (find_fiber n (fibers s)) as [f|] eqn:Hf; [|done]. apply fmap_Some in Hs as (seg & Hseg & Hs).
    by eapply resume_exchanges.
  - apply outbound_passes.
  - apply outbound_stream_passes.
  - by apply (outbound_stream_passes _ _ None).
  - by apply (outbound_stream_passes _ _ None).
  - destruct (finishing s); [|done]. destruct (stopped s); [done|]. injection Hs as <- <-.
    split; [|by intros ? ? ?%elem_of_nil]. intros n f Hin. by apply waits_more, Hw.
Qed.

Lemma run_exchanges es s out : run empty_state es = Some (s, out) → exchanges es s out.
Proof.
  revert s out. induction es as [|e es IH] using rev_ind; intros s out.
  - intros [= <- <-]. split; [by intros ? ? ?%elem_of_nil..].
  - intros (s1 & out1 & o & Hrun & Hs & ->)%run_snoc. destruct (IH _ _ Hrun) as [Hw Ha].
    destruct (exchanges_step _ _ _ _ _ _ Hrun Hw Hs) as [Hw' Ha']. split; [done|].
    intros n resp [Hin|Hin]%elem_of_app; [by apply responds_more, Ha|by apply Ha'].
Qed.

(** C5: every response is the response to its own request.  Whenever the server answers call
    [n] over HTTP, that call is a request that arrived earlier.  It was not a POST and the
    answer is 405; or its body was read, and the answer is 413 when the body is over the
    frame limit that was in force on arrival, and otherwise a JSON-RPC response under the
    identifier of that body, no larger than that limit, or 507. *)
Theorem authoring_response_of_request es s out n resp :
  run empty_state es = Some (s, out) → Answered n resp ∈ out →
  responds es n resp ∧ ∀ text, body resp = Some text →
    ∃ method limit, arrived es n method limit ∧ byteLength text <= limit.
Proof.
  intros Hrun Hin. destruct (run_exchanges _ _ _ Hrun) as [_ Ha]. pose proof (Ha _ _ Hin) as Hr. split; [done|].
  destruct Hr as (method & limit & Harr & Hr). intros text Ht. exists method, limit. split; [done|].
  destruct (bool_decide _); [|by rewrite Hr in Ht]. destruct Hr as (bytes & _ & Hr).
  destruct (_ <? _); [by rewrite Hr in Ht|]. destruct Hr as (v & _ & ->). by eapply bounded_body.
Qed.
End framing.
