(* ===== verification/V2Calls.v ===== *)
(** * Calls through the Authoring V2 server, from beginning to end

    An admitted invocation runs its provider and its outcome reaches the Host; a call of the
    plugin reaches the Host with the identity of its invocation and returns what the Host
    answers, or its failure. *)

From Stdlib Require Import ZArith SpecFloat.
From S2P Require Import Prelude JsValue Text Json JsonText Authoring V2 V2Invariant V2Correct V2Answers V2Framing.

Local Open Scope Z_scope.

Section calls.
Context `{AuthoringProtocol, PluginCode}.
Variable definition : PluginDefinition.
Variable runtimeProfile : jsstr.
Variable bootstrap : Bootstrap.
Variable secret : list N.

Abbreviation step := (step definition runtimeProfile bootstrap secret).
Abbreviation run := (run definition runtimeProfile bootstrap secret).

(** ** One invocation, from the bytes of its request to the bytes of its response *)

Lemma find_fiber_last n f l : find_fiber n (filter (fun e => e.1 ≠ n) l ++ [(n, f)]) = Some f.
Proof.
  induction l as [|[m g] l IH]; [cbn; by rewrite Nat.eqb_refl|]. rewrite filter_cons. case_decide as Hm; [|done].
  cbn [app find_fiber]. cbn in Hm. by rewrite (proj2 (Nat.eqb_neq m n)).
Qed.

Lemma find_fiber_removed n l : find_fiber n (filter (fun e => e.1 ≠ n) l) = None.
Proof.
  induction l as [|[m g] l IH]; [done|]. rewrite filter_cons. case_decide as Hm; [|done].
  cbn [find_fiber]. cbn in Hm. by rewrite (proj2 (Nat.eqb_neq m n)).
Qed.

(** An invocation may start: the server is constructed, the endpoint is bound, the
    identifier is new and the pools have room. *)
Definition may_invoke (s : state) (i : InitializeParams) (object : jsval) (p : InvokeParams) : Prop :=
  initialize s = Some i ∧ validateInvoke p i = Ok tt ∧ instance s = Some object ∧ known (correlation_id p) s = false ∧
  Z.of_nat (length (retired s)) < max_retired_ids (limits i) ∧
  Z.of_nat (length (active s)) < max_active_invocations (limits i) ∧ is_Some (assoc (endpoint_id p) (providers s)).

(** The call of the provider that an admitted invocation makes, in context [cx]. *)
Definition provider_call (p : InvokeParams) (cx : nat) (object : jsval) : plugin_call :=
  CallInvoke (endpoint_id p) (inv_operation p) cx (inv_payload p) object.

Lemma invoke_admitted n r p i object s :
  may_invoke s i object p →
  invoke n r p s = await_call n r (AwaitInvoke p (length (context_heap s)))
                     (provider_call p (length (context_heap s)) object) (enter_active p s).
Proof.
  intros (Hi & Hv & Hc & Hk & Hr & Ha & [b Hb]). unfold invoke. rewrite Hi, Hv, Hc, Hk.
  rewrite (proj2 (Z.leb_gt _ _) Hr), (proj2 (Z.leb_gt _ _) Ha). cbn [providers enter_active new_context set_contexts set_context_heap set_active].
  by rewrite Hb.
Qed.

Lemma step_resume s n f x seg :
  find_fiber n (fibers s) = Some f →
  resume_at definition runtimeProfile bootstrap secret n (fb_reply f) (fb_at f) x = Some seg →
  step s (Resume n x) = Some (seg (remove_fiber n s)).
Proof. intros Hf Hseg. cbn [V2.step]. by rewrite Hf, Hseg. Qed.

Lemma run_cons s e es s1 o s2 o2 : step s e = Some (s1, o) → run s1 es = Some (s2, o2) → run s (e :: es) = Some (s2, o ++ o2).
Proof. intros Hs Hr. cbn [V2.run]. by rewrite Hs, Hr. Qed.

(** ** Interleaving *)

(** Steps that do not resume call [n]. *)
Definition others (n : nat) (es : list event) : Prop := ∀ x, Resume n x ∉ es.

(** From [s] on, whatever other steps are taken, call [n] can be resumed by [x]; [Q] relates the
    states before and after that step and what it says. *)
Definition proceeds (n : nat) (s : state) (x : resumption) (Q : state → state → list output → Prop) : Prop :=
  ∀ es t out, others n es → run s es = Some (t, out) → ∃ t' o, step t (Resume n x) = Some (t', o) ∧ Q t t' o.

Lemma find_fiber_app n f l1 l2 : find_fiber n l1 = Some f → find_fiber n (l1 ++ l2) = Some f.
Proof. induction l1 as [|[m g] l1 IH]; cbn; [done|]. destruct (m =? n)%nat; auto. Qed.

Lemma find_fiber_other n m (l : list (nat * fiber)) :
  m ≠ n → find_fiber n (filter (fun e => e.1 ≠ m) l) = find_fiber n l.
Proof.
  intros Hne. induction l as [|[k g] l IH]; [done|]. rewrite filter_cons. case_decide as Hk; cbn in Hk |- *.
  - by rewrite IH.
  - rewrite (proj2 (Nat.eqb_neq k n)); [done|]. intros ->. by destruct Hk.
Qed.

(** Another call's step leaves a suspended call as it is. *)
Lemma other_step m s e s' o n f :
  inv bootstrap m s → step s e = Some (s', o) → (∀ x, e ≠ Resume n x) → find_fiber n (fibers s) = Some f →
  find_fiber n (fibers s') = Some f.
Proof.
  intros Hi Hs Hne Hf.
  destruct (step_cases _ _ _ _ m _ _ _ _ Hs) as [(k & E & Hk)|[(n' & g & x & seg & -> & Hg & Hseg & E)|(_ & _ & E)]];
    apply (f_equal fst) in E; cbn in E; subst s'; [| |done].
  - unfold spawn. destruct (Hk (nextFiber s) (set_nextFiber (S (nextFiber s)) s) (i_heap _ _ _ Hi))
      as (_ & (new & -> & _) & _). by apply find_fiber_app.
  - assert (n' ≠ n) as Hn' by (intros ->; by apply (Hne x)).
    pose proof (find_fiber_in _ _ _ Hg) as Hin. destruct (i_numbers _ _ _ Hi) as [_ Hlt].
    apply (resume_extends definition runtimeProfile bootstrap secret m n' _ _ _ _ (remove_fiber n' s)) in Hseg
      as (new & -> & _); [|apply (i_heap _ _ _ Hi)| |destruct g; by apply (i_captured _ _ _ Hi n' _ Hin)].
    + apply find_fiber_app. cbn. by rewrite find_fiber_other.
    + apply Hlt. apply list_elem_of_fmap. by exists (n', g).
Qed.

(** What a call finds when it is resumed after other steps. *)
Record later (n : nat) (f : fiber) (s t : state) : Prop := {
  lt_reachable : reachable definition runtimeProfile bootstrap secret t;
  lt_fiber : find_fiber n (fibers t) = Some f;
  lt_init : is_Some (initialize s) → is_Some (initialize t);
  lt_retired : ∀ x, x ∈ retired s → x ∈ retired t }.

Lemma others_later es n f s t out :
  reachable definition runtimeProfile bootstrap secret s → find_fiber n (fibers s) = Some f →
  others n es → run s es = Some (t, out) → later n f s t.
Proof.
  revert s out. induction es as [|e es IH]; intros s out Hr Hf Ho; cbn [V2.run]; [intros [= <- <-]; by constructor|].
  destruct (step s e) as [[s1 o]|] eqn:Hs; [|done]. destruct (run s1 es) as [[s2 o2]|] eqn:Hrun; [|done].
  intros [= <- <-]. destruct (authoring_reachable_inv _ _ _ _ _ Hr) as [m Hi].
  destruct (IH s1 o2) as [L1 L2 L3 L4]; [by eapply reach_step| | |done|].
  - eapply other_step; [done|done| |done]. intros x ->. destruct (Ho x). by left.
  - intros x Hx. apply (Ho x). by right.
  - constructor; [done|done| |].
    + intros Hsome. apply L3. by eapply step_initialized.
    + intros x Hx. apply L4. by eapply step_identifiers.
Qed.

(** What the invocation says at its end. *)
Definition invocation_outcome (p : InvokeParams) (c : completion ProviderDispatchOutcome) : InvocationOutcome :=
  match c with
  | Returned o => toWireOutcome o p
  | Threw e => WRuntime (plugin_failure_of e)
  end.

(** How it is reported. *)
Definition settlement_state (cx : nat) (s : state) (c : completion ProviderDispatchOutcome) : string :=
  match c with
  | Returned _ => if aborted cx s then "cancelled" else "completed"
  | Threw _ => "abandoned"
  end.

Definition settlement (p : InvokeParams) (state_ : string) : jsval :=
  JObj [(js "session", JStr (inv_session p)); (js "scope_id", JStr (scope_id (inv_scope p)));
        (js "correlation_id", JStr (correlation_id p)); (js "state", JStr (js state_))].

Lemma invoked_settles n r p cx c i s :
  initialize s = Some i →
  ∃ t, invoked n r p cx c s =
    suspend n r (AwaitProof i (CbSettled (invocation_result p (wire_json (invocation_outcome p c))))
      "lenso.settled" (settlement p (settlement_state cx s c))) t ∧
    fibers t = fibers s ∧ initialize t = Some i ∧ active t = delete_key (correlation_id p) (active s) ∧
    retired t = retired (add_retired (correlation_id p) s).
Proof.
  intros Hi. destruct c as [o|e]; unfold invoked, complete_invocation, settled, callback_from; cbn [initialize add_retired set_retired set_active];
    rewrite Hi; eexists; (split; [reflexivity|]); done.
Qed.

(** The request starts the provider. *)
Lemma invocation_starts s i object n limit id params :
  find_fiber n (fibers s) = Some {| fb_reply := RpcReply JNull limit; fb_at := AwaitBody limit |} →
  portable id = true → portable params = true →
  let request := rpc_request id (js "lenso.invoke") (JArr [params]) in
  let cx := length (context_heap s) in
  json_bytes request <= limit → may_invoke s i object (as_invoke params) →
  step s (Resume n (BodyRead (encode (json_text request)))) =
    Some (await_call n (RpcReply id limit) (AwaitInvoke (as_invoke params) cx)
            (provider_call (as_invoke params) cx object) (enter_active (as_invoke params) (remove_fiber n s))).
Proof.
  intros Hf Hi Hp request cx Hl Hm. erewrite step_resume; [|exact Hf|reflexivity]. f_equal. unfold request in *.
  rewrite (request_dispatched definition bootstrap) by (done || (cbn [portable forallb]; by rewrite Hp)).
  rewrite (proj2 (Z.ltb_ge _ _) Hl).
  exact (invoke_admitted n (RpcReply id limit) (as_invoke params) i object (remove_fiber n s) Hm).
Qed.

Lemma add_retired_in id s : id ∈ retired (add_retired id s).
Proof.
  cbn. destruct (mem id (retired s)) eqn:Hm; [by apply mem_true|]. apply elem_of_app. right. by left.
Qed.

Lemma delete_key_assoc {V} k (l : list (jsstr * V)) : assoc k (delete_key k l) = None.
Proof.
  unfold delete_key. induction l as [|[k' v] l IH]; [done|]. rewrite filter_cons. case_decide as Hk; [|done].
  cbn in Hk |- *. by rewrite decide_False.
Qed.

(** The answer of the Host to the report ends the call. *)
Definition settled_answer (n : nat) (r : reply) (result : jsval) (ack : callback_response) : output :=
  match callback_completion ack with
  | Returned _ => succeed n r result
  | Threw e => reject n r e
  end.

Lemma acknowledged_proceeds n r i result s :
  reachable definition runtimeProfile bootstrap secret s →
  find_fiber n (fibers s) = Some {| fb_reply := r; fb_at := AwaitFetch i (CbSettled result) |} →
  ∀ ack, proceeds n s (CallbackDone ack) (fun t t' o =>
    o = [settled_answer n r result ack] ∧ find_fiber n (fibers t') = None ∧ (∀ x, x ∈ retired s → x ∈ retired t')).
Proof.
  intros Hr Hf ack es t out Ho Hrun. destruct (others_later _ _ _ _ _ _ Hr Hf Ho Hrun) as [_ Hf' _ Hret].
  exists (remove_fiber n t), [settled_answer n r result ack]. erewrite step_resume; [|exact Hf'|reflexivity].
  unfold settled_answer. cbn [fb_at fb_reply]. unfold callback_done, deliver. split; [by destruct (callback_completion ack)|].
  split; [done|]. split; [apply find_fiber_removed|done].
Qed.

(** The report is posted with a proof over its session, method and parameters. *)
Lemma reported_proceeds n r i result method params s :
  reachable definition runtimeProfile bootstrap secret s →
  find_fiber n (fibers s) = Some {| fb_reply := r; fb_at := AwaitProof i (CbSettled result) method params |} →
  ∀ random, proceeds n s (ProofComputed random) (fun t t' o =>
    o = [Posted n (createProof secret (authoringCallbackProofMessage (identity_session i) method params))
           (rpc_request (JStr (dec (nextCallbackId t))) (js method) params)] ∧
    reachable definition runtimeProfile bootstrap secret t' ∧
    find_fiber n (fibers t') = Some {| fb_reply := r; fb_at := AwaitFetch i (CbSettled result) |} ∧
    (∀ x, x ∈ retired s → x ∈ retired t')).
Proof.
  intros Hr Hf random es t out Ho Hrun. destruct (others_later _ _ _ _ _ _ Hr Hf Ho Hrun) as [Hr' Hf' _ Hret].
  assert (E : step t (Resume n (ProofComputed random)) = Some (post_callback secret n r i (CbSettled result) method params (remove_fiber n t)))
    by (by erewrite step_resume; [|exact Hf'|reflexivity]).
  eexists _, _. split; [exact E|]. split; [done|]. split; [by eapply reach_step|]. split; [apply find_fiber_last|done].
Qed.

(** The provider settles: the identifier is retired and the report is prepared. *)
Lemma settles_proceeds n r p cx s :
  reachable definition runtimeProfile bootstrap secret s → is_Some (initialize s) →
  find_fiber n (fibers s) = Some {| fb_reply := r; fb_at := AwaitInvoke p cx |} →
  ∀ c, proceeds n s (Invoked c) (fun t t' o =>
    o = [] ∧ reachable definition runtimeProfile bootstrap secret t' ∧
    correlation_id p ∈ retired t' ∧ assoc (correlation_id p) (active t') = None ∧
    ∃ i, initialize t = Some i ∧
      find_fiber n (fibers t') = Some {| fb_reply := r;
        fb_at := AwaitProof i (CbSettled (invocation_result p (wire_json (invocation_outcome p c))))
                   "lenso.settled" (settlement p (settlement_state cx t c)) |}).
Proof.
  intros Hr Hi Hf c es t out Ho Hrun. destruct (others_later _ _ _ _ _ _ Hr Hf Ho Hrun) as [Hr' Hf' Hi' _].
  destruct (Hi' Hi) as [i Hti].
  destruct (invoked_settles n r p cx c i (remove_fiber n t) Hti) as (u & Eu & Fu & Iu & Au & Ru).
  assert (E : step t (Resume n (Invoked c)) = Some (invoked n r p cx c (remove_fiber n t)))
    by (by erewrite step_resume; [|exact Hf'|reflexivity]).
  rewrite Eu in E. eexists _, _. split; [exact E|]. split; [done|]. split; [by eapply reach_step|].
  cbn [retired active set_fibers fibers]. rewrite Ru, Au, Fu. split; [apply add_retired_in|]. split; [apply delete_key_assoc|].
  exists i. split; [done|]. apply find_fiber_last.
Qed.

(** What the Host reads from the answer to an invocation. *)
Definition invocation_response (id result : jsval) (limit : Z) (ack : callback_response) (resp : Response) : Prop :=
  match callback_completion ack with
  | Returned _ =>
      portable result = true →
      match body resp with
      | Some text => status resp = 200 ∧ json_parse (decode (encode text)) =
                       Some (JObj [(js "jsonrpc", JStr (js "2.0")); (js "id", id); (js "result", result)])
      | None => status resp = 507
      end
  | Threw e =>
      resp = boundedJsonResponse (JObj [(js "jsonrpc", JStr (js "2.0")); (js "id", id);
               (js "error", JObj [(js "code", JNum (num (-32602)));
                                  (js "message", JStr (AuthoringDetail.authoring_boundedError e))])]) limit
  end.

(** How an invocation whose provider is running goes on when the provider settles with [c]: it is
    reported and answered with [outcome]. *)
Definition settling_course (s1 : state) (n cx : nat) (p : InvokeParams) (id : jsval) (limit : Z)
    (c : completion ProviderDispatchOutcome) (outcome : InvocationOutcome) : Prop :=
  proceeds n s1 (Invoked c) (fun s2 s3 o =>
    let report := settlement p (settlement_state cx s2 c) in
    o = [] ∧ correlation_id p ∈ retired s3 ∧ assoc (correlation_id p) (active s3) = None ∧
    ∃ i, initialize s2 = Some i ∧
    ∀ random, proceeds n s3 (ProofComputed random) (fun s4 s5 o =>
      o = [Posted n (createProof secret (authoringCallbackProofMessage (identity_session i) "lenso.settled" report))
             (rpc_request (JStr (dec (nextCallbackId s4))) (js "lenso.settled") report)] ∧
      ∀ ack, proceeds n s5 (CallbackDone ack) (fun s6 s7 o =>
        ∃ resp, o = [Answered n resp] ∧
          invocation_response id (invocation_result p (wire_json outcome)) limit ack resp ∧
          find_fiber n (fibers s7) = None ∧ correlation_id p ∈ retired s7))).

(** The whole course of an admitted invocation: the provider is called, and however it settles
    the invocation goes on so. *)
Definition invocation_course (s : state) (object : jsval) (n : nat) (limit : Z) (id params : jsval) : Prop :=
  let request := rpc_request id (js "lenso.invoke") (JArr [params]) in
  let p := as_invoke params in
  let cx := length (context_heap s) in
  ∃ s1,
    step s (Resume n (BodyRead (encode (json_text request)))) = Some (s1, [Called n (provider_call p cx object)]) ∧
    context_heap s1 !! cx = Some {| cx_request_id := correlation_id p; cx_scope := inv_scope p; cx_aborted := false |} ∧
    cx ∈ contexts s1 ∧ ∀ c, settling_course s1 n cx p id limit c (invocation_outcome p c).

Lemma invocation_response_of n id limit result ack :
  portable id = true →
  ∃ resp, settled_answer n (RpcReply id limit) result ack = Answered n resp ∧ invocation_response id result limit ack resp.
Proof.
  intros Hi. unfold settled_answer, invocation_response. destruct (callback_completion ack) as [v|e]; (eexists; split; [reflexivity|]); [|done].
  intros Hres. pose proof (response_reads _ limit (portable_result id result Hi Hres)) as Hb.
  destruct (body _); [|by destruct Hb]. by destruct Hb as (? & _ & ?).
Qed.

Lemma invocation_completes s i object n limit id params :
  reachable definition runtimeProfile bootstrap secret s →
  find_fiber n (fibers s) = Some {| fb_reply := RpcReply JNull limit; fb_at := AwaitBody limit |} →
  portable id = true → portable params = true →
  json_bytes (rpc_request id (js "lenso.invoke") (JArr [params])) <= limit → may_invoke s i object (as_invoke params) →
  invocation_course s object n limit id params.
Proof.
  intros Hr Hf Hi Hp Hl Hm. pose proof (invocation_starts s i object n limit id params Hf Hi Hp Hl Hm) as E1.
  unfold invocation_course. cbn zeta. set (p := as_invoke params) in *. set (cx := length (context_heap s)) in *.
  eexists. split; [exact E1|]. split; [|split].
  { cbn. apply list_lookup_middle. done. }
  { cbn. apply elem_of_app. right. by left. }
  intros c es2 s2 out2 Ho2 Hrun2. cbn zeta.
  edestruct (settles_proceeds n (RpcReply id limit) p cx) with (c := c) as (s3 & o3 & E3 & -> & Hr3 & Hret3 & Hact3 & j & Hj & Hf3);
    [by eapply reach_step|exists i; apply Hm|apply find_fiber_last|exact Ho2|exact Hrun2|].
  exists s3, []. split; [exact E3|]. split_and!; [done..|]. exists j. split; [done|].
  intros random es4 s4 out4 Ho4 Hrun4.
  edestruct (reported_proceeds n (RpcReply id limit) j) with (random := random) as (s5 & o5 & E5 & -> & Hr5 & Hf5 & Hret5);
    [exact Hr3|exact Hf3|exact Ho4|exact Hrun4|].
  exists s5. eexists. split; [exact E5|]. split; [done|].
  intros ack es6 s6 out6 Ho6 Hrun6.
  edestruct (acknowledged_proceeds n (RpcReply id limit) j) with (ack := ack) as (s7 & o7 & E7 & -> & Hn & Hret7);
    [exact Hr5|exact Hf5|exact Ho6|exact Hrun6|].
  exists s7. eexists. split; [exact E7|].
  destruct (invocation_response_of n id limit (invocation_result p (wire_json (invocation_outcome p c))) ack Hi) as (resp & -> & Hresp).
  exists resp. by split_and!; auto.
Qed.

(** C3: an admitted invocation completes, however its steps interleave with those of other
    calls.  When a reachable server is constructed, the endpoint is bound, the identifier is
    new and the pools have room, the bytes of the request call the provider of that endpoint
    with the operation, the payload and the object of the Plugin, and with a fresh context
    that carries the identifier and the scope of the request.  Whatever other steps the server
    takes meanwhile: when the provider settles, the identifier is retired; one [lenso.settled]
    is posted then, with a proof, whose state is completed, cancelled (the context was
    aborted) or abandoned (the provider threw); and when the Host acknowledges it, the
    request is answered with the outcome of the provider, which the Host reads back from the
    text under the identifier of its request (or gets 507 when it is over the limit).  When
    the Host fails the report instead, the request is answered with that failure. *)
Theorem authoring_invocation_completes s i object n limit id params :
  reachable definition runtimeProfile bootstrap secret s →
  find_fiber n (fibers s) = Some {| fb_reply := RpcReply JNull limit; fb_at := AwaitBody limit |} →
  portable id = true → portable params = true →
  json_bytes (rpc_request id (js "lenso.invoke") (JArr [params])) <= limit → may_invoke s i object (as_invoke params) →
  invocation_course s object n limit id params.
Proof. exact (invocation_completes s i object n limit id params). Qed.

(** ** One call of the plugin to the Host *)

Definition numbered (s : state) : Prop := ∀ n, n ∈ map fst (fibers s) → (n < nextFiber s)%nat.

Lemma numbered_check s : forallb (fun e => e.1 <? nextFiber s)%nat (fibers s) = true → numbered s.
Proof.
  rewrite forallb_forall. intros Hf n ([m f] & -> & Hin)%list_elem_of_fmap.
  apply list_elem_of_In, Hf, Nat.ltb_lt in Hin. exact Hin.
Qed.

Lemma find_fiber_new n f l : n ∉ map fst l → find_fiber n (l ++ [(n, f)]) = Some f.
Proof.
  induction l as [|[m g] l IH]; cbn; [by rewrite Nat.eqb_refl|]. intros [Hm Hn]%not_elem_of_cons.
  rewrite (proj2 (Nat.eqb_neq m n)) by congruence. by apply IH.
Qed.

(** A fiber that has come and gone leaves the others as they were. *)
Lemma filter_fresh n (l : list (nat * fiber)) : n ∉ map fst l → filter (fun e => e.1 ≠ n) l = l.
Proof.
  induction l as [|[m g] l IH]; [done|]. cbn [map fst]. intros [Hm Hn]%not_elem_of_cons.
  rewrite filter_cons_True by (cbn; congruence). f_equal. by apply IH.
Qed.

Lemma filter_came_and_gone n f (l : list (nat * fiber)) : n ∉ map fst l → filter (fun e => e.1 ≠ n) (l ++ [(n, f)]) = l.
Proof.
  intros Hn. rewrite filter_app, filter_fresh by done. rewrite filter_cons_False by (cbn; tauto).
  by rewrite filter_nil, app_nil_r.
Qed.

(** The plugin may call the Host: its context is registered and not cancelled, and the
    pool of outbound calls has room. *)
Definition may_call (k : outbound_kind) (cx : nat) (s : state) (i : InitializeParams) (parent : ContextObject) : Prop :=
  cx ∈ contexts s ∧ initialize s = Some i ∧ context_heap s !! cx = Some parent ∧ cx_aborted parent = false ∧
  outbound_full k i s = false.

(** What the Host is asked. *)
Definition outbound_message (k : outbound_kind) (s : state) (i : InitializeParams) (parent : ContextObject)
    (route : RouteDescriptor) (operation : jsstr) (payload : jsval) (elapsed : Z) : jsval :=
  outbound_params (identity_session i) (dec (nextOutboundId s)) route operation
    (outboundScope (cx_scope parent) (dec (nextOutboundId s)) elapsed) (outbound_payload_key k) payload.

Lemma outbound_admitted n k cx route operation payload elapsed s i parent :
  may_call k cx s i parent →
  boundClient n k cx route operation payload elapsed s =
    suspend n PluginReply (AwaitProof i (outbound_callback k route (dec (nextOutboundId s))) (outbound_method k)
      (outbound_message k s i parent route operation payload elapsed)) (take_outbound_id (enter_outbound s)).
Proof.
  intros (Hcx & Hi & Hp & Ha & Hf). unfold boundClient, outbound. rewrite bool_decide_true, Hi, Hp, Ha, Hf by done. cbn [negb].
  unfold callback_from. change (initialize (take_outbound_id (enter_outbound s))) with (initialize s). by rewrite Hi.
Qed.

(** What the plugin gets for the Host's answer to a call or to an event. *)
Definition outbound_answer (k : outbound_kind) (n : nat) (session id : jsstr) (c : callback_response) : output :=
  let deliver_ (m : throws jsval) := match m with Ok v => ToPlugin n v | Throw e => PluginRejected n e end in
  match callback_completion c with
  | Threw e => PluginRejected n e
  | Returned v =>
      deliver_ (match k with
                | OutEvent => o ← validateEventPublishResultFor v session id; mret (action_json o (fun f => f))
                | _ => o ← validateResultFor v session id; mret (outcome_json (fromWireOutcome o))
                end)
  end.

Lemma callback_done_outbound k n i route id c s :
  k ≠ OutStreamOpen →
  callback_done n PluginReply i (outbound_callback k route id) (callback_completion c) s =
    (leave_outbound s, [outbound_answer k n (identity_session i) id c]).
Proof.
  intros Hk. unfold outbound_answer, callback_done, deliver. destruct k; [| |done]; cbn [outbound_callback];
    (destruct (callback_completion c) as [v|e]; [|done]); cbn [mbind result_bind];
    [destruct (validateResultFor v _ _)|destruct (validateEventPublishResultFor v _ _)]; done.
Qed.

(** A call that suspends for the proof of a message: the message is posted, and the answer of the
    Host ends the call. *)
Lemma callback_round s e n i k method params t random c :
  n ∉ map fst (fibers t) → step s e = Some (suspend n PluginReply (AwaitProof i k method params) t) →
  let done_ := callback_done n PluginReply i k (callback_completion c) (set_nextCallbackId (nextCallbackId t + 1) t) in
  run s [e; Resume n (ProofComputed random); Resume n (CallbackDone c)] =
    Some (done_.1, Posted n (createProof secret (authoringCallbackProofMessage (identity_session i) method params))
                     (rpc_request (JStr (dec (nextCallbackId t))) (js method) params) :: done_.2).
Proof.
  intros Hn E. cbn zeta. unfold suspend in E. cbn [V2.run]. rewrite E.
  erewrite step_resume; [|by apply find_fiber_new|reflexivity]. unfold post_callback at 1.
  erewrite step_resume; [|apply find_fiber_last|reflexivity]. cbn [fb_reply fb_at].
  assert (Hs : remove_fiber n (suspend n PluginReply (AwaitFetch i k) (set_nextCallbackId (nextCallbackId t + 1)
      (remove_fiber n (set_fibers (fibers t ++ [(n, {| fb_reply := PluginReply; fb_at := AwaitProof i k method params |})]) t)))).1
    = set_nextCallbackId (nextCallbackId t + 1) t).
  { destruct t. unfold remove_fiber, suspend, set_fibers, set_nextCallbackId. cbn -[filter] in *. f_equal.
    by rewrite !filter_came_and_gone by (rewrite ?filter_came_and_gone; done). }
  cbn [fst] in Hs |- *. match goal with |- context [callback_done _ _ _ _ _ ?x] => change x with
    (remove_fiber n (suspend n PluginReply (AwaitFetch i k) (set_nextCallbackId (nextCallbackId t + 1)
      (remove_fiber n (set_fibers (fibers t ++ [(n, {| fb_reply := PluginReply; fb_at := AwaitProof i k method params |})]) t)))).1) end.
  rewrite Hs. destruct (callback_done _ _ _ _ _ _) as [s' out]. cbn. by rewrite app_nil_r.
Qed.

(** C9: a call of the plugin to the Host completes, whatever the Host answers.  One message is
    posted: it has its own identifier and a proof over exactly its session, method and
    parameters, and the scope it names is the child of the calling invocation's.  The plugin
    then gets the outcome the Host answered, if it is valid for this session and this
    identifier, and otherwise the failure; and in every case the call no longer counts
    against the limit of outbound calls and nothing of it stays suspended. *)
Theorem authoring_outbound_completes k s i cx parent route operation payload elapsed random c :
  k ≠ OutStreamOpen → may_call k cx s i parent → numbered s →
  let n := nextFiber s in
  let params := outbound_message k s i parent route operation payload elapsed in
  ∃ s', run s [HostCall k cx route operation payload elapsed; Resume n (ProofComputed random); Resume n (CallbackDone c)] =
      Some (s', [Posted n (createProof secret (authoringCallbackProofMessage (identity_session i) (outbound_method k) params))
                   (rpc_request (JStr (dec (nextCallbackId s))) (js (outbound_method k)) params);
                 outbound_answer k n (identity_session i) (dec (nextOutboundId s)) c]) ∧
    activeOutboundCalls s' = activeOutboundCalls s ∧ fibers s' = fibers s ∧
    nextOutboundId s' = nextOutboundId s + 1 ∧ nextCallbackId s' = nextCallbackId s + 1.
Proof.
  intros Hk Hm Hn n params.
  pose proof (outbound_admitted n k cx route operation payload elapsed (set_nextFiber (S n) s) i parent Hm) as E.
  eexists. split; [erewrite (callback_round s _ n i (outbound_callback k route (dec (nextOutboundId s))) (outbound_method k) params
    (take_outbound_id (enter_outbound (set_nextFiber (S n) s)))); [by rewrite callback_done_outbound|
    intros Hin%Hn; unfold n in Hin; lia|cbn [V2.step]; f_equal; exact E]|].
  cbn. split_and!; [lia|done|done|done].
Qed.

End calls.
