(* ===== verification/V2Streams.v ===== *)
(** * Reading a stream through the Authoring V2 server

    A Host that reads a stream, one receive request after another, sees what an abstract
    stream would show it: the messages of the provider in order and numbered without gaps,
    half-closes and failures that take no number, one end, and nothing after it. *)

From Stdlib Require Import ZArith SpecFloat.
From S2P Require Import Prelude JsValue Text Json JsonText Authoring V2 V2Invariant V2Correct V2Answers V2Framing V2Calls.

Local Open Scope Z_scope.

(** ** The abstract stream *)

(** Where the reader is: before the message with this number, or past the end. *)
Definition position := option Z.

Definition advance (k : Z) (c : ProviderStreamReceiveOutcome) : position :=
  match c with
  | ReceiveMessage _ => Some (k + 1)
  | ReceiveHalfClosed | ReceiveRuntime _ => Some k
  | ReceiveSuccess | ReceiveDomain _ => None
  end.

(** What the reader is told at position [k]. *)
Definition shown (k : Z) (c : ProviderStreamReceiveOutcome) : jsval :=
  match c with
  | ReceiveMessage v => JObj [(js "kind", JStr (js "message")); (js "sequence", JStr (dec k)); (js "message", v)]
  | ReceiveHalfClosed => JObj [(js "kind", JStr (js "peer_half_closed"))]
  | ReceiveSuccess => terminal_json (JObj [(js "kind", JStr (js "success"))])
  | ReceiveDomain v => terminal_json (JObj [(js "kind", JStr (js "domain")); (js "error", v)])
  | ReceiveRuntime f => runtime_json (wireFailure f None)
  end.

(** ** The reader *)

Record pull := { pl_id : jsval; pl_params : jsval }.

Definition pull_request (x : pull) : jsval := rpc_request (pl_id x) (js "lenso.stream.receive") (JArr [pl_params x]).

Section streams.
Context `{AuthoringProtocol, PluginCode}.
Variable definition : PluginDefinition.
Variable runtimeProfile : jsstr.
Variable bootstrap : Bootstrap.
Variable secret : list N.

Abbreviation step := (step definition runtimeProfile bootstrap secret).
Abbreviation run := (run definition runtimeProfile bootstrap secret).

(** The requests [xs] of a reader, the first of them call [n], with the outcomes [cs] the
    provider gives when it is asked: the events, and what the server says, which asks the stream
    [o] of the provider and answers the reader.  Past the end the provider is not asked any more. *)
Fixpoint reading (o : nat) (pos : position) (n : nat) (limit : Z) (xs : list pull) (cs : list ProviderStreamReceiveOutcome)
  : list event * list output :=
  match xs with
  | [] => ([], [])
  | x :: xs =>
      let p := as_stream_action (pl_params x) in
      let arrives := [Request (js "POST"); Resume n (BodyRead (encode (json_text (pull_request x))))] in
      let answered v := succeed n (RpcReply (pl_id x) limit) (stream_result p v) in
      match pos, cs with
      | Some k, c :: cs =>
          let '(es, out) := reading o (advance k c) (S n) limit xs cs in
          (arrives ++ Resume n (Received (Returned c)) :: es, Called n (CallReceive o) :: answered (shown k c) :: out)
      | Some _, [] => ([], [])
      | None, _ =>
          let '(es, out) := reading o None (S n) limit xs cs in
          (arrives ++ es, answered (violation (js "lenso.bun-authoring")) :: out)
      end
  end.

(** The server is where the abstract stream is. *)
Definition stands (s : state) (i : InitializeParams) (id : jsstr) (o : nat) (pos : position) : Prop :=
  initialize s = Some i ∧ stopped s = false ∧ numbered s ∧
  match pos with
  | Some k => assoc id (streams s) = Some o ∧ ∃ stream, stream_heap s !! o = Some stream ∧ nextReceiveSequence stream = k
  | None => assoc id (streams s) = None
  end.

(** A request for the next item that the Host may make. *)
Definition valid_pull (i : InitializeParams) (id : jsstr) (x : pull) : Prop :=
  portable (pl_id x) = true ∧ portable (pl_params x) = true ∧
  json_bytes (pull_request x) <= max_frame_bytes (limits i) ∧
  validateStreamAction (as_stream_action (pl_params x)) (identity_session i) "stream_receive" = Ok tt ∧
  sa_stream_id (as_stream_action (pl_params x)) = id.

(** The state in which the handler of the request runs. *)
Definition received_request (s : state) : state :=
  let n := nextFiber s in
  remove_fiber n (set_fibers (fibers s ++ [(n, {| fb_reply := RpcReply JNull (frame_limit s);
                                                  fb_at := AwaitBody (frame_limit s) |})]) (set_nextFiber (S n) s)).

Lemma received_fibers s : numbered s → fibers (received_request s) = fibers s.
Proof. intros Hn. apply filter_came_and_gone. intros Hin%Hn. lia. Qed.

Lemma pull_arrives s i id x :
  initialize s = Some i → stopped s = false → numbered s → valid_pull i id x →
  let n := nextFiber s in
  run s [Request (js "POST"); Resume n (BodyRead (encode (json_text (pull_request x))))] =
    Some (receive_stream n (RpcReply (pl_id x) (max_frame_bytes (limits i))) (as_stream_action (pl_params x)) (received_request s)).
Proof.
  intros Hi Hf Hn (H1 & H2 & H3 & _) n. assert (Hlim : frame_limit s = max_frame_bytes (limits i)) by (unfold frame_limit; by rewrite Hi).
  set (s1 := set_fibers (fibers s ++ [(n, {| fb_reply := RpcReply JNull (frame_limit s); fb_at := AwaitBody (frame_limit s) |})])
    (set_nextFiber (S n) s)).
  assert (E1 : step s (Request (js "POST")) = Some (s1, [])) by (cbn [V2.step]; rewrite Hf; reflexivity).
  assert (E2 : find_fiber n (fibers s1) = Some {| fb_reply := RpcReply JNull (frame_limit s); fb_at := AwaitBody (frame_limit s) |}).
  { apply find_fiber_new. intros Hin%Hn. unfold n in Hin. lia. }
  cbn [V2.run]. rewrite E1. erewrite step_resume; [|exact E2|reflexivity].
  unfold pull_request in *. rewrite request_dispatched by (done || (cbn [portable forallb]; by rewrite H2)).
  rewrite Hlim, (proj2 (Z.ltb_ge _ _) H3).
  change (dispatch definition bootstrap n ?r (js "lenso.stream.receive") ?q ?t) with (receive_stream n r (as_stream_action q) t).
  change (remove_fiber n s1) with (received_request s).
  destruct (receive_stream _ _ _ _) as [s' out]. cbn. by rewrite app_nil_r.
Qed.

Lemma run_app s es s1 o es' : run s es = Some (s1, o) → run s (es ++ es') = match run s1 es' with Some (s2, o2) => Some (s2, o ++ o2) | None => None end.
Proof.
  revert s o. induction es as [|e es IH]; intros s o; cbn [app V2.run].
  - intros [= <- <-]. by destruct (run s es') as [[? ?]|].
  - destruct (step s e) as [[s2 o2]|]; [|done]. destruct (run s2 es) as [[s3 o3]|] eqn:E; [|done]. intros [= <- <-].
    rewrite (IH _ _ E). destruct (run s3 es') as [[? ?]|]; [|done]. by rewrite app_assoc.
Qed.

Lemma received_advances n r p k c o stream s :
  stream_heap s !! o = Some stream → nextReceiveSequence stream = k →
  (received n r p o (Returned c) s).2 = [succeed n r (stream_result p (shown k c))].
Proof. intros Ho Hk. unfold received. rewrite Ho. destruct c; cbn; by rewrite ?Hk. Qed.

(** What the provider gives moves the server as it moves the abstract stream. *)
Lemma received_stands n r p k c o stream s i id :
  sa_stream_id p = id → initialize s = Some i → stopped s = false → numbered s →
  assoc id (streams s) = Some o → stream_heap s !! o = Some stream → nextReceiveSequence stream = k →
  let res := received n r p o (Returned c) s in
  stands res.1 i id o (advance k c) ∧ nextFiber res.1 = nextFiber s ∧ fibers res.1 = fibers s.
Proof.
  intros <- Hi Hf Hn Ha Ho Hk res. unfold res, received, stands, drop_stream.
  destruct c; cbn -[delete_key alter]; rewrite ?Ho; cbn -[delete_key alter]; (split; [|done]); split_and!; try done; try apply delete_key_assoc; eauto.
  exists (count_receive stream). split_and!; [by rewrite list_lookup_alter, Ho, decide_True|cbn; lia].
Qed.
Lemma receive_found n r p i o stream s :
  initialize s = Some i → validateStreamAction p (identity_session i) "stream_receive" = Ok tt →
  assoc (sa_stream_id p) (streams s) = Some o → stream_heap s !! o = Some stream →
  receive_stream n r p s = await_call n r (AwaitReceive p o) (CallReceive o) s.
Proof.
  intros Hi Hv Ha Ho. unfold receive_stream, stream_action. rewrite Hi, Hv, Ha. cbn [mbind option_bind]. by rewrite Ho.
Qed.

Lemma receive_missing n r p i s :
  initialize s = Some i → validateStreamAction p (identity_session i) "stream_receive" = Ok tt →
  assoc (sa_stream_id p) (streams s) = None →
  receive_stream n r p s = (s, [succeed n r (stream_result p (violation (js "lenso.bun-authoring")))]).
Proof. intros Hi Hv Ha. unfold receive_stream, stream_action. by rewrite Hi, Hv, Ha. Qed.

Lemma received_numbered s : numbered s → numbered (received_request s).
Proof. intros Hn m. rewrite received_fibers by done. intros Hm%Hn. cbn. lia. Qed.

(** One request past the end. *)
Lemma pull_past_end s i id o x :
  stands s i id o None → valid_pull i id x →
  let n := nextFiber s in
  ∃ s', run s [Request (js "POST"); Resume n (BodyRead (encode (json_text (pull_request x))))] =
      Some (s', [succeed n (RpcReply (pl_id x) (max_frame_bytes (limits i)))
                   (stream_result (as_stream_action (pl_params x)) (violation (js "lenso.bun-authoring")))]) ∧
    stands s' i id o None ∧ nextFiber s' = S n ∧ fibers s' = fibers s.
Proof.
  intros (Hi & Hf & Hn & Ha) Hx. cbn zeta. exists (received_request s).
  rewrite (pull_arrives s i id x Hi Hf Hn Hx). destruct Hx as (_ & _ & _ & Hv & Hid).
  rewrite (receive_missing _ _ _ i) by (try done; by rewrite Hid). split; [done|]. split; [|split; [done|by apply received_fibers]].
  split_and!; [done|done|by apply received_numbered|done].
Qed.

(** One request and the provider's outcome. *)
Lemma pull_open s i id o k x c :
  stands s i id o (Some k) → valid_pull i id x →
  let n := nextFiber s in
  ∃ s', run s [Request (js "POST"); Resume n (BodyRead (encode (json_text (pull_request x)))); Resume n (Received (Returned c))] =
      Some (s', [Called n (CallReceive o); succeed n (RpcReply (pl_id x) (max_frame_bytes (limits i)))
                   (stream_result (as_stream_action (pl_params x)) (shown k c))]) ∧
    stands s' i id o (advance k c) ∧ nextFiber s' = S n ∧ fibers s' = fibers s.
Proof.
  intros (Hi & Hf & Hn & Ha & stream & Ho & Hk) Hx. cbn zeta. set (n := nextFiber s).
  pose proof (pull_arrives s i id x Hi Hf Hn Hx) as E1. cbn zeta in E1. destruct Hx as (_ & _ & _ & Hv & Hid).
  set (p := as_stream_action (pl_params x)) in *. set (r := RpcReply _ _) in E1.
  rewrite (receive_found _ _ _ i o stream) in E1 by (try done; by rewrite Hid). fold n in E1.
  set (s1 := (suspend n r (AwaitReceive p o) (received_request s)).1).
  assert (Hfresh : n ∉ map fst (fibers (received_request s))).
  { rewrite received_fibers by done. intros Hin%Hn. unfold n in Hin. lia. }
  assert (E2 : find_fiber n (fibers s1) = Some {| fb_reply := r; fb_at := AwaitReceive p o |}) by (by apply find_fiber_new).
  assert (Hrem : fibers (remove_fiber n s1) = fibers s) by (rewrite <-(received_fibers s Hn); by apply filter_came_and_gone).
  destruct (received_stands n r p k c o stream (remove_fiber n s1) i id) as (Hst & Hnf & Hff); try done.
  { intros m. rewrite Hrem. intros Hm%Hn. cbn. lia. }
  eexists. split; [|split; [exact Hst|split; [done|by rewrite Hff]]].
  etransitivity; [exact (run_app s _ s1 [Called n (CallReceive o)] [Resume n (Received (Returned c))] E1)|]. cbn [V2.run].
  erewrite step_resume; [|exact E2|reflexivity]. cbn [fb_reply fb_at].
  rewrite (surjective_pairing (received n r p o (Returned c) (remove_fiber n s1))).
  by rewrite (received_advances n r p k c o stream).
Qed.

Lemma reading_runs s i id o pos xs cs :
  stands s i id o pos → Forall (valid_pull i id) xs →
  let '(es, out) := reading o pos (nextFiber s) (max_frame_bytes (limits i)) xs cs in
  ∃ s' pos', run s es = Some (s', out) ∧ stands s' i id o pos' ∧ fibers s' = fibers s ∧
    (pos = None → pos' = None).
Proof.
  intros Hs Hx. revert s pos cs Hs. induction Hx as [|x xs Hx Hxs IH]; intros s pos cs Hs; cbn [reading]; [by exists s, pos|].
  destruct pos as [k|]; [destruct cs as [|c cs]|]; [by exists s, (Some k)| |].
  - destruct (pull_open s i id o k x c Hs Hx) as (s1 & E1 & H1 & Hn & Hf).
    specialize (IH s1 (advance k c) cs H1). rewrite Hn in IH.
    destruct (reading _ _ _ _ _ _) as [es out]. destruct IH as (s2 & pos2 & E2 & H2 & Hf2 & _).
    exists s2, pos2. split_and!; [|done|congruence|done].
    apply (run_app _ _ _ _ es) in E1. cbn [app] in E1 |- *. by rewrite E1, E2.
  - destruct (pull_past_end s i id o x Hs Hx) as (s1 & E1 & H1 & Hn & Hf).
    specialize (IH s1 None cs H1). rewrite Hn in IH.
    destruct (reading _ _ _ _ _ _) as [es out]. destruct IH as (s2 & pos2 & E2 & H2 & Hf2 & Hp).
    exists s2, pos2. split_and!; [|done|congruence|done].
    apply (run_app _ _ _ _ es) in E1. cbn [app] in E1 |- *. by rewrite E1, E2.
Qed.

(** C10: the server refines the abstract stream.  From a state in which a stream the Host
    has opened stands at some position, any sequence of receive requests, each answered by the
    provider before the next one, gives the reader exactly what the abstract stream shows it:
    messages numbered consecutively from that position, half-closes and failures without a
    number, one end, and a protocol violation for every request after the end; the provider's
    stream is asked once for each request up to the end and not after it; and nothing stays
    suspended. *)
Theorem authoring_stream_refines s i id o pos xs cs :
  stands s i id o pos → Forall (valid_pull i id) xs →
  let '(es, out) := reading o pos (nextFiber s) (max_frame_bytes (limits i)) xs cs in
  ∃ s' pos', run s es = Some (s', out) ∧ stands s' i id o pos' ∧ fibers s' = fibers s ∧
    (pos = None → pos' = None).
Proof. apply reading_runs. Qed.

(** What the server says for the requests [xs]: one answer each, before which it asks the
    stream [o] of the provider if the answer came from there. *)
Fixpoint responses (o n : nat) (limit : Z) (xs : list pull) (vs : list (bool * jsval)) : list output :=
  match xs, vs with
  | x :: xs, (asked, v) :: vs =>
      (if asked then [Called n (CallReceive o)] else []) ++
      succeed n (RpcReply (pl_id x) limit) (stream_result (as_stream_action (pl_params x)) v) :: responses o (S n) limit xs vs
  | _, _ => []
  end.

(** The messages, numbered from [k], the end, and nothing after it. *)
Fixpoint delivery (k : Z) (messages : list jsval) (requests : nat) : list (bool * jsval) :=
  match messages with
  | v :: messages => (true, shown k (ReceiveMessage v)) :: delivery (k + 1) messages requests
  | [] => (true, shown k ReceiveSuccess) :: replicate requests (false, violation (js "lenso.bun-authoring"))
  end.

Lemma reading_past_end o n limit xs cs m :
  (length xs <= m)%nat →
  (reading o None n limit xs cs).2 = responses o n limit xs (replicate m (false, violation (js "lenso.bun-authoring"))).
Proof.
  revert n m. induction xs as [|x xs IH]; intros n [|m] Hm; cbn in *; try done; [lia|].
  rewrite <-(IH (S n) m) by lia. by destruct (reading _ _ _ _ _ _).
Qed.

Lemma reading_delivers o n limit xs k messages m :
  (length xs <= m)%nat →
  (reading o (Some k) n limit xs (map ReceiveMessage messages ++ [ReceiveSuccess])).2 =
    responses o n limit xs (delivery k messages m).
Proof.
  revert n k messages. induction xs as [|x xs IH]; intros n k messages Hm; [done|]. cbn [length] in Hm.
  destruct messages as [|v messages]; cbn [map app reading delivery responses advance].
  - rewrite <-(reading_past_end o (S n) limit xs [] m) by lia. by destruct (reading _ _ _ _ _ _).
  - rewrite <-(IH (S n) (k + 1) messages) by lia. by destruct (reading _ _ _ _ _ _).
Qed.
End streams.
