(* ===== verification/V2Outbound.v ===== *)
(** * Streams of the Host, used by a Plugin

    A Plugin that opens a stream of the Host and uses it, one operation after another, sees an
    abstract stream: its sends are numbered without gaps, the outcomes are those the Host
    answered, a terminal outcome or a failure closes the stream, and a closed stream sends
    nothing more to the Host. *)

From Stdlib Require Import ZArith SpecFloat.
From S2P Require Import Prelude JsValue Text Json JsonText Authoring V2 V2Invariant V2Correct V2Answers V2Framing V2Calls V2Streams.

Local Open Scope Z_scope.

(** What a Plugin does with the stream, and how the Host's side of it ends. *)
Inductive use :=
| USend (message : jsval) (c : callback_response)
| UCloseSend (c : callback_response)
| UReceive (c : callback_response)
| UCancel (c : callback_response).

Definition use_response (u : use) : callback_response :=
  match u with USend _ c | UCloseSend c | UReceive c | UCancel c => c end.

Definition use_method (u : use) : string :=
  match u with
  | USend _ _ => "lenso.stream.send"
  | UCloseSend _ => "lenso.stream.close_send"
  | UReceive _ => "lenso.stream.receive"
  | UCancel _ => "lenso.stream.cancel"
  end.

Section outbound.
Context `{AuthoringProtocol, PluginCode}.
Variable definition : PluginDefinition.
Variable runtimeProfile : jsstr.
Variable bootstrap : Bootstrap.
Variable secret : list N.

Abbreviation step := (step definition runtimeProfile bootstrap secret).
Abbreviation run := (run definition runtimeProfile bootstrap secret).

(** ** The abstract stream *)

(** The answer of the Host, checked. *)
Definition judged {A} (validate : jsval → throws A) (c : callback_response) : throws A :=
  match callback_completion c with Threw e => Throw e | Returned v => validate v end.

Context (i : InitializeParams) (o : nat) (id capability : jsstr).

(** What the Plugin gets for a use under the identifier [a], and where the stream stands then:
    before the send with this number, or closed. *)
Definition obtains (n : nat) (a : Z) (k : Z) (u : use) : list output * position :=
  let session := identity_session i in
  match u with
  | USend _ c =>
      match judged (fun v => validateStreamActionResultFor v session (dec a) id) c with
      | Ok ActionAccepted => ([ToPlugin n accepted_json], Some (k + 1))
      | Ok (ActionRuntime f) => ([ToPlugin n (runtime_json f)], None)
      | Throw e => ([PluginRejected n e], Some k)
      end
  | UCloseSend c =>
      match judged (fun v => validateStreamActionResultFor v session (dec a) id) c with
      | Ok ActionAccepted => ([ToPlugin n accepted_json], Some k)
      | Ok (ActionRuntime f) => ([ToPlugin n (runtime_json f)], None)
      | Throw e => ([PluginRejected n e], Some k)
      end
  | UReceive c =>
      match judged (fun v => validateStreamReceiveResultFor v session (dec a) id) c with
      | Ok r => ([ToPlugin n (receive_json r)],
                 match r with ReceiveMessage _ | ReceiveHalfClosed => Some k | _ => None end)
      | Throw e => ([PluginRejected n e], Some k)
      end
  | UCancel _ => ([], None)
  end.

(** The operation of the binding. *)
Definition starts_use (u : use) : event :=
  match u with
  | USend m _ => OutboundAction o (Some m)
  | UCloseSend _ => OutboundAction o None
  | UReceive _ => OutboundReceive o
  | UCancel _ => OutboundCancel o
  end.

Definition use_params (a k : Z) (u : use) : jsval :=
  stream_params (identity_session i) (dec a) id (match u with USend m _ => Some (k, m) | _ => None end).

(** The call that posts the message: a cancellation is posted on its own. *)
Definition use_call (n : nat) (u : use) : nat := match u with UCancel _ => S n | _ => n end.

Definition posts (n : nat) (a b k : Z) (u : use) : output :=
  Posted n (createProof secret (authoringCallbackProofMessage (identity_session i) (use_method u) (use_params a k u)))
    (rpc_request (JStr (dec b)) (js (use_method u)) (use_params a k u)).

(** What a use of a closed stream gives, and the identifier it takes all the same. *)
Definition refuses (n : nat) (a : Z) (u : use) : list output * Z :=
  match u with
  | USend _ _ | UCloseSend _ => ([ToPlugin n (violation capability)], a + 1)
  | UReceive _ => ([ToPlugin n (violation capability)], a)
  | UCancel _ => ([], a)
  end.

(** Uses from a position on, with the next call [n], outbound identifier [a] and callback
    identifier [b]: the events, what they give, and where the stream stands at the end. *)
Fixpoint traffic (pos : position) (n : nat) (a b : Z) (us : list use) : list event * list output * position :=
  match us with
  | [] => ([], [], pos)
  | u :: us =>
      match pos with
      | Some k =>
          let m := use_call n u in
          let '(got, pos) := obtains m a k u in
          let '(es, out, pos) := traffic pos (S m) (a + 1) (b + 1) us in
          ([starts_use u; Resume m (ProofComputed []); Resume m (CallbackDone (use_response u))] ++ es,
           posts m a b k u :: got ++ out, pos)
      | None =>
          let '(got, a) := refuses n a u in
          let '(es, out, pos) := traffic None (S n) a b us in
          (starts_use u :: es, got ++ out, pos)
      end
  end.

(** ** The server is where the abstract stream is *)

Definition at_position (x : OutboundStream) (pos : position) : Prop :=
  os_init x = i ∧ os_stream_id x = id ∧ os_capability x = capability ∧
  match pos with Some k => os_closed x = false ∧ os_nextSend x = k | None => os_closed x = true end.

Definition holds_stream (s : state) (pos : position) : Prop :=
  initialize s = Some i ∧ numbered s ∧ activeOutboundCalls s < max_active_outbound_calls (limits i) ∧
  (∃ x, outbound_heap s !! o = Some x ∧ at_position x pos) ∧
  assoc id (outboundStreams s) = match pos with Some _ => Some o | None => None end.

Lemma holds_bound s pos : holds_stream s pos → (o <? length (outbound_heap s))%nat = true.
Proof. intros (_ & _ & _ & (x & Hx & _) & _). apply Nat.ltb_lt. by eapply lookup_lt_Some. Qed.

Lemma finish_at x s :
  outbound_heap s !! o = Some x →
  outbound_heap (finish_outbound o s) !! o =
    Some {| os_init := os_init x; os_stream_id := os_stream_id x; os_capability := os_capability x;
            os_nextSend := os_nextSend x; os_closed := true |} ∧
  outboundStreams (finish_outbound o s) = delete_key (os_stream_id x) (outboundStreams s).
Proof.
  intros Hx. unfold finish_outbound. rewrite Hx. cbn. split; [|done].
  apply list_lookup_insert_eq. by eapply lookup_lt_Some.
Qed.

(** What a use leaves as it was. *)
Definition same_rest (s s' : state) : Prop :=
  fibers s' = fibers s ∧ activeOutboundCalls s' = activeOutboundCalls s ∧ initialize s' = initialize s.

(** Numbers of a state. *)
Definition numbers (s : state) (n : nat) (a b : Z) : Prop :=
  nextFiber s = n ∧ nextOutboundId s = a ∧ nextCallbackId s = b.

(** How a segment leaves the stream, when it changes nothing else that matters here. *)
Lemma holds_after s s' pos x :
  initialize s = Some i → numbered s → activeOutboundCalls s < max_active_outbound_calls (limits i) →
  fibers s' = fibers s → activeOutboundCalls s' = activeOutboundCalls s → initialize s' = initialize s →
  (nextFiber s ≤ nextFiber s')%nat → outbound_heap s' !! o = Some x → at_position x pos →
  assoc id (outboundStreams s') = match pos with Some _ => Some o | None => None end →
  holds_stream s' pos ∧ same_rest s s'.
Proof.
  intros Hi Hn Hr Ef Ea Ei Hle Hx Hp Ht. split; [|by split]. split; [congruence|]. split.
  - intros m. rewrite Ef. intros Hm%Hn. lia.
  - split; [by rewrite Ea|]. by split; [exists x|].
Qed.

(** The operation up to the message: the state in which it waits for the proof. *)
Definition waits_in (u : use) (s : state) : state :=
  let s := set_nextFiber (S (nextFiber s)) s in
  match u with
  | USend _ _ | UCloseSend _ => enter_outbound (take_outbound_id s)
  | UReceive _ => take_outbound_id (enter_outbound s)
  | UCancel _ => let s := take_outbound_id (finish_outbound o s) in set_nextFiber (S (nextFiber s)) s
  end.

Definition use_callback (a : Z) (u : use) : callback :=
  match u with
  | USend _ _ => CbStreamAction o (dec a) true
  | UCloseSend _ => CbStreamAction o (dec a) false
  | UReceive _ => CbStreamReceive o (dec a)
  | UCancel _ => CbStreamCancel
  end.

Lemma use_starts s n a b k u :
  holds_stream s (Some k) → numbers s n a b →
  step s (starts_use u) = Some (suspend (use_call n u) PluginReply
    (AwaitProof i (use_callback a u) (use_method u) (use_params a k u)) (waits_in u s)).
Proof.
  intros Hh (En & Ea & Eb). pose proof (holds_bound _ _ Hh) as Hb.
  destruct Hh as (Hi & Hn & Hr & (x & Hx & Ei & Eid & Ec & Ho & Hk) & Ht).
  destruct u; cbn [starts_use V2.step]; rewrite Hb; f_equal; unfold spawn, outbound_action, outbound_receive, outbound_cancel;
    cbn [outbound_heap set_nextFiber]; rewrite Hx, Ho, ?Ei, ?Eid; unfold callback_from.
  1-3: cbn [activeOutboundCalls take_outbound_id set_nextFiber set_nextOutboundId];
    rewrite (proj2 (Z.leb_gt _ _) Hr); cbn [initialize enter_outbound take_outbound_id set_activeOutboundCalls set_nextOutboundId set_nextFiber];
    rewrite Hi; subst; reflexivity.
  cbn [initialize take_outbound_id set_nextOutboundId set_nextFiber]. unfold finish_outbound. cbn [outbound_heap set_nextFiber].
  rewrite Hx. cbn [initialize set_outboundStreams set_outbound_heap set_nextFiber]. rewrite Hi. subst.
  unfold waits_in, finish_outbound. cbn [outbound_heap set_nextFiber]. rewrite Hx. reflexivity.
Qed.

(** Back from the Host, before the outcome is looked at. *)
Definition resumed (s t : state) (m : nat) (a b : Z) : Prop :=
  outbound_heap t = outbound_heap s ∧ outboundStreams t = outboundStreams s ∧ same_rest s t ∧ numbers t (S m) (a + 1) (b + 1).

Definition ends_at (s : state) (m : nat) (a b : Z) (pos : position) (s' : state) : Prop :=
  holds_stream s' pos ∧ same_rest s s' ∧ numbers s' (S m) (a + 1) (b + 1).

Section ends.
Context (s t : state) (m : nat) (a b k : Z) (Hs : holds_stream s (Some k)) (Hm : (nextFiber s ≤ m)%nat) (Hr : resumed s t m a b).

Lemma kept_ends : ends_at s m a b (Some k) t.
Proof.
  destruct Hs as (Hi & Hn & Hl & (x & Hx & Hp) & Ht), Hr as (E1 & E2 & (E3 & E4 & E5) & E6 & E7 & E8).
  unfold ends_at. rewrite (and_assoc (holds_stream _ _)). split; [|by split_and!].
  eapply (holds_after s); try done; [lia|by rewrite E1|by rewrite E2].
Qed.

Lemma bumped_ends : ends_at s m a b (Some (k + 1)) (bump_send o t).
Proof.
  destruct Hs as (Hi & Hn & Hl & (x & Hx & Ei & Eid & Ec & Ho & Hk) & Ht), Hr as (E1 & E2 & (E3 & E4 & E5) & E6 & E7 & E8).
  unfold ends_at. rewrite (and_assoc (holds_stream _ _)). split; [|by split_and!].
  eapply (holds_after s); try done; [cbn; lia|cbn; rewrite E1, list_lookup_alter, Hx, decide_True by done; reflexivity| |cbn; by rewrite E2].
  split_and!; cbn; try done. lia.
Qed.

Lemma finished_ends : ends_at s m a b None (finish_outbound o t).
Proof.
  destruct Hs as (Hi & Hn & Hl & (x & Hx & Ei & Eid & Ec & Ho & Hk) & Ht), Hr as (E1 & E2 & (E3 & E4 & E5) & E6 & E7 & E8).
  rewrite <-E1 in Hx. destruct (finish_at x t Hx) as [F1 F2].
  assert (Hf : fibers (finish_outbound o t) = fibers t ∧ activeOutboundCalls (finish_outbound o t) = activeOutboundCalls t ∧
    initialize (finish_outbound o t) = initialize t ∧ numbers (finish_outbound o t) (S m) (a + 1) (b + 1))
    by (unfold finish_outbound; rewrite Hx; done).
  destruct Hf as (G1 & G2 & G3 & G4).
  unfold ends_at. rewrite (and_assoc (holds_stream _ _)). split; [|done].
  eapply (holds_after s); [done|done|done|congruence|congruence|congruence|destruct G4 as [-> _]; lia|exact F1|done|].
  rewrite F2, Eid. apply delete_key_assoc.
Qed.
End ends.

(** The end of an operation, from the state in which its message was posted. *)
Lemma use_ends s n a b k u :
  holds_stream s (Some k) → numbers s n a b →
  let t := set_nextCallbackId (nextCallbackId (waits_in u s) + 1) (waits_in u s) in
  let done_ := callback_done (use_call n u) PluginReply i (use_callback a u) (callback_completion (use_response u)) t in
  done_.2 = (obtains (use_call n u) a k u).1 ∧ ends_at s (use_call n u) a b (obtains (use_call n u) a k u).2 done_.1.
Proof.
  intros Hh (En & Ea & Eb) t done_. pose proof Hh as (Hi & Hn & Hl & (x & Hx & Ei & Eid & Ec & Ho & Hk) & Ht).
  destruct u as [m c|c|c|c]; unfold done_, obtains; cbn [use_callback use_call use_response].
  1-3: assert (Hres : resumed s (leave_outbound t) n a b) by
         (unfold t; repeat split; cbn; try done; try congruence; lia);
    unfold callback_done, deliver, judged; change (outbound_heap t) with (outbound_heap s); rewrite Hx, Ei, Eid;
    destruct (callback_completion c) as [v|e]; [|by split; [|apply kept_ends; [|lia|]]].
  - destruct (validateStreamActionResultFor v _ _ id) as [[|f]|e]; (split; [done|]);
      [apply bumped_ends|eapply finished_ends|apply kept_ends]; done || lia.
  - destruct (validateStreamActionResultFor v _ _ id) as [[|f]|e]; (split; [done|]);
      [apply kept_ends|eapply finished_ends|apply kept_ends]; done || lia.
  - destruct (validateStreamReceiveResultFor v _ _ id) as [[]|e]; (split; [done|]);
      first [apply kept_ends; done || lia|eapply finished_ends; done || lia].
  - split; [done|]. set (t0 := set_nextCallbackId (b + 1) (set_nextFiber (S (S n)) (take_outbound_id s))).
    assert (Hres : resumed s t0 (S n) a b) by (unfold t0; repeat split; cbn; congruence).
    assert (E : t = finish_outbound o t0).
    { unfold t, t0, waits_in, finish_outbound. cbn [outbound_heap set_nextFiber set_nextCallbackId take_outbound_id set_nextOutboundId].
      rewrite Hx. subst n b. reflexivity. }
    rewrite E. eapply finished_ends; done || lia.
Qed.

(** One use of an open stream. *)
Lemma use_open s n a b k u :
  holds_stream s (Some k) → numbers s n a b →
  let m := use_call n u in
  ∃ s', run s [starts_use u; Resume m (ProofComputed []); Resume m (CallbackDone (use_response u))] =
      Some (s', posts m a b k u :: (obtains m a k u).1) ∧ ends_at s m a b (obtains m a k u).2 s'.
Proof.
  intros Hh Hnum m. destruct (use_ends s n a b k u Hh Hnum) as [Eout He]. cbn zeta in *. fold m in Eout, He.
  eexists. split; [|exact He]. pose proof (use_starts s n a b k u Hh Hnum) as Hst. fold m in Hst.
  assert (Hfib : fibers (waits_in u s) = fibers s ∧ nextCallbackId (waits_in u s) = b).
  { destruct Hh as (_ & _ & _ & (x & Hx & _) & _), Hnum as (_ & _ & Eb). destruct u; try done.
    unfold waits_in, finish_outbound. cbn [outbound_heap set_nextFiber]. by rewrite Hx. }
  destruct Hfib as [Ef Eb]. rewrite (callback_round _ _ _ _ s _ m _ _ _ _ _ _ _) with (2 := Hst).
  - unfold posts. rewrite <-Eout, Eb. reflexivity.
  - rewrite Ef. destruct Hh as (_ & Hn & _), Hnum as (En & _). intros Hin%Hn. unfold m, use_call in Hin. destruct u; lia.
Qed.

(** One use of a closed stream: no message. *)
Lemma use_closed s n a b u :
  holds_stream s None → numbers s n a b →
  ∃ s', run s [starts_use u] = Some (s', (refuses n a u).1) ∧
    holds_stream s' None ∧ same_rest s s' ∧ numbers s' (S n) (refuses n a u).2 b.
Proof.
  intros Hh (En & Ea & Eb). pose proof (holds_bound _ _ Hh) as Hb.
  destruct Hh as (Hi & Hn & Hr & (x & Hx & Ei & Eid & Ec & Ho) & Ht).
  assert (∀ s', outbound_heap s' = outbound_heap s → outboundStreams s' = outboundStreams s → same_rest s s' →
    nextFiber s' = S n → holds_stream s' None) as Hk.
  { intros s' H1 H2 (H3 & H4 & H5) H6. eapply (holds_after s); try done; [lia|by rewrite H1|by rewrite H2]. }
  destruct u; cbn [starts_use V2.run V2.step]; rewrite Hb; unfold spawn, outbound_action, outbound_receive, outbound_cancel;
    cbn [outbound_heap set_nextFiber]; rewrite Hx, Ho, ?Ec, En; (eexists; split; [reflexivity|]);
    (split; [apply Hk; repeat split; cbn; congruence|]); repeat split; cbn; congruence.
Qed.

Lemma traffic_runs s pos n a b us :
  holds_stream s pos → numbers s n a b →
  let '(es, out, pos') := traffic pos n a b us in
  ∃ s', run s es = Some (s', out) ∧ holds_stream s' pos' ∧ same_rest s s'.
Proof.
  revert s pos n a b. induction us as [|u us IH]; intros s pos n a b Hh Hnum; cbn [traffic]; [by exists s|].
  destruct pos as [k|].
  - destruct (use_open s n a b k u Hh Hnum) as (s1 & E1 & Hh1 & (R1 & R2 & R3) & Hn1). cbn zeta in *.
    destruct (obtains (use_call n u) a k u) as [got pos1]. cbn [fst snd] in *.
    specialize (IH s1 pos1 _ _ _ Hh1 Hn1). destruct (traffic _ _ _ _ _) as [[es out] pos2].
    destruct IH as (s2 & E2 & Hh2 & (R4 & R5 & R6)). exists s2.
    split; [|split; [done|split_and!; congruence]].
    rewrite (run_app _ _ _ _ _ _ _ _ es E1), E2. done.
  - destruct (use_closed s n a b u Hh Hnum) as (s1 & E1 & Hh1 & (R1 & R2 & R3) & Hn1).
    destruct (refuses n a u) as [got a1]. cbn [fst snd] in *.
    specialize (IH s1 None _ _ _ Hh1 Hn1). destruct (traffic _ _ _ _ _) as [[es out] pos2].
    destruct IH as (s2 & E2 & Hh2 & (R4 & R5 & R6)). exists s2.
    split; [|split; [done|split_and!; congruence]].
    change (starts_use u :: es) with ([starts_use u] ++ es). rewrite (run_app _ _ _ _ _ _ _ _ es E1), E2. done.
Qed.

(** A stream that the Host opened. *)
Lemma stream_opened s cx parent route operation payload elapsed c :
  may_call OutStreamOpen cx s i parent → numbered s → o = length (outbound_heap s) → capability = route_capability_id route →
  judged (fun v => validateStreamOpenResultFor v (identity_session i) (dec (nextOutboundId s))) c = Ok (OutOpened id) →
  let n := nextFiber s in
  let params := outbound_message OutStreamOpen s i parent route operation payload elapsed in
  ∃ s', run s [HostCall OutStreamOpen cx route operation payload elapsed; Resume n (ProofComputed []); Resume n (CallbackDone c)] =
      Some (s', [Posted n (createProof secret (authoringCallbackProofMessage (identity_session i) "lenso.stream.open" params))
                   (rpc_request (JStr (dec (nextCallbackId s))) (js "lenso.stream.open") params); StreamToPlugin n o]) ∧
    holds_stream s' (Some 0) ∧ same_rest s s' ∧ numbers s' (S n) (nextOutboundId s + 1) (nextCallbackId s + 1).
Proof.
  intros Hm Hn Eo Ec Hj n params.
  pose proof (outbound_admitted n OutStreamOpen cx route operation payload elapsed (set_nextFiber (S n) s) i parent Hm) as E.
  destruct Hm as (_ & Hi & _ & _ & Hfull). apply orb_false_iff in Hfull as [Hroom%Z.leb_gt _].
  assert (Hopen : ∀ t, callback_done n PluginReply i (CbStreamOpen (dec (nextOutboundId s)) (route_capability_id route))
    (callback_completion c) t = open_outbound n i id capability (leave_outbound t)).
  { intros t. unfold judged in Hj. cbn [callback_done]. unfold deliver. rewrite Ec.
    destruct (callback_completion c) as [v|e]; [|done]. by rewrite Hj. }
  eexists. split; [erewrite (callback_round _ _ _ _ s _ n i (CbStreamOpen (dec (nextOutboundId s)) (route_capability_id route))
    "lenso.stream.open" params (take_outbound_id (enter_outbound (set_nextFiber (S n) s))));
    [rewrite Hopen, Eo; reflexivity|intros Hin%Hn; unfold n in Hin; cbn in Hin; lia|cbn [V2.step]; f_equal; exact E]|].
  rewrite (and_assoc (holds_stream _ _)). split; [|by repeat split].
  eapply (holds_after s); try done; cbn; [lia|lia|by rewrite Eo; apply list_lookup_middle|done|].
  by rewrite assoc_set_lookup, decide_True, Eo.
Qed.

(** C11: using a stream of the Host refines an abstract stream.  When the Host opens a stream for
    an invocation, any sequence of sends, half-closes, receives and cancellations, each ended
    before the next one and whatever the Host answers, posts and gives exactly what the abstract
    stream says: one authenticated message per use with an identifier of its own, sends numbered
    consecutively from 0, the validated outcome or the failure for the Plugin; a terminal outcome,
    a runtime failure or a cancellation closes the stream, after which nothing is posted and the
    Plugin is told that it violates the protocol; a closed stream is forgotten, no call stays
    suspended and the pool of outbound calls is as before. *)
Theorem outbound_stream_refines s cx parent route operation payload elapsed c us :
  may_call OutStreamOpen cx s i parent → numbered s → o = length (outbound_heap s) → capability = route_capability_id route →
  judged (fun v => validateStreamOpenResultFor v (identity_session i) (dec (nextOutboundId s))) c = Ok (OutOpened id) →
  let n := nextFiber s in
  let params := outbound_message OutStreamOpen s i parent route operation payload elapsed in
  let '(es, out, pos) := traffic (Some 0) (S n) (nextOutboundId s + 1) (nextCallbackId s + 1) us in
  ∃ s', run s ([HostCall OutStreamOpen cx route operation payload elapsed; Resume n (ProofComputed []);
                Resume n (CallbackDone c)] ++ es) =
      Some (s', [Posted n (createProof secret (authoringCallbackProofMessage (identity_session i) "lenso.stream.open" params))
                   (rpc_request (JStr (dec (nextCallbackId s))) (js "lenso.stream.open") params); StreamToPlugin n o] ++ out) ∧
    holds_stream s' pos ∧ same_rest s s'.
Proof.
  intros Hm Hn Eo Ec Hj n params.
  destruct (stream_opened s cx parent route operation payload elapsed c Hm Hn Eo Ec Hj) as (s1 & E1 & Hh & (R1 & R2 & R3) & Hnum).
  pose proof (traffic_runs s1 (Some 0) (S n) (nextOutboundId s + 1) (nextCallbackId s + 1) us Hh Hnum) as Ht.
  destruct (traffic _ _ _ _ _) as [[es out] pos]. destruct Ht as (s2 & E2 & Hh2 & (R4 & R5 & R6)). exists s2.
  split; [|split; [done|split_and!; congruence]]. etransitivity; [exact (run_app _ _ _ _ _ _ _ _ es E1)|]. by rewrite E2.
Qed.
End outbound.
