(* ===== verification/V2Start.v ===== *)
(** * How an Authoring V2 server starts

    [servePluginV2] reads one line of the private channel, makes the server and announces its
    port: it starts exactly when the line is a bootstrap within the limit of the channel whose
    secret decodes, and then one line is written that says where it listens. *)

From Stdlib Require Import ZArith SpecFloat.
From S2P Require Import Prelude JsValue Text Json JsonText Authoring V2.

Local Open Scope Z_scope.

(** ** Definitions *)

Definition BUN_AUTHORING_RUNTIME_PROFILE : jsstr := js "lenso.bun-authoring@2".

(** [writePrivateLine(value)]: the text that is written, when the callback of the write gets no
    error. *)
Definition writePrivateLine (value : jsval) (error : option thrown) : throws jsstr :=
  match error with
  | None => mret (json_text value ++ [10%N])
  | Some e => Throw e
  end.

(** What [serve] announces. *)
Definition announcement (port : Z) : jsval :=
  JObj [(js "protocol", JStr BUN_AUTHORING_RUNTIME_PROFILE); (js "port", JNum (num port))].

Section start.
Context `{AuthoringProtocol}.

(** [serve()] until it waits for its end. *)
Definition serve (port : Z) (write_error : option thrown) (s : state) : throws (state * jsstr) :=
  written ← writePrivateLine (announcement port) write_error;
  mret (s, written).

(** [servePluginV2(definition)] until the server waits for its end: the bootstrap and the secret
    it holds, its state, and what was written to the private channel. *)
Definition servePluginV2 (line : option jsstr) (platform_message : jsstr) (port : Z) (write_error : option thrown)
  : throws (Bootstrap * list N * state * jsstr) :=
  bootstrap ← readBootstrap line platform_message;
  '(secret, s) ← start bootstrap;
  '(s, written) ← serve port write_error s;
  mret (bootstrap, secret, s, written).

(** ** Reading the bootstrap *)

(** The two spellings of a bootstrap. *)
Definition spells (fs : list (jsstr * jsval)) (b : Bootstrap) : Prop :=
  let origin := (js "callback_origin", JStr (callback_origin b)) in
  let secret := (js "bootstrap_secret", JStr (bootstrap_secret b)) in
  fs = [origin; secret] ∨ fs = [secret; origin].

Lemma two_keys (fs : list (jsstr * jsval)) a b :
  keys fs ≡ₚ [a; b] → ∃ v w, fs = [(a, v); (b, w)] ∨ fs = [(b, w); (a, v)].
Proof.
  intros Hp. pose proof (Permutation_length Hp) as Hl. unfold keys in *. rewrite length_map in Hl.
  destruct fs as [|[k v] [|[l w] [|]]]; try done. cbn [map fst] in Hp.
  apply Permutation_length_2_inv in Hp as [[= -> ->]|[= -> ->]]; eauto.
Qed.

Lemma bootstrap_keys fs b :
  bool_decide (json_text (JArr (map JStr (sort_strings (keys fs)))) =
    json_text (JArr [JStr (js "bootstrap_secret"); JStr (js "callback_origin")])) = true ∧
  field fs "callback_origin" = JStr (callback_origin b) ∧ field fs "bootstrap_secret" = JStr (bootstrap_secret b) ↔
  spells fs b.
Proof.
  split.
  - intros (Hk%bool_decide_eq_true & Ho & Hs).
    change (JArr [JStr (js "bootstrap_secret"); JStr (js "callback_origin")])
      with (JArr (map JStr [js "bootstrap_secret"; js "callback_origin"])) in Hk.
    apply json_strings_inj in Hk. pose proof (sort_strings_perm (keys fs)) as Hp. rewrite Hk in Hp. symmetry in Hp.
    apply two_keys in Hp as (v & w & [-> | ->]); vm_compute in Ho, Hs; subst; [by right|by left].
  - by intros [-> | ->].
Qed.

Lemma readBootstrap_Ok line platform_message b :
  readBootstrap line platform_message = Ok b ↔
  ∃ text fs, line = Some text ∧ byteLength text <= 4096 ∧ json_parse text = Some (JObj fs) ∧ spells fs b.
Proof.
  unfold readBootstrap. destruct line as [text|]; [|split; [done|by intros (? & ? & ? & _)]].
  unfold throw_if. destruct (Z.ltb_spec 4096 (byteLength text)) as [Hlt|Hle]; cbn [mbind result_bind].
  { split; [done|]. intros (? & ? & [= <-] & Hb & _). lia. }
  destruct (json_parse text) as [[| | | | | |fs|]|] eqn:Hj;
    try (split; [done|by intros (? & ? & [= <-] & _ & Hj' & _); rewrite Hj in Hj']).
  split.
  - destruct (bool_decide _) eqn:Hk; [|done].
    destruct (field fs "callback_origin") as [| | | |o| | |] eqn:Ho; try done.
    destruct (field fs "bootstrap_secret") as [| | | |s| | |] eqn:Hs; try done.
    intros [= <-]. exists text, fs. split_and!; try done. apply bootstrap_keys. by split_and!.
  - intros (? & ? & [= <-] & _ & Hj' & Hb). rewrite Hj in Hj'. injection Hj' as <-.
    apply bootstrap_keys in Hb as (-> & -> & ->). by destruct b.
Qed.

(** ** Starting *)

Lemma announcement_portable port : 0 <= port < 65536 → portable (announcement port) = true.
Proof.
  intros Hp. unfold announcement. cbn [portable]. rewrite bool_decide_true by reflexivity.
  cbn [forallb fst snd]. rewrite portable_port by done. reflexivity.
Qed.

(** The line a Host writes for a bootstrap. *)
Definition bootstrap_json (b : Bootstrap) : jsval :=
  JObj [(js "callback_origin", JStr (callback_origin b)); (js "bootstrap_secret", JStr (bootstrap_secret b))].

(** C37: an Authoring V2 server starts exactly when the first line of the private channel is at most
    4,096 bytes of JSON for an object whose only properties are the two strings of a bootstrap,
    the secret decodes and the announcement is written; it then holds that bootstrap, has served
    nothing, and what it wrote reads as the profile and the port.  The line a Host writes for a
    bootstrap is such a line. *)
Theorem authoring_start_exact line platform_message port write_error b secret s written :
  (servePluginV2 line platform_message port write_error = Ok (b, secret, s, written) ↔
    ∃ text fs, line = Some text ∧ byteLength text <= 4096 ∧ json_parse text = Some (JObj fs) ∧ spells fs b ∧
      decodeBase64Url32 (bootstrap_secret b) = Some secret ∧ s = empty_state ∧ write_error = None ∧
      written = json_text (announcement port) ++ [10%N]) ∧
  (0 <= port < 65536 →
    json_parse (decode (encode (json_text (announcement port) ++ [10%N]))) = Some (announcement port)) ∧
  (portable (bootstrap_json b) = true → byteLength (json_text (bootstrap_json b)) <= 4096 →
    readBootstrap (Some (json_text (bootstrap_json b))) platform_message = Ok b).
Proof.
  split; [|split].
  - unfold servePluginV2. rewrite bind_Ok. setoid_rewrite readBootstrap_Ok. split.
    + intros (b' & (text & fs & -> & Hl & Hj & Hb) & H'). unfold start, serve, writePrivateLine in H'.
      destruct (decodeBase64Url32 (bootstrap_secret b')) as [k|] eqn:Hk; [|done].
      destruct write_error; [done|]. injection H' as <- <- <- <-. exists text, fs. by split_and!.
    + intros (text & fs & -> & Hl & Hj & Hb & Hk & -> & -> & ->). exists b. split; [by exists text, fs|].
      unfold start. by rewrite Hk.
  - intros Hp. by apply announced, announcement_portable.
  - intros Hp Hl. apply readBootstrap_Ok. exists (json_text (bootstrap_json b)). eexists.
    split; [done|]. split; [done|]. split; [by apply json_roundtrip|]. by left.
Qed.
End start.
