(* ===== verification/V2Runs.v ===== *)
(** * Executions of the Authoring V2 server

    A small Host and plugin on which the guarantees apply, and five behaviours that the
    messages of the source do not announce: a finished invocation keeps its access to the
    Host, a stop that comes too early is final, an invocation is admitted while the stop hook
    runs, two sends with one sequence number are both taken, and two handshakes in flight are
    both accepted. *)

From Stdlib Require Import ZArith.
From S2P Require Import Prelude JsValue Text Json Authoring V2 V2Invariant V2Correct V2Limits V2Answers V2Framing V2Calls V2Streams V2Outbound V2Lifecycle JsonText.

Local Open Scope Z_scope.

(** ** Behaviours beyond the messages *)

Section behaviours.
Context `{AuthoringProtocol, PluginCode}.
Variable definition : PluginDefinition.

(** A finished invocation keeps its access to the Host.  When the provider has
    answered, the invocation leaves the active table and its identifier is retired, but
    its context stays registered: with that context the plugin can still make an
    outbound call, which the server admits and counts like any other. *)
Theorem finished_invocation_calls_host s i n r p cx c parent m route operation payload elapsed :
  initialize s = Some i → cx ∈ contexts s → context_heap s !! cx = Some parent → cx_aborted parent = false →
  activeOutboundCalls s < max_active_outbound_calls (limits i) →
  let s1 := (invoked n r p cx c s).1 in
  let s2 := (boundClient m OutCall cx route operation payload elapsed s1).1 in
  (correlation_id p ∉ map fst (active s1)) ∧ correlation_id p ∈ retired s1 ∧ cx ∈ contexts s1 ∧
  activeOutboundCalls s2 = activeOutboundCalls s + 1 ∧
  nextOutboundId s2 = nextOutboundId s + 1.
Proof.
  intros Hi Hcx Hctx Hab Hlim. cbn zeta.
  assert (∃ f, (invoked n r p cx c s).1 =
    set_fibers (fibers s ++ [(n, f)])
      (add_retired (correlation_id p) (set_active (delete_key (correlation_id p) (active s)) s))) as [f ->].
  { unfold invoked, complete_invocation, settled, callback_from. cbn. rewrite Hi.
    destruct c; by eexists. }
  split_and!.
  - cbn. unfold delete_key. intros ([k v] & -> & [Hk _]%list_elem_of_filter)%list_elem_of_fmap. done.
  - cbn. destruct (mem (correlation_id p) (retired s)) eqn:Hm; [by apply mem_true in Hm|].
    apply elem_of_app. right. by left.
  - done.
  - unfold boundClient, outbound. cbn. rewrite bool_decide_eq_true_2 by done. cbn. rewrite Hi, Hctx, Hab.
    unfold outbound_full. cbn. rewrite (proj2 (Z.leb_gt _ _)) by done. cbn.
    unfold callback_from. cbn. rewrite Hi. done.
  - unfold boundClient, outbound. cbn. rewrite bool_decide_eq_true_2 by done. cbn. rewrite Hi, Hctx, Hab.
    unfold outbound_full. cbn. rewrite (proj2 (Z.leb_gt _ _)) by done. cbn.
    unfold callback_from. cbn. rewrite Hi. done.
Qed.

(** A stop that arrives while an invocation is active is refused and is the last:
    the attempt is recorded, nothing is cancelled, and every later stop of that state
    is refused too, so the stop hook does not run. *)
Theorem early_stop_is_final s i n r p :
  initialize s = Some i → validateStop p (identity_session i) = Ok tt → stopAttempted s = false →
  active s ≠ [] →
  let s1 := (stop definition n r p s).1 in
  s1 = set_stopAttempted true s ∧
  ∀ m r' p', validateStop p' (identity_session i) = Ok tt →
    stop definition m r' p' s1 = refused_with m r' "Bun Plugin stopped more than once" s1.
Proof.
  intros Hi Hv Hs Ha. cbn zeta. assert ((stop definition n r p s).1 = set_stopAttempted true s) as ->.
  { unfold stop. rewrite Hi, Hv, Hs. cbn [active set_stopAttempted].
    destruct (active s); [done|]. done. }
  split; [done|]. intros m r' p' Hv'. unfold stop. cbn. by rewrite Hi, Hv'.
Qed.

(** Work is admitted while the stop hook runs: the stop has checked that nothing is unfinished,
    but an invocation that arrives before the hook has ended is taken like any other, and it is
    still active when the server finishes. *)
Theorem stopping_admits_work s i n m r r' p q cx c binding :
  initialize s = Some i → is_Some (instance s) → 0 < hooks s → validateInvoke p i = Ok tt →
  known (correlation_id p) s = false → Z.of_nat (length (retired s)) < max_retired_ids (limits i) →
  Z.of_nat (length (active s)) < max_active_invocations (limits i) →
  assoc (endpoint_id p) (providers s) = Some binding →
  let s1 := (invoke m r p s).1 in
  let s2 := (stop_hook_done n r' q cx c s1).1 in
  (m, {| fb_reply := r; fb_at := AwaitInvoke p (length (context_heap s)) |}) ∈ fibers s1 ∧
  finishing s2 = true ∧ correlation_id p ∈ map fst (active s2).
Proof.
  intros Hi [v Hv] _ Hok Hk Hr Ha Hb. cbn zeta.
  assert ((invoke m r p s).1 = (suspend m r (AwaitInvoke p (length (context_heap s))) (enter_active p s)).1) as ->.
  { unfold invoke. rewrite Hi, Hok, Hv, Hk, (proj2 (Z.leb_gt _ _)), (proj2 (Z.leb_gt _ _)) by done. cbn zeta.
    change (providers (enter_active p s)) with (providers s). by rewrite Hb. }
  split; [cbn; apply elem_of_app; right; by left|].
  unfold stop_hook_done, answer. destruct c; (split; [done|]); cbn; rewrite map_app; apply elem_of_app; right; by left.
Qed.

(** Two sends that carry the same sequence number are both taken when the second
    arrives before the provider has answered the first; once both are accepted the
    stream expects the number after the next, and the next one is refused. *)
Theorem concurrent_sends_accepted s i n1 n2 r p o stream :
  initialize s = Some i → validateStreamAction p (identity_session i) "stream_send" = Ok tt →
  assoc (sa_stream_id p) (streams s) = Some o → stream_heap s !! o = Some stream →
  sa_sequence p = dec (nextSendSequence stream) →
  let s1 := (send_stream n1 r p s).1 in
  let s2 := (send_stream n2 r p s1).1 in
  let s3 := (sent n1 r p o (Returned ActionAccepted) s2).1 in
  let s4 := (sent n2 r p o (Returned ActionAccepted) s3).1 in
  fibers s2 = fibers s ++ [(n1, {| fb_reply := r; fb_at := AwaitSend p o |});
                           (n2, {| fb_reply := r; fb_at := AwaitSend p o |})] ∧
  nextSendSequence <$> stream_heap s4 !! o = Some (nextSendSequence stream + 2).
Proof.
  intros Hi Hv Hst Hh Hseq. cbn zeta.
  assert (∀ n t, initialize t = Some i → streams t = streams s → stream_heap t = stream_heap s →
    send_stream n r p t = await_call n r (AwaitSend p o) (CallSend o (sa_message p)) t) as Hsend.
  { intros n t E1 E2 E3. unfold send_stream, stream_action. rewrite E1, Hv, E2, E3, Hst. cbn. rewrite Hh. cbn.
    by rewrite bool_decide_eq_true_2. }
  rewrite (Hsend n1 s) by done. rewrite (Hsend n2) by done. cbn. rewrite <- app_assoc. split; [done|].
  rewrite !list_lookup_alter_eq, Hh. cbn. f_equal. lia.
Qed.

Variable runtimeProfile : jsstr.
Variable bootstrap : Bootstrap.
Variable secret : list N.

(** A handshake that every check of [#initializeSession] passes. *)
Definition genuine (q : InitializeRequest) (payload : list N) : Prop :=
  ir_callback_origin q = callback_origin bootstrap ∧ authoringHandshakeProofPayload q = Ok payload ∧
  verifyProof secret (authoringHostProofMessage (sha256 payload)) (ir_host_proof q) "host_proof" = Ok tt ∧
  validateDefinition definition runtimeProfile (ir_initialize q) = Ok tt.

(** Two genuine handshakes in flight together are both accepted: the second passes
    the guard against a second initialization while the proof of the first is being
    computed, and then replaces the initialization the first has installed. *)
Theorem concurrent_handshakes_accepted s n m r r' p q a b x y :
  initialize s = None → genuine p a → genuine q b →
  let s1 := (initialize_session bootstrap n r p s).1 in
  let s2 := (initialize_session bootstrap m r' q s1).1 in
  let s3 := (initialize_verified definition runtimeProfile secret n r p (sha256 a) x s2).1 in
  let s4 := (initialize_verified definition runtimeProfile secret m r' q (sha256 b) y s3).1 in
  fibers s2 = fibers s ++ [(n, {| fb_reply := r; fb_at := AwaitVerify p (sha256 a) |});
                           (m, {| fb_reply := r'; fb_at := AwaitVerify q (sha256 b) |})] ∧
  initialize s3 = Some (ir_initialize p) ∧ initialize s4 = Some (ir_initialize q).
Proof.
  intros Hs (Op & Ap & Vp & Dp) (Oq & Aq & Vq & Dq). cbn zeta.
  assert (∀ k rr z c t, initialize t = None → ir_callback_origin z = callback_origin bootstrap →
    authoringHandshakeProofPayload z = Ok c →
    initialize_session bootstrap k rr z t = suspend k rr (AwaitVerify z (sha256 c)) t) as Hopen.
  { intros k rr z c t Ht Ho Ha. unfold initialize_session. rewrite Ht, Ha, Ho. by rewrite bool_decide_eq_true_2. }
  rewrite (Hopen n r p a s) by done. rewrite (Hopen m r' q b) by done.
  unfold initialize_verified. rewrite Vp, Vq. cbn. rewrite Dp, Dq. cbn.
  split; [|done]. by rewrite <- app_assoc.
Qed.
End behaviours.

(** ** A small Host and plugin *)

Module Demo.
Definition demo_limits : Limits :=
  {| max_frame_bytes := 100000; max_retired_ids := 10; max_active_invocations := 2; max_queued_calls := 1;
     max_unfinished_executions := 2; max_active_outbound_calls := 1 |}.

Definition service (id : string) : Descriptor :=
  {| capability_id := js id; descriptor_version := js "1"; descriptor_digest := None;
     operations := [js "op"]; stream_operations := []; event_operations := [] |}.

Definition route : RouteDescriptor :=
  {| route_id := js "r"; route_requirement_id := js "d"; route_capability_id := js "c.d"; provider_instance := js "x" |}.

(** A proposal that differs in its session only. *)
Definition proposal (session : jsstr) : InitializeParams :=
  {| init_wire := JStr session; api_version := JStr (js "2"); identity_session := session; init_config := JNull;
     required_declarations := [{| rd_requirement_id := js "d"; rd_cardinality := JStr (js "one");
       rd_capability_id := js "c.d"; rd_descriptor_version := js "1"; rd_descriptor_digest := [] |}];
     provided_endpoints := [{| pe_endpoint_id := js "e"; pe_capability_id := js "a.b";
       pe_descriptor_version := js "1"; pe_descriptor_digest := [] |}];
     routes := [route]; limits := demo_limits |}.

Definition text (v : jsval) : jsstr := match v with JStr s => s | _ => [] end.

Definition scope : InvocationScope :=
  {| scope_id := js "s"; parent_scope_id := None; remaining_budget_nanos := 1000; permissions := JArr [];
     scope_extensions := [] |}.

Definition call_of (id operation : jsstr) (payload : jsval) : InvokeParams :=
  {| inv_session := []; correlation_id := id; endpoint_id := js "e"; inv_capability_id := js "a.b";
     inv_operation := operation; inv_scope := scope; inv_payload := payload |}.

#[local] Instance protocol : AuthoringProtocol := {|
  AUTHORING_API_VERSION := JStr (js "2");
  as_initialize v := {| ir_initialize := proposal (text v); ir_callback_origin := js "o"; ir_host_nonce := [];
                        ir_host_proof := [] |};
  as_construct _ := {| con_session := []; lifecycle_scope_id := js "l"; con_budget := 5 |};
  as_invoke v := match v with
                 | JObj fs => call_of (text (field fs "id")) (text (field fs "operation")) (field fs "payload")
                 | _ => call_of (text v) (js "op") JNull
                 end;
  as_stream_action v := {| sa_session := []; sa_correlation_id := []; sa_stream_id := js "1"; sa_sequence := text v;
                           sa_message := JNull |};
  as_cancel v := {| can_session := []; can_scope_id := js "s"; can_correlation_id := text v |};
  as_stop _ := {| stop_session := []; cleanup_scope_id := js "k"; stop_budget := 5 |};
  validateInitializeForRuntimeProfile _ _ := mret tt; validateConstruct _ _ := mret tt; validateInvoke _ _ := mret tt;
  validateEventPublish _ _ := mret tt; validateStreamOpen _ _ := mret tt; validateStreamAction _ _ _ := mret tt;
  validateCancel _ _ := mret tt; validateStop _ _ := mret tt;
  validateResultFor v _ _ := mret (WSuccess v); validateEventPublishResultFor _ _ _ := mret ActionAccepted;
  validateStreamOpenResultFor v _ _ := mret (OutOpened (text v));
  validateStreamActionResultFor _ _ _ _ := mret ActionAccepted;
  validateStreamReceiveResultFor v _ _ _ := mret (match v with JNull => ReceiveSuccess | _ => ReceiveMessage v end);
  authoringHandshakeProofPayload _ := mret [];
  authoringHostProofMessage d := d; authoringChildProofMessage d _ := d; authoringCallbackProofMessage _ _ _ := [];
  decodeBase64Url32 _ := Some []; encodeBase64Url _ := []; sha256 b := b; hmac_sha256 _ _ := [];
  platform_error := [] |}.

#[local] Instance code : PluginCode := {|
  parse_config v := mret v;
  bind p _ := mret {| pb_descriptor := pp_descriptor p; pb_openStream := true; pb_publishEvent := true |};
  cancel_binding _ _ := None |}.

Definition plugin : PluginDefinition :=
  {| def_providers := [provider (service "a.b")];
     def_dependencies := Some [(js "d", DependencyDeclaration (js "lenso.dependency") None (service "c.d")
                                          (JStr (js "one")))];
     def_config := None; def_configurationSchema := None; def_has_decodeConfig := false; def_has_create := false;
     def_has_stop := true; def_maxConcurrentRequests := 32 |}.

Definition boot : Bootstrap := {| callback_origin := js "o"; bootstrap_secret := [] |}.

Abbreviation demo_step := (step plugin [] boot []).
Abbreviation demo_run := (run plugin [] boot []).

Definition rpc (n : nat) (method : string) (param : string) : list event :=
  [Request (js "POST");
   Resume n (BodyRead (encode (json_text (JObj [(js "jsonrpc", JStr (js "2.0")); (js "id", JStr (js "1"));
     (js "method", JStr (js method)); (js "params", JArr [JStr (js param)])]))))].

Definition proof (n : nat) : event := Resume n (ProofComputed []).

(** Handshake, construction, and one invocation that is running. *)
Definition opening : list event :=
  rpc 0 "lenso.initialize" "S" ++ [proof 0; proof 0] ++ rpc 1 "lenso.construct" "" ++ rpc 2 "lenso.invoke" "a".

Definition final (es : list event) : state * list output := default (empty_state, []) (demo_run empty_state es).
Definition busy : state := (final opening).1.

(** Runs are executions, and so reach their states. *)
Lemma run_traces es s out s' o :
  trace plugin [] boot [] s out → demo_run s es = Some (s', o) → trace plugin [] boot [] s' (out ++ o).
Proof.
  revert s out o. induction es as [|e es IH]; intros s out o Ht; cbn [V2.run].
  - intros [= <- <-]. by rewrite app_nil_r.
  - destruct (demo_step s e) as [[s1 o1]|] eqn:Hs; [|done]. destruct (demo_run s1 es) as [[s2 o2]|] eqn:Hr; [|done].
    intros [= <- <-]. rewrite app_assoc. eapply IH; [by eapply trace_step|exact Hr].
Qed.

Lemma authoring_final es : is_Some (demo_run empty_state es) → trace plugin [] boot [] (final es).1 (final es).2.
Proof.
  intros [[s o] E]. unfold final. rewrite E. apply (run_traces es empty_state [] s o); [constructor|exact E].
Qed.

(** The initializations held along a run. *)
Fixpoint held_along (accepted : list InitializeParams) (s : state) (es : list event) : list InitializeParams :=
  match es with
  | [] => accepted
  | e :: es => match demo_step s e with
               | Some (s', _) => held_along (option_list (initialize s') ++ accepted) s' es
               | None => accepted
               end
  end.

Lemma run_history es accepted s s' o :
  history plugin [] boot [] accepted s → demo_run s es = Some (s', o) →
  history plugin [] boot [] (held_along accepted s es) s'.
Proof.
  revert accepted s o. induction es as [|e es IH]; intros accepted s o Hh; cbn [V2.run held_along].
  - by intros [= <- <-].
  - destruct (demo_step s e) as [[s1 o1]|] eqn:Hs; [|done]. destruct (demo_run s1 es) as [[s2 o2]|] eqn:Hr; [|done].
    intros [= <- <-]. eapply IH; [by eapply history_step|exact Hr].
Qed.

Lemma opening_runs : is_Some (demo_run empty_state opening).
Proof. vm_compute. by eexists. Qed.

Lemma authoring_busy : reachable plugin [] boot [] busy.
Proof. exact (trace_reaches _ _ _ _ _ _ (authoring_final _ opening_runs)). Qed.

(** Two handshakes verified at the same time: the second replaces the first. *)
Definition raced : list event :=
  rpc 0 "lenso.initialize" "S" ++ rpc 1 "lenso.initialize" "T" ++ [proof 0; proof 1; proof 0; proof 1] ++
  rpc 2 "lenso.construct" "" ++ rpc 3 "lenso.invoke" "a" ++ rpc 4 "lenso.stream.open" "b".

Lemma authoring_limits_witness :
  let s := (final raced).1 in
  initialize s = Some (proposal (js "T")) ∧ proposal (js "S") ∈ held_along [] empty_state raced ∧
  count (active s) = 2 ∧ count (active s) <= 2 ∧ count (active s) + count (retired s) <= 11 ∧
  count (streams s) + total opening_weight (fibers s) <= 3.
Proof.
  split; [vm_compute; reflexivity|]. split; [vm_compute; repeat first [left|right]|]. split; [vm_compute; reflexivity|].
  destruct (authoring_limits plugin [] boot [] (held_along [] empty_state raced) (final raced).1) as
    (_ & _ & _ & _ & _ & H1 & H2 & H3 & _).
  - apply (run_history raced [] empty_state _ (final raced).2); [constructor|]. vm_compute. reflexivity.
  - change (max_active_invocations (largest (held_along [] empty_state raced))) with 2 in *.
    change (max_retired_ids (largest (held_along [] empty_state raced))) with 10 in *.
    change (max_unfinished_executions (largest (held_along [] empty_state raced))) with 2 in *.
    split; [exact H1|]. split; [exact H2|exact H3].
Defined.

(** The end of a run: the server is stopped and its hook runs. *)
Definition stopping_run : list event :=
  rpc 0 "lenso.initialize" "S" ++ [proof 0; proof 0] ++ rpc 1 "lenso.construct" "" ++ rpc 2 "lenso.stop" "".

Lemma authoring_lifecycle_refines_witness :
  life_of (final stopping_run).1 = Life true (build_of (final stopping_run).1) Stopping ∧
  hooks (final stopping_run).1 = 1 ∧
  ∃ k, nsteps moves k fresh (life_of (final stopping_run).1) ∧ (k <= 5)%nat.
Proof.
  split; [vm_compute; reflexivity|]. split; [vm_compute; reflexivity|].
  refine (proj1 (authoring_lifecycle_refines plugin [] boot [] (final stopping_run).1 _)).
  apply (trace_reaches _ _ _ _ _ (final stopping_run).2), authoring_final. vm_compute. eexists. reflexivity.
Defined.

(** An invocation that arrives then is active when the server finishes. *)
Lemma stopping_admits_work_run :
  let s := (final (stopping_run ++ rpc 3 "lenso.invoke" "a" ++ [Resume 2 (StopHookDone (Returned tt))])).1 in
  finishing s = true ∧ map fst (active s) = [js "a"].
Proof. vm_compute. split; reflexivity. Qed.

Definition again : InvokeParams := as_invoke (JStr (js "a")).

Lemma authoring_identifier_once_witness :
  invoke 7 PluginReply again busy = refused_with 7 PluginReply "Bun Plugin reused a correlation id" busy.
Proof.
  destruct (authoring_identifier_once plugin [] boot [] busy authoring_busy) as (_ & _ & Hreuse).
  eapply (Hreuse 7%nat PluginReply again (proposal (js "S"))); [vm_compute; reflexivity|vm_compute; reflexivity| |reflexivity].
  vm_compute. left.
Defined.

Lemma authoring_handshake_authenticated_witness :
  ∃ q, initialize busy = Some (ir_initialize q) ∧ ir_callback_origin q = callback_origin boot.
Proof.
  destruct (authoring_handshake_authenticated plugin [] boot [] (final (rpc 0 "lenso.initialize" "S")).1 (proof 0)
    (default (empty_state, []) (demo_step (final (rpc 0 "lenso.initialize" "S")).1 (proof 0))).1
    (default (empty_state, []) (demo_step (final (rpc 0 "lenso.initialize" "S")).1 (proof 0))).2) as (q & _ & E & Ho & _).
  - apply (trace_reaches _ _ _ _ _ (final (rpc 0 "lenso.initialize" "S")).2), authoring_final. vm_compute. eexists. reflexivity.
  - vm_compute. reflexivity.
  - vm_compute. discriminate.
  - exists q. split; [|exact Ho]. rewrite <- E. vm_compute. reflexivity.
Defined.

Lemma authoring_answered_once_witness : NoDup (answers (final opening).2 ++ open_calls busy).
Proof. apply (authoring_answered_once plugin [] boot [] busy (final opening).2), (authoring_final opening), opening_runs. Defined.

(** The invocation has ended and its end is reported to the Host. *)
Definition reported : list event := opening ++ [Resume 2 (Invoked (Returned (PSuccess JNull))); proof 2].

Lemma authoring_callback_ids_witness : posted_ids (final reported).2 = [js "1"] ∧ NoDup (posted_ids (final reported).2).
Proof.
  split; [vm_compute; reflexivity|]. apply (authoring_callback_ids plugin [] boot [] (final reported).1).
  apply authoring_final. vm_compute. eexists. reflexivity.
Defined.

(** The construction is answered under the identifier of its request. *)
Lemma authoring_response_of_request_witness :
  ∃ resp, Answered 1 resp ∈ (final opening).2 ∧ responds plugin [] boot [] opening 1 resp.
Proof.
  assert (∃ resp, Answered 1 resp ∈ (final opening).2) as [resp Hr].
  { eexists. vm_compute. right. left. }
  exists resp. split; [exact Hr|].
  refine (proj1 (authoring_response_of_request plugin [] boot [] opening busy (final opening).2 1 resp _ Hr)).
  vm_compute. reflexivity.
Defined.

(** An invocation on its way in, and its result on its way out. *)
Lemma authoring_wire_roundtrip_witness :
  fetch_body plugin boot 7 100000 (encode (json_text (rpc_request (JNum (num 5)) (js "lenso.invoke") (JArr [JStr (js "b")])))) busy =
  invoke 7 (RpcReply (JNum (num 5)) 100000) (as_invoke (JStr (js "b"))) busy.
Proof.
  refine (proj1 (authoring_wire_roundtrip plugin boot 7 100000 (JNum (num 5)) (js "lenso.invoke")
    (JArr [JStr (js "b")]) (JObj [(js "ok", JBool true)]) busy _ _ _ _)); vm_compute; reflexivity.
Defined.

(** A constructed server that has begun to read a request. *)
Definition waiting : state :=
  (final (rpc 0 "lenso.initialize" "S" ++ [proof 0; proof 0] ++ rpc 1 "lenso.construct" "" ++ [Request (js "POST")])).1.

Lemma waiting_reachable : reachable plugin [] boot [] waiting.
Proof. eapply trace_reaches, authoring_final. vm_compute. eexists. reflexivity. Qed.

(** The object of the Plugin: its inputs. *)
Definition object : jsval := JObj [(js "dependencies", JObj [(js "d", JFun (js "r"))])].

Lemma waiting_may_invoke v :
  endpoint_id (as_invoke v) = js "e" → may_invoke waiting (proposal (js "S")) object (as_invoke v).
Proof.
  intros He. split; [vm_compute; reflexivity|]. split; [reflexivity|]. split; [vm_compute; reflexivity|].
  split; [vm_compute; reflexivity|]. split; [vm_compute; reflexivity|]. split; [vm_compute; reflexivity|].
  rewrite He. eexists. vm_compute. reflexivity.
Qed.

(** While the provider works another request arrives and the invocation is cancelled. *)
Definition meanwhile : list event := rpc 3 "lenso.cancel" "a".

Definition called : state * list output :=
  default (empty_state, []) (demo_step waiting (Resume 2 (BodyRead (encode (json_text
    (rpc_request (JNum (num 3)) (js "lenso.invoke") (JArr [JStr (js "a")]))))))).

Lemma authoring_invocation_completes_witness :
  let s2 := (default (empty_state, []) (demo_run called.1 meanwhile)).1 in
  called.2 = [Called 2 (CallInvoke (js "e") (js "op") 1 JNull object)] ∧
  ∃ s3 s5 s7 proof_ resp,
    demo_step s2 (Resume 2 (Invoked (Returned (PSuccess (JStr (js "done")))))) = Some (s3, []) ∧
    demo_step s3 (Resume 2 (ProofComputed [])) = Some (s5, [Posted 2 proof_
      (rpc_request (JStr (dec (nextCallbackId s3))) (js "lenso.settled") (settlement (as_invoke (JStr (js "a"))) "cancelled"))]) ∧
    demo_step s5 (Resume 2 (CallbackDone (CallbackResult JNull))) = Some (s7, [Answered 2 resp]) ∧
    js "a" ∈ retired s7.
Proof.
  destruct (authoring_invocation_completes plugin [] boot [] waiting (proposal (js "S")) object 2 100000 (JNum (num 3))
    (JStr (js "a"))) as (s1 & E1 & _ & _ & H1).
  - exact waiting_reachable.
  - vm_compute. reflexivity.
  - vm_compute. reflexivity.
  - vm_compute. reflexivity.
  - vm_compute. discriminate.
  - apply waiting_may_invoke. reflexivity.
  - assert (Hc : called = (s1, [Called 2 (CallInvoke (js "e") (js "op") 1 JNull object)])).
    { unfold called. rewrite E1. vm_compute. reflexivity. }
    cbn zeta. set (s2 := (default (empty_state, []) (demo_run called.1 meanwhile)).1). split; [rewrite Hc; reflexivity|].
    destruct (H1 (Returned (PSuccess (JStr (js "done")))) meanwhile s2 (default (empty_state, []) (demo_run called.1 meanwhile)).2)
      as (s3 & o3 & E3 & -> & _ & _ & i & _ & H3).
    { intros x Hx%list_elem_of_In. vm_compute in Hx. intuition discriminate. }
    { replace s1 with called.1 by (by rewrite Hc). unfold s2. vm_compute. reflexivity. }
    assert (Hst : settlement_state (length (context_heap waiting)) s2 (Returned (PSuccess (JStr (js "done")))) = "cancelled"%string)
      by (vm_compute; reflexivity).
    rewrite Hst in H3. destruct (H3 [] [] s3 []) as (s5 & o5 & E5 & -> & H5); [intros x; apply not_elem_of_nil|reflexivity|].
    destruct (H5 (CallbackResult JNull) [] s5 []) as (s7 & o7 & E7 & resp & -> & _ & _ & Hret);
      [intros x; apply not_elem_of_nil|reflexivity|].
    exists s3, s5, s7. eexists. exists resp. split; [exact E3|]. split; [exact E5|]. split; [exact E7|exact Hret].
Defined.

Lemma finished_invocation_calls_host_witness :
  let s1 := (invoked 2 PluginReply again 1 (Returned (PSuccess JNull)) busy).1 in
  activeOutboundCalls (boundClient 7 OutCall 1 route (js "op") JNull 0 s1).1 = 1.
Proof.
  apply (finished_invocation_calls_host busy (proposal (js "S")) 2 PluginReply again 1 (Returned (PSuccess JNull))
    {| cx_request_id := js "a"; cx_scope := scope; cx_aborted := false |} 7 route (js "op") JNull 0); vm_compute;
    solve [reflexivity | left | discriminate].
Defined.

Lemma early_stop_is_final_witness :
  (stop plugin 7 PluginReply (as_stop JNull) busy).1 = set_stopAttempted true busy.
Proof.
  apply (early_stop_is_final plugin busy (proposal (js "S")) 7 PluginReply (as_stop JNull)); vm_compute;
    solve [reflexivity | discriminate].
Defined.

(** A stream the Host has opened. *)
Definition streaming : state :=
  (final (opening ++ rpc 3 "lenso.stream.open" "b" ++ [Resume 3 (Opened (Returned StreamOpened)); proof 3])).1.

Lemma concurrent_sends_accepted_witness :
  let p := as_stream_action (JStr (js "0")) in
  let s2 := (send_stream 8 PluginReply p (send_stream 7 PluginReply p streaming).1).1 in
  length (fibers s2) = 4%nat.
Proof.
  cbn zeta. rewrite (proj1 (concurrent_sends_accepted streaming (proposal (js "S")) 7 8 PluginReply
    (as_stream_action (JStr (js "0"))) 0 {| as_context := 2; nextSendSequence := 0; nextReceiveSequence := 0 |}
    ltac:(vm_compute; reflexivity) ltac:(vm_compute; reflexivity) ltac:(vm_compute; reflexivity)
    ltac:(vm_compute; reflexivity) ltac:(vm_compute; reflexivity))).
  vm_compute. reflexivity.
Defined.

(** The running invocation calls the Host. *)
Lemma authoring_outbound_completes_witness :
  ∃ s' posted, demo_run busy [HostCall OutCall 1 route (js "op") (JBool true) 0; Resume 3 (ProofComputed []);
      Resume 3 (CallbackDone (CallbackResult (JStr (js "yes"))))] =
    Some (s', [posted; ToPlugin 3 (outcome_json (PSuccess (JStr (js "yes"))))]) ∧ activeOutboundCalls s' = 0.
Proof.
  destruct (authoring_outbound_completes plugin [] boot [] OutCall busy (proposal (js "S")) 1
    {| cx_request_id := js "a"; cx_scope := scope; cx_aborted := false |} route (js "op") (JBool true) 0 []
    (CallbackResult (JStr (js "yes")))) as (s' & E & Ha & _).
  - discriminate.
  - split; [vm_compute; left|]. split; [vm_compute; reflexivity|]. split; [vm_compute; reflexivity|].
    split; vm_compute; reflexivity.
  - apply numbered_check. vm_compute. reflexivity.
  - eexists s', _. split; [exact E|]. rewrite Ha. vm_compute. reflexivity.
Defined.

(** Two sends, a failed one, a message, the end, and a send too many. *)
Definition uses : list use :=
  let host v := CallbackResult v in
  [USend (JStr (js "x")) (host JNull); USend (JStr (js "y")) (CallbackStatus 500); USend (JStr (js "y")) (host JNull);
   UReceive (host (JStr (js "m"))); UReceive (host JNull); USend (JStr (js "z")) (host JNull); UCancel (host JNull)].

Definition posted_method (e : output) : option jsstr :=
  match e with Posted _ _ (JObj fs) => Some (text (field fs "method")) | _ => None end.

Definition sent_methods : list string :=
  ["lenso.stream.send"; "lenso.stream.send"; "lenso.stream.send"; "lenso.stream.receive"; "lenso.stream.receive"]%string.

Lemma outbound_stream_refines_witness :
  let '(es, out, pos) := traffic [] (proposal (js "S")) 0 (js "h") (js "c.d") (Some 0) 4 2 2 uses in
  pos = None ∧
  omap posted_method out = map js sent_methods ∧
  ∃ s' opened, demo_run busy ([HostCall OutStreamOpen 1 route (js "op") (JBool true) 0; Resume 3 (ProofComputed []);
      Resume 3 (CallbackDone (CallbackResult (JStr (js "h"))))] ++ es) = Some (s', opened ++ out) ∧
    fibers s' = fibers busy ∧ assoc (js "h") (outboundStreams s') = None.
Proof.
  pose proof (outbound_stream_refines plugin [] boot [] (proposal (js "S")) 0 (js "h") (js "c.d") busy 1
    {| cx_request_id := js "a"; cx_scope := scope; cx_aborted := false |} route (js "op") (JBool true) 0
    (CallbackResult (JStr (js "h"))) uses) as Hr.
  change (nextFiber busy) with 3%nat in Hr. change (nextOutboundId busy + 1) with 2 in Hr.
  change (nextCallbackId busy + 1) with 2 in Hr. cbn zeta in Hr.
  assert (Hpos : (traffic [] (proposal (js "S")) 0 (js "h") (js "c.d") (Some 0) 4 2 2 uses).2 = None) by (vm_compute; reflexivity).
  assert (Hout : omap posted_method (traffic [] (proposal (js "S")) 0 (js "h") (js "c.d") (Some 0) 4 2 2 uses).1.2 =
    map js sent_methods) by (vm_compute; reflexivity).
  destruct (traffic _ _ _ _ _ _ _ _ _ uses) as [[es out] pos]. cbn [fst snd] in Hpos, Hout.
  split; [exact Hpos|]. split; [exact Hout|].
  destruct Hr as (s' & E & (_ & _ & _ & _ & Ht) & Hf & _).
  - split; [vm_compute; left|]. split; [vm_compute; reflexivity|]. split; [vm_compute; reflexivity|].
    split; vm_compute; reflexivity.
  - apply numbered_check. vm_compute. reflexivity.
  - vm_compute. reflexivity.
  - reflexivity.
  - reflexivity.
  - eexists s', _. split; [exact E|]. split; [exact Hf|]. rewrite Hpos in Ht. exact Ht.
Defined.

(** Two messages, the end, and one request too many. *)
Definition pulls : list pull :=
  map (fun k => {| pl_id := JNum (num k); pl_params := JStr (js "0") |}) [10; 11; 12; 13].

Lemma pulls_valid : Forall (valid_pull (proposal (js "S")) (js "1")) pulls.
Proof. repeat constructor; vm_compute; first [reflexivity|discriminate]. Qed.

Lemma streaming_stands : stands streaming (proposal (js "S")) (js "1") 0 (Some 0).
Proof.
  split; [vm_compute; reflexivity|]. split; [vm_compute; reflexivity|].
  split; [apply numbered_check; vm_compute; reflexivity|].
  split; [vm_compute; reflexivity|]. eexists. split; vm_compute; reflexivity.
Qed.

Lemma authoring_stream_refines_witness :
  let r := reading 0 (Some 0) 4 100000 pulls [ReceiveMessage JNull; ReceiveHalfClosed; ReceiveSuccess] in
  ∃ s', demo_run streaming r.1 = Some (s', r.2) ∧ fibers s' = fibers streaming.
Proof.
  pose proof (authoring_stream_refines plugin [] boot [] streaming (proposal (js "S")) (js "1") 0 (Some 0) pulls
    [ReceiveMessage JNull; ReceiveHalfClosed; ReceiveSuccess] streaming_stands pulls_valid) as Hr.
  change (nextFiber streaming) with 4%nat in Hr. change (max_frame_bytes (limits (proposal (js "S")))) with 100000 in Hr.
  cbn zeta. destruct (reading 0 (Some 0) 4 100000 pulls _) as [es out]. destruct Hr as (s' & pos & E & _ & Hf & _).
  exists s'. split; [exact E|exact Hf].
Defined.

Lemma concurrent_handshakes_accepted_witness :
  let S := as_initialize (JStr (js "S")) in
  let T := as_initialize (JStr (js "T")) in
  let s2 := (initialize_session boot 1 PluginReply T (initialize_session boot 0 PluginReply S empty_state).1).1 in
  let s3 := (initialize_verified plugin [] [] 0 PluginReply S (sha256 []) [] s2).1 in
  initialize (initialize_verified plugin [] [] 1 PluginReply T (sha256 []) [] s3).1 = Some (ir_initialize T).
Proof.
  apply (concurrent_handshakes_accepted plugin [] boot [] empty_state 0 1 PluginReply PluginReply
    (as_initialize (JStr (js "S"))) (as_initialize (JStr (js "T"))) [] [] [] []); [reflexivity| |];
    (split; [reflexivity|split; [reflexivity|split; vm_compute; reflexivity]]).
Defined.
End Demo.
