(* ===== verification/V2Inputs.v ===== *)
(** * The inputs of a Plugin (authoring.ts, #inputs in v2.ts)

    The type [PluginInputs] that authoring.ts computes from a declaration, and that what the
    Authoring V2 server hands to the factory of the Plugin has it: a client, perhaps a client or
    an array of clients for each declared dependency, bound to routes the Host admitted for it
    with the declared contract. *)

From Stdlib Require Import ZArith.
From S2P Require Import Prelude JsValue Text Json Authoring V2 V2Wire V2Runs.

Inductive DependencyCardinality := One | Optional | Many.

(** A cardinality as it is declared; a dependency without one of the three words is used as one. *)
Definition cardinality_of (raw : raw_dependency) : DependencyCardinality :=
  match raw with
  | DependencyDeclaration _ _ _ c => if is_str c "many" then Many else if is_str c "optional" then Optional else One
  | _ => One
  end.

Section inputs.
Context `{AuthoringProtocol, PluginCode}.
Variable definition : PluginDefinition.
Variable runtimeProfile : jsstr.
Variable i : InitializeParams.

(** ** The types *)

(** A client of a contract for a requirement: it is bound to a route of the requirement, which
    the Host admitted with the contract. *)
Definition Client (requirement : jsstr) (contract : Descriptor) (v : jsval) : Prop :=
  ∃ r d, v = JFun (route_id r) ∧ r ∈ routes i ∧ route_requirement_id r = requirement ∧
    d ∈ required_declarations i ∧ rd_requirement_id d = requirement ∧ rd_capability_id d = capability_id contract ∧
    rd_descriptor_version d = descriptor_version contract ∧
    digest_agrees (descriptor_digest contract) (rd_descriptor_digest d) = true.

Definition BoundCapabilityClient (requirement : jsstr) (contract : Descriptor) (v : jsval) : Prop :=
  ∃ providerInstance client,
    v = JObj [(js "providerInstance", JStr providerInstance); (js "client", client)] ∧ Client requirement contract client.

Definition DependencyValue (name : jsstr) (raw : raw_dependency) (v : jsval) : Prop :=
  match raw with
  | DependencyDeclaration _ _ contract _ =>
      let requirement := dependency_id name raw in
      match cardinality_of raw with
      | Optional => v = JUndef ∨ Client requirement contract v
      | Many => ∃ l, v = JArr l ∧ Forall (BoundCapabilityClient requirement contract) l
      | One => Client requirement contract v
      end
  | _ => False
  end.

Definition ConfigValue (v : jsval) : Prop := parse_config (init_config i) = Ok v.

(** A property for each declared dependency, in their order. *)
Definition DependencyValues (declared : list (jsstr * raw_dependency)) (v : jsval) : Prop :=
  ∃ values, v = JObj values ∧ Forall2 (fun e value => value.1 = e.1 ∧ DependencyValue e.1 e.2 value.2) declared values.

(** [config] and [dependencies], each exactly if it is declared. *)
Definition PluginInputs (v : jsval) : Prop :=
  ∃ fields, v = JObj fields ∧
    keys fields = (match def_config definition with Some _ => [js "config"] | None => [] end) ++
                  (match def_dependencies definition with Some _ => [js "dependencies"] | None => [] end) ∧
    (is_Some (def_config definition) → ConfigValue (field fields "config")) ∧
    (∀ declared, def_dependencies definition = Some declared → DependencyValues declared (field fields "dependencies")).

(** ** The server keeps them *)

Definition routes_of (requirement : jsstr) : list RouteDescriptor :=
  List.filter (fun r => bool_decide (route_requirement_id r = requirement)) (routes i).

Lemma routes_of_in requirement r : r ∈ routes_of requirement ↔ r ∈ routes i ∧ route_requirement_id r = requirement.
Proof.
  unfold routes_of. rewrite list_elem_of_In, filter_In, bool_decide_eq_true. by rewrite list_elem_of_In.
Qed.

(** A route of a requirement that matches its declaration gives a client of its contract. *)
Lemma route_client name raw kind id contract cardinality r :
  raw = DependencyDeclaration kind id contract cardinality → requirement_matches i name raw = true →
  r ∈ routes_of (dependency_id name raw) → Client (dependency_id name raw) contract (JFun (route_id r)).
Proof.
  intros Er Hm [Hr Hq]%routes_of_in. unfold requirement_matches in Hm.
  destruct (List.find _ _) as [d|] eqn:Ef; [|done]. apply find_some in Ef as [Hd Hi%bool_decide_eq_true].
  rewrite Er in Hm. rewrite !andb_true_iff, !bool_decide_eq_true in Hm. destruct Hm as [[[_ H2] H3] H4].
  exists r, d. split_and!; try done. by apply list_elem_of_In.
Qed.

Definition bound_value (r : RouteDescriptor) : jsval :=
  JObj [(js "providerInstance", JStr (provider_instance r)); (js "client", JFun (route_id r))].

Lemma dependency_value_eq name raw k :
  dependency_value i (name, raw) k =
  match cardinality_of raw, routes_of (dependency_id name raw) with
  | Many, l => Ok (name, JArr (map bound_value l))
  | Optional, l => Ok (name, match l with r :: _ => JFun (route_id r) | [] => JUndef end)
  | One, r :: _ => Ok (name, JFun (route_id r))
  | One, [] => fail platform_error
  end.
Proof.
  unfold dependency_value, cardinality_of. destruct raw as [| |kind id contract c]; try done.
  by destruct (is_str c "many"), (is_str c "optional").
Qed.

Lemma dependency_value_typed e k y :
  requirement_matches i e.1 e.2 = true → dependency_value i e k = Ok y → y.1 = e.1 ∧ DependencyValue e.1 e.2 y.2.
Proof.
  destruct e as [name raw]. cbn [fst snd]. intros Hm. rewrite dependency_value_eq.
  destruct raw as [| |kind id contract c]; try (by unfold requirement_matches in Hm; destruct (List.find _ _)).
  pose proof (fun r => route_client name _ kind id contract c r eq_refl Hm) as Hc. unfold DependencyValue.
  destruct (cardinality_of _); [| |intros [= <-]; split; [done|]; eexists; split; [done|]; apply Forall_map, Forall_forall;
    intros r Hr; do 2 eexists; split; [done|]; by apply Hc].
  - destruct (routes_of _) as [|r l]; [done|]. intros [= <-]. split; [done|]. apply Hc. by left.
  - destruct (routes_of _) as [|r l]; intros [= <-]; (split; [done|]); [by left|]. right. apply Hc. by left.
Qed.

Lemma dependency_value_Ok e k :
  is_Ok (dependency_value i e k) ↔ (cardinality_of e.2 = One → routes_of (dependency_id e.1 e.2) ≠ []).
Proof.
  destruct e as [name raw]. cbn [fst snd]. rewrite dependency_value_eq. unfold is_Ok.
  destruct (cardinality_of raw), (routes_of _); split; try done; try (by eexists); try (by intros [? [=]]); by intros [].
Qed.

Lemma mapi_res_is_Ok {E A B} (f : A → nat → result E B) l k :
  is_Ok (mapi_res f k l) ↔ ∀ j x, l !! j = Some x → is_Ok (f x (k + j)%nat).
Proof.
  revert k. induction l as [|x l IH]; intros k; cbn [mapi_res].
  - split; [by intros _ j x|]. intros _. by eexists.
  - specialize (IH (S k)). unfold is_Ok in *. split.
    + intros [ys Hy]. apply bind_Ok in Hy as (y & Ey & Hy). apply bind_Ok in Hy as (ys' & Eys & _).
      intros [|j] x' Hx; cbn in Hx; [injection Hx as <-; rewrite Nat.add_0_r; by exists y|].
      replace (k + S j)%nat with (S k + j)%nat by lia. by apply IH; [exists ys'|].
    + intros Hall. destruct (Hall 0%nat x eq_refl) as [y Ey]. rewrite Nat.add_0_r in Ey. rewrite Ey. cbn [mbind result_bind].
      destruct (proj2 IH) as [ys Eys]; [|rewrite Eys; by eexists].
      intros j x' Hx. replace (S k + j)%nat with (k + S j)%nat by lia. by apply Hall.
Qed.

Lemma mapi_ok_declared :
  is_Ok (mapi_res (dependency_value i) 0 (declared_dependencies definition)) ↔
  ∀ e, e ∈ declared_dependencies definition → cardinality_of e.2 = One → routes_of (dependency_id e.1 e.2) ≠ [].
Proof.
  rewrite mapi_res_is_Ok. setoid_rewrite dependency_value_Ok. split.
  - intros Hall e [j He]%list_elem_of_lookup. by apply (Hall j).
  - intros Hall j e He. apply Hall. by eapply list_elem_of_lookup_2.
Qed.

(** C34: a Plugin is created with inputs of the type its declaration gives them.  For a proposal
    that the server accepts, the inputs have [config] and [dependencies] exactly if they are
    declared; the configuration is what its declaration parses; and every dependency is, by its
    declared cardinality, a client, a client or nothing, or an array of bound clients, each bound
    to a route of its requirement that the Host admitted with the declared capability, version
    and digest.  They can be made exactly if every dependency of cardinality one has a route and
    the configuration parses. *)
Theorem plugin_inputs_typed :
  validateDefinition definition runtimeProfile i = Ok tt →
  (∀ v, inputs definition i = Ok v → PluginInputs v) ∧
  (is_Ok (inputs definition i) ↔
   (∀ e, e ∈ declared_dependencies definition → cardinality_of e.2 = One → routes_of (dependency_id e.1 e.2) ≠ []) ∧
   (def_config definition = None ∨ is_Ok (parse_config (init_config i)))).
Proof.
  intros (_ & _ & _ & Hreq & _)%validateDefinition_Ok. fold (declared_dependencies definition) in Hreq. split.
  - intros v Hv. unfold inputs in Hv. apply bind_Ok in Hv as (deps & Hd & Hv). apply bind_Ok in Hv as (config & Hc & Hv).
    apply ret_Ok in Hv as <-. eexists. split; [done|].
    assert (Hall : Forall2 (fun e value => value.1 = e.1 ∧ DependencyValue e.1 e.2 value.2) (declared_dependencies definition) deps).
    { apply mapi_res_Ok in Hd as [Hlen Hd]. apply Forall2_same_length_lookup. split; [done|].
      intros j e y He Hy. destruct (Hd j e He) as (y' & Hy' & E). rewrite Hy in Hy'. injection Hy' as <-.
      eapply dependency_value_typed; [apply Hreq; by eapply list_elem_of_lookup_2|exact E]. }
    unfold declared_dependencies in Hall. destruct (def_config definition), (def_dependencies definition) as [declared|]; cbn in *;
      (split; [done|]); (split; [intros [? [=]]; exact Hc || done|]); intros ? [= <-]; by exists deps.
  - rewrite <-(mapi_ok_declared). unfold inputs, is_Ok. split.
    + intros [v Hv]. apply bind_Ok in Hv as (deps & Hd & Hv). apply bind_Ok in Hv as (config & Hc & _).
      split; [by exists deps|]. destruct (def_config definition); [right; by exists config|by left].
    + intros [[deps ->] Hc]. cbn [mbind result_bind]. destruct (def_config definition); [|by eexists].
      destruct Hc as [[=]|[config ->]]. by eexists.
Qed.
End inputs.

(** ** A Plugin with a dependency of each cardinality *)

Module Demo.
#[local] Existing Instance V2Runs.Demo.protocol.
#[local] Existing Instance V2Runs.Demo.code.

Definition depends (word : string) : raw_dependency :=
  DependencyDeclaration (js "lenso.dependency") None (V2Runs.Demo.service "c.d") (JStr (js word)).

Definition plugin : PluginDefinition :=
  {| def_providers := []; def_dependencies := Some [(js "all", depends "many"); (js "must", depends "one"); (js "opt", depends "optional")];
     def_config := Some {| cfg_kind := js "lenso.config"; cfg_parse_is_function := true; cfg_schema := JBool true |};
     def_configurationSchema := None; def_has_decodeConfig := false; def_has_create := true; def_has_stop := false;
     def_maxConcurrentRequests := 32 |}.

Definition requires (name word : string) : RequiredDeclaration :=
  {| rd_requirement_id := js name; rd_cardinality := JStr (js word); rd_capability_id := js "c.d";
     rd_descriptor_version := js "1"; rd_descriptor_digest := [] |}.

Definition to (name id : string) : RouteDescriptor :=
  {| route_id := js id; route_requirement_id := js name; route_capability_id := js "c.d"; provider_instance := js "x" |}.

Definition proposal : InitializeParams :=
  {| init_wire := JNull; api_version := JStr (js "2"); identity_session := js "S"; init_config := JBool true;
     required_declarations := [requires "all" "many"; requires "must" "one"; requires "opt" "optional"];
     provided_endpoints := []; routes := [to "all" "r1"; to "must" "r2"; to "all" "r3"]; limits := V2Runs.Demo.demo_limits |}.

Lemma plugin_inputs_typed_witness :
  ∃ v, inputs plugin proposal = Ok v ∧ PluginInputs plugin proposal v ∧
    v = JObj [(js "config", JBool true);
      (js "dependencies", JObj [(js "all", JArr [bound_value (to "all" "r1"); bound_value (to "all" "r3")]);
                                (js "must", JFun (js "r2")); (js "opt", JUndef)])].
Proof.
  destruct (plugin_inputs_typed plugin [] proposal) as [Ht _]; [vm_compute; reflexivity|].
  eexists. split; [vm_compute; reflexivity|]. split; [apply Ht; vm_compute; reflexivity|]. vm_compute. reflexivity.
Defined.
End Demo.
