(* ===== verification/Legacy.v ===== *)
(** * The first Plugin server (startPlugin and serve in index.ts)

    The JSON-RPC server of the first runtime profile: one HTTP listener, a session
    opened by a handshake, an instance created by an activation (or at start), requests
    with cancellation and deadlines, and a bounded window of retired request numbers.
    A handler suspends only where it awaits Plugin code, so a step is the run of one
    handler up to that point, or from it.  The reading of a body touches no state; a
    request therefore arrives with its whole body. *)

From Stdlib Require Import ZArith SpecFloat.
From S2P Require Import Prelude JsValue Text Json Authoring.

Local Open Scope Z_scope.

(** ** Command line *)

Fixpoint argument (arguments_ : list jsstr) (name fallback : jsstr) : jsstr :=
  match arguments_ with
  | [] => fallback
  | a :: rest => if bool_decide (a = name) then default fallback (rest !! 0%nat) else argument rest name fallback
  end.

Definition numericArgument (arguments_ : list jsstr) (name : jsstr) (fallback : Z) : throws Z :=
  match safe_int (to_number (argument arguments_ name (dec fallback))) with
  | Some value => throw_if (value <? 0) (name ++ js " must be a non-negative safe integer");; mret value
  | None => fail (name ++ js " must be a non-negative safe integer")
  end.

(** [syntax_message] is the engine's message for malformed JSON. *)
Definition jsonArgument (syntax_message : jsstr → jsstr) (arguments_ : list jsstr) (name : jsstr) (fallback : jsval)
  : throws jsval :=
  let value := argument arguments_ name (json_text fallback) in
  match json_parse value with
  | Some v => mret v
  | None => fail (name ++ js " must contain valid JSON: " ++ syntax_message value)
  end.

(** ** Framing *)

Record Response := { status : Z; body : jsstr }.

Definition jsonRpcResult (id result : jsval) (maxFrameBytes : option Z) : Response :=
  let text := json_text (JObj [(js "jsonrpc", JStr (js "2.0")); (js "id", id); (js "result", result)]) in
  match maxFrameBytes with
  | Some limit => if limit <? byteLength text then {| status := 413; body := js "response too large" |}
                  else {| status := 200; body := text |}
  | None => {| status := 200; body := text |}
  end.

Definition jsonRpcError (id : jsval) (code : Z) (message : string) : Response :=
  {| status := 200;
     body := json_text (JObj [(js "jsonrpc", JStr (js "2.0")); (js "id", id);
       (js "error", JObj [(js "code", JNum (num code)); (js "message", JStr (js message))])]) |}.

(** A [TextDecoder] fed chunk by chunk: the state of the decoder, and whether the first
    code point, which may be a byte order mark, has been seen. *)
Record stream_decoder := { sd_state : dstate; sd_started : bool }.

Fixpoint feed (st : dstate) (bs : list N) : list N * dstate :=
  match bs with
  | [] => ([], st)
  | b :: bs => let '(out, st1) := decode_byte st b in let '(out', st2) := feed st1 bs in (out ++ out', st2)
  end.

Definition emit (d : stream_decoder) (cps : list N) (st : dstate) : jsstr * stream_decoder :=
  match cps with
  | [] => ([], {| sd_state := st; sd_started := sd_started d |})
  | _ :: _ => (concat (map utf16 (if sd_started d then cps else strip_bom cps)),
               {| sd_state := st; sd_started := true |})
  end.

(** [decoder.decode(chunk, { stream: true })] *)
Definition decode_stream (d : stream_decoder) (chunk : list N) : jsstr * stream_decoder :=
  let '(cps, st) := feed (sd_state d) chunk in emit d cps st.

(** [decoder.decode()] at the end of the stream. *)
Definition decode_flush (d : stream_decoder) : jsstr := (emit d (decode_from (sd_state d) []) dstate0).1.

Fixpoint read_chunks (maxFrameBytes total : Z) (text : jsstr) (decoder : stream_decoder) (chunks : list (list N))
  : option jsstr :=
  match chunks with
  | [] => Some (text ++ decode_flush decoder)
  | chunk :: chunks =>
      let total := total + Z.of_nat (length chunk) in
      if maxFrameBytes <? total then None
      else let '(out, decoder) := decode_stream decoder chunk in
           read_chunks maxFrameBytes total (text ++ out) decoder chunks
  end.

(** Whether a finite double exceeds a safe integer. *)
Definition exceeds (x : number) (limit : Z) : bool :=
  match SFcompare (num limit) x, x with
  | Some Lt, S754_finite _ _ _ => true
  | _, _ => false
  end.

(** [readBoundedBody(request, maxFrameBytes)]; [None] is [BodyTooLargeError]. *)
Definition readBoundedBody (maxFrameBytes : Z) (content_length : option jsstr) (chunks : option (list (list N)))
  : option jsstr :=
  let declared := match content_length with Some h => to_number h | None => S754_zero false end in
  if exceeds declared maxFrameBytes then None
  else match chunks with
       | None => Some []
       | Some chunks => read_chunks maxFrameBytes 0 [] {| sd_state := dstate0; sd_started := false |} chunks
       end.

(** ** Untyped values of the wire *)

Definition objectParam (v : jsval) : option (list (jsstr * jsval)) :=
  match v with JObj fs => Some fs | _ => None end.

Section wire.
(** The message of the [TypeError]s the engine raises. *)
Variable type_error : jsstr.

Abbreviation get := (get type_error).

(** [value[index]] *)
Definition at_index (v : jsval) (i : nat) : throws jsval :=
  match v with
  | JUndef | JNull => fail type_error
  | JObj fs => mret (default JUndef (assoc (dec (Z.of_nat i)) fs))
  | JArr l => mret (default JUndef (l !! i))
  | JStr s => mret (match s !! i with Some c => JStr [c] | None => JUndef end)
  | _ => mret JUndef
  end.

(** [left.every((value, index) => test(value, index))] *)
Fixpoint every_from {A} (test : A → nat → throws bool) (i : nat) (l : list A) : throws bool :=
  match l with
  | [] => mret true
  | v :: l => ok ← test v i; if ok : bool then every_from test (S i) l else mret false
  end.

Definition every (left : jsval) (test : jsval → nat → throws bool) : throws bool :=
  match left with JArr l => every_from test 0 l | _ => fail type_error end.

Definition and_then (m : throws bool) (k : throws bool) : throws bool :=
  ok ← m; if ok : bool then k else mret false.

Definition same_length (left right : jsval) : throws bool :=
  l ← get left "length"; r ← get right "length"; mret (strict_equal l r).

Definition sameStringsWire (left right : jsval) : throws bool :=
  and_then (same_length left right)
    (every left (fun value index => other ← at_index right index; mret (strict_equal value other))).

Definition same_field (endpoint expected : jsval) (key : string) : throws bool :=
  l ← get endpoint key; r ← get expected key; mret (strict_equal l r).

Definition same_list (endpoint expected : jsval) (key : string) : throws bool :=
  l ← get endpoint key; r ← get expected key; sameStringsWire l r.

Definition sameEndpointWire (endpoint expected : jsval) : throws bool :=
  if bool_decide (expected = JUndef) then mret false
  else and_then (same_field endpoint expected "capability_id")
      (and_then (same_field endpoint expected "descriptor_version")
      (and_then (same_list endpoint expected "operations")
      (and_then (same_list endpoint expected "stream_operations")
                (same_list endpoint expected "event_operations")))).

(** [sameEndpoints(left, right)] on what the Host sends. *)
Definition sameEndpointsWire (left right : jsval) : throws bool :=
  and_then (same_length left right)
    (every left (fun endpoint index => expected ← at_index right index; sameEndpointWire endpoint expected)).

(** *** Invocation context *)

(** The record under construction: its own properties and, once an extension named
    [__proto__] has been assigned, the frozen object that became its prototype. *)
Record extension_object := { eo_own : list (jsstr * jsval); eo_proto : list (jsstr * jsval) }.

(** [record[key] = Object.freeze({ ...extension })] in strict mode: a read-only property
    of the prototype refuses the assignment; the key [__proto__] sets the prototype. *)
Definition put_extension (r : extension_object) (key : jsstr) (fs : list (jsstr * jsval)) : throws extension_object :=
  if mem key (keys (eo_proto r)) then fail type_error
  else if bool_decide (key = js "__proto__") then mret {| eo_own := eo_own r; eo_proto := fs |}
  else mret {| eo_own := obj_put key (JObj fs) (eo_own r); eo_proto := eo_proto r |}.

Definition invalid_extension {A} : throws A := fail (js "Invocation Context contains an invalid extension key").

Definition add_extension (r : extension_object) (extension : jsval) : throws extension_object :=
  key ← get extension "key";
  match key, extension with
  | JStr key, JObj fs =>
      if empty key || mem key (keys (eo_own r)) then invalid_extension else put_extension r key fs
  | _, _ => invalid_extension
  end.

Definition extensionRecord (extensions : list jsval) : throws (option (list (jsstr * jsval))) :=
  match extensions with
  | [] => mret None
  | _ :: _ => r ← foldM_res add_extension {| eo_own := []; eo_proto := [] |} extensions; mret (Some (eo_own r))
  end.
End wire.

(** *** Requests *)

Record WireRequest := {
  request_id : Z; wr_capability_id : jsstr; wr_operation : jsstr; deadline_nanos : option Z;
  caller_instance : option jsstr; wr_extensions : option (list jsval); wr_payload : jsval }.

Definition PROTOCOL_VERSION : Z := 1.
Definition VALUE_PROFILE : string := "lenso-json-value-v1".
Definition DEFAULT_MAX_FRAME_BYTES : Z := 65536.
Definition DEFAULT_MAX_RETIRED_REQUEST_IDS : Z := 1024.

Definition nonnegative_int (x : number) : option Z :=
  match safe_int x with Some z => if 0 <=? z then Some z else None | None => None end.

(** [isRequestId(value)], with the integer. *)
Definition isRequestId (v : jsval) : option Z := match v with JNum x => nonnegative_int x | _ => None end.

Definition nullish (v : jsval) : bool := match v with JUndef | JNull => true | _ => false end.

(** A field that may be [null] or absent. *)
Definition optional {A} (v : jsval) (read : jsval → option A) : option (option A) :=
  if nullish v then Some None else Some <$> read v.

Definition as_string (v : jsval) : option jsstr := match v with JStr s => Some s | _ => None end.

(** [validWireRequest(request, session)], with the request it accepts; [session] is a
    string when it is called. *)
Definition validWireRequest (fs : list (jsstr * jsval)) (session : option jsstr) : option WireRequest :=
  id ← isRequestId (field fs "request_id");
  capability ← as_string (field fs "capability_id");
  operation ← as_string (field fs "operation");
  (if strict_equal (field fs "session") (match session with Some s => JStr s | None => JUndef end)
   then Some tt else None);;
  deadline ← optional (field fs "deadline_nanos") isRequestId;
  caller ← optional (field fs "caller_instance") as_string;
  extensions ← match field fs "extensions" with
               | JUndef => Some None
               | JArr l => Some (Some l)
               | _ => None
               end;
  Some {| request_id := id; wr_capability_id := capability; wr_operation := operation; deadline_nanos := deadline;
          caller_instance := caller; wr_extensions := extensions; wr_payload := field fs "payload" |}.

(** What a provider sees of an invocation. *)
Record InvocationContext := {
  ctx_requestId : jsstr; ctx_wireRequestId : Z; ctx_deadlineNanos : option Z; ctx_callerInstance : option jsstr;
  ctx_wireExtensions : option (list jsval); ctx_extensions : option (list (jsstr * jsval)) }.

Definition invocationContext (type_error : jsstr) (r : WireRequest) : throws InvocationContext :=
  extensions ← extensionRecord type_error (default [] (wr_extensions r));
  mret {| ctx_requestId := dec (request_id r); ctx_wireRequestId := request_id r;
          ctx_deadlineNanos := deadline_nanos r; ctx_callerInstance := caller_instance r;
          ctx_wireExtensions := wr_extensions r; ctx_extensions := extensions |}.

(** The delay of [startDeadline] in milliseconds.  The quotient of a safe integer by a
    million is below [2^34], so its rounding error is less than the least fraction
    [10^-6] and rounding up sees the exact quotient. *)
Definition startDeadline (deadline : option Z) : option Z :=
  match deadline with
  | None => None
  | Some d => if d =? 0 then None else Some (Z.max 1 (Z.min ((d + 999999) / 1000000) 2147483647))
  end.

Definition protocolViolation (detail : string) : ProviderDispatchOutcome :=
  PRuntime (failure_of "protocol_violation" [(js "detail", JStr (js detail))]).

Definition deadlineExceeded (id : Z) : ProviderDispatchOutcome :=
  PRuntime (failure_of "deadline_exceeded" [(js "request_id", JNum (num id))]).

Definition cancelled (id : Z) : ProviderDispatchOutcome :=
  PRuntime (failure_of "cancelled" [(js "request_id", JNum (num id))]).

Definition plugin_failure (e : thrown) : ProviderDispatchOutcome :=
  PRuntime (failure_of "plugin_failure" [(js "detail", JStr (errorMessage e))]).

(** ** The server *)

(** The Plugin's code that runs without suspending, the reading of the activation at
    its declared type, and the engine's own messages. *)
Class LegacyCode := {
  decodeConfig : jsval → throws jsval;
  parse_config : jsval → throws jsval;
  as_activation : jsval → ActivationRequest;
  type_error : jsstr;
  syntax_message : jsstr → jsstr }.

Record RequestState := { rs_cancelled : bool; rs_deadlineExceeded : bool }.

(** The context of [create] and [stop]: its controller is never aborted, and the time it
    has left is always the largest safe integer. *)
Record LifecycleContext := { lc_requestId : jsstr; lc_cancelled : bool; lc_aborted : bool; lc_remainingTimeoutMs : Z }.

Definition legacyLifecycleContext (requestId : string) : LifecycleContext :=
  {| lc_requestId := js requestId; lc_cancelled := false; lc_aborted := false; lc_remainingTimeoutMs := MAX_SAFE_INTEGER |}.

Inductive PluginInstance :=
| FrozenInputs (config : jsval) (dependencies : list BoundImport)
| CreatedInstance (v : jsval).

(** Where a handler waits, for Plugin code or for the body of its request; [id] is the JSON-RPC
    identifier. *)
Inductive suspended :=
| AwaitCreate (id : jsval)
| AwaitStop (id : jsval)
| AwaitInvoke (id : jsval) (request : Z) (timer : bool)
| AwaitBody (content_length : option jsstr).

Record state := {
  session : option jsstr;
  admittedHandshake : option (list (jsstr * jsval));
  accepting : bool;
  instance : option PluginInstance;
  activeRequests : list (Z * RequestState);
  retiredRequestIds : list Z;
  handlers : list (nat * suspended);
  nextHandler : nat;
  stopScheduled : bool;
  listening : bool }.

Definition set_session (x : jsstr) (h : list (jsstr * jsval)) (s : state) : state :=
  {| session := Some x; admittedHandshake := Some h; accepting := accepting s; instance := instance s;
     activeRequests := activeRequests s; retiredRequestIds := retiredRequestIds s; handlers := handlers s;
     nextHandler := nextHandler s; stopScheduled := stopScheduled s; listening := listening s |}.
Definition set_accepting (x : bool) (s : state) : state :=
  {| session := session s; admittedHandshake := admittedHandshake s; accepting := x; instance := instance s;
     activeRequests := activeRequests s; retiredRequestIds := retiredRequestIds s; handlers := handlers s;
     nextHandler := nextHandler s; stopScheduled := stopScheduled s; listening := listening s |}.
Definition set_instance (x : option PluginInstance) (s : state) : state :=
  {| session := session s; admittedHandshake := admittedHandshake s; accepting := accepting s; instance := x;
     activeRequests := activeRequests s; retiredRequestIds := retiredRequestIds s; handlers := handlers s;
     nextHandler := nextHandler s; stopScheduled := stopScheduled s; listening := listening s |}.
Definition set_requests (active : list (Z * RequestState)) (retired : list Z) (s : state) : state :=
  {| session := session s; admittedHandshake := admittedHandshake s; accepting := accepting s; instance := instance s;
     activeRequests := active; retiredRequestIds := retired; handlers := handlers s;
     nextHandler := nextHandler s; stopScheduled := stopScheduled s; listening := listening s |}.
Definition set_handlers (x : list (nat * suspended)) (s : state) : state :=
  {| session := session s; admittedHandshake := admittedHandshake s; accepting := accepting s; instance := instance s;
     activeRequests := activeRequests s; retiredRequestIds := retiredRequestIds s; handlers := x;
     nextHandler := nextHandler s; stopScheduled := stopScheduled s; listening := listening s |}.
Definition set_nextHandler (x : nat) (s : state) : state :=
  {| session := session s; admittedHandshake := admittedHandshake s; accepting := accepting s; instance := instance s;
     activeRequests := activeRequests s; retiredRequestIds := retiredRequestIds s; handlers := handlers s;
     nextHandler := x; stopScheduled := stopScheduled s; listening := listening s |}.
Definition set_listening (scheduled x : bool) (s : state) : state :=
  {| session := session s; admittedHandshake := admittedHandshake s; accepting := accepting s; instance := instance s;
     activeRequests := activeRequests s; retiredRequestIds := retiredRequestIds s; handlers := handlers s;
     nextHandler := nextHandler s; stopScheduled := scheduled; listening := x |}.

Definition cancel_all (s : state) : state :=
  set_requests (map (fun '(id, st) => (id, {| rs_cancelled := true; rs_deadlineExceeded := rs_deadlineExceeded st |}))
                  (activeRequests s)) (retiredRequestIds s) s.

Definition on_request (id : Z) (f : RequestState → RequestState) (s : state) : state :=
  set_requests (map (fun '(k, st) => (k, if k =? id then f st else st)) (activeRequests s)) (retiredRequestIds s) s.

Fixpoint find_request (id : Z) (l : list (Z * RequestState)) : option RequestState :=
  match l with [] => None | (k, st) :: l => if k =? id then Some st else find_request id l end.

(** What a step does besides changing the state. *)
Inductive output :=
| Answered (n : nat) (r : Response)
| Rejected (n : nat) (e : thrown)
| CreateCalled (n : nat) (config : jsval) (dependencies : list BoundImport) (c : LifecycleContext)
| StopCalled (n : nat) (i : PluginInstance) (c : LifecycleContext)
| InvokeCalled (n : nat) (p : PluginProvider) (operation : jsstr) (c : InvocationContext) (payload : jsval)
    (i : PluginInstance).

(** [hasSession(candidate, session, handshake)] *)
Definition hasSession (candidate : jsval) (s : state) : bool :=
  match admittedHandshake s, session s with
  | Some _, Some x => strict_equal candidate (JStr x)
  | _, _ => false
  end.

Section server.
Context `{LegacyCode}.
Variable definition : PluginDefinition.
Variable maxFrameBytes : Z.
Variable maxRetiredRequestIds : Z.
Variable expectedEndpoints : jsval.
Variable managedLifecycle : bool.

Definition descriptor_json (d : Descriptor) : jsval :=
  JObj ([(js "capability_id", JStr (capability_id d)); (js "descriptor_version", JStr (descriptor_version d))] ++
        match descriptor_digest d with Some x => [(js "descriptor_digest", JStr x)] | None => [] end ++
        [(js "operations", JArr (map JStr (operations d)));
         (js "stream_operations", JArr (map JStr (stream_operations d)));
         (js "event_operations", JArr (map JStr (event_operations d)))]).

Definition pluginEndpoints : jsval := JArr (map (fun p => descriptor_json (pp_descriptor p)) (def_providers definition)).

(** [providerByCapability.get(id)]: the last provider of that capability. *)
Definition providerByCapability (id : jsstr) : option PluginProvider :=
  List.find (fun p => bool_decide (capability_id (pp_descriptor p) = id)) (rev (def_providers definition)).

(** [retire(requestId)]: the oldest numbers leave until there is room for one. *)
Fixpoint evict (l : list Z) : list Z :=
  match l with
  | [] => []
  | _ :: rest => if maxRetiredRequestIds <=? Z.of_nat (length l) then evict rest else l
  end.

Definition retire (id : Z) (s : state) : state :=
  let kept := evict (retiredRequestIds s) in
  set_requests (activeRequests s) (if bool_decide (id ∈ kept) then kept else kept ++ [id]) s.

Definition answer (n : nat) (id result : jsval) (s : state) : state * list output :=
  (s, [Answered n (jsonRpcResult id result None)]).

Definition suspend (n : nat) (at_ : suspended) (s : state) : state := set_handlers (handlers s ++ [(n, at_)]) s.

(** *** The handshake *)

Definition validHandshake (h : option (list (jsstr * jsval))) : bool :=
  match h with
  | Some fs =>
      is_num (field fs "protocol_version") PROTOCOL_VERSION && is_str (field fs "value_profile") VALUE_PROFILE &&
      is_num (field fs "max_frame_bytes") maxFrameBytes &&
      match field fs "endpoints" with JArr _ => true | _ => false end
  | None => false
  end.

Definition handshake_accepted (h : option (list (jsstr * jsval))) (s : state) : throws bool :=
  if accepting s && (length (activeRequests s) =? 0)%nat && validHandshake h then
    let endpoints := field (default [] h) "endpoints" in
    and_then (sameEndpointsWire type_error endpoints expectedEndpoints)
             (sameEndpointsWire type_error endpoints pluginEndpoints)
  else mret false.

Definition handshake_json (accepted : bool) (h : option (list (jsstr * jsval))) (s : state) : jsval :=
  JObj ([(js "accepted", JBool accepted); (js "protocol_version", JNum (num PROTOCOL_VERSION));
         (js "value_profile", JStr (js VALUE_PROFILE)); (js "max_frame_bytes", JNum (num maxFrameBytes));
         (js "endpoints", match field (default [] h) "endpoints" with JArr l => JArr l | _ => JArr [] end);
         (js "managed_lifecycle", JBool managedLifecycle)] ++
        match session s with Some x => [(js "session", JStr x)] | None => [] end).

(** [uuid] is what [crypto.randomUUID()] returns. *)
Definition handshake (n : nat) (id params : jsval) (uuid : jsstr) (s : state) : state * list output :=
  let h := objectParam params in
  match handshake_accepted h s with
  | Throw e => (s, [Rejected n e])
  | Ok accepted =>
      let s := if accepted then set_session uuid (default [] h) s else s in
      answer n id (handshake_json accepted h s) s
  end.

(** *** Cancellation *)

Definition string_or_undefined (v : jsval) : jsval := match v with JStr s => JStr s | _ => JUndef end.

Definition param_session (params : jsval) : jsval :=
  match objectParam params with Some fs => string_or_undefined (field fs "session") | None => JUndef end.

Definition cancel (n : nat) (id params : jsval) (s : state) : state * list output :=
  if negb (hasSession (param_session params) s) then
    answer n id (outcome_json (protocolViolation "request session mismatch")) s
  else
    answer n id (JBool true)
      (match isRequestId (field (default [] (objectParam params)) "request_id") with
       | Some request => on_request request (fun st =>
           {| rs_cancelled := true; rs_deadlineExceeded := rs_deadlineExceeded st |}) s
       | None => s
       end).

(** *** Activation *)

(** [definition.decodeConfig?.(raw) ?? definition.config?.parse(raw) ?? raw] *)
Definition activation_config (raw : jsval) : throws jsval :=
  decoded ← (if def_has_decodeConfig definition then decodeConfig raw else mret JUndef);
  if negb (nullish decoded) then mret decoded
  else parsed ← match def_config definition with Some _ => parse_config raw | None => mret JUndef end;
       if negb (nullish parsed) then mret parsed else mret raw.

Definition activate (n : nat) (id params : jsval) (s : state) : state * list output :=
  match objectParam params with
  | Some _ =>
      let activation := as_activation params in
      if negb managedLifecycle || negb (hasSession (act_session activation) s) ||
         bool_decide (is_Some (instance s)) || negb (length (activeRequests s) =? 0)%nat
      then answer n id (outcome_json (protocolViolation "invalid activation")) s
      else match bound ← createDependencyClients definition activation;
                 config ← activation_config (act_configuration activation);
                 mret (config, bound) with
           | Throw e => answer n id (outcome_json (plugin_failure e)) s
           | Ok (config, bound) =>
               if def_has_create definition then
                 (suspend n (AwaitCreate id) s, [CreateCalled n config bound (legacyLifecycleContext "activate")])
               else answer n id (JBool true) (set_instance (Some (FrozenInputs config bound)) s)
           end
  | None => answer n id (outcome_json (protocolViolation "invalid activation")) s
  end.

(** The rest, once [create] has settled. *)
Definition activated (n : nat) (id : jsval) (c : completion jsval) (s : state) : state * list output :=
  match c with
  | Threw e => answer n id (outcome_json (plugin_failure e)) s
  | Returned JUndef =>
      answer n id (outcome_json (plugin_failure (ErrorObject (js "Plugin create must return a complete instance"))))
        (set_instance None s)
  | Returned v => answer n id (JBool true) (set_instance (Some (CreatedInstance v)) s)
  end.

(** *** Shutdown *)

Definition shut (n : nat) (id : jsval) (s : state) : state * list output :=
  answer n id (JBool true) (set_listening true (listening s) s).

Definition shutdown (n : nat) (id params : jsval) (s : state) : state * list output :=
  if negb (hasSession (param_session params) s) then
    answer n id (outcome_json (protocolViolation "shutdown session mismatch")) s
  else
    let s := cancel_all (set_accepting false s) in
    match instance s, def_has_stop definition with
    | Some i, true => (suspend n (AwaitStop id) s, [StopCalled n i (legacyLifecycleContext "shutdown")])
    | _, _ => shut n id s
    end.

Definition stopped (n : nat) (id : jsval) (c : completion unit) (s : state) : state * list output :=
  match c with
  | Threw e => answer n id (outcome_json (plugin_failure e)) s
  | Returned _ => shut n id s
  end.

(** *** Requests *)

(** The [finally] of a request and its answer, the only one the frame limit bounds. *)
Definition conclude (n : nat) (id : jsval) (request : Z) (o : ProviderDispatchOutcome) (s : state)
  : state * list output :=
  (retire request (set_requests (filter (fun e => e.1 ≠ request) (activeRequests s)) (retiredRequestIds s) s),
   [Answered n (jsonRpcResult id (outcome_json o) (Some maxFrameBytes))]).

Definition run_request (n : nat) (id : jsval) (r : WireRequest) (p : PluginProvider) (i : PluginInstance) (s : state)
  : state * list output :=
  let expired := bool_decide (deadline_nanos r = Some 0) in
  let s := set_requests (activeRequests s ++ [(request_id r, {| rs_cancelled := false; rs_deadlineExceeded := expired |})])
             (retiredRequestIds s) s in
  match invocationContext type_error r with
  | Throw e => conclude n id (request_id r) (plugin_failure e) s
  | Ok context =>
      if expired then conclude n id (request_id r) (deadlineExceeded (request_id r)) s
      else (suspend n (AwaitInvoke id (request_id r) (bool_decide (is_Some (startDeadline (deadline_nanos r))))) s,
            [InvokeCalled n p (wr_operation r) context (wr_payload r) i])
  end.

Definition request (n : nat) (id params : jsval) (i : PluginInstance) (s : state) : state * list output :=
  match fs ← objectParam params; validWireRequest fs (session s) with
  | None => answer n id (outcome_json (protocolViolation "invalid request envelope")) s
  | Some r =>
      if bool_decide (request_id r ∈ map fst (activeRequests s)) ||
         bool_decide (request_id r ∈ retiredRequestIds s)
      then answer n id (outcome_json (protocolViolation "duplicate or retired request id")) s
      else if def_maxConcurrentRequests definition <=? Z.of_nat (length (activeRequests s)) then
        answer n id (outcome_json (PRuntime (failure_of "resource_exhausted"
          [(js "operation", JStr (wr_operation r))]))) s
      else match providerByCapability (wr_capability_id r) with
           | None => answer n id (outcome_json (PRuntime (failure_of "unknown_operation"
               [(js "operation", JStr (wr_operation r))]))) s
           | Some p => run_request n id r p i s
           end
  end.

(** The rest, once the provider has settled. *)
Definition invoked (n : nat) (id : jsval) (request : Z) (c : completion ProviderDispatchOutcome) (s : state)
  : state * list output :=
  let st := default {| rs_cancelled := false; rs_deadlineExceeded := false |} (find_request request (activeRequests s)) in
  conclude n id request
    (match c with
     | Threw e => plugin_failure e
     | Returned o => if rs_deadlineExceeded st then deadlineExceeded request
                     else if rs_cancelled st then cancelled request else o
     end) s.

(** *** The listener *)

Definition dispatch (n : nat) (id : jsval) (method : jsstr) (params : jsval) (uuid : jsstr) (s : state)
  : state * list output :=
  let named m := bool_decide (method = js m) in
  if named "lenso.handshake"%string then handshake n id params uuid s
  else if named "lenso.cancel"%string then cancel n id params s
  else if named "lenso.activate"%string then activate n id params s
  else if named "lenso.shutdown"%string then shutdown n id params s
  else match named "lenso.request"%string, accepting s, admittedHandshake s, instance s with
       | true, true, Some _, Some i => request n id params i s
       | _, _, _, _ => answer n id (outcome_json (protocolViolation "request before handshake")) s
       end.

(** The handler up to the body of its request. *)
Definition fetch (n : nat) (method : jsstr) (content_length : option jsstr) (s : state) : state * list output :=
  if negb (bool_decide (method = js "POST")) then
    (s, [Answered n {| status := 405; body := js "method not allowed" |}])
  else (suspend n (AwaitBody content_length) s, []).

Definition parse_failed (n : nat) (s : state) : state * list output :=
  (s, [Answered n (jsonRpcError JNull (-32700) "Parse error")]).

(** The rest, once the chunks of the body have been read. *)
Definition received (n : nat) (content_length : option jsstr) (chunks : option (list (list N))) (uuid : jsstr)
    (s : state) : state * list output :=
  match readBoundedBody maxFrameBytes content_length chunks with
  | None => (s, [Answered n {| status := 413; body := js "request too large" |}])
  | Some text =>
      match json_parse text with
      | None => parse_failed n s
      | Some JNull => (s, [Rejected n (ErrorObject type_error)])
      | Some envelope =>
          let fs := default [] (objectParam envelope) in
          let id := match field fs "id" with JUndef => JNull | v => v end in
          match is_str (field fs "jsonrpc") "2.0", field fs "method" with
          | true, JStr method =>
              let params := match field fs "params" with JArr [p] => p | p => p end in
              dispatch n id method params uuid s
          | _, _ => (s, [Answered n (jsonRpcError id (-32600) "Invalid Request")])
          end
      end
  end.

(** *** Steps *)

(** A request arrives; its body has been read, or reading it has failed; Plugin code settles; a
    timer fires; the server is stopped. *)
Inductive event :=
| Fetch (method : jsstr) (content_length : option jsstr)
| Body (n : nat) (chunks : option (list (list N))) (uuid : jsstr)
| BodyFailed (n : nat)
| Created (n : nat) (c : completion jsval)
| StopHookDone (n : nat) (c : completion unit)
| Invoked (n : nat) (c : completion ProviderDispatchOutcome)
| DeadlineFired (n : nat)
| StopTimer
| ServerStop.

Fixpoint find_handler (n : nat) (l : list (nat * suspended)) : option suspended :=
  match l with [] => None | (m, x) :: l => if (m =? n)%nat then Some x else find_handler n l end.

Definition remove_handler (n : nat) (s : state) : state := set_handlers (filter (fun e => e.1 ≠ n) (handlers s)) s.

Definition step (s : state) (e : event) : option (state * list output) :=
  match e with
  | Fetch method content_length =>
      if listening s then
        Some (fetch (nextHandler s) method content_length (set_nextHandler (S (nextHandler s)) s)) else None
  | Body n chunks uuid =>
      match find_handler n (handlers s) with
      | Some (AwaitBody content_length) => Some (received n content_length chunks uuid (remove_handler n s))
      | _ => None
      end
  | BodyFailed n =>
      match find_handler n (handlers s) with
      | Some (AwaitBody _) => Some (parse_failed n (remove_handler n s))
      | _ => None
      end
  | Created n c =>
      match find_handler n (handlers s) with
      | Some (AwaitCreate id) => Some (activated n id c (remove_handler n s))
      | _ => None
      end
  | StopHookDone n c =>
      match find_handler n (handlers s) with
      | Some (AwaitStop id) => Some (stopped n id c (remove_handler n s))
      | _ => None
      end
  | Invoked n c =>
      match find_handler n (handlers s) with
      | Some (AwaitInvoke id request _) => Some (invoked n id request c (remove_handler n s))
      | _ => None
      end
  | DeadlineFired n =>
      match find_handler n (handlers s) with
      | Some (AwaitInvoke _ request true) =>
          Some (on_request request (fun st => {| rs_cancelled := rs_cancelled st; rs_deadlineExceeded := true |}) s, [])
      | _ => None
      end
  | StopTimer => if stopScheduled s then Some (set_listening false false s, []) else None
  | ServerStop => Some (set_listening (stopScheduled s) false (cancel_all (set_accepting false s)), [])
  end.

Definition start_state : state :=
  {| session := None; admittedHandshake := None; accepting := true;
     instance := if negb managedLifecycle && (length (default [] (def_dependencies definition)) =? 0)%nat &&
                    negb (def_has_create definition)
                 then Some (FrozenInputs (JObj []) []) else None;
     activeRequests := []; retiredRequestIds := []; handlers := []; nextHandler := 0;
     stopScheduled := false; listening := true |}.
End server.

(** ** Start-up *)

Record StartPluginOptions := {
  so_maxFrameBytes : option number; so_expectedEndpoints : jsval; so_maxRetiredRequestIds : option number;
  so_announceReady : bool; so_managedLifecycle : bool }.

Record StartedServer := {
  ss_maxFrameBytes : Z; ss_maxRetiredRequestIds : Z; ss_expectedEndpoints : jsval; ss_state : state;
  ss_announced : option jsstr }.

Definition positive_limit (x : option number) (fallback : Z) (name : string) : throws Z :=
  match safe_int (default (num fallback) x) with
  | Some z => throw_if (z <=? 0) (js name ++ js " must be a positive safe integer");; mret z
  | None => fail (js name ++ js " must be a positive safe integer")
  end.

(** [startPlugin(definition, options)]; [port] is the port the listener binds, if any. *)
Definition startPlugin (definition : PluginDefinition) (o : StartPluginOptions) (port : option Z)
  : throws StartedServer :=
  maxFrameBytes ← positive_limit (so_maxFrameBytes o) DEFAULT_MAX_FRAME_BYTES "maxFrameBytes";
  maxRetiredRequestIds ← positive_limit (so_maxRetiredRequestIds o) DEFAULT_MAX_RETIRED_REQUEST_IDS
    "maxRetiredRequestIds";
  providers ← concreteProviders (def_providers definition);
  match port with
  | None => fail (js "Bun Plugin server did not bind a TCP port")
  | Some port =>
      mret {| ss_maxFrameBytes := maxFrameBytes; ss_maxRetiredRequestIds := maxRetiredRequestIds;
              ss_expectedEndpoints := if nullish (so_expectedEndpoints o)
                                      then JArr (map (fun p => descriptor_json (pp_descriptor p)) providers)
                                      else so_expectedEndpoints o;
              ss_state := start_state definition (so_managedLifecycle o);
              ss_announced := if so_announceReady o then Some (js "LENSO_READY " ++ dec port) else None |}
  end.

(** [serve(definition)] on the arguments of the command line. *)
Definition serve `{LegacyCode} (definition : PluginDefinition) (arguments_ : list jsstr) (bound : Z → option Z)
  : throws StartedServer :=
  let transport := argument arguments_ (js "--lenso-transport") (js "json-rpc-http") in
  throw_if (negb (bool_decide (transport = js "json-rpc-http")))
    (js "@lenso/bun-plugin supports the production json-rpc-http wire, received " ++ transport);;
  maxFrameBytes ← numericArgument arguments_ (js "--lenso-max-frame-bytes") DEFAULT_MAX_FRAME_BYTES;
  port ← numericArgument arguments_ (js "--lenso-port") 0;
  providers ← concreteProviders (def_providers definition);
  expected ← jsonArgument syntax_message arguments_ (js "--lenso-endpoints-json")
               (JArr (map (fun p => descriptor_json (pp_descriptor p)) providers));
  startPlugin definition
    {| so_maxFrameBytes := Some (num maxFrameBytes); so_expectedEndpoints := expected; so_maxRetiredRequestIds := None;
       so_announceReady := true; so_managedLifecycle := true |} (bound port).
