(* ===== verification/LegacyCorrect.v ===== *)
(** * What the first Plugin server guarantees

    The invariant of the states a server reaches: bounded pools, request numbers used once
    within the window, one answer per request; the authority of the session, the order of
    outcomes, and that a server that has shut down stays so. *)

From Stdlib Require Import ZArith SpecFloat.
From S2P Require Import Prelude JsValue Text Json Authoring Legacy.

Local Open Scope Z_scope.

(** ** The window of retired numbers *)

Section window.
Variable maxRetiredRequestIds : Z.
Hypothesis Hmax : 0 < maxRetiredRequestIds.

Abbreviation evict := (evict maxRetiredRequestIds).
Abbreviation retire := (retire maxRetiredRequestIds).
Abbreviation room := (Z.to_nat maxRetiredRequestIds).

Lemma evict_drop l : evict l = drop (length l + 1 - room) l.
Proof.
  induction l as [|x l IH]; [by rewrite drop_nil|]. cbn [Legacy.evict length].
  destruct (Z.leb_spec maxRetiredRequestIds (Z.of_nat (S (length l)))).
  - rewrite IH. by replace (S (length l) + 1 - room)%nat with (S (length l + 1 - room)) by lia.
  - by replace (S (length l) + 1 - room)%nat with 0%nat by lia.
Qed.

Lemma evict_sub l x : x ∈ evict l → x ∈ l.
Proof. rewrite evict_drop. intros Hx. rewrite <- (take_drop (length l + 1 - room) l). apply elem_of_app. by right. Qed.

Lemma evict_NoDup l : NoDup l → NoDup (evict l).
Proof.
  rewrite evict_drop, <- (take_drop (length l + 1 - room) l) at 1. by intros (_ & _ & ?)%NoDup_app.
Qed.

Lemma evict_length l : Z.of_nat (length (evict l)) <= maxRetiredRequestIds - 1.
Proof. rewrite evict_drop, length_drop. lia. Qed.

Lemma retire_fresh id s :
  (id ∉ retiredRequestIds s) →
  retire id s = set_requests (activeRequests s) (evict (retiredRequestIds s) ++ [id]) s.
Proof. intros Hid. unfold retire. rewrite bool_decide_eq_false_2; [done|]. by intros ?%evict_sub. Qed.

(** The server remembers exactly the last finished requests.  Once the requests
    [ids] have finished in this order, the retired numbers are the last
    [maxRetiredRequestIds] of those retired before and these; older ones have left, in
    the order they finished. *)
Theorem retired_window ids s :
  NoDup (retiredRequestIds s ++ ids) → Z.of_nat (length (retiredRequestIds s)) <= maxRetiredRequestIds →
  retiredRequestIds (fold_left (fun s id => retire id s) ids s) =
    drop (length (retiredRequestIds s ++ ids) - Z.to_nat maxRetiredRequestIds) (retiredRequestIds s ++ ids).
Proof.
  revert s. induction ids as [|id ids IH]; intros s Hnd Hlen; cbn [fold_left].
  - rewrite app_nil_r. by replace (_ - _)%nat with 0%nat by lia.
  - set (l := retiredRequestIds s) in *.
    assert (id ∉ l) as Hid. { intros Hin. apply NoDup_app in Hnd as (_ & Hd & _). apply (Hd id Hin). by left. }
    rewrite retire_fresh by done. fold l.
    assert (retiredRequestIds (set_requests (activeRequests s) (evict l ++ [id]) s) ++ ids =
            drop (length l + 1 - room) (l ++ id :: ids)) as E.
    { cbn. rewrite evict_drop, <- app_assoc, drop_app_le by lia. done. }
    rewrite IH; rewrite ?E.
    + rewrite drop_drop, length_drop, length_app. cbn [length]. f_equal. lia.
    + rewrite <- (take_drop (length l + 1 - room) (l ++ id :: ids)) in Hnd. by apply NoDup_app in Hnd as (_ & _ & ?).
    + cbn. rewrite length_app. cbn. pose proof (evict_length l). lia.
Qed.
End window.

(** ** The invariant *)

Definition request_of (x : suspended) : option Z :=
  match x with AwaitInvoke _ r _ => Some r | _ => None end.

(** The numbers of the requests whose provider is running. *)
Definition in_flight (l : list (nat * suspended)) : list Z := omap (fun e => request_of e.2) l.

Lemma legacy_in_flight_app l l' : in_flight (l ++ l') = in_flight l ++ in_flight l'.
Proof. apply omap_app. Qed.

Lemma find_handler_in n x l : find_handler n l = Some x → (n, x) ∈ l.
Proof.
  induction l as [|[m y] l IH]; cbn; [done|]. destruct (Nat.eqb_spec m n) as [->|].
  - intros [= ->]. by left.
  - intros ?%IH. by right.
Qed.

(** Taking one handler out of a table without repeated numbers. *)
Lemma handler_split n x l :
  NoDup (map fst l) → find_handler n l = Some x →
  ∃ l1 l2, l = l1 ++ (n, x) :: l2 ∧ filter (fun e => e.1 ≠ n) l = l1 ++ l2 ∧ (n ∉ map fst (l1 ++ l2)).
Proof.
  induction l as [|[m y] l IH]; cbn [find_handler map fst]; [done|]. intros [Hm Hnd]%NoDup_cons. destruct (Nat.eqb_spec m n) as [->|Hne].
  - intros [= ->]. exists [], l. split; [done|]. rewrite filter_cons_False by (cbn; tauto). cbn.
    split; [|done]. clear -Hm. induction l as [|[k z] l IH]; [done|]. apply not_elem_of_cons in Hm as [? ?].
    rewrite filter_cons_True by (cbn in *; congruence). f_equal. by apply IH.
  - intros Hf. destruct (IH Hnd Hf) as (l1 & l2 & -> & E & Hn). exists ((m, y) :: l1), l2.
    rewrite filter_cons_True by done. rewrite E. split_and!; [done|done|]. cbn. apply not_elem_of_cons. by split.
Qed.

Section invariant.
Context `{LegacyCode}.
Variable definition : PluginDefinition.
Variable maxFrameBytes : Z.
Variable maxRetiredRequestIds : Z.
Variable expectedEndpoints : jsval.
Variable managedLifecycle : bool.
Hypothesis Hmax : 0 < maxRetiredRequestIds.

Abbreviation step := (step definition maxFrameBytes maxRetiredRequestIds expectedEndpoints managedLifecycle).
Abbreviation received := (received definition maxFrameBytes maxRetiredRequestIds expectedEndpoints managedLifecycle).
Abbreviation conclude := (conclude maxFrameBytes maxRetiredRequestIds).

(** The tables of a state in which the handler [n], if it is given, has not suspended. *)
Record tables (n : option nat) (active : list Z) (retired : list Z) (hs : list (nat * suspended)) (next : nat)
  : Prop := {
  t_flight : active = in_flight hs;
  t_distinct : NoDup (active ++ retired);
  t_active : Z.of_nat (length active) <= Z.max 0 (def_maxConcurrentRequests definition);
  t_retired : Z.of_nat (length retired) <= maxRetiredRequestIds;
  t_numbers : NoDup (map fst hs);
  t_below : ∀ m, m ∈ map fst hs → (m < next)%nat;
  t_current : ∀ m, n = Some m → (m ∉ map fst hs) ∧ (m < next)%nat }.

Definition inv_but (n : option nat) (s : state) : Prop :=
  tables n (map fst (activeRequests s)) (retiredRequestIds s) (handlers s) (nextHandler s) ∧
  (is_Some (session s) ↔ is_Some (admittedHandshake s)).

Definition inv (s : state) : Prop := inv_but None s.

Lemma legacy_start_inv : inv (start_state definition managedLifecycle).
Proof.
  split; [|by split; intros [? [=]]]. constructor; cbn; try done; try lia; try apply NoDup_nil_2. by intros ? ?%elem_of_nil.
Qed.

Lemma inv_weaken n s : inv_but n s → inv s.
Proof. intros [Ht Hs]. split; [|done]. destruct Ht. by constructor. Qed.

(** A state with the same tables. *)
Lemma inv_same n s s' :
  map fst (activeRequests s') = map fst (activeRequests s) → retiredRequestIds s' = retiredRequestIds s →
  handlers s' = handlers s → nextHandler s' = nextHandler s →
  (is_Some (session s') ↔ is_Some (admittedHandshake s')) → inv_but n s → inv_but n s'.
Proof. unfold inv_but. by intros -> -> -> -> ? [? _]. Qed.

Lemma on_request_fst id f l : map fst (map (fun '(k, st) => (k, if k =? id then f st else st)) l) = map fst (l : list (Z * RequestState)).
Proof. induction l as [|[k st] l IH]; cbn; congruence. Qed.

Lemma cancel_fst l :
  map fst (map (fun '(id, st) => (id, {| rs_cancelled := true; rs_deadlineExceeded := rs_deadlineExceeded st |})) l) =
  map fst (l : list (Z * RequestState)).
Proof. induction l as [|[k st] l IH]; cbn; congruence. Qed.

Lemma suspend_inv n x s :
  inv_but (Some n) s → request_of x = None → inv (suspend n x s).
Proof.
  intros [Ht Hs] Hx. split; [|exact Hs]. destruct Ht as [F D A R N B C]. destruct (C n eq_refl) as [Hn Hlt].
  constructor; cbn; try done.
  - rewrite legacy_in_flight_app. cbn. rewrite Hx. by rewrite app_nil_r.
  - rewrite map_app. cbn. apply NoDup_app. split_and!; [done| |apply NoDup_singleton].
    by intros m Hm ->%list_elem_of_singleton.
  - rewrite map_app. cbn. intros m [Hm| ->%list_elem_of_singleton]%elem_of_app; [by apply B|done].
Qed.

(** The end of a request, whose number is in use and no longer in flight. *)
Lemma legacy_conclude_inv n id request o s active :
  activeRequests s = active → request ∈ map fst active →
  NoDup (map fst active ++ retiredRequestIds s) →
  map fst (filter (fun e => e.1 ≠ request) active) = in_flight (handlers s) →
  Z.of_nat (length (in_flight (handlers s))) <= Z.max 0 (def_maxConcurrentRequests definition) →
  NoDup (map fst (handlers s)) → (∀ m, m ∈ map fst (handlers s) → (m < nextHandler s)%nat) →
  (is_Some (session s) ↔ is_Some (admittedHandshake s)) →
  inv (conclude n id request o s).1.
Proof.
  intros <- Hin Hnd Hfl Hlen Hnum Hlt Hs. unfold conclude. cbn [fst].
  apply NoDup_app in Hnd as (Hn1 & Hd & Hn2).
  rewrite retire_fresh; [|done|cbn; by apply Hd]. split; [|done]. constructor; cbn; try done.
  - rewrite Hfl, app_assoc. apply NoDup_app. split_and!; [|..].
    + rewrite <- Hfl. apply NoDup_app. split_and!.
      * clear -Hn1. induction (activeRequests s) as [|[k st] l IH]; [apply NoDup_nil_2|].
        cbn in Hn1. apply NoDup_cons in Hn1 as [Hk Hn]. rewrite filter_cons. case_decide; cbn; [|by apply IH].
        apply NoDup_cons. split; [|by apply IH]. intros ([k' st'] & E & [_ Hin]%list_elem_of_filter)%list_elem_of_fmap.
        cbn in E. subst. apply Hk. apply list_elem_of_fmap. by exists (k', st').
      * intros x ([k st] & -> & [_ Hin']%list_elem_of_filter)%list_elem_of_fmap Hx%evict_sub; [|done].
        apply (Hd k); [|done]. apply list_elem_of_fmap. by exists (k, st).
      * by apply evict_NoDup.
    + intros x Hx ->%list_elem_of_singleton. apply elem_of_app in Hx as [Hx|Hx%evict_sub]; [| |done].
      * rewrite <- Hfl in Hx. by apply list_elem_of_fmap in Hx as ([k st] & -> & [? _]%list_elem_of_filter).
      * by apply (Hd request).
    + apply NoDup_singleton.
  - by rewrite Hfl.
  - rewrite length_app. cbn. pose proof (evict_length _ Hmax (retiredRequestIds s)). lia.
Qed.

Lemma closing_inv n s : inv_but n s → inv_but n (cancel_all (set_accepting false s)).
Proof. intros Hi. apply (inv_same n s); try done; [apply cancel_fst|apply Hi]. Qed.

Lemma legacy_handshake_inv n id params uuid s :
  inv_but (Some n) s → inv (handshake definition maxFrameBytes expectedEndpoints managedLifecycle n id params uuid s).1.
Proof.
  intros Hi. unfold handshake. destruct (handshake_accepted _ _ _ _ s) as [accepted|]; [|by eapply inv_weaken].
  cbn. destruct accepted; [|by eapply inv_weaken]. by eapply inv_weaken, inv_same, Hi.
Qed.

Lemma cancel_inv n id params s : inv_but (Some n) s → inv (cancel n id params s).1.
Proof.
  intros Hi. unfold cancel. destruct (negb _); cbn; [by eapply inv_weaken|]. destruct (isRequestId _); [|by eapply inv_weaken].
  eapply inv_weaken, inv_same, Hi; try done; [apply on_request_fst|apply Hi].
Qed.

Lemma activate_inv n id params s :
  inv_but (Some n) s → inv (activate definition managedLifecycle n id params s).1.
Proof.
  intros Hi. unfold activate. destruct (objectParam params); [|by eapply inv_weaken].
  destruct (_ || _); [by eapply inv_weaken|]. destruct (_ ≫= _) as [[config bound]|e]; [|by eapply inv_weaken].
  destruct (def_has_create definition); [by apply suspend_inv|].
  cbn. eapply inv_weaken, inv_same, Hi; try done. apply Hi.
Qed.

Lemma shut_inv n id s : inv s → inv (shut n id s).1.
Proof. intros Hi. eapply inv_same, Hi; try done. apply Hi. Qed.

Lemma shutdown_inv n id params s : inv_but (Some n) s → inv (shutdown definition n id params s).1.
Proof.
  intros Hi. unfold shutdown. destruct (negb _); [by eapply inv_weaken|]. cbn zeta.
  pose proof (closing_inv _ _ Hi) as Hc. destruct (instance _) as [i|], (def_has_stop definition);
    try (by apply shut_inv; eapply inv_weaken). by apply suspend_inv.
Qed.

Lemma filter_other (id : Z) (st : RequestState) l :
  (id ∉ map fst l) → filter (fun e => e.1 ≠ id) (l ++ [(id, st)]) = l.
Proof.
  intros Hid. rewrite filter_app, filter_cons_False by (cbn; tauto). cbn. rewrite app_nil_r.
  induction l as [|[k v] l IH]; [done|]. apply not_elem_of_cons in Hid as [? ?].
  rewrite filter_cons_True by (cbn in *; congruence). f_equal. by apply IH.
Qed.

Lemma run_request_inv n id r p i s :
  inv_but (Some n) s → (request_id r ∉ map fst (activeRequests s)) → (request_id r ∉ retiredRequestIds s) →
  Z.of_nat (length (activeRequests s)) < def_maxConcurrentRequests definition →
  inv (run_request maxFrameBytes maxRetiredRequestIds n id r p i s).1.
Proof.
  intros [Ht Hs] Ha Hr Hlim. destruct Ht as [F D A R N B C]. destruct (C n eq_refl) as [Hn Hlt].
  set (expired := bool_decide (deadline_nanos r = Some 0)).
  set (entry := (request_id r, {| rs_cancelled := false; rs_deadlineExceeded := expired |})).
  assert (NoDup (map fst (activeRequests s ++ [entry]) ++ retiredRequestIds s)) as Hnd.
  { rewrite map_app, <- app_assoc. cbn. rewrite <- Permutation_middle. apply NoDup_cons. split; [|done].
    rewrite elem_of_app. tauto. }
  assert (∀ o, inv (conclude n id (request_id r) o (set_requests (activeRequests s ++ [entry]) (retiredRequestIds s) s)).1) as Hc.
  { intros o. eapply legacy_conclude_inv; [reflexivity|..]; cbn; try done.
    - rewrite map_app. apply elem_of_app. right. by left.
    - unfold entry. by rewrite filter_other, F.
    - change (omap _ _) with (in_flight (handlers s)). by rewrite <- F. }
  unfold run_request. fold expired. fold entry. destruct (invocationContext _ r); [|apply Hc].
  destruct expired eqn:He; [apply Hc|]. split; [|exact Hs]. constructor; cbn; try done.
  - by rewrite map_app, F, legacy_in_flight_app.
  - rewrite length_map, length_app. cbn. lia.
  - rewrite map_app. apply NoDup_app. split_and!; [done| |apply NoDup_singleton].
    by intros m Hm ->%list_elem_of_singleton.
  - rewrite map_app. intros m [Hm| ->%list_elem_of_singleton]%elem_of_app; [by apply B|done].
Qed.

Lemma request_inv n id params i s :
  inv_but (Some n) s → inv (request definition maxFrameBytes maxRetiredRequestIds n id params i s).1.
Proof.
  intros Hi. unfold request. destruct (_ ≫= _) as [r|]; [|by eapply inv_weaken].
  destruct (_ || _) eqn:Hdup; [by eapply inv_weaken|].
  apply orb_false_iff in Hdup as [H1%bool_decide_eq_false H2%bool_decide_eq_false].
  destruct (Z.leb_spec (def_maxConcurrentRequests definition) (Z.of_nat (length (activeRequests s)))); [by eapply inv_weaken|].
  destruct (providerByCapability _ _); [|by eapply inv_weaken]. by apply run_request_inv.
Qed.

Lemma fetch_inv n method content_length s : inv_but (Some n) s → inv (fetch n method content_length s).1.
Proof. intros Hi. unfold fetch. destruct (negb _); [by eapply inv_weaken|by apply suspend_inv]. Qed.

Lemma received_inv n content_length chunks uuid s :
  inv_but (Some n) s → inv (received n content_length chunks uuid s).1.
Proof.
  intros Hi. pose proof (inv_weaken _ _ Hi) as Hw. unfold received.
  destruct (readBoundedBody _ _ _) as [text|]; [|done]. destruct (json_parse text) as [envelope|]; [|done].
  assert (∀ id fs, inv (match is_str (field fs "jsonrpc") "2.0", field fs "method" with
          | true, JStr method =>
              let params := match field fs "params" with JArr [p] => p | p => p end in
              dispatch definition maxFrameBytes maxRetiredRequestIds expectedEndpoints managedLifecycle n id method params uuid s
          | _, _ => (s, [Answered n (jsonRpcError id (-32600) "Invalid Request")])
          end).1) as Hd.
  { intros id fs. destruct (is_str _ _); [|done]. destruct (field fs "method"); try done. cbn zeta. unfold dispatch.
    destruct (bool_decide _); [by apply legacy_handshake_inv|]. destruct (bool_decide _); [by apply cancel_inv|].
    destruct (bool_decide _); [by apply activate_inv|]. destruct (bool_decide _); [by apply shutdown_inv|].
    destruct (bool_decide _); [|done]. destruct (accepting s); [|done]. destruct (admittedHandshake s); [|done].
    destruct (instance s); [|done]. by apply request_inv. }
  destruct envelope; solve [exact Hw | apply Hd].
Qed.

Lemma removed n x s :
  inv s → find_handler n (handlers s) = Some x → request_of x = None → inv_but (Some n) (remove_handler n s).
Proof.
  intros [[F D A R N B C] Hs] Hf Hx. destruct (handler_split n x _ N Hf) as (l1 & l2 & E & Er & Hn).
  split; [|exact Hs]. cbn. rewrite Er. rewrite E in F, N, B. rewrite map_app in N. cbn in N.
  rewrite <- Permutation_middle in N. apply NoDup_cons in N as [_ N].
  assert (∀ m, m ∈ map fst (l1 ++ l2) → (m < nextHandler s)%nat) as B'.
  { intros m Hm. apply B. rewrite map_app in Hm |- *. cbn. rewrite <- Permutation_middle. by right. }
  constructor; try done.
  - rewrite F, !legacy_in_flight_app. cbn. by rewrite Hx.
  - by rewrite map_app.
  - intros m [= <-]. split; [done|]. apply B. rewrite map_app. cbn. rewrite <- Permutation_middle. by left.
Qed.

Lemma keep_others (r : Z) (l : list (Z * RequestState)) l1 l2 :
  map fst l = l1 ++ r :: l2 → NoDup (map fst l) → map fst (filter (fun e => e.1 ≠ r) l) = l1 ++ l2.
Proof.
  intros E Hnd. assert (∀ l : list (Z * RequestState),
    map fst (filter (fun e => e.1 ≠ r) l) = filter (fun x => x ≠ r) (map fst l)) as ->.
  { clear. induction l as [|[k st] l IH]; [done|]. cbn [map fst]. rewrite !filter_cons.
    cbn [fst]. case_decide; cbn; by rewrite IH. }
  rewrite E in Hnd |- *. rewrite filter_app, filter_cons_False by tauto.
  rewrite <- Permutation_middle in Hnd. apply NoDup_cons in Hnd as [Hr _]. apply not_elem_of_app in Hr as [? ?].
  assert (∀ l : list Z, (r ∉ l) → filter (fun x => x ≠ r) l = l) as Hf; [|by rewrite !Hf].
  clear. induction l as [|x l IH]; [done|]. intros [? ?]%not_elem_of_cons. rewrite filter_cons_True by congruence.
  f_equal. by apply IH.
Qed.

(** A suspended request is in use, and only once. *)
Lemma invoking n id r timer s :
  inv s → find_handler n (handlers s) = Some (AwaitInvoke id r timer) →
  (∃ st, find_request r (activeRequests s) = Some st) ∧ (r ∉ retiredRequestIds s) ∧
  ∀ o, inv (conclude n id r o (remove_handler n s)).1 ∧
       (r ∉ map fst (activeRequests (conclude n id r o (remove_handler n s)).1)) ∧
       r ∈ retiredRequestIds (conclude n id r o (remove_handler n s)).1.
Proof.
  intros [[F D A R N B C] Hs] Hf. destruct (handler_split n _ _ N Hf) as (l1 & l2 & E & Er & Hn).
  pose proof F as F'. rewrite E, legacy_in_flight_app in F'. cbn in F'. fold (in_flight l2) in F'.
  assert (r ∈ map fst (activeRequests s)) as Hr by (rewrite F'; apply elem_of_app; right; by left).
  pose proof (NoDup_app (map fst (activeRequests s)) (retiredRequestIds s)) as [Hd _]. specialize (Hd D) as (Hd1 & Hd2 & _).
  split_and!.
  - clear -Hr. induction (activeRequests s) as [|[k st] l IH]; [by apply elem_of_nil in Hr|]. cbn in *.
    destruct (Z.eqb_spec k r); [by eexists|]. apply elem_of_cons in Hr as [?|?]; [done|by apply IH].
  - by apply Hd2.
  - intros o. split_and!.
    + eapply legacy_conclude_inv; [reflexivity|..]; cbn [activeRequests remove_handler set_handlers handlers retiredRequestIds nextHandler session admittedHandshake]; try done.
      * by rewrite (keep_others r _ _ _ F' Hd1), Er, legacy_in_flight_app.
      * rewrite Er, legacy_in_flight_app. rewrite F', length_app in A. rewrite length_app. cbn in A. lia.
      * rewrite Er. rewrite E, map_app in N. cbn in N. rewrite <- Permutation_middle in N.
        apply NoDup_cons in N as [_ N]. by rewrite map_app.
      * intros m Hm. apply B. rewrite Er in Hm. rewrite E. rewrite map_app in Hm |- *. cbn.
        rewrite <- Permutation_middle. by right.
    + cbn. intros ([k st] & -> & [? _]%list_elem_of_filter)%list_elem_of_fmap. done.
    + cbn. rewrite bool_decide_eq_false_2; [apply elem_of_app; right; by left|]. intros Hk%evict_sub; [|done]. by apply (Hd2 r).
Qed.

Lemma legacy_step_inv s e s' out : inv s → step s e = Some (s', out) → inv s'.
Proof.
  intros Hi Hs. destruct e as [method cl|n chunks uuid|n|n c|n c|n c|n| |]; cbn [Legacy.step] in Hs.
  - destruct (listening s); [|done]. injection Hs as Hs. apply (f_equal fst) in Hs. cbn [fst] in Hs. subst s'.
    apply fetch_inv. destruct Hi as [[F D A R N B C] Hss]. split; [|exact Hss]. constructor; cbn; try done.
    + intros m Hm. specialize (B m Hm). lia.
    + intros m [= <-]. split; [|lia]. intros Hm. specialize (B _ Hm). lia.
  - destruct (find_handler n (handlers s)) as [[id|id|id r timer|cl]|] eqn:Hf; try done. injection Hs as Hs.
    apply (f_equal fst) in Hs. cbn [fst] in Hs. subst s'. by apply received_inv, (removed n _ s Hi Hf eq_refl).
  - destruct (find_handler n (handlers s)) as [[id|id|id r timer|cl]|] eqn:Hf; try done. injection Hs as <- _.
    exact (inv_weaken _ _ (removed n _ s Hi Hf eq_refl)).
  - destruct (find_handler n (handlers s)) as [[id|id|id r timer|cl]|] eqn:Hf; try done. injection Hs as Hs.
    apply (f_equal fst) in Hs. cbn [fst] in Hs. subst s'. pose proof (removed n _ s Hi Hf eq_refl) as Hr.
    unfold activated. destruct c as [v|]; [|by eapply inv_weaken]. apply inv_weaken in Hr.
    destruct v; eapply inv_same, Hr; try done; apply Hr.
  - destruct (find_handler n (handlers s)) as [[id|id|id r timer|cl]|] eqn:Hf; try done. injection Hs as Hs.
    apply (f_equal fst) in Hs. cbn [fst] in Hs. subst s'. pose proof (removed n _ s Hi Hf eq_refl) as Hr%inv_weaken.
    destruct c; [by apply shut_inv|done].
  - destruct (find_handler n (handlers s)) as [[id|id|id r timer|cl]|] eqn:Hf; try done. injection Hs as <- _.
    by apply (proj2 (proj2 (invoking n id r timer s Hi Hf)) (PSuccess JNull)).
  - destruct (find_handler n (handlers s)) as [[id|id|id r []|cl]|] eqn:Hf; try done. injection Hs as <- _.
    eapply inv_same, Hi; try done; [apply on_request_fst|apply Hi].
  - destruct (stopScheduled s); [|done]. injection Hs as <- _. eapply inv_same, Hi; try done. apply Hi.
  - injection Hs as <- _. eapply inv_same, (closing_inv _ _ Hi); try done. apply Hi.
Qed.

(** The executions of a server, with everything it has said and asked. *)
Inductive trace : state → list output → Prop :=
| trace_start : trace (start_state definition managedLifecycle) []
| trace_step s out e s' o : trace s out → step s e = Some (s', o) → trace s' (out ++ o).

Lemma legacy_trace_inv s out : trace s out → inv s.
Proof. induction 1; [apply legacy_start_inv|by eapply legacy_step_inv]. Qed.

(** C18: in every state the server reaches, the active requests are those whose provider
    is running and are at most [maxConcurrentRequests]; the retired numbers are at most
    [maxRetiredRequestIds]; no number is active twice, retired twice, or both. *)
Theorem legacy_pool_bounds s out :
  trace s out →
  map fst (activeRequests s) = in_flight (handlers s) ∧
  Z.of_nat (length (activeRequests s)) <= Z.max 0 (def_maxConcurrentRequests definition) ∧
  Z.of_nat (length (retiredRequestIds s)) <= maxRetiredRequestIds ∧
  NoDup (map fst (activeRequests s) ++ retiredRequestIds s).
Proof. intros [[F D A R _ _ _] _]%legacy_trace_inv. rewrite length_map in A. done. Qed.

(** C21: when the provider of a request settles, the request leaves the active table, its
    number is retired and its answer is decided in this order: a provider that threw
    gives a plugin failure, an expired deadline wins over a cancellation, a cancellation
    over the provider's outcome; and the answer is bounded by the frame limit. *)
Theorem legacy_outcome_order s out n c s' o :
  trace s out → step s (Invoked n c) = Some (s', o) →
  ∃ id r timer st,
    find_handler n (handlers s) = Some (AwaitInvoke id r timer) ∧ find_request r (activeRequests s) = Some st ∧
    (r ∉ map fst (activeRequests s')) ∧ r ∈ retiredRequestIds s' ∧
    o = [Answered n (jsonRpcResult id (outcome_json
           match c with
           | Threw e => plugin_failure e
           | Returned answer => if rs_deadlineExceeded st then deadlineExceeded r
                                else if rs_cancelled st then cancelled r else answer
           end) (Some maxFrameBytes))].
Proof.
  intros Hi%legacy_trace_inv Hs. cbn [Legacy.step] in Hs.
  destruct (find_handler n (handlers s)) as [[id|id|id r timer|cl]|] eqn:Hf; try done.
  destruct (invoking n id r timer s Hi Hf) as ((st & Hst) & _ & Hc).
  exists id, r, timer, st. unfold invoked in Hs. cbn [activeRequests remove_handler set_handlers] in Hs.
  rewrite Hst in Hs. cbn [default] in Hs. injection Hs as <- <-. split_and!; [done|done|apply (Hc (PSuccess JNull))|apply (Hc (PSuccess JNull))|done].
Qed.

(** *** One answer for every request *)

Definition answer_of (o : output) : option nat :=
  match o with Answered n _ | Rejected n _ => Some n | _ => None end.
Definition answers (out : list output) : list nat := omap answer_of out.

(** A handler answers, or suspends and says nothing to its client. *)
Definition speaks (n : nat) (s : state) (r : state * list output) : Prop :=
  nextHandler r.1 = nextHandler s ∧
  ((answers r.2 = [n] ∧ handlers r.1 = handlers s) ∨
   (answers r.2 = [] ∧ ∃ x, handlers r.1 = handlers s ++ [(n, x)])).

Lemma says_one n s s' o :
  answer_of o = Some n → handlers s' = handlers s → nextHandler s' = nextHandler s → speaks n s (s', [o]).
Proof. intros Ho Hh Hn. split; [exact Hn|]. left. cbn. rewrite Ho. by split. Qed.

Lemma says_later n s s' x o :
  answer_of o = None → handlers s' = handlers s → nextHandler s' = nextHandler s →
  speaks n s (suspend n x s', [o]).
Proof. intros Ho Hh Hn. split; [exact Hn|]. right. cbn. rewrite Ho, Hh. split; [done|by eexists]. Qed.

Lemma handshake_speaks n id params uuid s :
  speaks n s (handshake definition maxFrameBytes expectedEndpoints managedLifecycle n id params uuid s).
Proof.
  unfold handshake. destruct (handshake_accepted _ _ _ _ _) as [[]|]; apply says_one; reflexivity.
Qed.

Lemma cancel_speaks n id params s : speaks n s (cancel n id params s).
Proof.
  unfold cancel. destruct (negb _); [apply says_one; reflexivity|].
  destruct (isRequestId _); apply says_one; reflexivity.
Qed.

Lemma activate_speaks n id params s : speaks n s (activate definition managedLifecycle n id params s).
Proof.
  unfold activate. destruct (objectParam params); [|apply says_one; reflexivity].
  destruct (_ || _); [apply says_one; reflexivity|]. destruct (_ ≫= _) as [[config bound]|]; [|apply says_one; reflexivity].
  destruct (def_has_create definition); [apply says_later|apply says_one]; reflexivity.
Qed.

Lemma shutdown_speaks n id params s : speaks n s (shutdown definition n id params s).
Proof.
  unfold shutdown. destruct (negb _); [apply says_one; reflexivity|]. cbn zeta.
  destruct (instance _), (def_has_stop definition); try (apply says_one; reflexivity). apply says_later; reflexivity.
Qed.

Lemma request_speaks n id params i s :
  speaks n s (request definition maxFrameBytes maxRetiredRequestIds n id params i s).
Proof.
  unfold request. destruct (_ ≫= _) as [r|]; [|apply says_one; reflexivity].
  destruct (_ || _); [apply says_one; reflexivity|]. destruct (_ <=? _); [apply says_one; reflexivity|].
  destruct (providerByCapability _ _); [|apply says_one; reflexivity]. unfold run_request. cbn zeta.
  destruct (invocationContext _ r); [|apply says_one; reflexivity].
  destruct (bool_decide _); [apply says_one; reflexivity|]. apply says_later; reflexivity.
Qed.

Lemma fetch_speaks n method content_length s : speaks n s (fetch n method content_length s).
Proof.
  unfold fetch. destruct (negb _); [apply says_one; reflexivity|]. split; [done|]. right. split; [done|by eexists].
Qed.

Lemma received_speaks n content_length chunks uuid s : speaks n s (received n content_length chunks uuid s).
Proof.
  unfold received. destruct (readBoundedBody _ _ _); [|apply says_one; reflexivity].
  destruct (json_parse _) as [envelope|]; [|apply says_one; reflexivity].
  destruct envelope; try (apply says_one; reflexivity); cbn [objectParam default]; (destruct (is_str _ _); [|apply says_one; reflexivity]);
    (destruct (field _ "method"); try (apply says_one; reflexivity)); cbn zeta; unfold dispatch;
    (destruct (bool_decide _); [apply handshake_speaks|]); (destruct (bool_decide _); [apply cancel_speaks|]);
    (destruct (bool_decide _); [apply activate_speaks|]); (destruct (bool_decide _); [apply shutdown_speaks|]);
    (destruct (bool_decide _); [|apply says_one; reflexivity]); (destruct (accepting s); [|apply says_one; reflexivity]);
    (destruct (admittedHandshake s); [|apply says_one; reflexivity]); (destruct (instance s); [|apply says_one; reflexivity]);
    apply request_speaks.
Qed.

(** The request a step starts. *)
Definition started (s : state) (e : event) : list nat := match e with Fetch _ _ => [nextHandler s] | _ => [] end.

Lemma open_remove n x s :
  inv s → find_handler n (handlers s) = Some x → n :: map fst (handlers (remove_handler n s)) ≡ₚ map fst (handlers s).
Proof.
  intros [[_ _ _ _ N _ _] _] Hf. destruct (handler_split n x _ N Hf) as (l1 & l2 & E & Er & _).
  cbn. rewrite Er, E, !map_app. cbn. by rewrite Permutation_middle.
Qed.

Lemma step_answers s e s' o :
  inv s → step s e = Some (s', o) →
  answers o ++ map fst (handlers s') ≡ₚ started s e ++ map fst (handlers s).
Proof.
  intros Hi Hs. destruct e as [method cl|n chunks uuid|n|n c|n c|n c|n| |]; cbn [Legacy.step] in Hs.
  - destruct (listening s); [|done]. injection Hs as Hs.
    pose proof (fetch_speaks (nextHandler s) method cl (set_nextHandler (S (nextHandler s)) s)) as [_ Hsp].
    rewrite Hs in Hsp. cbn [fst snd handlers set_nextHandler] in Hsp. destruct Hsp as [[-> ->]|[-> [x ->]]]; [done|].
    cbn. rewrite map_app. cbn. by rewrite <- Permutation_cons_append.
  - destruct (find_handler n (handlers s)) as [[id|id|id r timer|cl]|] eqn:Hf; try done. injection Hs as Hs.
    rewrite <- (open_remove n _ s Hi Hf). pose proof (received_speaks n cl chunks uuid (remove_handler n s)) as [_ Hsp].
    rewrite Hs in Hsp. cbn [fst snd] in Hsp. destruct Hsp as [[-> ->]|[-> [x ->]]]; [done|].
    cbn [app]. rewrite map_app. cbn [map fst]. by rewrite <- Permutation_cons_append.
  - destruct (find_handler n (handlers s)) as [[id|id|id r timer|cl]|] eqn:Hf; try done.
    rewrite <- (open_remove n _ s Hi Hf). by injection Hs as <- <-.
  - destruct (find_handler n (handlers s)) as [[id|id|id r timer|cl]|] eqn:Hf; try done.
    rewrite <- (open_remove n _ s Hi Hf). destruct c as [[]|]; by injection Hs as <- <-.
  - destruct (find_handler n (handlers s)) as [[id|id|id r timer|cl]|] eqn:Hf; try done.
    rewrite <- (open_remove n _ s Hi Hf). destruct c; by injection Hs as <- <-.
  - destruct (find_handler n (handlers s)) as [[id|id|id r timer|cl]|] eqn:Hf; try done.
    rewrite <- (open_remove n _ s Hi Hf). by injection Hs as <- <-.
  - destruct (find_handler n (handlers s)) as [[id|id|id r []|cl]|] eqn:Hf; try done. by injection Hs as <- <-.
  - destruct (stopScheduled s); [|done]. by injection Hs as <- <-.
  - by injection Hs as <- <-.
Qed.

Lemma step_next s e s' o : step s e = Some (s', o) → nextHandler s' = (nextHandler s + length (started s e))%nat.
Proof.
  intros Hs. destruct e as [method cl|n chunks uuid|n|n c|n c|n c|n| |]; cbn [Legacy.step] in Hs; cbn [started length]; rewrite ?Nat.add_0_r.
  - destruct (listening s); [|done]. injection Hs as Hs.
    pose proof (fetch_speaks (nextHandler s) method cl (set_nextHandler (S (nextHandler s)) s)) as [E _].
    rewrite Hs in E. cbn in E. lia.
  - destruct (find_handler n (handlers s)) as [[id|id|id r timer|cl]|] eqn:Hf; try done. injection Hs as Hs.
    pose proof (received_speaks n cl chunks uuid (remove_handler n s)) as [E _]. by rewrite Hs in E.
  - repeat case_match; try done; by injection Hs as <- <-.
  - repeat case_match; try done. destruct c as [[]|]; by injection Hs as <- <-.
  - repeat case_match; try done. destruct c; by injection Hs as <- <-.
  - repeat case_match; try done; by injection Hs as <- <-.
  - repeat case_match; try done; by injection Hs as <- <-.
  - repeat case_match; try done; by injection Hs as <- <-.
  - by injection Hs as <- <-.
Qed.

(** C19: every request is answered exactly once.  Through a whole execution the requests
    answered and the requests waiting for their body or for Plugin code are pairwise distinct; and no
    step loses one: those it answers and those then waiting are together the one it
    started and those waiting before. *)
Theorem legacy_answered_once s out :
  trace s out →
  NoDup (answers out ++ map fst (handlers s)) ∧
  ∀ e s' o, step s e = Some (s', o) →
    answers o ++ map fst (handlers s') ≡ₚ started s e ++ map fst (handlers s).
Proof.
  intros Htr. split; [|intros e s' o; apply step_answers; by eapply legacy_trace_inv].
  assert (NoDup (answers out ++ map fst (handlers s)) ∧
          ∀ n, n ∈ answers out ++ map fst (handlers s) → (n < nextHandler s)%nat) as [Hnd _]; [|exact Hnd].
  induction Htr as [|s out e s' o Htr [IHn IHl] Hs]; [split; [apply NoDup_nil_2|by intros ? ?%elem_of_nil]|].
  pose proof (step_answers _ _ _ _ (legacy_trace_inv _ _ Htr) Hs) as Hc. pose proof (step_next _ _ _ _ Hs) as Hnx.
  assert (answers (out ++ o) ++ map fst (handlers s') ≡ₚ started s e ++ (answers out ++ map fst (handlers s))) as Hp.
  { unfold answers in *. rewrite omap_app, <- app_assoc, Hc, !app_assoc, (Permutation_app_comm (omap _ out)). done. }
  assert (∀ n, n ∈ started s e → n = nextHandler s ∧ (nextHandler s < nextHandler s')%nat) as Hst.
  { intros n. destruct e; cbn in *; rewrite ?list_elem_of_singleton; try by intros ?%elem_of_nil. intros ->. lia. }
  split.
  - rewrite Hp. apply NoDup_app. split_and!; [destruct e; first [apply NoDup_nil_2|apply NoDup_singleton]| |done].
    intros n [-> _]%Hst Hn%IHl. lia.
  - intros n Hn. rewrite Hp in Hn. apply elem_of_app in Hn as [[-> ?]%Hst|Hn%IHl]; [done|lia].
Qed.

(** *** Closing *)

Definition is_invoke (o : output) : bool := match o with InvokeCalled _ _ _ _ _ _ => true | _ => false end.

(** A segment that starts no request and leaves the session alone. *)
Definition refuses (s : state) (r : state * list output) : Prop :=
  accepting r.1 = false ∧ session r.1 = session s ∧ Forall (fun o => is_invoke o = false) r.2.

Lemma refuses_one s s' o :
  accepting s' = false → session s' = session s → is_invoke o = false → refuses s (s', [o]).
Proof. intros Ha Hs Ho. split_and!; [done|done|]. by repeat constructor. Qed.

Lemma handshake_refuses n id params uuid s :
  accepting s = false →
  refuses s (handshake definition maxFrameBytes expectedEndpoints managedLifecycle n id params uuid s).
Proof.
  intros Ha. unfold handshake, handshake_accepted. rewrite Ha. cbn [andb]. by apply refuses_one.
Qed.

Lemma activate_refuses n id params s :
  accepting s = false → refuses s (activate definition managedLifecycle n id params s).
Proof.
  intros Ha. unfold activate. destruct (objectParam params); [|by apply refuses_one].
  destruct (_ || _); [by apply refuses_one|]. destruct (_ ≫= _) as [[config bound]|]; [|by apply refuses_one].
  destruct (def_has_create definition); by apply refuses_one.
Qed.

Lemma shutdown_refuses n id params s : accepting s = false → refuses s (shutdown definition n id params s).
Proof.
  intros Ha. unfold shutdown. destruct (negb _); [by apply refuses_one|]. cbn zeta.
  destruct (instance _), (def_has_stop definition); by apply refuses_one.
Qed.

Lemma fetch_refuses n method content_length s : accepting s = false → refuses s (fetch n method content_length s).
Proof. intros Ha. unfold fetch. destruct (negb _); [by apply refuses_one|]. split_and!; [done|done|constructor]. Qed.

Lemma received_refuses n content_length chunks uuid s :
  accepting s = false → refuses s (received n content_length chunks uuid s).
Proof.
  intros Ha. unfold received.
  destruct (readBoundedBody _ _ _); [|by apply refuses_one]. destruct (json_parse _) as [envelope|]; [|by apply refuses_one].
  destruct envelope; try (by apply refuses_one); cbn [objectParam default];
    (destruct (is_str _ _); [|by apply refuses_one]); (destruct (field _ "method"); try (by apply refuses_one));
    cbn zeta; unfold dispatch;
    (destruct (bool_decide _); [by apply handshake_refuses|]);
    (destruct (bool_decide _); [unfold cancel; destruct (negb _); [|destruct (isRequestId _)]; by apply refuses_one|]);
    (destruct (bool_decide _); [by apply activate_refuses|]);
    (destruct (bool_decide _); [by apply shutdown_refuses|]);
    rewrite Ha; destruct (bool_decide _); by apply refuses_one.
Qed.

(** C22: a server that has been shut down stays shut: once it does not accept work, no
    step makes it accept again, opens or replaces a session, or calls a provider. *)
Theorem legacy_closed_forever s e s' o :
  accepting s = false → step s e = Some (s', o) →
  accepting s' = false ∧ session s' = session s ∧ Forall (fun x => is_invoke x = false) o.
Proof.
  intros Ha Hs. destruct e as [method cl|n chunks uuid|n|n c|n c|n c|n| |]; cbn [Legacy.step] in Hs.
  - destruct (listening s); [|done]. injection Hs as Hs.
    pose proof (fetch_refuses (nextHandler s) method cl (set_nextHandler (S (nextHandler s)) s) Ha) as Hr.
    rewrite Hs in Hr. exact Hr.
  - destruct (find_handler n (handlers s)) as [[id|id|id r timer|cl]|]; try done. injection Hs as Hs.
    pose proof (received_refuses n cl chunks uuid (remove_handler n s) Ha) as Hr. rewrite Hs in Hr. exact Hr.
  - destruct (find_handler n (handlers s)) as [[]|]; try done. injection Hs as <- <-. by apply refuses_one.
  - destruct (find_handler n (handlers s)) as [[]|]; try done.
    destruct c as [[]|]; injection Hs as <- <-; by apply refuses_one.
  - destruct (find_handler n (handlers s)) as [[]|]; try done.
    destruct c; injection Hs as <- <-; by apply refuses_one.
  - destruct (find_handler n (handlers s)) as [[]|]; try done. injection Hs as <- <-. by apply refuses_one.
  - destruct (find_handler n (handlers s)) as [[| |? ? []|]|]; try done. injection Hs as <- <-. by split_and!.
  - destruct (stopScheduled s); [|done]. injection Hs as <- <-. by split_and!.
  - injection Hs as <- <-. by split_and!.
Qed.

(** *** The authority of the session *)

(** The parameters of a message name the session [x]. *)
Definition presents (params : jsval) (x : jsstr) : Prop :=
  (∃ fs, objectParam params = Some fs ∧ field fs "session" = JStr x) ∨
  act_session (as_activation params) = JStr x.

Definition calls_plugin (o : output) : bool :=
  match o with CreateCalled _ _ _ _ | StopCalled _ _ _ | InvokeCalled _ _ _ _ _ _ => true | _ => false end.

Lemma hasSession_true v s : hasSession v s = true → ∃ x, session s = Some x ∧ v = JStr x.
Proof.
  unfold hasSession. destruct (admittedHandshake s), (session s) as [x|]; try done. intros Hv. exists x.
  split; [done|]. destruct v; cbn in Hv; try done. by apply bool_decide_eq_true in Hv.
Qed.

Lemma param_session_true params s :
  hasSession (param_session params) s = true → ∃ x, session s = Some x ∧ presents params x.
Proof.
  intros (x & Hx & Hv)%hasSession_true. exists x. split; [done|]. left. unfold param_session in Hv.
  destruct (objectParam params) as [fs|]; [|done]. exists fs. split; [done|].
  unfold string_or_undefined in Hv. by destruct (field fs "session").
Qed.

Lemma wire_session fs x r : validWireRequest fs (Some x) = Some r → field fs "session" = JStr x.
Proof.
  unfold validWireRequest. intros (id & _ & H1)%bind_Some. apply bind_Some in H1 as (c & _ & H1).
  apply bind_Some in H1 as (op & _ & H1). apply bind_Some in H1 as ([] & Hs & _).
  destruct (strict_equal _ _) eqn:E; [|done]. destruct (field fs "session"); cbn in E; try done.
  by apply bool_decide_eq_true in E.
Qed.

(** C20: only the holder of the session acts on the server.  A message either leaves the
    state as it is and calls no Plugin code, or is a handshake the server accepts, which
    opens a new session, or names the current session. *)
Theorem legacy_session_authority s out n id method params uuid :
  trace s out →
  let r := dispatch definition maxFrameBytes maxRetiredRequestIds expectedEndpoints managedLifecycle n id method params uuid s in
  (r.1 = s ∧ Forall (fun o => calls_plugin o = false) r.2) ∨
  (handshake_accepted definition maxFrameBytes expectedEndpoints (objectParam params) s = Ok true ∧
   r.1 = set_session uuid (default [] (objectParam params)) s ∧ Forall (fun o => calls_plugin o = false) r.2) ∨
  ∃ x, session s = Some x ∧ presents params x.
Proof.
  intros [_ Hss]%legacy_trace_inv. cbn zeta. set (Q := _ ∨ _ ∨ _).
  assert (∀ o, calls_plugin o = false → Forall (fun o => calls_plugin o = false) [o]) as Hone by (intros; by repeat constructor).
  unfold Q, dispatch. destruct (bool_decide _).
  { unfold handshake. destruct (handshake_accepted _ _ _ _ s) as [[]|]; [right; left|left|left]; split_and!;
      try done; by apply Hone. }
  destruct (bool_decide _).
  { unfold cancel. destruct (hasSession _ s) eqn:E; [do 2 right; by apply param_session_true|].
    left. split; [done|by apply Hone]. }
  destruct (bool_decide _).
  { unfold activate. destruct (objectParam params); [|left; split; [done|by apply Hone]].
    destruct (hasSession (act_session _) s) eqn:E.
    - do 2 right. apply hasSession_true in E as (x & ? & ?). exists x. split; [done|by right].
    - left. rewrite orb_true_r. cbn. split; [done|by apply Hone]. }
  destruct (bool_decide _).
  { unfold shutdown. destruct (hasSession _ s) eqn:E; [do 2 right; by apply param_session_true|].
    left. split; [done|by apply Hone]. }
  destruct (bool_decide _); [|left; split; [done|by apply Hone]].
  destruct (accepting s); [|left; split; [done|by apply Hone]].
  destruct (admittedHandshake s) as [h|]; [|left; split; [done|by apply Hone]].
  destruct (proj2 Hss ltac:(by eexists)) as [x Hx].
  destruct (instance s); [|left; split; [done|by apply Hone]]. unfold request.
  destruct (objectParam params) as [fs|] eqn:Ho; cbn [option_bind mbind]; [|left; split; [reflexivity|by apply Hone]].
  rewrite Hx. destruct (validWireRequest fs (Some x)) as [w|] eqn:Hw; [|left; split; [done|by apply Hone]].
  do 2 right. exists x. split; [done|]. left. exists fs. split; [done|by eapply wire_session].
Qed.
End invariant.
