(* ===== verification/LegacyReading.v ===== *)
(** * How the first Plugin server reads what the Host sends

    Bodies that arrive in chunks and the requests in them, endpoints of a handshake as
    untyped values, and the extensions of an invocation. *)

From Stdlib Require Import ZArith SpecFloat.
From S2P Require Import Prelude JsValue Text Json JsonText Authoring Legacy.

Local Open Scope Z_scope.

(** ** Bodies *)

Lemma decode_feed st a b : decode_from st (a ++ b) = (feed st a).1 ++ decode_from (feed st a).2 b.
Proof.
  revert st. induction a as [|x a IH]; intros st; [done|]. cbn. destruct (decode_byte st x) as [out st1].
  rewrite IH. destruct (feed st1 a) as [out' st2]. cbn. by rewrite app_assoc.
Qed.

Lemma strip_bom_app cs cs' : cs ≠ [] → strip_bom (cs ++ cs') = strip_bom cs ++ cs'.
Proof. destruct cs as [|c cs]; [done|]. intros _. cbn. by destruct (c =? BOM)%N. Qed.

(** The text of the code points [cps] the decoder has put out, and whether there are any. *)
Definition put_out (cps : list N) (text : jsstr) (d : stream_decoder) : Prop :=
  text = concat (map utf16 (strip_bom cps)) ∧ (sd_started d = false ↔ cps = []).

Lemma emit_put_out cps text d new st :
  put_out cps text d → put_out (cps ++ new) (text ++ (emit d new st).1) (emit d new st).2.
Proof.
  intros [-> Hst]. unfold emit. destruct new as [|c new]; cbn [fst snd].
  - rewrite !app_nil_r. by split.
  - split; [|cbn; split; [done|by destruct cps]]. destruct (sd_started d) eqn:Hd.
    + rewrite strip_bom_app by (by intros Hc%Hst). by rewrite map_app, concat_app.
    + rewrite (proj1 Hst eq_refl). done.
Qed.

Lemma emit_state d new st : sd_state (emit d new st).2 = st.
Proof. by destruct new. Qed.

Lemma read_chunks_exact limit chunks total text d cps rest :
  put_out cps text d → decode_from (sd_state d) (concat chunks) = rest → total <= limit →
  read_chunks limit total text d chunks =
    if limit <? total + Z.of_nat (length (concat chunks)) then None
    else Some (concat (map utf16 (strip_bom (cps ++ rest)))).
Proof.
  revert total text d cps rest. induction chunks as [|chunk chunks IH]; intros total text d cps rest Hp Hr Hle;
    cbn [read_chunks concat] in *.
  - cbn [length]. rewrite (proj2 (Z.ltb_ge _ _)) by lia. f_equal. subst rest. unfold decode_flush.
    by destruct (emit_put_out cps text d (decode_from (sd_state d) []) dstate0 Hp) as [-> _].
  - rewrite length_app. destruct (Z.ltb_spec limit (total + Z.of_nat (length chunk))).
    + by rewrite (proj2 (Z.ltb_lt _ _)) by lia.
    + unfold decode_stream. rewrite decode_feed in Hr. destruct (feed (sd_state d) chunk) as [new st]. cbn [fst snd] in Hr.
      pose proof (emit_put_out cps text d new st Hp) as Hp'. pose proof (emit_state d new st) as Est.
      destruct (emit d new st) as [out d']. cbn [fst snd] in *. subst st.
      rewrite (IH _ _ _ _ _ Hp' eq_refl) by lia.
      replace (total + Z.of_nat (length chunk) + Z.of_nat (length (concat chunks)))
        with (total + Z.of_nat (length chunk + length (concat chunks))) by lia.
      by rewrite <- Hr, app_assoc.
Qed.

(** A body is read the same however it is cut into chunks: it is refused exactly when
    its declared or its actual length exceeds the frame limit, and is otherwise the
    decoding of all its bytes, characters split between chunks included. *)
Theorem legacy_body_exact limit content_length chunks :
  0 <= limit →
  readBoundedBody limit content_length (Some chunks) =
    if exceeds (match content_length with Some h => to_number h | None => S754_zero false end) limit ||
       (limit <? Z.of_nat (length (concat chunks)))
    then None else Some (decode (concat chunks)).
Proof.
  intros Hl. unfold readBoundedBody. destruct (exceeds _ _); [done|]. cbn [orb].
  rewrite (read_chunks_exact limit chunks 0 [] _ [] (decode_from dstate0 (concat chunks))); [done|by split|reflexivity|done].
Qed.

(** A two-byte character between two chunks. *)
Lemma legacy_body_exact_witness :
  readBoundedBody 8 (Some (js "3")) (Some [[0xC3]; [0xA9; 0x21]]%N) = Some [0xE9; 0x21]%N.
Proof. rewrite (legacy_body_exact 8 (Some (js "3")) [[0xC3]; [0xA9; 0x21]]%N) by lia. vm_compute. reflexivity. Defined.

(** ** Requests *)

Section requests.
Context `{LegacyCode}.
Variable definition : PluginDefinition.
Variable maxFrameBytes maxRetiredRequestIds : Z.
Variable expectedEndpoints : jsval.
Variable managedLifecycle : bool.

Abbreviation received := (received definition maxFrameBytes maxRetiredRequestIds expectedEndpoints managedLifecycle).
Abbreviation dispatch := (dispatch definition maxFrameBytes maxRetiredRequestIds expectedEndpoints managedLifecycle).

#[local] Opaque Legacy.dispatch.

(** The declared length of a body is over the limit only when the body is. *)
Definition honest (content_length : option jsstr) (bytes : Z) : Prop :=
  ∀ h, content_length = Some h → exceeds (to_number h) maxFrameBytes = true → maxFrameBytes < bytes.

(** C24: a request reaches the first Plugin server as it was sent, however its UTF-8 text is cut
    into chunks: a request with portable parameters runs exactly the handler of its method on
    exactly its parameters, under its own identifier, or is refused with 413 and changes
    nothing when its text is over the frame limit. *)
Theorem legacy_wire_roundtrip n content_length uuid s id method params chunks :
  portable id = true → units method = true → portable params = true →
  let request := rpc_request id method params in
  concat chunks = encode (json_text request) →
  0 <= maxFrameBytes → honest content_length (json_bytes request) →
  received n content_length (Some chunks) uuid s =
    if maxFrameBytes <? json_bytes request
    then (s, [Answered n {| status := 413; body := js "request too large" |}])
    else dispatch n id method (match params with JArr [p] => p | p => p end) uuid s.
Proof.
  intros Hi Hu Hp request Hb Hl Hh. unfold Legacy.received.
  rewrite legacy_body_exact, Hb by done.
  change (Z.of_nat (length (encode (json_text request)))) with (json_bytes request).
  destruct (Z.ltb_spec maxFrameBytes (json_bytes request)) as [Hbig|Hfit]; [by rewrite orb_true_r|].
  assert (exceeds (match content_length with Some h => to_number h | None => S754_zero false end) maxFrameBytes = false) as ->.
  { destruct content_length as [h|]; [|by unfold exceeds; destruct (SFcompare _ _) as [[]|]].
    apply not_true_is_false. intros He. specialize (Hh h eq_refl He). lia. }
  cbn [orb]. destruct (wire_roundtrip request) as [_ ->]; [by apply portable_request|].
  unfold request, rpc_request.
  set (fs := [(js "jsonrpc", _); _; _; _]). change (default [] (objectParam (JObj fs))) with fs. unfold fs.
  destruct (request_fields id method params) as (-> & -> & -> & ->).
  destruct id; [discriminate Hi|..]; destruct params as [| | | | |[|? []]| |]; reflexivity.
Qed.
End requests.

(** ** Endpoints *)

(** Arrays of the language have fewer than [2^32] elements. *)
Definition sized {A} (l : list A) : Prop := Z.of_nat (length l) < 4294967296.

Lemma num_finite z : Z.abs z <= MAX_SAFE_INTEGER → SFcompare (num z) (num z) = Some Eq.
Proof.
  intros Hz. pose proof (safe_int_num z Hz) as Hs. destruct (num z) as [|[]| |[] m e]; try done; cbn;
    rewrite Z.compare_refl; cbn; by rewrite ?Pos.compare_cont_refl.
Qed.

Lemma compare_int x y z w :
  safe_int x = Some z → safe_int y = Some w → SFcompare x y = Some Eq → z = w.
Proof.
  intros Hx Hy Hc. assert (x = y ∨ (∃ a b, x = S754_zero a ∧ y = S754_zero b)) as [->|(a & b & -> & ->)].
  - destruct x as [a|[]| |[] m e], y as [b|[]| |[] k f]; try done; cbn in Hc; try (right; by eexists _, _);
      left; injection Hc as Hc; destruct (Z.compare_spec e f) as [->| |]; try done; cbn in Hc.
    + f_equal. apply Pos.compare_eq. unfold Pos.compare. by destruct (Pos.compare_cont Eq m k).
    + f_equal. by apply Pos.compare_eq.
  - congruence.
  - cbn in Hx, Hy. congruence.
Qed.

Lemma same_length_sized type_error (l r : list jsval) :
  sized l → sized r → same_length type_error (JArr l) (JArr r) = Ok (length l =? length r)%nat.
Proof.
  unfold sized. intros Hl Hr. unfold same_length. cbn. f_equal.
  assert (∀ z, 0 <= z < 4294967296 → Z.abs z <= MAX_SAFE_INTEGER) as Hz by (unfold MAX_SAFE_INTEGER; lia).
  destruct (Nat.eqb_spec (length l) (length r)) as [->|Hne].
  - apply bool_decide_eq_true, num_finite. unfold MAX_SAFE_INTEGER. lia.
  - apply bool_decide_eq_false. intros Hc. apply Hne. apply Nat2Z.inj.
    eapply compare_int; [apply safe_int_num, Hz; lia|apply safe_int_num, Hz; lia|exact Hc].
Qed.

(** [every] on two lists of the same length tests them pairwise. *)
Lemma every_pairs {A} type_error (inj : A → jsval) (test : jsval → jsval → throws bool) (b : A → A → bool) ls rs pre :
  (∀ x y, x ∈ ls → y ∈ rs → test (inj x) (inj y) = Ok (b x y)) → length ls = length rs →
  every_from (fun v i => other ← at_index type_error (JArr (map inj (pre ++ rs))) i; test v other) (length pre) (map inj ls) =
    Ok (forallb (fun p => b p.1 p.2) (zip ls rs)).
Proof.
  revert rs pre. induction ls as [|x ls IH]; intros [|y rs] pre Ht Hl; try done. cbn [map every_from zip_with forallb fst snd].
  cbn [at_index mret result_ret mbind result_bind].
  assert (map inj (pre ++ y :: rs) !! length pre = Some (inj y)) as ->
    by (rewrite list_lookup_fmap, lookup_app_r, Nat.sub_diag by lia; reflexivity).
  cbn [default from_option id]. rewrite Ht by (by left). destruct (b x y); [|done]. cbn [mbind result_bind andb].
  replace (S (length pre)) with (length (pre ++ [y])) by (rewrite length_app; cbn; lia).
  replace (pre ++ y :: rs) with ((pre ++ [y]) ++ rs) by (by rewrite <- app_assoc).
  apply IH; [intros; apply Ht; by right|cbn in Hl; lia].
Qed.

Lemma sameStrings_zip ls rs :
  sameStrings ls rs = (length ls =? length rs)%nat && forallb (fun p => bool_decide (p.1 = p.2)) (zip ls rs).
Proof.
  revert rs. induction ls as [|l ls IH]; intros [|r rs]; try done. cbn. rewrite IH.
  destruct (length ls =? length rs)%nat; [done|]. by rewrite !andb_false_r.
Qed.

Lemma sameEndpoints_zip ls rs :
  sameEndpoints ls rs = (length ls =? length rs)%nat && forallb (fun p => sameEndpoint p.1 p.2) (zip ls rs).
Proof.
  revert rs. induction ls as [|l ls IH]; intros [|r rs]; try done. cbn [sameEndpoints]. rewrite IH. cbn.
  destruct (length ls =? length rs)%nat; [done|]. by rewrite !andb_false_r.
Qed.

(** A descriptor whose arrays an engine can hold. *)
Definition sized_descriptor (d : Descriptor) : Prop :=
  sized (operations d) ∧ sized (stream_operations d) ∧ sized (event_operations d).

Section endpoints.
Variable type_error : jsstr.

Lemma same_strings_typed ls rs :
  sized ls → sized rs →
  sameStringsWire type_error (JArr (map JStr ls)) (JArr (map JStr rs)) = Ok (sameStrings ls rs).
Proof.
  intros Hl Hr. unfold sameStringsWire. rewrite same_length_sized by (unfold sized in *; by rewrite length_map).
  rewrite !length_map, sameStrings_zip. cbn [and_then mbind result_bind].
  destruct (Nat.eqb_spec (length ls) (length rs)); [|done]. cbn [every andb].
  pose (same (a b : jsstr) := bool_decide (a = b)).
  apply (every_pairs type_error JStr (fun v other => mret (strict_equal v other)) same ls rs []); [|done].
  intros x y _ _. unfold same. cbn. f_equal. by apply bool_decide_ext; split; [intros [=]|intros ->].
Qed.

Lemma descriptor_fields d :
  ∃ fs, descriptor_json d = JObj fs ∧
    field fs "capability_id" = JStr (capability_id d) ∧ field fs "descriptor_version" = JStr (descriptor_version d) ∧
    field fs "operations" = JArr (map JStr (operations d)) ∧
    field fs "stream_operations" = JArr (map JStr (stream_operations d)) ∧
    field fs "event_operations" = JArr (map JStr (event_operations d)).
Proof. eexists. split; [reflexivity|]. by destruct (descriptor_digest d). Qed.

Lemma same_endpoint_typed l r :
  sized_descriptor l → sized_descriptor r →
  sameEndpointWire type_error (descriptor_json l) (descriptor_json r) = Ok (sameEndpoint l r).
Proof.
  intros (L1 & L2 & L3) (R1 & R2 & R3). destruct (descriptor_fields l) as (fl & -> & A1 & A2 & A3 & A4 & A5).
  destruct (descriptor_fields r) as (fr & -> & B1 & B2 & B3 & B4 & B5).
  unfold sameEndpointWire, same_field, same_list, and_then, sameEndpoint. rewrite bool_decide_eq_false_2 by done.
  cbn [get mret result_ret mbind result_bind]. rewrite A1, A2, A3, A4, A5, B1, B2, B3, B4, B5.
  rewrite !same_strings_typed by done. cbn [strict_equal].
  assert (∀ a b : jsstr, bool_decide (JStr a = JStr b) = bool_decide (a = b)) as Hb
    by (intros a b; apply bool_decide_ext; split; [by intros [=]|by intros ->]).
  rewrite !Hb. destruct (bool_decide (capability_id l = _)); [|done]. cbn [andb].
  destruct (bool_decide (descriptor_version l = _)); [|done]. cbn [andb].
  destruct (sameStrings (operations l) _); [|done]. cbn [andb].
  by destruct (sameStrings (stream_operations l) _).
Qed.

Lemma same_endpoints_typed ls rs :
  sized ls → sized rs → Forall sized_descriptor ls → Forall sized_descriptor rs →
  sameEndpointsWire type_error (JArr (map descriptor_json ls)) (JArr (map descriptor_json rs)) =
    Ok (bool_decide (map undigested ls = map undigested rs)).
Proof.
  intros Hl Hr Fl Fr. assert (bool_decide (map undigested ls = map undigested rs) = sameEndpoints ls rs) as ->.
  { destruct (sameEndpoints ls rs) eqn:E; [by apply bool_decide_eq_true, sameEndpoints_true|].
    apply bool_decide_eq_false. intros Heq%sameEndpoints_true. congruence. }
  unfold sameEndpointsWire. rewrite same_length_sized by (unfold sized in *; by rewrite length_map).
  rewrite !length_map, sameEndpoints_zip. cbn [and_then mbind result_bind].
  destruct (Nat.eqb_spec (length ls) (length rs)); [|done]. cbn [every andb].
  apply (every_pairs type_error descriptor_json (sameEndpointWire type_error) sameEndpoint ls rs []); [|done].
  intros x y Hx Hy. rewrite Forall_forall in Fl, Fr. apply same_endpoint_typed; auto.
Qed.
End endpoints.

(** C23: what a handshake has to say.  A handshake whose endpoints are descriptors is
    accepted exactly when the server still accepts work, has no active request, the
    protocol version, the value profile and the frame limit are the server's, and the
    endpoints are, in order and apart from their digests, both those the Host expects and
    those of the Plugin. *)
Theorem legacy_handshake_exact `{LegacyCode} definition limit expected fs offered s :
  field fs "endpoints" = JArr (map descriptor_json offered) →
  sized offered → sized expected → sized (def_providers definition) →
  Forall sized_descriptor offered → Forall sized_descriptor expected →
  Forall sized_descriptor (map pp_descriptor (def_providers definition)) →
  handshake_accepted definition limit (JArr (map descriptor_json expected)) (Some fs) s =
    Ok (accepting s && bool_decide (activeRequests s = []) &&
        is_num (field fs "protocol_version") PROTOCOL_VERSION && is_str (field fs "value_profile") VALUE_PROFILE &&
        is_num (field fs "max_frame_bytes") limit &&
        bool_decide (map undigested offered = map undigested expected) &&
        bool_decide (map undigested offered = map undigested (map pp_descriptor (def_providers definition)))).
Proof.
  intros He So Sx Sp Fo Fx Fp. unfold handshake_accepted, validHandshake. cbn [default from_option id]. rewrite He.
  assert ((length (activeRequests s) =? 0)%nat = bool_decide (activeRequests s = [])) as ->
    by (by destruct (activeRequests s)).
  destruct (accepting s); [|done]. destruct (bool_decide (activeRequests s = [])); [|done].
  destruct (is_num _ PROTOCOL_VERSION); [|done]. destruct (is_str _ _); [|done].
  destruct (is_num _ limit); [|done]. cbn [andb].
  assert (pluginEndpoints definition = JArr (map descriptor_json (map pp_descriptor (def_providers definition)))) as ->
    by (unfold pluginEndpoints; by rewrite map_map).
  rewrite !same_endpoints_typed; try done; [|unfold sized in *; by rewrite length_map].
  cbn [and_then mbind result_bind]. by destruct (bool_decide (map undigested offered = map undigested expected)).
Qed.

(** ** Extensions *)

Lemma obj_put_lookup {V} k k' (v : V) fs : assoc k' (obj_put k v fs) = if decide (k' = k) then Some v else assoc k' fs.
Proof.
  induction fs as [|[k0 w] fs IH]; cbn [obj_put assoc]; [done|].
  destruct (decide (k = k0)) as [->|Hk]; [cbn [assoc]; by destruct (decide (k' = k0))|].
  assert (∀ l : list (jsstr * V), assoc k' ((k, v) :: l) = if decide (k' = k) then Some v else assoc k' l) as Hc by done.
  repeat case_match; rewrite ?Hc; cbn [assoc]; try rewrite IH; repeat (case_decide; subst; cbn [assoc]); congruence.
Qed.

(** The key of an extension, if it is an object with a nonempty string as key. *)
Definition extension_key (v : jsval) : option jsstr :=
  match v with
  | JObj fs => match field fs "key" with JStr k => if empty k then None else Some k | _ => None end
  | _ => None
  end.

Section extensions.
Variable type_error : jsstr.

Definition plain (own : list (jsstr * jsval)) : extension_object := {| eo_own := own; eo_proto := [] |}.

Lemma add_extension_plain own v r :
  extension_key v ≠ Some (js "__proto__") →
  add_extension type_error (plain own) v = Ok r ↔
    ∃ k, extension_key v = Some k ∧ assoc k own = None ∧ r = plain (obj_put k v own).
Proof.
  intros Hp. unfold add_extension, extension_key in *.
  destruct v as [| | | |s|l|fs|]; cbn [get mbind result_bind mret result_ret]; try (split; [done|by intros (? & [=] & _)]).
  destruct (field fs "key") as [| | | |k| | |]; try (split; [done|by intros (? & [=] & _)]).
  destruct (empty k) eqn:He; cbn [orb]; [split; [done|by intros (? & [=] & _)]|]. cbn [eo_own plain].
  destruct (mem k (keys own)) eqn:Hm.
  - split; [done|]. intros (k' & [= <-] & Hn%assoc_None & _). by apply mem_true in Hm.
  - apply mem_false, assoc_None in Hm. unfold put_extension. cbn [eo_proto plain keys map].
    rewrite bool_decide_eq_false_2 by congruence.
    assert (mem k [] = false) as -> by (apply mem_false; by intros ?%elem_of_nil).
    split; [intros [= <-]; by exists k|]. by intros (k' & [= <-] & _ & ->).
Qed.

Definition no_proto (exts : list jsval) : Prop := ∀ v, v ∈ exts → extension_key v ≠ Some (js "__proto__").

(** The extensions added to [own]: their keys, and what the record then holds. *)
Definition recorded (exts : list jsval) (own r : list (jsstr * jsval)) : Prop :=
  (∃ ks, mapM extension_key exts = Some ks ∧ NoDup ks ∧ ∀ k, k ∈ ks → assoc k own = None) ∧
  ∀ k v, assoc k r = Some v ↔ assoc k own = Some v ∨ v ∈ exts ∧ extension_key v = Some k.

Lemma recorded_cons v exts own r k :
  extension_key v = Some k → assoc k own = None →
  recorded exts (obj_put k v own) r ↔ recorded (v :: exts) own r.
Proof.
  intros Hk Hn. unfold recorded. cbn [mapM]. rewrite Hk. cbn [mbind option_bind].
  assert (∀ k' w, (assoc k' (obj_put k v own) = Some w ∨ w ∈ exts ∧ extension_key w = Some k') ↔
                  (assoc k' own = Some w ∨ w ∈ v :: exts ∧ extension_key w = Some k')) as Hl.
  { intros k' w. rewrite obj_put_lookup, elem_of_cons. destruct (decide (k' = k)) as [->|Hne].
    - split.
      + intros [[= <-]|?]; [right; auto|tauto].
      + intros [?|[[->|?] ?]]; [congruence|by left|by right].
    - split; [tauto|]. intros [?|[[->|?] ?]]; [by left|congruence|by right]. }
  setoid_rewrite Hl. apply and_iff_compat_r. split.
  - intros (ks & -> & Hnd & Hf). exists (k :: ks). split; [done|]. split.
    + apply NoDup_cons. split; [|done]. intros Hin. specialize (Hf k Hin). rewrite obj_put_lookup in Hf.
      by destruct (decide (k = k)).
    + intros k' [->|Hin]%elem_of_cons; [done|]. specialize (Hf k' Hin). rewrite obj_put_lookup in Hf.
      by destruct (decide (k' = k)).
  - intros (ks & Hm & Hnd & Hf). destruct (mapM extension_key exts) as [ks'|]; [|done]. injection Hm as <-.
    apply NoDup_cons in Hnd as [Hk' Hnd]. exists ks'. split_and!; [done|done|]. intros k' Hin.
    rewrite obj_put_lookup, decide_False by (by intros ->). apply Hf. by right.
Qed.

Lemma extension_loop exts own :
  no_proto exts →
  (∀ r, foldM_res (add_extension type_error) (plain own) exts = Ok r →
     eo_proto r = [] ∧ recorded exts own (eo_own r)) ∧
  ((∃ ks, mapM extension_key exts = Some ks ∧ NoDup ks ∧ ∀ k, k ∈ ks → assoc k own = None) →
     is_Ok (foldM_res (add_extension type_error) (plain own) exts)).
Proof.
  revert own. induction exts as [|v exts IH]; intros own Hp.
  - split; [|intros _; by eexists]. intros r [= <-]. split; [done|]. split.
    + exists []. split_and!; [done|apply NoDup_nil_2|by intros ? ?%elem_of_nil].
    + intros k w. split; [by left|]. by intros [?|[?%elem_of_nil _]].
  - assert (no_proto exts) as Hp' by (intros w Hw; apply Hp; by right).
    assert (extension_key v ≠ Some (js "__proto__")) as Hv by (apply Hp; by left). split.
    + intros r (r1 & Ha & Hr)%bind_Ok. apply add_extension_plain in Ha as (k & Hk & Hn & ->); [|done].
      apply IH in Hr as [? Hr]; [|done]. split; [done|]. by eapply recorded_cons.
    + intros (ks & Hm & Hnd & Hf). cbn [mapM] in Hm. destruct (extension_key v) as [k|] eqn:Hk; [|done].
      cbn [mbind option_bind] in Hm. destruct (mapM extension_key exts) as [ks'|] eqn:Hm'; [|done]. injection Hm as <-.
      apply NoDup_cons in Hnd as [Hk' Hnd]. destruct (proj2 (IH (obj_put k v own) Hp')) as [r Hr].
      { exists ks'. split_and!; [done|done|]. intros k' Hin. rewrite obj_put_lookup, decide_False by (by intros ->).
        apply Hf. by right. }
      exists r. cbn [foldM_res]. assert (add_extension type_error (plain own) v = Ok (plain (obj_put k v own))) as ->.
      { apply add_extension_plain; [by rewrite Hk|]. exists k. split_and!; [done| |done]. apply Hf. by left. }
      exact Hr.
Qed.
End extensions.

(** C40: the extensions of an invocation are passed on exactly.  Apart from the key
    [__proto__], they are accepted exactly when every one is an object with a nonempty
    string key and no key occurs twice; the record then holds, under each key, the
    extension of that key, and nothing else. *)
Theorem extension_record_exact type_error exts :
  no_proto exts → exts ≠ [] →
  (is_Ok (extensionRecord type_error exts) ↔ ∃ ks, mapM extension_key exts = Some ks ∧ NoDup ks) ∧
  ∀ r, extensionRecord type_error exts = Ok r →
    ∃ record, r = Some record ∧ ∀ k v, assoc k record = Some v ↔ v ∈ exts ∧ extension_key v = Some k.
Proof.
  intros Hp Hne. destruct (extension_loop type_error exts [] Hp) as [H1 H2].
  assert (extensionRecord type_error exts =
    r ← foldM_res (add_extension type_error) (plain []) exts; mret (Some (eo_own r))) as -> by (by destruct exts).
  split; [split|].
  - intros [r (r' & Hr & _)%bind_Ok]. apply H1 in Hr as [_ [(ks & ? & ? & _) _]]. by exists ks.
  - intros (ks & Hm & Hnd). destruct H2 as [r Hr]; [by exists ks|]. rewrite Hr. by eexists.
  - intros r (r' & Hr & [= <-])%bind_Ok. apply H1 in Hr as [_ [_ Hl]]. exists (eo_own r'). split; [done|].
    intros k v. rewrite Hl. cbn. split; [by intros [?|?]|by right].
Qed.

(** An extension of the wire with the given key. *)
Definition sample_extension (key : string) (n : Z) : jsval :=
  JObj [(js "key", JStr (js key)); (js "value", JArr [JNum (num n)])].

Lemma extension_record_exact_witness :
  is_Ok (extensionRecord [] [sample_extension "a" 1; sample_extension "b" 2]).
Proof.
  apply (extension_record_exact [] [sample_extension "a" 1; sample_extension "b" 2]).
  - intros v [->|[->|[]%elem_of_nil]%elem_of_cons]%elem_of_cons; vm_compute; discriminate.
  - discriminate.
  - exists [js "a"; js "b"]. split; [vm_compute; reflexivity|]. apply (bool_decide_unpack _). vm_compute. exact I.
Defined.

(** An extension with the key [__proto__] is lost.  Assigning it replaces the prototype
    of the record instead of adding a property, so any number of such extensions is
    accepted, although keys must not repeat, and the record holds none of them. *)
Theorem proto_extension_lost type_error exts :
  exts ≠ [] →
  (∀ v, v ∈ exts → ∃ fs, v = JObj fs ∧ field fs "key" = JStr (js "__proto__") ∧ (js "__proto__" ∉ keys fs)) →
  extensionRecord type_error exts = Ok (Some []).
Proof.
  intros Hne Hall.
  assert (∀ proto, (js "__proto__" ∉ keys proto) →
    ∃ p, foldM_res (add_extension type_error) {| eo_own := []; eo_proto := proto |} exts =
         Ok {| eo_own := []; eo_proto := p |}) as Hloop.
  { clear Hne. induction exts as [|v exts IH]; intros proto Hp; [by eexists|].
    destruct (Hall v) as (fs & -> & Hk & Hfs); [by left|]. cbn [foldM_res].
    assert (add_extension type_error {| eo_own := []; eo_proto := proto |} (JObj fs) =
            Ok {| eo_own := []; eo_proto := fs |}) as ->.
    { unfold add_extension. cbn [get mbind result_bind mret result_ret]. rewrite Hk.
      assert (mem (js "__proto__") [] = false) as Hm by (apply mem_false; by intros ?%elem_of_nil).
      cbn [eo_own keys map]. rewrite Hm. change (empty (js "__proto__")) with false. cbn [orb].
      unfold put_extension. cbn [eo_proto]. by rewrite (proj2 (mem_false _ _) Hp), bool_decide_eq_true_2. }
    cbn [mbind result_bind].
    apply IH; [|done]. intros w Hw. apply Hall. by right. }
  destruct (Hloop []) as [p Hp]; [by intros ?%elem_of_nil|]. unfold extensionRecord.
  destruct exts; [done|]. rewrite Hp. done.
Qed.

Lemma proto_extension_lost_witness :
  extensionRecord [] [sample_extension "__proto__" 1; sample_extension "__proto__" 2] = Ok (Some []).
Proof.
  apply (proto_extension_lost [] [sample_extension "__proto__" 1; sample_extension "__proto__" 2]); [discriminate|].
  intros v [->|[->|[]%elem_of_nil]%elem_of_cons]%elem_of_cons; eexists; (split; [reflexivity|]); split; try reflexivity;
    apply mem_false; vm_compute; reflexivity.
Defined.
