(* ===== verification/LegacyRuns.v ===== *)
(** * Executions of the first Plugin server

    A small Host and Plugin on which the guarantees apply, and two races: two activations
    in flight both create an instance, and two shutdowns both run the stop hook. *)

From Stdlib Require Import ZArith SpecFloat.
From S2P Require Import Prelude JsValue Text Json JsonText Authoring Legacy LegacyCorrect LegacyReading.

Local Open Scope Z_scope.

(** ** Races *)

Section races.
Context `{LegacyCode}.
Variable definition : PluginDefinition.

(** An activation does not reserve the instance.  While [create] of a first
    activation runs, a second one passes the same guard and runs [create] again; both are
    answered with success, and the instance of the second replaces the one the first
    has published. *)
Theorem concurrent_activations_create_twice s n m id id' params fs bound config v w :
  objectParam params = Some fs → hasSession (act_session (as_activation params)) s = true →
  instance s = None → activeRequests s = [] →
  createDependencyClients definition (as_activation params) = Ok bound →
  activation_config definition (act_configuration (as_activation params)) = Ok config →
  def_has_create definition = true → v ≠ JUndef → w ≠ JUndef →
  let a := activate definition true n id params s in
  let b := activate definition true m id' params a.1 in
  let c := activated n id (Returned v) b.1 in
  let d := activated m id' (Returned w) c.1 in
  a.2 = [CreateCalled n config bound (legacyLifecycleContext "activate")] ∧
  b.2 = [CreateCalled m config bound (legacyLifecycleContext "activate")] ∧
  instance c.1 = Some (CreatedInstance v) ∧ instance d.1 = Some (CreatedInstance w) ∧
  d.2 = [Answered m (jsonRpcResult id' (JBool true) None)].
Proof.
  intros Ho Hs Hi Ha Hd Hc Hcr Hv Hw. cbn zeta.
  assert (∀ k i t, hasSession (act_session (as_activation params)) t = true → instance t = None → activeRequests t = [] →
    activate definition true k i params t =
      (suspend k (AwaitCreate i) t, [CreateCalled k config bound (legacyLifecycleContext "activate")])) as Hact.
  { intros k i t H1 H2 H3. unfold activate. rewrite Ho, H1, H2, H3, Hd. cbn [mbind result_bind]. rewrite Hc. cbn.
    by rewrite Hcr. }
  rewrite (Hact n id s) by done. cbn [fst snd]. rewrite (Hact m id' (suspend n (AwaitCreate id) s)) by done. cbn [fst snd].
  assert (∀ k i t x, x ≠ JUndef →
    activated k i (Returned x) t = answer k i (JBool true) (set_instance (Some (CreatedInstance x)) t)) as Hdone
    by (intros k i t []; done).
  rewrite !Hdone by done. done.
Qed.

(** A shutdown does not consume the instance: a second shutdown of the same session
    runs the stop hook again, whether or not the first hook has finished. *)
Theorem repeated_shutdown_stops_twice s n m id id' params i done_ :
  hasSession (param_session params) s = true → instance s = Some i → def_has_stop definition = true →
  let a := shutdown definition n id params s in
  let b := if done_ : bool then (stopped n id (Returned tt) a.1).1 else a.1 in
  a.2 = [StopCalled n i (legacyLifecycleContext "shutdown")] ∧
  (shutdown definition m id' params b).2 = [StopCalled m i (legacyLifecycleContext "shutdown")].
Proof.
  intros Hs Hi Hst. cbn zeta.
  assert (∀ k x t, hasSession (param_session params) t = true → instance t = Some i →
    shutdown definition k x params t =
      (suspend k (AwaitStop x) (cancel_all (set_accepting false t)),
       [StopCalled k i (legacyLifecycleContext "shutdown")])) as Hsh.
  { intros k x t H1 H2. unfold shutdown. rewrite H1. cbn. by rewrite H2, Hst. }
  rewrite (Hsh n id s) by done. split; [done|]. destruct done_; by rewrite Hsh.
Qed.
End races.

(** ** A small Host and Plugin *)

Module Demo.
Definition service : Descriptor :=
  {| capability_id := js "a.b"; descriptor_version := js "1"; descriptor_digest := None;
     operations := [js "op"]; stream_operations := []; event_operations := [] |}.

#[local] Instance code : LegacyCode := {|
  decodeConfig v := mret v; parse_config v := mret v;
  as_activation v := {| act_session := field (default [] (objectParam v)) "session"; act_configuration := JNull;
                        act_imports_url := JStr (js "http://127.0.0.1:9"); act_imports_token := JStr (js "0123456789abcdef");
                        act_imports := Some [] |};
  type_error := js "TypeError"; syntax_message _ := js "SyntaxError" |}.

Definition plugin : PluginDefinition :=
  {| def_providers := [{| pp_kind := None; pp_descriptor := service |}]; def_dependencies := None; def_config := None;
     def_configurationSchema := None; def_has_decodeConfig := false; def_has_create := true; def_has_stop := true;
     def_maxConcurrentRequests := 2 |}.

Definition endpoints : jsval := JArr [descriptor_json service].

Abbreviation demo_step := (step plugin 100000 1 endpoints true).
Abbreviation demo_trace := (trace plugin 100000 1 endpoints true).

Definition content (n : nat) (method : string) (params : list (string * jsval)) : event :=
  Body n (Some [encode (json_text (JObj [(js "jsonrpc", JStr (js "2.0")); (js "id", JNum (num 1));
    (js "method", JStr (js method));
    (js "params", JObj (map (fun '(k, v) => (js k, v)) params))]))]) (js "uuid").

(** A request that arrives as the handler [n], and its body. *)
Definition message (n : nat) (method : string) (params : list (string * jsval)) : list event :=
  [Fetch (js "POST") None; content n method params].

Definition hello : list event :=
  message 0 "lenso.handshake" [("protocol_version"%string, JNum (num 1)); ("value_profile"%string, JStr (js VALUE_PROFILE));
    ("max_frame_bytes"%string, JNum (num 100000)); ("endpoints"%string, endpoints)].

Definition session_param : string * jsval := ("session"%string, JStr (js "uuid")).

Definition call (request : Z) : list (string * jsval) :=
  [session_param; ("request_id"%string, JNum (num request)); ("capability_id"%string, JStr (js "a.b"));
    ("operation"%string, JStr (js "op")); ("payload"%string, JNull)].

(** Handshake, activation, and one request that is running. *)
Definition opening : list event :=
  hello ++ message 1 "lenso.activate" [session_param] ++ [Created 1 (Returned (JObj []))] ++
  message 2 "lenso.request" (call 7).

Fixpoint run (s : state) (es : list event) : option (state * list output) :=
  match es with
  | [] => Some (s, [])
  | e :: es => match demo_step s e with
               | Some (s', o) => match run s' es with Some (s'', o') => Some (s'', o ++ o') | None => None end
               | None => None
               end
  end.

Definition final (es : list event) : state * list output :=
  default (start_state plugin true, []) (run (start_state plugin true) es).

Lemma run_trace es s out s' o : demo_trace s out → run s es = Some (s', o) → demo_trace s' (out ++ o).
Proof.
  revert s out s' o. induction es as [|e es IH]; intros s out s' o Ht; cbn [run].
  - intros [= <- <-]. by rewrite app_nil_r.
  - destruct (demo_step s e) as [[s1 o1]|] eqn:Hs; [|done]. destruct (run s1 es) as [[s2 o2]|] eqn:Hr; [|done].
    intros [= <- <-]. rewrite app_assoc. eapply IH; [|exact Hr]. by eapply trace_step.
Qed.

Lemma legacy_final es : demo_trace (final es).1 (final es).2.
Proof.
  unfold final. destruct (run (start_state plugin true) es) as [[s o]|] eqn:Hr; [|constructor].
  exact (run_trace es _ [] s o (trace_start _ _ _ _ _) Hr).
Qed.

Definition busy : state := (final opening).1.

Lemma legacy_pool_bounds_witness :
  map fst (activeRequests busy) = [7] ∧ Z.of_nat (length (activeRequests busy)) <= 2.
Proof.
  split; [vm_compute; reflexivity|].
  apply (legacy_pool_bounds plugin 100000 1 endpoints true ltac:(lia) busy (final opening).2 (legacy_final opening)).
Defined.

(** The request is cancelled and then the provider answers. *)
Definition cancelled_run : list event :=
  opening ++ message 3 "lenso.cancel" [session_param; ("request_id"%string, JNum (num 7))].

Lemma legacy_outcome_order_witness :
  ∃ id, (default (busy, []) (demo_step (final cancelled_run).1 (Invoked 2 (Returned (PSuccess JNull))))).2 =
    [Answered 2 (jsonRpcResult id (outcome_json (cancelled 7)) (Some 100000))].
Proof.
  destruct (legacy_outcome_order plugin 100000 1 endpoints true ltac:(lia) (final cancelled_run).1 (final cancelled_run).2
    2 (Returned (PSuccess JNull))
    (default (busy, []) (demo_step (final cancelled_run).1 (Invoked 2 (Returned (PSuccess JNull))))).1
    (default (busy, []) (demo_step (final cancelled_run).1 (Invoked 2 (Returned (PSuccess JNull))))).2
    (legacy_final cancelled_run) ltac:(vm_compute; reflexivity)) as (id & r & timer & st & H1 & H2 & _ & _ & ->).
  exists id. vm_compute in H1. injection H1 as <- <- <-. vm_compute in H2. injection H2 as <-. reflexivity.
Defined.

Lemma legacy_answered_once_witness : NoDup (answers (final opening).2 ++ map fst (handlers busy)).
Proof.
  apply (legacy_answered_once plugin 100000 1 endpoints true ltac:(lia) busy (final opening).2 (legacy_final opening)).
Defined.

(** A shutdown while the request runs and another one arrives. *)
Definition closing : list event :=
  opening ++ [Fetch (js "POST") None; Fetch (js "POST") None; content 3 "lenso.shutdown" [session_param]].

Definition late : event := content 4 "lenso.request" (call 8).

Lemma legacy_closed_forever_witness :
  ∃ s' o, demo_step (final closing).1 late = Some (s', o) ∧ accepting s' = false.
Proof.
  exists (default (busy, []) (demo_step (final closing).1 late)).1, (default (busy, []) (demo_step (final closing).1 late)).2.
  split; [vm_compute; reflexivity|].
  apply (legacy_closed_forever plugin 100000 1 endpoints true (final closing).1 late _
    (default (busy, []) (demo_step (final closing).1 late)).2); vm_compute; reflexivity.
Defined.

(** An activation in two chunks. *)
Definition activation : list N :=
  encode (json_text (rpc_request (JNum (num 4)) (js "lenso.activate") (JObj [(js "session", JStr (js "s"))]))).

Definition chunked : list (list N) := [take 9 activation; drop 9 activation].

Lemma legacy_wire_roundtrip_witness :
  received plugin 100000 1 endpoints true 3 None (Some chunked) [] busy =
  activate plugin true 3 (JNum (num 4)) (JObj [(js "session", JStr (js "s"))]) busy.
Proof.
  rewrite (legacy_wire_roundtrip plugin 100000 1 endpoints true 3 None [] busy (JNum (num 4)) (js "lenso.activate")
    (JObj [(js "session", JStr (js "s"))]) chunked);
    [vm_compute; reflexivity|vm_compute; reflexivity..|lia|intros h Hh; discriminate Hh].
Defined.

(** A stranger's cancellation. *)
Lemma legacy_session_authority_witness :
  let r := dispatch plugin 100000 1 endpoints true 9 JNull (js "lenso.cancel") (JObj []) [] busy in
  r.1 = busy.
Proof.
  destruct (legacy_session_authority plugin 100000 1 endpoints true ltac:(lia) busy (final opening).2 9 JNull
    (js "lenso.cancel") (JObj []) [] (legacy_final opening)) as [[E _]|[[E _]|(x & Hx & Hp)]]; [exact E| |].
  - vm_compute in E. discriminate.
  - exfalso. destruct Hp as [(fs & [= <-] & E)|E]; discriminate.
Defined.

Lemma retired_window_witness :
  retiredRequestIds (fold_left (fun s id => retire 2 id s) [1; 2; 3] (start_state plugin true)) = [2; 3].
Proof.
  rewrite (retired_window 2 ltac:(lia) [1; 2; 3] (start_state plugin true)); [reflexivity| |cbn; lia].
  apply (bool_decide_unpack _). vm_compute. exact I.
Defined.

Definition hello_fields : list (jsstr * jsval) :=
  [(js "protocol_version", JNum (num 1)); (js "value_profile", JStr (js VALUE_PROFILE));
   (js "max_frame_bytes", JNum (num 100000)); (js "endpoints", JArr (map descriptor_json [service]))].

Lemma service_sized : Forall sized_descriptor [service].
Proof. apply Forall_singleton. split_and!; reflexivity. Qed.

Lemma hello_endpoints : field hello_fields "endpoints" = JArr (map descriptor_json [service]).
Proof. vm_compute. reflexivity. Qed.

Lemma one_sized {A} (x : A) : sized [x].
Proof. reflexivity. Qed.

Lemma legacy_handshake_exact_witness :
  handshake_accepted plugin 100000 (JArr (map descriptor_json [service])) (Some hello_fields) (start_state plugin true) = Ok true.
Proof.
  pose proof (legacy_handshake_exact plugin 100000 [service] hello_fields [service] (start_state plugin true)
    hello_endpoints (one_sized service) (one_sized service) (one_sized _) service_sized service_sized service_sized) as E.
  etransitivity; [exact E|]. vm_compute. reflexivity.
Defined.

Definition awake : state := (final hello).1.

Definition token : jsval := JObj [(js "session", JStr (js "uuid"))].

Lemma concurrent_activations_create_twice_witness :
  (activate plugin true 2 JNull token (activate plugin true 1 JNull token awake).1).2 =
    [CreateCalled 2 JNull [] (legacyLifecycleContext "activate")].
Proof.
  destruct (concurrent_activations_create_twice plugin awake 1 2 JNull JNull token
    [(js "session", JStr (js "uuid"))] [] JNull JNull JNull) as (_ & E & _);
    [vm_compute; reflexivity..|discriminate|discriminate|exact E].
Defined.

Lemma repeated_shutdown_stops_twice_witness :
  (shutdown plugin 5 JNull token (shutdown plugin 4 JNull token busy).1).2 =
    [StopCalled 5 (CreatedInstance (JObj [])) (legacyLifecycleContext "shutdown")].
Proof.
  destruct (repeated_shutdown_stops_twice plugin busy 4 5 JNull JNull token (CreatedInstance (JObj [])) false)
    as [_ E]; [vm_compute; reflexivity..|exact E].
Defined.
End Demo.
