(* ===== verification/Extract.v ===== *)
(** * Static extraction of a Plugin declaration (extract.ts)

    [extractPluginDefinition] reads the default export of a Plugin module from its syntax
    tree, without running the module: literals, arrays, objects, constants, declaration
    calls, contracts and handler references.  The typescript package is the class
    [TypeScript]: the nodes it parses and the answers of its checker.  The evaluator is
    asynchronous and evaluates the arguments of a call concurrently on shared sets, so
    its functions are computations that stop at every [await] and interleave there. *)

From Stdlib Require Import ZArith SpecFloat.
From S2P Require Import Prelude JsValue Text Json Build.

Local Open Scope Z_scope.

(** ** Syntax *)

(** A symbol of the checker, by identity. *)
Abbreviation symbol := nat.

Inductive property_name :=
| Named (text : jsstr)
| Computed (span : SourceSpan).

(** Expressions; every node has the span [span(node, node.getSourceFile())].  [Wrapped] is
    a parenthesized, asserted, satisfied or non-null expression. *)
Inductive expression :=
| Wrapped (span : SourceSpan) (inner : expression)
| StringLiteral (span : SourceSpan) (text : jsstr)
| NumericLiteral (span : SourceSpan) (text : jsstr)
| TrueKeyword (span : SourceSpan)
| FalseKeyword (span : SourceSpan)
| NullKeyword (span : SourceSpan)
| NegativeLiteral (span : SourceSpan) (text : jsstr)
| ArrayLiteral (span : SourceSpan) (elements : list element)
| ObjectLiteral (span : SourceSpan) (properties : list property)
| CallExpression (span : SourceSpan) (callee : expression) (arguments_ : list expression)
| Identifier (span : SourceSpan) (shorthand : bool)
| PropertyAccess (span : SourceSpan) (object : expression) (name_span : SourceSpan) (name : jsstr)
| FunctionLike (span : SourceSpan)
| OtherExpression (span : SourceSpan)
with element :=
| Element (e : expression)
| SpreadElement (span : SourceSpan) (e : expression)
with property :=
| SpreadAssignment (span : SourceSpan) (e : expression)
| AccessorDeclaration (span : SourceSpan)
| MethodDeclaration (span : SourceSpan) (name : property_name)
| PropertyAssignment (span : SourceSpan) (name : property_name) (initializer : expression)
| ShorthandAssignment (span : SourceSpan) (name : jsstr)
| OtherMember (span : SourceSpan).

(** What a declaration of a symbol resolves to.  A name that is the declaration itself
    stands for its parent. *)
Inductive declaration_node :=
| VariableDeclaration (span : SourceSpan) (const : bool) (initializer : option expression)
| FunctionDeclaration (span : SourceSpan)
| NameOf (span : SourceSpan) (parent : declaration_node)
| OtherDeclaration (span : SourceSpan).

(** A node above a declaration, itself included, below the source file: an import or
    export declaration with its module specifier if that is a string, or another node. *)
Inductive ancestor :=
| ImportOrExport (specifier : option jsstr)
| OtherAncestor.

Record resolved := { rs_node : declaration_node; rs_ancestors : list ancestor }.

Inductive statement :=
| ExportAssignment (isExportEquals : bool) (e : expression)
| OtherStatement.

Definition span_of (e : expression) : SourceSpan :=
  match e with
  | Wrapped s _ | StringLiteral s _ | NumericLiteral s _ | TrueKeyword s | FalseKeyword s | NullKeyword s
  | NegativeLiteral s _ | ArrayLiteral s _ | ObjectLiteral s _ | CallExpression s _ _ | Identifier s _
  | PropertyAccess s _ _ _ | FunctionLike s | OtherExpression s => s
  end.

Definition declaration_span (d : declaration_node) : SourceSpan :=
  match d with VariableDeclaration s _ _ | FunctionDeclaration s | NameOf s _ | OtherDeclaration s => s end.

Fixpoint unwrap (e : expression) : expression :=
  match e with Wrapped _ inner => unwrap inner | e => e end.

(** ** What a symbol means *)

Record SymbolOrigin := { so_file : jsstr; so_name : jsstr; so_module : option jsstr }.

Record Contract := {
  ct_capability_id : jsstr; ct_descriptor_version : jsstr; ct_descriptor_digest : jsstr;
  ct_generated_module : jsstr; ct_generated_export : jsstr }.

Inductive SymbolMeaning :=
| MeansPlugin
| MeansDeclaration (package : BuildPackageIdentity) (export_name : jsstr) (handler_parameters : list Z)
| MeansContract (c : Contract).

(** [BuildValue | BuildArgument] *)
Inductive built :=
| VNull
| VBool (b : bool)
| VNumber (x : number)
| VString (s : jsstr)
| VArray (l : list built)
| VObject (fs : list (jsstr * built))
| ValueArgument (value : built) (span : SourceSpan)
| ContractArgument (c : Contract) (span : SourceSpan)
| HandlerArgument (reference : jsstr) (span : SourceSpan)
| DeclarationArgument (package : BuildPackageIdentity) (export_name : jsstr) (arguments_ : list built)
    (span : SourceSpan).

Inductive extraction_error :=
| DeclarationExtractionError (message : jsstr) (span : SourceSpan)
| OutOfFuel.

(** The typescript package: the checker's symbols, by the span of the node asked for. *)
Class TypeScript := {
  getSymbolAtLocation : SourceSpan → option symbol;
  getShorthandAssignmentValueSymbol : SourceSpan → option symbol;
  is_alias : symbol → bool;
  getAliasedSymbol : symbol → symbol;
  isUnknownSymbol : symbol → bool;
  symbol_name : symbol → jsstr;
  valueDeclaration : symbol → option resolved;
  declarations : symbol → list resolved;
  (** [span(source, source)] of a source file. *)
  source_span : jsstr → SourceSpan;
  classifySymbol : SymbolOrigin → option SymbolMeaning }.

(** ** Asynchronous computations *)

(** The sets of a [StaticEvaluator], and which of two concurrent computations resumes
    next, time after time ([true] for the first). *)
Record store := { active : list symbol; sourceFiles : list jsstr; schedule : list bool }.

(** A computation returns, throws, changes the store at once, reads it, or waits. *)
Inductive comp (A : Type) : Type :=
| Ret (a : A)
| Fails (e : extraction_error)
| Eff (update : store → store) (next : store → comp A)
| Wait (next : comp A).
Arguments Ret {A} a.
Arguments Fails {A} e.
Arguments Eff {A} update next.
Arguments Wait {A} next.

Fixpoint comp_then {A B} (k : A → comp B) (m : comp A) : comp B :=
  match m with
  | Ret a => k a
  | Fails e => Fails e
  | Eff g f => Eff g (fun s => comp_then k (f s))
  | Wait m => Wait (comp_then k m)
  end.

#[export] Instance comp_ret : MRet comp := fun A a => Ret a.
#[export] Instance comp_fmap : FMap comp := fun A B f m => comp_then (fun a => Ret (f a)) m.
#[export] Instance comp_bind : MBind comp := fun A B f m => comp_then f m.

(** [await m] *)
Definition await {A} (m : comp A) : comp A := m ≫= fun a => Wait (Ret a).

(** [try { return await m } finally { update }]: the update runs however [m] ends. *)
Fixpoint finally {A} (update : store → store) (m : comp A) : comp A :=
  match m with
  | Ret a => Eff update (fun _ => Ret a)
  | Fails e => Eff update (fun _ => Fails e)
  | Eff g f => Eff g (fun s => finally update (f s))
  | Wait m => Wait (finally update m)
  end.

Definition next_choice (s : store) : bool := default true (head (schedule s)).
Definition pop_choice (s : store) : store :=
  {| active := active s; sourceFiles := sourceFiles s; schedule := tail (schedule s) |}.

(** Two computations that both have run up to a wait: the schedule says which resumes,
    and the other one waits; the first failure is the failure of both. *)
Fixpoint interleave {A B} (a : comp A) : comp B → comp (A * B) :=
  fix inner (b : comp B) : comp (A * B) :=
    match a, b with
    | Eff g f, _ => Eff g (fun s => interleave (f s) b)
    | _, Eff g f => Eff g (fun s => inner (f s))
    | Fails e, _ => Fails e
    | _, Fails e => Fails e
    | Ret x, Ret y => Ret (x, y)
    | Ret _, Wait b' => Wait (inner b')
    | Wait a', Ret _ => Wait (interleave a' b)
    | Wait a', Wait b' => Wait (Eff pop_choice (fun s => if next_choice s then interleave a' b else inner b'))
    end.

(** [Promise.all(ms)]: every computation runs up to its first wait, in order. *)
Fixpoint promise_all {A} (ms : list (comp A)) : comp (list A) :=
  match ms with
  | [] => Ret []
  | m :: ms => p ← interleave m (promise_all ms); Ret (p.1 :: p.2)
  end.

(** Running a computation alone. *)
Fixpoint exec {A} (m : comp A) (s : store) : result extraction_error A * store :=
  match m with
  | Ret a => (Ok a, s)
  | Fails e => (Throw e, s)
  | Eff g f => exec (f s) (g s)
  | Wait m => exec m s
  end.

(** ** The evaluator *)

Definition throw {A} (message : jsstr) (span : SourceSpan) : comp A :=
  Fails (DeclarationExtractionError message span).

Definition add_to {A} `{EqDecision A} (x : A) (l : list A) : list A := if bool_decide (x ∈ l) then l else l ++ [x].

(** [this.#sourceFiles.add(file)] *)
Definition add_file (file : jsstr) : comp unit :=
  Eff (fun s => {| active := active s; sourceFiles := add_to file (sourceFiles s); schedule := schedule s |})
      (fun _ => Ret tt).

(** [this.#active.has(symbol)], [.add(symbol)] and [.delete(symbol)] *)
Definition is_active (x : symbol) : comp bool := Eff (fun s => s) (fun s => Ret (bool_decide (x ∈ active s))).
Definition activate (x : symbol) : comp unit :=
  Eff (fun s => {| active := add_to x (active s); sourceFiles := sourceFiles s; schedule := schedule s |})
      (fun _ => Ret tt).
Definition deactivate (x : symbol) (s : store) : store :=
  {| active := filter (fun y => y ≠ x) (active s); sourceFiles := sourceFiles s; schedule := schedule s |}.

Definition literal (value : built) (span : SourceSpan) : built := ValueArgument value span.

Definition contractArgument (c : Contract) (span : SourceSpan) : built := ContractArgument c span.

(** [Object.fromEntries(entries)] *)
Definition fromEntries (entries : list (jsstr * built)) : list (jsstr * built) :=
  fold_left (fun fs e => obj_put e.1 e.2 fs) entries [].

(** [asArgument(value, node, source)]: an object with [kind] and [span] is one already. *)
Definition is_argument (v : built) : bool :=
  match v with
  | ValueArgument _ _ | ContractArgument _ _ | HandlerArgument _ _ | DeclarationArgument _ _ _ _ => true
  | VObject fs => mem (js "kind") (keys fs) && mem (js "span") (keys fs)
  | _ => false
  end.

Definition asArgument (span : SourceSpan) (v : built) : built := if is_argument v then v else ValueArgument v span.

Section checker.
Context `{TypeScript}.

(** [valuePayload(argument, subject, evaluator, source)] *)
Definition valuePayload (argument : built) (subject : jsstr) (file : jsstr) : comp built :=
  match argument with
  | ValueArgument v _ => Ret v
  | _ => throw (subject ++ js " must resolve to a literal value") (source_span file)
  end.

Definition requiredArray (argument : option built) (subject : jsstr) (file : jsstr) : comp (list built) :=
  match argument with
  | None => throw (js "definePlugin requires " ++ subject) (source_span file)
  | Some argument =>
      value ← valuePayload argument subject file;
      match value with
      | VArray l => Ret (map (asArgument (source_span file)) l)
      | _ => throw (subject ++ js " must be a static array") (source_span file)
      end
  end.

Definition requiredObject (argument : built) (subject : jsstr) (file : jsstr) : comp (list (jsstr * built)) :=
  value ← valuePayload argument subject file;
  match value with
  | VObject fs => Ret (map (fun '(k, v) => (k, asArgument (source_span file) v)) fs)
  | _ => throw (subject ++ js " must be a static object") (source_span file)
  end.

Definition optionalHandler (argument : option built) (subject : jsstr) (file : jsstr) : comp (option built) :=
  match argument with
  | None => Ret None
  | Some (HandlerArgument r s) => Ret (Some (HandlerArgument r s))
  | Some _ => throw (subject ++ js " must be a static function") (source_span file)
  end.

Definition propertyName (n : property_name) : comp jsstr :=
  match n with
  | Named text => Ret text
  | Computed span => throw (js "computed declaration keys are not supported") span
  end.

(** [symbolFor(node)]; the answer is awaited where it is asked for. *)
Definition symbolFor (e : expression) : option symbol :=
  match e with
  | Identifier span true => getShorthandAssignmentValueSymbol span
  | e => getSymbolAtLocation (span_of e)
  end.

(** [ts.isPropertyAccessExpression(expression) ? expression.name : expression] *)
Definition symbolForTarget (e : expression) : option symbol :=
  match e with
  | PropertyAccess _ _ name_span _ => getSymbolAtLocation name_span
  | e => symbolFor e
  end.

(** The first import or export declaration with a specifier above the node. *)
Fixpoint specifier_above (l : list ancestor) : option jsstr :=
  match l with
  | [] => None
  | ImportOrExport (Some text) :: _ => Some text
  | _ :: l => specifier_above l
  end.

Fixpoint first_specifier (l : list resolved) : option jsstr :=
  match l with
  | [] => None
  | r :: l => match specifier_above (rs_ancestors r) with Some text => Some text | None => first_specifier l end
  end.

Definition moduleForSymbol (x : option symbol) : option jsstr :=
  match x with
  | None => None
  | Some x => first_specifier (option_list (valueDeclaration x) ++ declarations x)
  end.

(** The loop of [meaning] and [resolveSymbol] over aliases: the symbol it ends at, with
    the innermost module it passed.  [Some None] is an unresolved or cyclic alias. *)
Fixpoint follow_aliases (fuel : nat) (x : option symbol) (module_ : option jsstr) (seen : list symbol)
  : option (option (symbol * option jsstr)) :=
  match x with
  | None => Some None
  | Some x =>
      if negb (is_alias x) then Some (Some (x, module_))
      else if bool_decide (x ∈ seen) then Some None
      else match fuel with
           | O => None
           | S fuel =>
               let module_ := match moduleForSymbol (Some x) with Some m => Some m | None => module_ end in
               let y := getAliasedSymbol x in
               if isUnknownSymbol y then Some None
               else follow_aliases fuel (Some y) module_ (x :: seen)
           end
  end.

(** Every question to the checker is awaited; one wait stands for the waits of a loop,
    during which the evaluator touches no shared set. *)
Definition aliases (fuel : nat) (x : option symbol) : comp (option (symbol * option jsstr)) :=
  Wait (match follow_aliases fuel x None [] with
        | Some r => Ret r
        | None => Fails OutOfFuel
        end).

Definition first_declaration (x : symbol) : option resolved :=
  match valueDeclaration x with Some d => Some d | None => head (declarations x) end.

Definition meaning (fuel : nat) (e : expression) : comp (option SymbolMeaning) :=
  r ← aliases fuel (symbolForTarget e);
  match r with
  | None => Ret None
  | Some (x, module_) =>
      let module_ := match e with
                     | PropertyAccess _ object _ _ =>
                         match moduleForSymbol (symbolFor object) with Some m => Some m | None => module_ end
                     | _ => module_
                     end in
      match first_declaration x with
      | None => Ret None
      | Some d =>
          let file := span_file (declaration_span (rs_node d)) in
          Wait (add_file file;;
                Ret (classifySymbol {| so_file := file; so_name := symbol_name x; so_module := module_ |}))
      end
  end.

(** [span.file:span.start:span.end] *)
Definition handler_reference (s : SourceSpan) : jsstr :=
  span_file s ++ js ":" ++ dec (span_start s) ++ js ":" ++ dec (span_end s).

Definition handler_argument (s : SourceSpan) : built := HandlerArgument (handler_reference s) s.

(** The declaration a handler name stands for. *)
Definition declared_parent (d : declaration_node) : declaration_node :=
  match d with
  | NameOf _ (VariableDeclaration _ _ _ as p) | NameOf _ (FunctionDeclaration _ as p) => p
  | d => d
  end.

Definition handler_target (d : declaration_node) : comp SourceSpan :=
  match d with
  | VariableDeclaration span const initializer =>
      if negb const then throw (js "handler reference must be a static function or const") span
      else match initializer with
           | Some (FunctionLike target) => Ret target
           | _ => throw (js "handler const must contain a function") span
           end
  | FunctionDeclaration span => Ret span
  | NameOf span _ | OtherDeclaration span => throw (js "handler reference must name a function") span
  end.

Definition handler (fuel : nat) (e : expression) : comp built :=
  match unwrap e with
  | Identifier span _ as value =>
      r ← aliases fuel (symbolFor value);
      match x ← r; valueDeclaration x.1 with
      | None => throw (js "handler reference is unresolved") span
      | Some d => target ← Wait (handler_target (declared_parent (rs_node d))); Ret (handler_argument target)
      end
  | FunctionLike span => Ret (handler_argument span)
  | value => throw (js "handler position requires a function") (span_of value)
  end.

(** [this.add(entries, key, value, node, source)] *)
Definition add (entries : list (jsstr * built)) (key : jsstr) (value : built) (span : SourceSpan)
  : comp (list (jsstr * built)) :=
  if mem key (keys entries) then throw (js "duplicate object key " ++ key) span else Ret (entries ++ [(key, value)]).

Fixpoint add_all (entries spread : list (jsstr * built)) (span : SourceSpan) : comp (list (jsstr * built)) :=
  match spread with
  | [] => Ret entries
  | (k, v) :: spread => entries ← add entries k v span; add_all entries spread span
  end.

Inductive ValueMode := DeclarationMode | HandlerMode.

(** The functions below call [value] again: on parts of the expression, and on the
    initializer of a constant. *)
Section recursive.
Variable fuel : nat.
Variable value : expression → ValueMode → comp built.

Fixpoint array_elements (file : jsstr) (l : list element) (elements : list built) : comp (list built) :=
  match l with
  | [] => Ret elements
  | SpreadElement span e :: l =>
      spread ← await (value e DeclarationMode);
      spreadValue ← valuePayload spread (js "array spread") file;
      match spreadValue with
      | VArray items => array_elements file l (elements ++ map (asArgument span) items)
      | _ => throw (js "array spread must resolve to a static array") span
      end
  | Element e :: l =>
      item ← await (value e DeclarationMode);
      array_elements file l (elements ++ [item])
  end.

(** [modes[key]], with [create] and [stop] in handler positions of the declaration. *)
Definition mode_of (modes : bool) (key : jsstr) : ValueMode :=
  if modes && (bool_decide (key = js "create") || bool_decide (key = js "stop")) then HandlerMode else DeclarationMode.

Fixpoint object_properties (modes : bool) (file : jsstr) (l : list property) (entries : list (jsstr * built))
  : comp (list (jsstr * built)) :=
  match l with
  | [] => Ret entries
  | SpreadAssignment span e :: l =>
      spread ← await (value e DeclarationMode);
      items ← requiredObject spread (js "object spread") file;
      entries ← add_all entries items span;
      object_properties modes file l entries
  | AccessorDeclaration span :: _ => throw (js "accessors are not declaration values") span
  | MethodDeclaration span name :: l =>
      key ← propertyName name;
      match mode_of modes key with
      | HandlerMode => entries ← add entries key (handler_argument span) span; object_properties modes file l entries
      | DeclarationMode => throw (js "methods are only valid in handler positions") span
      end
  | PropertyAssignment span name initializer :: l =>
      key ← propertyName name;
      item ← await (value initializer (mode_of modes key));
      entries ← add entries key item span;
      object_properties modes file l entries
  | ShorthandAssignment span key :: l =>
      item ← await (value (Identifier span true) (mode_of modes key));
      entries ← add entries key item span;
      object_properties modes file l entries
  | OtherMember span :: _ => throw (js "unsupported object declaration member") span
  end.

Definition object (modes : bool) (e : expression) : comp (list (jsstr * built)) :=
  match unwrap e with
  | ObjectLiteral span properties => object_properties modes (span_file span) properties []
  | e => resolved ← await (value e DeclarationMode); requiredObject resolved (js "object") (span_file (span_of e))
  end.

(** The cardinality of [contract.required], [.optional] or [.many]. *)
Definition cardinality (name : jsstr) : option jsstr :=
  if bool_decide (name = js "required") then Some (js "one")
  else if bool_decide (name = js "optional") || bool_decide (name = js "many") then Some name else None.

Definition dependency_call (span : SourceSpan) (of_contract : expression) (c : Contract) (card : jsstr)
    (arguments_ : list expression) : comp built :=
  if (1 <? length arguments_)%nat then throw (js "Capability dependency cardinality accepts at most one id") span
  else
    id ← match unwrap <$> head arguments_ with
         | None => Ret []
         | Some (StringLiteral _ text) => Ret [(js "id", VString text)]
         | Some e => throw (js "Capability dependency id must be a string literal") (span_of e)
         end;
    Ret (literal (VObject ([(js "kind", VString (js "lenso.dependency")); (js "cardinality", VString card)] ++ id ++
                           [(js "contract", contractArgument c (span_of of_contract))])) span).

Definition argument_mode (handlers : list Z) (index : nat) : ValueMode :=
  if bool_decide (Z.of_nat index ∈ handlers) then HandlerMode else DeclarationMode.

Definition declaration_call (span : SourceSpan) (callee : expression) (arguments_ : list expression) : comp built :=
  m ← await (meaning fuel callee);
  match m with
  | Some (MeansDeclaration package export_name handlers) =>
      items ← await (promise_all (imap (fun index e => value e (argument_mode handlers index)) arguments_));
      Ret (DeclarationArgument package export_name items span)
  | _ => throw (js "unsupported call in declaration") (span_of callee)
  end.

Definition call (span : SourceSpan) (callee : expression) (arguments_ : list expression) : comp built :=
  match callee with
  | PropertyAccess _ of_contract _ name =>
      match cardinality name with
      | Some card =>
          m ← await (meaning fuel of_contract);
          match m with
          | Some (MeansContract c) => dependency_call span of_contract c card arguments_
          | _ => declaration_call span callee arguments_
          end
      | None => declaration_call span callee arguments_
      end
  | _ => declaration_call span callee arguments_
  end.

Definition constant (e : expression) : comp built :=
  r ← aliases fuel (symbolFor e);
  match r with
  | None => throw (js "unresolved declaration reference") (span_of e)
  | Some (x, _) =>
      busy ← is_active x;
      if busy : bool then throw (js "cyclic declaration constant") (span_of e)
      else
        Wait (match rs_node <$> valueDeclaration x with
              | None => throw (js "declaration reference has no static value") (span_of e)
              | Some (VariableDeclaration span const initializer) =>
                  if negb const then throw (js "mutable declaration values are not supported") span
                  else match initializer with
                       | None => throw (js "declaration constant has no initializer") span
                       | Some e => activate x;; finally (deactivate x) (await (value e DeclarationMode))
                       end
              | Some d => throw (js "reference is not a static const declaration") (declaration_span d)
              end)
  end.

(** [value(expression)] in declaration mode, once unwrapped. *)
Definition value_of (e : expression) : comp built :=
  let span := span_of e in
  match e with
  | StringLiteral _ text => Ret (literal (VString text) span)
  | NumericLiteral _ text => Ret (literal (VNumber (to_number text)) span)
  | TrueKeyword _ => Ret (literal (VBool true) span)
  | FalseKeyword _ => Ret (literal (VBool false) span)
  | NullKeyword _ => Ret (literal VNull span)
  | NegativeLiteral _ text => Ret (literal (VNumber (SFopp (to_number text))) span)
  | ArrayLiteral _ elements => items ← array_elements (span_file span) elements []; Ret (literal (VArray items) span)
  | ObjectLiteral _ _ => entries ← await (object false e); Ret (literal (VObject (fromEntries entries)) span)
  | CallExpression _ callee arguments_ => call span callee arguments_
  | Identifier _ _ =>
      m ← await (meaning fuel e);
      match m with
      | Some (MeansContract c) => Ret (contractArgument c span)
      | Some _ => throw (js "a declaration export must be called") span
      | None => constant e
      end
  | PropertyAccess _ _ _ _ =>
      m ← await (meaning fuel e);
      match m with
      | Some (MeansContract c) => Ret (contractArgument c span)
      | Some _ => throw (js "a declaration export must be called") span
      | None => throw (js "runtime property access is not supported") span
      end
  | _ => throw (js "expression is not in the static declaration subset") span
  end.
End recursive.

Fixpoint value (fuel : nat) (e : expression) (mode : ValueMode) : comp built :=
  match fuel with
  | O => Fails OutOfFuel
  | S fuel' =>
      add_file (span_file (span_of (unwrap e)));;
      match mode with
      | HandlerMode => handler fuel' (unwrap e)
      | DeclarationMode => value_of fuel' (value fuel') (unwrap e)
      end
  end.

(** ** [extractPluginDefinition] *)

Record SourceFile := { sf_name : jsstr; sf_statements : list statement }.

Record Diagnostic := { dg_text : jsstr; dg_fileName : option jsstr; dg_pos : Z; dg_end : Z }.

(** What the package loads for the entry file. *)
Record Project := { pj_source : option SourceFile; pj_diagnostics : list Diagnostic }.

Record ExtractedPluginDefinition := {
  ex_span : SourceSpan; ex_config : option built; ex_dependencies : option (list (jsstr * built));
  ex_providers : list built; ex_create : option built; ex_stop : option built; ex_sourceFiles : list jsstr }.

Definition diagnosticError (d : Diagnostic) (fallback : jsstr) : extraction_error :=
  DeclarationExtractionError (dg_text d)
    {| span_file := default fallback (dg_fileName d); span_start := dg_pos d; span_end := dg_end d |}.

(** The default export that is not [export =]. *)
Fixpoint default_export (l : list statement) : option expression :=
  match l with
  | [] => None
  | ExportAssignment false e :: _ => Some e
  | _ :: l => default_export l
  end.

Definition allowed_fields : list jsstr :=
  map js ["config"; "dependencies"; "provides"; "providers"; "create"; "stop"; "maxConcurrentRequests"]%string.

(** [evaluator.sourceFiles(entryFile)] *)
Definition all_sourceFiles (entry : jsstr) : comp (list jsstr) :=
  add_file entry;; Eff (fun s => s) (fun s => Ret (sort_strings (sourceFiles s))).

(** What the declaration object of [definePlugin] says, field by field. *)
Definition read_declaration (span argument_span : SourceSpan) (file : jsstr) (declaration : list (jsstr * built))
  : comp ExtractedPluginDefinition :=
  let get k := assoc (js k) declaration in
  match List.find (fun key => negb (mem key allowed_fields)) (keys declaration) with
  | Some key => throw (js "unknown definePlugin field " ++ key) argument_span
  | None =>
      if Bool.eqb (bool_decide (is_Some (get "provides"%string))) (bool_decide (is_Some (get "providers"%string))) then
        throw (js "definePlugin requires exactly one of provides or providers") argument_span
      else
        providers ← match get "provides"%string with
                    | Some v => requiredArray (Some v) (js "provides") file
                    | None => requiredArray (get "providers"%string) (js "providers") file
                    end;
        dependencies ← match get "dependencies"%string with
                       | None => Ret None
                       | Some v => Some <$> requiredObject v (js "dependencies") file
                       end;
        create ← optionalHandler (get "create"%string) (js "create") file;
        stop ← optionalHandler (get "stop"%string) (js "stop") file;
        files ← all_sourceFiles file;
        Ret {| ex_span := span; ex_config := get "config"%string; ex_dependencies := fromEntries <$> dependencies;
               ex_providers := providers; ex_create := create; ex_stop := stop; ex_sourceFiles := files |}
  end.

Definition extract_source (fuel : nat) (source : SourceFile) : comp ExtractedPluginDefinition :=
  let file := sf_name source in
  match unwrap <$> default_export (sf_statements source) with
  | None => throw (js "Plugin module must have one default export") (source_span file)
  | Some (CallExpression span callee arguments_) =>
      m ← await (meaning fuel callee);
      match m, arguments_ with
      | Some MeansPlugin, [argument] =>
          declaration ← await (object (value fuel) true argument);
          read_declaration span (span_of argument) file declaration
      | Some MeansPlugin, _ => throw (js "definePlugin requires exactly one declaration object") span
      | _, _ => throw (js "default export must call the generic definePlugin export") (span_of callee)
      end
  | Some e => throw (js "default export must call definePlugin") (span_of e)
  end.

Definition extractPluginDefinition (fuel : nat) (entryFile : jsstr) (project : option Project)
  : comp ExtractedPluginDefinition :=
  let nowhere := {| span_file := entryFile; span_start := 0; span_end := 0 |} in
  match project with
  | None => throw (js "cannot resolve a TypeScript project for " ++ entryFile) nowhere
  | Some p =>
      match pj_source p with
      | None => throw (js "cannot read Plugin entry " ++ entryFile) nowhere
      | Some source =>
          match pj_diagnostics p with
          | d :: _ => Fails (diagnosticError d (sf_name source))
          | [] => extract_source fuel source
          end
      end
  end.
End checker.
