(* ===== verification/ExtractMeaning.v ===== *)
(** * The meaning of a declaration

    The static subset has a plain meaning: [denote] evaluates an expression without
    shared sets, waits or interleaving, and [denote_definition] reads the definition a
    module exports.  ExtractCorrect.v compares the evaluator with it. *)

From Stdlib Require Import ZArith SpecFloat.
From S2P Require Import Prelude JsValue Text Json Build Extract.

Local Open Scope Z_scope.

(** A value and the set of source files it was read from. *)
Definition static (A : Type) : Type := option (A * gset jsstr).

#[export] Instance static_ret : MRet static := fun A a => Some (a, ∅).
#[export] Instance static_bind : MBind static := fun A B f m =>
  match m with
  | Some (a, d) => match f a with Some (b, d') => Some (b, d ∪ d') | None => None end
  | None => None
  end.

Definition nothing {A} : static A := None.
Definition reads (file : jsstr) : static unit := Some (tt, {[file]}).
Definition certain {A} (m : option A) : static A := match m with Some a => Some (a, ∅) | None => None end.

(** Values in order, all of them or none. *)
Fixpoint static_all {A} (ms : list (static A)) : static (list A) :=
  match ms with
  | [] => mret []
  | m :: ms => a ← m; rest ← static_all ms; mret (a :: rest)
  end.

Section denotation.
Context `{TypeScript}.

Definition payload (v : built) : option built := match v with ValueArgument v _ => Some v | _ => None end.

Definition payload_array (v : built) : option (list built) :=
  match payload v with Some (VArray l) => Some l | _ => None end.

Definition payload_object (v : built) (file : jsstr) : option (list (jsstr * built)) :=
  match payload v with
  | Some (VObject fs) => Some (map (fun '(k, v) => (k, asArgument (source_span file) v)) fs)
  | _ => None
  end.

Definition denote_meaning (fuel : nat) (e : expression) : static (option SymbolMeaning) :=
  r ← certain (follow_aliases fuel (symbolForTarget e) None []);
  match r with
  | None => mret None
  | Some (x, module_) =>
      match first_declaration x with
      | None => mret None
      | Some d =>
          let file := span_file (declaration_span (rs_node d)) in
          let above := match e with PropertyAccess _ o _ _ => moduleForSymbol (symbolFor o) | _ => None end in
          reads file;;
          mret (classifySymbol {| so_file := file; so_name := symbol_name x;
                                  so_module := match above with Some m => Some m | None => module_ end |})
      end
  end.

(** The function a handler expression names. *)
Definition target_of (d : declaration_node) : option SourceSpan :=
  match d with
  | VariableDeclaration _ true (Some (FunctionLike target)) => Some target
  | FunctionDeclaration span => Some span
  | _ => None
  end.

Definition denote_handler (fuel : nat) (e : expression) : option built :=
  match e with
  | Identifier _ _ =>
      r ← follow_aliases fuel (symbolFor e) None [];
      x ← r; d ← valueDeclaration x.1; handler_argument <$> target_of (declared_parent (rs_node d))
  | FunctionLike span => Some (handler_argument span)
  | _ => None
  end.

(** The initializer of the constant a name stands for, with its symbol. *)
Definition constant_of (fuel : nat) (e : expression) : option (symbol * expression) :=
  r ← follow_aliases fuel (symbolFor e) None [];
  x ← r; d ← valueDeclaration x.1;
  match rs_node d with
  | VariableDeclaration _ true (Some initializer) => Some (x.1, initializer)
  | _ => None
  end.

Section recursive.
Variable fuel : nat.
Variable den : expression → ValueMode → static built.

Fixpoint denote_elements (l : list element) : static (list built) :=
  match l with
  | [] => mret []
  | SpreadElement span e :: l =>
      v ← den e DeclarationMode; items ← certain (payload_array v); rest ← denote_elements l;
      mret (map (asArgument span) items ++ rest)
  | Element e :: l => v ← den e DeclarationMode; rest ← denote_elements l; mret (v :: rest)
  end.

(** The entries of one member of an object. *)
Definition denote_property (modes : bool) (file : jsstr) (p : property) : static (list (jsstr * built)) :=
  match p with
  | SpreadAssignment _ e => v ← den e DeclarationMode; certain (payload_object v file)
  | MethodDeclaration span (Named key) =>
      match mode_of modes key with HandlerMode => mret [(key, handler_argument span)] | DeclarationMode => nothing end
  | PropertyAssignment _ (Named key) e => v ← den e (mode_of modes key); mret [(key, v)]
  | ShorthandAssignment span key => v ← den (Identifier span true) (mode_of modes key); mret [(key, v)]
  | _ => nothing
  end.

Fixpoint denote_properties (modes : bool) (file : jsstr) (l : list property) : static (list (jsstr * built)) :=
  match l with
  | [] => mret []
  | p :: l => es ← denote_property modes file p; rest ← denote_properties modes file l; mret (es ++ rest)
  end.

(** An object has each key once. *)
Definition denote_object (modes : bool) (e : expression) : static (list (jsstr * built)) :=
  match unwrap e with
  | ObjectLiteral span properties =>
      es ← denote_properties modes (span_file span) properties;
      if bool_decide (NoDup (keys es)) then mret es else nothing
  | e => v ← den e DeclarationMode; certain (payload_object v (span_file (span_of e)))
  end.

Definition denote_arguments (handlers : list Z) (l : list expression) : static (list built) :=
  static_all (imap (fun index e => den e (argument_mode handlers index)) l).

Definition denote_dependency (span : SourceSpan) (of_contract : expression) (c : Contract) (card : jsstr)
    (arguments_ : list expression) : option built :=
  let dependency id := literal (VObject ([(js "kind", VString (js "lenso.dependency")); (js "cardinality", VString card)] ++
                         id ++ [(js "contract", contractArgument c (span_of of_contract))])) span in
  match map unwrap arguments_ with
  | [] => Some (dependency [])
  | [StringLiteral _ text] => Some (dependency [(js "id", VString text)])
  | _ => None
  end.

Definition denote_declaration (span : SourceSpan) (callee : expression) (arguments_ : list expression) : static built :=
  m ← denote_meaning fuel callee;
  match m with
  | Some (MeansDeclaration package export_name handlers) =>
      items ← denote_arguments handlers arguments_; mret (DeclarationArgument package export_name items span)
  | _ => nothing
  end.

Definition denote_call (span : SourceSpan) (callee : expression) (arguments_ : list expression) : static built :=
  match callee with
  | PropertyAccess _ of_contract _ name =>
      match cardinality name with
      | Some card =>
          m ← denote_meaning fuel of_contract;
          match m with
          | Some (MeansContract c) => certain (denote_dependency span of_contract c card arguments_)
          | _ => denote_declaration span callee arguments_
          end
      | None => denote_declaration span callee arguments_
      end
  | _ => denote_declaration span callee arguments_
  end.

Definition denote_value (e : expression) : static built :=
  let span := span_of e in
  match e with
  | StringLiteral _ text => mret (literal (VString text) span)
  | NumericLiteral _ text => mret (literal (VNumber (to_number text)) span)
  | TrueKeyword _ => mret (literal (VBool true) span)
  | FalseKeyword _ => mret (literal (VBool false) span)
  | NullKeyword _ => mret (literal VNull span)
  | NegativeLiteral _ text => mret (literal (VNumber (SFopp (to_number text))) span)
  | ArrayLiteral _ elements => items ← denote_elements elements; mret (literal (VArray items) span)
  | ObjectLiteral _ _ => es ← denote_object false e; mret (literal (VObject (fromEntries es)) span)
  | CallExpression _ callee arguments_ => denote_call span callee arguments_
  | Identifier _ _ =>
      m ← denote_meaning fuel e;
      match m with
      | Some (MeansContract c) => mret (contractArgument c span)
      | Some _ => nothing
      | None => c ← certain (constant_of fuel e); den c.2 DeclarationMode
      end
  | PropertyAccess _ _ _ _ =>
      m ← denote_meaning fuel e;
      match m with Some (MeansContract c) => mret (contractArgument c span) | _ => nothing end
  | _ => nothing
  end.
End recursive.

(** The value of an expression; [fuel] bounds the depth of constants within constants. *)
Fixpoint denote (fuel : nat) (e : expression) (mode : ValueMode) : static built :=
  match fuel with
  | O => nothing
  | S fuel' =>
      reads (span_file (span_of (unwrap e)));;
      match mode with
      | HandlerMode => certain (denote_handler fuel' (unwrap e))
      | DeclarationMode => denote_value fuel' (denote fuel') (unwrap e)
      end
  end.
(** What [definePlugin] is told: known fields, one of [provides] and [providers]. *)
Definition handler_field (v : option built) : option (option built) :=
  match v with
  | None => Some None
  | Some (HandlerArgument r s) => Some (Some (HandlerArgument r s))
  | Some _ => None
  end.

Definition providers_field (fields : list (jsstr * built)) : option built :=
  match assoc (js "provides") fields, assoc (js "providers") fields with
  | Some v, None | None, Some v => Some v
  | _, _ => None
  end.

Definition dependencies_field (file : jsstr) (v : option built) : option (option (list (jsstr * built))) :=
  match v with None => Some None | Some v => Some <$> payload_object v file end.

Definition definition_with (span : SourceSpan) (file : jsstr) (fields : list (jsstr * built)) (listed : built)
    (files : list jsstr) : option ExtractedPluginDefinition :=
  providers ← map (asArgument (source_span file)) <$> payload_array listed;
  dependencies ← dependencies_field file (assoc (js "dependencies") fields);
  create ← handler_field (assoc (js "create") fields);
  stop ← handler_field (assoc (js "stop") fields);
  Some {| ex_span := span; ex_config := assoc (js "config") fields; ex_dependencies := fromEntries <$> dependencies;
          ex_providers := providers; ex_create := create; ex_stop := stop; ex_sourceFiles := files |}.

Definition definition_of (span : SourceSpan) (file : jsstr) (fields : list (jsstr * built)) (files : list jsstr)
  : option ExtractedPluginDefinition :=
  if forallb (fun key => mem key allowed_fields) (keys fields) then
    listed ← providers_field fields; definition_with span file fields listed files
  else None.

Definition denote_export (fuel : nat) (callee argument : expression) : static (list (jsstr * built)) :=
  m ← denote_meaning fuel callee;
  match m with
  | Some MeansPlugin => denote_object (denote fuel) true argument
  | _ => nothing
  end.

(** The definition a Plugin module declares. *)
Definition denote_definition (fuel : nat) (project : option Project) : option ExtractedPluginDefinition :=
  match project with
  | Some {| pj_source := Some source; pj_diagnostics := [] |} =>
      match unwrap <$> default_export (sf_statements source) with
      | Some (CallExpression span callee [argument]) =>
          match denote_export fuel callee argument with
          | Some (fields, files) =>
              definition_of span (sf_name source) fields (sort_strings (elements ({[sf_name source]} ∪ files)))
          | None => None
          end
      | _ => None
      end
  | _ => None
  end.
End denotation.
