(* ===== verification/ExtractCorrect.v ===== *)
(** * The evaluator computes the meaning

    [Simulation] is what a relation between computations and static meanings has to
    promise; against it the evaluator is related to [denote] once.  Its instance here is
    [agrees]: whatever the schedule, what is returned is the meaning, and a failure means
    that there is none or that a constant was found active.  ExtractOrder.v has two more
    instances. *)

From Stdlib Require Import ZArith SpecFloat.
From S2P Require Import Prelude JsValue Text Json Build Extract ExtractMeaning.

Local Open Scope Z_scope.

(** ** Laws of static meanings *)

Lemma static_bind_assoc {A B C} (m : static A) (f : A → static B) (g : B → static C) :
  (m ≫= f) ≫= g = m ≫= (fun a => f a ≫= g).
Proof.
  destruct m as [[a d]|]; [|done]. cbn. destruct (f a) as [[b d']|]; [|done].
  cbn. destruct (g b) as [[c d'']|]; [|done]. by rewrite (union_assoc_L d d' d'').
Qed.

Lemma static_bind_ret {A B} (a : A) (f : A → static B) : mret a ≫= f = f a.
Proof. cbn. destruct (f a) as [[b d]|]; [|done]. by rewrite union_empty_l_L. Qed.

Lemma static_ret_bind {A} (m : static A) : m ≫= mret = m.
Proof. destruct m as [[a d]|]; [|done]. cbn. by rewrite union_empty_r_L. Qed.

Lemma static_bind_ext {A B} (m : static A) (f g : A → static B) : (∀ a, f a = g a) → m ≫= f = m ≫= g.
Proof. intros E. destruct m as [[a d]|]; [|done]. cbn. by rewrite E. Qed.

Lemma static_bind_none {A B} (m : static A) (f : A → static B) : (∀ a, f a = None) → m ≫= f = None.
Proof. intros E. destruct m as [[a d]|]; [|done]. cbn. by rewrite E. Qed.

Lemma certain_bind {A B} (m : option A) (f : A → static B) :
  certain m ≫= f = match m with Some a => f a | None => None end.
Proof. destruct m as [a|]; [apply static_bind_ret|done]. Qed.

Lemma certain_then {A B} (m : option A) (f : A → option B) :
  certain (m ≫= f) = certain m ≫= (fun a => certain (f a)).
Proof. rewrite certain_bind. by destruct m. Qed.

Lemma comp_ret_bind {A B} (a : A) (k : A → comp B) : Ret a ≫= k = k a.
Proof. done. Qed.

Lemma keys_app {V} (l l' : list (jsstr * V)) : keys (l ++ l') = keys l ++ keys l'.
Proof. apply map_app. Qed.

(** A computation that ends at once. *)
Definition settles {A} (c : comp A) (m : option A) : Prop :=
  match m with Some a => c = Ret a | None => ∃ message span, c = throw message span end.

(** The expressions [value] evaluates for one expression. *)
Definition element_part (x : element) : expression := match x with Element e | SpreadElement _ e => e end.

Definition property_part (p : property) : option expression :=
  match p with
  | SpreadAssignment _ e | PropertyAssignment _ _ e => Some e
  | ShorthandAssignment span _ => Some (Identifier span true)
  | _ => None
  end.

Definition parts (e : expression) : list expression :=
  match e with
  | ArrayLiteral _ elements => map element_part elements
  | ObjectLiteral _ properties => omap property_part properties
  | CallExpression _ _ arguments_ => arguments_
  | _ => []
  end.

Definition object_parts (e : expression) : list expression :=
  match e with ObjectLiteral _ _ => parts e | e => [e] end.

(** The symbols the evaluator asks about. *)
Definition asked `{TypeScript} (x : option symbol) : Prop := ∃ e, x = symbolFor e ∨ x = symbolForTarget e.

(** ** Relating computations to meanings *)

(** What a relation between computations and meanings promises to the evaluator. *)
Class Simulation (R : ∀ A, comp A → static A → Prop) := {
  sim_ret A (a : A) : R A (Ret a) (mret a);
  sim_fails A message span : R A (throw message span) None;
  sim_wait A c m : R A c m → R A (Wait c) m;
  sim_file file : R unit (add_file file) (reads file);
  sim_bind A B c m (k : A → comp B) (f : A → static B) :
    R A c m → (∀ a, R B (k a) (f a)) → R B (comp_then k c) (m ≫= f);
  sim_both A B c c' m m' :
    R A c m → R B c' m' → R (A * B)%type (interleave c c') (x ← m; y ← m'; mret (x, y)) }.

Section evaluator.
Context `{TypeScript} {R : ∀ A, comp A → static A → Prop} `{!Simulation R}.

Notation "c ~~ m" := (R _ c m) (at level 70).

Lemma sim_then {A B} (c : comp A) m (k : A → comp B) (f : A → static B) :
  c ~~ m → (∀ a, k a ~~ f a) → (c ≫= k) ~~ (m ≫= f).
Proof. apply sim_bind. Qed.

Lemma sim_await {A} (c : comp A) m : c ~~ m → await c ~~ m.
Proof.
  intros Hc. rewrite <-(static_ret_bind m). apply sim_then; [done|].
  intros a. apply sim_wait, sim_ret.
Qed.

(** A computation that does not touch the store. *)
Lemma sim_certain {A} (m : option A) (c : comp A) :
  settles c m → c ~~ certain m.
Proof. destruct m as [a|]; [intros ->; apply sim_ret|intros (message & span & ->); apply sim_fails]. Qed.

Lemma sim_all {A} (cs : list (comp A)) ms : Forall2 (R A) cs ms → promise_all cs ~~ static_all ms.
Proof.
  induction 1 as [|c m cs ms Hc Hcs IH]; [apply sim_ret|]. cbn [promise_all static_all].
  assert (E : (a ← m; rest ← static_all ms; mret (a :: rest)) =
              (p ← (x ← m; y ← static_all ms; mret (x, y)); mret (p.1 :: p.2) : static (list A))).
  { rewrite static_bind_assoc. apply static_bind_ext. intros a. rewrite static_bind_assoc.
    apply static_bind_ext. intros l. by rewrite static_bind_ret. }
  rewrite E. apply sim_then; [by apply sim_both|]. intros p. apply sim_ret.
Qed.

(** Every field of a value is as [denote] reads it. *)
Lemma sim_payload_array {B} v subject file (k : list built → comp B) f message span :
  (∀ l, k l ~~ f l) →
  (x ← valuePayload v subject file; match x with VArray l => k l | _ => throw message span end)
    ~~ (l ← certain (payload_array v); f l).
Proof.
  intros Hk. rewrite certain_bind. unfold payload_array.
  destruct v as [| | | | | |v' s| | |]; cbn; try apply sim_fails.
  destruct v'; cbn; try apply sim_fails. apply Hk.
Qed.

Lemma sim_requiredObject v subject file : requiredObject v subject file ~~ certain (payload_object v file).
Proof.
  apply sim_certain. unfold requiredObject, payload_object.
  destruct v as [| | | | | |v' s| | |]; cbn; try by do 2 eexists. destruct v'; cbn; first [by do 2 eexists|done].
Qed.

(** The fuels of the evaluator and of the meaning, and their recursive calls. *)
Context (n m : nat) (v : expression → ValueMode → comp built) (den : expression → ValueMode → static built).
Context (Haliases : ∀ x, asked x → aliases n x ~~ certain (follow_aliases m x None [])).
Context (ok : expression → Prop) (Hv : ∀ e mode, ok e → v e mode ~~ den e mode).
Context (Hconstant : ∀ e, constant n v e ~~ (c ← certain (constant_of m e); den c.2 DeclarationMode)).

Lemma sim_meaning e : meaning n e ~~ denote_meaning m e.
Proof.
  apply sim_then; [apply Haliases; eexists; eauto|]. intros [[x module_]|]; [|apply sim_ret].
  destruct (first_declaration x) as [d|]; [|apply sim_ret].
  apply sim_wait, sim_then; [apply sim_file|]. intros []. destruct e; apply sim_ret.
Qed.

Lemma sim_handler e : unwrap e = e → handler n e ~~ certain (denote_handler m e).
Proof.
  intros Hu. unfold handler. rewrite Hu. destruct e; try apply sim_fails; [|apply sim_ret].
  cbn [denote_handler].
  rewrite certain_then. apply sim_then; [apply Haliases; eexists; eauto|]. intros [[x module_]|]; [|apply sim_fails]. cbn.
  destruct (valueDeclaration x) as [d|]; [|apply sim_fails]. cbn.
  apply sim_wait, sim_certain. destruct (declared_parent (rs_node d)) as [? [] [[]|]| | |]; cbn; first [done|by do 2 eexists].
Qed.

Lemma sim_array_elements file l acc :
  Forall ok (map element_part l) →
  array_elements v file l acc ~~ (items ← denote_elements den l; mret (acc ++ items)).
Proof.
  revert acc. induction l as [|x l IH]; intros acc Hl; [|apply Forall_cons in Hl as [Hx Hl]; specialize (fun acc => IH acc Hl)];
    [|destruct x as [e|span e]]; cbn [array_elements denote_elements].
  - rewrite static_bind_ret, app_nil_r. apply sim_ret.
  - rewrite static_bind_assoc. apply sim_then; [by apply sim_await, Hv|]. intros item.
    rewrite static_bind_assoc. erewrite static_bind_ext; [apply IH|].
    intros rest. by rewrite static_bind_ret, <-app_assoc.
  - rewrite static_bind_assoc. apply sim_then; [by apply sim_await, Hv|]. intros spread.
    rewrite static_bind_assoc. apply sim_payload_array. intros items.
    rewrite static_bind_assoc. erewrite static_bind_ext; [apply IH|].
    intros rest. by rewrite static_bind_ret, <-app_assoc.
Qed.

(** The entries so far, followed by those of the members that remain, each key once. *)
Definition distinct (es : list (jsstr * built)) : static (list (jsstr * built)) :=
  if bool_decide (NoDup (keys es)) then mret es else nothing.

Lemma distinct_none es : ¬ NoDup (keys es) → distinct es = None.
Proof. intros Hd. unfold distinct. by rewrite bool_decide_false. Qed.

Lemma sim_add_all {B} es new span (k : list (jsstr * built) → comp B) (f : static B) :
  (NoDup (keys (es ++ new)) → k (es ++ new) ~~ f) → NoDup (keys es) → (¬ NoDup (keys (es ++ new)) → f = None) →
  (es' ← add_all es new span; k es') ~~ f.
Proof.
  revert es. induction new as [|[key x] new IH]; intros es Hk Hes Hn; cbn [add_all].
  - rewrite app_nil_r in Hk. by apply Hk.
  - unfold add. destruct (mem key (keys es)) eqn:Hm.
    + rewrite Hn; [apply sim_fails|]. rewrite keys_app, NoDup_app. intros (_ & Hd & _).
      apply mem_true in Hm. apply (Hd key Hm). cbn. left.
    + cbn. apply IH.
      * by rewrite <-app_assoc.
      * rewrite keys_app, NoDup_app. split; [done|]. split; [|apply NoDup_singleton].
        intros y Hy [->|Hin]%elem_of_cons; [|by apply elem_of_nil in Hin].
        by apply mem_false in Hm.
      * by rewrite <-app_assoc.
Qed.

Lemma sim_object_properties modes file l es :
  Forall ok (omap property_part l) → NoDup (keys es) →
  object_properties v modes file l es ~~ (rest ← denote_properties den modes file l; distinct (es ++ rest)).
Proof.
  revert es. induction l as [|p l IH]; intros es Hl Hes; cbn [object_properties denote_properties].
  { rewrite static_bind_ret, app_nil_r. unfold distinct. rewrite bool_decide_true by done. apply sim_ret. }
  assert (Hp : ∀ e, property_part p = Some e → ok e).
  { intros e E. cbn in Hl. rewrite E in Hl. by inversion Hl. }
  specialize (fun es => IH es ltac:(cbn in Hl; destruct (property_part p); [by inversion Hl|done])).
  rewrite static_bind_assoc.
  assert (Hrest : ∀ (new : list (jsstr * built)) span,
    (es' ← add_all es new span; object_properties v modes file l es') ~~
    (a ← (rest ← denote_properties den modes file l; mret (new ++ rest)); distinct (es ++ a))).
  { intros new span. rewrite static_bind_assoc. apply sim_add_all; [|done|].
    - intros Hnew. erewrite static_bind_ext; [by apply IH|]. intros rest. by rewrite static_bind_ret, app_assoc.
    - intros Hnew. apply static_bind_none. intros rest. rewrite static_bind_ret. apply distinct_none.
      rewrite app_assoc, keys_app, NoDup_app. naive_solver. }
  assert (Hadd : ∀ key x span,
    (es' ← add es key x span; object_properties v modes file l es') ~~
    (a ← (rest ← denote_properties den modes file l; mret ([(key, x)] ++ rest)); distinct (es ++ a))).
  { intros key x span. specialize (Hrest [(key, x)] span). cbn [add_all] in Hrest. unfold add in *.
    by destruct (mem key (keys es)). }
  destruct p as [span e|span|span name|span name e|span key|span]; cbn [denote_property].
  - rewrite static_bind_assoc. apply sim_then; [by apply sim_await, Hv, Hp|]. intros spread.
    apply sim_then; [apply sim_requiredObject|]. intros new. apply Hrest.
  - apply sim_fails.
  - destruct name as [key|]; [|apply sim_fails]. cbn [propertyName]. rewrite comp_ret_bind.
    destruct (mode_of modes key); [apply sim_fails|]. rewrite static_bind_ret. apply Hadd.
  - destruct name as [key|]; [|apply sim_fails]. cbn [propertyName].
    rewrite comp_ret_bind, static_bind_assoc. apply sim_then; [by apply sim_await, Hv, Hp|]. intros item. rewrite static_bind_ret. apply Hadd.
  - rewrite static_bind_assoc. apply sim_then; [by apply sim_await, Hv, Hp|]. intros item. rewrite static_bind_ret. apply Hadd.
  - apply sim_fails.
Qed.

Lemma sim_object modes e : Forall ok (object_parts (unwrap e)) → object v modes e ~~ denote_object den modes e.
Proof.
  intros Hok. unfold object, denote_object.
  assert (Helse : ∀ x, ok x → (resolved ← await (v x DeclarationMode); requiredObject resolved (js "object") (span_file (span_of x)))
    ~~ (r ← den x DeclarationMode; certain (payload_object r (span_file (span_of x))))).
  { intros x Hx. apply sim_then; [by apply sim_await, Hv|]. intros r. apply sim_requiredObject. }
  destruct (unwrap e); try (apply Helse; by inversion Hok).
  erewrite static_bind_ext; [apply sim_object_properties; [done|apply NoDup_nil_2]|]. done.
Qed.

Lemma sim_dependency span e c card args :
  dependency_call span e c card args ~~ certain (denote_dependency span e c card args).
Proof.
  apply sim_certain. unfold dependency_call, denote_dependency.
  destruct args as [|a [|b args]]; cbn; [done|..]; destruct (unwrap a); cbn; first [done|by do 2 eexists].
Qed.

Lemma sim_arguments (f : nat → ValueMode) args :
  Forall ok args →
  Forall2 (R built) (imap (fun i e => v e (f i)) args) (imap (fun i e => den e (f i)) args).
Proof.
  intros Hok. revert f. induction Hok as [|e args He Hok IH]; intros f; cbn; constructor; [by apply Hv|]. apply (IH (f ∘ S)).
Qed.

Lemma sim_declaration_call span callee args :
  Forall ok args →
  declaration_call n v span callee args ~~ denote_declaration m den span callee args.
Proof.
  intros Hok. apply sim_then; [apply sim_await, sim_meaning|].
  intros [[|package export_name handlers|]|]; try apply sim_fails.
  apply sim_then; [|intros items; apply sim_ret]. apply sim_await, sim_all.
  by apply sim_arguments.
Qed.

Lemma sim_call span callee args : Forall ok args → call n v span callee args ~~ denote_call m den span callee args.
Proof.
  intros Hok. destruct callee; cbn [call denote_call]; try by apply sim_declaration_call.
  destruct (cardinality name) as [card|]; [|by apply sim_declaration_call].
  apply sim_then; [apply sim_await, sim_meaning|].
  intros [[| |c]|]; try by apply sim_declaration_call. apply sim_dependency.
Qed.

Lemma sim_value_of e : Forall ok (parts e) → value_of n v e ~~ denote_value m den e.
Proof.
  intros Hok. destruct e; cbn [value_of denote_value span_of]; try apply sim_ret; try apply sim_fails.
  - erewrite static_bind_ext with (g := fun items => (a ← mret ([] ++ items); mret (literal (VArray a) span)));
      [|intros items; by rewrite static_bind_ret].
    rewrite <-static_bind_assoc. apply sim_then; [by apply sim_array_elements|]. intros items. apply sim_ret.
  - apply sim_then; [by apply sim_await, sim_object|]. intros es. apply sim_ret.
  - by apply sim_call.
  - apply sim_then; [apply sim_await, sim_meaning|].
    intros [[| |c]|]; try apply sim_fails; [apply sim_ret|]. apply Hconstant.
  - apply sim_then; [apply sim_await, sim_meaning|].
    intros [[| |c]|]; try apply sim_fails. apply sim_ret.
Qed.
End evaluator.

Lemma unwrap_unwrap e : unwrap (unwrap e) = unwrap e.
Proof. by induction e. Qed.

(** The two sides of one call of [value], and of the default export. *)
Lemma sim_value `{TypeScript} {R} `{!Simulation R} n m v den e mode :
  (∀ x, asked x → R _ (aliases n x) (certain (follow_aliases m x None []))) →
  R _ (value_of n v (unwrap e)) (denote_value m den (unwrap e)) →
  R _ (add_file (span_file (span_of (unwrap e)));;
       match mode with HandlerMode => handler n (unwrap e) | DeclarationMode => value_of n v (unwrap e) end)
      (reads (span_file (span_of (unwrap e)));;
       match mode with
       | HandlerMode => certain (denote_handler m (unwrap e))
       | DeclarationMode => denote_value m den (unwrap e)
       end).
Proof.
  intros Ha Hv. apply sim_then; [apply sim_file|]. intros []. destruct mode; [done|].
  apply sim_handler; [done|]. apply unwrap_unwrap.
Qed.

(** ** Every schedule *)

Definition files (s : store) : gset jsstr := list_to_set (sourceFiles s).

(** A change of the store that adds the files [d] to those read, once each. *)
Definition adds (d : gset jsstr) (s s' : store) : Prop :=
  files s' = files s ∪ d ∧ (NoDup (sourceFiles s) → NoDup (sourceFiles s')).

(** From any store and however it is resumed, a computation returns what [P] says of the
    value and of the files it adds, or fails as [F] says. *)
Fixpoint yields {A} (c : comp A) (P : A → gset jsstr → Prop) (F : extraction_error → Prop) : Prop :=
  match c with
  | Ret a => P a ∅
  | Fails e => F e
  | Wait c => yields c P F
  | Eff g f => ∀ s, ∃ d, adds d s (g s) ∧ yields (f s) (fun a D => P a (d ∪ D)) F
  end.

Lemma adds_refl s : adds ∅ s s.
Proof. split; [by rewrite union_empty_r_L|done]. Qed.

Lemma adds_trans d d' s s' s'' : adds d s s' → adds d' s' s'' → adds (d ∪ d') s s''.
Proof. intros [E N] [E' N']. split; [rewrite E', E; by rewrite union_assoc_L|auto]. Qed.

Lemma yields_mono {A} (c : comp A) (P Q : A → gset jsstr → Prop) (F G : extraction_error → Prop) :
  yields c P F → (∀ a D, P a D → Q a D) → (∀ e, F e → G e) → yields c Q G.
Proof.
  revert P Q. induction c as [a|e|g f IH|c IH]; intros P Q Hc HP HF; cbn in *; [by apply HP|by apply HF| |eauto].
  intros s. destruct (Hc s) as (d & Hd & Hf). exists d. split; [done|]. eapply IH; [exact Hf| |done]. eauto.
Qed.

Lemma yields_bind {A B} (c : comp A) (k : A → comp B) P Q F :
  yields c P F → (∀ a D, P a D → yields (k a) (fun b D' => Q b (D ∪ D')) F) → yields (comp_then k c) Q F.
Proof.
  revert P Q. induction c as [a|e|g f IH|c IH]; intros P Q Hc Hk; cbn in *.
  - eapply yields_mono; [by apply (Hk a ∅)| |done]. intros b D'; cbn. by rewrite union_empty_l_L.
  - done.
  - intros s. destruct (Hc s) as (d & Hd & Hf). exists d. split; [done|]. eapply IH; [exact Hf|].
    intros a D Ha. eapply yields_mono; [by apply (Hk a (d ∪ D))| |done]. intros b D'; cbn. by rewrite union_assoc_L.
  - by eapply IH.
Qed.

Lemma yields_finally {A} u (c : comp A) P F :
  (∀ s, sourceFiles (u s) = sourceFiles s) → yields c P F → yields (finally u c) P F.
Proof.
  intros Hu. assert (Hadds : ∀ s, adds ∅ s (u s)).
  { intros s. unfold adds, files. rewrite Hu. split; [by rewrite union_empty_r_L|done]. }
  revert P. induction c as [a|e|g f IH|c IH]; intros P Hc; cbn in *.
  - intros s. exists ∅. split; [done|]. by rewrite (union_empty_l_L ∅).
  - intros s. by exists ∅.
  - intros s. destruct (Hc s) as (d & Hd & Hf). exists d. eauto.
  - eauto.
Qed.

(** Both computations ran, whichever resumed when. *)
Definition both {A B : Type} (P : A → gset jsstr → Prop) (Q : B → gset jsstr → Prop) (p : A * B) (D : gset jsstr) : Prop :=
  ∃ D1 D2, D = D1 ∪ D2 ∧ P p.1 D1 ∧ Q p.2 D2.

Lemma both_left {A B : Type} (P : A → gset jsstr → Prop) (Q : B → gset jsstr → Prop) d p D :
  both (fun a D => P a (d ∪ D)) Q p D → both P Q p (d ∪ D).
Proof. intros (D1 & D2 & -> & HP & HQ). exists (d ∪ D1), D2. split; [by rewrite union_assoc_L|done]. Qed.

Lemma both_right {A B : Type} (P : A → gset jsstr → Prop) (Q : B → gset jsstr → Prop) d p D :
  both P (fun a D => Q a (d ∪ D)) p D → both P Q p (d ∪ D).
Proof. intros (D1 & D2 & -> & HP & HQ). exists D1, (d ∪ D2). split; [set_solver|done]. Qed.

Lemma yields_interleave {A B : Type} (c : comp A) (c' : comp B) P Q F :
  yields c P F → yields c' Q F → yields (interleave c c') (both P Q) F.
Proof.
  revert c' P Q. induction c as [a|e|g f IH|c IH].
  - induction c' as [b|e|g f IH|c' IH]; intros P Q Hc Hc'; cbn in *; [|done| |by apply IH].
    + exists ∅, ∅. by rewrite union_empty_l_L.
    + intros s. destruct (Hc' s) as (d & Hd & Hf). exists d. split; [done|].
      eapply yields_mono; [by eapply IH|apply both_right|done].
  - induction c' as [b|e'|g f IH|c' IH]; intros P Q Hc Hc'; cbn in *; [done..| |done].
    intros s. destruct (Hc' s) as (d & Hd & Hf). exists d. split; [done|].
    eapply yields_mono; [by eapply IH|apply both_right|done].
  - intros c' P Q Hc Hc'. assert (Hs : ∀ s, ∃ d, adds d s (g s) ∧
      yields (interleave (f s) c') (fun p D => both P Q p (d ∪ D)) F).
    { intros s. destruct (Hc s) as (d & Hd & Hf). exists d. split; [done|].
      eapply yields_mono; [by eapply IH|apply both_left|done]. }
    destruct c'; exact Hs.
  - induction c' as [b|e'|g f IH'|c' IH']; intros P Q Hc Hc'; cbn in *; [by apply IH|done| |].
    + intros s. destruct (Hc' s) as (d & Hd & Hf). exists d. split; [done|].
      eapply yields_mono; [by eapply IH'|apply both_right|done].
    + intros s. exists ∅. split; [apply (adds_refl s)|].
      eapply yields_mono with (P := both P Q); [|by intros p D; rewrite union_empty_l_L|done].
      destruct (next_choice s); [by apply IH|by apply IH'].
Qed.

(** A failure because a constant was active. *)
Definition cyclic (e : extraction_error) : Prop :=
  ∃ span, e = DeclarationExtractionError (js "cyclic declaration constant") span.

Definition agrees A (c : comp A) (m : static A) : Prop :=
  yields c (fun a D => m = Some (a, D)) (fun e => m = None ∨ cyclic e).

#[export] Instance agrees_simulation : Simulation agrees.
Proof.
  split; unfold agrees; cbn.
  - done.
  - by left.
  - done.
  - intros file s. exists {[file]}. split; [|by rewrite union_empty_r_L]. unfold adds, files, add_to. cbn.
    case_bool_decide as Hin; [set_solver|]. rewrite list_to_set_app_L, list_to_set_singleton_L. split; [done|].
    intros Hnd. apply NoDup_app. split; [done|]. split; [set_solver|apply NoDup_singleton].
  - intros A B c m k f Hc Hk. eapply yields_bind.
    + eapply yields_mono; [exact Hc|by intros a D E; exact E|]. intros e [->|]; [by left|by right].
    + intros a D ->. eapply yields_mono; [apply Hk| |].
      * intros b D' Hb. cbn. by rewrite Hb.
      * intros e [E|]; [left; cbn; by rewrite E|by right].
  - intros A B c c' m m' Hc Hc'. eapply yields_mono; [apply yields_interleave| |].
    + eapply yields_mono; [exact Hc|by intros a D E; exact E|]. instantiate (1 := fun e => (m = None ∨ m' = None) ∨ cyclic e). naive_solver.
    + eapply yields_mono; [exact Hc'|by intros a D E; exact E|]. naive_solver.
    + intros [a b] D (D1 & D2 & -> & -> & ->). cbn. by rewrite union_empty_r_L.
    + intros e [[->| ->]|]; [by left| |by right]. left. by destruct m as [[]|].
Qed.

Section soundness.
Context `{TypeScript}.

Lemma agrees_aliases n x : asked x → agrees _ (aliases n x) (certain (follow_aliases n x None [])).
Proof. intros _. apply sim_wait. destruct (follow_aliases n x None []); [apply sim_ret|by left]. Qed.

(** The set of active constants adds no file. *)
Lemma agrees_silent {A B} (c : comp B) (k : B → comp A) m :
  yields c (fun _ D => D = ∅) (fun _ => False) → (∀ b, agrees _ (k b) m) → agrees _ (c ≫= k) m.
Proof.
  intros Hc Hk. apply yields_bind with (P := fun _ D => D = ∅); [by eapply yields_mono|].
  intros b D ->. eapply yields_mono; [apply Hk| |done]. intros a D. cbn. by rewrite union_empty_l_L.
Qed.

Lemma silent_is_active x : yields (is_active x) (fun _ D => D = ∅) (fun _ => False).
Proof. intros s. exists ∅. split; [apply adds_refl|]. apply union_empty_l_L. Qed.

Lemma silent_activate x : yields (activate x) (fun _ D => D = ∅) (fun _ => False).
Proof. intros s. exists ∅. split; [apply (adds_refl s)|]. apply union_empty_l_L. Qed.

Lemma agrees_constant n v den e :
  (∀ e mode, agrees _ (v e mode) (den e mode)) →
  agrees _ (constant n v e) (c ← certain (constant_of n e); den c.2 DeclarationMode).
Proof.
  intros Hv. unfold constant_of. rewrite certain_then, static_bind_assoc.
  apply sim_then; [apply agrees_aliases; eexists; eauto|]. intros [[x module_]|]; [|apply sim_fails].
  apply agrees_silent; [apply silent_is_active|]. intros [|]; [right; by eexists|].
  apply sim_wait. rewrite certain_bind. cbn [mbind option_bind fst].
  destruct (valueDeclaration x) as [d|]; [|apply sim_fails]. cbn [fmap option_fmap option_map mbind option_bind].
  destruct (rs_node d) as [span [] [init|]| | |]; cbn [negb]; try apply sim_fails.
  apply agrees_silent; [apply silent_activate|]. intros [].
  apply yields_finally; [done|]. apply (sim_await (R := agrees)), Hv.
Qed.

Lemma agrees_value n e mode : agrees _ (value n e mode) (denote n e mode).
Proof.
  revert e mode. induction n as [|n IH]; intros e mode; [by left|].
  apply sim_value; [apply agrees_aliases|].
  apply sim_value_of with (ok := fun _ => True); [apply agrees_aliases|done| |by apply Forall_true].
  intros e'. by apply agrees_constant.
Qed.

(** Running to the end: the store gains the files, and keeps them once each. *)
Lemma yields_exec {A} (c : comp A) P F s :
  yields c P F →
  match exec c s with
  | (Ok a, s') => ∃ D, adds D s s' ∧ P a D
  | (Throw e, _) => F e
  end.
Proof.
  revert s P. induction c as [a|e|g f IH|c IH]; intros s P Hc; cbn in *; [|done| |by apply IH].
  - exists ∅. split; [apply adds_refl|done].
  - destruct (Hc s) as (d & Hd & Hf). specialize (IH s (g s) _ Hf). destruct (exec (f s) (g s)) as [[a|e] s']; [|done].
    destruct IH as (D & HD & Ha). exists (d ∪ D). split; [by eapply adds_trans|done].
Qed.

Lemma exec_bind {A B} (c : comp A) (k : A → comp B) s :
  exec (c ≫= k) s = match exec c s with (Ok a, s') => exec (k a) s' | (Throw e, s') => (Throw e, s') end.
Proof. revert s. induction c as [a|e|g f IH|c IH]; intros s; cbn; [done..|apply IH|apply IH]. Qed.

(** A store before evaluation, and every order of resuming. *)
Definition start (schedule : list bool) : store := {| active := []; sourceFiles := []; schedule := schedule |}.

Lemma sourceFiles_sorted D s order file :
  adds D (start order) s → NoDup (sourceFiles s) →
  sort_strings (add_to file (sourceFiles s)) = sort_strings (elements ({[file]} ∪ D)).
Proof.
  intros [E _] Hnd. apply sort_strings_unique, NoDup_Permutation; [|apply NoDup_elements|].
  - unfold add_to. case_bool_decide; [done|]. apply NoDup_app. split; [done|]. split; [set_solver|apply NoDup_singleton].
  - intros x. rewrite elem_of_elements, elem_of_union, elem_of_singleton.
    assert (Hx : x ∈ sourceFiles s ↔ x ∈ D) by (rewrite <-(elem_of_list_to_set (C := gset jsstr)); unfold files in E; set_solver).
    unfold add_to. case_bool_decide; set_solver.
Qed.

Lemma settles_payload_array v subject file :
  settles (requiredArray (Some v) subject file) (map (asArgument (source_span file)) <$> payload_array v).
Proof.
  unfold payload_array. destruct v as [| | | | | |v' s| | |]; cbn; try by do 2 eexists.
  destruct v'; cbn; first [by do 2 eexists|done].
Qed.

Lemma settles_payload_object v subject file : settles (requiredObject v subject file) (payload_object v file).
Proof.
  unfold requiredObject, payload_object. destruct v as [| | | | | |v' s| | |]; cbn; try by do 2 eexists.
  destruct v'; cbn; first [by do 2 eexists|done].
Qed.

Lemma settles_handler v subject file : settles (optionalHandler v subject file) (handler_field v).
Proof. destruct v as [[]|]; cbn; first [by do 2 eexists|done]. Qed.

Lemma settles_dependencies v file :
  settles (match v with None => Ret None | Some v => Some <$> requiredObject v (js "dependencies") file end)
    (dependencies_field file v).
Proof.
  destruct v as [v|]; [|done]. pose proof (settles_payload_object v (js "dependencies") file) as Hv. unfold settles in *.
  cbn [dependencies_field]. destruct (payload_object v file); cbn [fmap option_fmap option_map]; [by rewrite Hv|].
  destruct Hv as (message & span & ->). by do 2 eexists.
Qed.

(** Either both sides go on with the same value, or both stop. *)
Lemma settles_exec {A B} (c : comp A) m (k : A → comp B) (f : A → option B) s :
  settles c m →
  (∀ a, match (exec (k a) s).1 with Ok b => f a = Some b | Throw e => f a = None ∧ e ≠ OutOfFuel end) →
  match (exec (c ≫= k) s).1 with Ok b => m ≫= f = Some b | Throw e => m ≫= f = None ∧ e ≠ OutOfFuel end.
Proof. destruct m as [a|]; cbn; [intros ->; intros Hk; apply Hk|by intros (message & span & ->)]. Qed.

Lemma find_forallb {A} (p : A → bool) l :
  match List.find (fun x => negb (p x)) l with Some _ => forallb p l = false | None => forallb p l = true end.
Proof. induction l as [|x l IH]; [done|]. cbn. by destruct (p x). Qed.

Lemma read_declaration_exec span argument_span file fields s :
  let files := sort_strings (add_to file (sourceFiles s)) in
  match (exec (read_declaration span argument_span file fields) s).1 with
  | Ok d => definition_of span file fields files = Some d
  | Throw e => definition_of span file fields files = None ∧ e ≠ OutOfFuel
  end.
Proof.
  intros files'. unfold read_declaration, definition_of.
  pose proof (find_forallb (fun key => mem key allowed_fields) (keys fields)) as Hk.
  destruct (List.find _ _); rewrite Hk; [done|]. clear Hk. unfold providers_field.
  assert (Hrest : ∀ v subject,
    match (exec (providers ← requiredArray (Some v) subject file;
        dependencies ← match assoc (js "dependencies") fields with
                       | None => Ret None
                       | Some v => Some <$> requiredObject v (js "dependencies") file
                       end;
        create ← optionalHandler (assoc (js "create") fields) (js "create") file;
        stop ← optionalHandler (assoc (js "stop") fields) (js "stop") file;
        files ← all_sourceFiles file;
        Ret {| ex_span := span; ex_config := assoc (js "config") fields; ex_dependencies := fromEntries <$> dependencies;
               ex_providers := providers; ex_create := create; ex_stop := stop; ex_sourceFiles := files |}) s).1 with
    | Ok d => definition_with span file fields v files' = Some d
    | Throw e => definition_with span file fields v files' = None ∧ e ≠ OutOfFuel
    end).
  { intros v subject. unfold definition_with. apply settles_exec; [apply settles_payload_array|]. intros providers.
    apply settles_exec; [apply settles_dependencies|]. intros dependencies.
    apply settles_exec; [apply settles_handler|]. intros create.
    apply settles_exec; [apply settles_handler|]. intros stop. done. }
  destruct (assoc (js "provides") fields) as [v|] eqn:E1, (assoc (js "providers") fields) as [v'|] eqn:E2;
    cbn -[requiredArray]; [done| | |done]; apply Hrest.
Qed.

(** The fields of the declaration object of the default export. *)
Definition export_fields (fuel : nat) (callee argument : expression) : comp (list (jsstr * built)) :=
  m ← await (meaning fuel callee);
  match m with
  | Some MeansPlugin => await (object (value fuel) true argument)
  | _ => throw (js "default export must call the generic definePlugin export") (span_of callee)
  end.

Lemma agrees_export fuel callee argument : agrees _ (export_fields fuel callee argument) (denote_export fuel callee argument).
Proof.
  apply sim_then; [apply sim_await, (sim_meaning fuel fuel); apply agrees_aliases|].
  intros [[]|]; try apply sim_fails. apply sim_await, (sim_object _ _ (fun _ => True)); [|by apply Forall_true].
  intros e mode _. apply agrees_value.
Qed.

(** The default export of the module. *)
Definition exported (project : option Project) : option expression :=
  p ← project; source ← pj_source p; unwrap <$> default_export (sf_statements source).

(** Extraction ends as reading the fields does, and then as the fields say.  A failure is of
    the kind [E] where the module declares nothing, and else of the kind [F]. *)
Lemma extraction_outcome fuel entry project order (E F : extraction_error → Prop) :
  (∀ e, e ≠ OutOfFuel → E e) →
  (∀ callee, match exec (await (meaning fuel callee)) (start order) with (Throw e, _) => E e | _ => True end) →
  (∀ span callee argument,
     exported project = Some (CallExpression span callee [argument]) →
     match exec (export_fields fuel callee argument) (start order) with
     | (Ok fields, s) => ∃ D, adds D (start order) s ∧ denote_export fuel callee argument = Some (fields, D)
     | (Throw e, _) => denote_export fuel callee argument = None ∧ E e ∨ F e
     end) →
  match (exec (extractPluginDefinition fuel entry project) (start order)).1 with
  | Ok d => denote_definition fuel project = Some d
  | Throw e => denote_definition fuel project = None ∧ E e ∨ F e
  end.
Proof.
  intros HE Hm Hx. destruct project as [[[source|] [|d ds]]|]; cbn in *; try (left; auto). unfold extract_source.
  destruct (unwrap <$> default_export (sf_statements source)) as [e|]; [|left; auto].
  destruct e as [| | | | | | | | |span callee args| | | |]; try (left; by auto). rewrite exec_bind.
  destruct args as [|argument [|]].
  { specialize (Hm callee). destruct (exec _ _) as [[[[]|]|] ?]; cbn; left; auto. }
  2: { specialize (Hm callee). destruct (exec _ _) as [[[[]|]|] ?]; cbn; left; auto. }
  specialize (Hx span callee argument eq_refl). unfold export_fields in Hx. rewrite exec_bind in Hx.
  destruct (exec _ (start order)) as [[[[]|]|] s]; try (destruct Hx as [[-> ?]|]; [by left|by right]).
  rewrite exec_bind. destruct (exec _ s) as [[fields|] s']; [|destruct Hx as [[-> ?]|]; [by left|by right]].
  destruct Hx as (D & HD & ->).
  pose proof (read_declaration_exec span (span_of argument) (sf_name source) fields s') as Hr. cbn in Hr.
  rewrite (sourceFiles_sorted _ _ _ _ HD) in Hr by (apply HD; constructor).
  destruct (exec _ s') as [[]]; [exact Hr|left; naive_solver].
Qed.

Lemma export_exact fuel project order span callee argument :
  exported project = Some (CallExpression span callee [argument]) →
  match exec (export_fields fuel callee argument) (start order) with
  | (Ok fields, s) => ∃ D, adds D (start order) s ∧ denote_export fuel callee argument = Some (fields, D)
  | (Throw e, _) => denote_export fuel callee argument = None ∧ True ∨ cyclic e
  end.
Proof.
  intros _. pose proof (yields_exec _ _ _ (start order) (agrees_export fuel callee argument)) as Hx.
  destruct (exec _ _) as [[]]; [exact Hx|naive_solver].
Qed.

End soundness.
