(* ===== verification/ExtractOrder.v ===== *)
(** * Extraction in order, and out of order

    When concurrent arguments resume in order, every definition a module declares is
    extracted ([completes]): the set of active constants then holds only the constants
    being evaluated around an expression, and a constant with a meaning is not among its
    own.  In another order the set holds the constants of sibling arguments too, and the same
    module is refused. *)

From Stdlib Require Import ZArith SpecFloat.
From S2P Require Import Prelude JsValue Text Json Build Extract ExtractMeaning ExtractCorrect.

Local Open Scope Z_scope.

(** ** More fuel keeps a meaning *)

Definition keeps {A : Type} (m m' : option A) : Prop := ∀ a, m = Some a → m' = Some a.

Lemma keeps_refl {A : Type} (m : option A) : keeps m m.
Proof. by intros a. Qed.

Lemma keeps_none {A : Type} (m : option A) : keeps None m.
Proof. done. Qed.

Lemma keeps_bind {A B : Type} (m m' : static A) (f f' : A → static B) :
  keeps m m' → (∀ a, keeps (f a) (f' a)) → keeps (m ≫= f) (m' ≫= f').
Proof.
  intros Hm Hf b. destruct m as [[a d]|] eqn:E; [|done]. rewrite (Hm _ eq_refl). cbn.
  destruct (f a) as [[b' d']|] eqn:E'; [|done]. by rewrite (Hf a _ E').
Qed.

Lemma keeps_option_bind {A B : Type} (m m' : option A) (f : A → option B) :
  keeps m m' → keeps (m ≫= f) (m' ≫= f).
Proof. intros Hm b. destruct m as [a|] eqn:E; [|done]. by rewrite (Hm _ eq_refl). Qed.

Lemma keeps_certain {A : Type} (m m' : option A) : keeps m m' → keeps (certain m) (certain m').
Proof. intros Hm b. destruct m as [a|]; [|done]. by rewrite (Hm _ eq_refl). Qed.

Create HintDb keeps.
#[local] Hint Resolve keeps_refl keeps_none keeps_bind keeps_option_bind keeps_certain : keeps.

(** Both sides make the same case distinction. *)
Ltac keep :=
  repeat (first [ apply keeps_refl | apply keeps_none | solve [eauto with keeps]
                | apply keeps_bind; [|intros] | case_match ]).

Section fuel.
Context `{TypeScript}.

Lemma keeps_aliases n m x module_ seen :
  (m ≤ n)%nat → keeps (follow_aliases m x module_ seen) (follow_aliases n x module_ seen).
Proof.
  revert n x module_ seen. induction m as [|m IH]; intros [|n] x module_ seen Hn r; try lia; destruct x as [x|]; cbn;
    try done; repeat (case_match; try done); apply IH; lia.
Qed.

Section recursive.
Context (n m : nat) (den den' : expression → ValueMode → static built).
Context (Hn : (m ≤ n)%nat) (Hden : ∀ e mode, keeps (den e mode) (den' e mode)).

Local Hint Resolve keeps_aliases Hn Hden : keeps.

Lemma keeps_meaning e : keeps (denote_meaning m e) (denote_meaning n e).
Proof. unfold denote_meaning. keep. Qed.

Lemma keeps_constant_of e : keeps (constant_of m e) (constant_of n e).
Proof. unfold constant_of. keep. Qed.

Lemma keeps_handler e : keeps (denote_handler m e) (denote_handler n e).
Proof. unfold denote_handler. keep. Qed.

Lemma keeps_elements l : keeps (denote_elements den l) (denote_elements den' l).
Proof. induction l as [|[] l IH]; cbn [denote_elements]; keep. Qed.

Lemma keeps_properties modes file l :
  keeps (denote_properties den modes file l) (denote_properties den' modes file l).
Proof. induction l as [|[] l IH]; cbn [denote_properties denote_property]; keep. Qed.

Local Hint Resolve keeps_meaning keeps_constant_of keeps_elements keeps_properties : keeps.

Lemma keeps_object modes e : keeps (denote_object den modes e) (denote_object den' modes e).
Proof. unfold denote_object. keep. Qed.

Lemma keeps_arguments (f : nat → ValueMode) l :
  keeps (static_all (imap (fun i e => den e (f i)) l)) (static_all (imap (fun i e => den' e (f i)) l)).
Proof.
  revert f. induction l as [|e l IH]; intros f; cbn [imap static_all]; [keep|].
  apply keeps_bind; [done|]. intros a. apply keeps_bind; [apply (IH (f ∘ S))|]. keep.
Qed.

Lemma keeps_declaration span callee args :
  keeps (denote_declaration m den span callee args) (denote_declaration n den' span callee args).
Proof. unfold denote_declaration. keep. apply keeps_arguments. Qed.

Local Hint Resolve keeps_object keeps_declaration : keeps.

Lemma keeps_value_of e : keeps (denote_value m den e) (denote_value n den' e).
Proof. destruct e; cbn [denote_value]; keep. unfold denote_call. keep. Qed.
End recursive.

Lemma keeps_denote n m e mode : (m ≤ n)%nat → keeps (denote m e mode) (denote n e mode).
Proof.
  revert n e mode. induction m as [|m IH]; intros n e mode Hn; [apply keeps_none|]. destruct n as [|n]; [lia|].
  cbn [denote]. apply keeps_bind; [apply keeps_refl|]. intros [].
  destruct mode; [apply keeps_value_of; [lia|]|apply keeps_certain, keeps_handler; lia].
  intros e' mode'. apply IH. lia.
Qed.
End fuel.

(** ** Running in order *)

(** The initializer of a constant. *)
Definition initializer_of `{TypeScript} (x : symbol) : option expression :=
  d ← valueDeclaration x; match rs_node d with VariableDeclaration _ true (Some e) => Some e | _ => None end.

Lemma deactivate_last x A s : x ∉ A → active s = A ++ [x] → active (deactivate x s) = A.
Proof.
  intros Hx E. cbn. rewrite E. clear E. induction A as [|y A IH]; cbn [app].
  - rewrite filter_cons_False by naive_solver. done.
  - apply not_elem_of_cons in Hx as [Hy Hx]. rewrite filter_cons_True by done. by rewrite IH.
Qed.

(** Resumed in order from [A] as the active constants, a computation returns what [Q]
    says with [A0] active, or fails as [F] says; before its first wait ([started] is false)
    it leaves the active constants alone. *)
Section order.
Context (F : extraction_error → Prop).

Fixpoint safe {T} (A0 : list symbol) (started : bool) (A : list symbol) (c : comp T) (Q : T → Prop) : Prop :=
  match c with
  | Ret a => A = A0 ∧ Q a
  | Fails e => F e
  | Wait c => safe A0 true A c Q
  | Eff g f => ∀ s, active s = A → schedule s = [] →
      schedule (g s) = [] ∧ (started = false → active (g s) = A) ∧ safe A0 started (active (g s)) (f s) Q
  end.

Lemma safe_started {T} A0 A (c : comp T) Q : safe A0 false A c Q → safe A0 true A c Q.
Proof.
  revert A. induction c as [a|e|g f IH|c IH]; intros A Hc; cbn in *; [done..| |done].
  intros s HA Hs. destruct (Hc s HA Hs) as (Hg & _ & Hf). split_and!; [done|done|eauto].
Qed.

Lemma safe_any {T} A0 b A (c : comp T) Q : safe A0 false A c Q → safe A0 b A c Q.
Proof. destruct b; [apply safe_started|done]. Qed.

Lemma safe_mono {T} A0 b A (c : comp T) (Q Q' : T → Prop) :
  safe A0 b A c Q → (∀ a, Q a → Q' a) → safe A0 b A c Q'.
Proof.
  intros Hc HQ. revert b A Hc. induction c as [a|e|g f IH|c IH]; intros b A Hc; cbn in *; [naive_solver|done| |eauto].
  intros s HA Hs. destruct (Hc s HA Hs) as (Hg & Hb & Hf). eauto.
Qed.

Lemma safe_bind {T U} A0 b A (c : comp T) (k : T → comp U) Q Q' :
  safe A0 b A c Q → (∀ a, Q a → safe A0 false A0 (k a) Q') → safe A0 b A (comp_then k c) Q'.
Proof.
  intros Hc Hk. revert b A Hc. induction c as [a|e|g f IH|c IH]; intros b A Hc; cbn in *; [|done| |by apply IH].
  - destruct Hc as [-> Ha]. by apply safe_any, Hk.
  - intros s HA Hs. destruct (Hc s HA Hs) as (Hg & Hb & Hf). eauto.
Qed.

Lemma safe_finally {T} A0 A1 b A u (c : comp T) Q :
  (∀ s, active s = A1 → active (u s) = A0) → (∀ s, schedule (u s) = schedule s) →
  safe A1 b A c Q → safe A0 true A (finally u c) Q.
Proof.
  intros Hu Hsu. revert b A. induction c as [a|e|g f IH|c IH]; intros b A Hc; cbn in *; [| | |by eapply IH].
  - destruct Hc as [-> Ha]. intros s HA Hs. rewrite Hsu, Hu by done. done.
  - intros s HA Hs. rewrite Hsu. done.
  - intros s HA Hs. destruct (Hc s HA Hs) as (Hg & _ & Hf). split_and!; [done|done|eauto].
Qed.

Lemma safe_exec {T} A0 b A (c : comp T) Q s :
  safe A0 b A c Q → active s = A → schedule s = [] →
  match exec c s with (Ok a, s') => Q a ∧ active s' = A0 ∧ schedule s' = [] | (Throw e, _) => F e end.
Proof.
  revert b A s. induction c as [a|e|g f IH|c IH]; intros b A s Hc HA Hs; cbn in *; [|done| |by eapply IH].
  - by destruct Hc as [-> Ha].
  - destruct (Hc s HA Hs) as (Hg & _ & Hf). by eapply IH.
Qed.

(** A computation that has run up to a wait, or ended. *)
Definition parked {T} (c : comp T) : Prop := match c with Eff _ _ => False | _ => True end.

Section interleaving.
Context {T U : Type} (A0 : list symbol) (P : T → Prop) (Q : U → Prop).

Abbreviation PQ := (fun p : T * U => P p.1 ∧ Q p.2).

Lemma safe_last b A a (c' : comp U) : P a → safe A0 b A c' Q → safe A0 b A (interleave (Ret a) c') PQ.
Proof.
  intros Ha. revert b A. induction c' as [u|e|g f IH|c' IH]; intros b A Hc; cbn in *; [|done| |by apply IH].
  - by destruct Hc.
  - intros s HA Hs. destruct (Hc s HA Hs) as (Hg & Hb & Hf). eauto.
Qed.

(** The first of two goes on to its end, then the second. *)
Lemma safe_first A (c : comp T) (c' : comp U) :
  safe A0 true A c P → safe A0 true A0 c' Q → parked c' → safe A0 true A (interleave c c') PQ.
Proof.
  intros Hc Hc' Hp. revert A Hc. induction c as [a|e|g f IH|c IH]; intros A Hc.
  - destruct Hc as [-> Ha]. by apply safe_last.
  - by destruct c'.
  - assert (Hg : ∀ s, active s = A → schedule s = [] → schedule (g s) = [] ∧ (true = false → active (g s) = A) ∧
      safe A0 true (active (g s)) (interleave (f s) c') PQ).
    { intros s HA Hs. destruct (Hc s HA Hs) as (Hg & _ & Hf). split_and!; [done|done|eauto]. }
    by destruct c'.
  - destruct c' as [u| | |c']; try done; [by apply IH|]. intros s HA Hs. cbn. unfold next_choice. rewrite Hs.
    split; [done|]. split; [done|]. rewrite HA. by apply IH.
Qed.

Lemma safe_second (c : comp T) (c' : comp U) :
  safe A0 true A0 c P → parked c → safe A0 false A0 c' Q → safe A0 false A0 (interleave c c') PQ.
Proof.
  intros Hc Hp. destruct c as [a|e| |c]; try done; [by apply safe_last, Hc|..];
    induction c' as [u|e'|g f IH|c' IH]; intros Hc'; try done.
  - intros s HA Hs. destruct (Hc' s HA Hs) as (Hg & Hb & Hf). cbn. rewrite (Hb eq_refl) in *. eauto.
  - by apply (safe_first _ c (Ret u)).
  - intros s HA Hs. destruct (Hc' s HA Hs) as (Hg & Hb & Hf). cbn. rewrite (Hb eq_refl) in *. eauto.
  - intros s HA Hs. cbn. unfold next_choice. rewrite Hs, HA. split; [done|]. split; [done|].
    by apply (safe_first _ c (Wait c')).
Qed.

Lemma safe_interleave (c : comp T) (c' : comp U) :
  safe A0 false A0 c P → safe A0 false A0 c' Q → safe A0 false A0 (interleave c c') PQ.
Proof.
  intros Hc Hc'. induction c as [a|e|g f IH|c IH];
    [by apply safe_last; [apply Hc|]|by apply safe_second| |by apply safe_second].
  assert (Hg : ∀ s, active s = A0 → schedule s = [] → schedule (g s) = [] ∧ (false = false → active (g s) = A0) ∧
    safe A0 false (active (g s)) (interleave (f s) c') PQ).
  { intros s HA Hs. destruct (Hc s HA Hs) as (Hg & Hb & Hf). rewrite (Hb eq_refl) in *. eauto. }
  by destruct c'.
Qed.
End interleaving.

(** Evaluating a constant: its symbol is active meanwhile, and was not before. *)
Lemma safe_constant `{TypeScript} A n v e x module_ init Q :
  follow_aliases n (symbolFor e) None [] = Some (Some (x, module_)) → initializer_of x = Some init → x ∉ A →
  safe (A ++ [x]) false (A ++ [x]) (await (v init DeclarationMode)) Q → safe A false A (constant n v e) Q.
Proof.
  intros Ef Ei Hx Hv. unfold constant, aliases. rewrite Ef. intros s HA Hs. cbn. rewrite HA, bool_decide_false by done.
  split_and!; [done..|]. unfold initializer_of in Ei. destruct (valueDeclaration x) as [d|]; [|done]. cbn in Ei |- *.
  destruct (rs_node d) as [span [] [i|]| | |]; try done. injection Ei as ->. intros s' HA' Hs'.
  split_and!; [done..|]. cbn. rewrite HA'. unfold add_to. rewrite bool_decide_false by done.
  eapply safe_finally; [by intros s'' HA''; apply deactivate_last|done|exact Hv].
Qed.
End order.

Definition completes (A : list symbol) T (c : comp T) (m : static T) : Prop :=
  ∀ a D, m = Some (a, D) → safe (fun _ => False) A false A c (fun x => x = a).

#[export] Instance completes_simulation A : Simulation (completes A).
Proof.
  split; unfold completes.
  - by intros T a b D [= -> _].
  - done.
  - intros T c m Hc a D E. apply safe_started. eauto.
  - intros file [] D _ s HA Hs. cbn. done.
  - intros T U c m k f Hc Hk b D E. destruct m as [[a d]|]; [|done]. cbn in E.
    destruct (f a) as [[b' d']|] eqn:Ef; [|done]. injection E as -> _.
    eapply safe_bind; [by eapply Hc|]. intros x ->. by eapply Hk.
  - intros T U c c' m m' Hc Hc' [a b] D E. destruct m as [[a' d]|]; [|done]. destruct m' as [[b' d']|]; [|done].
    cbn in E. injection E as -> -> _. eapply safe_mono; [apply safe_interleave; [by eapply Hc|by eapply Hc']|].
    by intros [x y] [[= ->] [= ->]].
Qed.

Section completeness.
Context `{TypeScript}.

(** The active constants have no meaning with less fuel than [m]. *)
Definition outside (A : list symbol) (m : nat) : Prop :=
  ∀ x init k, x ∈ A → initializer_of x = Some init → (k < m)%nat → denote k init DeclarationMode = None.

Lemma least_meaning m e mode r :
  denote m e mode = Some r →
  ∃ k, (k ≤ m)%nat ∧ denote k e mode = Some r ∧ ∀ j, (j < k)%nat → denote j e mode = None.
Proof.
  revert r. induction m as [|m IH]; intros r E; [done|].
  destruct (denote m e mode) as [r'|] eqn:Em.
  - destruct (IH r' eq_refl) as (k & Hk & Ek & Hmin). exists k. split_and!; [lia| |done].
    rewrite <-E, Ek. symmetry. by apply (keeps_denote (S m) k e mode ltac:(lia)).
  - exists (S m). split_and!; [lia|done|]. intros j Hj. destruct (denote j e mode) as [r'|] eqn:Ej; [|done].
    by rewrite (keeps_denote m j e mode ltac:(lia) r' Ej) in Em.
Qed.

Lemma completes_aliases A n m x : (m ≤ n)%nat → completes A _ (aliases n x) (certain (follow_aliases m x None [])).
Proof.
  intros Hn. unfold aliases. intros r D E. destruct (follow_aliases m x None []) as [o|] eqn:Ef; [|done].
  rewrite (keeps_aliases n m x None [] Hn o Ef). cbn in *. by injection E as ->.
Qed.

Lemma constant_of_inv m e x init :
  constant_of m e = Some (x, init) →
  ∃ module_, follow_aliases m (symbolFor e) None [] = Some (Some (x, module_)) ∧ initializer_of x = Some init.
Proof.
  unfold constant_of. destruct (follow_aliases m (symbolFor e) None []) as [[[y module_]|]|]; cbn; try done.
  unfold initializer_of. destruct (valueDeclaration y) as [d|] eqn:Ed; [|done]. cbn.
  destruct (rs_node d) as [span [] [i|]| | |] eqn:En; try done. intros [= -> ->]. exists module_. split; [done|].
  rewrite Ed. cbn. by rewrite En.
Qed.

Lemma completes_constant A n m v den e :
  (m ≤ n)%nat →
  (∀ x init, constant_of m e = Some (x, init) → x ∉ A ∨ den init DeclarationMode = None) →
  (∀ x init, constant_of m e = Some (x, init) → x ∉ A →
     completes (A ++ [x]) _ (v init DeclarationMode) (den init DeclarationMode)) →
  completes A _ (constant n v e) (c ← certain (constant_of m e); den c.2 DeclarationMode).
Proof.
  intros Hn Hout Hv a D. rewrite certain_bind. destruct (constant_of m e) as [[x init]|] eqn:Ec; [|done]. cbn [snd]. intros E.
  destruct (Hout x init eq_refl) as [Hx|Hx]; [|congruence]. specialize (Hv x init eq_refl Hx).
  apply constant_of_inv in Ec as (module_ & Ef & Ei). eapply safe_constant; [|done..|].
  - by apply (keeps_aliases n m _ _ _ Hn).
  - by eapply (sim_await (R := completes (A ++ [x]))).
Qed.

Lemma completes_value m n e mode A :
  (m ≤ n)%nat → outside A m → completes A _ (value n e mode) (denote m e mode).
Proof.
  revert n e mode A. induction m as [m IH] using lt_wf_ind. intros n e mode A Hn Hout.
  destruct m as [|m]; [done|]. destruct n as [|n]; [lia|].
  assert (Ha : ∀ x, asked x → completes A _ (aliases n x) (certain (follow_aliases m x None [])))
    by (intros x _; apply completes_aliases; lia).
  apply sim_value; [done|]. apply sim_value_of with (ok := fun _ => True); [done| | |by apply Forall_true].
  - intros e' mode' _. apply IH; [lia..|]. intros x init k Hx Hi Hk. eapply Hout; [done..|lia].
  - intros e'. apply completes_constant; [lia| |].
    + intros x init (module_ & _ & Hi)%constant_of_inv. destruct (decide (x ∈ A)) as [Hx|Hx]; [|by left].
      right. eapply Hout; [done..|lia].
    + intros x init (module_ & _ & Hi)%constant_of_inv Hx a D E.
      destruct (least_meaning _ _ _ _ E) as (k & Hk & Ek & Hmin). eapply (IH k); [lia..| |exact Ek].
      intros y init' j Hy Hi' Hj. apply elem_of_app in Hy as [Hy| ->%list_elem_of_singleton].
      * eapply Hout; [done..|lia].
      * rewrite Hi in Hi'. injection Hi' as <-. by apply Hmin.
Qed.

Lemma export_in_order fuel callee argument :
  match exec (export_fields fuel callee argument) (start []) with
  | (Ok fields, s) => ∃ D, adds D (start []) s ∧ denote_export fuel callee argument = Some (fields, D)
  | (Throw e, _) => denote_export fuel callee argument = None ∧ True ∨ False
  end.
Proof.
  pose proof (yields_exec _ _ _ (start []) (agrees_export fuel callee argument)) as Hx.
  destruct (denote_export fuel callee argument) as [[fields D]|] eqn:E; [|by destruct (exec _ _) as [[]]; [|left]].
  assert (Hc : completes [] _ (export_fields fuel callee argument) (denote_export fuel callee argument)).
  { apply sim_then; [apply sim_await, (sim_meaning fuel fuel); intros x _; by apply completes_aliases|].
    intros [[]|]; try apply sim_fails. apply sim_await, (sim_object _ _ (fun _ => True)); [|by apply Forall_true]. intros e mode _.
    apply completes_value; [done|]. by intros x init k Hx'%elem_of_nil. }
  pose proof (safe_exec _ _ _ _ _ _ (start []) (Hc fields D E) eq_refl eq_refl) as Ha.
  destruct (exec _ _) as [[a|]]; [exact Hx|done].
Qed.

(** When concurrent arguments resume in order, every definition a module declares is
    extracted. *)
Theorem extraction_complete fuel entry project d :
  denote_definition fuel project = Some d →
  (exec (extractPluginDefinition fuel entry project) (start [])).1 = Ok d.
Proof.
  intros E. opose proof* (extraction_outcome fuel entry project [] (fun _ => True) (fun _ => False)) as Hx; [done|..].
  { intros callee. by destruct (exec _ _) as [[]]. }
  { intros span callee argument _. apply export_in_order. }
  destruct (exec (extractPluginDefinition fuel entry project) _) as [[d'|e] s]; cbn in *; [congruence|].
  destruct Hx as [[Hx _]|[]]. congruence.
Qed.
End completeness.

(** ** A module, in two orders *)

Module Demo.

Definition at_ (position : Z) : SourceSpan := {| span_file := js "plugin.ts"; span_start := position; span_end := position + 1 |}.

Definition name_at (position : Z) : expression := Identifier (at_ position) false.

(** [const shared = base(base(base("a")));] *)
Definition shared_initializer : expression :=
  CallExpression (at_ 10) (name_at 11)
    [CallExpression (at_ 12) (name_at 13) [CallExpression (at_ 14) (name_at 15) [StringLiteral (at_ 16) (js "a")]]].

(** [export default definePlugin({ provides: [join(shared, base(shared))] });] *)
Definition shared_twice : SourceFile := {|
  sf_name := js "plugin.ts";
  sf_statements := [OtherStatement; ExportAssignment false
    (CallExpression (at_ 20) (name_at 21) [ObjectLiteral (at_ 22)
      [PropertyAssignment (at_ 23) (Named (js "provides")) (ArrayLiteral (at_ 24)
        [Element (CallExpression (at_ 25) (name_at 26)
          [name_at 27; CallExpression (at_ 28) (name_at 29) [name_at 30]])])]])] |}.

Definition declared (node : declaration_node) : resolved := {| rs_node := node; rs_ancestors := [OtherAncestor] |}.

(** The symbols of [definePlugin], [join], [base] and [shared]. *)
#[local] Instance checker : TypeScript := {|
  getSymbolAtLocation span :=
    if bool_decide (span_start span = 21) then Some 0%nat
    else if bool_decide (span_start span = 26) then Some 1%nat
    else if bool_decide (span_start span ∈ [11; 13; 15; 29]) then Some 2%nat
    else if bool_decide (span_start span ∈ [27; 30]) then Some 3%nat else None;
  getShorthandAssignmentValueSymbol _ := None;
  is_alias _ := false;
  getAliasedSymbol x := x;
  isUnknownSymbol _ := false;
  symbol_name x := js (match x with 0 => "definePlugin" | 1 => "join" | 2 => "base" | _ => "shared" end)%nat;
  valueDeclaration x := Some (declared (match x with
    | 3 => VariableDeclaration (at_ 9) true (Some shared_initializer)
    | _ => FunctionDeclaration {| span_file := js "sdk.ts"; span_start := 0; span_end := 1 |} end)%nat);
  declarations _ := [];
  source_span file := {| span_file := file; span_start := 0; span_end := 100 |};
  classifySymbol origin :=
    if bool_decide (so_name origin = js "definePlugin") then Some MeansPlugin
    else if bool_decide (so_name origin = js "shared") then None
    else Some (MeansDeclaration {| pkg_name := js "sdk"; pkg_version := js "1.0.0"; pkg_integrity := js "sha256:0" |} (so_name origin) []) |}.

Definition project : option Project := Some {| pj_source := Some shared_twice; pj_diagnostics := [] |}.

(** What extraction ends with in an order: the files read, or the error. *)
Definition run (order : list bool) := (exec (extractPluginDefinition 9 (js "plugin.ts") project) (start order)).1.

(** The two arguments of [join] resume in turn. *)
Definition alternating : list bool := concat (replicate 30 [true; false]).

(** A constant that two arguments of a call share: in order the definition is
    extracted, and when the arguments resume in turn the second is refused as cyclic. *)
Theorem shared_constant_refused :
  (∃ d, denote_definition 9 project = Some d ∧ run [] = Ok d) ∧
  run alternating = Throw (DeclarationExtractionError (js "cyclic declaration constant") (at_ 30)).
Proof.
  split; [|vm_compute; reflexivity].
  destruct (run []) as [d|e] eqn:E; [|exfalso; revert E; vm_compute; discriminate].
  exists d. split; [|reflexivity]. revert E. vm_compute. intros E. injection E as <-. reflexivity.
Qed.

Lemma extraction_complete_witness :
  match denote_definition 9 project with
  | Some d => (exec (extractPluginDefinition 9 (js "plugin.ts") project) (start [])).1 = Ok d
  | None => False
  end.
Proof.
  destruct (denote_definition 9 project) as [d|] eqn:E.
  - apply extraction_complete. exact E.
  - revert E. vm_compute. discriminate.
Defined.
End Demo.
