(* ===== verification/ExtractEnds.v ===== *)
(** * Extraction ends in every order

    The evaluator looks whether a constant is active, waits, and only then makes it active; so
    in some orders one argument drops a constant from the set while another is still inside it.
    Extraction ends nevertheless ([lives]): only a constant that has a meaning is ever dropped
    before a failure, a constant without a meaning that is being evaluated stays active until
    then, and a constant with a meaning never leads to itself. *)

From Stdlib Require Import ZArith SpecFloat.
From S2P Require Import Prelude JsValue Text Json Build Extract ExtractMeaning ExtractCorrect ExtractOrder.

Local Open Scope Z_scope.

(** ** Computations under interference *)

Section lives.
Context (N : symbol → Prop) (F : extraction_error → Prop).

(** Every constant of [A] that has no meaning is active. *)
Definition holds (A : list symbol) (s : store) : Prop := ∀ x, x ∈ A → N x → x ∈ active s.

(** The constants without a meaning that are active stay so. *)
Definition guards (s s' : store) : Prop := ∀ x, N x → x ∈ active s → x ∈ active s'.

(** Fails before the next wait, whatever the store. *)
Fixpoint doomed {T} (c : comp T) : Prop :=
  match c with
  | Ret _ | Wait _ => False
  | Fails e => F e
  | Eff g f => ∀ s, doomed (f s)
  end.

(** Whatever others do to the store between two effects, as long as the constants [A] of this
    computation hold, it returns what [Q] says or fails as [F] says, and guards the constants
    without a meaning until it is doomed. *)
Fixpoint lives {T} (A : list symbol) (c : comp T) (Q : T → Prop) : Prop :=
  match c with
  | Ret a => Q a
  | Fails e => F e
  | Wait c => lives A c Q
  | Eff g f => ∀ s, holds A s →
      doomed (f s) ∨ guards s (g s) ∧ ∃ A', A ⊆ A' ∧ holds A' (g s) ∧ lives A' (f s) Q
  end.

Lemma holds_app A B s : holds (A ++ B) s ↔ holds A s ∧ holds B s.
Proof.
  split; [intros Hh; split; intros x Hx; apply Hh, elem_of_app; auto|].
  intros [HA HB] x [Hx|Hx]%elem_of_app; auto.
Qed.

Lemma holds_guards A s s' : guards s s' → holds A s → holds A s'.
Proof. intros Hg Hh x Hx HN. by apply Hg, Hh. Qed.

Lemma lives_mono {T} A A' (c : comp T) (Q Q' : T → Prop) :
  lives A c Q → A ⊆ A' → (∀ a, Q a → Q' a) → lives A' c Q'.
Proof.
  intros Hc HA HQ. revert A A' Hc HA. induction c as [a|e|g f IH|c IH]; intros A A' Hc HA; cbn in *; [auto|done| |eauto].
  intros s Hs. destruct (Hc s) as [Hd|(Hg & A1 & H1 & Hh & Hf)]; [by intros x Hx; apply Hs, HA|by left|].
  right. split; [done|]. exists (A1 ++ A'). split; [set_solver|]. split; [|eapply IH; [done|set_solver]].
  apply holds_app. split; [done|by eapply holds_guards].
Qed.

Lemma doomed_bind {T U} (c : comp T) (k : T → comp U) : doomed c → doomed (comp_then k c).
Proof. induction c as [a|e|g f IH|c IH]; cbn; auto; done. Qed.

Lemma doomed_finally {T} u (c : comp T) : doomed c → doomed (finally u c).
Proof. induction c as [a|e|g f IH|c IH]; cbn; auto; done. Qed.

Lemma lives_bind {T U} A0 A (c : comp T) (k : T → comp U) Q Q' :
  lives A c Q → A0 ⊆ A → (∀ a, Q a → lives A0 (k a) Q') → lives A (comp_then k c) Q'.
Proof.
  intros Hc HA Hk. revert A HA Hc. induction c as [a|e|g f IH|c IH]; intros A HA Hc; cbn in *; [|done| |by apply IH].
  - eapply lives_mono; [by apply Hk|done|done].
  - intros s Hs. destruct (Hc s Hs) as [Hd|(Hg & A1 & H1 & Hh & Hf)]; [left; by apply doomed_bind|]. right.
    split; [done|]. exists A1. split_and!; [done|done|]. apply IH; [set_solver|done].
Qed.

(** What is dropped at the end has a meaning by then; after a failure it does not matter. *)
Lemma lives_finally {T} A u (c : comp T) Q :
  (∀ a s, Q a → guards s (u s)) → lives A c Q → lives A (finally u c) Q.
Proof.
  intros Hu. revert A. induction c as [a|e|g f IH|c IH]; intros A Hc; cbn in *; [| | |by apply IH].
  - intros s Hs. right. split; [by eapply Hu|]. exists A. split_and!; [done| |done]. eapply holds_guards; [by eapply Hu|done].
  - intros s Hs. by left.
  - intros s Hs. destruct (Hc s Hs) as [Hd|(Hg & A1 & H1 & Hh & Hf)]; [left; by apply doomed_finally|]. right.
    split; [done|]. exists A1. split_and!; [done|done|]. by apply IH.
Qed.

(** What holds of every result holds of the result here. *)
Lemma lives_yields {T} (A : list symbol) (c : comp T) (Q : T → Prop) (P : T → gset jsstr → Prop) (G : extraction_error → Prop) :
  lives A c Q → yields c P G → lives A c (fun a => Q a ∧ ∃ D, P a D).
Proof.
  revert A P. induction c as [a|e|g f IH|c IH]; intros A P Hc Hy; cbn in *; [by eauto|done| |by eauto].
  intros s Hs. destruct (Hc s Hs) as [Hd|(Hg & A1 & H1 & Hh & Hf)]; [by left|]. right. split; [done|].
  exists A1. split_and!; [done|done|]. destruct (Hy s) as (d & _ & Hy').
  eapply lives_mono; [by eapply IH|done|]. intros a [Ha [D HD]]. eauto.
Qed.

Lemma doomed_exec {T} (c : comp T) s : doomed c → ∃ e s', exec c s = (Throw e, s') ∧ F e.
Proof. revert s. induction c as [a|e|g f IH|c IH]; intros s Hc; cbn in *; [done|eauto|eauto|done]. Qed.

Lemma lives_exec {T} A (c : comp T) Q s :
  lives A c Q → holds A s → match exec c s with (Ok a, _) => Q a | (Throw e, _) => F e end.
Proof.
  revert A s. induction c as [a|e|g f IH|c IH]; intros A s Hc Hs; cbn in *; [done|done| |by eapply IH].
  destruct (Hc s Hs) as [(e & s' & -> & He)%(fun H => doomed_exec _ (g s) H)|(Hg & A1 & _ & Hh & Hf)]; [done|].
  by eapply IH.
Qed.

(** ** Two at once *)

Section interleaving.
Context {T U : Type} (P : T → Prop) (Q : U → Prop).

Abbreviation PQ := (fun p : T * U => P p.1 ∧ Q p.2).

Lemma doomed_first e (c' : comp U) : F e → doomed (interleave (Fails e : comp T) c').
Proof. intros He. induction c' as [u|e'|g f IH|c' IH]; cbn; auto. Qed.

Lemma doomed_left (c : comp T) (c' : comp U) : doomed c → doomed (interleave c c').
Proof.
  revert c'. induction c as [a|e|g f IH|c IH]; intros c' Hc; [done|by apply doomed_first| |done].
  assert (∀ s, doomed (interleave (f s) c')) as Hf by (intros s; by apply IH). by destruct c'.
Qed.

Lemma doomed_right (c : comp T) (c' : comp U) A :
  parked c → lives A c P → doomed c' → doomed (interleave c c').
Proof.
  intros Hp Hc. induction c' as [u|e'|g f IH|c' IH]; intros Hc'; [done| | |done].
  - by destruct c.
  - destruct c; try done; intros s; by apply IH.
Qed.

Lemma lives_interleave (c : comp T) (c' : comp U) A B :
  lives A c P → lives B c' Q → lives (A ++ B) (interleave c c') PQ.
Proof.
  revert c' A B. induction c as [a|e|g f IH|c IH].
  - intros c' A B Hc. revert B. induction c' as [u|e'|g f IH|c' IH]; intros B Hc'; [done|done| |by apply IH].
    intros s [HA HB]%holds_app. destruct (Hc' s HB) as [Hd|(Hg & B1 & H1 & Hh & Hf)].
    { left. by apply (doomed_right (Ret a) (f s) A). }
    right. split; [done|]. exists (A ++ B1). split_and!; [set_solver| |by apply IH].
    apply holds_app. split; [by eapply holds_guards|done].
  - intros c' A B Hc Hc'. pose proof (doomed_first e c' Hc) as Hd. destruct c' as [u|e'|g f|c']; try done.
    intros s Hs. left. apply Hd.
  - intros c' A B Hc Hc'. assert (Hs : ∀ s, holds (A ++ B) s → doomed (interleave (f s) c') ∨ guards s (g s) ∧
      ∃ A', A ++ B ⊆ A' ∧ holds A' (g s) ∧ lives A' (interleave (f s) c') PQ); [|by destruct c'].
    intros s [HA HB]%holds_app. destruct (Hc s HA) as [Hd|(Hg & A1 & H1 & Hh & Hf)]; [left; by apply doomed_left|].
    right. split; [done|]. exists (A1 ++ B). split_and!; [set_solver| |by apply IH].
    apply holds_app. split; [done|by eapply holds_guards].
  - intros c' A B Hc. revert B. induction c' as [u|e'|g f IH'|c' IH']; intros B Hc'; [by apply (IH (Ret u))|done| |].
    + intros s [HA HB]%holds_app. destruct (Hc' s HB) as [Hd|(Hg & B1 & H1 & Hh & Hf)].
      { left. by apply (doomed_right (Wait c) (f s) A). }
      right. split; [done|]. exists (A ++ B1). split_and!; [set_solver| |by apply IH'].
      apply holds_app. split; [by eapply holds_guards|done].
    + intros s Hs. right. split; [by intros x|]. exists (A ++ B). split_and!; [done|exact Hs|].
      destruct (next_choice s); [by apply (IH (Wait c'))|by apply IH'].
Qed.
End interleaving.
End lives.

(** ** Enough fuel *)

Fixpoint depth (e : expression) : nat :=
  match e with
  | Wrapped _ e => S (depth e)
  | ArrayLiteral _ l => S (max_list (map element_depth l))
  | ObjectLiteral _ l => S (max_list (map property_depth l))
  | CallExpression _ _ l => S (max_list (map depth l))
  | _ => 1
  end%nat
with element_depth (x : element) : nat := match x with Element e | SpreadElement _ e => depth e end
with property_depth (p : property) : nat :=
  match p with
  | SpreadAssignment _ e | PropertyAssignment _ _ e => depth e
  | ShorthandAssignment _ _ => 1
  | _ => 0
  end%nat.

Lemma depth_positive e : (0 < depth e)%nat.
Proof. destruct e; cbn; lia. Qed.

Lemma depth_unwrap e : (depth (unwrap e) ≤ depth e)%nat.
Proof. induction e; cbn [unwrap]; try done. cbn [depth]. lia. Qed.

Lemma parts_depth e : Forall (fun e' => depth e' < depth e)%nat (parts e).
Proof.
  apply Forall_forall. intros e' He'.
  destruct e; try by apply elem_of_nil in He'; cbn [depth parts] in *.
  - apply list_elem_of_fmap in He' as (x & -> & Hx). apply Nat.lt_succ_r, max_list_elem_of_le.
    apply list_elem_of_fmap. exists x. split; [by destruct x|done].
  - apply list_elem_of_omap in He' as (x & Hx & E). apply Nat.lt_succ_r, max_list_elem_of_le.
    apply list_elem_of_fmap. exists x. split; [|done]. destruct x; cbn in E; by simplify_eq.
  - apply Nat.lt_succ_r, max_list_elem_of_le, list_elem_of_fmap. eauto.
Qed.

Lemma object_parts_depth e : Forall (fun e' => depth e' ≤ depth e)%nat (object_parts (unwrap e)).
Proof.
  pose proof (parts_depth (unwrap e)) as Hp. pose proof (depth_unwrap e).
  assert (Hs : Forall (fun e' => depth e' ≤ depth e)%nat [unwrap e]) by (repeat constructor; lia).
  destruct (unwrap e); try exact Hs. eapply Forall_impl; [exact Hp|]. intros x Hx. cbv beta in *. lia.
Qed.

Section termination.
Context `{TypeScript}.

(** The symbols of the program: those of its names, and those they are aliases of. *)
Definition symbols_of_program (U : list symbol) : Prop :=
  (∀ span x, getSymbolAtLocation span = Some x → x ∈ U) ∧
  (∀ span x, getShorthandAssignmentValueSymbol span = Some x → x ∈ U) ∧
  (∀ x, x ∈ U → getAliasedSymbol x ∈ U).

(** The deepest initializer of a constant. *)
Definition weight (U : list symbol) : nat := max_list (map (fun x => from_option depth 0%nat (initializer_of x)) U).

Lemma weight_ge U x init : x ∈ U → initializer_of x = Some init → (depth init ≤ weight U)%nat.
Proof. intros Hx E. apply max_list_elem_of_le, list_elem_of_fmap. exists x. by rewrite E. Qed.

Context (U : list symbol) (HU : symbols_of_program U).

Lemma aliases_end fuel x module_ seen :
  (∀ y, x = Some y → y ∈ U) → NoDup seen → seen ⊆ U → (length U ≤ fuel + length seen)%nat →
  ∃ r, follow_aliases fuel x module_ seen = Some r ∧ ∀ y m, r = Some (y, m) → y ∈ U.
Proof.
  revert x module_ seen. induction fuel as [|fuel IH]; intros [x|] module_ seen Hx Hnd Hsub Hlen;
    cbn [follow_aliases]; try (by exists None; split).
  - destruct (is_alias x); cbn [negb]; [|naive_solver]. case_bool_decide as Hin; [by exists None; split|]. exfalso.
    assert (Hle : (length (x :: seen) ≤ length U)%nat); [|cbn in Hle; lia].
    apply submseteq_length, NoDup_submseteq; [by constructor|]. intros y [->|Hy]%elem_of_cons; [by apply Hx|by apply Hsub].
  - destruct (is_alias x); cbn [negb]; [|naive_solver]. case_bool_decide as Hin; [by exists None; split|].
    destruct (isUnknownSymbol (getAliasedSymbol x)); [by exists None; split|]. apply IH.
    + intros y [= <-]. apply HU. by apply Hx.
    + by constructor.
    + intros y [->|Hy]%elem_of_cons; [by apply Hx|by apply Hsub].
    + cbn. lia.
Qed.

Lemma symbolFor_known e x : symbolFor e = Some x → x ∈ U.
Proof. destruct HU as (Hl & Hs & _). destruct e as [| | | | | | | | | |? []| | |]; cbn; eauto. Qed.

Lemma symbolForTarget_known e x : symbolForTarget e = Some x → x ∈ U.
Proof. destruct e; cbn [symbolForTarget]; try apply symbolFor_known. by apply HU. Qed.

(** The fuel an expression needs where the constants [A] are active. *)
Definition needs (A : list symbol) (e : expression) : nat :=
  (length U + (length U - length A) * S (weight U) + depth e)%nat.

Definition within (A : list symbol) : Prop := NoDup A ∧ A ⊆ U.

Lemma within_constant A x init e :
  within A → x ∈ U → x ∉ A → initializer_of x = Some init →
  within (A ++ [x]) ∧ (needs (A ++ [x]) init < needs A e)%nat.
Proof.
  intros [Hnd Hsub] Hx HxA Hi.
  assert (Hw : within (A ++ [x])).
  { split; [|set_solver]. apply NoDup_app. split; [done|]. split; [set_solver|apply NoDup_singleton]. }
  split; [done|]. destruct Hw as [Hnd' Hsub'].
  pose proof (submseteq_length _ _ (NoDup_submseteq _ _ Hnd' Hsub')) as Hlen. rewrite length_app in Hlen. cbn in Hlen.
  pose proof (weight_ge U x init Hx Hi). pose proof (depth_positive e). unfold needs. rewrite length_app. cbn [length].
  replace (length U - length A)%nat with (S (length U - (length A + 1)))%nat by lia. lia.
Qed.

(** ** Constants *)

Context (K : nat).

(** A constant whose initializer has no meaning. *)
Definition meaningless (x : symbol) : Prop :=
  match initializer_of x with Some init => denote K init DeclarationMode = None | None => False end.

#[local] Instance meaningless_dec x : Decision (meaningless x).
Proof. unfold meaningless. destruct (initializer_of x); apply _. Defined.

Definition ended (e : extraction_error) : Prop := e ≠ OutOfFuel.

Abbreviation lives := (lives meaningless ended).

Lemma aliases_known fuel x : (length U ≤ fuel)%nat → asked x →
  ∃ r, follow_aliases fuel x None [] = Some r ∧ ∀ y m, r = Some (y, m) → y ∈ U.
Proof.
  intros Hf [e He]. apply aliases_end; [|constructor|set_solver|cbn; lia].
  intros y ->. destruct He; [by eapply symbolFor_known|by eapply symbolForTarget_known].
Qed.

(** Evaluating a constant: its symbol is active meanwhile. *)
Lemma lives_constant A n v e x module_ init Q :
  follow_aliases n (symbolFor e) None [] = Some (Some (x, module_)) → initializer_of x = Some init →
  (∀ a, Q a → ¬ meaningless x) → lives (A ++ [x]) (await (v init DeclarationMode)) Q → lives A (constant n v e) Q.
Proof.
  intros Ef Ei Hx Hv. unfold constant, aliases. rewrite Ef. intros s HA. right. split; [by intros y|]. exists A.
  split_and!; [done|exact HA|]. case_bool_decide; [done|]. unfold initializer_of in Ei.
  destruct (valueDeclaration x) as [d|]; [|done]. cbn in Ei |- *.
  destruct (rs_node d) as [span [] [i|]| | |]; try done. injection Ei as ->. intros s' HA'. right.
  assert (Hadd : ∀ y, y ∈ add_to x (active s') ↔ y ∈ active s' ∨ y = x).
  { intros y. unfold add_to. case_bool_decide; [naive_solver|]. rewrite elem_of_app, list_elem_of_singleton. done. }
  split; [intros y _ Hy; apply Hadd; by left|]. exists (A ++ [x]). split_and!; [set_solver| |].
  - apply holds_app. split; [intros y Hy HN; apply Hadd; left; by apply HA'|].
    intros y ->%list_elem_of_singleton _. apply Hadd. by right.
  - apply lives_finally; [|exact Hv]. intros a s'' Ha y HN Hy. cbn. apply list_elem_of_filter. split; [|done].
    intros ->. by apply (Hx a).
Qed.

(** A constant of the computation itself that has no meaning is found active. *)
Lemma lives_active A n v e x module_ Q :
  follow_aliases n (symbolFor e) None [] = Some (Some (x, module_)) → x ∈ A → meaningless x →
  lives A (constant n v e) Q.
Proof.
  intros Ef Hx HN. unfold constant, aliases. rewrite Ef. intros s HA. right. split; [by intros y|]. exists A.
  split_and!; [done|exact HA|]. by rewrite bool_decide_true by (by apply HA).
Qed.

Lemma lives_no_constant A n v e x module_ Q :
  follow_aliases n (symbolFor e) None [] = Some (Some (x, module_)) → initializer_of x = None →
  lives A (constant n v e) Q.
Proof.
  intros Ef Ei. unfold constant, aliases. rewrite Ef. intros s HA. right. split; [by intros y|]. exists A.
  split_and!; [done|exact HA|]. case_bool_decide; [done|]. unfold initializer_of in Ei.
  destruct (valueDeclaration x) as [d|]; [|done]. cbn in Ei |- *. by destruct (rs_node d) as [span [] [i|]| | |].
Qed.
(** ** Expressions with a meaning *)

(** What [m] says is what the computation returns, unless it fails. *)
Definition means (A : list symbol) T (c : comp T) (m : static T) : Prop :=
  ∀ a D, m = Some (a, D) → lives A c (fun x => x = a).

#[export] Instance means_simulation A : Simulation (means A).
Proof.
  clear HU U. split; unfold means.
  - by intros T a b D [= -> _].
  - done.
  - done.
  - intros file [] D _ s HA. right. split; [by intros y|]. by exists A.
  - intros T V c m k f Hc Hk b D E. destruct m as [[a d]|]; [|done]. cbn in E.
    destruct (f a) as [[b' d']|] eqn:Ef; [|done]. injection E as -> _.
    eapply lives_bind; [by eapply Hc|done|]. intros x ->. by eapply Hk.
  - intros T V c c' m m' Hc Hc' [a b] D E. destruct m as [[a' d]|]; [|done]. destruct m' as [[b' d']|]; [|done].
    cbn in E. injection E as -> -> _. eapply lives_mono; [apply lives_interleave; [by eapply Hc|by eapply Hc']|set_solver|].
    by intros [x y] [[= ->] [= ->]].
Qed.

Lemma follow_aliases_same n j x r r' :
  follow_aliases n x None [] = Some r → follow_aliases j x None [] = Some r' → r = r'.
Proof.
  intros En Ej. apply (keeps_aliases (max n j) n _ _ _ ltac:(lia)) in En.
  apply (keeps_aliases (max n j) j _ _ _ ltac:(lia)) in Ej. congruence.
Qed.

Lemma means_aliases A n j x :
  (length U ≤ n)%nat → asked x → means A _ (aliases n x) (certain (follow_aliases j x None [])).
Proof.
  intros Hn Hx r D E. destruct (aliases_known n x Hn Hx) as (r' & Er & _). unfold aliases. rewrite Er.
  destruct (follow_aliases j x None []) as [o|] eqn:Ej; [|done]. injection E as -> _. by eapply follow_aliases_same.
Qed.

Lemma means_value n j e mode A :
  within A → (needs A e ≤ n)%nat → outside A j → (j ≤ K)%nat → means A _ (value n e mode) (denote j e mode).
Proof.
  revert j e mode A. induction n as [|n IH]; intros j e mode A HA Hn Hout Hj.
  { unfold needs in Hn. pose proof (depth_positive e). lia. }
  destruct j as [|j]; [done|].
  assert (Hl : (length U ≤ n)%nat) by (unfold needs in Hn; pose proof (depth_positive e); lia).
  apply sim_value; [by intros x; apply means_aliases|].
  apply sim_value_of with (ok := fun e' => (needs A e' ≤ n)%nat).
  - by intros x; apply means_aliases.
  - intros e' mode' He'. apply IH; [done|done| |lia]. intros x init k Hx Hi Hk. eapply Hout; [done..|lia].
  - intros e' a D. rewrite certain_bind. destruct (constant_of j e') as [[x init]|] eqn:Ec; [|done]. intros E.
    change (denote j init DeclarationMode = Some (a, D)) in E. apply constant_of_inv in Ec as (module_ & Ef & Hi).
    destruct (aliases_known n (symbolFor e') Hl ltac:(eexists; eauto)) as (r & Er & HrU).
    pose proof (follow_aliases_same _ _ _ _ _ Er Ef) as ->.
    assert (HxA : x ∉ A) by (intros Hx; rewrite (Hout x init j Hx Hi ltac:(lia)) in E; done).
    destruct (within_constant A x init e HA ltac:(eauto) HxA Hi) as [HA' Hlt].
    destruct (least_meaning _ _ _ _ E) as (k & Hk & Ek & Hmin).
    eapply lives_constant; [done|done| |].
    + intros _ _ HN. unfold meaningless in HN. rewrite Hi in HN.
      rewrite (keeps_denote K j _ _ ltac:(lia) _ E) in HN. done.
    + eapply (sim_await (R := means (A ++ [x]))); [|exact Ek]. apply (IH k); [done|lia| |lia].
      intros y init' j' Hy Hi' Hj'. apply elem_of_app in Hy as [Hy| ->%list_elem_of_singleton].
      * eapply Hout; [done..|lia].
      * rewrite Hi in Hi'. injection Hi' as <-. by apply Hmin.
  - eapply Forall_impl; [apply parts_depth|]. intros e' He'. cbn in He'. pose proof (depth_unwrap e).
    unfold needs in *. lia.
Qed.

(** ** Every expression *)

Definition ends (A : list symbol) T (c : comp T) (_ : static T) : Prop := lives A c (fun _ => True).

#[export] Instance ends_simulation A : Simulation (ends A).
Proof.
  clear HU U. split; unfold ends.
  - done.
  - done.
  - done.
  - intros file s HA. right. split; [by intros y|]. by exists A.
  - intros T V c _ k _ Hc Hk. by eapply lives_bind.
  - intros T V c c' _ _ Hc Hc'. eapply lives_mono; [by apply lives_interleave|set_solver|done].
Qed.

Lemma ends_aliases A fuel x m : (length U ≤ fuel)%nat → asked x → ends A _ (aliases fuel x) m.
Proof. intros Hf Hx. destruct (aliases_known fuel x Hf Hx) as (r & Er & _). unfold ends, aliases. by rewrite Er. Qed.

Lemma ends_constant A n e m :
  within A → (∀ y, y ∈ A → meaningless y) → (length U ≤ n)%nat → (n ≤ K)%nat →
  (∀ x init, x ∈ U → x ∉ A → initializer_of x = Some init → (needs (A ++ [x]) init ≤ n)%nat) →
  (∀ x init, x ∈ U → x ∉ A → initializer_of x = Some init → meaningless x →
     ends (A ++ [x]) _ (value n init DeclarationMode) (denote n init DeclarationMode)) →
  ends A _ (constant n (value n) e) m.
Proof.
  intros HA HN Hn HK Hneed Hv. destruct (aliases_known n (symbolFor e) Hn ltac:(eexists; eauto)) as (r & Er & Hr).
  destruct r as [[x module_]|]; [|unfold ends, constant, aliases; by rewrite Er].
  destruct (decide (x ∈ A)) as [HxA|HxA]; [eapply lives_active; eauto|].
  destruct (initializer_of x) as [init|] eqn:Ei; [|by eapply lives_no_constant].
  assert (HxU : x ∈ U) by eauto.
  destruct (decide (meaningless x)) as [Hx|Hx].
  - eapply lives_mono; [eapply (lives_constant A n _ e x module_ init (fun a => True ∧ ∃ D, denote n init DeclarationMode = Some (a, D)));
      [done|done| |]|done|done].
    + intros a [_ [D E]] _. unfold meaningless in Hx. rewrite Ei in Hx.
      by rewrite (keeps_denote K n _ _ HK _ E) in Hx.
    + eapply lives_yields.
      * apply (sim_await (R := ends (A ++ [x])) _ (denote n init DeclarationMode)). by apply Hv.
      * exact (sim_await (R := agrees) _ _ (agrees_value n init DeclarationMode)).
  - eapply (lives_constant A n _ e x module_ init (fun _ => True)); [done|done|done|].
    unfold meaningless in Hx. rewrite Ei in Hx.
    destruct (denote K init DeclarationMode) as [[a D]|] eqn:Ed; [|done].
    destruct (least_meaning _ _ _ _ Ed) as (k & Hk & Ek & Hmin).
    destruct (within_constant A x init e HA HxU HxA Ei) as [HA' _].
    eapply lives_mono; [eapply (sim_await (R := means (A ++ [x]))); [|exact Ek]|done|done].
    apply means_value; [done|by apply Hneed| |done].
    intros y init' j Hy Hi' Hj. apply elem_of_app in Hy as [Hy| ->%list_elem_of_singleton].
    + specialize (HN y Hy). unfold meaningless in HN. rewrite Hi' in HN.
      destruct (denote j init' DeclarationMode) as [r|] eqn:Ej; [|done].
      by rewrite (keeps_denote K j _ _ ltac:(lia) _ Ej) in HN.
    + rewrite Ei in Hi'. injection Hi' as <-. by apply Hmin.
Qed.

Lemma ends_value fuel e mode A m :
  within A → (∀ y, y ∈ A → meaningless y) → (needs A e ≤ fuel)%nat → (fuel ≤ K)%nat → ends A _ (value fuel e mode) m.
Proof.
  intros HA HN Hf HK. cut (ends A _ (value fuel e mode) (denote fuel e mode)); [done|].
  revert e mode A HA HN Hf. induction fuel as [|fuel IH]; intros e mode A HA HN Hf.
  { unfold needs in Hf. pose proof (depth_positive e). lia. }
  assert (Hl : (length U ≤ fuel)%nat) by (unfold needs in Hf; pose proof (depth_positive e); lia).
  apply sim_value; [by intros x; apply ends_aliases|].
  apply sim_value_of with (ok := fun e' => (needs A e' ≤ fuel)%nat).
  - by intros x; apply ends_aliases.
  - intros e' mode' He'. apply IH; [lia|done..].
  - intros e'. apply ends_constant; [done|done|done|lia| |].
    + intros x init Hx HxA Hi. destruct (within_constant A x init e HA Hx HxA Hi) as [_ Hlt]. lia.
    + intros x init Hx HxA Hi Hm. destruct (within_constant A x init e HA Hx HxA Hi) as [HA' Hlt].
      apply IH; [lia|done| |lia]. intros y [Hy| ->%list_elem_of_singleton]%elem_of_app; auto.
  - eapply Forall_impl; [apply parts_depth|]. intros e' He'. cbn in He'. pose proof (depth_unwrap e).
    unfold needs in *. lia.
Qed.

Lemma ends_exec {T} (c : comp T) m order :
  ends [] _ c m → match exec c (start order) with (Throw e, _) => ended e | _ => True end.
Proof.
  intros Hc. pose proof (lives_exec _ _ _ _ _ (start order) Hc) as Hx.
  specialize (Hx ltac:(by intros x ?%elem_of_nil)). by destruct (exec _ _) as [[]].
Qed.
End termination.

(** ** Extraction *)

Section extraction.
Context `{TypeScript} (U : list symbol) (HU : symbols_of_program U).

Lemma meaning_ends fuel callee order :
  (length U ≤ fuel)%nat →
  match exec (await (meaning fuel callee)) (start order) with (Throw e, _) => ended e | _ => True end.
Proof.
  intros Hl. apply (ends_exec fuel _ (denote_meaning fuel callee)).
  apply (sim_await (R := ends fuel [])), (sim_meaning fuel fuel). by intros x; apply (ends_aliases U).
Qed.

Lemma export_ends fuel callee argument order :
  (needs U [] argument ≤ fuel)%nat →
  match exec (export_fields fuel callee argument) (start order) with (Throw e, _) => ended e | _ => True end.
Proof.
  intros Hf. assert (Hl : (length U ≤ fuel)%nat) by (unfold needs in Hf; lia).
  apply (ends_exec fuel _ (denote_export fuel callee argument)).
  apply (sim_then (R := ends fuel [])); [apply sim_await, (sim_meaning fuel fuel); by intros x; apply (ends_aliases U)|].
  intros [[]|]; try apply sim_fails.
  apply sim_await, (sim_object _ _ (fun e => (needs U [] e ≤ fuel)%nat)).
  - intros e mode He. apply (ends_value U HU); [split; [constructor|set_solver]|by intros y ?%elem_of_nil|done|done].
  - eapply Forall_impl; [apply object_parts_depth|]. intros e' He'. unfold needs in *. cbv beta in *. lia.
Qed.

(** C25: With fuel for the depth of the export and of the constants, extraction ends in every
    order in which concurrent arguments resume: it returns the definition the module declares,
    or reports an error of the module, and never runs out of fuel.  An error means that the
    module declares no definition, or that a constant was found active; and in order it means
    the former. *)
Theorem extraction_terminates fuel entry project order :
  (length U + length U * S (weight U) + from_option depth 0 (exported project) ≤ fuel)%nat →
  match (exec (extractPluginDefinition fuel entry project) (start order)).1 with
  | Ok d => denote_definition fuel project = Some d
  | Throw e => (∃ message span, e = DeclarationExtractionError message span) ∧
      (denote_definition fuel project = None ∨ cyclic e ∧ order ≠ [])
  end.
Proof.
  intros Hf.
  opose proof* (extraction_outcome fuel entry project order ended (fun e => cyclic e ∧ order ≠ [])) as Hx; [done|..].
  { intros callee. apply meaning_ends. lia. }
  { intros span callee argument Hp. rewrite Hp in Hf. cbn in Hf.
    pose proof (export_ends fuel callee argument order ltac:(unfold needs; cbn [length]; lia)) as He.
    pose proof (export_exact fuel project order span callee argument Hp) as Hc.
    destruct order as [|b order].
    - pose proof (export_in_order fuel callee argument) as Ho. destruct (exec _ _) as [[]]; [done|].
      left. split; [by destruct Ho as [[]|]|done].
    - destruct (exec _ _) as [[]]; [done|]. destruct Hc as [[]|]; [by left|by right]. }
  destruct (exec (extractPluginDefinition fuel entry project) _) as [[d|e] s]; cbn in *; [done|].
  destruct Hx as [[Hx He]|[[span ->] Ho]].
  - split; [|by left]. destruct e; [eauto|done].
  - split; [eauto|]. right. split; [by eexists|done].
Qed.
End extraction.

(** ** A module in an adverse order *)

Module Demo.
Import ExtractOrder.Demo.
#[local] Existing Instance ExtractOrder.Demo.checker.

Lemma program_symbols : symbols_of_program [0; 1; 2; 3]%nat.
Proof.
  split_and!.
  - intros span x. cbn. repeat case_bool_decide; intros E; simplify_eq; set_solver.
  - done.
  - done.
Qed.

Lemma extraction_terminates_witness :
  symbols_of_program [0; 1; 2; 3]%nat ∧
  match (exec (extractPluginDefinition 30 (js "plugin.ts") project) (start alternating)).1 with
  | Ok d => denote_definition 30 project = Some d
  | Throw e => (∃ message span, e = DeclarationExtractionError message span) ∧
      (denote_definition 30 project = None ∨ cyclic e ∧ alternating ≠ [])
  end.
Proof.
  split; [exact program_symbols|]. apply (extraction_terminates [0; 1; 2; 3]%nat); [exact program_symbols|].
  apply Nat.leb_le. vm_compute. reflexivity.
Defined.
End Demo.
