(* ===== verification/Capability.v ===== *)
(** * Generated capability bindings (packages/lenso-bun/src/capabilities)

    The generated files repeat one template per operation: a Provider binding that decodes
    a payload, calls the Plugin's method and encodes its result, and a client that does the
    reverse around an invoker.  The template is modelled once, over a table of operations;
    Capabilities.v holds the tables.  The package @lenso/contract-runtime is the class
    [ContractRuntime]; what the bindings rely on is [ContractLaws]. *)

From Stdlib Require Import ZArith SpecFloat.
From S2P Require Import Prelude JsValue Text Json Authoring V2.

(** ** Contracts *)

(** A case of the generated bindings: the operation, the method of the Provider that it calls,
    and the domain errors that are plain codes. *)
Record Operation := { op_name : jsstr; op_method : jsstr; op_errors : list jsstr }.

(** A generated file: its descriptor and its operations by interaction. *)
Record Capability := {
  cap_descriptor : Descriptor;
  cap_digest : jsstr;
  cap_client : jsstr;
  cap_requests : list Operation;
  cap_streams : list Operation }.

(** The exported value: [provides] takes it, and [required], [optional] and [many] declare
    a dependency on it. *)
Definition contract_value (c : Capability) : CapabilityContract := {|
  cc_kind := js "lenso.capability"; cc_descriptor := cap_descriptor c; cc_bindProvider_is_function := true |}.

Definition declared_dependency (c : Capability) (cardinality : string) (id : option jsstr) : raw_dependency :=
  DependencyDeclaration (js "lenso.dependency") id (cap_descriptor c) (JStr (js cardinality)).
Definition required (c : Capability) := declared_dependency c "one".
Definition optional (c : Capability) := declared_dependency c "optional".
Definition many (c : Capability) := declared_dependency c "many".

(** [switch (operation)] over the cases of a table. *)
Definition find_operation (l : list Operation) (operation : jsstr) : option Operation :=
  List.find (fun op => bool_decide (op_name op = operation)) l.

(** What a Provider method and a client method return. *)
Inductive ProviderResult :=
| ResultOk (value : jsval)
| ResultDomain (error : jsval)
| ResultRuntime (failure : RuntimeFailure).

Inductive ClientResult :=
| ClientOk (value : jsval)
| ClientDomain (error : jsval)
| ClientRuntime (failure : jsval).

(** [providerErrorMessage] and [dependencyErrorMessage] are [errorMessage]. *)
Definition protocol_violation (e : thrown) : RuntimeFailure :=
  failure_of "protocol_violation" [(js "detail", JStr (errorMessage e))].
Definition plugin_failure (e : thrown) : RuntimeFailure :=
  failure_of "plugin_failure" [(js "detail", JStr (errorMessage e))].
Definition unknown_operation (operation : jsstr) : RuntimeFailure :=
  failure_of "unknown_operation" [(js "operation", JStr operation)].

(** The functions of @lenso/contract-runtime, and the error [JSON.parse] throws. *)
Class ContractRuntime := {
  encodePortableJson : jsval → jsstr → result thrown jsstr;
  decodePortableJson : jsstr → result thrown jsval;
  decodeDomainError : jsstr → list jsstr → result thrown jsval;
  syntax_error : jsstr → thrown }.

(** [try { return body } catch (error) { return handler(error) }] *)
Definition catch {A} (m : result thrown A) (handler : thrown → A) : A :=
  match m with Ok a => a | Throw e => handler e end.

Section bindings.
Context `{ContractRuntime}.

Definition parse (text : jsstr) : result thrown jsval :=
  match json_parse text with Some v => Ok v | None => Throw (syntax_error text) end.

(** [JSON.parse(encodeX(value))] *)
Definition to_wire (value : jsval) (subject : string) : result thrown jsval :=
  t ← encodePortableJson value (js subject); parse t.

(** [decodeX(encodePortableJson(payload, subject))] *)
Definition from_payload (payload : jsval) (subject : string) : result thrown jsval :=
  t ← encodePortableJson payload (js subject); decodePortableJson t.

(** ** Provider binding: requests *)

Definition lower_result (r : ProviderResult) : result thrown ProviderDispatchOutcome :=
  match r with
  | ResultOk v => PSuccess <$> to_wire v "response"
  | ResultDomain e => PDomain <$> to_wire e "Domain Error"
  | ResultRuntime f => Ok (PRuntime f)
  end.

Definition invokeRequest (c : Capability) (provider : jsstr → jsval → jsval → completion ProviderResult)
    (operation : jsstr) (context payload : jsval) : ProviderDispatchOutcome :=
  match find_operation (cap_requests c) operation with
  | None => PRuntime (unknown_operation operation)
  | Some op =>
      match from_payload payload "request" with
      | Throw e => PRuntime (protocol_violation e)
      | Ok request =>
          match provider (op_method op) context request with
          | Threw e => PRuntime (plugin_failure e)
          | Returned r => catch (lower_result r) (fun e => PRuntime (plugin_failure e))
          end
      end
  end.

(** ** Client: requests *)

(** [context ?? { requestId: "0", cancelled: false }] *)
Definition call_context (context : option jsval) : jsval :=
  match context with
  | None | Some JUndef | Some JNull => JObj [(js "requestId", JStr (js "0")); (js "cancelled", JBool false)]
  | Some c => c
  end.

Definition raise_outcome (op : Operation) (o : ProviderDispatchOutcome) : result thrown ClientResult :=
  match o with
  | PSuccess v => ClientOk <$> decodePortableJson (json_text v)
  | PDomain v => ClientDomain <$> decodeDomainError (json_text v) (op_errors op)
  | PRuntime f => Ok (ClientRuntime (JObj f))
  end.

Definition client_request (op : Operation) (invoke : jsstr → jsval → jsval → completion ProviderDispatchOutcome)
    (request : jsval) (context : option jsval) : ClientResult :=
  match to_wire request "request" with
  | Throw e => ClientRuntime (JObj (protocol_violation e))
  | Ok payload =>
      match invoke (op_name op) (call_context context) payload with
      | Threw e => ClientRuntime (JObj (plugin_failure e))
      | Returned o => catch (raise_outcome op o) (fun e => ClientRuntime (JObj (plugin_failure e)))
      end
  end.

(** ** Streams *)

Inductive StreamEvent :=
| EventMessage (message : jsval)
| EventHalfClosed
| EventTerminal (error : option jsval).

(** An error of a stream: one of [lowerProviderStream], one with a [failure] property, or
    another. *)
Inductive stream_error :=
| ServerOutputStreamInputError (message : jsstr)
| FailureError (message : jsstr) (failure : RuntimeFailure)
| OtherError (e : thrown).

Definition stream_errorMessage (e : stream_error) : jsstr :=
  match e with ServerOutputStreamInputError m | FailureError m _ => m | OtherError e => errorMessage e end.

(** A session and an asynchronous iterator, over the states of the object behind them. *)
Record StreamSession (S : Type) := {
  ss_send : jsval → S → result stream_error unit * S;
  ss_receive : S → result stream_error StreamEvent * S;
  ss_closeSend : S → result stream_error unit * S;
  ss_cancel : S → S }.
#[global] Arguments ss_send {S}.
#[global] Arguments ss_receive {S}.
#[global] Arguments ss_closeSend {S}.
#[global] Arguments ss_cancel {S}.

Record AsyncIterator (S : Type) := {
  ai_next : S → result stream_error (option jsval) * S;
  ai_return : option (S → S) }.
#[global] Arguments ai_next {S}.
#[global] Arguments ai_return {S}.

(** [lowerProviderStream(stream)] of an asynchronous iterable, with its [cancelled]. *)
Definition lowerProviderStream {S} (iterator : AsyncIterator S) : StreamSession (S * bool) := {|
  ss_send _ s := (Throw (ServerOutputStreamInputError (js "server-output stream does not accept inbound messages")), s);
  ss_receive (s : S * bool) :=
    if s.2 then (Ok (EventTerminal None), s)
    else let '(next, it) := ai_next iterator s.1 in
         (match next with
          | Ok None => Ok (EventTerminal None)
          | Ok (Some value) => Ok (EventMessage value)
          | Throw e => Throw e
          end, (it, s.2));
  ss_closeSend s := (Ok tt, s);
  ss_cancel (s : S * bool) := (default id (ai_return iterator) s.1, true) |}.

(** The binding of a session: its methods answer with outcomes. *)
Record StreamBinding (S : Type) := {
  sb_send : jsval → S → ProviderActionOutcome * S;
  sb_receive : S → ProviderStreamReceiveOutcome * S;
  sb_closeSend : S → ProviderActionOutcome * S;
  sb_cancel : S → S }.
#[global] Arguments sb_send {S}.
#[global] Arguments sb_receive {S}.
#[global] Arguments sb_closeSend {S}.
#[global] Arguments sb_cancel {S}.

Definition detail (kind : string) (message : jsstr) : RuntimeFailure := failure_of kind [(js "detail", JStr message)].

Definition send_failure (e : stream_error) : RuntimeFailure :=
  match e with
  | ServerOutputStreamInputError m => detail "protocol_violation" m
  | _ => detail "plugin_failure" (stream_errorMessage e)
  end.

Definition lower_event (event : StreamEvent) : result thrown ProviderStreamReceiveOutcome :=
  match event with
  | EventMessage m => ReceiveMessage <$> to_wire m "response"
  | EventHalfClosed => Ok ReceiveHalfClosed
  | EventTerminal None => Ok ReceiveSuccess
  | EventTerminal (Some e) => ReceiveDomain <$> to_wire e "Domain Error"
  end.

Definition bind_stream {S} (stream : StreamSession S) : StreamBinding S := {|
  sb_send message s :=
    match from_payload message "stream message" with
    | Throw e => (ActionRuntime (protocol_violation e), s)
    | Ok decoded =>
        let '(r, s) := ss_send stream decoded s in
        (match r with Ok _ => ActionAccepted | Throw e => ActionRuntime (send_failure e) end, s)
    end;
  sb_receive s :=
    let '(r, s) := ss_receive stream s in
    (match r with
     | Throw e => ReceiveRuntime (detail "plugin_failure" (stream_errorMessage e))
     | Ok event => catch (lower_event event) (fun e => ReceiveRuntime (plugin_failure e))
     end, s);
  sb_closeSend s :=
    let '(r, s) := ss_closeSend stream s in
    (match r with
     | Ok _ => ActionAccepted
     | Throw e => ActionRuntime (detail "plugin_failure" (stream_errorMessage e))
     end, s);
  sb_cancel := ss_cancel stream |}.

(** What a streaming method of a Provider returns: an iterable, a session, or an error. *)
Inductive ProvidedStream :=
| ProvidedIterable
| ProvidedSession
| ProvidedDomain (error : jsval)
| ProvidedRuntime (failure : RuntimeFailure).

(** [openStream(operation, context, payload)]: the outcome, with the stream if it is opened
    ([true] for an iterable). *)
Definition openStream (c : Capability) (provider : jsstr → jsval → jsval → completion ProvidedStream)
    (operation : jsstr) (context payload : jsval) : ProviderStreamOpenOutcome * option bool :=
  match find_operation (cap_streams c) operation with
  | None => (StreamRuntime (unknown_operation operation), None)
  | Some op =>
      match from_payload payload "stream open request" with
      | Throw e => (StreamRuntime (protocol_violation e), None)
      | Ok request =>
          match provider (op_method op) context request with
          | Threw e => (StreamRuntime (plugin_failure e), None)
          | Returned (ProvidedDomain e) =>
              (catch (StreamDomain <$> to_wire e "Domain Error") (fun e => StreamRuntime (plugin_failure e)), None)
          | Returned (ProvidedRuntime f) => (StreamRuntime f, None)
          | Returned ProvidedIterable => (StreamOpened, Some true)
          | Returned ProvidedSession => (StreamOpened, Some false)
          end
      end
  end.

(** [publishEvent(operation, context, payload)]: no shipped contract has events. *)
Definition publishEvent (operation : jsstr) : ProviderActionOutcome := ActionRuntime (unknown_operation operation).

(** ** Client: streams *)

Definition dependencyRuntimeError (failure : RuntimeFailure) : stream_error :=
  FailureError (js "Capability dependency failed: " ++ to_string (field failure "kind")) failure.

(** [dependencyFailure(error)] *)
Definition dependencyFailure (e : stream_error) : jsval :=
  match e with
  | FailureError _ f => JObj f
  | OtherError (ThrownValue (JObj fs)) =>
      match assoc (js "failure") fs with
      | Some failure => failure
      | None => JObj (plugin_failure (ThrownValue (JObj fs)))
      end
  | e => JObj (detail "plugin_failure" (stream_errorMessage e))
  end.

Definition action_result (o : ProviderActionOutcome) : result stream_error unit :=
  match o with ActionAccepted => Ok tt | ActionRuntime f => Throw (dependencyRuntimeError f) end.

Definition thrown_in_stream {A} (m : result thrown A) : result stream_error A :=
  match m with Ok a => Ok a | Throw e => Throw (OtherError e) end.

Definition raise_event (op : Operation) (o : ProviderStreamReceiveOutcome) : result stream_error StreamEvent :=
  match o with
  | ReceiveMessage v => EventMessage <$> thrown_in_stream (decodePortableJson (json_text v))
  | ReceiveHalfClosed => Ok EventHalfClosed
  | ReceiveSuccess => Ok (EventTerminal None)
  | ReceiveDomain v =>
      (fun e => EventTerminal (Some e)) <$> thrown_in_stream (decodeDomainError (json_text v) (op_errors op))
  | ReceiveRuntime f => Throw (dependencyRuntimeError f)
  end.

(** The session a client gives its caller, around the binding it was opened with. *)
Definition client_stream {S} (op : Operation) (stream : StreamBinding S) : StreamSession S := {|
  ss_send message s :=
    match to_wire message "response" with
    | Throw e => (Throw (OtherError e), s)
    | Ok encoded => let '(r, s) := sb_send stream encoded s in (action_result r, s)
    end;
  ss_receive s := let '(r, s) := sb_receive stream s in (raise_event op r, s);
  ss_closeSend s := let '(r, s) := sb_closeSend stream s in (action_result r, s);
  ss_cancel := sb_cancel stream |}.

(** The result of opening: [None] is an open stream. *)
Definition client_open (op : Operation)
    (open : jsstr → jsval → jsval → result stream_error ProviderStreamOpenOutcome)
    (request : jsval) (context : option jsval) : option ClientResult :=
  match to_wire request "request" with
  | Throw e => Some (ClientRuntime (JObj (protocol_violation e)))
  | Ok payload =>
      match open (op_name op) (call_context context) payload with
      | Throw e => Some (ClientRuntime (dependencyFailure e))
      | Ok (StreamDomain v) =>
          match decodeDomainError (json_text v) (op_errors op) with
          | Ok e => Some (ClientDomain e)
          | Throw e => Some (ClientRuntime (dependencyFailure (OtherError e)))
          end
      | Ok (StreamRuntime f) => Some (ClientRuntime (JObj f))
      | Ok StreamOpened => None
      end
  end.

(** ** A generated file as a whole *)

(** [bindXProvider(provider)], for the methods of requests and those of streams. *)
Record CapabilityProviderBinding := {
  cpb_descriptor : Descriptor;
  cpb_invokeRequest : jsstr → jsval → jsval → ProviderDispatchOutcome;
  cpb_openStream : jsstr → jsval → jsval → ProviderStreamOpenOutcome * option bool;
  cpb_publishEvent : jsstr → jsval → jsval → ProviderActionOutcome }.

Definition bindProvider (c : Capability) (methods : jsstr → jsval → jsval → completion ProviderResult)
    (streams : jsstr → jsval → jsval → completion ProvidedStream) : CapabilityProviderBinding := {|
  cpb_descriptor := cap_descriptor c;
  cpb_invokeRequest := invokeRequest c methods;
  cpb_openStream := openStream c streams;
  cpb_publishEvent operation _ _ := publishEvent operation |}.

(** [bindXDependency()]: its clients have a method for every operation of the table. *)
Record CapabilityDependencyBinding := {
  cdb_descriptor : Descriptor;
  cdb_request : jsstr →
    option ((jsstr → jsval → jsval → completion ProviderDispatchOutcome) → jsval → option jsval → ClientResult);
  cdb_open : jsstr →
    option ((jsstr → jsval → jsval → result stream_error ProviderStreamOpenOutcome) → jsval → option jsval →
            option ClientResult) }.

Definition bindDependency (c : Capability) : CapabilityDependencyBinding := {|
  cdb_descriptor := cap_descriptor c;
  cdb_request operation := client_request <$> find_operation (cap_requests c) operation;
  cdb_open operation := client_open <$> find_operation (cap_streams c) operation |}.
End bindings.
