(* ===== verification/Capabilities.v ===== *)
(** * The capabilities of @lenso/bun

    One table per generated file of packages/lenso-bun/src/capabilities: the descriptor,
    the operations in the order of the file, and the domain errors each one names.  The
    bindings of a file are those of Capability.v at its table. *)

From S2P Require Import Prelude JsValue Text Json Authoring V2 Capability.

(** account-admin.ts *)
Definition AccountAdmin : Capability := {|
  cap_descriptor := {|
    capability_id := js "lenso.auth.account-admin@1"; descriptor_version := js "1.0.0"; descriptor_digest := None;
    operations := [js "list_sessions"; js "list_subjects"; js "set_subject_status"];
    stream_operations := []; event_operations := [] |};
  cap_digest := js "sha256:fa2514ed403327d8dbba88787e0cec1233c289656c6d93cb9bf225b0708af49b";
  cap_client := js "AccountAdminClient";
  cap_requests := [{| op_name := js "list_sessions"; op_method := js "list_sessions"; op_errors := [js "forbidden"; js "invalid_page"; js "invalid_subject"] |};
    {| op_name := js "list_subjects"; op_method := js "list_subjects"; op_errors := [js "forbidden"; js "invalid_page"] |};
    {| op_name := js "set_subject_status"; op_method := js "set_subject_status"; op_errors := [js "forbidden"; js "invalid_status"; js "invalid_subject"; js "not_found"] |}];
  cap_streams := [] |}.

Definition bindAccountAdminProvider `{ContractRuntime} := bindProvider AccountAdmin.
Definition bindAccountAdminDependency `{ContractRuntime} := bindDependency AccountAdmin.

(** agent-auth-openai-codex.ts *)
Definition OpenaiCodex : Capability := {|
  cap_descriptor := {|
    capability_id := js "lenso.agent.auth.openai-codex@1"; descriptor_version := js "1.0.0"; descriptor_digest := None;
    operations := [js "access"];
    stream_operations := []; event_operations := [] |};
  cap_digest := js "sha256:22f178904ed4633ee41e505889e31d52a5d3b82bc98180cfd73b9ee97c151353";
  cap_client := js "OpenaiCodexClient";
  cap_requests := [{| op_name := js "access"; op_method := js "access"; op_errors := [js "not_authenticated"; js "refresh_rejected"] |}];
  cap_streams := [] |}.

Definition bindOpenaiCodexProvider `{ContractRuntime} := bindProvider OpenaiCodex.
Definition bindOpenaiCodexDependency `{ContractRuntime} := bindDependency OpenaiCodex.

(** agent-model.ts *)
Definition Model : Capability := {|
  cap_descriptor := {|
    capability_id := js "lenso.agent.model@1"; descriptor_version := js "1.1.0"; descriptor_digest := None;
    operations := [js "complete"];
    stream_operations := [js "complete"]; event_operations := [] |};
  cap_digest := js "sha256:92b4efa0015a8fd88bf5fe179091d0201bca9557c0cd76a68c5bc0e0de7d5d64";
  cap_client := js "ModelClient";
  cap_requests := [];
  cap_streams := [{| op_name := js "complete"; op_method := js "complete"; op_errors := [js "content_rejected"; js "invalid_request"; js "unsupported_model"] |}] |}.

Definition bindModelProvider `{ContractRuntime} := bindProvider Model.
Definition bindModelDependency `{ContractRuntime} := bindDependency Model.

(** agent-prompt-provider.ts *)
Definition PromptProvider : Capability := {|
  cap_descriptor := {|
    capability_id := js "lenso.agent.prompt-provider@1"; descriptor_version := js "1.0.0"; descriptor_digest := None;
    operations := [js "contribute"];
    stream_operations := []; event_operations := [] |};
  cap_digest := js "sha256:72d10926cb52edf5cda2f9fe340edd7d64cdf41f059d529e3b5cf23fd22a980d";
  cap_client := js "PromptProviderClient";
  cap_requests := [{| op_name := js "contribute"; op_method := js "contribute"; op_errors := [js "contribution_invalid"] |}];
  cap_streams := [] |}.

Definition bindPromptProviderProvider `{ContractRuntime} := bindProvider PromptProvider.
Definition bindPromptProviderDependency `{ContractRuntime} := bindDependency PromptProvider.

(** agent-prompt.ts *)
Definition Prompt : Capability := {|
  cap_descriptor := {|
    capability_id := js "lenso.agent.prompt@1"; descriptor_version := js "1.0.0"; descriptor_digest := None;
    operations := [js "assemble"];
    stream_operations := []; event_operations := [] |};
  cap_digest := js "sha256:5665329a1bd42c17abce3944624b220738c6d40c4cc541611a6e3f08f8e32fa8";
  cap_client := js "PromptClient";
  cap_requests := [{| op_name := js "assemble"; op_method := js "assemble"; op_errors := [js "prompt_invalid"] |}];
  cap_streams := [] |}.

Definition bindPromptProvider `{ContractRuntime} := bindProvider Prompt.
Definition bindPromptDependency `{ContractRuntime} := bindDependency Prompt.

(** agent-session.ts *)
Definition Session : Capability := {|
  cap_descriptor := {|
    capability_id := js "lenso.agent.session@1"; descriptor_version := js "1.1.0"; descriptor_digest := None;
    operations := [js "append"; js "open"; js "read"];
    stream_operations := []; event_operations := [] |};
  cap_digest := js "sha256:59e3fa78ae7b6f5c3a683210053a9916fa4a6c8d7b9fbc70c452d82891e5e063";
  cap_client := js "SessionClient";
  cap_requests := [{| op_name := js "append"; op_method := js "append"; op_errors := [js "invalid_event"; js "not_found"] |};
    {| op_name := js "open"; op_method := js "open"; op_errors := [js "invalid_session_id"; js "not_found"] |};
    {| op_name := js "read"; op_method := js "read"; op_errors := [js "invalid_cursor"; js "not_found"] |}];
  cap_streams := [] |}.

Definition bindSessionProvider `{ContractRuntime} := bindProvider Session.
Definition bindSessionDependency `{ContractRuntime} := bindDependency Session.

(** agent-tool-provider.ts *)
Definition ToolProvider : Capability := {|
  cap_descriptor := {|
    capability_id := js "lenso.agent.tool-provider@1"; descriptor_version := js "1.0.0"; descriptor_digest := None;
    operations := [js "catalog"; js "execute"];
    stream_operations := []; event_operations := [] |};
  cap_digest := js "sha256:d9e6a24abe6b4957fc8801554338e8a80a00f9746eb878eee4ef3008e9f154dd";
  cap_client := js "ToolProviderClient";
  cap_requests := [{| op_name := js "catalog"; op_method := js "catalog"; op_errors := [js "catalog_invalid"] |};
    {| op_name := js "execute"; op_method := js "execute"; op_errors := [js "invalid_arguments"; js "not_found"; js "output_limit_exceeded"; js "permission_denied"] |}];
  cap_streams := [] |}.

Definition bindToolProviderProvider `{ContractRuntime} := bindProvider ToolProvider.
Definition bindToolProviderDependency `{ContractRuntime} := bindDependency ToolProvider.

(** agent-tools.ts *)
Definition Tools : Capability := {|
  cap_descriptor := {|
    capability_id := js "lenso.agent.tools@1"; descriptor_version := js "1.0.0"; descriptor_digest := None;
    operations := [js "catalog"; js "execute"];
    stream_operations := []; event_operations := [] |};
  cap_digest := js "sha256:cce8d9a6b3ba3fbe02e0fee42b86f40b43f0b821b9011e3101d6a6e6ed50d761";
  cap_client := js "ToolsClient";
  cap_requests := [{| op_name := js "catalog"; op_method := js "catalog"; op_errors := [js "catalog_invalid"] |};
    {| op_name := js "execute"; op_method := js "execute"; op_errors := [js "invalid_arguments"; js "unknown_tool"] |}];
  cap_streams := [] |}.

Definition bindToolsProvider `{ContractRuntime} := bindProvider Tools.
Definition bindToolsDependency `{ContractRuntime} := bindDependency Tools.

(** agent.ts *)
Definition Agent : Capability := {|
  cap_descriptor := {|
    capability_id := js "lenso.agent@1"; descriptor_version := js "1.1.0"; descriptor_digest := None;
    operations := [js "run_turn"];
    stream_operations := [js "run_turn"]; event_operations := [] |};
  cap_digest := js "sha256:e995b7af328e09be4fc8510188d5034d535cd7294e8a743f980ffec6b6a0b01a";
  cap_client := js "AgentClient";
  cap_requests := [];
  cap_streams := [{| op_name := js "run_turn"; op_method := js "run_turn"; op_errors := [js "concurrent_turn"; js "context_limit_exceeded"; js "invalid_session"; js "step_limit_exceeded"; js "tool_call_limit_exceeded"] |}] |}.

Definition bindAgentProvider `{ContractRuntime} := bindProvider Agent.
Definition bindAgentDependency `{ContractRuntime} := bindDependency Agent.

(** anonymous-auth.ts *)
Definition Anonymous : Capability := {|
  cap_descriptor := {|
    capability_id := js "lenso.auth.anonymous@1"; descriptor_version := js "1.0.0"; descriptor_digest := None;
    operations := [js "sign_in"];
    stream_operations := []; event_operations := [] |};
  cap_digest := js "sha256:bf5c4509c831964f4be6c5a0993b031022f7d478e8bd15ad4b65f3efc2eec72d";
  cap_client := js "AnonymousClient";
  cap_requests := [{| op_name := js "sign_in"; op_method := js "sign_in"; op_errors := [js "disabled"; js "invalid_device"] |}];
  cap_streams := [] |}.

Definition bindAnonymousProvider `{ContractRuntime} := bindProvider Anonymous.
Definition bindAnonymousDependency `{ContractRuntime} := bindDependency Anonymous.

(** auth.ts *)
Definition Auth : Capability := {|
  cap_descriptor := {|
    capability_id := js "lenso.auth@1"; descriptor_version := js "1.0.0"; descriptor_digest := None;
    operations := [js "authenticate"];
    stream_operations := []; event_operations := [] |};
  cap_digest := js "sha256:b14b8ad9c35dee119ff4fb61635853a28c11bb096d47a8dd5b6d7455de77321a";
  cap_client := js "AuthClient";
  cap_requests := [{| op_name := js "authenticate"; op_method := js "authenticate"; op_errors := [js "expired"; js "invalid"; js "revoked"; js "unsupported"] |}];
  cap_streams := [] |}.

Definition bindAuthProvider `{ContractRuntime} := bindProvider Auth.
Definition bindAuthDependency `{ContractRuntime} := bindDependency Auth.

(** credential-issuer.ts *)
Definition CredentialIssuer : Capability := {|
  cap_descriptor := {|
    capability_id := js "lenso.auth.credential-issuer@1"; descriptor_version := js "1.0.0"; descriptor_digest := None;
    operations := [js "issue"; js "revoke"];
    stream_operations := []; event_operations := [] |};
  cap_digest := js "sha256:c7dfd679a0a3a534b9b1206ea4639163a0a8eae6eb5c9bc6e944efeee0560ac3";
  cap_client := js "CredentialIssuerClient";
  cap_requests := [{| op_name := js "issue"; op_method := js "issue"; op_errors := [js "disabled"; js "expired"; js "invalid_authority"; js "invalid_subject"] |};
    {| op_name := js "revoke"; op_method := js "revoke"; op_errors := [js "invalid_session"; js "not_found"] |}];
  cap_streams := [] |}.

Definition bindCredentialIssuerProvider `{ContractRuntime} := bindProvider CredentialIssuer.
Definition bindCredentialIssuerDependency `{ContractRuntime} := bindDependency CredentialIssuer.

(** device-auth.ts *)
Definition Device : Capability := {|
  cap_descriptor := {|
    capability_id := js "lenso.auth.device@1"; descriptor_version := js "1.0.0"; descriptor_digest := None;
    operations := [js "list"; js "observe"; js "set_trust"];
    stream_operations := []; event_operations := [] |};
  cap_digest := js "sha256:1bbda78718b00e00b1c8d5f062e04e24895edafaf8bb81af0da849253cf56167";
  cap_client := js "DeviceClient";
  cap_requests := [{| op_name := js "list"; op_method := js "list"; op_errors := [js "invalid_subject"] |};
    {| op_name := js "observe"; op_method := js "observe"; op_errors := [js "invalid_device"; js "invalid_subject"] |};
    {| op_name := js "set_trust"; op_method := js "set_trust"; op_errors := [js "invalid_device"; js "invalid_subject"; js "not_found"] |}];
  cap_streams := [] |}.

Definition bindDeviceProvider `{ContractRuntime} := bindProvider Device.
Definition bindDeviceDependency `{ContractRuntime} := bindDependency Device.

(** federated-auth.ts *)
Definition Federated : Capability := {|
  cap_descriptor := {|
    capability_id := js "lenso.auth.federated@1"; descriptor_version := js "1.0.0"; descriptor_digest := None;
    operations := [js "complete"; js "start"];
    stream_operations := []; event_operations := [] |};
  cap_digest := js "sha256:298d90953f0dc7de9506bbe0a9bcd38a1789ba6ab4a922a4e8fe0f325dcd0557";
  cap_client := js "FederatedClient";
  cap_requests := [{| op_name := js "complete"; op_method := js "complete"; op_errors := [js "disabled"; js "invalid_callback"; js "invalid_state"; js "provider_rejected"; js "unverified_identity"] |};
    {| op_name := js "start"; op_method := js "start"; op_errors := [js "invalid_return_to"; js "provider_unavailable"] |}];
  cap_streams := [] |}.

Definition bindFederatedProvider `{ContractRuntime} := bindProvider Federated.
Definition bindFederatedDependency `{ContractRuntime} := bindDependency Federated.

(** http-client.ts *)
Definition Client : Capability := {|
  cap_descriptor := {|
    capability_id := js "lenso.http.client@1"; descriptor_version := js "1.0.1"; descriptor_digest := None;
    operations := [js "send"];
    stream_operations := []; event_operations := [] |};
  cap_digest := js "sha256:21b24a413879f67cbd6a0c43ebe7b087deaaf916f49b49f4057ea66e032838c7";
  cap_client := js "ClientClient";
  cap_requests := [{| op_name := js "send"; op_method := js "send"; op_errors := [js "destination_not_allowed"; js "invalid_request"; js "request_too_large"; js "response_too_large"; js "timeout"; js "transport_failure"] |}];
  cap_streams := [] |}.

Definition bindClientProvider `{ContractRuntime} := bindProvider Client.
Definition bindClientDependency `{ContractRuntime} := bindDependency Client.

(** http-endpoint.ts *)
Definition HttpEndpoint : Capability := {|
  cap_descriptor := {|
    capability_id := js "lenso.http.endpoint@1"; descriptor_version := js "1.1.0"; descriptor_digest := None;
    operations := [js "describe"; js "handle"];
    stream_operations := []; event_operations := [] |};
  cap_digest := js "sha256:701deedf705cb1a3b2f35fcae72f20ae85d46c6da6a008405a519018bbcdd3fe";
  cap_client := js "EndpointClient";
  cap_requests := [{| op_name := js "describe"; op_method := js "describe"; op_errors := [js "invalid_configuration"] |};
    {| op_name := js "handle"; op_method := js "handle"; op_errors := [js "rejected"] |}];
  cap_streams := [] |}.

Definition bindHttpEndpointProvider `{ContractRuntime} := bindProvider HttpEndpoint.
Definition bindHttpEndpointDependency `{ContractRuntime} := bindDependency HttpEndpoint.

(** identity-directory.ts *)
Definition Directory : Capability := {|
  cap_descriptor := {|
    capability_id := js "lenso.identity.directory@1"; descriptor_version := js "1.0.0"; descriptor_digest := None;
    operations := [js "ensure_identity"; js "read_status"];
    stream_operations := []; event_operations := [] |};
  cap_digest := js "sha256:1a2067f9a41179d5090f3095c4eef8ffb422ee788428ea567a9f9236d1636a91";
  cap_client := js "DirectoryClient";
  cap_requests := [{| op_name := js "ensure_identity"; op_method := js "ensure_identity"; op_errors := [js "disabled"; js "invalid_identity"] |};
    {| op_name := js "read_status"; op_method := js "read_status"; op_errors := [js "invalid_subject"; js "not_found"] |}];
  cap_streams := [] |}.

Definition bindDirectoryProvider `{ContractRuntime} := bindProvider Directory.
Definition bindDirectoryDependency `{ContractRuntime} := bindDependency Directory.

(** jobs.ts *)
Definition Jobs : Capability := {|
  cap_descriptor := {|
    capability_id := js "lenso.jobs@1"; descriptor_version := js "1.0.0"; descriptor_digest := None;
    operations := [js "claim"; js "complete"; js "enqueue"; js "fail"; js "inspect"; js "renew"];
    stream_operations := []; event_operations := [] |};
  cap_digest := js "sha256:34fca9ad91952dd4eb9da844b94925cd0a54928843c803ed51e1c6ccb11d690d";
  cap_client := js "JobsClient";
  cap_requests := [{| op_name := js "claim"; op_method := js "claim"; op_errors := [js "invalid_queue"; js "no_job_available"; js "unauthorized"] |};
    {| op_name := js "complete"; op_method := js "complete"; op_errors := [js "invalid_lease"; js "unauthorized"] |};
    {| op_name := js "enqueue"; op_method := js "enqueue"; op_errors := [js "idempotency_conflict"; js "invalid_job"; js "unauthorized"] |};
    {| op_name := js "fail"; op_method := js "fail"; op_errors := [js "invalid_failure"; js "invalid_lease"; js "unauthorized"] |};
    {| op_name := js "inspect"; op_method := js "inspect"; op_errors := [js "job_not_found"; js "unauthorized"] |};
    {| op_name := js "renew"; op_method := js "renew"; op_errors := [js "invalid_lease"; js "unauthorized"] |}];
  cap_streams := [] |}.

Definition bindJobsProvider `{ContractRuntime} := bindProvider Jobs.
Definition bindJobsDependency `{ContractRuntime} := bindDependency Jobs.

(** oauth-flow.ts *)
Definition OauthFlow : Capability := {|
  cap_descriptor := {|
    capability_id := js "lenso.auth.oauth-flow@1"; descriptor_version := js "1.0.0"; descriptor_digest := None;
    operations := [js "consume"; js "create"];
    stream_operations := []; event_operations := [] |};
  cap_digest := js "sha256:a48fea8dc09de5b5b83df7d24e903b8f0623f713aef2f1305ed6536559771610";
  cap_client := js "OauthFlowClient";
  cap_requests := [{| op_name := js "consume"; op_method := js "consume"; op_errors := [js "already_consumed"; js "expired"; js "invalid_state"; js "provider_mismatch"] |};
    {| op_name := js "create"; op_method := js "create"; op_errors := [js "invalid_expiry"; js "invalid_provider"; js "invalid_return_to"] |}];
  cap_streams := [] |}.

Definition bindOauthFlowProvider `{ContractRuntime} := bindProvider OauthFlow.
Definition bindOauthFlowDependency `{ContractRuntime} := bindDependency OauthFlow.

(** oidc-provider.ts *)
Definition OidcProvider : Capability := {|
  cap_descriptor := {|
    capability_id := js "lenso.auth.oidc-provider@1"; descriptor_version := js "1.0.0"; descriptor_digest := None;
    operations := [js "authorize"; js "exchange"; js "jwks"; js "metadata"];
    stream_operations := []; event_operations := [] |};
  cap_digest := js "sha256:2a0c7ec263bae3fd702bab778a396a9a2e6503d757d5d0f84d1afa4d4ccde1e1";
  cap_client := js "OidcProviderClient";
  cap_requests := [{| op_name := js "authorize"; op_method := js "authorize"; op_errors := [js "disabled_subject"; js "forbidden"; js "invalid_client"; js "invalid_pkce"; js "invalid_redirect_uri"; js "invalid_request"; js "invalid_scope"] |};
    {| op_name := js "exchange"; op_method := js "exchange"; op_errors := [js "disabled_subject"; js "invalid_grant"; js "invalid_request"] |};
    {| op_name := js "jwks"; op_method := js "jwks"; op_errors := [js "disabled"] |};
    {| op_name := js "metadata"; op_method := js "metadata"; op_errors := [js "disabled"] |}];
  cap_streams := [] |}.

Definition bindOidcProviderProvider `{ContractRuntime} := bindProvider OidcProvider.
Definition bindOidcProviderDependency `{ContractRuntime} := bindDependency OidcProvider.

(** password-auth.ts *)
Definition Password : Capability := {|
  cap_descriptor := {|
    capability_id := js "lenso.auth.password@1"; descriptor_version := js "1.0.0"; descriptor_digest := None;
    operations := [js "login"; js "register"];
    stream_operations := []; event_operations := [] |};
  cap_digest := js "sha256:49bcdc6966b97438419f6de15a3d929a8dab45f78dc9e1b27b0ce122f8f21b80";
  cap_client := js "PasswordClient";
  cap_requests := [{| op_name := js "login"; op_method := js "login"; op_errors := [js "disabled"; js "invalid_credentials"; js "invalid_identifier"; js "rate_limited"] |};
    {| op_name := js "register"; op_method := js "register"; op_errors := [js "disabled"; js "identifier_taken"; js "invalid_identifier"; js "weak_password"] |}];
  cap_streams := [] |}.

Definition bindPasswordProvider `{ContractRuntime} := bindProvider Password.
Definition bindPasswordDependency `{ContractRuntime} := bindDependency Password.

(** phone-auth.ts *)
Definition Phone : Capability := {|
  cap_descriptor := {|
    capability_id := js "lenso.auth.phone@1"; descriptor_version := js "1.0.0"; descriptor_digest := None;
    operations := [js "password_login"; js "set_password"; js "start_otp"; js "verify_otp"];
    stream_operations := []; event_operations := [] |};
  cap_digest := js "sha256:1140db66cc831e18608d35ce467e539918f70f90f6bde5c7fa541668c0c697ac";
  cap_client := js "PhoneClient";
  cap_requests := [{| op_name := js "password_login"; op_method := js "password_login"; op_errors := [js "disabled"; js "invalid_credentials"; js "invalid_phone"; js "rate_limited"] |};
    {| op_name := js "set_password"; op_method := js "set_password"; op_errors := [js "disabled"; js "forbidden"; js "invalid_subject"; js "not_found"; js "weak_password"] |};
    {| op_name := js "start_otp"; op_method := js "start_otp"; op_errors := [js "delivery_rejected"; js "invalid_phone"; js "invalid_purpose"; js "rate_limited"; js "resend_too_soon"] |};
    {| op_name := js "verify_otp"; op_method := js "verify_otp"; op_errors := [js "disabled"; js "expired"; js "invalid_challenge"; js "invalid_code"; js "too_many_attempts"] |}];
  cap_streams := [] |}.

Definition bindPhoneProvider `{ContractRuntime} := bindProvider Phone.
Definition bindPhoneDependency `{ContractRuntime} := bindDependency Phone.

(** secrets.ts *)
Definition Secrets : Capability := {|
  cap_descriptor := {|
    capability_id := js "lenso.secrets@1"; descriptor_version := js "1.0.0"; descriptor_digest := None;
    operations := [js "resolve"];
    stream_operations := []; event_operations := [] |};
  cap_digest := js "sha256:8f48068ae97861edffc7b156101cac61522a1d06113b7d054664b77ff781e1bd";
  cap_client := js "SecretsClient";
  cap_requests := [{| op_name := js "resolve"; op_method := js "resolve"; op_errors := [js "invalid_reference"; js "unknown_reference"] |}];
  cap_streams := [] |}.

Definition bindSecretsProvider `{ContractRuntime} := bindProvider Secrets.
Definition bindSecretsDependency `{ContractRuntime} := bindDependency Secrets.

(** sms-delivery.ts *)
Definition Sms : Capability := {|
  cap_descriptor := {|
    capability_id := js "lenso.message.sms@1"; descriptor_version := js "1.0.0"; descriptor_digest := None;
    operations := [js "send"];
    stream_operations := []; event_operations := [] |};
  cap_digest := js "sha256:9f730009bddb72adf66cc6aef67109a187aa5029087661fd58f2c2169b1e6387";
  cap_client := js "SmsClient";
  cap_requests := [{| op_name := js "send"; op_method := js "send"; op_errors := [js "invalid_destination"; js "rejected"; js "throttled"] |}];
  cap_streams := [] |}.

Definition bindSmsProvider `{ContractRuntime} := bindProvider Sms.
Definition bindSmsDependency `{ContractRuntime} := bindDependency Sms.

(** websocket-endpoint.ts *)
Definition WebsocketEndpoint : Capability := {|
  cap_descriptor := {|
    capability_id := js "lenso.websocket.endpoint@1"; descriptor_version := js "1.0.0"; descriptor_digest := None;
    operations := [js "connect_websocket"; js "describe_websocket"];
    stream_operations := [js "connect_websocket"]; event_operations := [] |};
  cap_digest := js "sha256:ab8584c9e3f1e1582398521cecedf0b2e9de0c6d29386141dcfc8175c620b798";
  cap_client := js "EndpointClient";
  cap_requests := [{| op_name := js "describe_websocket"; op_method := js "describe_websocket"; op_errors := [js "invalid_configuration"] |}];
  cap_streams := [{| op_name := js "connect_websocket"; op_method := js "connect_websocket"; op_errors := [js "rejected"; js "unauthorized"; js "unsupported_protocol"] |}] |}.

Definition bindWebsocketEndpointProvider `{ContractRuntime} := bindProvider WebsocketEndpoint.
Definition bindWebsocketEndpointDependency `{ContractRuntime} := bindDependency WebsocketEndpoint.

(** Every capability the package ships. *)
Definition shipped : list Capability :=
  [AccountAdmin; OpenaiCodex; Model; PromptProvider; Prompt; Session; ToolProvider; Tools; Agent; Anonymous; Auth; CredentialIssuer; Device; Federated; Client; HttpEndpoint; Directory; Jobs; OauthFlow; OidcProvider; Password; Phone; Secrets; Sms; WebsocketEndpoint].
