(* ===== verification/CapabilityCorrect.v ===== *)
(** * What the generated bindings do

    Between a client and a Provider the bindings are transparent: what the Provider's
    method returns or throws is what the client's caller gets.  A stream over an iterable
    delivers its items and ends, to a Host that reads it through the Authoring V2 server too,
    and a cancelled one has ended.  Every shipped capability
    dispatches exactly the operations of its descriptor and is accepted by [definePlugin]. *)

From Stdlib Require Import ZArith SpecFloat.
From S2P Require Import Prelude JsValue Text Json JsonText Authoring V2 V2Framing V2Calls V2Streams V2Runs Capability Capabilities.

(** ** What is relied on *)

(** A domain error of a contract with these plain codes: one of the codes, or an object with a
    string [code], as the errors with a payload and [UnknownDomainError] are. *)
Definition domain_error (codes : list jsstr) (e : jsval) : Prop :=
  (∃ code, e = JStr code ∧ code ∈ codes) ∨ (∃ fields code, e = JObj fields ∧ field fields "code" = JStr code).

(** @lenso/contract-runtime encodes a portable value as JSON text of its wire form, reads
    the wire form back, also after another encoding, and reads a domain error of the contract as
    itself (the generated files that carry the runtime along, fixtures/bun/vendor, show how). *)
Class ContractLaws `{ContractRuntime} (portable : jsval → Prop) (wire : jsval → jsval) := {
  law_to_wire v subject : portable v → to_wire v subject = Ok (wire v);
  law_from_payload v subject : portable v → from_payload (wire v) subject = Ok v;
  law_decode v : portable v → decodePortableJson (json_text (wire v)) = Ok v;
  law_domain e codes :
    portable e → domain_error codes e → decodeDomainError (json_text (wire e)) codes = Ok e }.

Lemma find_operation_Some l name op : find_operation l name = Some op → op ∈ l ∧ op_name op = name.
Proof.
  unfold find_operation. intros [Hin Hn]%find_some. split; [by apply list_elem_of_In|]. by apply bool_decide_eq_true in Hn.
Qed.

Section transparency.
Context `{ContractRuntime} {portable wire} `{!ContractLaws portable wire}.

(** A result that stays within the contract of an operation. *)
Definition within_contract (op : Operation) (r : ProviderResult) : Prop :=
  match r with
  | ResultOk v => portable v
  | ResultDomain e => portable e ∧ domain_error (op_errors op) e
  | ResultRuntime _ => True
  end.

(** What the caller of a client should get when the Provider's method ends so. *)
Definition as_result (m : completion ProviderResult) : ClientResult :=
  match m with
  | Threw e => ClientRuntime (JObj (plugin_failure e))
  | Returned (ResultOk v) => ClientOk v
  | Returned (ResultDomain e) => ClientDomain e
  | Returned (ResultRuntime f) => ClientRuntime (JObj f)
  end.

(** What it gets when two Plugins are connected by the Host: a failure is normalized on
    its way out and wrapped on its way in. *)
Definition as_remote_result (p : InvokeParams) (m : completion ProviderResult) : ClientResult :=
  match as_result m with
  | ClientRuntime (JObj f) =>
      let f := normalizeRuntimeFailure f (correlation_id p) (inv_capability_id p) (inv_operation p) in
      ClientRuntime (JObj [(js "kind", field f "kind"); (js "detail", JObj f)])
  | r => r
  end.

(** What the binding answers. *)
Lemma invokeRequest_exact c operation op provider request context :
  find_operation (cap_requests c) operation = Some op → portable request →
  (∀ r, provider (op_method op) context request = Returned r → within_contract op r) →
  invokeRequest c provider operation context (wire request) =
  match provider (op_method op) context request with
  | Threw e => PRuntime (plugin_failure e)
  | Returned (ResultOk v) => PSuccess (wire v)
  | Returned (ResultDomain e) => PDomain (wire e)
  | Returned (ResultRuntime f) => PRuntime f
  end.
Proof.
  intros Hop Hreq Hr. unfold invokeRequest. rewrite Hop, law_from_payload by done.
  destruct (provider (op_method op) context request) as [[v|e|f]|e]; try done; specialize (Hr _ eq_refl); cbn [lower_result].
  - by rewrite law_to_wire.
  - by rewrite law_to_wire by apply Hr.
Qed.

(** What a client makes of an answer within the contract. *)
Lemma client_request_exact op invoke request context o :
  portable request → invoke (op_name op) (call_context context) (wire request) = Returned o →
  client_request op invoke request context =
  catch (raise_outcome op o) (fun e => ClientRuntime (JObj (plugin_failure e))).
Proof. intros Hreq Ho. unfold client_request. rewrite law_to_wire by done. by rewrite Ho. Qed.

Lemma raise_domain op e :
  portable e → domain_error (op_errors op) e → raise_outcome op (PDomain (wire e)) = Ok (ClientDomain e).
Proof. intros Hp He. cbn [raise_outcome]. by rewrite law_domain. Qed.

Lemma call_transparent c operation op provider request context p :
  find_operation (cap_requests c) operation = Some op → portable request →
  (∀ r, provider (op_method op) (call_context context) request = Returned r → within_contract op r) →
  client_request op (fun o x v => Returned (invokeRequest c provider o x v)) request context =
    as_result (provider (op_method op) (call_context context) request) ∧
  client_request op (fun o x v => Returned (fromWireOutcome (toWireOutcome (invokeRequest c provider o x v) p)))
    request context = as_remote_result p (provider (op_method op) (call_context context) request).
Proof.
  intros Hop Hreq Hr. pose proof (invokeRequest_exact c operation op provider request _ Hop Hreq Hr) as Hi.
  destruct (find_operation_Some _ _ _ Hop) as [_ Hn]. rewrite <-Hn in *.
  split; (erewrite client_request_exact; [|done|cbv beta; rewrite Hi; reflexivity]).
  all: destruct (provider (op_method op) (call_context context) request) as [[v|e|f]|e]; try done;
    specialize (Hr _ eq_refl); cbn [within_contract] in Hr.
  1, 3: cbn [toWireOutcome fromWireOutcome raise_outcome]; by rewrite law_decode.
  all: destruct Hr as [Hp He]; cbn [toWireOutcome fromWireOutcome]; by rewrite raise_domain.
Qed.

(** C26: a client whose calls reach the Provider binding is transparent, for portable values.
    When the request is portable and the Provider's method keeps to the contract (what it
    returns is portable, and a domain error is one of the plain codes of the operation or an
    object with a string code, as declared errors with a payload and unknown ones are), the
    method of the operation's case is called with the request and the context of the call, and
    what it returns or throws is what the caller gets.  Through the outcomes of the Authoring V2 wire this stays
    so for successes and domain errors, and a runtime failure arrives normalized. *)
Theorem request_transparent c operation op provider request context p :
  find_operation (cap_requests c) operation = Some op → portable request →
  (∀ r, provider (op_method op) (call_context context) request = Returned r → within_contract op r) →
  client_request op (fun o x v => Returned (invokeRequest c provider o x v)) request context =
    as_result (provider (op_method op) (call_context context) request) ∧
  client_request op (fun o x v => Returned (fromWireOutcome (toWireOutcome (invokeRequest c provider o x v) p)))
    request context = as_remote_result p (provider (op_method op) (call_context context) request).
Proof. apply call_transparent. Qed.

(** ** Streams *)

(** [k] receives on a session, one after another. *)
Fixpoint receives {S} (session : StreamSession S) (k : nat) (s : S) : list (result stream_error StreamEvent) * S :=
  match k with
  | O => ([], s)
  | Datatypes.S k => let '(e, s) := ss_receive session s in let '(es, s) := receives session k s in (e :: es, s)
  end.

(** An iterator that yields these items and is then done. *)
Inductive iterates {S} (it : AsyncIterator S) : S → list jsval → S → Prop :=
| iterates_done s s' : ai_next it s = (Ok None, s') → iterates it s [] s'
| iterates_item s s1 v l s' : ai_next it s = (Ok (Some v), s1) → iterates it s1 l s' → iterates it s (v :: l) s'.

(** The session a client has of an iterable. *)
Definition server_stream {S} (op : Operation) (it : AsyncIterator S) : StreamSession (S * bool) :=
  client_stream op (bind_stream (lowerProviderStream it)).

Lemma server_receive {S} op (it : AsyncIterator S) s v s' :
  ai_next it s = (Ok (Some v), s') → portable v →
  ss_receive (server_stream op it) (s, false) = (Ok (EventMessage v), (s', false)).
Proof. intros E Hv. cbn. rewrite E. cbn. rewrite law_to_wire by done. cbn. by rewrite law_decode. Qed.

(** A client reads from an iterable exactly its items, in order, and then that the
    stream ended; and whatever it sends is refused as a violation of the protocol. *)
Theorem server_stream_exact {S} op (it : AsyncIterator S) s l s' :
  iterates it s l s' → Forall portable l →
  receives (server_stream op it) (length l + 1) (s, false) =
    (map (fun v => Ok (EventMessage v)) l ++ [Ok (EventTerminal None)], (s', false)) ∧
  ∀ message, portable message → ∃ text,
    ss_send (server_stream op it) message (s, false) =
      (Throw (FailureError text (detail "protocol_violation" (js "server-output stream does not accept inbound messages"))),
       (s, false)).
Proof.
  intros Hit Hl. split.
  - induction Hit as [s s' E|s s1 v l s' E Hit IH]; [cbn; by rewrite E|].
    apply Forall_cons in Hl as [Hv Hl]. cbn [length Nat.add receives map app].
    rewrite (server_receive op it s v s1) by done. by rewrite IH.
  - intros message Hm. eexists. cbn. rewrite law_to_wire by done. cbn. by rewrite law_from_payload.
Qed.

(** What the binding of a stream gives when it is asked [k] times. *)
Fixpoint gives {S} (b : StreamBinding S) (k : nat) (s : S) : list ProviderStreamReceiveOutcome :=
  match k with
  | O => []
  | Datatypes.S k => let '(c, s) := sb_receive b s in c :: gives b k s
  end.

Lemma iterable_gives {S} (it : AsyncIterator S) s l s' :
  iterates it s l s' → Forall portable l →
  gives (bind_stream (lowerProviderStream it)) (length l + 1) (s, false) = map ReceiveMessage (map wire l) ++ [ReceiveSuccess].
Proof.
  intros Hit Hl. induction Hit as [s s' E|s s1 v l s' E Hit IH]; [cbn; by rewrite E|].
  apply Forall_cons in Hl as [Hv Hl]. cbn [length Nat.add gives map app].
  assert (sb_receive (bind_stream (lowerProviderStream it)) (s, false) = (ReceiveMessage (wire v), (s1, false))) as ->.
  { cbn. rewrite E. cbn. by rewrite law_to_wire. }
  by rewrite IH.
Qed.

(** C27: a Host that reads a stream of a Plugin gets the items of the Plugin's iterable.  The
    generated binding lowers the iterable, the Authoring V2 server numbers what it gives, and
    the requests of the reader are answered with the items' wire forms numbered 0, 1, 2, ...,
    then with the end of the stream, and then with violations; the stream is asked once per
    item and once for its end, and nothing stays suspended. *)
Theorem host_reads_iterable `{AuthoringProtocol, PluginCode} definition runtimeProfile bootstrap secret srv i id o xs
    {S} (it : AsyncIterator S) s l s' :
  iterates it s l s' → Forall portable l → stands srv i id o (Some 0%Z) → Forall (valid_pull i id) xs →
  let limit := max_frame_bytes (limits i) in
  let outcomes := gives (bind_stream (lowerProviderStream it)) (length l + 1) (s, false) in
  let events := (reading o (Some 0%Z) (nextFiber srv) limit xs outcomes).1 in
  ∃ srv', V2.run definition runtimeProfile bootstrap secret srv events =
      Some (srv', responses o (nextFiber srv) limit xs (delivery 0 (map wire l) (length xs))) ∧
    fibers srv' = fibers srv.
Proof.
  intros Hit Hl Hst Hxs. cbn zeta. rewrite (iterable_gives it s l s' Hit Hl).
  pose proof (reading_runs definition runtimeProfile bootstrap secret srv i id o (Some 0%Z) xs
    (map ReceiveMessage (map wire l) ++ [ReceiveSuccess]) Hst Hxs) as Hrun.
  pose proof (reading_delivers o (nextFiber srv) (max_frame_bytes (limits i)) xs 0 (map wire l) (length xs) ltac:(lia)) as Hd.
  destruct (reading _ _ _ _ _ _) as [es out]. cbn [fst snd] in *. subst out.
  destruct Hrun as (srv' & pos' & E & _ & Hf & _). by exists srv'.
Qed.
End transparency.

(** Once a client has cancelled a stream of an iterable, every receive says that the
    stream ended and the iterator is not asked again. *)
Theorem cancelled_stream_ended `{ContractRuntime} {S} op (it : AsyncIterator S) s k :
  let session := server_stream op it in
  receives session k (ss_cancel session s) = (replicate k (Ok (EventTerminal None)), ss_cancel session s).
Proof. induction k as [|k IH]; [done|]. cbn in *. by rewrite IH. Qed.

(** ** Shipped capabilities *)

(** Requests and streams share out the operations of the descriptor, and each case calls the
    method of its operation. *)
Definition dispatches_exactly (c : Capability) : Prop :=
  ∀ operation,
    (is_Some (find_operation (cap_requests c) operation) ↔
       operation ∈ operations (cap_descriptor c) ∧ operation ∉ stream_operations (cap_descriptor c)) ∧
    (is_Some (find_operation (cap_streams c) operation) ↔ operation ∈ stream_operations (cap_descriptor c)) ∧
    (operation ∉ event_operations (cap_descriptor c)) ∧
    (∀ op, find_operation (cap_requests c) operation = Some op ∨ find_operation (cap_streams c) operation = Some op →
       op_method op = operation).

Definition dispatch_table (c : Capability) : bool :=
  bool_decide (map op_name (cap_requests c) =
               filter (fun o => o ∉ stream_operations (cap_descriptor c)) (operations (cap_descriptor c))) &&
  bool_decide (map op_name (cap_streams c) = stream_operations (cap_descriptor c)) &&
  bool_decide (map op_method (cap_requests c ++ cap_streams c) = map op_name (cap_requests c ++ cap_streams c)) &&
  bool_decide (event_operations (cap_descriptor c) = []).

Lemma find_operation_is_Some l name : is_Some (find_operation l name) ↔ name ∈ map op_name l.
Proof.
  rewrite list_elem_of_fmap. split.
  - intros [op [Hin <-]%find_operation_Some]. eauto.
  - intros (op & -> & Hin). unfold find_operation. destruct (List.find _ l) eqn:E; [by eauto|].
    eapply find_none in E; [|by apply list_elem_of_In]. by rewrite bool_decide_true in E.
Qed.

Lemma dispatch_table_exact c : dispatch_table c = true → dispatches_exactly c.
Proof.
  unfold dispatch_table. rewrite !andb_true_iff, !bool_decide_eq_true. intros [[[Er Es] Em] Ee] operation.
  rewrite !find_operation_is_Some, Er, Es, Ee, list_elem_of_filter. split_and!; [tauto|tauto|apply not_elem_of_nil|].
  intros op Hop. assert (op ∈ cap_requests c ++ cap_streams c ∧ op_name op = operation) as [Hin <-].
  { rewrite elem_of_app. destruct Hop as [[??]%find_operation_Some|[??]%find_operation_Some]; auto. }
  clear Hop Er Es Ee. revert Em Hin. generalize (cap_requests c ++ cap_streams c). intros l.
  induction l as [|x l IH]; [by intros _ ?%elem_of_nil|]. cbn. intros [= E1 E2] [->|Hin]%elem_of_cons; auto.
Qed.

(** A Plugin that provides every shipped capability and depends on each in three ways. *)
Definition everything : PluginOptions := {|
  opt_provides := Some (map contract_value shipped);
  opt_providers := None;
  opt_dependencies := Some (concat (map (fun c =>
    let id := capability_id (cap_descriptor c) in
    [(js "one " ++ id, required c None); (js "optional " ++ id, optional c None); (js "many " ++ id, many c (Some id))])
    shipped));
  opt_config := None; opt_configurationSchema := None; opt_has_decodeConfig := false;
  opt_has_create := false; opt_has_stop := false; opt_maxConcurrentRequests := JUndef |}.

Lemma shipped_tables : forallb (fun c => dispatch_table c && digest_shape (cap_digest c)) shipped = true.
Proof. vm_compute. reflexivity. Qed.

(** C28: every shipped capability dispatches exactly the operations of its descriptor, as
    requests or as streams, each to the method of that name, and has a well-formed digest; and [definePlugin] accepts a
    Plugin that provides all of them and depends on each, once, optionally and many times. *)
Theorem shipped_capabilities_admissible :
  (∀ c, c ∈ shipped → dispatches_exactly c ∧ digest_shape (cap_digest c) = true) ∧
  ∃ d, definePlugin everything = Ok d ∧ map pp_descriptor (def_providers d) = map cap_descriptor shipped.
Proof.
  split.
  - intros c Hc. pose proof shipped_tables as Hs. rewrite forallb_forall in Hs.
    specialize (Hs c ltac:(by apply list_elem_of_In)). apply andb_true_iff in Hs as [Ht Hd].
    split; [by apply dispatch_table_exact|done].
  - destruct (definePlugin everything) as [d|e] eqn:E; [|exfalso; revert E; vm_compute; discriminate].
    exists d. split; [done|]. revert E. vm_compute. intros E. injection E as <-. reflexivity.
Qed.

(** ** A contract runtime *)

Module Demo.

(** JSON text as it is, without the checks of the package. *)
#[local] Instance plain : ContractRuntime := {|
  encodePortableJson v _ := match v with JUndef => Throw (ErrorObject (js "not portable")) | v => Ok (json_text v) end;
  decodePortableJson t := match json_parse t with Some v => Ok v | None => Throw (ErrorObject (js "not portable")) end;
  decodeDomainError t codes :=
    match json_parse t with
    | Some (JStr code) => Ok (if mem code codes then JStr code else JObj [(js "code", JStr code)])
    | Some (JObj fields) => match field fields "code" with
                            | JStr _ => Ok (JObj fields)
                            | _ => Throw (ErrorObject (js "Domain Error must be a string or object"))
                            end
    | _ => Throw (ErrorObject (js "Domain Error must be a string or object"))
    end;
  syntax_error t := ErrorObject (js "JSON Parse error") |}.

(** A value that JSON text keeps. *)
Definition kept (v : jsval) : Prop := v ≠ JUndef ∧ json_parse (json_text v) = Some v.

Lemma portable_kept v : portable v = true → kept v.
Proof. intros Hv. split; [by intros ->|by apply json_roundtrip]. Qed.

Lemma kept_string s : kept (JStr s).
Proof.
  split; [done|]. unfold json_parse. pose proof (reads_string s (2 * length (json_text (JStr s)) + 2) []) as Hr.
  rewrite app_nil_r in Hr. by rewrite Hr by (done || lia).
Qed.

#[local] Instance plain_laws : ContractLaws kept (fun v => v).
Proof.
  split; unfold to_wire, from_payload, parse; cbn [encodePortableJson decodePortableJson decodeDomainError plain].
  - intros v subject [Hv E]. destruct v; [done|..]; cbn [mbind result_bind]; by rewrite E.
  - intros v subject [Hv E]. destruct v; [done|..]; cbn [mbind result_bind]; by rewrite E.
  - intros v [Hv E]. by rewrite E.
  - intros e codes [_ E] [(code & -> & Hc)|(fields & code & -> & Hc)]; rewrite E.
    + by rewrite (proj2 (mem_true code codes) Hc).
    + by rewrite Hc.
Qed.

(** [append] to a session that has moved on: an error with a payload. *)
Definition conflict : jsval := JObj [
  (js "code", JStr (js "revision_conflict")); (js "payload", JObj [(js "current_revision", JStr (js "7"))])].

Definition append (operation : jsstr) (context request : jsval) : completion ProviderResult :=
  Returned (ResultDomain conflict).

Definition append_operation : Operation :=
  {| op_name := js "append"; op_method := js "append"; op_errors := [js "invalid_event"; js "not_found"] |}.

(** A call of the Host to the endpoint of the Plugin. *)
Definition call_of_host : InvokeParams := {|
  inv_session := js "session"; correlation_id := js "1"; endpoint_id := js "jobs";
  inv_capability_id := js "lenso.jobs@1"; inv_operation := js "claim";
  inv_scope := {| scope_id := js "scope"; parent_scope_id := None; remaining_budget_nanos := 1000000%N;
    permissions := JArr []; scope_extensions := [] |};
  inv_payload := JStr (js "mail") |}.

(** The request names the queue and how long the lease lasts. *)
Definition claim_request : jsval := JObj [(js "queue", JStr (js "mail")); (js "lease_seconds", JNum (num 30))].

Lemma request_transparent_witness :
  client_request append_operation (fun o x p => Returned (invokeRequest Session append o x p)) claim_request None =
  ClientDomain conflict.
Proof.
  refine (proj1 (request_transparent (portable := kept) (wire := fun v => v) Session (js "append") append_operation append
            claim_request None call_of_host _ _ _)).
  - vm_compute. reflexivity.
  - apply portable_kept. vm_compute. reflexivity.
  - intros r Hr. unfold append in Hr. injection Hr as <-. split; [apply portable_kept; vm_compute; reflexivity|].
    right. eexists _, _. split; [reflexivity|]. vm_compute. reflexivity.
Defined.

(** An iterator over a list. *)
Definition list_iterator : AsyncIterator (list jsval) := {|
  ai_next l := match l with [] => (Ok None, []) | v :: l => (Ok (Some v), l) end;
  ai_return := Some (fun _ => []) |}.

Lemma server_stream_exact_witness :
  receives (server_stream append_operation list_iterator) 3 ([JStr (js "a"); JStr (js "b")], false) =
  ([Ok (EventMessage (JStr (js "a"))); Ok (EventMessage (JStr (js "b"))); Ok (EventTerminal None)], ([], false)).
Proof.
  refine (proj1 (server_stream_exact (portable := kept) (wire := fun v => v) append_operation list_iterator
                   [JStr (js "a"); JStr (js "b")] [JStr (js "a"); JStr (js "b")] [] _ _)).
  - econstructor; [reflexivity|]. econstructor; [reflexivity|]. constructor. reflexivity.
  - repeat constructor; apply kept_string.
Defined.

(** Two items read through the server of the V2 example. *)
Lemma host_reads_iterable_witness :
  ∃ srv', @V2.run V2Runs.Demo.protocol V2Runs.Demo.code V2Runs.Demo.plugin [] V2Runs.Demo.boot [] V2Runs.Demo.streaming
      (@reading V2Runs.Demo.protocol 0 (Some 0%Z) 4 100000 V2Runs.Demo.pulls
         (gives (bind_stream (lowerProviderStream list_iterator)) 3 ([JStr (js "a"); JStr (js "b")], false))).1 =
    Some (srv', @responses V2Runs.Demo.protocol 0 4 100000 V2Runs.Demo.pulls (delivery 0 [JStr (js "a"); JStr (js "b")] 4)) ∧
    fibers srv' = fibers V2Runs.Demo.streaming.
Proof.
  refine (@host_reads_iterable _ kept (fun v => v) _ V2Runs.Demo.protocol V2Runs.Demo.code V2Runs.Demo.plugin []
    V2Runs.Demo.boot [] V2Runs.Demo.streaming (V2Runs.Demo.proposal (js "S")) (js "1") 0 V2Runs.Demo.pulls
    (list jsval) list_iterator [JStr (js "a"); JStr (js "b")] [JStr (js "a"); JStr (js "b")] [] _ _ _ _).
  - econstructor; [reflexivity|]. econstructor; [reflexivity|]. constructor. reflexivity.
  - repeat constructor; apply kept_string.
  - exact V2Runs.Demo.streaming_stands.
  - exact V2Runs.Demo.pulls_valid.
Defined.
End Demo.
