(* ===== verification/Contracts.v ===== *)
(** * The types of the shipped contracts (packages/lenso-bun/src/capabilities)

    Every generated file declares the interfaces of the messages its operations take and
    return, and for each operation the union of its domain errors and the type of its result.
    A type is a description of the values it admits; [has_type] is assignability of a plain
    value to it.  [Timestamp], [Uint64] and [Bytes] are types of @lenso/contract-runtime: the
    class [ContractScalars] says which values they have.  Every union of errors also has
    [UnknownDomainError], what the runtime makes of a code that is not in the contract. *)

From S2P Require Import Prelude JsValue Text Json Authoring Capability Capabilities.

(** ** Types *)

Inductive ts_type :=
| TString | TNumber | TBoolean | TNull
| TLiteral (s : jsstr)
| TTimestamp | TUint64 | TBytes
| TRecord
| TArray (item : ts_type)
| TUnion (a b : ts_type)
| TObject (properties : list (jsstr * bool * ts_type)).

(** A property that must be there, and one that may be left out. *)
Definition prop (name : string) (t : ts_type) : jsstr * bool * ts_type := (js name, false, t).
Definition opt (name : string) (t : ts_type) : jsstr * bool * ts_type := (js name, true, t).

Class ContractScalars := {
  is_timestamp : jsval → bool;
  is_uint64 : jsval → bool;
  is_bytes : jsval → bool }.

Section types.
Context `{ContractScalars}.

(** Whether a value may be given where the type is expected.  An object may have more
    properties than its type names; a property that may be left out may also be [undefined]. *)
Fixpoint has_type (t : ts_type) (v : jsval) : bool :=
  match t with
  | TString => match v with JStr _ => true | _ => false end
  | TNumber => match v with JNum _ => true | _ => false end
  | TBoolean => match v with JBool _ => true | _ => false end
  | TNull => match v with JNull => true | _ => false end
  | TLiteral s => bool_decide (v = JStr s)
  | TTimestamp => is_timestamp v
  | TUint64 => is_uint64 v
  | TBytes => is_bytes v
  | TRecord => match v with JObj _ => true | _ => false end
  | TArray item => match v with JArr l => forallb (has_type item) l | _ => false end
  | TUnion a b => has_type a v || has_type b v
  | TObject properties =>
      match v with
      | JObj own =>
          (fix all (ps : list (jsstr * bool * ts_type)) : bool :=
             match ps with
             | [] => true
             | (name, optional_, t) :: ps =>
                 match assoc name own with
                 | Some JUndef => optional_
                 | Some w => has_type t w
                 | None => optional_
                 end && all ps
             end) properties
      | _ => false
      end
  end.
End types.

(** The interface of an operation: its request, its response (for a stream, its messages), its
    domain errors that are codes, and those that are a code with a payload. *)
Record OperationTypes := {
  ot_name : jsstr; ot_request : ts_type; ot_response : ts_type; ot_errors : list jsstr;
  ot_coded : list (jsstr * ts_type) }.

(** ** account-admin.ts *)

Definition AccountAdmin_ListSessionsRequest : ts_type := TObject [
  prop "cursor" (TUnion TString TNull); prop "limit" TNumber; prop "subject" (TUnion TString TNull)].

Definition AccountAdmin_ListSessionsResponseSessionsItem : ts_type := TObject [
  prop "actor_kind" TString; prop "assurance" TString; prop "created_at" TTimestamp; prop "expires_at" TTimestamp;
  prop "revoked" TBoolean; prop "session_id" TString; prop "subject" TString].

Definition AccountAdmin_ListSessionsResponse : ts_type := TObject [
  prop "next_cursor" (TUnion TString TNull); prop "sessions" (TArray AccountAdmin_ListSessionsResponseSessionsItem)].

Definition AccountAdmin_ListSubjectsRequest : ts_type := TObject [
  prop "cursor" (TUnion TString TNull); prop "limit" TNumber].

Definition AccountAdmin_ListSubjectsResponseSubjectsItem : ts_type := TObject [
  prop "created_at" TTimestamp; prop "disabled_reason" (TUnion TString TNull);
  prop "disabled_until" (TUnion TTimestamp TNull);
  prop "status" (TUnion (TLiteral (js "active")) (TLiteral (js "disabled"))); prop "subject" TString].

Definition AccountAdmin_ListSubjectsResponse : ts_type := TObject [
  prop "next_cursor" (TUnion TString TNull); prop "subjects" (TArray AccountAdmin_ListSubjectsResponseSubjectsItem)].

Definition AccountAdmin_SetSubjectStatusRequest : ts_type := TObject [
  prop "disabled_until" (TUnion TTimestamp TNull); prop "reason" (TUnion TString TNull);
  prop "status" (TUnion (TLiteral (js "active")) (TLiteral (js "disabled"))); prop "subject" TString].

Definition AccountAdmin_SetSubjectStatusResponse : ts_type := TObject [
  prop "changed" TBoolean].

Definition AccountAdmin_list_sessions : OperationTypes := {|
  ot_name := js "list_sessions"; ot_request := AccountAdmin_ListSessionsRequest; ot_response :=
    AccountAdmin_ListSessionsResponse;
  ot_errors := [js "forbidden"; js "invalid_page"; js "invalid_subject"];
  ot_coded := [] |}.

Definition AccountAdmin_list_subjects : OperationTypes := {|
  ot_name := js "list_subjects"; ot_request := AccountAdmin_ListSubjectsRequest; ot_response :=
    AccountAdmin_ListSubjectsResponse;
  ot_errors := [js "forbidden"; js "invalid_page"];
  ot_coded := [] |}.

Definition AccountAdmin_set_subject_status : OperationTypes := {|
  ot_name := js "set_subject_status"; ot_request := AccountAdmin_SetSubjectStatusRequest; ot_response :=
    AccountAdmin_SetSubjectStatusResponse;
  ot_errors := [js "forbidden"; js "invalid_status"; js "invalid_subject"; js "not_found"];
  ot_coded := [] |}.

(** ** agent-auth-openai-codex.ts *)

Definition OpenaiCodex_AccessRequest : ts_type := TObject [].

Definition OpenaiCodex_AccessResponse : ts_type := TObject [
  prop "access_token" TString; prop "account_id" TString; prop "expires_at" TUint64].

Definition OpenaiCodex_access : OperationTypes := {|
  ot_name := js "access"; ot_request := OpenaiCodex_AccessRequest; ot_response := OpenaiCodex_AccessResponse;
  ot_errors := [js "not_authenticated"; js "refresh_rejected"];
  ot_coded := [] |}.

(** ** agent-model.ts *)

Definition Model_CompleteRequestMessagesItem : ts_type := TObject [
  opt "arguments_json" TString; prop "content" TString;
  prop "role" (TUnion (TLiteral (js "system")) (TUnion (TLiteral (js "user")) (TUnion (TLiteral (js "assistant"))
    (TLiteral (js "tool")))));
  opt "tool_call_id" TString; opt "tool_name" TString].

Definition Model_CompleteRequestToolsItem : ts_type := TObject [
  prop "description" TString; prop "input_schema_json" TString; prop "name" TString].

Definition Model_CompleteRequest : ts_type := TObject [
  prop "max_output_tokens" TNumber; prop "messages" (TArray Model_CompleteRequestMessagesItem);
  prop "model" TString; prop "temperature" TNumber; prop "tools" (TArray Model_CompleteRequestToolsItem)].

Definition Model_CompleteResponse : ts_type := TObject [
  prop "arguments_json" TString; prop "input_tokens" TUint64;
  prop "kind" (TUnion (TLiteral (js "text_delta")) (TUnion (TLiteral (js "tool_call")) (TLiteral (js "usage"))));
  prop "output_tokens" TUint64; prop "sequence" TUint64; prop "text" TString; prop "tool_call_id" TString;
  prop "tool_name" TString].

Definition Model_complete : OperationTypes := {|
  ot_name := js "complete"; ot_request := Model_CompleteRequest; ot_response := Model_CompleteResponse;
  ot_errors := [js "content_rejected"; js "invalid_request"; js "unsupported_model"];
  ot_coded := [] |}.

(** ** agent-prompt-provider.ts *)

Definition PromptProvider_ContributeRequest : ts_type := TObject [].

Definition PromptProvider_ContributeResponseContributionsItem : ts_type := TObject [
  prop "content" TString; prop "id" TString;
  prop "kind" (TUnion (TLiteral (js "instruction")) (TLiteral (js "skill"))); prop "version" TString].

Definition PromptProvider_ContributeResponse : ts_type := TObject [
  prop "contributions" (TArray PromptProvider_ContributeResponseContributionsItem)].

Definition PromptProvider_contribute : OperationTypes := {|
  ot_name := js "contribute"; ot_request := PromptProvider_ContributeRequest; ot_response :=
    PromptProvider_ContributeResponse;
  ot_errors := [js "contribution_invalid"];
  ot_coded := [] |}.

(** ** agent-prompt.ts *)

Definition Prompt_AssembleRequest : ts_type := TObject [].

Definition Prompt_AssembleResponseContributionsItem : ts_type := TObject [
  prop "digest" TString; prop "id" TString;
  prop "kind" (TUnion (TLiteral (js "instruction")) (TLiteral (js "skill"))); prop "version" TString].

Definition Prompt_AssembleResponse : ts_type := TObject [
  prop "content" TString; prop "contributions" (TArray Prompt_AssembleResponseContributionsItem)].

Definition Prompt_assemble : OperationTypes := {|
  ot_name := js "assemble"; ot_request := Prompt_AssembleRequest; ot_response := Prompt_AssembleResponse;
  ot_errors := [js "prompt_invalid"];
  ot_coded := [] |}.

(** ** agent-session.ts *)

Definition Session_AppendSessionRequestEventsItem : ts_type := TObject [
  prop "event_id" TString;
  prop "kind" (TUnion (TLiteral (js "session_created")) (TUnion (TLiteral (js "turn_started")) (TUnion (TLiteral (js
    "model_requested")) (TUnion (TLiteral (js "model_output")) (TUnion (TLiteral (js "tool_requested")) (TUnion
    (TLiteral (js "tool_result")) (TUnion (TLiteral (js "turn_completed")) (TUnion (TLiteral (js "turn_failed"))
    (TLiteral (js "turn_cancelled"))))))))));
  prop "occurred_at" TTimestamp; prop "payload_json" TString; opt "turn_id" TString].

Definition Session_AppendSessionRequest : ts_type := TObject [
  prop "events" (TArray Session_AppendSessionRequestEventsItem); prop "expected_revision" TUint64;
  prop "session_id" TString].

Definition Session_AppendSessionResponse : ts_type := TObject [
  prop "revision" TUint64].

Definition Session_AppendErrorRevisionConflictPayload : ts_type := TObject [
  prop "current_revision" TUint64].

Definition Session_OpenSessionRequest : ts_type := TObject [
  opt "session_id" TString].

Definition Session_OpenSessionResponse : ts_type := TObject [
  prop "created" TBoolean; prop "revision" TUint64; prop "session_id" TString].

Definition Session_ReadSessionRequest : ts_type := TObject [
  prop "after_revision" TUint64; prop "limit" TNumber; prop "session_id" TString].

Definition Session_ReadSessionResponseEventsItem : ts_type := TObject [
  prop "event_id" TString;
  prop "kind" (TUnion (TLiteral (js "session_created")) (TUnion (TLiteral (js "turn_started")) (TUnion (TLiteral (js
    "model_requested")) (TUnion (TLiteral (js "model_output")) (TUnion (TLiteral (js "tool_requested")) (TUnion
    (TLiteral (js "tool_result")) (TUnion (TLiteral (js "turn_completed")) (TUnion (TLiteral (js "turn_failed"))
    (TLiteral (js "turn_cancelled"))))))))));
  prop "occurred_at" TTimestamp; prop "payload_json" TString; prop "revision" TUint64; opt "turn_id" TString].

Definition Session_ReadSessionResponse : ts_type := TObject [
  prop "events" (TArray Session_ReadSessionResponseEventsItem); prop "revision" TUint64; prop "session_id" TString].

Definition Session_append : OperationTypes := {|
  ot_name := js "append"; ot_request := Session_AppendSessionRequest; ot_response := Session_AppendSessionResponse;
  ot_errors := [js "invalid_event"; js "not_found"];
  ot_coded := [(js "revision_conflict", Session_AppendErrorRevisionConflictPayload)] |}.

Definition Session_open : OperationTypes := {|
  ot_name := js "open"; ot_request := Session_OpenSessionRequest; ot_response := Session_OpenSessionResponse;
  ot_errors := [js "invalid_session_id"; js "not_found"];
  ot_coded := [] |}.

Definition Session_read : OperationTypes := {|
  ot_name := js "read"; ot_request := Session_ReadSessionRequest; ot_response := Session_ReadSessionResponse;
  ot_errors := [js "invalid_cursor"; js "not_found"];
  ot_coded := [] |}.

(** ** agent-tool-provider.ts *)

Definition ToolProvider_CatalogRequest : ts_type := TObject [].

Definition ToolProvider_CatalogResponseToolsItem : ts_type := TObject [
  prop "description" TString; prop "input_schema_json" TString; prop "name" TString].

Definition ToolProvider_CatalogResponse : ts_type := TObject [
  prop "tools" (TArray ToolProvider_CatalogResponseToolsItem)].

Definition ToolProvider_ExecuteRequest : ts_type := TObject [
  prop "arguments_json" TString; prop "name" TString].

Definition ToolProvider_ExecuteResponse : ts_type := TObject [
  prop "content" TString; prop "content_type" (TLiteral (js "text")); prop "metadata_json" TString].

Definition ToolProvider_ExecuteErrorExecutionFailedPayload : ts_type := TObject [
  prop "details_json" TString; prop "message" TString; prop "reason_code" TString].

Definition ToolProvider_catalog : OperationTypes := {|
  ot_name := js "catalog"; ot_request := ToolProvider_CatalogRequest; ot_response := ToolProvider_CatalogResponse;
  ot_errors := [js "catalog_invalid"];
  ot_coded := [] |}.

Definition ToolProvider_execute : OperationTypes := {|
  ot_name := js "execute"; ot_request := ToolProvider_ExecuteRequest; ot_response := ToolProvider_ExecuteResponse;
  ot_errors := [js "invalid_arguments"; js "not_found"; js "output_limit_exceeded"; js "permission_denied"];
  ot_coded := [(js "execution_failed", ToolProvider_ExecuteErrorExecutionFailedPayload)] |}.

(** ** agent-tools.ts *)

Definition Tools_CatalogRequest : ts_type := TObject [].

Definition Tools_CatalogResponseToolsItem : ts_type := TObject [
  prop "description" TString; prop "input_schema_json" TString; prop "name" TString].

Definition Tools_CatalogResponse : ts_type := TObject [
  prop "tools" (TArray Tools_CatalogResponseToolsItem)].

Definition Tools_ExecuteRequest : ts_type := TObject [
  prop "arguments_json" TString; prop "name" TString].

Definition Tools_ExecuteResponse : ts_type := TObject [
  prop "content" TString; prop "content_type" (TLiteral (js "text")); prop "metadata_json" TString].

Definition Tools_ExecuteErrorToolErrorPayload : ts_type := TObject [
  prop "details_json" TString; prop "message" TString; prop "provider_code" TString].

Definition Tools_catalog : OperationTypes := {|
  ot_name := js "catalog"; ot_request := Tools_CatalogRequest; ot_response := Tools_CatalogResponse;
  ot_errors := [js "catalog_invalid"];
  ot_coded := [] |}.

Definition Tools_execute : OperationTypes := {|
  ot_name := js "execute"; ot_request := Tools_ExecuteRequest; ot_response := Tools_ExecuteResponse;
  ot_errors := [js "invalid_arguments"; js "unknown_tool"];
  ot_coded := [(js "tool_error", Tools_ExecuteErrorToolErrorPayload)] |}.

(** ** agent.ts *)

Definition Agent_RunTurnRequest : ts_type := TObject [
  prop "input" TString; opt "session_id" TString].

Definition Agent_RunTurnResponse : ts_type := TObject [
  prop "sequence" TUint64; opt "session_id" TString; prop "text" TString].

Definition Agent_run_turn : OperationTypes := {|
  ot_name := js "run_turn"; ot_request := Agent_RunTurnRequest; ot_response := Agent_RunTurnResponse;
  ot_errors := [js "concurrent_turn"; js "context_limit_exceeded"; js "invalid_session"; js "step_limit_exceeded";
    js "tool_call_limit_exceeded"];
  ot_coded := [] |}.

(** ** anonymous-auth.ts *)

Definition Anonymous_SignInRequest : ts_type := TObject [
  prop "device_id" (TUnion TString TNull)].

Definition Anonymous_SignInResponse : ts_type := TObject [
  prop "created" TBoolean; prop "credential" TString; prop "expires_at" TTimestamp; prop "session_id" TString;
  prop "subject" TString].

Definition Anonymous_sign_in : OperationTypes := {|
  ot_name := js "sign_in"; ot_request := Anonymous_SignInRequest; ot_response := Anonymous_SignInResponse;
  ot_errors := [js "disabled"; js "invalid_device"];
  ot_coded := [] |}.

(** ** auth.ts *)

Definition Auth_AuthenticateRequestCredential : ts_type := TObject [
  prop "scheme" TString; prop "value" TString].

Definition Auth_AuthenticateRequest : ts_type := TObject [
  prop "credential" (TUnion Auth_AuthenticateRequestCredential TNull)].

Definition Auth_AuthenticateResponseAssertion : ts_type := TObject [
  prop "actor_kind" TString; prop "assurance" TString; prop "audience" (TArray TString); opt "claims" TRecord;
  prop "expires_at" TTimestamp; prop "issued_at" TTimestamp; prop "issuer" TString; opt "parent_provenance" TString;
  prop "proof" TString; prop "subject" TString].

Definition Auth_AuthenticateResponse : ts_type := TObject [
  prop "assertion" (TUnion Auth_AuthenticateResponseAssertion TNull);
  prop "kind" (TUnion (TLiteral (js "absent")) (TLiteral (js "authenticated")))].

Definition Auth_authenticate : OperationTypes := {|
  ot_name := js "authenticate"; ot_request := Auth_AuthenticateRequest; ot_response := Auth_AuthenticateResponse;
  ot_errors := [js "expired"; js "invalid"; js "revoked"; js "unsupported"];
  ot_coded := [] |}.

(** ** credential-issuer.ts *)

Definition CredentialIssuer_IssueRequest : ts_type := TObject [
  prop "actor_kind" TString; prop "assurance" TString; prop "audience" (TArray TString); prop "claims" TRecord;
  prop "expires_at" TTimestamp; prop "subject" TString].

Definition CredentialIssuer_IssueResponse : ts_type := TObject [
  prop "credential" TString; prop "expires_at" TTimestamp; prop "session_id" TString].

Definition CredentialIssuer_RevokeRequest : ts_type := TObject [
  prop "session_id" TString].

Definition CredentialIssuer_RevokeResponse : ts_type := TObject [
  prop "changed" TBoolean].

Definition CredentialIssuer_issue : OperationTypes := {|
  ot_name := js "issue"; ot_request := CredentialIssuer_IssueRequest; ot_response := CredentialIssuer_IssueResponse;
  ot_errors := [js "disabled"; js "expired"; js "invalid_authority"; js "invalid_subject"];
  ot_coded := [] |}.

Definition CredentialIssuer_revoke : OperationTypes := {|
  ot_name := js "revoke"; ot_request := CredentialIssuer_RevokeRequest; ot_response := CredentialIssuer_RevokeResponse;
  ot_errors := [js "invalid_session"; js "not_found"];
  ot_coded := [] |}.

(** ** device-auth.ts *)

Definition Device_ListRequest : ts_type := TObject [
  prop "subject" TString].

Definition Device_ListResponseDevicesItem : ts_type := TObject [
  prop "device_id" TString; prop "last_seen_ip" (TUnion TString TNull);
  prop "last_seen_user_agent" (TUnion TString TNull); prop "primary" TBoolean; prop "trusted" TBoolean;
  prop "updated_at" TTimestamp].

Definition Device_ListResponse : ts_type := TObject [
  prop "devices" (TArray Device_ListResponseDevicesItem)].

Definition Device_ObserveRequest : ts_type := TObject [
  prop "client_ip" (TUnion TString TNull); prop "device_id" TString; prop "subject" TString;
  prop "user_agent" (TUnion TString TNull)].

Definition Device_ObserveResponse : ts_type := TObject [
  prop "created" TBoolean; prop "device_id" TString; prop "trusted" TBoolean].

Definition Device_SetTrustRequest : ts_type := TObject [
  prop "device_id" TString; prop "primary" TBoolean; prop "subject" TString; prop "trusted" TBoolean].

Definition Device_SetTrustResponse : ts_type := TObject [
  prop "changed" TBoolean].

Definition Device_list : OperationTypes := {|
  ot_name := js "list"; ot_request := Device_ListRequest; ot_response := Device_ListResponse;
  ot_errors := [js "invalid_subject"];
  ot_coded := [] |}.

Definition Device_observe : OperationTypes := {|
  ot_name := js "observe"; ot_request := Device_ObserveRequest; ot_response := Device_ObserveResponse;
  ot_errors := [js "invalid_device"; js "invalid_subject"];
  ot_coded := [] |}.

Definition Device_set_trust : OperationTypes := {|
  ot_name := js "set_trust"; ot_request := Device_SetTrustRequest; ot_response := Device_SetTrustResponse;
  ot_errors := [js "invalid_device"; js "invalid_subject"; js "not_found"];
  ot_coded := [] |}.

(** ** federated-auth.ts *)

Definition Federated_CompleteRequest : ts_type := TObject [
  prop "code" TString; prop "state" TString].

Definition Federated_CompleteResponse : ts_type := TObject [
  prop "credential" TString; prop "expires_at" TTimestamp; prop "provider" TString; prop "return_to" TString;
  prop "session_id" TString; prop "subject" TString].

Definition Federated_StartRequest : ts_type := TObject [
  prop "return_to" TString].

Definition Federated_StartResponse : ts_type := TObject [
  prop "authorization_url" TString; prop "expires_at" TTimestamp; prop "provider" TString].

Definition Federated_complete : OperationTypes := {|
  ot_name := js "complete"; ot_request := Federated_CompleteRequest; ot_response := Federated_CompleteResponse;
  ot_errors := [js "disabled"; js "invalid_callback"; js "invalid_state"; js "provider_rejected"; js
    "unverified_identity"];
  ot_coded := [] |}.

Definition Federated_start : OperationTypes := {|
  ot_name := js "start"; ot_request := Federated_StartRequest; ot_response := Federated_StartResponse;
  ot_errors := [js "invalid_return_to"; js "provider_unavailable"];
  ot_coded := [] |}.

(** ** http-client.ts *)

Definition Client_SendRequestHeadersItem : ts_type := TObject [
  prop "name" TString; prop "value" TString].

Definition Client_SendRequest : ts_type := TObject [
  prop "body" TBytes; prop "headers" (TArray Client_SendRequestHeadersItem); prop "method" TString;
  prop "url" TString].

Definition Client_SendResponseHeadersItem : ts_type := TObject [
  prop "name" TString; prop "value" TString].

Definition Client_SendResponse : ts_type := TObject [
  prop "body" TBytes; prop "headers" (TArray Client_SendResponseHeadersItem); prop "status" TNumber].

Definition Client_send : OperationTypes := {|
  ot_name := js "send"; ot_request := Client_SendRequest; ot_response := Client_SendResponse;
  ot_errors := [js "destination_not_allowed"; js "invalid_request"; js "request_too_large"; js "response_too_large";
    js "timeout"; js "transport_failure"];
  ot_coded := [] |}.

(** ** http-endpoint.ts *)

Definition HttpEndpoint_DescribeRequest : ts_type := TObject [].

Definition HttpEndpoint_DescribeResponseRoutesItem : ts_type := TObject [
  prop "method" TString; opt "openapi" TRecord; prop "path" TString; prop "route_id" TString].

Definition HttpEndpoint_DescribeResponse : ts_type := TObject [
  prop "routes" (TArray HttpEndpoint_DescribeResponseRoutesItem)].

Definition HttpEndpoint_HandleRequestCredential : ts_type := TObject [
  prop "scheme" TString; prop "value" TString].

Definition HttpEndpoint_HandleRequestHeadersItem : ts_type := TObject [
  prop "name" TString; prop "value" TString].

Definition HttpEndpoint_HandleRequestPathParametersItem : ts_type := TObject [
  prop "name" TString; prop "value" TString].

Definition HttpEndpoint_HandleRequest : ts_type := TObject [
  prop "body" TBytes; opt "credential" HttpEndpoint_HandleRequestCredential;
  prop "headers" (TArray HttpEndpoint_HandleRequestHeadersItem); prop "method" TString; prop "path" TString;
  prop "path_parameters" (TArray HttpEndpoint_HandleRequestPathParametersItem); opt "query" TString;
  prop "request_id" TString; prop "route_id" TString].

Definition HttpEndpoint_HandleResponseHeadersItem : ts_type := TObject [
  prop "name" TString; prop "value" TString].

Definition HttpEndpoint_HandleResponse : ts_type := TObject [
  prop "body" TBytes; prop "headers" (TArray HttpEndpoint_HandleResponseHeadersItem); prop "status" TNumber].

Definition HttpEndpoint_describe : OperationTypes := {|
  ot_name := js "describe"; ot_request := HttpEndpoint_DescribeRequest; ot_response := HttpEndpoint_DescribeResponse;
  ot_errors := [js "invalid_configuration"];
  ot_coded := [] |}.

Definition HttpEndpoint_handle : OperationTypes := {|
  ot_name := js "handle"; ot_request := HttpEndpoint_HandleRequest; ot_response := HttpEndpoint_HandleResponse;
  ot_errors := [js "rejected"];
  ot_coded := [] |}.

(** ** identity-directory.ts *)

Definition Directory_EnsureIdentityRequest : ts_type := TObject [
  prop "external_subject" TString; prop "provider" TString].

Definition Directory_EnsureIdentityResponse : ts_type := TObject [
  prop "created" TBoolean; prop "subject" TString].

Definition Directory_ReadStatusRequest : ts_type := TObject [
  prop "subject" TString].

Definition Directory_ReadStatusResponse : ts_type := TObject [
  prop "status" (TUnion (TLiteral (js "active")) (TLiteral (js "disabled"))); prop "subject" TString].

Definition Directory_ensure_identity : OperationTypes := {|
  ot_name := js "ensure_identity"; ot_request := Directory_EnsureIdentityRequest; ot_response :=
    Directory_EnsureIdentityResponse;
  ot_errors := [js "disabled"; js "invalid_identity"];
  ot_coded := [] |}.

Definition Directory_read_status : OperationTypes := {|
  ot_name := js "read_status"; ot_request := Directory_ReadStatusRequest; ot_response := Directory_ReadStatusResponse;
  ot_errors := [js "invalid_subject"; js "not_found"];
  ot_coded := [] |}.

(** ** jobs.ts *)

Definition Jobs_ClaimRequest : ts_type := TObject [
  prop "queue" TString].

Definition Jobs_ClaimResponse : ts_type := TObject [
  prop "attempt" TNumber; prop "job_id" TString; prop "kind" TString; prop "lease_expires_at" TTimestamp;
  prop "lease_token" TString; prop "max_attempts" TNumber; prop "payload" TRecord; prop "queue" TString].

Definition Jobs_CompleteRequest : ts_type := TObject [
  prop "job_id" TString; prop "lease_token" TString].

Definition Jobs_CompleteResponse : ts_type := TObject [
  prop "completed" TBoolean].

Definition Jobs_EnqueueRequest : ts_type := TObject [
  prop "available_at" TTimestamp; prop "idempotency_key" TString; prop "kind" TString; prop "max_attempts" TNumber;
  prop "payload" TRecord; prop "queue" TString].

Definition Jobs_EnqueueResponse : ts_type := TObject [
  prop "created" TBoolean; prop "job_id" TString].

Definition Jobs_FailRequest : ts_type := TObject [
  prop "failure_code" TString; prop "job_id" TString; prop "lease_token" TString; prop "retryable" TBoolean].

Definition Jobs_FailResponse : ts_type := TObject [
  prop "available_at" (TUnion TTimestamp TNull);
  prop "status" (TUnion (TLiteral (js "queued")) (TLiteral (js "failed")))].

Definition Jobs_InspectRequest : ts_type := TObject [
  prop "job_id" TString].

Definition Jobs_InspectResponse : ts_type := TObject [
  prop "attempts" TNumber; prop "available_at" TTimestamp; prop "created_at" TTimestamp; prop "job_id" TString;
  prop "kind" TString; opt "last_failure_code" (TUnion TString TNull);
  opt "lease_expires_at" (TUnion TTimestamp TNull); prop "max_attempts" TNumber; prop "queue" TString;
  prop "status" (TUnion (TLiteral (js "queued")) (TUnion (TLiteral (js "running")) (TUnion (TLiteral (js
    "succeeded")) (TLiteral (js "failed")))));
  prop "updated_at" TTimestamp].

Definition Jobs_RenewRequest : ts_type := TObject [
  prop "job_id" TString; prop "lease_token" TString].

Definition Jobs_RenewResponse : ts_type := TObject [
  prop "lease_expires_at" TTimestamp].

Definition Jobs_claim : OperationTypes := {|
  ot_name := js "claim"; ot_request := Jobs_ClaimRequest; ot_response := Jobs_ClaimResponse;
  ot_errors := [js "invalid_queue"; js "no_job_available"; js "unauthorized"];
  ot_coded := [] |}.

Definition Jobs_complete : OperationTypes := {|
  ot_name := js "complete"; ot_request := Jobs_CompleteRequest; ot_response := Jobs_CompleteResponse;
  ot_errors := [js "invalid_lease"; js "unauthorized"];
  ot_coded := [] |}.

Definition Jobs_enqueue : OperationTypes := {|
  ot_name := js "enqueue"; ot_request := Jobs_EnqueueRequest; ot_response := Jobs_EnqueueResponse;
  ot_errors := [js "idempotency_conflict"; js "invalid_job"; js "unauthorized"];
  ot_coded := [] |}.

Definition Jobs_fail : OperationTypes := {|
  ot_name := js "fail"; ot_request := Jobs_FailRequest; ot_response := Jobs_FailResponse;
  ot_errors := [js "invalid_failure"; js "invalid_lease"; js "unauthorized"];
  ot_coded := [] |}.

Definition Jobs_inspect : OperationTypes := {|
  ot_name := js "inspect"; ot_request := Jobs_InspectRequest; ot_response := Jobs_InspectResponse;
  ot_errors := [js "job_not_found"; js "unauthorized"];
  ot_coded := [] |}.

Definition Jobs_renew : OperationTypes := {|
  ot_name := js "renew"; ot_request := Jobs_RenewRequest; ot_response := Jobs_RenewResponse;
  ot_errors := [js "invalid_lease"; js "unauthorized"];
  ot_coded := [] |}.

(** ** oauth-flow.ts *)

Definition OauthFlow_ConsumeRequest : ts_type := TObject [
  prop "provider" TString; prop "state" TString].

Definition OauthFlow_ConsumeResponse : ts_type := TObject [
  prop "code_verifier" TString; prop "expires_at" TTimestamp; prop "return_to" TString].

Definition OauthFlow_CreateRequest : ts_type := TObject [
  prop "expires_at" TTimestamp; prop "provider" TString; prop "return_to" TString].

Definition OauthFlow_CreateResponse : ts_type := TObject [
  prop "code_challenge" TString; prop "code_verifier" TString; prop "expires_at" TTimestamp; prop "state" TString].

Definition OauthFlow_consume : OperationTypes := {|
  ot_name := js "consume"; ot_request := OauthFlow_ConsumeRequest; ot_response := OauthFlow_ConsumeResponse;
  ot_errors := [js "already_consumed"; js "expired"; js "invalid_state"; js "provider_mismatch"];
  ot_coded := [] |}.

Definition OauthFlow_create : OperationTypes := {|
  ot_name := js "create"; ot_request := OauthFlow_CreateRequest; ot_response := OauthFlow_CreateResponse;
  ot_errors := [js "invalid_expiry"; js "invalid_provider"; js "invalid_return_to"];
  ot_coded := [] |}.

(** ** oidc-provider.ts *)

Definition OidcProvider_AuthorizeRequest : ts_type := TObject [
  prop "client_id" TString; prop "code_challenge" TString; prop "code_challenge_method" TString;
  prop "nonce" (TUnion TString TNull); prop "redirect_uri" TString; prop "response_type" TString;
  prop "scope" TString; prop "state" (TUnion TString TNull); prop "subject" TString].

Definition OidcProvider_AuthorizeResponse : ts_type := TObject [
  prop "code" TString; prop "expires_at" TTimestamp; prop "redirect_uri" TString;
  prop "state" (TUnion TString TNull)].

Definition OidcProvider_ExchangeRequest : ts_type := TObject [
  prop "client_id" TString; prop "code" TString; prop "code_verifier" TString; prop "grant_type" TString;
  prop "redirect_uri" TString].

Definition OidcProvider_ExchangeResponse : ts_type := TObject [
  prop "access_token" TString; prop "expires_in" TNumber; prop "id_token" TString; prop "scope" TString;
  prop "session_id" TString; prop "token_type" TString].

Definition OidcProvider_JwksRequest : ts_type := TObject [].

Definition OidcProvider_JwksResponse : ts_type := TObject [
  prop "jwks" TRecord].

Definition OidcProvider_MetadataRequest : ts_type := TObject [].

Definition OidcProvider_MetadataResponse : ts_type := TObject [
  prop "authorization_endpoint" TString; prop "client_id" TString; prop "issuer" TString; prop "jwks_uri" TString;
  prop "scopes_supported" (TArray TString); prop "token_endpoint" TString].

Definition OidcProvider_authorize : OperationTypes := {|
  ot_name := js "authorize"; ot_request := OidcProvider_AuthorizeRequest; ot_response := OidcProvider_AuthorizeResponse;
  ot_errors := [js "disabled_subject"; js "forbidden"; js "invalid_client"; js "invalid_pkce"; js
    "invalid_redirect_uri"; js "invalid_request"; js "invalid_scope"];
  ot_coded := [] |}.

Definition OidcProvider_exchange : OperationTypes := {|
  ot_name := js "exchange"; ot_request := OidcProvider_ExchangeRequest; ot_response := OidcProvider_ExchangeResponse;
  ot_errors := [js "disabled_subject"; js "invalid_grant"; js "invalid_request"];
  ot_coded := [] |}.

Definition OidcProvider_jwks : OperationTypes := {|
  ot_name := js "jwks"; ot_request := OidcProvider_JwksRequest; ot_response := OidcProvider_JwksResponse;
  ot_errors := [js "disabled"];
  ot_coded := [] |}.

Definition OidcProvider_metadata : OperationTypes := {|
  ot_name := js "metadata"; ot_request := OidcProvider_MetadataRequest; ot_response := OidcProvider_MetadataResponse;
  ot_errors := [js "disabled"];
  ot_coded := [] |}.

(** ** password-auth.ts *)

Definition Password_LoginRequest : ts_type := TObject [
  prop "identifier" TString; prop "password" TString].

Definition Password_LoginResponse : ts_type := TObject [
  prop "credential" TString; prop "expires_at" TTimestamp; prop "session_id" TString; prop "subject" TString].

Definition Password_RegisterRequest : ts_type := TObject [
  prop "identifier" TString; prop "password" TString].

Definition Password_RegisterResponse : ts_type := TObject [
  prop "credential" TString; prop "expires_at" TTimestamp; prop "session_id" TString; prop "subject" TString].

Definition Password_login : OperationTypes := {|
  ot_name := js "login"; ot_request := Password_LoginRequest; ot_response := Password_LoginResponse;
  ot_errors := [js "disabled"; js "invalid_credentials"; js "invalid_identifier"; js "rate_limited"];
  ot_coded := [] |}.

Definition Password_register : OperationTypes := {|
  ot_name := js "register"; ot_request := Password_RegisterRequest; ot_response := Password_RegisterResponse;
  ot_errors := [js "disabled"; js "identifier_taken"; js "invalid_identifier"; js "weak_password"];
  ot_coded := [] |}.

(** ** phone-auth.ts *)

Definition Phone_PasswordLoginRequest : ts_type := TObject [
  prop "device_id" (TUnion TString TNull); prop "password" TString; prop "phone" TString].

Definition Phone_PasswordLoginResponse : ts_type := TObject [
  prop "credential" TString; prop "expires_at" TTimestamp; prop "masked_phone" TString; prop "session_id" TString;
  prop "subject" TString].

Definition Phone_SetPasswordRequest : ts_type := TObject [
  prop "password" TString; prop "subject" TString].

Definition Phone_SetPasswordResponse : ts_type := TObject [
  prop "updated" TBoolean].

Definition Phone_StartOtpRequest : ts_type := TObject [
  prop "client_ip" (TUnion TString TNull); prop "phone" TString;
  prop "purpose" (TUnion (TLiteral (js "login")) (TLiteral (js "register")))].

Definition Phone_StartOtpResponse : ts_type := TObject [
  prop "challenge_id" TString; prop "debug_code" (TUnion TString TNull); prop "expires_at" TTimestamp;
  prop "resend_after" TTimestamp].

Definition Phone_VerifyOtpRequest : ts_type := TObject [
  prop "challenge_id" TString; prop "code" TString; prop "device_id" (TUnion TString TNull)].

Definition Phone_VerifyOtpResponse : ts_type := TObject [
  prop "credential" TString; prop "expires_at" TTimestamp; prop "masked_phone" TString; prop "session_id" TString;
  prop "subject" TString].

Definition Phone_password_login : OperationTypes := {|
  ot_name := js "password_login"; ot_request := Phone_PasswordLoginRequest; ot_response := Phone_PasswordLoginResponse;
  ot_errors := [js "disabled"; js "invalid_credentials"; js "invalid_phone"; js "rate_limited"];
  ot_coded := [] |}.

Definition Phone_set_password : OperationTypes := {|
  ot_name := js "set_password"; ot_request := Phone_SetPasswordRequest; ot_response := Phone_SetPasswordResponse;
  ot_errors := [js "disabled"; js "forbidden"; js "invalid_subject"; js "not_found"; js "weak_password"];
  ot_coded := [] |}.

Definition Phone_start_otp : OperationTypes := {|
  ot_name := js "start_otp"; ot_request := Phone_StartOtpRequest; ot_response := Phone_StartOtpResponse;
  ot_errors := [js "delivery_rejected"; js "invalid_phone"; js "invalid_purpose"; js "rate_limited"; js
    "resend_too_soon"];
  ot_coded := [] |}.

Definition Phone_verify_otp : OperationTypes := {|
  ot_name := js "verify_otp"; ot_request := Phone_VerifyOtpRequest; ot_response := Phone_VerifyOtpResponse;
  ot_errors := [js "disabled"; js "expired"; js "invalid_challenge"; js "invalid_code"; js "too_many_attempts"];
  ot_coded := [] |}.

(** ** secrets.ts *)

Definition Secrets_ResolveRequest : ts_type := TObject [
  prop "reference" TString].

Definition Secrets_ResolveResponse : ts_type := TObject [
  prop "value" TString].

Definition Secrets_resolve : OperationTypes := {|
  ot_name := js "resolve"; ot_request := Secrets_ResolveRequest; ot_response := Secrets_ResolveResponse;
  ot_errors := [js "invalid_reference"; js "unknown_reference"];
  ot_coded := [] |}.

(** ** sms-delivery.ts *)

Definition Sms_SendRequest : ts_type := TObject [
  prop "body" TString; prop "destination" TString].

Definition Sms_SendResponse : ts_type := TObject [
  prop "accepted" TBoolean].

Definition Sms_send : OperationTypes := {|
  ot_name := js "send"; ot_request := Sms_SendRequest; ot_response := Sms_SendResponse;
  ot_errors := [js "invalid_destination"; js "rejected"; js "throttled"];
  ot_coded := [] |}.

(** ** websocket-endpoint.ts *)

Definition WebsocketEndpoint_ConnectWebsocketRequestCredential : ts_type := TObject [
  prop "scheme" TString; prop "value" TString].

Definition WebsocketEndpoint_ConnectWebsocketRequestHeadersItem : ts_type := TObject [
  prop "name" TString; prop "value" TString].

Definition WebsocketEndpoint_ConnectWebsocketRequestPathParametersItem : ts_type := TObject [
  prop "name" TString; prop "value" TString].

Definition WebsocketEndpoint_ConnectWebsocketRequest : ts_type := TObject [
  opt "credential" WebsocketEndpoint_ConnectWebsocketRequestCredential;
  prop "headers" (TArray WebsocketEndpoint_ConnectWebsocketRequestHeadersItem); prop "path" TString;
  prop "path_parameters" (TArray WebsocketEndpoint_ConnectWebsocketRequestPathParametersItem);
  prop "protocols" (TArray TString); opt "query" TString; prop "request_id" TString; prop "route_id" TString].

Definition WebsocketEndpoint_ConnectWebsocketResponse : ts_type := TObject [
  opt "body" TBytes; opt "code" TNumber;
  prop "kind" (TUnion (TLiteral (js "accept")) (TUnion (TLiteral (js "text")) (TUnion (TLiteral (js "binary"))
    (TLiteral (js "close")))));
  opt "protocol" TString; opt "reason" TString; opt "text" TString].

Definition WebsocketEndpoint_DescribeWebsocketRequest : ts_type := TObject [].

Definition WebsocketEndpoint_DescribeWebsocketResponseRoutesItem : ts_type := TObject [
  prop "path" TString; prop "route_id" TString].

Definition WebsocketEndpoint_DescribeWebsocketResponse : ts_type := TObject [
  prop "routes" (TArray WebsocketEndpoint_DescribeWebsocketResponseRoutesItem)].

Definition WebsocketEndpoint_connect_websocket : OperationTypes := {|
  ot_name := js "connect_websocket"; ot_request := WebsocketEndpoint_ConnectWebsocketRequest; ot_response :=
    WebsocketEndpoint_ConnectWebsocketResponse;
  ot_errors := [js "rejected"; js "unauthorized"; js "unsupported_protocol"];
  ot_coded := [] |}.

Definition WebsocketEndpoint_describe_websocket : OperationTypes := {|
  ot_name := js "describe_websocket"; ot_request := WebsocketEndpoint_DescribeWebsocketRequest; ot_response :=
    WebsocketEndpoint_DescribeWebsocketResponse;
  ot_errors := [js "invalid_configuration"];
  ot_coded := [] |}.

(** ** The interfaces of every shipped capability *)

Definition contracts : list (Capability * list OperationTypes) := [
  (AccountAdmin, [AccountAdmin_list_sessions; AccountAdmin_list_subjects; AccountAdmin_set_subject_status]);
  (OpenaiCodex, [OpenaiCodex_access]);
  (Model, [Model_complete]);
  (PromptProvider, [PromptProvider_contribute]);
  (Prompt, [Prompt_assemble]);
  (Session, [Session_append; Session_open; Session_read]);
  (ToolProvider, [ToolProvider_catalog; ToolProvider_execute]);
  (Tools, [Tools_catalog; Tools_execute]);
  (Agent, [Agent_run_turn]);
  (Anonymous, [Anonymous_sign_in]);
  (Auth, [Auth_authenticate]);
  (CredentialIssuer, [CredentialIssuer_issue; CredentialIssuer_revoke]);
  (Device, [Device_list; Device_observe; Device_set_trust]);
  (Federated, [Federated_complete; Federated_start]);
  (Client, [Client_send]);
  (HttpEndpoint, [HttpEndpoint_describe; HttpEndpoint_handle]);
  (Directory, [Directory_ensure_identity; Directory_read_status]);
  (Jobs, [Jobs_claim; Jobs_complete; Jobs_enqueue; Jobs_fail; Jobs_inspect; Jobs_renew]);
  (OauthFlow, [OauthFlow_consume; OauthFlow_create]);
  (OidcProvider, [OidcProvider_authorize; OidcProvider_exchange; OidcProvider_jwks; OidcProvider_metadata]);
  (Password, [Password_login; Password_register]);
  (Phone, [Phone_password_login; Phone_set_password; Phone_start_otp; Phone_verify_otp]);
  (Secrets, [Secrets_resolve]);
  (Sms, [Sms_send]);
  (WebsocketEndpoint, [WebsocketEndpoint_connect_websocket; WebsocketEndpoint_describe_websocket])].
