(* ===== verification/ContractsCorrect.v ===== *)
(** * The interfaces and the bindings

    The interfaces of the shipped contracts name exactly the operations and the error codes
    that the bindings dispatch and decode; what keeping to an interface means for a Provider
    and for what a client gets. *)

From Stdlib Require Import ZArith SpecFloat.
From S2P Require Import Prelude JsValue Text Json JsonText Authoring V2 Capability Capabilities CapabilityCorrect Contracts.

(** ** The tables agree *)

(** The interface of a capability names its operations in their order, and for each of them the
    codes the client decodes; no code is named twice. *)
Definition table_agrees (e : Capability * list OperationTypes) : bool :=
  let '(c, ts) := e in
  bool_decide (map ot_name ts = operations (cap_descriptor c)) &&
  forallb (fun op => bool_decide ((op_name op, op_errors op) ∈ map (fun t => (ot_name t, ot_errors t)) ts))
    (cap_requests c ++ cap_streams c) &&
  forallb (fun t => bool_decide (NoDup (ot_errors t ++ map fst (ot_coded t)))) ts &&
  bool_decide (NoDup (map ot_name ts)).

Lemma tables_agree : map fst contracts = shipped ∧ forallb table_agrees contracts = true.
Proof. split; vm_compute; reflexivity. Qed.

(** An operation that is not a stream is in the table of requests, with the codes of its type. *)
Lemma typed_operation c ts t :
  (c, ts) ∈ contracts → t ∈ ts → ot_name t ∉ stream_operations (cap_descriptor c) →
  ∃ op, find_operation (cap_requests c) (ot_name t) = Some op ∧ op_errors op = ot_errors t ∧ op_method op = ot_name t.
Proof.
  intros Hc Ht Hs. destruct tables_agree as [Hf Ha]. rewrite forallb_forall in Ha.
  pose proof (Ha (c, ts) ltac:(by apply list_elem_of_In)) as Hb. unfold table_agrees in Hb.
  rewrite !andb_true_iff, !bool_decide_eq_true, !forallb_forall in Hb. destruct Hb as [[[Hn Ho] _] Hd].
  assert (Hsh : c ∈ shipped) by (rewrite <-Hf; apply list_elem_of_fmap; by exists (c, ts)).
  pose proof shipped_tables as Hall. rewrite forallb_forall in Hall.
  specialize (Hall c ltac:(by apply list_elem_of_In)). apply andb_true_iff in Hall as [Htab%dispatch_table_exact _].
  destruct (Htab (ot_name t)) as ([_ Hreq] & _ & _ & Hmeth). destruct Hreq as [op Hop].
  { split; [|done]. rewrite <-Hn. apply list_elem_of_fmap. by exists t. }
  exists op. split; [done|]. rewrite (and_comm (op_errors op = _)). split; [by apply Hmeth; left|]. destruct (find_operation_Some _ _ _ Hop) as [Hin Hname].
  specialize (Ho op ltac:(apply list_elem_of_In, elem_of_app; by left)). apply bool_decide_eq_true in Ho.
  apply list_elem_of_fmap in Ho as (t' & [= En Ee] & Ht').
  enough (t' = t) as -> by done. apply (NoDup_map_inj ot_name ts); [done|done|done|congruence].
Qed.

(** ** What the types promise *)

Section typed.
Context `{ContractRuntime} {portable wire} `{!ContractLaws portable wire} `{ContractScalars}.

(** The union of the domain errors of an operation: a plain code, a code with a payload of its
    type, or [UnknownDomainError], an object with some other code. *)
Definition typed_error (t : OperationTypes) (e : jsval) : Prop :=
  (∃ code, e = JStr code ∧ code ∈ ot_errors t) ∨
  (∃ fields code payload, e = JObj fields ∧ field fields "code" = JStr code ∧
     ((code, payload) ∈ ot_coded t ∧ has_type payload (field fields "payload") = true ∨ code ∉ map fst (ot_coded t))).

(** A Provider's result of the declared type, with values that are portable. *)
Definition typed_result (t : OperationTypes) (r : ProviderResult) : Prop :=
  match r with
  | ResultOk v => has_type (ot_response t) v = true ∧ portable v
  | ResultDomain e => typed_error t e ∧ portable e
  | ResultRuntime _ => True
  end.

Lemma typed_within op t r : op_errors op = ot_errors t → typed_result t r → within_contract (portable := portable) op r.
Proof.
  intros E. destruct r as [v|e|f]; cbn; [by intros [_ ?]| |done]. rewrite E. intros [He Hp]. split; [done|].
  destruct He as [?|(fs & code & _ & -> & Hc & _)]; [by left|right; eauto].
Qed.

(** A method of a Provider that keeps to the interface of its operation. *)
Definition typed_method (t : OperationTypes) (method : jsval → jsval → completion ProviderResult) : Prop :=
  ∀ context request r, has_type (ot_request t) request = true → method context request = Returned r → typed_result t r.

(** What the type of a client's method says about what it returns. *)
Definition typed_client (t : OperationTypes) (r : ClientResult) : Prop :=
  match r with
  | ClientOk v => has_type (ot_response t) v = true
  | ClientDomain e => typed_error t e
  | ClientRuntime _ => True
  end.

End typed.

(** ** A typed call *)

Module Demo.
#[local] Existing Instance CapabilityCorrect.Demo.plain.
#[local] Existing Instance CapabilityCorrect.Demo.plain_laws.

(** Scalars that travel as text. *)
#[local] Instance scalars : ContractScalars := {|
  is_timestamp v := match v with JStr _ => true | _ => false end;
  is_uint64 v := match v with JStr _ => true | _ => false end;
  is_bytes v := match v with JStr _ => true | _ => false end |}.

(** A claim on a queue that has a job. *)
Definition claimed : jsval := JObj [
  (js "attempt", JNum (num 1)); (js "job_id", JStr (js "j1")); (js "kind", JStr (js "mail"));
  (js "lease_expires_at", JStr (js "2026-01-01T00:00:00Z")); (js "lease_token", JStr (js "t"));
  (js "max_attempts", JNum (num 3)); (js "payload", JObj [(js "to", JStr (js "a@b"))]); (js "queue", JStr (js "mail"))].

Definition worker (operation : jsstr) (context request : jsval) : completion ProviderResult := Returned (ResultOk claimed).
End Demo.
