(* ===== verification/EndToEnd.v ===== *)
(** * A call of the Host, from its bytes to the typed method and back

    The Authoring V2 server and the generated bindings composed: the bytes of an invocation of a
    shipped capability reach the method of the Provider as the typed request, and the bytes of
    the answer carry what the method gave. *)

From Stdlib Require Import ZArith SpecFloat.
From S2P Require Import Prelude JsValue Text Json JsonText Authoring V2 V2Invariant V2Correct V2Answers V2Framing V2Calls V2Runs Capability Capabilities CapabilityCorrect Contracts ContractsCorrect.

Local Open Scope Z_scope.

Section served.
Context `{AuthoringProtocol, PluginCode}.
Variable definition : PluginDefinition.
Variable runtimeProfile : jsstr.
Variable bootstrap : Bootstrap.
Variable secret : list N.
Context `{ContractRuntime} {carried : jsval → Prop} {wire : jsval → jsval} `{!ContractLaws carried wire} `{ContractScalars}.

(** What the Host is told when the method of the Provider ended so. *)
Definition told (p : InvokeParams) (m : completion ProviderResult) : InvocationOutcome :=
  match m with
  | Returned (ResultOk v) => WSuccess (wire v)
  | Returned (ResultDomain e) => WDomain (wire e)
  | Returned (ResultRuntime f) => toWireOutcome (PRuntime f) p
  | Threw e => toWireOutcome (PRuntime (plugin_failure e)) p
  end.

(** What a typed caller makes of an outcome on the wire. *)
Definition understood (op : Operation) (o : InvocationOutcome) : ClientResult :=
  catch (raise_outcome op (fromWireOutcome o)) (fun e => ClientRuntime (JObj (plugin_failure e))).

(** The object that stands for a context on the Plugin's side. *)
Variable context_object : nat → jsval.

(** What the generated binding of [cap] over [provider] gives for a call of the server: it is
    called with the operation, the context and the payload of that call. *)
Definition served_by (cap : Capability) (provider : jsstr → jsval → jsval → completion ProviderResult)
    (call : plugin_call) : option (completion ProviderDispatchOutcome) :=
  match call with
  | CallInvoke _ operation cx payload _ => Some (Returned (invokeRequest cap provider operation (context_object cx) payload))
  | _ => None
  end.

Lemma told_exact cap t op provider context request p :
  find_operation (cap_requests cap) (ot_name t) = Some op → op_errors op = ot_errors t → op_method op = ot_name t →
  typed_method (portable := carried) t (provider (ot_name t)) → has_type (ot_request t) request = true → carried request →
  toWireOutcome (invokeRequest cap provider (ot_name t) context (wire request)) p = told p (provider (ot_name t) context request) ∧
  understood op (told p (provider (ot_name t) context request)) = as_remote_result p (provider (ot_name t) context request) ∧
  typed_client t (understood op (told p (provider (ot_name t) context request))).
Proof.
  intros Hop Herr Hmeth Hm Ht Hc. assert (Hw : ∀ r, provider (ot_name t) context request = Returned r → typed_result t r)
    by (intros r; by apply Hm).
  rewrite (invokeRequest_exact cap (ot_name t) op provider request context Hop Hc) by
    (rewrite Hmeth; intros r Hr; eapply typed_within; [done|by apply Hw]).
  rewrite Hmeth. destruct (provider (ot_name t) context request) as [[v|e|f]|e]; (split; [done|]); try done;
    specialize (Hw _ eq_refl); cbn in Hw; destruct Hw as [Hty Hp]; unfold understood; cbn [told fromWireOutcome].
  - cbn. by rewrite law_decode.
  - assert (domain_error (op_errors op) e) as He.
    { destruct (typed_within op t (ResultDomain e) Herr (conj Hty Hp)) as [_ ?]. done. }
    by rewrite raise_domain.
Qed.

(** C4: a call of the Host to a shipped capability is served, from bytes to bytes.  When the
    bytes of an admitted invocation carry a portable request of the declared type, and the
    Provider behind the endpoint keeps to its interface, the server makes one call of the
    Plugin, in a fresh context with the scope of the request.  When the generated binding is
    what answers that call, with the operation, the context and the payload the server gave it:
    however other steps interleave, the invocation ends as an admitted one does, and the
    outcome in its answer is what the method of the operation gave for the typed request in
    that context (a value, a domain error with or without a payload, a normalized runtime
    failure); a client that reads this outcome gets that value or that error, of the declared
    types, or the failure. *)
Theorem typed_invocation_served s i object n limit id params cap ts t provider request :
  (cap, ts) ∈ contracts → t ∈ ts → ot_name t ∉ stream_operations (cap_descriptor cap) →
  typed_method (portable := carried) t (provider (ot_name t)) → has_type (ot_request t) request = true → carried request →
  let p := as_invoke params in
  inv_operation p = ot_name t → inv_payload p = wire request →
  reachable definition runtimeProfile bootstrap secret s →
  find_fiber n (fibers s) = Some {| fb_reply := RpcReply JNull limit; fb_at := AwaitBody limit |} →
  portable id = true → portable params = true →
  let message := rpc_request id (js "lenso.invoke") (JArr [params]) in
  json_bytes message <= limit → may_invoke s i object p →
  ∃ s1 call cx op,
    V2.step definition runtimeProfile bootstrap secret s (Resume n (BodyRead (encode (json_text message)))) =
      Some (s1, [Called n call]) ∧
    context_heap s1 !! cx = Some {| cx_request_id := correlation_id p; cx_scope := inv_scope p; cx_aborted := false |} ∧
    find_operation (cap_requests cap) (ot_name t) = Some op ∧
    let gave := provider (ot_name t) (context_object cx) request in
    (∃ c, served_by cap provider call = Some c ∧
       settling_course definition runtimeProfile bootstrap secret s1 n cx p id limit c (told p gave)) ∧
    understood op (told p gave) = as_remote_result p gave ∧
    typed_client t (understood op (told p gave)).
Proof.
  intros Hc Ht Hs Hm Hty Hcar p Ho Hpay Hreach Hf Hid Hpar message Hl Hmay.
  destruct (typed_operation cap ts t Hc Ht Hs) as (op & Hop & Herr & Hmeth).
  destruct (invocation_completes definition runtimeProfile bootstrap secret s i object n limit id params
    Hreach Hf Hid Hpar Hl Hmay) as (s1 & E1 & Hcx & _ & Hcourse).
  set (cx := length (context_heap s)) in *. fold p in E1, Hcx, Hcourse.
  destruct (told_exact cap t op provider (context_object cx) request p Hop Herr Hmeth Hm Hty Hcar) as (Htold & Hun & Hcl).
  exists s1, (provider_call p cx object), cx, op. split; [exact E1|]. split; [exact Hcx|]. split; [exact Hop|].
  split; [|by split]. eexists. split; [reflexivity|]. rewrite Ho, Hpay.
  specialize (Hcourse (Returned (invokeRequest cap provider (ot_name t) (context_object cx) (wire request)))).
  cbn [invocation_outcome] in Hcourse. rewrite Htold in Hcourse. exact Hcourse.
Qed.
End served.

(** ** A claim of a job, called by a Host *)

Module Demo.
#[local] Existing Instance V2Runs.Demo.protocol.
#[local] Existing Instance V2Runs.Demo.code.
#[local] Existing Instance CapabilityCorrect.Demo.plain.
#[local] Existing Instance CapabilityCorrect.Demo.plain_laws.
#[local] Existing Instance ContractsCorrect.Demo.scalars.

Definition params : jsval := JObj [
  (js "id", JStr (js "a")); (js "operation", JStr (js "claim")); (js "payload", CapabilityCorrect.Demo.claim_request)].

(** A context is seen as the number of its object. *)
Definition seen (cx : nat) : jsval := JNum (num (Z.of_nat cx)).

Lemma typed_invocation_served_witness :
  ∃ s1 op resp s7,
    V2.step V2Runs.Demo.plugin [] V2Runs.Demo.boot [] V2Runs.Demo.waiting
      (Resume 2 (BodyRead (encode (json_text (rpc_request (JNum (num 3)) (js "lenso.invoke") (JArr [params])))))) =
      Some (s1, [Called 2 (CallInvoke (js "e") (js "claim") 1 CapabilityCorrect.Demo.claim_request V2Runs.Demo.object)]) ∧
    V2Runs.Demo.demo_run s1 [Resume 2 (Invoked (Returned (invokeRequest Jobs ContractsCorrect.Demo.worker (js "claim")
      (seen 1) CapabilityCorrect.Demo.claim_request))); Resume 2 (ProofComputed []);
      Resume 2 (CallbackDone (CallbackResult JNull))] = Some (s7, resp) ∧
    js "a" ∈ retired s7 ∧
    understood op (WSuccess ContractsCorrect.Demo.claimed) = ClientOk ContractsCorrect.Demo.claimed ∧
    typed_client Contracts.Jobs_claim (understood op (WSuccess ContractsCorrect.Demo.claimed)).
Proof.
  destruct (typed_invocation_served V2Runs.Demo.plugin [] V2Runs.Demo.boot [] (carried := CapabilityCorrect.Demo.kept)
    (wire := fun v => v) seen V2Runs.Demo.waiting (V2Runs.Demo.proposal (js "S")) V2Runs.Demo.object 2 100000 (JNum (num 3)) params Jobs
    [Jobs_claim; Jobs_complete; Jobs_enqueue; Jobs_fail; Jobs_inspect; Jobs_renew] Jobs_claim ContractsCorrect.Demo.worker
    CapabilityCorrect.Demo.claim_request) as (s1 & call & cx & op & E1 & Hcx & _ & (c & Hsrv & Hcourse) & Hun & Ht).
  - unfold contracts. do 17 (apply list_elem_of_further). apply list_elem_of_here.
  - apply list_elem_of_here.
  - vm_compute. inversion 1.
  - intros context request r _ [= <-]. split; [vm_compute; reflexivity|].
    apply CapabilityCorrect.Demo.portable_kept. vm_compute. reflexivity.
  - vm_compute. reflexivity.
  - apply CapabilityCorrect.Demo.portable_kept. vm_compute. reflexivity.
  - reflexivity.
  - reflexivity.
  - exact V2Runs.Demo.waiting_reachable.
  - vm_compute. reflexivity.
  - vm_compute. reflexivity.
  - vm_compute. reflexivity.
  - vm_compute. discriminate.
  - apply V2Runs.Demo.waiting_may_invoke. reflexivity.
  - assert (call = CallInvoke (js "e") (js "claim") 1 CapabilityCorrect.Demo.claim_request V2Runs.Demo.object) as ->.
    { assert (snd <$> Some (s1, [Called 2 call]) = Some [Called 2 (CallInvoke (js "e") (js "claim") 1
        CapabilityCorrect.Demo.claim_request V2Runs.Demo.object)]) as Hcall by (rewrite <-E1; vm_compute; reflexivity).
      injection Hcall as ->. reflexivity. }
    assert (Hc : Some (Returned (invokeRequest Jobs ContractsCorrect.Demo.worker (js "claim") (seen 1)
      CapabilityCorrect.Demo.claim_request)) = Some c) by exact Hsrv. apply (inj Some) in Hc. subst c.
    destruct (Hcourse [] s1 []) as (s3 & o3 & E3 & -> & _ & _ & j & _ & H3); [intros x; apply not_elem_of_nil|reflexivity|].
    destruct (H3 [] [] s3 []) as (s5 & o5 & E5 & -> & H5); [intros x; apply not_elem_of_nil|reflexivity|].
    destruct (H5 (CallbackResult JNull) [] s5 []) as (s7 & o7 & E7 & resp & -> & _ & _ & Hret);
      [intros x; apply not_elem_of_nil|reflexivity|].
    exists s1, op. eexists. exists s7. split; [exact E1|]. split.
    + cbn [V2.run]. rewrite E3. cbn [V2.run]. rewrite E5. cbn [V2.run]. rewrite E7. reflexivity.
    + split; [exact Hret|]. split; [exact Hun|exact Ht].
Defined.
End Demo.
