(* ===== verification/CapabilityLock.v ===== *)
(** * The capability lock (packages/lenso-bun/scripts/capabilities.mjs)

    The script that checks the generated bindings against capabilities.lock.json, and in the
    mode [sync] first fetches the contracts the lock names and generates the bindings.  It is a
    computation on the files of the package that may throw; what the network answers and what
    lenso-contract-codegen does are the class [Toolchain]. *)

From Stdlib Require Import ZArith SpecFloat.
From S2P Require Import Prelude JsValue Text Json Authoring.

Local Open Scope Z_scope.

(** ** Paths (node:path on POSIX) *)

Definition is_slash (c : N) : bool := (c =? 47)%N.

Definition path_step (dir : list jsstr) (part : jsstr) : list jsstr :=
  if decide (part = [] ∨ part = js ".") then dir
  else if decide (part = js "..") then removelast dir
  else dir ++ [part].

(** An absolute path without empty segments, [.] and [..]. *)
Definition normalized (path : jsstr) : jsstr := js "/" ++ join (js "/") (fold_left path_step (split_on is_slash path) []).

(** [resolve(dir, path)] for an absolute directory *)
Definition path_resolve (dir path : jsstr) : jsstr :=
  normalized (if starts_with (js "/") path then path else dir ++ js "/" ++ path).

Fixpoint drop_while (p : N → bool) (s : jsstr) : jsstr :=
  match s with
  | c :: s' => if p c then drop_while p s' else s
  | [] => []
  end.

(** [dirname(path)]: trailing slashes do not count; the first unit is looked at last. *)
Definition dirname (path : jsstr) : jsstr :=
  match path with
  | [] => js "."
  | c :: rest =>
      match drop_while (fun d => negb (is_slash d)) (drop_while is_slash (rev rest)) with
      | [] => if is_slash c then js "/" else js "."
      | _ :: before => if is_slash c && empty before then js "//" else c :: rev before
      end
  end.

(** ** [JSON.stringify(value, null, 2)] *)

Fixpoint indented (indent : jsstr) (v : jsval) : option jsstr :=
  let deeper := indent ++ js "  " in
  let block opening closing items :=
    match items with
    | [] => opening ++ closing
    | _ => opening ++ [10%N] ++ deeper ++ join (js "," ++ [10%N] ++ deeper) items ++ [10%N] ++ indent ++ closing
    end in
  match v with
  | JArr l =>
      Some (block (js "[") (js "]") ((fix go (l : list jsval) : list jsstr :=
        match l with
        | [] => []
        | v :: l => default (js "null") (indented deeper v) :: go l
        end) l))
  | JObj fs =>
      Some (block (js "{") (js "}") ((fix go (fs : list (jsstr * jsval)) : list jsstr :=
        match fs with
        | [] => []
        | (k, v) :: fs =>
            match indented deeper v with
            | Some t => (quote k ++ js ": " ++ t) :: go fs
            | None => go fs
            end
        end) fs))
  | v => stringify v
  end.

(** What the script writes for a JSON value. *)
Definition pretty_file (v : jsval) : jsstr := default (js "undefined") (indented [] v) ++ [10%N].

(** ** The world of the script *)

Record world := {
  files : gmap jsstr jsstr; made : list jsstr; written : list jsstr; spawned : list (list jsstr) }.

(** [fetch(url)]: the response, or the error the promise is rejected with. *)
Record FetchResponse := { fr_ok : bool; fr_status : Z; fr_statusText : jsstr; fr_text : jsstr }.

(** [spawnSync]: an error, or the exit status; and the files afterwards. *)
Record SpawnResult := { sr_error : option thrown; sr_status : option Z; sr_files : gmap jsstr jsstr }.

Class Toolchain := {
  packageRoot : jsstr;
  fetch : jsstr → throws FetchResponse;
  spawnSync : jsstr → list jsstr → gmap jsstr jsstr → SpawnResult;
  LENSO_CONTRACT_CODEGEN : option jsstr;
  no_entry : jsstr → thrown;
  mkdir_error : jsstr → gmap jsstr jsstr → option thrown;
  write_error : jsstr → jsstr → gmap jsstr jsstr → option (thrown * option jsstr);
  engine_error : jsstr }.

(** [no_entry] is the error of reading a file that is not there, [mkdir_error] that of making a
    directory, if there is one; [write_error] is the error of writing a text to a file and what
    the failed write leaves in it. *)

(** A computation that changes the world and may throw; what it did before it threw stays. *)
Definition script (A : Type) : Type := world → throws A * world.

#[export] Instance script_ret : MRet script := fun A a w => (Ok a, w).
#[export] Instance script_bind : MBind script := fun A B f m w =>
  match m w with (Ok a, w) => f a w | (Throw e, w) => (Throw e, w) end.

Definition lift {A} (m : throws A) : script A := fun w => (m, w).
Definition throw_error {A} (message : jsstr) : script A := lift (fail message).

Fixpoint each {A} (f : A → script unit) (l : list A) : script unit :=
  match l with [] => mret tt | x :: l => f x;; each f l end.

Section script.
Context `{Toolchain}.

Definition readFile (path : jsstr) : script jsstr := fun w =>
  (match files w !! path with Some t => Ok t | None => Throw (no_entry path) end, w).

(** [mkdir(path, { recursive: true })] *)
Definition mkdir (path : jsstr) : script unit := fun w =>
  (match mkdir_error path (files w) with Some e => Throw e | None => Ok tt end,
   {| files := files w; made := made w ++ [path]; written := written w; spawned := spawned w |}).

Definition writeFile (path text : jsstr) : script unit := fun w =>
  let left_ content := {| files := partial_alter (fun _ => content) path (files w); made := made w;
                          written := written w ++ [path]; spawned := spawned w |} in
  match write_error path text (files w) with
  | Some (e, content) => (Throw e, left_ content)
  | None => (Ok tt, left_ (Some text))
  end.

Definition parse (text : jsstr) : script jsval :=
  match json_parse text with Some v => mret v | None => throw_error engine_error end.

Definition prop (v : jsval) (key : string) : script jsval := lift (get engine_error v key).

(** The keys of the elements of an array or the units of a string. *)
Definition indexes (n : nat) : list jsstr := map (fun i => dec (Z.of_nat i)) (seq 0 n).

(** [value[key]] for an own key *)
Definition member (v : jsval) (key : jsstr) : jsval :=
  match v with
  | JObj fs => default JUndef (assoc key fs)
  | JArr l => default JUndef (assoc key (zip (indexes (length l)) l))
  | JStr s => default JUndef (assoc key (zip (indexes (length s)) (map (fun c => JStr [c]) s)))
  | _ => JUndef
  end.

(** [Object.keys(value)] *)
Definition object_keys (v : jsval) : throws (list jsstr) :=
  match v with
  | JUndef | JNull => fail engine_error
  | JObj fs => mret (keys fs)
  | JArr l => mret (indexes (length l))
  | JStr s => mret (indexes (length s))
  | _ => mret []
  end.

Definition lockPath : jsstr := path_resolve packageRoot (js "capabilities.lock.json").

Definition packagePath (relativePath : jsval) : script jsstr :=
  match relativePath with
  | JStr s =>
      let path := path_resolve packageRoot s in
      if starts_with (packageRoot ++ js "/") path then mret path
      else throw_error (js "path escapes @lenso/bun: " ++ s)
  | _ => throw_error engine_error
  end.

Definition ends_with (s suffix : jsstr) : bool := starts_with (rev suffix) (rev s).

(** [schemaPaths(value, found)]: the set in the order of insertion *)
Fixpoint schemaPaths (v : jsval) (found : list jsstr) : list jsstr :=
  match v with
  | JArr l =>
      (fix go (l : list jsval) (found : list jsstr) : list jsstr :=
         match l with [] => found | v :: l => go l (schemaPaths v found) end) l found
  | JObj fs =>
      (fix go (fs : list (jsstr * jsval)) (found : list jsstr) : list jsstr :=
         match fs with
         | [] => found
         | (key, v) :: fs =>
             let found := match v with
                          | JStr s => if ends_with key (js "_schema") && negb (mem s found) then found ++ [s] else found
                          | _ => found
                          end in
             go fs (schemaPaths v found)
         end) fs found
  | _ => found
  end.

(** [/^[0-9a-f]{40}$/.test(value)] *)
Definition is_revision (s : jsstr) : bool :=
  (length s =? 40)%nat && forallb (fun c => is_digit c || ((97 <=? c)%N && (c <=? 102)%N)) s.

(** The owner and the name in [^https://github.com/([^/]+)/([^/]+)$]. *)
Definition github_repository (s : jsstr) : option (jsstr * jsstr) :=
  match strip_prefix (js "https://github.com/") s with
  | Some rest => match split_on is_slash rest with
                 | [owner; name] => if empty owner || empty name then None else Some (owner, name)
                 | _ => None
                 end
  | None => None
  end.

Definition githubRawBase (source : jsval) : script jsstr :=
  repository ← prop source "source_repository";
  revision ← prop source "source_revision";
  match github_repository (to_string repository), is_revision (to_string revision) with
  | Some (owner, name), true =>
      mret (js "https://raw.githubusercontent.com/" ++ owner ++ js "/" ++ name ++ js "/" ++ to_string revision)
  | _, _ => throw_error (js "Capability source must use a GitHub repository and full commit: " ++ to_string repository)
  end.

Definition fetchSource (source : jsval) (relativePath : jsstr) : script jsstr :=
  base ← githubRawBase source;
  response ← lift (fetch (base ++ js "/" ++ relativePath));
  if fr_ok response then mret (fr_text response)
  else throw_error (js "failed to fetch " ++ relativePath ++ js ": " ++ dec (fr_status response) ++ js " " ++
                    fr_statusText response).

(** [spawnSync] and what [generate] makes of its result *)
Definition run_codegen (executable : jsstr) (arguments : list jsstr) (failure : jsstr) : script unit := fun w =>
  let result := spawnSync executable arguments (files w) in
  let w := {| files := sr_files result; made := made w; written := written w; spawned := spawned w ++ [arguments] |} in
  match sr_error result with
  | Some e => (Throw e, w)
  | None => (if bool_decide (sr_status result = Some 0) then Ok tt else fail failure, w)
  end.

Definition generate (capabilityId : jsstr) (source : jsval) (command : string) : script unit :=
  snapshot_descriptor ← prop source "snapshot_descriptor";
  snapshot ← packagePath snapshot_descriptor;
  typescript_projection ← prop source "typescript_projection";
  projection ← packagePath typescript_projection;
  run_codegen (default (js "lenso-contract-codegen") LENSO_CONTRACT_CODEGEN)
    [js command; snapshot; js "--typescript"; projection] (js command ++ js " failed for " ++ capabilityId).

(** One schema of the descriptor that was fetched. *)
Definition sync_schema (source : jsval) (sourceRoot snapshotRoot schemaPath : jsstr) : script unit :=
  schemaText ← fetchSource source (sourceRoot ++ js "/" ++ schemaPath);
  let target := path_resolve snapshotRoot schemaPath in
  if negb (starts_with (snapshotRoot ++ js "/") target) then
    throw_error (js "Schema path escapes contract snapshot: " ++ schemaPath)
  else
    mkdir (dirname target);;
    schema ← parse schemaText;
    writeFile target (pretty_file schema).

Definition syncCapability (capabilityId : jsstr) (source : jsval) : script unit :=
  source_descriptor ← prop source "source_descriptor";
  descriptorText ← fetchSource source (to_string source_descriptor);
  descriptor ← parse descriptorText;
  snapshot_descriptor ← prop source "snapshot_descriptor";
  descriptorPath ← packagePath snapshot_descriptor;
  mkdir (dirname descriptorPath);;
  writeFile descriptorPath (pretty_file descriptor);;
  match source_descriptor with
  | JStr path =>
      each (sync_schema source (dirname path) (dirname descriptorPath)) (schemaPaths descriptor []);;
      generate capabilityId source "generate"
  | _ => throw_error engine_error
  end.

(** The body of the loop over the capabilities of the lock. *)
Definition one_capability (sync : bool) (capabilities : jsval) (capabilityId : jsstr) : script unit :=
  let source := member capabilities capabilityId in
  (if sync then syncCapability capabilityId source else mret tt);;
  snapshot_descriptor ← prop source "snapshot_descriptor";
  path ← packagePath snapshot_descriptor;
  text ← readFile path;
  descriptor ← parse text;
  id ← prop descriptor "id";
  version ← prop descriptor "version";
  locked ← prop source "descriptor_version";
  if negb (strict_equal id (JStr capabilityId)) || negb (strict_equal version locked) then
    throw_error (js "locked identity does not match snapshot for " ++ capabilityId)
  else generate capabilityId source "check".

(** The script, with the word after its name: the line it prints at the end. *)
Definition capabilities_script (argument : option jsstr) : script jsstr :=
  let mode := default (js "check") argument in
  if negb (bool_decide (mode = js "check")) && negb (bool_decide (mode = js "sync")) then
    throw_error (js "usage: capabilities.mjs <check|sync>")
  else
    text ← readFile lockPath;
    lock ← parse text;
    schema_version ← prop lock "schema_version";
    if negb (is_num schema_version 2) then
      throw_error (js "unsupported capabilities lock schema: " ++ to_string schema_version)
    else
      capabilities ← prop lock "capabilities";
      capabilityIds ← lift (object_keys capabilities);
      if negb (bool_decide (join [10%N] capabilityIds = join [10%N] (sort_strings capabilityIds))) then
        throw_error (js "capabilities.lock.json entries must be sorted by Capability id")
      else
        each (one_capability (bool_decide (mode = js "sync")) capabilities) capabilityIds;;
        mret (mode ++ js "ed " ++ dec (Z.of_nat (length capabilityIds)) ++ js " Capability projections").
End script.

(** ** The lock of the package (capabilities.lock.json) *)

(** An entry: the binding is named after [name], and its contract comes from a crate. *)
Definition locked_entry (id version name package package_version repository revision : string) : jsstr * jsval :=
  (js id, JObj [
    (js "descriptor_version", JStr (js version));
    (js "export", JStr (js "./capabilities/" ++ js name));
    (js "source_package", JStr (js package));
    (js "source_package_version", JStr (js package_version));
    (js "source_repository", JStr (js repository));
    (js "source_revision", JStr (js revision));
    (js "source_descriptor", JStr (js "crates/" ++ js package ++ js "/capability.json"));
    (js "snapshot_descriptor", JStr (js "contracts/" ++ js name ++ js "/capability.json"));
    (js "typescript_projection", JStr (js "src/capabilities/" ++ js name ++ js ".ts"))]).

Definition locked_capabilities : list (jsstr * jsval) := [
  locked_entry "lenso.agent.auth.openai-codex@1" "1.0.0" "agent-auth-openai-codex" "lenso-capability-agent-auth-openai-codex" "0.1.0"
    "https://github.com/LioRael/lenso-agent" "299bcae89334ed3d0f566f7471f835328d2abe93";
  locked_entry "lenso.agent.model@1" "1.1.0" "agent-model" "lenso-capability-agent-model" "0.1.0"
    "https://github.com/LioRael/lenso-agent" "299bcae89334ed3d0f566f7471f835328d2abe93";
  locked_entry "lenso.agent.prompt-provider@1" "1.0.0" "agent-prompt-provider" "lenso-capability-agent-prompt-provider" "0.1.0"
    "https://github.com/LioRael/lenso-agent" "299bcae89334ed3d0f566f7471f835328d2abe93";
  locked_entry "lenso.agent.prompt@1" "1.0.0" "agent-prompt" "lenso-capability-agent-prompt" "0.1.0"
    "https://github.com/LioRael/lenso-agent" "299bcae89334ed3d0f566f7471f835328d2abe93";
  locked_entry "lenso.agent.session@1" "1.1.0" "agent-session" "lenso-capability-agent-session" "0.1.0"
    "https://github.com/LioRael/lenso-agent" "299bcae89334ed3d0f566f7471f835328d2abe93";
  locked_entry "lenso.agent.tool-provider@1" "1.0.0" "agent-tool-provider" "lenso-capability-agent-tool-provider" "0.1.0"
    "https://github.com/LioRael/lenso-agent" "299bcae89334ed3d0f566f7471f835328d2abe93";
  locked_entry "lenso.agent.tools@1" "1.0.0" "agent-tools" "lenso-capability-agent-tools" "0.1.0"
    "https://github.com/LioRael/lenso-agent" "299bcae89334ed3d0f566f7471f835328d2abe93";
  locked_entry "lenso.agent@1" "1.1.0" "agent" "lenso-capability-agent" "0.1.0"
    "https://github.com/LioRael/lenso-agent" "299bcae89334ed3d0f566f7471f835328d2abe93";
  locked_entry "lenso.auth.account-admin@1" "1.0.0" "account-admin" "lenso-capability-account-admin" "0.1.0"
    "https://github.com/LioRael/lenso-auth-plugin" "aa273af688b1755287c585bcaba343f7d9ed9e64";
  locked_entry "lenso.auth.anonymous@1" "1.0.0" "anonymous-auth" "lenso-capability-anonymous-auth" "0.1.0"
    "https://github.com/LioRael/lenso-auth-plugin" "aa273af688b1755287c585bcaba343f7d9ed9e64";
  locked_entry "lenso.auth.credential-issuer@1" "1.0.0" "credential-issuer" "lenso-capability-credential-issuer" "0.1.0"
    "https://github.com/LioRael/lenso-auth-plugin" "aa273af688b1755287c585bcaba343f7d9ed9e64";
  locked_entry "lenso.auth.device@1" "1.0.0" "device-auth" "lenso-capability-device-auth" "0.1.0"
    "https://github.com/LioRael/lenso-auth-plugin" "aa273af688b1755287c585bcaba343f7d9ed9e64";
  locked_entry "lenso.auth.federated@1" "1.0.0" "federated-auth" "lenso-capability-federated-auth" "0.1.0"
    "https://github.com/LioRael/lenso-auth-plugin" "aa273af688b1755287c585bcaba343f7d9ed9e64";
  locked_entry "lenso.auth.oauth-flow@1" "1.0.0" "oauth-flow" "lenso-capability-oauth-flow" "0.1.0"
    "https://github.com/LioRael/lenso-auth-plugin" "aa273af688b1755287c585bcaba343f7d9ed9e64";
  locked_entry "lenso.auth.oidc-provider@1" "1.0.0" "oidc-provider" "lenso-capability-oidc-provider" "0.1.0"
    "https://github.com/LioRael/lenso-auth-plugin" "aa273af688b1755287c585bcaba343f7d9ed9e64";
  locked_entry "lenso.auth.password@1" "1.0.0" "password-auth" "lenso-capability-password-auth" "0.1.0"
    "https://github.com/LioRael/lenso-auth-plugin" "aa273af688b1755287c585bcaba343f7d9ed9e64";
  locked_entry "lenso.auth.phone@1" "1.0.0" "phone-auth" "lenso-capability-phone-auth" "0.1.0"
    "https://github.com/LioRael/lenso-auth-plugin" "aa273af688b1755287c585bcaba343f7d9ed9e64";
  locked_entry "lenso.auth@1" "1.0.0" "auth" "lenso-capability-auth" "0.1.1"
    "https://github.com/LioRael/lenso-auth-plugin" "aa273af688b1755287c585bcaba343f7d9ed9e64";
  locked_entry "lenso.http.client@1" "1.0.1" "http-client" "lenso-capability-http-client" "0.2.2"
    "https://github.com/LioRael/lenso-web" "199921cc3e0471d481b4a4488219bcc3de1f17eb";
  locked_entry "lenso.http.endpoint@1" "1.1.0" "http-endpoint" "lenso-capability-http-endpoint" "0.2.5"
    "https://github.com/LioRael/lenso-web" "199921cc3e0471d481b4a4488219bcc3de1f17eb";
  locked_entry "lenso.identity.directory@1" "1.0.0" "identity-directory" "lenso-capability-identity-directory" "0.1.0"
    "https://github.com/LioRael/lenso-auth-plugin" "aa273af688b1755287c585bcaba343f7d9ed9e64";
  locked_entry "lenso.jobs@1" "1.0.0" "jobs" "lenso-capability-jobs" "0.1.0"
    "https://github.com/LioRael/lenso-jobs-plugin" "e4f0e097bfbc46284fc4aa678029a79f2f46ada4";
  locked_entry "lenso.message.sms@1" "1.0.0" "sms-delivery" "lenso-capability-sms-delivery" "0.1.0"
    "https://github.com/LioRael/lenso-auth-plugin" "aa273af688b1755287c585bcaba343f7d9ed9e64";
  locked_entry "lenso.secrets@1" "1.0.0" "secrets" "lenso-capability-secrets" "0.1.0"
    "https://github.com/LioRael/lenso-secrets-plugin" "8fcef31d2f27b3b1bb8785855613b14e273a3e96";
  locked_entry "lenso.websocket.endpoint@1" "1.0.0" "websocket-endpoint" "lenso-capability-websocket-endpoint" "0.1.0"
    "https://github.com/LioRael/lenso-web" "0425bd1cecd7ccd3df7bf698f148bf7a915e1f1f"].

Definition shipped_lock : jsval :=
  JObj [(js "schema_version", JNum (num 2)); (js "capabilities", JObj locked_capabilities)].
