(* ===== verification/CapabilityLockCorrect.v ===== *)
(** * What the script of the capability lock does

    Whatever the lock says and whatever the network and the file system answer, the script
    writes and generates only below the package ([lock_confined]); in the mode [check] it ends
    without an error exactly for a lock whose snapshots have the locked identities and are
    generated from ([lock_check_exact]); and the lock of this package names the shipped
    bindings with their versions ([shipped_lock_agrees]). *)

From Stdlib Require Import ZArith SpecFloat.
From S2P Require Import Prelude JsValue Text Json JsonText Authoring Capability Capabilities CapabilityLock.

Local Open Scope Z_scope.

(** ** Paths *)

Definition proper (part : jsstr) : Prop :=
  part ≠ [] ∧ part ≠ js "." ∧ part ≠ js ".." ∧ Forall (fun c => is_slash c = false) part.

(** An absolute path of these segments. *)
Definition abs (parts : list jsstr) : jsstr := js "/" ++ join (js "/") parts.

Lemma split_no_slash x : Forall (fun c => is_slash c = false) x → split_on is_slash x = [x].
Proof. induction 1 as [|c x Hc _ IH]; [done|]. cbn. by rewrite Hc, IH. Qed.

Lemma split_slash x s : Forall (fun c => is_slash c = false) x →
  split_on is_slash (x ++ 47%N :: s) = x :: split_on is_slash s.
Proof. induction 1 as [|c x Hc _ IH]; [done|]. cbn. by rewrite Hc, IH. Qed.

Lemma split_slash_app s t : split_on is_slash (s ++ 47%N :: t) = split_on is_slash s ++ split_on is_slash t.
Proof.
  induction s as [|c s IH]; [done|]. cbn. rewrite IH. destruct (is_slash c); [done|].
  destruct (split_on is_slash s) eqn:E; [by destruct (split_on_nonempty is_slash s)|done].
Qed.

Lemma split_join parts : parts ≠ [] → Forall proper parts → split_on is_slash (join (js "/") parts) = parts.
Proof.
  induction parts as [|x [|y l] IH]; [done| |]; intros _ [(_ & _ & _ & Hx) Hl]%Forall_cons.
  - cbn. rewrite app_nil_r. by apply split_no_slash.
  - rewrite join_cons. change (x ++ js "/" ++ join (js "/") (y :: l)) with (x ++ 47%N :: join (js "/") (y :: l)).
    rewrite split_slash by done. by rewrite IH.
Qed.

Lemma split_parts s : Forall (Forall (fun c => is_slash c = false)) (split_on is_slash s).
Proof.
  induction s as [|c s IH]; cbn; [by repeat constructor|]. destruct (is_slash c) eqn:E; [by constructor|].
  destruct (split_on is_slash s) as [|p ps]; [by repeat constructor|].
  apply Forall_cons in IH as [Hp Hps]. by repeat constructor.
Qed.

Lemma path_step_proper dir part :
  Forall proper dir → Forall (fun c => is_slash c = false) part → Forall proper (path_step dir part).
Proof.
  intros Hd Hp. unfold path_step. case_decide as H1; [done|]. case_decide as H2.
  - destruct dir as [|x dir] using rev_ind; [done|]. rewrite removelast_last. by apply Forall_app in Hd as [? _].
  - apply Forall_app. split; [done|]. repeat constructor; naive_solver.
Qed.

Lemma normalized_abs path : ∃ parts, normalized path = abs parts ∧ Forall proper parts.
Proof.
  unfold normalized. eexists. split; [done|]. pose proof (split_parts path) as Hs.
  assert (Hn : Forall proper []) by constructor. revert Hn. generalize (@nil jsstr) as dir.
  induction Hs as [|p ps Hp _ IH]; intros dir Hd; [done|]. cbn. apply IH. by apply path_step_proper.
Qed.

Lemma starts_with_app p s : starts_with p s = true ↔ ∃ t, s = p ++ t.
Proof.
  revert s. induction p as [|a p IH]; intros s; cbn; [naive_solver|].
  destruct s as [|b s]; [split; [done|by intros [t [=]]]|]. rewrite andb_true_iff, N.eqb_eq, IH.
  split; [intros [-> [t ->]]; by exists t|intros [t [= -> ->]]; eauto].
Qed.

(** A path that starts with a directory and a slash is below it. *)
Definition below (dir : list jsstr) (path : jsstr) : Prop :=
  ∃ rest, rest ≠ [] ∧ Forall proper rest ∧ path = abs (dir ++ rest).

Lemma resolve_below_dir dir s :
  dir ≠ [] → Forall proper dir → starts_with (abs dir ++ js "/") (path_resolve (abs dir) s) = true →
  below dir (path_resolve (abs dir) s).
Proof.
  intros Hne Hd (t & Et)%starts_with_app. unfold path_resolve in *. destruct (normalized_abs
    (if starts_with (js "/") s then s else abs dir ++ js "/" ++ s)) as (parts & E & Hp). rewrite E in *. clear E.
  unfold abs in Et. cbn [app] in Et. injection Et as Et.
  assert (Hnp : parts ≠ []).
  { intros ->. destruct dir as [|[|c x] [|y l]]; try done; apply Forall_cons in Hd as [[Hx _] _]; done. }
  apply (f_equal (split_on is_slash)) in Et. rewrite split_join in Et by done.
  rewrite <-app_assoc in Et. change ([47%N] ++ t) with (47%N :: t) in Et.
  change [47%N] with (js "/") in Et. rewrite split_slash_app, split_join in Et by done.
  exists (split_on is_slash t). subst parts. apply Forall_app in Hp as [_ Hp]. split; [apply split_on_nonempty|done].
Qed.

Lemma drop_while_all p s t : Forall (fun c => p c = true) s → drop_while p (s ++ t) = drop_while p t.
Proof. induction 1 as [|c s Hc _ IH]; [done|]. cbn. by rewrite Hc. Qed.

Lemma join_app l r : l ≠ [] → r ≠ [] → join (js "/") (l ++ r) = join (js "/") l ++ js "/" ++ join (js "/") r.
Proof.
  intros Hl Hr. induction l as [|y [|z l] IH]; [done| |].
  - destruct r as [|x r]; [done|]. cbn [app]. rewrite join_cons. cbn. by rewrite app_nil_r.
  - change ((y :: z :: l) ++ r) with (y :: z :: (l ++ r)). rewrite !join_cons.
    change (z :: l ++ r) with ((z :: l) ++ r). rewrite IH by done. by rewrite <-!app_assoc.
Qed.

Lemma dirname_abs dir x : dir ≠ [] → Forall proper dir → proper x → dirname (abs (dir ++ [x])) = abs dir.
Proof.
  intros Hne Hd (Hx & _ & _ & Hs). unfold abs. rewrite join_app by done. change (js "/") with [47%N]. cbn [app].
  change (join [47%N] [x]) with (x ++ []). rewrite app_nil_r.
  unfold dirname. rewrite rev_app_distr. cbn [rev].
  destruct x as [|c x _] using rev_ind; [done|]. apply Forall_app in Hs as [Hs [Hc _]%Forall_cons].
  rewrite rev_app_distr. cbn [rev app drop_while]. rewrite Hc. cbn [drop_while]. rewrite Hc. cbn [negb].
  rewrite <-app_assoc, drop_while_all. 2:{ apply Forall_rev. eapply Forall_impl; [exact Hs|]. cbn. by intros d ->. }
  cbn [app drop_while]. change (is_slash 47) with true. cbn [negb andb]. rewrite rev_involutive. unfold empty.
  rewrite bool_decide_false; [done|]. intros E. apply (f_equal (@rev N)) in E. rewrite rev_involutive in E.
  destruct dir as [|[|d y] l]; [done| |]; apply Forall_cons in Hd as [[Hy _] _]; done.
Qed.

(** The directory of a file below one is that one or below it. *)
Lemma dirname_below dir path :
  dir ≠ [] → Forall proper dir → below dir path →
  ∃ more, Forall proper (dir ++ more) ∧ dirname path = abs (dir ++ more).
Proof.
  intros Hne Hd (rest & Hr & Hp & ->). destruct rest as [|x rest _] using rev_ind; [done|].
  apply Forall_app in Hp as [Hrest [Hx _]%Forall_cons]. exists rest.
  assert (Hall : Forall proper (dir ++ rest)) by (by apply Forall_app).
  split; [done|]. rewrite app_assoc. apply dirname_abs; [by destruct dir|done|done].
Qed.

Lemma steps_proper dir parts : Forall proper parts → fold_left path_step parts dir = dir ++ parts.
Proof.
  intros Hp. revert dir. induction Hp as [|x l (H1 & H2 & H3 & _) _ IH]; intros dir; cbn; [by rewrite app_nil_r|].
  unfold path_step at 2. rewrite !decide_False by naive_solver. by rewrite IH, <-app_assoc.
Qed.

(** A relative path of proper segments leads below the directory. *)
Lemma resolve_relative dir parts :
  dir ≠ [] → Forall proper dir → parts ≠ [] → Forall proper parts →
  path_resolve (abs dir) (join (js "/") parts) = abs (dir ++ parts).
Proof.
  intros Hd Hdp Hp Hpp. unfold path_resolve. assert (Hs : starts_with (js "/") (join (js "/") parts) = false).
  { destruct parts as [|[|c x] l]; [done| |]; apply Forall_cons in Hpp as [(Hne & _ & _ & Hx) _]; [done|].
    apply Forall_cons in Hx as [Hc _]. cbn. unfold is_slash in Hc. by rewrite N.eqb_sym, Hc. }
  rewrite Hs. unfold normalized, abs. do 2 f_equal. change (js "/") with [47%N]. cbn [app]. cbn [split_on].
  change (is_slash 47) with true. cbv iota. rewrite split_slash_app. change [47%N] with (js "/").
  rewrite !split_join by done. cbn [fold_left]. change (path_step [] []) with (@nil jsstr).
  by rewrite steps_proper by (by apply Forall_app).
Qed.

#[export] Instance proper_dec part : Decision (proper part).
Proof. unfold proper. apply _. Defined.

Definition relative_path (s : jsstr) : bool :=
  bool_decide (join (js "/") (split_on is_slash s) = s) && forallb (fun p => bool_decide (proper p)) (split_on is_slash s).

Lemma relative_path_below dir s :
  dir ≠ [] → Forall proper dir → relative_path s = true → below dir (path_resolve (abs dir) s).
Proof.
  intros Hd Hp [E%bool_decide_eq_true Hs]%andb_true_iff. exists (split_on is_slash s).
  assert (Hf : Forall proper (split_on is_slash s)).
  { apply Forall_forall. intros x Hx. rewrite forallb_forall in Hs. apply (bool_decide_eq_true_1 _), Hs. by apply list_elem_of_In. }
  split_and!; [apply split_on_nonempty|done|]. rewrite <-E at 1. apply resolve_relative; try done. apply split_on_nonempty.
Qed.

(** ** What a script may do *)

Section scripts.
Context `{Toolchain}.

Lemma script_bind_Ok {A B} (m : script A) (f : A → script B) w b w' :
  (m ≫= f) w = (Ok b, w') ↔ ∃ a w1, m w = (Ok a, w1) ∧ f a w1 = (Ok b, w').
Proof.
  unfold mbind, script_bind. destruct (m w) as [[a|e] w1]; [naive_solver|]. split; [done|by intros (? & ? & [=] & _)].
Qed.

Context (root : list jsstr) (Hne : root ≠ []) (Hroot : Forall proper root) (Habs : packageRoot = abs root).

(** A call of the code generator: a command, and two paths below the package. *)
Definition call_below (arguments : list jsstr) : Prop :=
  ∃ command snapshot projection, arguments = [command; snapshot; js "--typescript"; projection] ∧
    below root snapshot ∧ below root projection.

(** The directory of the package, or one below it. *)
Definition within_package (path : jsstr) : Prop := path = abs root ∨ below root path.

Section writes.
(** The code generator writes the file it is told to write. *)
Context (Hgenerator : ∀ executable arguments fs path,
  sr_files (spawnSync executable arguments fs) !! path ≠ fs !! path → last arguments = Some path).

Section confined.
Context (files0 : gmap jsstr jsstr).

Definition clean (w : world) : Prop :=
  Forall within_package (made w) ∧ Forall (below root) (written w) ∧ Forall call_below (spawned w) ∧
  ∀ path, files w !! path ≠ files0 !! path → below root path.

(** Writes and generates below the package, and returns what [Q] says if it returns. *)
Definition safely {A} (m : script A) (Q : A → Prop) : Prop :=
  ∀ w, clean w → clean (m w).2 ∧ ∀ a, (m w).1 = Ok a → Q a.

Lemma safely_ret {A} (a : A) (Q : A → Prop) : Q a → safely (mret a) Q.
Proof. intros Ha w Hw. split; [done|]. by intros b [= <-]. Qed.

Lemma safely_bind {A B} (m : script A) (f : A → script B) Q Q' :
  safely m Q → (∀ a, Q a → safely (f a) Q') → safely (m ≫= f) Q'.
Proof.
  intros Hm Hf w Hw. destruct (Hm w Hw) as [Hc Hq]. unfold mbind, script_bind.
  destruct (m w) as [[a|e] w1]; [apply (Hf a); [by apply Hq|done]|by split].
Qed.

Lemma safely_lift {A} (m : throws A) (Q : A → Prop) : (∀ a, m = Ok a → Q a) → safely (lift m) Q.
Proof. by intros Hm w Hw. Qed.

Lemma safely_throw {A} message (Q : A → Prop) : safely (throw_error message) Q.
Proof. by apply safely_lift. Qed.

Lemma safely_each {A} (f : A → script unit) l : (∀ x, safely (f x) (fun _ => True)) → safely (each f l) (fun _ => True).
Proof.
  intros Hf. induction l as [|x l IH]; [by apply safely_ret|]. eapply safely_bind; [apply Hf|]. by intros _ _.
Qed.

Lemma safely_read path : safely (readFile path) (fun _ => True).
Proof. by intros w Hw. Qed.

Lemma safely_write path text : below root path → safely (writeFile path text) (fun _ => True).
Proof.
  intros Hp w (Hm & Hw & Hs & Hf). split; [|done].
  assert (∀ content, clean {| files := partial_alter (fun _ => content) path (files w); made := made w;
    written := written w ++ [path]; spawned := spawned w |}) as Hc.
  { intros content. split_and!; [done|apply Forall_app; split; [done|by constructor]|done|].
    cbn. intros path'. destruct (decide (path = path')) as [<-|Hd]; [done|]. rewrite lookup_partial_alter_ne by done. apply Hf. }
  unfold writeFile. destruct (write_error _ _ _) as [[e content]|]; apply Hc.
Qed.

Lemma safely_mkdir path : below root path → safely (mkdir (dirname path)) (fun _ => True).
Proof.
  intros Hp w (Hm & Hw & Hs & Hf). split; [|done]. split_and!; [|done..]. cbn. apply Forall_app. split; [done|].
  constructor; [|constructor]. destruct (dirname_below root path Hne Hroot Hp) as (more & Hall & ->).
  destruct more as [|x more]; [left; by rewrite app_nil_r|right]. exists (x :: more).
  split_and!; [done|by apply Forall_app in Hall as [_ ?]|done].
Qed.

Lemma safely_parse text : safely (parse text) (fun _ => True).
Proof. unfold parse. destruct (json_parse text); [by apply safely_ret|apply safely_throw]. Qed.

Lemma safely_prop v key : safely (prop v key) (fun _ => True).
Proof. by apply safely_lift. Qed.

Lemma safely_path v : safely (packagePath v) (below root).
Proof.
  unfold packagePath. destruct v; try apply safely_throw. rewrite Habs.
  destruct (starts_with _ _) eqn:E; [|apply safely_throw]. apply safely_ret. by apply resolve_below_dir.
Qed.

Lemma safely_codegen executable arguments failure :
  call_below arguments → safely (run_codegen executable arguments failure) (fun _ => True).
Proof.
  intros Ha w (Hm & Hw & Hs & Hf). assert (Forall call_below (spawned w ++ [arguments])) by (apply Forall_app; split; [done|by constructor]).
  assert (∀ path, sr_files (spawnSync executable arguments (files w)) !! path ≠ files0 !! path → below root path).
  { intros path Hp. destruct (decide (sr_files (spawnSync executable arguments (files w)) !! path = files w !! path)) as [E|E].
    - apply Hf. by rewrite <-E.
    - apply Hgenerator in E. destruct Ha as (command & snapshot & projection & -> & _ & Hp'). by injection E as <-. }
  unfold run_codegen. by destruct (sr_error _).
Qed.

Create HintDb safely.
#[local] Hint Resolve safely_throw safely_read safely_mkdir safely_write safely_parse safely_prop safely_path : safely.

(** Goes through a script, statement by statement. *)
Ltac run_safely :=
  repeat match goal with
  | |- safely (_ ≫= _) _ => eapply safely_bind; [eauto with safely|intros ? ?]
  | |- safely (if _ then _ else _) _ => case_match
  | |- safely (match _ with _ => _ end) _ => case_match
  | |- safely (mret _) _ => by apply safely_ret
  | |- safely _ _ => solve [eauto with safely]
  end.

Lemma safely_raw source : safely (githubRawBase source) (fun _ => True).
Proof. unfold githubRawBase. run_safely. Qed.

Lemma safely_lifted {A} (m : throws A) : safely (lift m) (fun _ => True).
Proof. by apply safely_lift. Qed.

#[local] Hint Resolve safely_raw safely_lifted : safely.

Lemma safely_fetch source path : safely (fetchSource source path) (fun _ => True).
Proof. unfold fetchSource. run_safely. Qed.

Lemma safely_generate id source command : safely (generate id source command) (fun _ => True).
Proof. unfold generate. run_safely. apply safely_codegen. by do 3 eexists. Qed.

#[local] Hint Resolve safely_fetch safely_generate : safely.

Lemma safely_schema source sourceRoot more schemaPath :
  Forall proper (root ++ more) → safely (sync_schema source sourceRoot (abs (root ++ more)) schemaPath) (fun _ => True).
Proof.
  intros Hm. unfold sync_schema. eapply safely_bind; [eauto with safely|]. intros text _. cbn zeta.
  destruct (negb _) eqn:Hout; [apply safely_throw|].
  assert (below root (path_resolve (abs (root ++ more)) schemaPath)); [|by run_safely].
  destruct (resolve_below_dir (root ++ more) schemaPath) as (rest & Hr & Hp & ->);
    [by destruct root|done|by apply negb_false_iff|].
  exists (more ++ rest). rewrite <-app_assoc. split; [by destruct more, rest|]. split; [|done].
  apply Forall_app in Hm as [_ Hm]. by apply Forall_app.
Qed.

Lemma safely_sync id source : safely (syncCapability id source) (fun _ => True).
Proof.
  unfold syncCapability. run_safely. apply safely_each. intros path.
  match goal with Hb : below root _ |- _ => destruct (dirname_below root _ Hne Hroot Hb) as (more & Hm & ->) end.
  by apply safely_schema.
Qed.

#[local] Hint Resolve safely_sync : safely.

Lemma safely_one sync capabilities id : safely (one_capability sync capabilities id) (fun _ => True).
Proof. unfold one_capability. destruct sync; run_safely. all: by apply safely_ret. Qed.

Lemma safely_script argument : safely (capabilities_script argument) (fun _ => True).
Proof. unfold capabilities_script. run_safely. apply safely_each. intros id. apply safely_one. Qed.
End confined.

(** C31: the script of the capability lock stays inside the package.  Whatever the lock says and
    whatever the network and the file system answer, in both modes and also when it fails: every
    file it writes and every path it hands to the code generator is below the package, without
    [.] or [..] in it, every directory it makes is the package's or below it, and no other file
    changes. *)
Theorem lock_confined argument w :
  made w = [] → written w = [] → spawned w = [] →
  let w' := (capabilities_script argument w).2 in
  Forall within_package (made w') ∧ Forall (below root) (written w') ∧ Forall call_below (spawned w') ∧
  ∀ path, files w' !! path ≠ files w !! path → below root path.
Proof.
  intros Hm Hw Hs. destruct (safely_script (files w) argument w) as [(H0 & H1 & H2 & H3) _]; [|by split_and!].
  split_and!; [by rewrite Hm|by rewrite Hw|by rewrite Hs|by intros path []].
Qed.

End writes.

(** ** Checking *)

Lemma below_starts s :
  below root (path_resolve packageRoot s) ↔ starts_with (packageRoot ++ js "/") (path_resolve packageRoot s) = true.
Proof.
  rewrite Habs. split; [|by apply resolve_below_dir]. intros (rest & Hr & _ & E). rewrite E. apply starts_with_app.
  exists (join (js "/") rest). unfold abs. by rewrite join_app, <-!app_assoc.
Qed.

(** A file of the package. *)
Abbreviation file := (path_resolve packageRoot).

(** An entry of the lock whose snapshot has the locked identity and is generated from: the call
    of the code generator that says so. *)
Definition locked (fs : gmap jsstr jsstr) (capabilities : jsval) (id : jsstr) (call : list jsstr) : Prop :=
  ∃ source snapshot projection text descriptor,
    member capabilities id = JObj source ∧
    field source "snapshot_descriptor" = JStr snapshot ∧ below root (file snapshot) ∧
    field source "typescript_projection" = JStr projection ∧ below root (file projection) ∧
    fs !! file snapshot = Some text ∧ json_parse text = Some (JObj descriptor) ∧
    field descriptor "id" = JStr id ∧ strict_equal (field descriptor "version") (field source "descriptor_version") = true ∧
    call = [js "check"; file snapshot; js "--typescript"; file projection] ∧
    let r := spawnSync (default (js "lenso-contract-codegen") LENSO_CONTRACT_CODEGEN) call fs in
    sr_error r = None ∧ sr_status r = Some 0.

Lemma lift_Ok {A} (m : throws A) w a w' : lift m w = (Ok a, w') ↔ m = Ok a ∧ w' = w.
Proof. unfold lift. naive_solver. Qed.

Lemma packagePath_Ok v w p w' :
  packagePath v w = (Ok p, w') ↔ (∃ s, v = JStr s ∧ below root (file s) ∧ p = file s) ∧ w' = w.
Proof.
  unfold packagePath. destruct v as [| | | |s| | |]; try (split; [done|by intros [(? & [=] & _) _]]).
  cbn zeta. destruct (starts_with _ _) eqn:E.
  - apply below_starts in E. split; [intros [= <- <-]; split; [by exists s|done]|].
    by intros [(? & [= <-] & _ & ->) ->].
  - split; [done|]. intros [(? & [= <-] & Hb & _) _]. apply below_starts in Hb. congruence.
Qed.

Lemma get_JObj v key x : get engine_error v key = Ok x → (∃ s, x = JStr s) → ∃ fs, v = JObj fs ∧ field fs key = x.
Proof.
  intros E [s ->]. destruct v as [| | | |u|l|fs|]; cbn in E; try done; [by destruct (String.eqb _ _)..|].
  exists fs. split; [done|]. by injection E.
Qed.

Lemma parse_Ok text w v w' : parse text w = (Ok v, w') ↔ json_parse text = Some v ∧ w' = w.
Proof.
  unfold parse. destruct (json_parse text) as [v'|]; [|split; [done|by intros [[=] _]]].
  unfold mret, script_ret. split; [by intros [= -> ->]|by intros [[= ->] ->]].
Qed.

Lemma read_Ok path w text w' : readFile path w = (Ok text, w') ↔ files w !! path = Some text ∧ w' = w.
Proof.
  unfold readFile. destruct (files w !! path) as [t'|]; [|split; [done|by intros [[=] _]]].
  split; [by intros [= -> ->]|by intros [[= ->] ->]].
Qed.

Lemma strict_equal_JStr v s : strict_equal v (JStr s) = true ↔ v = JStr s.
Proof. unfold strict_equal. destruct v; by rewrite bool_decide_eq_true. Qed.

(** What a call of the code generator leaves of the files. *)
Definition after_call (call : list jsstr) (fs : gmap jsstr jsstr) : gmap jsstr jsstr :=
  sr_files (spawnSync (default (js "lenso-contract-codegen") LENSO_CONTRACT_CODEGEN) call fs).

(** The world after these calls of the code generator, which left these files. *)
Definition called (calls : list (list jsstr)) (fs : gmap jsstr jsstr) (w : world) : world :=
  {| files := fs; made := made w; written := written w; spawned := spawned w ++ calls |}.

(** Every capability is locked, each in the files the calls before it have left. *)
Inductive all_locked (capabilities : jsval) :
  list jsstr → list (list jsstr) → gmap jsstr jsstr → gmap jsstr jsstr → Prop :=
| locked_none fs : all_locked capabilities [] [] fs fs
| locked_next id ids call calls fs fs' :
    locked fs capabilities id call → all_locked capabilities ids calls (after_call call fs) fs' →
    all_locked capabilities (id :: ids) (call :: calls) fs fs'.

Lemma one_check_Ok capabilities id w u w' :
  one_capability false capabilities id w = (Ok u, w') ↔
  ∃ call, locked (files w) capabilities id call ∧ w' = called [call] (after_call call (files w)) w.
Proof.
  unfold one_capability, generate, prop. split.
  - repeat setoid_rewrite script_bind_Ok.
    intros (_ & _ & [= _ <-] & sd & _ & [Hsd ->]%lift_Ok & path & _ & [(s & -> & Hs & ->) ->]%packagePath_Ok &
      text & _ & [Ht ->]%read_Ok & d & _ & [Hj ->]%parse_Ok & did & _ & [Hid ->]%lift_Ok & ver & _ & [Hver ->]%lift_Ok &
      lv & _ & [Hlv ->]%lift_Ok & Hrest).
    destruct (get_JObj _ _ _ Hsd) as (source & Hm & Hsnap); [by eexists|].
    destruct (negb (strict_equal did (JStr id)) || negb (strict_equal ver lv)) eqn:E; [done|].
    apply orb_false_iff in E as [->%negb_false_iff%strict_equal_JStr E%negb_false_iff].
    destruct (get_JObj _ _ _ Hid) as (descriptor & -> & Hfid); [by eexists|].
    rewrite Hm in *. injection Hver as <-. injection Hlv as <-. repeat setoid_rewrite script_bind_Ok in Hrest.
    destruct Hrest as (sd' & _ & [[= Hsd'] ->]%lift_Ok & p1 & _ & [(s' & Es & _ & ->) ->]%packagePath_Ok &
      proj & _ & [[= Hproj] ->]%lift_Ok & p2 & _ & [(s2 & E2 & Hb2 & ->) ->]%packagePath_Ok & Hrun).
    rewrite Hsnap in Hsd'. subst sd'. injection Es as <-. subst proj.
    unfold run_codegen in Hrun. cbn zeta in Hrun.
    destruct (sr_error _) eqn:Ee; [done|]. destruct (bool_decide _) eqn:Eb; [|done]. injection Hrun as _ <-.
    apply bool_decide_eq_true in Eb. eexists. split; [|done]. exists source, s, s2, text, descriptor. by split_and!.
  - intros (call & (source & s & s2 & text & d & Hm & Hs & Hb & Hp & Hb2 & Ht & Hj & Hid & Hv & -> & He & Hst) & ->).
    assert (Hpp : ∀ x, below root (file x) → packagePath (JStr x) w = (Ok (file x), w))
      by (intros x Hx; apply packagePath_Ok; split; [by exists x|done]).
    unfold mbind, script_bind, mret, script_ret, lift. rewrite Hm. cbn [get mret result_ret].
    rewrite Hs, (Hpp s Hb). unfold readFile. rewrite Ht. unfold parse. rewrite Hj. cbn [mret script_ret get result_ret].
    rewrite Hid, Hv. cbn [strict_equal]. rewrite bool_decide_true by done. cbn [negb orb].
    rewrite (Hpp s Hb), Hp, (Hpp s2 Hb2). unfold run_codegen. rewrite He, Hst. by destruct u.
Qed.

Lemma each_check_Ok capabilities ids w u w' :
  each (one_capability false capabilities) ids w = (Ok u, w') ↔
  ∃ calls fs, all_locked capabilities ids calls (files w) fs ∧ w' = called calls fs w.
Proof.
  destruct u. revert w. induction ids as [|id ids IH]; intros w; cbn [each].
  - split.
    + intros [= <-]. exists [], (files w). split; [constructor|]. destruct w. unfold called. cbn. by rewrite app_nil_r.
    + intros (calls & fs & Hl & ->). inversion Hl. subst. destruct w. unfold called. cbn. by rewrite app_nil_r.
  - rewrite script_bind_Ok. setoid_rewrite one_check_Ok. setoid_rewrite IH. split.
    + intros (_ & _ & (call & Hc & ->) & calls & fs & Hcs & ->). exists (call :: calls), fs.
      split; [by constructor|]. unfold called. cbn. by rewrite <-app_assoc.
    + intros (calls0 & fs & Hl & ->). inversion Hl as [|? ? call calls ? ? Hc Hcs]. subst.
      exists tt, (called [call] (after_call call (files w)) w). split; [by exists call|]. exists calls, fs.
      split; [done|]. unfold called. cbn. by rewrite <-app_assoc.
Qed.

(** The capabilities a lock of schema version 2 names, in its order. *)
Definition lock_names (fs : gmap jsstr jsstr) (capabilities : jsval) (ids : list jsstr) : Prop :=
  ∃ text lock, fs !! lockPath = Some text ∧ json_parse text = Some (JObj lock) ∧
    is_num (field lock "schema_version") 2 = true ∧ field lock "capabilities" = capabilities ∧
    object_keys capabilities = Ok ids.

(** The names, one a line, read as the lines of their sorted list. *)
Definition sorted_lines (ids : list jsstr) : Prop :=
  ∃ ordered, ordered ≡ₚ ids ∧ StronglySorted str_le ordered ∧ join [10%N] ids = join [10%N] ordered.

Lemma sorted_lines_sort ids : sorted_lines ids ↔ join [10%N] ids = join [10%N] (sort_strings ids).
Proof.
  split.
  - intros (ordered & Hp & Hs & ->). f_equal. apply (StronglySorted_unique str_le); [done| |by rewrite sort_strings_perm].
    apply (StronglySorted_merge_sort str_le).
  - intros E. exists (sort_strings ids). split; [apply sort_strings_perm|]. split; [|done].
    apply (StronglySorted_merge_sort str_le).
Qed.

Lemma line_split (a b a' b' : jsstr) :
  (10%N ∉ a) → (10%N ∉ a') → a ++ [10%N] ++ b = a' ++ [10%N] ++ b' → a = a' ∧ b = b'.
Proof.
  revert a'. induction a as [|x a IH]; intros [|x' a'] Ha Ha'; cbn.
  - by intros [= ->].
  - intros [= <- _]. set_solver.
  - intros [= -> _]. set_solver.
  - intros [= -> E]. destruct (IH a') as [-> ->]; [set_solver|set_solver|done|done].
Qed.

Lemma lines_inj l l' :
  Forall (fun x => 10%N ∉ x) l → Forall (fun x => 10%N ∉ x) l' → length l = length l' →
  join [10%N] l = join [10%N] l' → l = l'.
Proof.
  intros Hl. revert l'. induction Hl as [|x l Hx Hl IH]; intros [|x' l'] Hl' Hn E; try done.
  apply Forall_cons in Hl' as [Hx' Hl']. destruct l as [|y l], l' as [|y' l']; try done.
  - cbn in E. rewrite !app_nil_r in E. by rewrite E.
  - rewrite !join_cons in E. apply line_split in E as [-> E]; [|done..]. f_equal. apply IH; [done| |done].
    cbn in *. lia.
Qed.

(** Without a line break in a name, that is their order. *)
Lemma sorted_lines_names ids :
  Forall (fun x => 10%N ∉ x) ids → sorted_lines ids ↔ StronglySorted str_le ids.
Proof.
  intros Hf. split; [|by exists ids]. intros (ordered & Hp & Hs & E).
  rewrite (lines_inj ids ordered); [done|done|by rewrite Hp|by rewrite Hp|done].
Qed.

(** The argument that asks for a check: none, or the word. *)
Definition asks_check (argument : option jsstr) : Prop := argument = None ∨ argument = Some (js "check").

(** What the script finds and does when it ends without an error, given the order asked of the names. *)
Definition lock_checked (in_order : list jsstr → Prop) (w : world) (line : jsstr) (w' : world) : Prop :=
  ∃ capabilities ids calls,
    lock_names (files w) capabilities ids ∧ in_order ids ∧
    all_locked capabilities ids calls (files w) (files w') ∧
    line = js "checked " ++ dec (Z.of_nat (length ids)) ++ js " Capability projections" ∧
    made w' = made w ∧ written w' = written w ∧ spawned w' = spawned w ++ calls.

Lemma lock_check_Ok argument w line w' :
  asks_check argument → capabilities_script argument w = (Ok line, w') ↔ lock_checked sorted_lines w line w'.
Proof.
  intros Hargument. unfold capabilities_script, prop, lock_checked.
  replace (default (js "check") argument) with (js "check") by (by destruct Hargument as [->| ->]). split.
  - rewrite !bool_decide_true by done. cbn [negb andb]. repeat setoid_rewrite script_bind_Ok.
    intros (text & _ & [Ht ->]%read_Ok & lock & _ & [Hj ->]%parse_Ok & v & _ & [Hv ->]%lift_Ok & Hrest).
    destruct (is_num v 2) eqn:Ev; [|done]. cbn [negb] in Hrest. repeat setoid_rewrite script_bind_Ok in Hrest.
    destruct Hrest as (capabilities & _ & [Hc ->]%lift_Ok & ids & _ & [Hk ->]%lift_Ok & Hrest).
    destruct (bool_decide _) eqn:Es; [|done]. apply bool_decide_eq_true, sorted_lines_sort in Es. cbn [negb] in Hrest.
    repeat setoid_rewrite script_bind_Ok in Hrest.
    destruct Hrest as (u & w1 & (calls & fs' & Hcs & ->)%each_check_Ok & [= <- <-]).
    assert (∃ fs, lock = JObj fs) as [fs ->].
    { destruct lock as [| | | |s|l|fs|]; cbn in Hv; try done; try (injection Hv as <-; done); by exists fs. }
    injection Hv as <-. injection Hc as <-. exists (field fs "capabilities"), ids, calls.
    split; [by exists text, fs|]. by split_and!.
  - intros (capabilities & ids & calls & (text & lock & Ht & Hj & Hv & Hc & Hk) & Hs & Hcs & -> & Hm & Hw & Hsp).
    apply sorted_lines_sort in Hs. rewrite !bool_decide_true by done. cbn [negb andb].
    unfold mbind, script_bind, lift, readFile. rewrite Ht. unfold parse. rewrite Hj. cbn [mret script_ret get result_ret].
    rewrite Hv. cbn [negb]. rewrite Hc, Hk, bool_decide_true by done. cbn [negb].
    rewrite (bool_decide_false (js "check" = js "sync")) by done.
    assert (w' = called calls (files w') w) as Ew' by (destruct w'; cbn in *; by subst).
    destruct (each_check_Ok capabilities ids w tt w') as [_ He]. by rewrite He by (by exists calls, (files w')).
Qed.

(** C32: checking the capability lock is exact.  Run with no argument or with [check] in a package
    whose directory is an absolute path, the script ends without an error exactly if the lock
    has the schema version 2, its names joined by line breaks are its sorted names joined by
    line breaks, and for every name in turn both paths of the entry are below the package, the
    snapshot is there as the calls of the code generator so far have left it, has the locked
    identity and version, and the code generator exits with 0 for it and its projection.  The
    script then has made no directory and written no file itself, so that the files are those the calls left, and has
    made exactly one call for each name, in order.  Where no name contains a line break, the
    condition on the names is that they are sorted. *)
Theorem lock_check_exact argument w line w' :
  asks_check argument →
  (capabilities_script argument w = (Ok line, w') ↔ lock_checked sorted_lines w line w') ∧
  ((∀ capabilities ids, lock_names (files w) capabilities ids → Forall (fun x => 10%N ∉ x) ids) →
   capabilities_script argument w = (Ok line, w') ↔ lock_checked (StronglySorted str_le) w line w').
Proof.
  intros Ha. split; [by apply lock_check_Ok|]. intros Hf. rewrite (lock_check_Ok _ _ _ _ Ha). unfold lock_checked.
  split; intros (capabilities & ids & calls & Hn & Hs & Hrest); exists capabilities, ids, calls;
    (split; [done|]); (split; [|done]); apply (sorted_lines_names ids); eauto.
Qed.
End scripts.

(** ** The lock of the package *)

(** The string a property of an entry holds. *)
Definition entry_text (entry : jsval) (key : string) : jsstr :=
  match entry with JObj fs => match field fs key with JStr s => s | _ => [] end | _ => [] end.

(** The capabilities of the lock are those of the bindings: same names, same versions. *)
Definition lock_agrees : bool :=
  bool_decide (sort_strings (map (fun c => capability_id (cap_descriptor c)) shipped) = keys locked_capabilities) &&
  forallb (fun c => match assoc (capability_id (cap_descriptor c)) locked_capabilities with
                    | Some e => bool_decide (entry_text e "descriptor_version" = descriptor_version (cap_descriptor c))
                    | None => false
                    end) shipped.

(** An entry of the lock as the script reads it. *)
Definition entry_complete (e : jsstr * jsval) : bool :=
  match e.2 with
  | JObj fs =>
      forallb (fun key => bool_decide (field fs key = JStr (entry_text e.2 key)))
        ["snapshot_descriptor"; "typescript_projection"; "descriptor_version"]%string &&
      relative_path (entry_text e.2 "snapshot_descriptor") && relative_path (entry_text e.2 "typescript_projection") &&
      bool_decide (is_Some (github_repository (entry_text e.2 "source_repository"))) &&
      is_revision (entry_text e.2 "source_revision")
  | _ => false
  end.

Lemma shipped_lock_agrees :
  json_parse (pretty_file shipped_lock) = Some shipped_lock ∧ lock_agrees = true ∧
  forallb entry_complete locked_capabilities = true ∧
  sort_strings (keys locked_capabilities) = keys locked_capabilities ∧
  forallb (fun e => bool_decide (assoc e.1 locked_capabilities = Some e.2)) locked_capabilities = true.
Proof. split_and!; vm_compute; reflexivity. Qed.

(** ** Runs *)

Module Demo.
Definition root : list jsstr := [js "srv"; js "bun"].

(** The lock of one capability. *)
Definition small_lock (snapshot projection : jsstr) : jsval :=
  JObj [(js "schema_version", JNum (num 2)); (js "capabilities", JObj [(js "demo@1", JObj [
    (js "descriptor_version", JStr (js "1.0.0"));
    (js "source_repository", JStr (js "https://github.com/acme/demo"));
    (js "source_revision", JStr (js "0123456789abcdef0123456789abcdef01234567"));
    (js "source_descriptor", JStr (js "crates/demo/capability.json"));
    (js "snapshot_descriptor", JStr snapshot); (js "typescript_projection", JStr projection)])])].

Definition descriptor (id version : jsstr) (schema : jsstr) : jsval :=
  JObj [(js "id", JStr id); (js "version", JStr version); (js "input_schema", JStr schema)].

(** A network that serves a descriptor whose second schema leaves the snapshot, and a generator
    that writes the projection. *)
#[local] Instance tools : Toolchain := {|
  packageRoot := js "/srv/bun";
  fetch url := mret {| fr_ok := true; fr_status := 200; fr_statusText := js "OK";
    fr_text := pretty_file (JObj [(js "id", JStr (js "demo@1")); (js "version", JStr (js "1.0.0"));
      (js "input_schema", JStr (js "schemas/in.json")); (js "output_schema", JStr (js "../../../.bashrc"))]) |};
  spawnSync executable arguments fs :=
    {| sr_error := None; sr_status := Some 0;
       sr_files := match arguments with
                   | [command; _; _; projection] =>
                       if decide (command = js "generate") then <[projection := js "export {};"]> fs else fs
                   | _ => fs
                   end |};
  LENSO_CONTRACT_CODEGEN := None;
  no_entry path := ErrorObject (js "ENOENT: " ++ path);
  mkdir_error _ _ := None;
  write_error _ _ _ := None;
  engine_error := js "engine error" |}.

Definition at_start (fs : list (jsstr * jsstr)) : world := {| files := list_to_map fs; made := []; written := []; spawned := [] |}.

Definition small_world : world := at_start [
  (js "/srv/bun/capabilities.lock.json", pretty_file (small_lock (js "contracts/demo/capability.json") (js "src/demo.ts")));
  (js "/srv/bun/contracts/demo/capability.json", pretty_file (descriptor (js "demo@1") (js "1.0.0") (js "in.json")))].

Lemma root_proper : Forall proper root.
Proof. repeat (constructor; [apply (bool_decide_eq_true_1 _); vm_compute; reflexivity|]). constructor. Qed.

Lemma tools_generator executable arguments fs path :
  sr_files (spawnSync executable arguments fs) !! path ≠ fs !! path → last arguments = Some path.
Proof.
  cbn. destruct arguments as [|a [|b [|c [|d [|]]]]]; try done. case_decide; [|done].
  destruct (decide (d = path)) as [->|Hd]; [done|]. by rewrite lookup_insert_ne.
Qed.

(** The second schema is refused; the descriptor and the first schema are written before. *)
Lemma lock_confined_witness :
  let run := capabilities_script (Some (js "sync")) small_world in
  run.1 = fail (js "Schema path escapes contract snapshot: ../../../.bashrc") ∧
  written run.2 = [js "/srv/bun/contracts/demo/capability.json"; js "/srv/bun/contracts/demo/schemas/in.json"] ∧
  made run.2 = [js "/srv/bun/contracts/demo"; js "/srv/bun/contracts/demo/schemas"] ∧
  Forall (within_package root) (made run.2) ∧
  Forall (below root) (written run.2) ∧ Forall (call_below root) (spawned run.2) ∧
  ∀ path, files run.2 !! path ≠ files small_world !! path → below root path.
Proof.
  do 3 (split; [vm_compute; reflexivity|]).
  exact (lock_confined root ltac:(discriminate) root_proper eq_refl tools_generator (Some (js "sync")) small_world
    eq_refl eq_refl eq_refl).
Defined.

(** A lock of one capability, checked under both spellings of the mode. *)
Lemma lock_check_exact_witness :
  lock_checked root (StronglySorted str_le) small_world (js "checked 1 Capability projections")
    (called [[js "check"; js "/srv/bun/contracts/demo/capability.json"; js "--typescript"; js "/srv/bun/src/demo.ts"]]
       (files small_world) small_world).
Proof.
  refine (proj1 (proj2 (lock_check_exact root ltac:(discriminate) root_proper eq_refl (Some (js "check"))
    small_world _ _ ltac:(by right)) _) _); [|vm_compute; reflexivity].
  intros capabilities ids (text & lock & Ht & Hj & _ & <- & Hk).
  assert (Some ids = Some [js "demo@1"]) as [= ->].
  { vm_compute in Ht. injection Ht as <-. vm_compute in Hj. injection Hj as <-. vm_compute in Hk.
    injection Hk as <-. reflexivity. }
  repeat constructor. apply (bool_decide_unpack _). vm_compute. exact I.
Defined.
End Demo.
